(* ===== verification/_CoqProject ===== *)
-Q . S2P
Prelude.v
GoString.v
Base64.v
Rpc.v
Errors.v
Metadata.v
RequestContext.v
Runtime.v
TransportStream.v
ServerStream.v
Chan.v
Multiplexer.v
MuxDelivery.v
MuxHazards.v
MuxTermination.v
TestConn.v
Interceptors.v
Server.v
ClientConn.v
ServerLoop.v
ServerUnary.v
ServerShutdown.v
Unary.v
ClientStream.v
Streams.v
Proxy.v
ProxyLoop.v
Demux.v
Http.v
RunStream.v
Wire.v
Handlers.v
TestService.v
System.v
StreamSystem.v
Progress.v
Framing.v
