(* ===== verification/Prelude.v ===== *)
(** * GOAT: gRPC over any transport, a verification development

    GOAT runs gRPC unary calls and streams over any transport that reads and
    writes [Rpc] messages.  This library models its Go code and proves what makes
    it correct, and where it is not.  Paths below are relative to src/.

    ** The program and the files

    - Messages.  [Rpc] (gen/goatorepo/rpc.pb.go): the message structs and their
      getters; nil is [None].  [Errors]: Go errors and the gRPC status package.
    - Values.  [GoString]: strings, case, strconv and decimal printing.  [Base64]:
      encoding/base64 as used for binary metadata.  [Metadata] (internal/util.go):
      metadata to key/value lists and back.  [RequestContext] (server.go,
      client.go): method names, grpc-timeout, contexts from and to headers.
    - Effects.  [Runtime] (internal/util.go): codecs, stats handlers, the effect
      log, StatsStartServerRPC and StatsEndRPC.
    - One call on the server.  [TransportStream]
      (internal/server/transport_stream.go), [ServerStream]
      (internal/server/stream.go), [Interceptors] (chained.go), [Server]
      (server.go: registration, dispatch, processUnaryRpc), [RunStream]
      (server.go: runStream, the events of serve).
    - Goroutines of the server.  [ServerLoop] (server.go: serve, its workers and
      writer, processStreamingRpc, unregisterStream), [ServerUnary] (what becomes
      of a unary request, and where every Rpc the server writes comes from) and
      [ServerShutdown] (cancelAndWaitForStreams; the wedge).
    - The client.  [Multiplexer], [MuxDelivery], [MuxTermination], [MuxHazards]
      (internal/client/multiplexer.go), [ClientStream]
      (internal/client/stream.go), [ClientConn] (client.go, dialoption.go).
    - Both sides.  [Unary]: a unary call from Invoke to the handler and back.
      [Streams]: a server's stream read by a client's stream.  [TestService]
      (cmd/e2e-websocket-test/main.go): the example server and what its clients get.
      [Wire]: a type for what each side writes.  [Handlers]: a connection whose
      streams run their handlers, as [RunStream] says, over the goroutines of
      [ServerLoop].  [System]: the multiplexer and a server's connection as one
      step relation, over a transport that keeps the order of the Rpcs and may
      fail; its histories project to histories of the two components, whose
      invariants are put together.  [StreamSystem]: such a system whose server runs
      its handlers, as in [Handlers]; a handler that panics ends its process.
      [Progress]: unary calls over such a system
      that stays up.
    - In between.  [Proxy] and [ProxyLoop] (proxy.go), [Demux] (demux.go),
      [Chan] (channel.go, and Go channels), [Http] (http.go), [Framing]
      (websocket.go, internal/testutil/pipe.go, NewFnReadWriter of
      internal/util.go), [TestConn] (internal/testutil/testutil.go).

    A client's [Invoke] writes one Rpc through the multiplexer, which gives the
    reply with the same id to the waiting call.  On the server the serve loop
    reads every Rpc, dispatches it by method, and hands unary requests to a
    worker and stream messages to the goroutine of the stream.  Proxies and
    demultiplexers sit between two transports.

    ** How code becomes definitions

    - Sequential code is a function.  Code that updates an object is explicit
      state passing or a program of the monad [M] (state, log of effects, panic);
      an operation of the environment (the result of a Write, the clock, the order
      in which Go ranges over a map) is an argument.
    - A Go panic is [Panic] of [outcome]; a nil error is [None].
    - Application code (handlers, interceptors) is foreign: interceptors are
      functions, handlers are strategies ([uprog], [sprog]) that call the library.
    - Concurrent code is a labelled step relation over a record with the shared
      state and the program counter of every goroutine.  A critical section that
      cannot block is one step; one that blocks while it holds a mutex keeps it
      in its program counter ([RSend], [VSendStream]).  Labels named [Env] are
      choices of the environment.  Safety is an invariant over all traces;
      histories (what was read, sent, received) are functions of the labels.
    - Third-party code is a class of parameters with its documented laws:
      [StatusPkg], [MetadataPkg], [Codec], [Unicode], [Proto], [WireLaws].
      [RuntimeModel], [StatusModel] and [MetadataModel] are instances, which the
      witnesses use.
    - Integers: timeouts are int64 with their wrap-around written out, stream ids
      the uint64 counter of the multiplexer, lengths of frames uint32.

    ** What the theorems show

    - End to end: [System.system_invoke] and [System.system_streams] (client and
      server with all their goroutines, in every interleaving),
      [StreamSystem.system_stream_run] (what a client's stream and the handler that
      serves it get from each other, as a run of [runStream]),
      [Unary.unary_end_to_end] and [Streams.stream_end_to_end] (what is computed on
      the two sides, as functions), [TestService.testService_streams],
      [RunStream.runStream_refines], [Proxy.proxy_route_roundtrip].
    - The sequential and the concurrent model of a stream's goroutine agree:
      [Handlers.goroutine_runs_stream].  What is proved of [runStream], for any
      answers of the transport, so holds in every history of a connection.
    - Nothing is lost, duplicated, reordered or misdirected: [MuxDelivery],
      [ClientStream], [ServerLoop.server_stream_routing],
      [ServerUnary.server_unary_once],
      [ProxyLoop.proxy_delivery], [Demux.demux_routing], [Http.http_delivery].
    - No panic, or exactly when: [StreamSystem.system_safe] (both processes, with the
      handlers, the workers, the unary calls and the streams of the client),
      [MuxDelivery.mux_safe] (channel operations of the multiplexer),
      [ClientStream.cstream_safe] (Trailer alone can panic, on bad metadata),
      [Server.processUnaryRpc_spec], [ClientConn.invoke_result] (what Invoke does
      once its wait has ended), [Proxy.forwardRpc_spec],
      [ProxyLoop.proxy_panic_cause], [Demux.demux_panic_cause].
    - Well-typed Rpcs do not go wrong: [Handlers.connection_writes_typed],
      [Wire.server_writes_typed], [Wire.client_typed], [Wire.server_accepts_typed].
    - Progress: [Progress.calls_return] (every unary call returns, in a bounded
      number of steps), [Handlers.handler_goes_on],
      [MuxDelivery.mux_failure_wakes], [MuxDelivery.mux_send_progress],
      [MuxTermination.mux_quiesces], [ServerShutdown.server_shutdown].
    - Functions against their specification: metadata and deadline round trips,
      parsers, dispatch, interceptor chains, the HTTP cleaner, frames, and the
      sequences of stats events.
    - Where the code fails: [MuxHazards], [ServerShutdown.server_wedge],
      [ServerUnary.worker_leak],
      [Streams.cstream_end_race], [Streams.cstream_bad_header],
      [Streams.server_reset_is_eof], [Proxy.proxy_chain_panics],
      [ProxyLoop.proxy_stale_disconnect], [Demux.demux_blocks],
      [Http.http_new_conn_closed], [Http.http_stale_cancel],
      [Framing.pipe_overflow], [TestConn.inject_blocks].

    ** Bounds

    Recursion is structural and loops over goroutines are traces.  Only the receive
    loops of the example server's handlers are unfolded a given number of times, and
    the theorem asks for more unfoldings than there are messages.  The capacities
    are those of the code (16 for a proxy's client, 1 for a stream, 0 for unbuffered
    channels).  Theorems about the multiplexer's ids are about histories of fewer
    than 2^64 steps, in which its counter does not wrap.  The bound of seventeen
    steps for a unary call in [Progress] is the sum of a weight for each place
    where the call, its request or its response can be; one more than the weight
    of a new call.  In [System] a stream's writes are Rpcs of its id with any
    contents; their contents are the business of [ServerStream], [ClientStream],
    [Wire] and [Handlers].

    ** Not modelled

    Logging; the transports' own I/O; the bookkeeping fields of generated
    messages; generated client stubs and mocks; the HTTP listener of
    cmd/e2e-websocket-test.  types/types.go and goat.go hold an interface and an
    alias.  A handler of a stream sends and returns from one
    goroutine, and may receive from another; in [RunStream] and [Handlers] it does
    all of it from one. *)

From stdpp Require Export prelude gmap strings fin_maps relations.

(** ** Results of Go code

    A Go statement sequence either returns or panics; [Panic] carries the
    message.  Go [error] values are ordinary results (see file [Errors]). *)
Inductive outcome (A : Type) : Type :=
  | Ret (a : A)
  | Panic (msg : string).
Arguments Ret {A} a.
Arguments Panic {A} msg.

Definition is_panic {A} (r : outcome A) : bool :=
  match r with Panic _ => true | Ret _ => false end.

#[export] Instance outcome_ret : MRet outcome := @Ret.
#[export] Instance outcome_bind : MBind outcome := λ A B k r,
  match r with Ret a => k a | Panic m => Panic m end.
#[export] Instance outcome_fmap : FMap outcome := λ A B f r,
  match r with Ret a => Ret (f a) | Panic m => Panic m end.
#[export] Instance outcome_eq_dec {A} `{EqDecision A} : EqDecision (outcome A).
Proof. solve_decision. Defined.

Lemma bind_Ret {A B} (m : outcome A) (k : A → outcome B) b :
  mbind k m = Ret b → ∃ a, m = Ret a ∧ k a = Ret b.
Proof. destruct m; [by eauto|done]. Qed.

(** ** Stateful Go code with an effect log

    [M S E A]: code over a mutable state [S] that emits effects [E] (writes to
    a transport, calls of a stats handler) and returns an [A] or panics.  The
    state and the log up to a panic are kept. *)
Definition M (S E A : Type) : Type := S → S * list E * outcome A.

#[export] Instance M_ret {S E} : MRet (M S E) := λ A a s, (s, [], Ret a).
#[export] Instance M_bind {S E} : MBind (M S E) := λ A B k m s,
  match m s with
  | (s1, l1, Ret a) => match k a s1 with (s2, l2, r) => (s2, l1 ++ l2, r) end
  | (s1, l1, Panic msg) => (s1, l1, Panic msg)
  end.

Section monad_ops.
Context {S E : Type}.

Definition get : M S E S := λ s, (s, [], Ret s).
Definition gets {A} (f : S → A) : M S E A := λ s, (s, [], Ret (f s)).
Definition modify (f : S → S) : M S E () := λ s, (f s, [], Ret tt).
Definition emit (l : list E) : M S E () := λ s, (s, l, Ret tt).
Definition throw {A} (msg : string) : M S E A := λ s, (s, [], Panic msg).

Definition st_of {A} (r : S * list E * outcome A) : S := r.1.1.
Definition log_of {A} (r : S * list E * outcome A) : list E := r.1.2.
Definition res_of {A} (r : S * list E * outcome A) : outcome A := r.2.
End monad_ops.

Section monad_laws.
Context {S E : Type}.

Lemma M_ret_bind {A B} (a : A) (k : A → M S E B) s :
  mbind k (mret a) s = k a s.
Proof. unfold mbind, M_bind, mret, M_ret. by destruct (k a s) as [[??]?]. Qed.

Lemma M_bind_ret {A} (m : M S E A) s : mbind mret m s = m s.
Proof.
  unfold mbind, M_bind, mret, M_ret.
  destruct (m s) as [[s' l] []]; [by rewrite app_nil_r|done].
Qed.

Lemma M_bind_assoc {A B C} (m : M S E A) (f : A → M S E B) (g : B → M S E C) s :
  mbind g (mbind f m) s = mbind (λ a, mbind g (f a)) m s.
Proof.
  unfold mbind, M_bind. destruct (m s) as [[s1 l1] [a|]]; [|done].
  destruct (f a s1) as [[s2 l2] [b|]]; [|done].
  destruct (g b s2) as [[s3 l3] r]. by rewrite app_assoc.
Qed.

Lemma M_bind_ext {A B} (m : M S E A) (f g : A → M S E B) s :
  (∀ a s, f a s = g a s) → mbind f m s = mbind g m s.
Proof. intros Hfg. unfold mbind, M_bind. destruct (m s) as [[s1 l1] [a|]]; [|done]. by rewrite Hfg. Qed.
End monad_laws.

(** ** Lists *)
Lemma filter_all_not {A} (P : A → Prop) `{∀ x, Decision (P x)} (l : list A) :
  Forall (λ x, ¬ P x) l → filter P l = [].
Proof. induction 1; [done|]. by rewrite filter_cons_False. Qed.

Lemma filter_all {A} (P : A → Prop) `{∀ x, Decision (P x)} (l : list A) :
  Forall P l → filter P l = l.
Proof. induction 1; [done|]. rewrite filter_cons_True by done. by f_equal. Qed.

Lemma filter_sublist_mono {A} (P : A → Prop) `{∀ x, Decision (P x)} (l l' : list A) :
  l `sublist_of` l' → filter P l `sublist_of` filter P l'.
Proof.
  induction 1 as [|x l l' Hl IH|x l l' Hl IH]; [done|..]; rewrite !filter_cons;
    case_decide; auto using sublist.
Qed.

Lemma tail_app_ne {A} (l l' : list A) : l ≠ [] → tail (l ++ l') = tail l ++ l'.
Proof. by destruct l. Qed.

(** ** Weights of maps *)
Section map_total.
Context `{Countable K} {A : Type} (w : A → nat).

Definition map_total (m : gmap K A) : nat := map_fold (λ _ x n, w x + n) 0 m.

Lemma map_total_insert_new k x m :
  m !! k = None → map_total (<[k := x]> m) = w x + map_total m.
Proof. intros Hk. unfold map_total. apply (map_fold_insert_L (λ _ x n, w x + n)); [intros; lia|done]. Qed.

Lemma map_total_update k x y m :
  m !! k = Some x → map_total (<[k := y]> m) + w x = map_total m + w y.
Proof.
  intros Hk. rewrite <-(insert_delete_id m k x) at 2 by done.
  rewrite <-insert_delete_eq, !map_total_insert_new by apply lookup_delete_eq. lia.
Qed.
End map_total.

(** The marked entries of a map, in no particular order. *)
Section map_collect.
Context `{Countable K} {A B : Type} (f : A → list B).

Definition map_collect (m : gmap K A) : list B := map_to_list m ≫= λ x, f x.2.

Lemma map_collect_insert_new k x m :
  m !! k = None → map_collect (<[k := x]> m) ≡ₚ f x ++ map_collect m.
Proof. intros Hk. unfold map_collect. by rewrite (map_to_list_insert m k x Hk). Qed.

Lemma map_collect_update k x y m :
  m !! k = Some x → map_collect (<[k := y]> m) ++ f x ≡ₚ map_collect m ++ f y.
Proof.
  intros Hk. rewrite <-(insert_delete_id m k x) at 2 by done.
  rewrite <-insert_delete_eq, !map_collect_insert_new by apply lookup_delete_eq.
  rewrite <-!app_assoc, (Permutation_app_comm (map_collect _) (f x)),
    (Permutation_app_comm (map_collect _) (f y)), !app_assoc.
  by rewrite (Permutation_app_comm (f x) (f y)).
Qed.

Lemma map_collect_elem k x y m : m !! k = Some x → y ∈ f x → y ∈ map_collect m.
Proof.
  intros Hk Hy. unfold map_collect. apply list_elem_of_bind. exists (k, x). split; [done|].
  by apply elem_of_map_to_list.
Qed.

Lemma map_collect_nil m : (∀ k x, m !! k = Some x → f x = []) → map_collect m = [].
Proof.
  intros Hf. unfold map_collect. assert (∀ kx, kx ∈ map_to_list m → f kx.2 = []) as Hl
    by (intros [k x] Hk%elem_of_map_to_list; by eapply Hf).
  induction (map_to_list m) as [|kx l IH]; [done|]. rewrite bind_cons, Hl by apply list_elem_of_here.
  apply IH. intros k' Hk'. apply Hl. by apply list_elem_of_further.
Qed.

Lemma map_collect_length n m : (∀ x, length (f x) ≤ n) → length (map_collect m) ≤ size m * n.
Proof.
  intros Hf. unfold map_collect. rewrite <-length_map_to_list.
  induction (map_to_list m) as [|x l IH]; [done|]. rewrite bind_cons, length_app.
  cbn [length]. specialize (Hf x.2). lia.
Qed.
End map_collect.

(** ** Step relations

    Components that run concurrently are labelled step relations; [trace step]
    is their reflexive transitive closure carrying the labels. *)
Section lts.
Context {S L : Type} (step : S → L → S → Prop).

Inductive trace : S → list L → S → Prop :=
  | trace_refl s : trace s [] s
  | trace_step s1 l s2 ls s3 :
      step s1 l s2 → trace s2 ls s3 → trace s1 (l :: ls) s3.

Definition reachable (init s : S) : Prop := ∃ ls, trace init ls s.

(** No internal step is possible: nothing but the environment can move. *)
Definition stuck (internal : L → Prop) (s : S) : Prop :=
  ∀ l s', internal l → ¬ step s l s'.

Lemma trace_one s l s' : step s l s' → trace s [l] s'.
Proof. eauto using trace. Qed.

Lemma trace_app s1 l1 s2 l2 s3 :
  trace s1 l1 s2 → trace s2 l2 s3 → trace s1 (l1 ++ l2) s3.
Proof. induction 1; simpl; eauto using trace. Qed.

Lemma trace_app_inv s1 l1 l2 s3 :
  trace s1 (l1 ++ l2) s3 → ∃ s2, trace s1 l1 s2 ∧ trace s2 l2 s3.
Proof.
  revert s1. induction l1 as [|l l1 IH]; intros s1 Htr; simpl in *; [eauto using trace|].
  inversion Htr; subst. match goal with Htr' : trace _ (_ ++ _) _ |- _ => apply IH in Htr' as (s2' & ? & ?) end.
  eauto using trace.
Qed.

Lemma trace_snoc_inv s1 ls l s3 :
  trace s1 (ls ++ [l]) s3 → ∃ s2, trace s1 ls s2 ∧ step s2 l s3.
Proof.
  intros (s2 & ? & Hl)%trace_app_inv. inversion Hl as [|? ? ? ? ? ? Hnil]; subst.
  inversion Hnil; subst. eauto.
Qed.

(** The invariant rule: [I] holds initially and every step keeps it. *)
Lemma trace_invariant (I : S → Prop) :
  (∀ s l s', I s → step s l s' → I s') →
  ∀ s ls s', I s → trace s ls s' → I s'.
Proof. intros Hstep s ls s' HI. induction 1; eauto. Qed.

(** The same for a property of the labels seen so far and the state. *)
Lemma trace_history_invariant (I : list L → S → Prop) :
  (∀ h s l s', I h s → step s l s' → I (h ++ [l]) s') →
  ∀ h s ls s', I h s → trace s ls s' → I (h ++ ls) s'.
Proof.
  intros Hstep h s ls s' HI Htr. revert h HI.
  induction Htr as [|s1 l s2 ls s3 Hst Htr IH]; intros h HI.
  - by rewrite app_nil_r.
  - rewrite cons_middle, app_assoc. eauto.
Qed.

(** The variant rule: a measure that pays for every step bounds their number. *)
Lemma trace_variant (ok : L → Prop) (cost : L → nat) (measure : S → nat) :
  (∀ s l s', ok l → step s l s' → cost l + measure s' ≤ measure s) →
  ∀ s ls s', trace s ls s' → Forall ok ls → sum_list_with cost ls + measure s' ≤ measure s.
Proof.
  intros Hstep s ls s'. induction 1 as [s|s1 l s2 ls s3 Hst Htr IH]; [done|].
  intros [Hl Hls]%Forall_cons. specialize (IH Hls). specialize (Hstep _ _ _ Hl Hst).
  simpl. lia.
Qed.
End lts.

Create HintDb goat.
#[export] Hint Constructors trace : goat.
#[export] Hint Resolve trace_one trace_app : goat.
