(* ===== verification/GoString.v ===== *)
(** * Go strings, 64-bit integers and the parts of [strings] and [strconv] used

    A Go string is an immutable byte sequence: the type [string] of 8-bit
    [ascii] characters.  This file models the standard-library functions that
    the sources under src/ call: [strings.ToLower], [strings.HasSuffix],
    [strings.LastIndex], [strconv.ParseInt(_, 10, 64)] and the [%d] verb. *)

From S2P Require Import Prelude.
From Stdlib Require Import Ascii.
From Stdlib Require String.

(** ** Bytes *)

Definition bytes_of (s : string) : list ascii := String.list_ascii_of_string s.
Definition string_of (l : list ascii) : string := String.string_of_list_ascii l.

Lemma string_of_bytes_of s : string_of (bytes_of s) = s.
Proof. apply String.string_of_list_ascii_of_string. Qed.
Lemma bytes_of_string_of l : bytes_of (string_of l) = l.
Proof. apply String.list_ascii_of_string_of_list_ascii. Qed.
Lemma bytes_of_app s1 s2 : bytes_of (s1 +:+ s2) = bytes_of s1 ++ bytes_of s2.
Proof.
  induction s1 as [|c s1 IH]; [done|].
  change (String c s1 +:+ s2) with (String c (s1 +:+ s2)).
  unfold bytes_of in *. simpl. by rewrite IH.
Qed.
Lemma string_of_app l1 l2 : string_of (l1 ++ l2) = string_of l1 +:+ string_of l2.
Proof.
  rewrite <-(string_of_bytes_of (string_of l1 +:+ string_of l2)).
  by rewrite bytes_of_app, !bytes_of_string_of.
Qed.
#[export] Instance bytes_of_inj : Inj (=) (=) bytes_of.
Proof. intros s1 s2 H. by rewrite <-(string_of_bytes_of s1), H, string_of_bytes_of. Qed.

Create HintDb gostring.

(** The value of a byte, as the integer Go computes with. *)
Definition byte_val (c : ascii) : Z := Z.of_N (N_of_ascii c).
Definition byte_of (z : Z) : ascii := ascii_of_N (Z.to_N z).

Lemma byte_val_range c : (0 ≤ byte_val c < 256)%Z.
Proof. unfold byte_val. pose proof (N_ascii_bounded c). lia. Qed.
Lemma byte_of_val c : byte_of (byte_val c) = c.
Proof. unfold byte_of, byte_val. by rewrite N2Z.id, ascii_N_embedding. Qed.
Lemma byte_val_of z : (0 ≤ z < 256)%Z → byte_val (byte_of z) = z.
Proof. intros Hz. unfold byte_of, byte_val. rewrite N_ascii_embedding; lia. Qed.

(** ** [strings.ToLower]

    On an ASCII string the letters A-Z are mapped; on any other string Go maps
    the decoded runes with [unicode.ToLower], whose tables are a parameter. *)
Class Unicode := unicode_map_lower : string → string.

Definition is_ascii_byte (c : ascii) : bool := (byte_val c <? 128)%Z.
Definition is_upper (c : ascii) : bool :=
  (65 <=? byte_val c)%Z && (byte_val c <=? 90)%Z.
Definition lower_byte (c : ascii) : ascii :=
  if is_upper c then byte_of (byte_val c + 32) else c.

Definition is_ascii (s : string) : bool := forallb is_ascii_byte (bytes_of s).
Definition lower_ascii (s : string) : string := string_of (lower_byte <$> bytes_of s).
Definition ToLower `{Unicode} (s : string) : string :=
  if is_ascii s then lower_ascii s else unicode_map_lower s.

(** A lower-case ASCII string: what gRPC metadata keys are. *)
Definition lower_key (s : string) : bool :=
  forallb (λ c, is_ascii_byte c && negb (is_upper c)) (bytes_of s).

Lemma lower_byte_id c : is_upper c = false → lower_byte c = c.
Proof. unfold lower_byte. by intros ->. Qed.

Lemma is_upper_lower_byte c : is_upper (lower_byte c) = false.
Proof.
  unfold lower_byte. destruct (is_upper c) eqn:Hu; [|done].
  unfold is_upper in *. apply andb_true_iff in Hu as [H1%Z.leb_le H2%Z.leb_le].
  rewrite byte_val_of by lia. apply andb_false_iff. right. apply Z.leb_gt. lia.
Qed.

Lemma is_ascii_lower_byte c : is_ascii_byte c = true → is_ascii_byte (lower_byte c) = true.
Proof.
  unfold is_ascii_byte, lower_byte. intros H%Z.ltb_lt. apply Z.ltb_lt.
  destruct (is_upper c) eqn:Hu; [|done].
  unfold is_upper in Hu. apply andb_true_iff in Hu as [_ H2%Z.leb_le].
  pose proof (byte_val_range c). rewrite byte_val_of; lia.
Qed.

Lemma lower_key_ToLower `{Unicode} s : lower_key s = true → ToLower s = s.
Proof.
  unfold lower_key, ToLower, is_ascii, lower_ascii. intros Hs.
  assert (Hl : Forall (λ c, is_ascii_byte c && negb (is_upper c) = true) (bytes_of s)).
  { apply List.Forall_forall. by apply forallb_forall. }
  replace (forallb is_ascii_byte (bytes_of s)) with true.
  - rewrite <-(string_of_bytes_of s) at 2. f_equal.
    induction Hl as [|c l Hc Hl IH]; simpl; [done|].
    apply andb_true_iff in Hc as [_ Hc%negb_true_iff].
    rewrite lower_byte_id by done. f_equal. apply IH.
    simpl in Hs. by apply andb_true_iff in Hs as [_ ?].
  - symmetry. apply forallb_forall. intros c Hc.
    rewrite List.Forall_forall in Hl. by apply Hl, andb_true_iff in Hc as [? _].
Qed.

Lemma ToLower_ascii_lower_key `{Unicode} s :
  is_ascii s = true → lower_key (ToLower s) = true.
Proof.
  intros Hs. unfold ToLower. rewrite Hs. unfold lower_key, lower_ascii.
  rewrite bytes_of_string_of. apply forallb_forall. intros c Hc.
  apply list_elem_of_In, list_elem_of_fmap in Hc as (c' & -> & Hc').
  rewrite is_upper_lower_byte, andb_true_r. apply is_ascii_lower_byte.
  unfold is_ascii in Hs. rewrite forallb_forall in Hs.
  by apply Hs, list_elem_of_In.
Qed.

(** ** [strings.HasSuffix] *)
Definition HasSuffix (s suffix : string) : bool :=
  let l := bytes_of s in let m := bytes_of suffix in
  bool_decide (length m ≤ length l) &&
  bool_decide (drop (length l - length m) l = m).

Lemma HasSuffix_spec s suffix :
  HasSuffix s suffix = true ↔ ∃ p, s = p +:+ suffix.
Proof.
  unfold HasSuffix. rewrite andb_true_iff, !bool_decide_eq_true. split.
  - intros [Hlen Hdrop]. exists (string_of (take (length (bytes_of s) - length (bytes_of suffix)) (bytes_of s))).
    apply bytes_of_inj. rewrite bytes_of_app, bytes_of_string_of.
    by rewrite <-Hdrop at 2; rewrite take_drop.
  - intros [p ->]. rewrite bytes_of_app, length_app. split; [lia|].
    replace (length (bytes_of p) + length (bytes_of suffix) - length (bytes_of suffix))
      with (length (bytes_of p)) by lia.
    by rewrite drop_app_length.
Qed.

(** ** [strings.LastIndex] of a one-byte separator ([None] is Go's -1) *)
Fixpoint last_index (c : ascii) (l : list ascii) : option nat :=
  match l with
  | [] => None
  | d :: l => match last_index c l with
              | Some i => Some (S i)
              | None => if decide (d = c) then Some 0 else None
              end
  end.

Lemma last_index_None c l : last_index c l = None ↔ c ∉ l.
Proof.
  induction l as [|d l IH]; simpl; [set_solver|].
  rewrite not_elem_of_cons, <-IH.
  destruct (last_index c l), (decide (d = c)); intuition congruence.
Qed.

Lemma last_index_app c l1 l2 :
  c ∉ l2 → last_index c (l1 ++ c :: l2) = Some (length l1).
Proof.
  intros H. induction l1 as [|d l1 IH]; simpl.
  - rewrite (proj2 (last_index_None c l2) H). by rewrite decide_True.
  - by rewrite IH.
Qed.

Lemma last_index_Some c l i :
  last_index c l = Some i → l = take i l ++ c :: drop (S i) l ∧ c ∉ drop (S i) l.
Proof.
  revert i. induction l as [|d l IH]; intros i; simpl; [done|].
  destruct (last_index c l) as [j|] eqn:E; intros; simplify_eq/=.
  - destruct (IH j eq_refl) as [Heq Hn]. split; [by f_equal|done].
  - destruct (decide (d = c)) as [->|]; simplify_eq/=.
    split; [by rewrite drop_0|]. rewrite drop_0. by apply last_index_None.
Qed.

(** ** 64-bit signed integers ([int64], [time.Duration]) *)
Definition int64_min : Z := - 2 ^ 63.
Definition int64_max : Z := 2 ^ 63 - 1.
Definition is_int64 (z : Z) : bool := (int64_min <=? z)%Z && (z <=? int64_max)%Z.
(** Two's-complement wrap-around of an arithmetic result. *)
Definition wrap64 (z : Z) : Z := (z + 2 ^ 63) `mod` 2 ^ 64 - 2 ^ 63.
Definition wrapu64 (z : Z) : Z := z `mod` 2 ^ 64.

Lemma is_int64_spec z : is_int64 z = true ↔ (- 2 ^ 63 ≤ z < 2 ^ 63)%Z.
Proof. unfold is_int64, int64_min, int64_max. rewrite andb_true_iff, !Z.leb_le. lia. Qed.
Lemma wrap64_int64 z : is_int64 (wrap64 z) = true.
Proof.
  apply is_int64_spec. unfold wrap64.
  pose proof (Z.mod_pos_bound (z + 2 ^ 63) (2 ^ 64) ltac:(lia)). lia.
Qed.
Lemma wrap64_id z : is_int64 z = true → wrap64 z = z.
Proof. rewrite is_int64_spec. intros Hz. unfold wrap64. rewrite Z.mod_small; lia. Qed.

(** ** [strconv.ParseInt(s, 10, 64)] and the [%d] verb *)
Definition digit_val (c : ascii) : option Z :=
  let v := byte_val c in
  if (48 <=? v)%Z && (v <=? 57)%Z then Some (v - 48)%Z else None.
Definition digit_of (d : Z) : ascii := byte_of (48 + d).

Fixpoint parse_digits (acc : Z) (l : list ascii) : option Z :=
  match l with
  | [] => Some acc
  | c :: l => match digit_val c with
              | Some d => parse_digits (acc * 10 + d) l
              | None => None
              end
  end.

(** [ParseInt] fails on the empty string, on a lone sign, on any byte that is
    not a decimal digit, and on a value outside the [int64] range. *)
Definition ParseInt (s : string) : option Z :=
  let parse neg l :=
    match l with
    | [] => None
    | _ => match parse_digits 0 l with
           | Some v => let v := if neg : bool then (- v)%Z else v in
                       if is_int64 v then Some v else None
           | None => None
           end
    end in
  match bytes_of s with
  | c :: l => if (byte_val c =? 45)%Z then parse true l        (* '-' *)
              else if (byte_val c =? 43)%Z then parse false l  (* '+' *)
              else parse false (c :: l)
  | [] => None
  end.

(** Decimal digits of [n]; [fuel] is the number of digits it can need. *)
Fixpoint dec_digits (fuel : nat) (n : Z) (acc : list ascii) : list ascii :=
  match fuel with
  | O => acc
  | S fuel =>
      if (n <? 10)%Z then digit_of n :: acc
      else dec_digits fuel (n / 10) (digit_of (n `mod` 10) :: acc)
  end.

(** An [int64] has at most 19 decimal digits. *)
Definition FormatInt (n : Z) : string :=
  if (n <? 0)%Z then "-" +:+ string_of (dec_digits 19 (- n) [])
  else string_of (dec_digits 19 n []).

Lemma digit_val_of d : (0 ≤ d < 10)%Z → digit_val (digit_of d) = Some d.
Proof.
  intros Hd. unfold digit_val, digit_of. rewrite byte_val_of by lia.
  replace (48 <=? 48 + d)%Z with true by (symmetry; apply Z.leb_le; lia).
  replace (48 + d <=? 57)%Z with true by (symmetry; apply Z.leb_le; lia).
  simpl. f_equal. lia.
Qed.

Lemma dec_digits_acc fuel n acc :
  dec_digits fuel n acc = dec_digits fuel n [] ++ acc.
Proof.
  revert n acc. induction fuel as [|fuel IH]; intros n acc; simpl; [done|].
  destruct (n <? 10)%Z; [done|].
  rewrite IH, (IH _ [_]). by rewrite <-app_assoc.
Qed.

Lemma parse_digits_app acc l1 l2 :
  parse_digits acc (l1 ++ l2) = parse_digits acc l1 ≫= λ v, parse_digits v l2.
Proof.
  revert acc. induction l1 as [|c l1 IH]; intros acc; simpl; [done|].
  destruct (digit_val c); [apply IH|done].
Qed.

Lemma parse_dec_digits fuel n :
  (0 ≤ n < 10 ^ Z.of_nat fuel)%Z → parse_digits 0 (dec_digits fuel n []) = Some n.
Proof.
  revert n. induction fuel as [|fuel IH]; intros n Hn.
  { simpl in *. f_equal. lia. }
  cbn [dec_digits]. destruct (Z.ltb_spec n 10).
  - simpl. by rewrite digit_val_of by lia.
  - rewrite dec_digits_acc, parse_digits_app, IH.
    + simpl. pose proof (Z.mod_pos_bound n 10 ltac:(lia)).
      rewrite digit_val_of by lia. simpl. f_equal.
      pose proof (Z.div_mod n 10 ltac:(lia)). lia.
    + rewrite Nat2Z.inj_succ, Z.pow_succ_r in Hn by lia.
      split; [apply Z.div_pos; lia|apply Z.div_lt_upper_bound; lia].
Qed.

Lemma dec_digits_nonempty fuel n : dec_digits (S fuel) n [] ≠ [].
Proof.
  cbn [dec_digits]. destruct (n <? 10)%Z; [done|].
  rewrite dec_digits_acc. by destruct (dec_digits _ _ _).
Qed.

Lemma dec_digits_head fuel n c l :
  (0 ≤ n)%Z → dec_digits fuel n [] = c :: l → (48 ≤ byte_val c ≤ 57)%Z.
Proof.
  revert n c l. induction fuel as [|fuel IH]; intros n c l Hn; cbn [dec_digits]; [done|].
  destruct (Z.ltb_spec n 10).
  - intros [= <- <-]. unfold digit_of. rewrite byte_val_of by lia. lia.
  - rewrite dec_digits_acc. destruct (dec_digits fuel (n / 10) []) as [|d l'] eqn:E.
    + intros [= <- <-]. pose proof (Z.mod_pos_bound n 10 ltac:(lia)).
      unfold digit_of. rewrite byte_val_of by lia. lia.
    + intros [= <- <-]. eapply IH, E. apply Z.div_pos; lia.
Qed.

Lemma ParseInt_FormatInt n :
  is_int64 n = true → ParseInt (FormatInt n) = Some n.
Proof.
  intros Hn. pose proof Hn as Hr. apply is_int64_spec in Hr.
  unfold FormatInt, ParseInt.
  destruct (Z.ltb_spec n 0).
  - rewrite bytes_of_app, bytes_of_string_of. change (bytes_of "-") with ["-"%char].
    cbn [app]. change (byte_val "-" =? 45)%Z with true. cbv iota beta.
    pose proof (parse_dec_digits 19 (- n) ltac:(simpl; lia)) as Hp.
    destruct (dec_digits 19 (- n) []) eqn:E; [by apply dec_digits_nonempty in E|].
    by rewrite Hp, Z.opp_involutive, Hn.
  - rewrite bytes_of_string_of.
    pose proof (parse_dec_digits 19 n ltac:(simpl; lia)) as Hp.
    destruct (dec_digits 19 n []) as [|c l] eqn:E; [by apply dec_digits_nonempty in E|].
    apply dec_digits_head in E; [|lia].
    replace (byte_val c =? 45)%Z with false by (symmetry; apply Z.eqb_neq; lia).
    replace (byte_val c =? 43)%Z with false by (symmetry; apply Z.eqb_neq; lia).
    by rewrite Hp, Hn.
Qed.
