(* ===== verification/Base64.v ===== *)
(** * [base64.URLEncoding] of the Go standard library

    internal/util.go encodes the values of binary metadata with
    [base64.URLEncoding]: the URL-safe alphabet, padded.  The decoder skips
    carriage returns and newlines, wants complete padding, accepts nothing
    after it, and (not being strict) ignores the unused low bits. *)

From S2P Require Import Prelude GoString.
From Stdlib Require Import Ascii.

Local Open Scope Z_scope.

#[local] Ltac Zify.zify_post_hook ::= Z.to_euclidean_division_equations.

(** ** The alphabet *)
Definition enc6 (v : Z) : ascii :=
  if v <? 26 then byte_of (65 + v)
  else if v <? 52 then byte_of (97 + (v - 26))
  else if v <? 62 then byte_of (48 + (v - 52))
  else if v <? 63 then "-"%char else "_"%char.

Definition dec6 (c : ascii) : option Z :=
  let v := byte_val c in
  if (65 <=? v) && (v <=? 90) then Some (v - 65)
  else if (97 <=? v) && (v <=? 122) then Some (v - 97 + 26)
  else if (48 <=? v) && (v <=? 57) then Some (v - 48 + 52)
  else if v =? 45 then Some 62
  else if v =? 95 then Some 63
  else None.

Definition pad : ascii := "="%char.
Definition is_newline (c : ascii) : bool := (byte_val c =? 10) || (byte_val c =? 13).

(** ** Encoding: three bytes become four characters *)
Definition enc_quad (v : Z) : list ascii :=
  [enc6 (v / 262144); enc6 (v / 4096 mod 64); enc6 (v / 64 mod 64); enc6 (v mod 64)].

Fixpoint encode64 (l : list ascii) : list ascii :=
  match l with
  | a :: b :: c :: r =>
      enc_quad (byte_val a * 65536 + byte_val b * 256 + byte_val c) ++ encode64 r
  | [a; b] => take 3 (enc_quad (byte_val a * 65536 + byte_val b * 256)) ++ [pad]
  | [a] => take 2 (enc_quad (byte_val a * 65536)) ++ [pad; pad]
  | [] => []
  end.

(** ** Decoding: quanta of four characters, padding only in the last one *)
Definition quad_val (a b c d : Z) : Z := a * 262144 + b * 4096 + c * 64 + d.
Definition quad_bytes (v : Z) : list ascii :=
  [byte_of (v / 65536); byte_of (v / 256 mod 256); byte_of (v mod 256)].

Fixpoint decode_quanta (l : list ascii) : option (list ascii) :=
  match l with
  | [] => Some []
  | a :: b :: c :: d :: r =>
      match dec6 a, dec6 b with
      | Some x, Some y =>
          match dec6 c, dec6 d with
          | Some z, Some w =>
              match decode_quanta r with
              | Some bs => Some (quad_bytes (quad_val x y z w) ++ bs)
              | None => None
              end
          | Some z, None =>
              if decide (d = pad ∧ r = []) then Some (take 2 (quad_bytes (quad_val x y z 0)))
              else None
          | None, _ =>
              if decide (c = pad ∧ d = pad ∧ r = []) then Some (take 1 (quad_bytes (quad_val x y 0 0)))
              else None
          end
      | _, _ => None
      end
  | _ => None
  end.

Definition decode64 (l : list ascii) : option (list ascii) :=
  decode_quanta (filter (λ c, is_newline c = false) l).

Definition EncodeToString (s : string) : string := string_of (encode64 (bytes_of s)).
Definition DecodeString (s : string) : option string := string_of <$> decode64 (bytes_of s).

(** ** Round trip *)
Definition all_sextets : list Z := Z.of_nat <$> seq 0 64.

Lemma sextet_elem v : 0 ≤ v < 64 → In v all_sextets.
Proof.
  intros Hv. apply in_map_iff. exists (Z.to_nat v).
  split; [lia|]. apply in_seq. lia.
Qed.

Lemma sextets_ok :
  forallb (λ v, bool_decide (dec6 (enc6 v) = Some v) && negb (is_newline (enc6 v))) all_sextets = true.
Proof. vm_compute. reflexivity. Qed.

Lemma dec6_enc6 v : 0 ≤ v < 64 → dec6 (enc6 v) = Some v.
Proof.
  intros Hv%sextet_elem.
  by apply (proj1 (forallb_forall _ _) sextets_ok), andb_true_iff in Hv
    as [?%bool_decide_eq_true _].
Qed.

Lemma enc6_not_newline v : 0 ≤ v < 64 → is_newline (enc6 v) = false.
Proof.
  intros Hv%sextet_elem.
  by apply (proj1 (forallb_forall _ _) sextets_ok), andb_true_iff in Hv
    as [_ ?%negb_true_iff].
Qed.

Lemma dec6_pad : dec6 pad = None.
Proof. reflexivity. Qed.

(** Every three bytes, read as one 24-bit number. *)
Lemma byte3_induction (P : list ascii → Prop) :
  P [] → (∀ a, P [a]) → (∀ a b, P [a; b]) →
  (∀ a b c r, P r → P (a :: b :: c :: r)) → ∀ l, P l.
Proof.
  intros H0 H1 H2 H3. fix IH 1. intros [|a [|b [|c r]]]; [done..|].
  apply H3, IH.
Qed.

Lemma encode64_no_newline l : Forall (λ c, is_newline c = false) (encode64 l).
Proof.
  assert (Hq : ∀ v, 0 ≤ v < 16777216 → Forall (λ c, is_newline c = false) (enc_quad v)).
  { intros v Hv. unfold enc_quad. rewrite !List.Forall_cons_iff.
    split_and!; try apply List.Forall_nil; apply enc6_not_newline; lia. }
  induction l as [|a|a b|a b c r IH] using byte3_induction; cbn [encode64].
  - constructor.
  - pose proof (byte_val_range a). apply Forall_app.
    split; [apply Forall_take, Hq; lia|by repeat constructor].
  - pose proof (byte_val_range a); pose proof (byte_val_range b). apply Forall_app.
    split; [apply Forall_take, Hq; lia|by repeat constructor].
  - pose proof (byte_val_range a); pose proof (byte_val_range b);
      pose proof (byte_val_range c).
    apply Forall_app. split; [apply Hq; lia|done].
Qed.

Lemma quad_val_sextets v :
  quad_val (v / 262144) (v / 4096 mod 64) (v / 64 mod 64) (v mod 64) = v.
Proof.
  unfold quad_val.
  replace (v / 262144) with (v / 64 / 64 / 64) by (rewrite !Z.div_div by lia; done).
  replace (v / 4096) with (v / 64 / 64) by (rewrite Z.div_div by lia; done).
  lia.
Qed.

Lemma quad_bytes_of a b c :
  quad_bytes (byte_val a * 65536 + byte_val b * 256 + byte_val c) = [a; b; c].
Proof.
  pose proof (byte_val_range a); pose proof (byte_val_range b);
    pose proof (byte_val_range c).
  unfold quad_bytes. set (v := byte_val a * 65536 + byte_val b * 256 + byte_val c).
  assert (v / 65536 = byte_val a) as -> by lia.
  assert (v / 256 mod 256 = byte_val b) as ->.
  { assert (v / 256 = byte_val a * 256 + byte_val b) as -> by lia. lia. }
  assert (v mod 256 = byte_val c) as -> by lia.
  by rewrite !byte_of_val.
Qed.

Lemma decode_quanta_encode64 l : decode_quanta (encode64 l) = Some l.
Proof.
  induction l as [|a|a b|a b c r IH] using byte3_induction; cbn [encode64]; [done|..].
  - pose proof (byte_val_range a). unfold enc_quad. cbn [take app decode_quanta].
    rewrite !dec6_enc6, !dec6_pad by lia. rewrite decide_True by done.
    pose proof (quad_bytes_of a zero zero) as Hq. change (byte_val zero) with 0 in Hq.
    f_equal. transitivity (take 1 [a; zero; zero]); [|done]. rewrite <-Hq. repeat f_equal.
    rewrite <-(quad_val_sextets (_ + _)). unfold quad_val. lia.
  - pose proof (byte_val_range a); pose proof (byte_val_range b).
    unfold enc_quad. cbn [take app decode_quanta].
    rewrite !dec6_enc6, !dec6_pad by lia. rewrite decide_True by done.
    pose proof (quad_bytes_of a b zero) as Hq. change (byte_val zero) with 0 in Hq.
    f_equal. transitivity (take 2 [a; b; zero]); [|done]. rewrite <-Hq. repeat f_equal.
    rewrite <-(quad_val_sextets (_ + _)). unfold quad_val. lia.
  - pose proof (byte_val_range a); pose proof (byte_val_range b);
      pose proof (byte_val_range c).
    unfold enc_quad. cbn [app decode_quanta].
    rewrite !dec6_enc6 by lia. rewrite IH, quad_val_sextets, quad_bytes_of. done.
Qed.

Lemma decode64_encode64 l : decode64 (encode64 l) = Some l.
Proof.
  unfold decode64. replace (filter _ (encode64 l)) with (encode64 l).
  - apply decode_quanta_encode64.
  - pose proof (encode64_no_newline l) as Hn.
    induction Hn as [|c r Hc Hn IH]; [done|]. rewrite filter_cons_True by done. by f_equal.
Qed.

Lemma DecodeString_EncodeToString s : DecodeString (EncodeToString s) = Some s.
Proof.
  unfold DecodeString, EncodeToString. rewrite bytes_of_string_of, decode64_encode64.
  simpl. by rewrite string_of_bytes_of.
Qed.

Example encode_ex : EncodeToString "any carnal pleas" = "YW55IGNhcm5hbCBwbGVhcw==".
Proof. vm_compute. reflexivity. Qed.
Example decode_ex : DecodeString "YW55IGNh=" = None.
Proof. vm_compute. reflexivity. Qed.
