(* ===== verification/Rpc.v ===== *)
(** * The wire data: gen/goatorepo/rpc.pb.go

    The message structs of the GOAT protocol and their nil-safe getters.  A
    pointer to a message is an [option] ([None] is Go's nil).  [Data] of a
    [Body], [Metadata] of a [Trailer] and [ProxyNext] of a [RequestHeader] are
    compared with nil by the code, so these slices are [option]s too, with
    [Some []] the empty non-nil slice.  [uint64] and [int32] fields are [Z].
    The protobuf bookkeeping fields (state, sizeCache, unknownFields) are not
    modelled. *)

From S2P Require Import Prelude.
From Stdlib Require Strings.Byte.

Notation byte := Byte.byte (only parsing).

Record KeyValue := mkKeyValue { kv_Key : string; kv_Value : string }.

(** google.protobuf.Any, carried in statuses and never inspected. *)
Record Any := mkAny { any_TypeUrl : string; any_Value : list byte }.

Record ResponseStatus := mkResponseStatus {
  rs_Code : Z; rs_Message : string; rs_Details : list Any }.

Record Body := mkBody { b_Data : option (list byte) }.
Record Trailer := mkTrailer { t_Metadata : option (list KeyValue) }.
Record Reset := mkReset { r_Type : string }.

Record RequestHeader := mkRequestHeader {
  h_Method : string;
  h_Headers : list KeyValue;
  h_Source : string;
  h_Destination : string;
  h_ProxyRecord : list string;
  h_ProxyNext : option (list string) }.

Record Rpc := mkRpc {
  rpc_Id : Z;
  rpc_Header : option RequestHeader;
  rpc_Status : option ResponseStatus;
  rpc_Body : option Body;
  rpc_Trailer : option Trailer;
  rpc_Reset : option Reset }.

#[export] Instance byte_eq_dec : EqDecision byte := Strings.Byte.byte_eq_dec.
#[export] Instance KeyValue_eq_dec : EqDecision KeyValue.
Proof. solve_decision. Defined.
#[export] Instance Any_eq_dec : EqDecision Any.
Proof. solve_decision. Defined.
#[export] Instance ResponseStatus_eq_dec : EqDecision ResponseStatus.
Proof. solve_decision. Defined.
#[export] Instance Body_eq_dec : EqDecision Body.
Proof. solve_decision. Defined.
#[export] Instance Trailer_eq_dec : EqDecision Trailer.
Proof. solve_decision. Defined.
#[export] Instance Reset_eq_dec : EqDecision Reset.
Proof. solve_decision. Defined.
#[export] Instance RequestHeader_eq_dec : EqDecision RequestHeader.
Proof. solve_decision. Defined.
#[export] Instance Rpc_eq_dec : EqDecision Rpc.
Proof. solve_decision. Defined.

(** A header built with the fields the sources set in struct literals. *)
Definition header_lit (method : string) (headers : list KeyValue)
    (source destination : string) : RequestHeader :=
  mkRequestHeader method headers source destination [] None.

(** ** Getters: the field, or the zero value of its type on a nil receiver *)
Definition GetId (x : option Rpc) : Z := from_option rpc_Id 0%Z x.
Definition GetHeader (x : option Rpc) : option RequestHeader := x ≫= rpc_Header.
Definition GetStatus (x : option Rpc) : option ResponseStatus := x ≫= rpc_Status.
Definition GetBody (x : option Rpc) : option Body := x ≫= rpc_Body.
Definition GetTrailer (x : option Rpc) : option Trailer := x ≫= rpc_Trailer.
Definition GetReset_ (x : option Rpc) : option Reset := x ≫= rpc_Reset.

Definition GetMethod (x : option RequestHeader) : string := from_option h_Method "" x.
Definition GetHeaders (x : option RequestHeader) : list KeyValue := from_option h_Headers [] x.
Definition GetSource (x : option RequestHeader) : string := from_option h_Source "" x.
Definition GetDestination (x : option RequestHeader) : string :=
  from_option h_Destination "" x.
Definition GetProxyRecord (x : option RequestHeader) : list string :=
  from_option h_ProxyRecord [] x.
Definition GetProxyNext (x : option RequestHeader) : option (list string) := x ≫= h_ProxyNext.

Definition GetCode (x : option ResponseStatus) : Z := from_option rs_Code 0%Z x.
Definition GetMessage (x : option ResponseStatus) : string := from_option rs_Message "" x.
Definition GetDetails (x : option ResponseStatus) : list Any := from_option rs_Details [] x.

Definition GetKey (x : option KeyValue) : string := from_option kv_Key "" x.
Definition GetValue (x : option KeyValue) : string := from_option kv_Value "" x.
Definition GetData (x : option Body) : option (list byte) := x ≫= b_Data.
Definition GetMetadata (x : option Trailer) : option (list KeyValue) := x ≫= t_Metadata.
Definition GetType (x : option Reset) : string := from_option r_Type "" x.

(** The type of every reset the sources send or recognise. *)
Definition RST_STREAM : string := "RST_STREAM".
