(* ===== verification/Errors.v ===== *)
(** * Go errors and the gRPC status package

    [error] has a constructor for every kind of error value the sources create
    or compare: [io.EOF], the two context errors, gRPC status errors, messages
    of [fmt.Errorf]/[errors.New], and the wrappers of github.com/pkg/errors.
    [External] is an error made by code outside the repository (a transport, a
    codec, an application handler).  A nil error is [None : option error].

    google.golang.org/grpc/status is a parameter: class [StatusPkg] for its
    functions, class [StatusLaws] for the documented behaviour relied on. *)

From S2P Require Import Prelude Rpc.

(** spb.Status, which a status.Status wraps; [status.FromProto] and
    [the Proto method] convert between the two and keep the three fields. *)
Record Status := mkStatus { s_Code : Z; s_Message : string; s_Details : list Any }.

#[export] Instance Status_eq_dec : EqDecision Status.
Proof. solve_decision. Defined.

Inductive error : Type :=
  | EOF                                   (* io.EOF *)
  | Canceled                              (* context.Canceled *)
  | DeadlineExceeded                      (* context.DeadlineExceeded *)
  | StatusError (s : Status)              (* a gRPC status error *)
  | Errorf (msg : string)                 (* fmt.Errorf, errors.New *)
  | Wrap (cause : error) (msg : string)   (* errors.Wrap of pkg/errors *)
  | External (name : string).             (* an error of foreign code *)

#[export] Instance error_eq_dec : EqDecision error.
Proof. solve_decision. Defined.

(** A Go [(value, error)] result of which only one half is meaningful. *)
Inductive result (A : Type) : Type :=
  | Ok (a : A)
  | Err (e : error).
Arguments Ok {A} a.
Arguments Err {A} e.

#[export] Instance result_ret : MRet result := @Ok.
#[export] Instance result_bind : MBind result := λ A B k r,
  match r with Ok a => k a | Err e => Err e end.
#[export] Instance result_eq_dec {A} `{EqDecision A} : EqDecision (result A).
Proof. solve_decision. Defined.

(** fmt.Errorf("headers already sent") of internal/server. *)
Definition headers_already_sent : error := Errorf "headers already sent".

(** errors.Is(err, target) for the targets the sources use, which are compared
    along the chain of wrapped errors. *)
Fixpoint errors_Is (err target : error) : bool :=
  bool_decide (err = target) ||
  match err with Wrap cause _ => errors_Is cause target | _ => false end.

(** ** gRPC codes (google.golang.org/grpc/codes, fixed by the gRPC protocol) *)
Definition codes_OK : Z := 0.
Definition codes_Canceled : Z := 1.
Definition codes_Unknown : Z := 2.
Definition codes_InvalidArgument : Z := 3.
Definition codes_DeadlineExceeded : Z := 4.
Definition codes_Internal : Z := 13.
(** codes.OK.String() *)
Definition codes_OK_String : string := "OK".

Class StatusPkg := {
  (** the Err method of a status: an error representing the status *)
  status_Err : Status → option error;
  (** status.FromError of a non-nil error: a status, and whether one was found *)
  status_FromError : error → Status * bool;
  (** status.FromContextError of a non-nil error *)
  status_FromContextError : error → Status;
  (** (error).Error(): the text of an error *)
  error_Error : error → string }.

(** Whether an error is, or wraps, a gRPC status error. *)
Fixpoint has_status (e : error) : bool :=
  match e with
  | StatusError _ => true
  | Wrap cause _ => has_status cause
  | _ => false
  end.

Class StatusLaws `{StatusPkg} : Prop := {
  (** "Err returns an immutable error representing s; returns nil if s.Code()
      is OK." *)
  status_Err_OK s : s_Code s = codes_OK → status_Err s = None;
  status_Err_not_OK s : s_Code s ≠ codes_OK → status_Err s = Some (StatusError s);
  (** "If err was produced by this package [...] the appropriate Status is
      returned, and ok is true." *)
  status_FromError_status s : status_FromError (StatusError s) = (s, true);
  (** "Otherwise, err is an error not compatible with this package. In this
      case, a Status is returned with codes.Unknown and err's Error() message,
      and ok is false."  A foreign error may itself carry a status, so only the
      errors made by the sources are covered. *)
  status_FromError_plain e :
    has_status e = false → (∀ n, e ≠ External n) → (∀ c m, e ≠ Wrap c m) →
    status_FromError e = (mkStatus codes_Unknown (error_Error e) [], false);
  (** "FromContextError converts a context error or wrapped context error into
      a Status. It returns a Status with codes.OK if err is nil, or a Status
      with codes.Unknown if err is non-nil and not a context error." *)
  status_FromContextError_Canceled e :
    errors_Is e DeadlineExceeded = false → errors_Is e Canceled = true →
    s_Code (status_FromContextError e) = codes_Canceled;
  status_FromContextError_Deadline e :
    errors_Is e DeadlineExceeded = true →
    s_Code (status_FromContextError e) = codes_DeadlineExceeded;
  status_FromContextError_other e :
    errors_Is e DeadlineExceeded = false → errors_Is e Canceled = false →
    s_Code (status_FromContextError e) = codes_Unknown }.

(** ** A concrete package, to evaluate the model and to inhabit the laws *)
Module StatusModel.
Fixpoint text (e : error) : string :=
  match e with
  | EOF => "EOF"
  | Canceled => "context canceled"
  | DeadlineExceeded => "context deadline exceeded"
  | StatusError s => "rpc error: " +:+ s_Message s
  | Errorf m => m
  | Wrap c m => m +:+ ": " +:+ text c
  | External n => n
  end.
Fixpoint from_error (e : error) : option Status :=
  match e with
  | StatusError s => Some s
  | Wrap c m => from_error c
  | _ => None
  end.
Definition pkg : StatusPkg := {|
  status_Err s := if decide (s_Code s = codes_OK) then None else Some (StatusError s);
  status_FromError e :=
    match from_error e with
    | Some s => (s, true)
    | None => (mkStatus codes_Unknown (text e) [], false)
    end;
  status_FromContextError e :=
    mkStatus (if errors_Is e DeadlineExceeded then codes_DeadlineExceeded
              else if errors_Is e Canceled then codes_Canceled
              else codes_Unknown) (text e) [];
  error_Error := text |}.

Lemma StatusModel_laws : @StatusLaws pkg.
Proof.
  split; simpl.
  - intros s Hs. by rewrite decide_True.
  - intros s Hs. by rewrite decide_False.
  - done.
  - intros e He _ Hw. by destruct e; try done; exfalso; eapply Hw.
  - by intros e -> ->.
  - by intros e ->.
  - by intros e -> ->.
Qed.
End StatusModel.
