(* ===== verification/Metadata.v ===== *)
(** * Metadata: internal/util.go

    [ToKeyValue] and [ToMetadata] convert between gRPC metadata (a map from
    keys to lists of values) and the key/value list of the wire format.  Binary
    metadata (keys ending in "-bin") is base64-encoded on the wire.

    A Go map is ranged over in an unspecified order that may differ from one
    range statement to the next; [ord], an argument of every call, is the order
    that call sees, and [valid_order] says that it enumerates the map. *)

From S2P Require Import Prelude GoString Base64 Rpc Errors.

Abbreviation MD := (gmap string (list string)).
Abbreviation map_range := (MD → list (string * list string)).

Definition valid_order (ord : map_range) : Prop := ∀ m, ord m ≡ₚ map_to_list m.

(** md[k] read as a value list: nil when the key is absent. *)
Definition md_values (md : MD) (k : string) : list string := default [] (md !! k).

(** google.golang.org/grpc/metadata.Join *)
Class MetadataPkg := md_Join : list MD → MD.
(** "Join joins any number of mds into a single MD. The order of values for
    each key is determined by the order in which the mds containing those
    values are presented to Join." *)
Class MetadataLaws `{MetadataPkg} : Prop :=
  md_Join_values mds k : md_values (md_Join mds) k = mds ≫= λ md, md_values md k.

Section metadata.
Context `{Unicode}.

Definition is_bin (k : string) : bool := HasSuffix (ToLower k) "-bin".

(** The body of the loop of [ToKeyValue] for one key. *)
Definition key_values (kvs : string * list string) : list KeyValue :=
  (λ v, mkKeyValue kvs.1 (if is_bin kvs.1 then EncodeToString v else v)) <$> kvs.2.

Definition ToKeyValue `{MetadataPkg} (ord : map_range) (mds : list MD) : list KeyValue :=
  ord (md_Join mds) ≫= key_values.

Definition decode_value (k v : string) : result string :=
  if HasSuffix k "-bin" then
    match DecodeString v with
    | Some vv => Ok vv
    | None => Err (Errorf "illegal base64 data")
    end
  else Ok v.

Fixpoint ToMetadata_loop (md : MD) (kvs : list KeyValue) : result MD :=
  match kvs with
  | [] => Ok md
  | h :: kvs =>
      let k := ToLower (kv_Key h) in
      v ← decode_value k (kv_Value h);
      ToMetadata_loop (<[k := md_values md k ++ [v]]> md) kvs
  end.

Definition ToMetadata (kvs : list KeyValue) : result MD := ToMetadata_loop ∅ kvs.
End metadata.

(** ** Reading a key/value list *)
Section spec.
Context `{Unicode}.

(** The decoded values that [kvs] holds for the lower-case key [k]. *)
Fixpoint kv_lookup (k : string) (kvs : list KeyValue) : list string :=
  match kvs with
  | [] => []
  | h :: kvs =>
      (if decide (ToLower (kv_Key h) = k) then
         match decode_value k (kv_Value h) with Ok v => [v] | Err _ => [] end
       else []) ++ kv_lookup k kvs
  end.

Definition decodes (h : KeyValue) : Prop :=
  ∃ v, decode_value (ToLower (kv_Key h)) (kv_Value h) = Ok v.

#[export] Instance decodes_dec h : Decision (decodes h).
Proof.
  refine (match decode_value (ToLower (kv_Key h)) (kv_Value h) as r
          return (_ = r → Decision (decodes h)) with
          | Ok v => λ E, left (ex_intro _ v E)
          | Err e => λ E, right _
          end eq_refl).
  intros [v Hv]. congruence.
Defined.

Lemma kv_lookup_app k l1 l2 : kv_lookup k (l1 ++ l2) = kv_lookup k l1 ++ kv_lookup k l2.
Proof. induction l1 as [|h l1 IH]; simpl; [done|]. by rewrite IH, app_assoc. Qed.

(** The loop succeeds exactly when every value decodes ... *)
Lemma ToMetadata_loop_ok md kvs :
  (∃ md', ToMetadata_loop md kvs = Ok md') ↔ Forall decodes kvs.
Proof.
  revert md. induction kvs as [|h kvs IH]; intros md; simpl.
  - split; [by constructor|by eauto].
  - rewrite List.Forall_cons_iff. unfold decodes at 1.
    destruct (decode_value (ToLower (kv_Key h)) (kv_Value h)) as [v|e]; simpl.
    + rewrite IH. split; [eauto|tauto].
    + split; [intros [? [=]]|intros [[? [=]] _]].
Qed.

(** ... and then appends the values of each key in list order. *)
Lemma ToMetadata_loop_values md kvs md' k :
  ToMetadata_loop md kvs = Ok md' → md_values md' k = md_values md k ++ kv_lookup k kvs.
Proof.
  revert md. induction kvs as [|h kvs IH]; intros md; simpl.
  - intros [= ->]. by rewrite app_nil_r.
  - destruct (decode_value (ToLower (kv_Key h)) (kv_Value h)) as [v|e] eqn:E; simpl; [|done].
    intros ->%IH. rewrite app_assoc. f_equal. unfold md_values. destruct (decide (ToLower (kv_Key h) = k)) as [<-|Hne].
    + by rewrite lookup_insert_eq, E.
    + by rewrite lookup_insert_ne, app_nil_r.
Qed.

(** No key of the result is bound to an empty list. *)
Definition no_empty (md : MD) : Prop := ∀ k vs, md !! k = Some vs → vs ≠ [].

Lemma ToMetadata_loop_no_empty md kvs md' :
  no_empty md → ToMetadata_loop md kvs = Ok md' → no_empty md'.
Proof.
  revert md. induction kvs as [|h kvs IH]; intros md Hmd; simpl; [naive_solver|].
  destruct (decode_value _ _) as [v|e]; simpl; [|done].
  apply IH. intros k vs. rewrite lookup_insert_Some.
  intros [[_ <-]|[_ Hk]]; [by destruct (md_values _ _)|by eapply Hmd].
Qed.

Lemma no_empty_lookup md k :
  no_empty md → md !! k = match md_values md k with [] => None | vs => Some vs end.
Proof.
  intros Hmd. unfold md_values. destruct (md !! k) as [[|v vs]|] eqn:E; simpl; [|done..].
  by apply Hmd in E.
Qed.
End spec.

(** ** Keys that survive the trip *)
Definition lower_md (md : MD) : Prop := ∀ k vs, md !! k = Some vs → lower_key k = true.

Section roundtrip.
Context `{Unicode}.

Lemma decode_key_value k v :
  decode_value (ToLower k) (if is_bin k then EncodeToString v else v) = Ok v.
Proof.
  unfold decode_value, is_bin.
  destruct (HasSuffix (ToLower k) "-bin"); [by rewrite DecodeString_EncodeToString|done].
Qed.

Lemma key_values_decodes kvs : Forall decodes (key_values kvs).
Proof.
  unfold key_values. apply Forall_fmap, Forall_forall. intros v _.
  exists v. apply decode_key_value.
Qed.

Lemma kv_lookup_key_values k j vs :
  (vs ≠ [] → lower_key j = true) →
  kv_lookup k (key_values (j, vs)) = if decide (j = k) then vs else [].
Proof.
  intros Hj. unfold key_values. cbn [fst snd]. induction vs as [|v vs IH].
  { by destruct (decide (j = k)). }
  specialize (Hj ltac:(done)). rewrite fmap_cons. cbn [kv_lookup kv_Key kv_Value].
  rewrite IH by done.
  pose proof (decode_key_value j v) as Hd. rewrite lower_key_ToLower in * by done.
  destruct (decide (j = k)) as [->|]; [by rewrite Hd|done].
Qed.

(** Over an enumeration of a map, whatever its order. *)
Lemma kv_lookup_enumeration k (l : list (string * list string)) :
  NoDup l.*1 → (∀ j vs, (j, vs) ∈ l → vs ≠ [] → lower_key j = true) →
  kv_lookup k (l ≫= key_values) = default [] ((list_to_map l : MD) !! k).
Proof.
  induction l as [|[j vs] l IH]; intros Hnd Hl.
  { done. }
  rewrite fmap_cons in Hnd. apply NoDup_cons in Hnd as [Hj Hnd].
  rewrite bind_cons, list_to_map_cons, kv_lookup_app, kv_lookup_key_values, IH;
    [|done|intros; eapply Hl; [by right|done]|intros; eapply Hl; [by left|done]].
  destruct (decide (j = k)) as [->|Hne].
  - rewrite lookup_insert_eq. rewrite (not_elem_of_list_to_map_1 _ k) by done.
    simpl. by rewrite app_nil_r.
  - by rewrite lookup_insert_ne.
Qed.

(** Whatever the keys are, and whatever [Join] does. *)
Lemma ToKeyValue_decodes `{MetadataPkg} ord mds : Forall decodes (ToKeyValue ord mds).
Proof. apply Forall_bind, Forall_forall. intros kvs _. apply key_values_decodes. Qed.

Context `{MetadataPkg, !MetadataLaws}.

Lemma Join_lower mds k vs :
  Forall lower_md mds → md_Join mds !! k = Some vs → vs ≠ [] → lower_key k = true.
Proof.
  intros Hmds Hk Hvs. pose proof (md_Join_values mds k) as HJ.
  unfold md_values at 1 in HJ. rewrite Hk in HJ. simpl in HJ.
  destruct vs as [|v vs]; [done|].
  assert (v ∈ mds ≫= λ md, md_values md k) as (md & Hv & Hmd)%list_elem_of_bind
    by (rewrite <-HJ; left).
  unfold md_values in Hv. destruct (md !! k) as [ws|] eqn:E; simpl in Hv; [|set_solver].
  rewrite Forall_forall in Hmds. by eapply Hmds.
Qed.

Lemma order_keys ord m : valid_order ord → NoDup (ord m).*1.
Proof.
  intros Hord. eapply NoDup_Permutation_proper; [by apply fmap_Permutation, Hord|].
  apply NoDup_fst_map_to_list.
Qed.

Lemma order_map ord m : valid_order ord → list_to_map (ord m) = m.
Proof.
  intros Hord. rewrite <-(list_to_map_to_list m) at 2.
  apply list_to_map_proper; [by apply order_keys|apply Hord].
Qed.

Lemma order_elem ord m k vs : valid_order ord → (k, vs) ∈ ord m ↔ m !! k = Some vs.
Proof. intros Hord. rewrite (Hord m). apply elem_of_map_to_list. Qed.

Lemma kv_lookup_ToKeyValue ord mds k :
  valid_order ord → Forall lower_md mds →
  kv_lookup k (ToKeyValue ord mds) = mds ≫= λ md, md_values md k.
Proof.
  intros Hord Hmds. unfold ToKeyValue.
  rewrite kv_lookup_enumeration, order_map by
    (done || by apply order_keys || (intros j vs Hj%order_elem; [by eapply Join_lower|done])).
  by rewrite <-md_Join_values.
Qed.

(** ** Round trip

    What [ToMetadata] reads from the output of [ToKeyValue] is, for every key,
    the concatenation of the values of the given maps; keys without a value
    are dropped.  The order in which Go ranges over the map is irrelevant. *)
Lemma ToMetadata_ToKeyValue_lookup ord mds :
  valid_order ord → Forall lower_md mds →
  ∃ md, ToMetadata (ToKeyValue ord mds) = Ok md ∧
    ∀ k, md !! k = match mds ≫= λ m, md_values m k with [] => None | vs => Some vs end.
Proof.
  intros Hord Hmds.
  destruct (proj2 (ToMetadata_loop_ok ∅ _) (ToKeyValue_decodes ord mds)) as [md Hmd].
  exists md. split; [done|]. intros k.
  rewrite no_empty_lookup by
    (eapply ToMetadata_loop_no_empty; [|done]; intros ??; by rewrite lookup_empty).
  by rewrite (ToMetadata_loop_values _ _ _ _ Hmd), kv_lookup_ToKeyValue.
Qed.
End roundtrip.

(** ** A concrete [Join], to evaluate the model and to inhabit its law *)
Module MetadataModel.
Definition join2 (m1 m2 : MD) : MD := union_with (λ v w, Some (v ++ w)) m1 m2.
Definition Join : MetadataPkg := foldr join2 ∅.

Lemma join2_values m1 m2 k :
  md_values (join2 m1 m2) k = md_values m1 k ++ md_values m2 k.
Proof.
  unfold join2, md_values. rewrite lookup_union_with.
  destruct (m1 !! k), (m2 !! k); simpl; by rewrite ?app_nil_r.
Qed.

Lemma MetadataModel_laws : @MetadataLaws Join.
Proof.
  intros mds k. induction mds as [|m mds IH]; [done|].
  rewrite bind_cons, <-IH. apply join2_values.
Qed.

(** Ranging over a map in the order of its keys. *)
Definition order : map_range := map_to_list.
Lemma order_valid : valid_order order.
Proof. by intros m. Qed.

(** Any mapping of non-ASCII letters will do for ASCII keys. *)
Definition no_unicode : Unicode := id.
End MetadataModel.

(** ** Properties *)
Section properties.
Context `{Unicode, MetadataPkg, !MetadataLaws}.

(** C25: Metadata with lower-case keys, each bound to at least one value, is read
    back unchanged from its wire form, binary values included, whatever order
    Go ranges over the map in. *)
Theorem metadata_roundtrip ord (md : MD) :
  valid_order ord → lower_md md → no_empty md →
  ToMetadata (ToKeyValue ord [md]) = Ok md.
Proof.
  intros Hord Hlow Hne.
  destruct (ToMetadata_ToKeyValue_lookup ord [md] Hord) as (md' & -> & Hmd'); [by repeat constructor|].
  f_equal. apply map_eq. intros k. rewrite Hmd', (no_empty_lookup md k) by done.
  by rewrite bind_singleton.
Qed.

(** [ToMetadata] fails exactly when some binary value is not valid base64,
    and never because of anything else in the headers; when it succeeds each
    key holds the decoded values of the headers of that name, in order. *)
Theorem ToMetadata_spec kvs :
  match ToMetadata kvs with
  | Ok md => Forall decodes kvs ∧ (∀ k, md_values md k = kv_lookup k kvs)
  | Err _ => ∃ h, h ∈ kvs ∧ HasSuffix (ToLower (kv_Key h)) "-bin" = true ∧
                  DecodeString (kv_Value h) = None
  end.
Proof.
  pose proof (ToMetadata_loop_ok ∅ kvs) as Hok. unfold ToMetadata.
  destruct (ToMetadata_loop ∅ kvs) as [md|e] eqn:E.
  - split; [by apply Hok; exists md|]. intros k.
    by rewrite (ToMetadata_loop_values _ _ _ _ E).
  - destruct (decide (Forall decodes kvs)) as [Hf|Hf]; [apply Hok in Hf as [? [=]]|].
    pose proof (not_Forall_Exists decodes kvs Hf) as (h & Hin & Hh)%Exists_exists.
    exists h. split; [done|]. cbn in Hh. unfold decodes, decode_value in Hh.
    destruct (HasSuffix (ToLower (kv_Key h)) "-bin"), (DecodeString (kv_Value h));
      first [done | exfalso; apply Hh; by eexists].
Qed.
End properties.

Definition ex_md : MD := {[ "trace-bin" := ["a"; ""]; "user" := ["bob"] ]}.

Lemma metadata_roundtrip_witness :
  @ToMetadata MetadataModel.no_unicode
    (@ToKeyValue MetadataModel.no_unicode MetadataModel.Join MetadataModel.order [ex_md]) = Ok ex_md.
Proof.
  apply (@metadata_roundtrip MetadataModel.no_unicode MetadataModel.Join MetadataModel.MetadataModel_laws).
  - apply MetadataModel.order_valid.
  - intros k vs. unfold ex_md. rewrite lookup_insert_Some, lookup_singleton_Some.
    intros [[<- _]|[_ [<- _]]]; reflexivity.
  - intros k vs. unfold ex_md. rewrite lookup_insert_Some, lookup_singleton_Some.
    intros [[_ <-]|[_ [_ <-]]]; discriminate.
Defined.
