(* ===== verification/RequestContext.v ===== *)
(** * Request contexts: method names, timeouts and metadata in the header

    The server half is [parseRawMethod], [parseGrpcTimeout] and
    [contextFromHeaders] of server.go; the client half is [headersFromContext]
    of client.go.  Durations and instants are nanosecond counts in [Z]; a
    [time.Duration] result of Go arithmetic is wrapped to 64 bits. *)

From S2P Require Import Prelude GoString Base64 Rpc Errors Metadata.
From Stdlib Require Import Ascii.

(** What the sources read from and add to a [context.Context]: incoming and
    outgoing metadata, the deadline, and opaque values added by foreign code
    (a stats handler's tags).  Cancellation is an input of the operations that
    wait on it. *)
Record Ctx := mkCtx {
  ctx_incoming : option MD;
  ctx_outgoing : option MD;
  ctx_deadline : option Z;
  ctx_values : list string }.

Definition Background : Ctx := mkCtx None None None [].

(** metadata.NewIncomingContext *)
Definition NewIncomingContext (parent : Ctx) (md : MD) : Ctx :=
  mkCtx (Some md) (ctx_outgoing parent) (ctx_deadline parent) (ctx_values parent).

(** context.WithTimeout at the instant [now]: the parent's deadline stays when
    it is earlier. *)
Definition WithTimeout (now : Z) (parent : Ctx) (timeout : Z) : Ctx :=
  mkCtx (ctx_incoming parent) (ctx_outgoing parent)
    (Some (from_option (Z.min (now + timeout)) (now + timeout)%Z (ctx_deadline parent)))
    (ctx_values parent).

Definition Hour : Z := 3600000000000.
Definition Minute : Z := 60000000000.
Definition Second : Z := 1000000000.
Definition Millisecond : Z := 1000000.
Definition Microsecond : Z := 1000.
Definition Nanosecond : Z := 1.

(** ** server.go *)

Definition getUnit (suffix : ascii) : Z :=
  match suffix with
  | "H"%char => Hour
  | "M"%char => Minute
  | "S"%char => Second
  | "m"%char => Millisecond
  | "u"%char => Microsecond
  | "n"%char => Nanosecond
  | _ => 0
  end.

Definition parseGrpcTimeout (timeout : string) : option Z :=
  let bs := bytes_of timeout in
  match last bs with
  | None => None
  | Some suffix =>
      match ParseInt (string_of (take (pred (length bs)) bs)) with
      | None => None
      | Some val =>
          let unit := getUnit suffix in
          if (unit =? 0)%Z then None else Some (wrap64 (wrap64 val * unit))
      end
  end.

Definition slash : ascii := "/"%char.

Definition parseRawMethod (sm : string) : result (string * string) :=
  let sm := match bytes_of sm with
            | c :: l => if decide (c = slash) then l else c :: l
            | [] => []
            end in
  match last_index slash sm with
  | None => Err (Errorf ("invalid method name " +:+ string_of sm))
  | Some pos => Ok (string_of (take pos sm), string_of (drop (S pos) sm))
  end.

(** fmt.Sprintf("/%s/%s", service, method) *)
Definition fullMethod (service method : string) : string :=
  "/" +:+ service +:+ "/" +:+ method.

Section server.
Context `{Unicode}.

(** The first header named grpc-timeout (in any case) that parses. *)
Fixpoint first_timeout (kvs : list KeyValue) : option Z :=
  match kvs with
  | [] => None
  | hdr :: kvs =>
      if decide (ToLower (kv_Key hdr) = "grpc-timeout") then
        match parseGrpcTimeout (kv_Value hdr) with
        | Some timeout => Some timeout
        | None => first_timeout kvs
        end
      else first_timeout kvs
  end.

Definition contextFromHeaders (now : Z) (parent : Ctx) (h : RequestHeader)
    : Ctx * option error :=
  match ToMetadata (h_Headers h) with
  | Err err => (parent, Some err)
  | Ok md =>
      let ctx := NewIncomingContext parent md in
      match first_timeout (h_Headers h) with
      | Some timeout => (WithTimeout now ctx timeout, None)
      | None => (ctx, None)
      end
  end.
End server.

(** ** client.go *)

(** time.Until(deadline) at [now]: the difference saturates at the ends of the
    int64 range. *)
Definition time_Until (now deadline : Z) : Z :=
  Z.max int64_min (Z.min int64_max (deadline - now)).

(** The value of the GRPC-Timeout header: whole milliseconds, at least one. *)
Definition timeout_ms (now deadline : Z) : Z :=
  let ms := (time_Until now deadline `quot` Millisecond)%Z in
  if (ms <=? 0)%Z then 1 else ms.

Definition timeout_value (now deadline : Z) : string :=
  FormatInt (timeout_ms now deadline) +:+ "m".

Section client.
Context `{Unicode, MetadataPkg}.

Definition headersFromContext (now : Z) (ord : map_range) (ctx : Ctx) : list KeyValue :=
  (match ctx_outgoing ctx with Some md => ToKeyValue ord [md] | None => [] end) ++
  (match ctx_deadline ctx with
   | Some deadline => [mkKeyValue "GRPC-Timeout" (timeout_value now deadline)]
   | None => []
   end).
End client.

(** ** Method names *)
Lemma parse_fullMethod service method :
  slash ∉ bytes_of method →
  parseRawMethod (fullMethod service method) = Ok (service, method).
Proof.
  intros Hm. unfold parseRawMethod, fullMethod. rewrite !bytes_of_app.
  change (bytes_of "/") with [slash]. cbn [app]. rewrite decide_True by done.
  rewrite last_index_app by done. rewrite take_app_length.
  change (slash :: bytes_of method) with ([slash] ++ bytes_of method).
  rewrite app_assoc, drop_app_length'; [by rewrite !string_of_bytes_of|].
  rewrite length_app. simpl. lia.
Qed.

(** The name without the one leading slash the parser strips. *)
Definition strip_slash (sm : string) : string :=
  match bytes_of sm with
  | c :: l => if decide (c = slash) then string_of l else sm
  | [] => sm
  end.

(** [parseRawMethod] splits the name at its last slash, after dropping one
    leading slash, and fails exactly when no slash is left; in particular it
    inverts the format "/service/method" for any method without a slash. *)
Theorem parseRawMethod_spec sm :
  match parseRawMethod sm with
  | Ok (service, method) =>
      strip_slash sm = service +:+ "/" +:+ method ∧ slash ∉ bytes_of method
  | Err _ => slash ∉ bytes_of (strip_slash sm)
  end ∧
  (∀ service method, slash ∉ bytes_of method →
     parseRawMethod (fullMethod service method) = Ok (service, method)).
Proof.
  split; [|apply parse_fullMethod].
  set (l := match bytes_of sm with
            | c :: l => if decide (c = slash) then l else c :: l | [] => [] end).
  assert (Hl : l = bytes_of (strip_slash sm)).
  { unfold l, strip_slash. destruct (bytes_of sm) as [|c l'] eqn:E; [by rewrite E|].
    destruct (decide (c = slash)); [by rewrite bytes_of_string_of|by rewrite E]. }
  unfold parseRawMethod. fold l. destruct (last_index slash l) as [pos|] eqn:E.
  - apply last_index_Some in E as [Heq Hn]. rewrite bytes_of_string_of. split; [|done].
    apply bytes_of_inj. rewrite !bytes_of_app, !bytes_of_string_of, <-Hl. exact Heq.
  - rewrite <-Hl. by apply last_index_None.
Qed.

(** ** Timeouts *)
Lemma parse_timeout_value ms :
  is_int64 ms = true →
  parseGrpcTimeout (FormatInt ms +:+ "m") = Some (wrap64 (ms * Millisecond)).
Proof.
  intros Hms. unfold parseGrpcTimeout. rewrite bytes_of_app.
  change (bytes_of "m") with ["m"%char]. rewrite last_snoc, length_app. simpl.
  replace (pred (length (bytes_of (FormatInt ms)) + 1))
    with (length (bytes_of (FormatInt ms))) by lia.
  rewrite take_app_length, string_of_bytes_of, ParseInt_FormatInt by done.
  by rewrite (wrap64_id ms).
Qed.

(** A positive number of whole milliseconds is below the remaining time by less
    than a millisecond. *)
Lemma quot_ms_bounds r :
  (0 < r `quot` Millisecond →
   0 < r ∧ r - Millisecond < r `quot` Millisecond * Millisecond ≤ r)%Z.
Proof.
  unfold Millisecond. intros H. destruct (Z.le_gt_cases r 0) as [Hr|Hr].
  - pose proof (Z.quot_pos (- r) 1000000 ltac:(lia) ltac:(lia)) as Hq.
    rewrite Z.quot_opp_l in Hq by lia. lia.
  - pose proof (Z.mul_quot_le r 1000000 ltac:(lia) ltac:(lia)).
    pose proof (Z.mul_succ_quot_gt r 1000000 ltac:(lia) ltac:(lia)). lia.
Qed.

Lemma timeout_ms_bounds now d :
  (1 ≤ timeout_ms now d ∧ timeout_ms now d * Millisecond < 2 ^ 63)%Z.
Proof.
  unfold timeout_ms. set (r := time_Until now d).
  assert (r < 2 ^ 63)%Z by (unfold r, time_Until, int64_min, int64_max; lia).
  destruct (Z.leb_spec (r `quot` Millisecond) 0); [unfold Millisecond; lia|].
  pose proof (quot_ms_bounds r). lia.
Qed.

Lemma parse_timeout_ms now d :
  parseGrpcTimeout (timeout_value now d) = Some (timeout_ms now d * Millisecond)%Z.
Proof.
  pose proof (timeout_ms_bounds now d) as [H1 H2]. unfold timeout_value.
  rewrite parse_timeout_value, wrap64_id; [done|apply is_int64_spec..];
    unfold Millisecond in *; lia.
Qed.

(** A duration in range is sent as whole milliseconds, rounded down; what is
    left of less than a millisecond, or already over, is sent as one. *)
Lemma timeout_ms_value now d :
  is_int64 (d - now) = true →
  timeout_ms now d =
    (if Millisecond <=? d - now then (d - now) `quot` Millisecond else 1)%Z.
Proof.
  intros Hr%is_int64_spec. unfold timeout_ms.
  assert (time_Until now d = d - now)%Z as ->
    by (unfold time_Until, int64_min, int64_max; lia).
  destruct (Z.leb_spec Millisecond (d - now)) as [Hm|Hm].
  - assert (1 ≤ (d - now) `quot` Millisecond)%Z.
    { apply Z.quot_le_lower_bound; unfold Millisecond in *; lia. }
    destruct (Z.leb_spec ((d - now) `quot` Millisecond) 0); [lia|done].
  - destruct (Z.leb_spec ((d - now) `quot` Millisecond) 0) as [|Hq]; [done|].
    pose proof (quot_ms_bounds (d - now) Hq). unfold Millisecond in *. lia.
Qed.

Lemma parseGrpcTimeout_value n u :
  is_int64 n = true →
  parseGrpcTimeout (FormatInt n +:+ string_of [u]) =
    if (getUnit u =? 0)%Z then None else Some (wrap64 (n * getUnit u)).
Proof.
  intros Hn. unfold parseGrpcTimeout. rewrite bytes_of_app, bytes_of_string_of.
  rewrite last_snoc, length_app, Nat.add_comm. cbn [length Nat.add pred].
  rewrite take_app_length, string_of_bytes_of, ParseInt_FormatInt by done.
  by rewrite (wrap64_id n).
Qed.

(** C27: A timeout "<n><unit>" is read as n units, exactly while the product fits
    in 64 bits.  Beyond that it wraps: the value differs from the one the
    client asked for, and every result is some int64 (so possibly negative). *)
Theorem parseGrpcTimeout_spec n u :
  (0 ≤ n < 2 ^ 63)%Z → getUnit u ≠ 0%Z →
  ∃ d, parseGrpcTimeout (FormatInt n +:+ string_of [u]) = Some d ∧
    is_int64 d = true ∧ ((n * getUnit u < 2 ^ 63)%Z ↔ d = (n * getUnit u)%Z).
Proof.
  intros Hn Hu. exists (wrap64 (n * getUnit u)).
  rewrite parseGrpcTimeout_value by (apply is_int64_spec; lia).
  rewrite (proj2 (Z.eqb_neq _ _) Hu). split; [done|]. split; [apply wrap64_int64|].
  assert (0 ≤ getUnit u)%Z by (destruct u as [[] [] [] [] [] [] [] []]; done).
  split.
  - intros H2. apply wrap64_id, is_int64_spec. nia.
  - intros H2. pose proof (wrap64_int64 (n * getUnit u)) as H3. rewrite H2 in H3.
    apply is_int64_spec in H3. lia.
Qed.

(** 2562048 hours, which the wire format allows (it has seven digits), becomes
    a deadline in the past. *)
Lemma parseGrpcTimeout_spec_witness :
  (∃ d, parseGrpcTimeout (FormatInt 2562048 +:+ string_of ["H"%char]) = Some d ∧
    is_int64 d = true ∧ ((2562048 * getUnit "H" < 2 ^ 63)%Z ↔ d = (2562048 * getUnit "H")%Z)) ∧
  parseGrpcTimeout "2562048H" = Some (-9223371273709551616)%Z.
Proof.
  split.
  - apply (parseGrpcTimeout_spec 2562048 "H"); [lia|done].
  - vm_compute. reflexivity.
Defined.

(** ** From the client's context to the server's *)
Section propagation.
Context `{Unicode, MetadataPkg, !MetadataLaws}.

Lemma ToKeyValue_elem ord mds h :
  valid_order ord → h ∈ ToKeyValue ord mds →
  ∃ vs, md_Join mds !! kv_Key h = Some vs ∧ vs ≠ [].
Proof.
  intros Hord. unfold ToKeyValue. rewrite list_elem_of_bind.
  intros ([k vs] & Hh & Hin). apply order_elem in Hin; [|done].
  unfold key_values in Hh. apply list_elem_of_fmap in Hh as (v & -> & Hv).
  exists vs. cbn in *. split; [done|]. intros ->. set_solver.
Qed.

Lemma first_timeout_app l1 l2 :
  Forall (λ h, ToLower (kv_Key h) ≠ "grpc-timeout") l1 →
  first_timeout (l1 ++ l2) = first_timeout l2.
Proof. induction 1; simpl; [done|]. by rewrite decide_False. Qed.

Definition outgoing (ctx : Ctx) : MD := default ∅ (ctx_outgoing ctx).

Lemma outgoing_no_timeout ord ctx :
  valid_order ord → lower_md (outgoing ctx) → outgoing ctx !! "grpc-timeout" = None →
  Forall (λ h, ToLower (kv_Key h) ≠ "grpc-timeout")
    (match ctx_outgoing ctx with Some md => ToKeyValue ord [md] | None => [] end).
Proof.
  intros Hord Hlow Hno. unfold outgoing in *. destruct (ctx_outgoing ctx) as [md|]; [|constructor].
  simpl in *. apply Forall_forall. intros h (vs & Hvs & Hne)%ToKeyValue_elem; [|done].
  assert (lower_key (kv_Key h) = true) as Hk by (eapply (Join_lower [md]); [by repeat constructor|done..]).
  rewrite lower_key_ToLower by done. intros E.
  pose proof (md_Join_values [md] (kv_Key h)) as HJ. rewrite bind_singleton in HJ.
  unfold md_values in HJ. rewrite Hvs, E, Hno in HJ. simpl in HJ. congruence.
Qed.

Lemma outgoing_lookup ord ctx k :
  valid_order ord → lower_md (outgoing ctx) →
  kv_lookup k (match ctx_outgoing ctx with Some md => ToKeyValue ord [md] | None => [] end)
  = md_values (outgoing ctx) k.
Proof.
  intros Hord Hlow. unfold outgoing in *. destruct (ctx_outgoing ctx) as [md|]; simpl in *.
  - rewrite kv_lookup_ToKeyValue by (done || by repeat constructor). simpl. by rewrite app_nil_r.
  - unfold md_values. by rewrite lookup_empty.
Qed.

Lemma outgoing_decodes ord ctx :
  Forall decodes (match ctx_outgoing ctx with Some md => ToKeyValue ord [md] | None => [] end).
Proof. destruct (ctx_outgoing ctx); [apply ToKeyValue_decodes|constructor]. Qed.

(** The server can always read the headers a client sends. *)
Lemma headersFromContext_decodes now ord ctx : Forall decodes (headersFromContext now ord ctx).
Proof.
  unfold headersFromContext. apply Forall_app. split; [apply outgoing_decodes|].
  destruct (ctx_deadline ctx); [|by constructor]. apply Forall_singleton. eexists. reflexivity.
Qed.

(** C26: A deadline on the client's context reaches the server: the request
    context built from the headers has no error, expires (unless the
    connection's own context does so earlier) after the remaining whole
    milliseconds - at most what the client had left, and less than one
    millisecond short of it - and carries the client's metadata unchanged
    next to the timeout header. *)
Theorem deadline_propagation now1 now2 ord ctx parent d method src dst :
  valid_order ord → lower_md (outgoing ctx) → outgoing ctx !! "grpc-timeout" = None →
  ctx_deadline ctx = Some d → (Millisecond ≤ d - now1 < 2 ^ 63)%Z →
  ctx_deadline parent = None →
  ∃ ctx' md t,
    contextFromHeaders now2 parent
      (header_lit method (headersFromContext now1 ord ctx) src dst) = (ctx', None) ∧
    ctx_deadline ctx' = Some (now2 + t)%Z ∧
    (d - now1 - Millisecond < t ≤ d - now1)%Z ∧
    ctx_incoming ctx' = Some md ∧
    (∀ k, k ≠ "grpc-timeout" → md_values md k = md_values (outgoing ctx) k) ∧
    md_values md "grpc-timeout" = [timeout_value now1 d].
Proof.
  intros Hord Hlow Hno Hd Hr Hp.
  unfold contextFromHeaders, headersFromContext. rewrite Hd. cbn [h_Headers header_lit].
  set (user := match ctx_outgoing ctx with Some md => _ | None => [] end).
  set (th := mkKeyValue "GRPC-Timeout" (timeout_value now1 d)).
  assert (Hlk : ∀ k, kv_lookup k [th] =
            if decide (k = "grpc-timeout") then [timeout_value now1 d] else []).
  { intros k. simpl. change (ToLower "GRPC-Timeout") with "grpc-timeout".
    destruct (decide (k = "grpc-timeout")) as [->|Hne].
    - rewrite decide_True by done. done.
    - rewrite decide_False by congruence. done. }
  destruct (proj2 (ToMetadata_loop_ok ∅ (user ++ [th]))) as [md Hmd].
  { apply Forall_app. split; [apply outgoing_decodes|]. repeat constructor.
    eexists. reflexivity. }
  unfold ToMetadata. rewrite Hmd. unfold user at 1.
  rewrite first_timeout_app by by apply outgoing_no_timeout.
  cbn [first_timeout kv_Key th]. rewrite decide_True by done. cbn [kv_Value th].
  rewrite parse_timeout_ms.
  eexists _, md, (timeout_ms now1 d * Millisecond)%Z. split; [done|].
  split; [simpl; by rewrite Hp|]. split.
  { rewrite timeout_ms_value by (apply is_int64_spec; unfold Millisecond in *; lia).
    replace (Millisecond <=? d - now1)%Z with true by (symmetry; apply Z.leb_le; lia).
    apply quot_ms_bounds. assert (1 ≤ (d - now1) `quot` Millisecond)%Z; [|lia].
    apply Z.quot_le_lower_bound; unfold Millisecond in *; lia. }
  split; [done|].
  assert (Hv : ∀ k, md_values md k = md_values (outgoing ctx) k ++ kv_lookup k [th]).
  { intros k. rewrite (ToMetadata_loop_values _ _ _ _ Hmd), kv_lookup_app.
    unfold user. rewrite outgoing_lookup by done. done. }
  split.
  - intros k Hk. by rewrite Hv, Hlk, decide_False, app_nil_r.
  - rewrite Hv, Hlk, decide_True by done. unfold md_values at 1. by rewrite Hno.
Qed.
End propagation.

Lemma deadline_propagation_witness :
  ∃ ctx' md t,
    @contextFromHeaders MetadataModel.no_unicode 50 Background
      (header_lit "/s/m" (@headersFromContext MetadataModel.no_unicode MetadataModel.Join
         1000 MetadataModel.order (mkCtx None (Some {[ "user" := ["bob"] ]}) (Some 2501000%Z) []))
         "c" "s") = (ctx', None) ∧
    ctx_deadline ctx' = Some (50 + t)%Z ∧
    (2501000 - 1000 - Millisecond < t ≤ 2501000 - 1000)%Z ∧
    ctx_incoming ctx' = Some md ∧
    (∀ k, k ≠ "grpc-timeout" →
       md_values md k =
       md_values (outgoing (mkCtx None (Some {[ "user" := ["bob"] ]}) (Some 2501000%Z) [])) k) ∧
    md_values md "grpc-timeout" = [timeout_value 1000 2501000].
Proof.
  apply (@deadline_propagation MetadataModel.no_unicode MetadataModel.Join MetadataModel.MetadataModel_laws).
  - apply MetadataModel.order_valid.
  - intros k vs. change (outgoing _) with ({[ "user" := ["bob"] ]} : MD).
    rewrite lookup_singleton_Some. by intros [<- _].
  - reflexivity.
  - reflexivity.
  - unfold Millisecond. lia.
  - reflexivity.
Defined.
