(* ===== verification/Runtime.v ===== *)
(** * The code around GOAT: codec, stats handlers, effects

    What the components share of the outside world: the message codec of
    google.golang.org/grpc/encoding (a parameter), the stats handlers an
    application installs (foreign code, called back), and the effects that the
    sequential code of the library has on them and on its transport. *)

From S2P Require Import Prelude Rpc Errors Metadata RequestContext.

(** ** Codec

    A marshalled message is a mem.BufferSlice, a list of buffers;
    [Materialize] concatenates them.  [Unmarshal] fills a message in. *)
Class Codec (Msg : Type) := {
  Marshal : Msg → result (list (list byte));
  Materialize : list (list byte) → list byte;
  Unmarshal : list (list byte) → result Msg }.

(** The protobuf codec restores a message from the single buffer that holds its
    materialised bytes. *)
Class CodecLaws (Msg : Type) `{Codec Msg} : Prop :=
  Unmarshal_Marshal m bs : Marshal m = Ok bs → Unmarshal [Materialize bs] = Ok m.

(** ** Stats handlers (google.golang.org/grpc/stats)

    The wall-clock stamps of payload events are not modelled. *)
Inductive stats_event (Msg : Type) : Type :=
  | StatsBegin (client : bool) (beginTime : Z) (isClientStream isServerStream : bool)
  | StatsInHeader (client : bool) (fullMethod : string) (header : option MD)
  | StatsInPayload (client : bool) (payload : option Msg) (len : nat)
  | StatsOutHeader (client : bool) (fullMethod : string) (header : option MD)
  | StatsOutPayload (client : bool) (payload : option Msg) (len : nat)
  | StatsOutTrailer (client : bool) (trailer : option MD)
  | StatsEnd (client : bool) (beginTime endTime : Z) (err : option error).
Arguments StatsBegin {Msg}.
Arguments StatsInHeader {Msg}.
Arguments StatsInPayload {Msg}.
Arguments StatsOutHeader {Msg}.
Arguments StatsOutPayload {Msg}.
Arguments StatsOutTrailer {Msg}.
Arguments StatsEnd {Msg}.

(** A stats handler's [TagRPC] derives the context of an RPC, and its [TagConn]
    that of a connection. *)
Class StatsHandler (Handler : Type) := {
  TagRPC : Handler → Ctx → string → Ctx;
  TagConn : Handler → Ctx → Ctx }.

(** ConnBegin and ConnEnd *)
Inductive conn_event := ConnBegin (client : bool) | ConnEnd (client : bool).

(** ** Effects of a call: an attempted write and its result, or a callback *)
Inductive effect (Msg Handler : Type) : Type :=
  | EWrite (rpc : Rpc) (err : option error)
  | EHandleRPC (sh : Handler) (ctx : Ctx) (ev : stats_event Msg)
  | EHandleConn (sh : Handler) (ctx : Ctx) (ev : conn_event).
Arguments EWrite {Msg Handler}.
Arguments EHandleRPC {Msg Handler}.
Arguments EHandleConn {Msg Handler}.

Section effects.
Context {Msg Handler : Type}.

(** The Rpcs whose write succeeded, in order. *)
Definition written (e : effect Msg Handler) : list Rpc :=
  match e with EWrite rpc None => [rpc] | _ => [] end.
Definition sent (l : list (effect Msg Handler)) : list Rpc := l ≫= written.

Lemma sent_cons e l : sent (e :: l) = written e ++ sent l.
Proof. done. Qed.

(** The events one handler was given, in order. *)
Definition event_of `{EqDecision Handler} (sh : Handler) (e : effect Msg Handler)
    : list (stats_event Msg) :=
  match e with
  | EHandleRPC sh' _ ev => if decide (sh' = sh) then [ev] else []
  | EWrite _ _ | EHandleConn _ _ _ => []
  end.
Definition events_of `{EqDecision Handler} (sh : Handler) (l : list (effect Msg Handler))
    : list (stats_event Msg) := l ≫= event_of sh.

Lemma events_of_cons `{EqDecision Handler} sh e l :
  events_of sh (e :: l) = event_of sh e ++ events_of sh l.
Proof. done. Qed.
Lemma events_of_app `{EqDecision Handler} sh l1 l2 :
  events_of sh (l1 ++ l2) = events_of sh l1 ++ events_of sh l2.
Proof. apply bind_app. Qed.

Lemma sent_app l1 l2 : sent (l1 ++ l2) = sent l1 ++ sent l2.
Proof. apply bind_app. Qed.

(** [for _, sh := range handlers { sh.HandleRPC(ctx, ev) }] *)
Definition notify (handlers : list Handler) (ctx : Ctx) (ev : stats_event Msg)
    : list (effect Msg Handler) :=
  (λ sh, EHandleRPC sh ctx ev) <$> handlers.

Lemma sent_notify handlers ctx ev : sent (notify handlers ctx ev) = [].
Proof. by induction handlers. Qed.

Lemma events_of_notify `{EqDecision Handler} sh handlers ctx ev :
  NoDup handlers →
  events_of sh (notify handlers ctx ev) = if decide (sh ∈ handlers) then [ev] else [].
Proof.
  induction 1 as [|sh' shs Hn Hnd IH]; [by rewrite decide_False by set_solver|].
  unfold notify in *. rewrite fmap_cons, events_of_cons, IH. simpl.
  destruct (decide (sh' = sh)) as [->|]; repeat case_decide; set_solver.
Qed.
End effects.


Arguments sent {Msg Handler} l : simpl never.
Arguments events_of {Msg Handler _} sh l : simpl never.
Arguments notify {Msg Handler} handlers ctx ev : simpl never.

Create Rewrite HintDb goat_sent.
#[export] Hint Rewrite @sent_app @sent_cons @sent_notify : goat_sent.

(** ** internal/util.go: [StatsStartServerRPC] and [StatsEndRPC] *)
Section stats.
Context {Msg Handler : Type} `{StatsHandler Handler}.

(** The loop over the handlers; [ctx] is re-tagged by each. *)
Fixpoint stats_start_loop (statsHandlers : list Handler) (isClient : bool)
    (beginTime : Z) (method : string) (isClientStream isServerStream : bool)
    (incomingMetadata : MD) (ctx : Ctx) : list (effect Msg Handler) * Ctx :=
  match statsHandlers with
  | [] => ([], ctx)
  | sh :: shs =>
      let ctx := TagRPC sh ctx method in
      let begin := EHandleRPC sh ctx
                     (StatsBegin isClient beginTime isClientStream isServerStream) in
      let hdr := if isClient then []
                 else [EHandleRPC sh ctx
                         (StatsInHeader isClient method (Some incomingMetadata))] in
      let '(l, ctx') := stats_start_loop shs isClient beginTime method
                          isClientStream isServerStream incomingMetadata ctx in
      (begin :: hdr ++ l, ctx')
  end.

Definition StatsStartServerRPC (statsHandlers : list Handler) (isClient : bool)
    (beginTime : Z) (method : string) (isClientStream isServerStream : bool) (ctx : Ctx)
    : list (effect Msg Handler) * Ctx :=
  if decide (length statsHandlers = 0) then ([], ctx)
  else
    let incomingMetadata := default ∅ (ctx_incoming ctx) in
    stats_start_loop statsHandlers isClient beginTime method
      isClientStream isServerStream incomingMetadata ctx.

(** The error reported by an End event: none for nil and for io.EOF. *)
Definition end_error (appErr : option error) : option error :=
  match appErr with
  | Some e => if errors_Is e EOF then None else Some e
  | None => None
  end.

(** [clock i] is the reading of time.Now() in the i-th iteration. *)
Fixpoint stats_end_loop (i : nat) (statsHandlers : list Handler) (isClient : bool)
    (beginTime : Z) (appErr : option error) (ctx : Ctx) (clock : nat → Z) : list (effect Msg Handler) :=
  match statsHandlers with
  | [] => []
  | sh :: shs =>
      EHandleRPC sh ctx (StatsEnd isClient beginTime (clock i) (end_error appErr)) ::
      stats_end_loop (S i) shs isClient beginTime appErr ctx clock
  end.

Definition StatsEndRPC (statsHandlers : list Handler) (isClient : bool) (beginTime : Z)
    (appErr : option error) (ctx : Ctx) (clock : nat → Z) : list (effect Msg Handler) :=
  stats_end_loop 0 statsHandlers isClient beginTime appErr ctx clock.

Lemma stats_start_loop_sent shs c b m cs ss md ctx :
  sent (stats_start_loop shs c b m cs ss md ctx).1 = [].
Proof.
  revert ctx. induction shs as [|sh shs IH]; intros ctx; simpl; [done|].
  specialize (IH (TagRPC sh ctx m)).
  destruct (stats_start_loop _ _ _ _ _ _ _ _) as [l ctx'] eqn:E. simpl in *.
  destruct c; simpl; apply IH.
Qed.

Lemma StatsStartServerRPC_sent shs c b m cs ss ctx :
  sent (StatsStartServerRPC shs c b m cs ss ctx).1 = [].
Proof. unfold StatsStartServerRPC. case_decide; [done|apply stats_start_loop_sent]. Qed.

Lemma StatsEndRPC_sent shs c b e ctx clock : sent (StatsEndRPC shs c b e ctx clock) = [].
Proof.
  unfold StatsEndRPC. generalize 0.
  induction shs as [|sh shs IH]; intros n; simpl; [done|]. apply IH.
Qed.

(** The context after the loop, and the one the i-th handler sees. *)
Definition tag_all (shs : list Handler) (m : string) (ctx : Ctx) : Ctx :=
  foldl (λ ctx sh, TagRPC sh ctx m) ctx shs.

Lemma stats_start_loop_ctx shs c b m cs ss md ctx :
  (stats_start_loop shs c b m cs ss md ctx).2 = tag_all shs m ctx.
Proof.
  revert ctx. induction shs as [|sh shs IH]; intros ctx; simpl; [done|].
  specialize (IH (TagRPC sh ctx m)). by destruct (stats_start_loop _ _ _ _ _ _ _ _).
Qed.

Lemma StatsStartServerRPC_ctx shs c b m cs ss ctx :
  (StatsStartServerRPC shs c b m cs ss ctx).2 = tag_all shs m ctx.
Proof.
  unfold StatsStartServerRPC. case_decide as Hl; [|apply stats_start_loop_ctx].
  by destruct shs.
Qed.

Context `{EqDecision Handler}.

Definition start_events (isClient : bool) b m cs ss (md : MD) : list (stats_event Msg) :=
  StatsBegin isClient b cs ss ::
  if isClient then [] else [StatsInHeader isClient m (Some md)].

Lemma stats_start_loop_events sh shs c b m cs ss md ctx :
  NoDup shs →
  events_of sh (stats_start_loop shs c b m cs ss md ctx).1 =
    if decide (sh ∈ shs) then start_events c b m cs ss md else [].
Proof.
  intros Hnd. revert ctx.
  induction Hnd as [|sh' shs Hn Hnd IH]; intros ctx; [by rewrite decide_False by set_solver|].
  simpl. specialize (IH (TagRPC sh' ctx m)).
  destruct (stats_start_loop _ _ _ _ _ _ _ _) as [l ctx'] eqn:E. simpl in IH.
  unfold start_events in *. simpl. rewrite events_of_cons, events_of_app, IH. simpl.
  destruct c; simpl; destruct (decide (sh' = sh)) as [->|]; simpl;
    rewrite ?events_of_cons; simpl; rewrite ?decide_True, ?decide_False by done;
    repeat case_decide; set_solver.
Qed.

Lemma StatsStartServerRPC_events sh shs c b m cs ss ctx :
  NoDup shs → sh ∈ shs →
  events_of sh (StatsStartServerRPC shs c b m cs ss ctx).1 =
    start_events c b m cs ss (default ∅ (ctx_incoming ctx)).
Proof.
  intros Hnd Hin. unfold StatsStartServerRPC. case_decide as Hl.
  - destruct shs; [set_solver|done].
  - rewrite stats_start_loop_events, decide_True by done. done.
Qed.

Lemma stats_end_loop_events n sh shs c b e ctx clock :
  NoDup shs →
  ∃ t, events_of sh (stats_end_loop n shs c b e ctx clock) =
    if decide (sh ∈ shs) then [StatsEnd c b t (end_error e)] else [].
Proof.
  intros Hnd. revert n. induction Hnd as [|sh' shs Hn Hnd IH]; intros n.
  { exists 0%Z. by rewrite decide_False by set_solver. }
  destruct (IH (S n)) as [t Ht]. cbn [stats_end_loop].
  setoid_rewrite events_of_cons. setoid_rewrite Ht. cbn [event_of].
  destruct (decide (sh' = sh)) as [->|].
  - exists (clock n). rewrite decide_False, decide_True by set_solver. done.
  - exists t. repeat case_decide; set_solver.
Qed.
End stats.

(** ** A concrete codec and stats handlers, to evaluate the model

    Messages are byte strings that are their own encoding, split into one buffer
    per byte; stats handlers are numbered and do not change the context. *)
Module RuntimeModel.
Definition Msg : Type := list byte.
Definition codec : Codec Msg := {|
  Marshal m := Ok ((λ b, [b]) <$> m);
  Materialize bs := concat bs;
  Unmarshal bs := Ok (concat bs) |}.
Lemma RuntimeModel_laws : @CodecLaws Msg codec.
Proof.
  intros m bs [= <-]. simpl. rewrite app_nil_r. f_equal.
  induction m as [|b m IH]; simpl; [done|]. by f_equal.
Qed.
Definition stats : StatsHandler nat := {| TagRPC _ ctx _ := ctx; TagConn _ ctx := ctx |}.
End RuntimeModel.
