(* ===== verification/TransportStream.v ===== *)
(** * internal/server/transport_stream.go

    [unaryServerTransportStream] collects the headers and trailers that a unary
    handler sets; the lock around every method makes each an atomic step.
    [serverTransportStream], its streaming counterpart, only delegates to the
    stream it wraps and is modelled with it in file [ServerStream]. *)

From S2P Require Import Prelude GoString Rpc Errors Metadata RequestContext.

Module USTS.

Record unaryServerTransportStream := mkUSTS {
  us_fullMethod : string;
  us_headers : option MD;      (* nil until the first header is set *)
  us_headersSent : bool;
  us_trailers : option MD }.

Definition NewUnaryServerTransportStream (name : string) : unaryServerTransportStream :=
  mkUSTS name None false None.

(** Each method returns the new state of the stream and its result. *)
Section methods.
Context `{MetadataPkg}.
Implicit Type sts : unaryServerTransportStream.

Definition Method sts : string := us_fullMethod sts.

Definition setHeaderLocked (md : MD) sts : unaryServerTransportStream * option error :=
  if us_headersSent sts then (sts, Some headers_already_sent)
  else
    let headers := default ∅ (us_headers sts) in
    (mkUSTS (us_fullMethod sts) (Some (md_Join [headers; md]))
       (us_headersSent sts) (us_trailers sts), None).

Definition SetHeader (md : MD) sts : unaryServerTransportStream * option error :=
  setHeaderLocked md sts.

Definition SendHeader (md : MD) sts : unaryServerTransportStream * option error :=
  match setHeaderLocked md sts with
  | (sts, Some err) => (sts, Some err)
  | (sts, None) =>
      (mkUSTS (us_fullMethod sts) (us_headers sts) true (us_trailers sts), None)
  end.

Definition GetHeaders sts : option MD := us_headers sts.

Definition SetTrailer (md : MD) sts : unaryServerTransportStream * option error :=
  let trailers := default ∅ (us_trailers sts) in
  (mkUSTS (us_fullMethod sts) (us_headers sts) (us_headersSent sts)
     (Some (md_Join [trailers; md])), None).

Definition GetTrailers sts : option MD := us_trailers sts.
End methods.

End USTS.
Import USTS.

(** ** Specification

    What the stream promises its users: the metadata accepted so far, in call
    order, and whether headers may still be added. *)
Module Spec.
Record state := mkState { headers : list MD; sealed : bool; trailers : list MD }.

Definition init : state := mkState [] false [].

Inductive op := OSetHeader (md : MD) | OSendHeader (md : MD) | OSetTrailer (md : MD).

Definition step (o : op) (s : state) : state * option error :=
  match o with
  | OSetHeader md =>
      if sealed s then (s, Some headers_already_sent)
      else (mkState (headers s ++ [md]) false (trailers s), None)
  | OSendHeader md =>
      if sealed s then (s, Some headers_already_sent)
      else (mkState (headers s ++ [md]) true (trailers s), None)
  | OSetTrailer md => (mkState (headers s) (sealed s) (trailers s ++ [md]), None)
  end.

(** A sequence of calls and the results they return. *)
Fixpoint run (os : list op) (s : state) : state * list (option error) :=
  match os with
  | [] => (s, [])
  | o :: os => let '(s, r) := step o s in
               let '(s, rs) := run os s in (s, r :: rs)
  end.
End Spec.

(** The same calls on the implementation. *)
Section impl.
Context `{MetadataPkg}.

Definition usts_step (o : Spec.op) (sts : unaryServerTransportStream)
    : unaryServerTransportStream * option error :=
  match o with
  | Spec.OSetHeader md => SetHeader md sts
  | Spec.OSendHeader md => SendHeader md sts
  | Spec.OSetTrailer md => SetTrailer md sts
  end.

Fixpoint usts_run (os : list Spec.op) (sts : unaryServerTransportStream)
    : unaryServerTransportStream * list (option error) :=
  match os with
  | [] => (sts, [])
  | o :: os => let '(sts, r) := usts_step o sts in
               let '(sts, rs) := usts_run os sts in (sts, r :: rs)
  end.
End impl.

(** ** Refinement *)
Section refinement.
Context `{MetadataPkg, !MetadataLaws}.

(** [md] holds, for each key, the values of [mds] in order. *)
Definition collects (md : option MD) (mds : list MD) : Prop :=
  ∀ k, md_values (default ∅ md) k = mds ≫= λ m, md_values m k.

Definition absr (sts : unaryServerTransportStream) (s : Spec.state) : Prop :=
  us_headersSent sts = Spec.sealed s ∧
  collects (us_headers sts) (Spec.headers s) ∧
  collects (us_trailers sts) (Spec.trailers s) ∧
  (us_headers sts = None ↔ Spec.headers s = []) ∧
  (us_trailers sts = None ↔ Spec.trailers s = []).

Lemma absr_init name : absr (NewUnaryServerTransportStream name) Spec.init.
Proof.
  split_and!; try done; intros k; unfold md_values; simpl; by rewrite lookup_empty.
Qed.

Lemma collects_join o mds md :
  collects o mds → collects (Some (md_Join [default ∅ o; md])) (mds ++ [md]).
Proof.
  intros Hc k. simpl. rewrite md_Join_values, bind_app, <-(Hc k). simpl.
  by rewrite app_nil_r.
Qed.

Lemma usts_step_refines o sts s :
  absr sts s →
  (usts_step o sts).2 = (Spec.step o s).2 ∧
  absr (usts_step o sts).1 (Spec.step o s).1 ∧
  us_fullMethod (usts_step o sts).1 = us_fullMethod sts.
Proof.
  intros (Hs & Hh & Ht & Hhn & Htn). destruct o as [md|md|md];
    simpl; unfold SetHeader, SendHeader, SetTrailer, setHeaderLocked;
    rewrite <-?Hs; try destruct (us_headersSent sts) eqn:E; simpl;
    split_and!; try done; unfold absr; simpl; rewrite ?E; split_and!;
    try done; try (by apply collects_join); split; try done; intros He;
    exfalso; eapply app_cons_not_nil; eauto.
Qed.

Lemma usts_run_refines os sts s :
  absr sts s →
  (usts_run os sts).2 = (Spec.run os s).2 ∧
  absr (usts_run os sts).1 (Spec.run os s).1 ∧
  us_fullMethod (usts_run os sts).1 = us_fullMethod sts.
Proof.
  revert sts s. induction os as [|o os IH]; intros sts s Ha; [done|].
  pose proof (usts_step_refines o sts s Ha) as (Hr & Ha' & Hm). simpl.
  destruct (usts_step o sts) as [sts' r], (Spec.step o s) as [s' r'].
  pose proof (IH sts' s' Ha') as (Hrs & Ha'' & Hm'). simpl in *.
  destruct (usts_run os sts'), (Spec.run os s'). simpl in *. split_and!; congruence.
Qed.

(** C23: Sequences of handler calls behave as the specification says: every call
    returns what the specification returns, and what [GetHeaders] and
    [GetTrailers] yield afterwards holds exactly the accepted metadata, key by
    key in call order; both are nil while nothing was accepted. *)
Theorem transport_stream_refines_spec name os :
  let impl := usts_run os (NewUnaryServerTransportStream name) in
  let spec := Spec.run os Spec.init in
  impl.2 = spec.2 ∧
  Method impl.1 = name ∧
  collects (GetHeaders impl.1) (Spec.headers spec.1) ∧
  collects (GetTrailers impl.1) (Spec.trailers spec.1) ∧
  (GetHeaders impl.1 = None ↔ Spec.headers spec.1 = []) ∧
  (GetTrailers impl.1 = None ↔ Spec.trailers spec.1 = []).
Proof.
  pose proof (usts_run_refines os _ _ (absr_init name)) as (Hr & (? & ? & ? & ? & ?) & Hm).
  simpl. split_and!; done || by rewrite Hm.
Qed.
End refinement.

(** The class of laws the refinement rests on is inhabited. *)
Lemma transport_stream_refines_spec_witness :
  let impl := @usts_run MetadataModel.Join
                [Spec.OSetHeader {["a" := ["1"]]}; Spec.OSendHeader {["a" := ["2"]]};
                 Spec.OSetHeader {["a" := ["3"]]}] (NewUnaryServerTransportStream "/s/m") in
  impl.2 = [None; None; Some headers_already_sent] ∧
  md_values (default ∅ (GetHeaders impl.1)) "a" = ["1"; "2"].
Proof.
  pose proof (@transport_stream_refines_spec MetadataModel.Join MetadataModel.MetadataModel_laws "/s/m"
    [Spec.OSetHeader {["a" := ["1"]]}; Spec.OSendHeader {["a" := ["2"]]};
     Spec.OSetHeader {["a" := ["3"]]}]) as (Hr & _ & Hh & _).
  simpl. split; [exact Hr|exact (Hh "a")].
Defined.
