(* ===== verification/ServerStream.v ===== *)
(** * internal/server/stream.go: the server side of a streaming RPC

    Every method of [serverStream] that touches the protected fields holds the
    stream's lock from start to end, so each is one atomic step: a program of
    the monad [M] over the stream's state, logging the attempted writes and the
    stats callbacks.  [ord] is the order in which the call ranges over metadata
    maps, [werr] the error (if any) with which the transport's Write returns,
    [rd] what the transport's Read returns. *)

From S2P Require Import Prelude GoString Rpc Errors Metadata RequestContext Runtime.

Record serverStream (Handler : Type) := mkServerStream {
  ss_ctx : Ctx;
  ss_id : Z;
  ss_method : string;
  ss_src : string;
  ss_dst : string;
  ss_statsHandlers : list Handler;
  ss_headers : list MD;
  ss_headersSent : bool;
  ss_trailers : list MD;
  ss_trailersSent : bool }.
Arguments mkServerStream {Handler}.
Arguments ss_ctx {Handler}.
Arguments ss_id {Handler}.
Arguments ss_method {Handler}.
Arguments ss_src {Handler}.
Arguments ss_dst {Handler}.
Arguments ss_statsHandlers {Handler}.
Arguments ss_headers {Handler}.
Arguments ss_headersSent {Handler}.
Arguments ss_trailers {Handler}.
Arguments ss_trailersSent {Handler}.

Section ops.
Context {Msg Handler : Type}.
Context `{Unicode, MetadataPkg, StatusPkg, Codec Msg}.
Implicit Type ss : serverStream Handler.

Definition NewServerStream (ctx : Ctx) (id : Z) (method src dst : string)
    (statsHandlers : list Handler) : serverStream Handler :=
  mkServerStream ctx id method src dst statsHandlers [] false [] false.

Definition set_headers (l : list MD) ss :=
  mkServerStream (ss_ctx ss) (ss_id ss) (ss_method ss) (ss_src ss) (ss_dst ss)
    (ss_statsHandlers ss) l (ss_headersSent ss) (ss_trailers ss) (ss_trailersSent ss).
Definition set_headersSent (b : bool) ss :=
  mkServerStream (ss_ctx ss) (ss_id ss) (ss_method ss) (ss_src ss) (ss_dst ss)
    (ss_statsHandlers ss) (ss_headers ss) b (ss_trailers ss) (ss_trailersSent ss).
Definition set_trailers (l : list MD) ss :=
  mkServerStream (ss_ctx ss) (ss_id ss) (ss_method ss) (ss_src ss) (ss_dst ss)
    (ss_statsHandlers ss) (ss_headers ss) (ss_headersSent ss) l (ss_trailersSent ss).
Definition set_trailersSent (b : bool) ss :=
  mkServerStream (ss_ctx ss) (ss_id ss) (ss_method ss) (ss_src ss) (ss_dst ss)
    (ss_statsHandlers ss) (ss_headers ss) (ss_headersSent ss) (ss_trailers ss) b.

Definition SetContext (ctx : Ctx) ss : serverStream Handler :=
  mkServerStream ctx (ss_id ss) (ss_method ss) (ss_src ss) (ss_dst ss)
    (ss_statsHandlers ss) (ss_headers ss) (ss_headersSent ss) (ss_trailers ss)
    (ss_trailersSent ss).

Definition Context_ ss : Ctx := ss_ctx ss.

Abbreviation SM := (M (serverStream Handler) (effect Msg Handler)).

(** [for _, sh := range ss.statsHandlers { sh.HandleRPC(ss.ctx, ev) }] *)
Definition handle_rpc (ev : stats_event Msg) : SM () :=
  ss ← get; emit (notify (ss_statsHandlers ss) (ss_ctx ss) ev).

(** [ss.rw.Write(ss.ctx, &rpc)] *)
Definition write (rpc : Rpc) (werr : option error) : SM (option error) :=
  _ ← emit [EWrite rpc werr]; mret werr.

(** The header every message of the stream starts from. *)
Definition stream_header ss (headers : list KeyValue) : RequestHeader :=
  header_lit (ss_method ss) headers (ss_src ss) (ss_dst ss).

Definition setHeader (ord : map_range) (werr : option error) (md : MD) (send : bool)
    : SM (option error) :=
  ss ← get;
  if ss_headersSent ss then mret (Some headers_already_sent)
  else
    _ ← modify (set_headers (ss_headers ss ++ [md]));
    if negb send then mret None
    else
      ss ← get;
      _ ← handle_rpc (StatsOutHeader false (ss_method ss) (Some (md_Join (ss_headers ss))));
      err ← write (mkRpc (ss_id ss)
                     (Some (stream_header ss (ToKeyValue ord (ss_headers ss))))
                     None None None None) werr;
      match err with
      | Some err => mret (Some err)
      | None => _ ← modify (set_headersSent true); mret None
      end.

Definition SetHeader (md : MD) : SM (option error) := setHeader map_to_list None md false.
Definition SendHeader (ord : map_range) (werr : option error) (md : MD) : SM (option error) :=
  setHeader ord werr md true.

Definition SetTrailer (md : MD) : SM () :=
  ss ← get;
  if ss_trailersSent ss then mret tt
  else modify (set_trailers (ss_trailers ss ++ [md])).

(** The headers not sent yet, which go with the next message; they are then
    marked as sent. *)
Definition take_headers (ord : map_range) : SM (list KeyValue) :=
  ss ← get;
  if ss_headersSent ss then mret []
  else _ ← modify (set_headersSent true); mret (ToKeyValue ord (ss_headers ss)).

Definition SendMsg (ord : map_range) (werr : option error) (m : Msg) : SM (option error) :=
  match Marshal m with
  | Err err => mret (Some err)
  | Ok body =>
      ss ← get;
      headers ← take_headers ord;
      _ ← (if ss_headersSent ss then mret tt
           else handle_rpc (StatsOutHeader false (ss_method ss)
                              (Some (md_Join (ss_headers ss)))));
      _ ← handle_rpc (StatsOutPayload false (Some m) (length body));
      err ← write (mkRpc (ss_id ss) (Some (stream_header ss headers)) None
                     (Some (mkBody (Some (Materialize body)))) None None) werr;
      mret err
  end.

(** The message the call filled in, and its error. *)
Definition RecvMsg (rd : result Rpc) : SM (option Msg * option error) :=
  match rd with
  | Err err => mret (None, Some (Wrap err "RecvMsg Read"))
  | Ok rpc =>
      match GetTrailer (Some rpc) with
      | Some _ =>
          let st := GetStatus (Some rpc) in
          if decide (GetCode st = codes_OK) then mret (None, Some EOF)
          else
            let err := status_Err (mkStatus (GetCode st) (GetMessage st) (GetDetails st)) in
            mret (None, (λ e, Wrap e "RecvMsg") <$> err)
      | None =>
          let data := default [] (GetData (GetBody (Some rpc))) in
          match Unmarshal [data] with
          | Err err => mret (None, Some err)
          | Ok m =>
              _ ← handle_rpc (StatsInPayload false (Some m) (length data));
              mret (Some m, None)
          end
      end
  end.

(** The status sent for the error of an application handler: an error never
    becomes an OK status. *)
Definition trailer_status (trErr : option error) : ResponseStatus :=
  match trErr with
  | None => mkResponseStatus codes_OK codes_OK_String []
  | Some e =>
      let st := (status_FromError e).1 in
      let st := if decide (s_Code st = codes_OK)
                then mkStatus codes_Internal (s_Message st) (s_Details st) else st in
      mkResponseStatus (s_Code st) (s_Message st) (s_Details st)
  end.

Definition closed_for_writing : error :=
  Errorf "stream closed for writing (wrote trailers)".

Definition SendTrailer (ord : map_range) (werr : option error) (trErr : option error)
    : SM (option error) :=
  ss ← get;
  if ss_trailersSent ss then mret (Some closed_for_writing)
  else
    _ ← modify (set_trailersSent true);
    headers ← take_headers ord;
    _ ← handle_rpc (StatsOutTrailer false (Some (md_Join (ss_trailers ss))));
    write (mkRpc (ss_id ss) (Some (stream_header ss headers)) (Some (trailer_status trErr))
             None (Some (mkTrailer (Some (ToKeyValue ord (ss_trailers ss))))) None) werr.
End ops.

(** ** serverTransportStream of transport_stream.go: delegation *)
Record serverTransportStream (Handler : Type) := mkSTS {
  sts_fullMethod : string;
  sts_stream : serverStream Handler }.
Arguments mkSTS {Handler}.
Arguments sts_fullMethod {Handler}.
Arguments sts_stream {Handler}.

Section sts.
Context {Msg Handler : Type}.
Context `{Unicode, MetadataPkg, StatusPkg, Codec Msg}.
Abbreviation TM := (M (serverTransportStream Handler) (effect Msg Handler)).

Definition NewServerTransportStream (fullMethod : string) (stream : serverStream Handler) :=
  mkSTS fullMethod stream.
Definition sts_Method (sts : serverTransportStream Handler) : string := sts_fullMethod sts.

(** A method of the wrapped stream. *)
Definition delegate {A} (m : M (serverStream Handler) (effect Msg Handler) A) : TM A :=
  λ sts, match m (sts_stream sts) with
         | (ss, l, r) => (mkSTS (sts_fullMethod sts) ss, l, r)
         end.
Definition sts_SetHeader (md : MD) : TM (option error) := delegate (SetHeader md).
Definition sts_SendHeader ord werr (md : MD) : TM (option error) :=
  delegate (SendHeader ord werr md).
Definition sts_SetTrailer (md : MD) : TM (option error) :=
  _ ← delegate (SetTrailer md); mret None.
End sts.

(** ** What each operation does *)
Section results.
Context {Msg Handler : Type}.
Context `{Unicode, MetadataPkg, StatusPkg, Codec Msg}.
Implicit Type ss : serverStream Handler.

(** The headers the next message will carry. *)
Definition pending (ord : map_range) ss : list KeyValue :=
  if ss_headersSent ss then [] else ToKeyValue ord (ss_headers ss).

Definition ok_list (werr : option error) (rpc : Rpc) : list Rpc :=
  match werr with None => [rpc] | Some _ => [] end.

Lemma set_headersSent_id ss : ss_headersSent ss = true → set_headersSent true ss = ss.
Proof. destruct ss; simpl. by intros ->. Qed.

Lemma run_SendMsg ord werr m body ss :
  Marshal m = Ok body →
  let r := SendMsg (Handler:=Handler) ord werr m ss in
  st_of r = set_headersSent true ss ∧
  sent (log_of r) = ok_list werr
    (mkRpc (ss_id ss) (Some (stream_header ss (pending ord ss))) None
       (Some (mkBody (Some (Materialize body)))) None None) ∧
  res_of r = Ret werr.
Proof.
  intros Hm. unfold SendMsg. rewrite Hm. destruct ss as [ctx id me src dst shs hs sent_ ts tsent].
  unfold take_headers, handle_rpc, write, pending. destruct sent_; simpl; split_and!; try done;
    unfold log_of; simpl; autorewrite with goat_sent; by destruct werr.
Qed.

Lemma run_SendMsg_err ord werr m e ss :
  Marshal m = Err e → SendMsg (Handler:=Handler) ord werr m ss = (ss, [], Ret (Some e)).
Proof. intros Hm. unfold SendMsg. by rewrite Hm. Qed.

Lemma run_SendTrailer ord werr e ss :
  let r := SendTrailer (Msg:=Msg) ord werr e ss in
  (ss_trailersSent ss = true → r = (ss, [], Ret (Some closed_for_writing))) ∧
  (ss_trailersSent ss = false →
     st_of r = set_headersSent true (set_trailersSent true ss) ∧
     sent (log_of r) = ok_list werr
       (mkRpc (ss_id ss) (Some (stream_header ss (pending ord ss))) (Some (trailer_status e))
          None (Some (mkTrailer (Some (ToKeyValue ord (ss_trailers ss))))) None) ∧
     res_of r = Ret werr).
Proof.
  destruct ss as [ctx id me src dst shs hs hsent ts tsent]. unfold SendTrailer; simpl.
  split; intros ->; [done|]. unfold take_headers, handle_rpc, write, pending.
  destruct hsent; simpl; split_and!; try done;
    unfold log_of; simpl; autorewrite with goat_sent; by destruct werr.
Qed.

Lemma run_SetHeader md ss :
  SetHeader (Msg:=Msg) md ss =
    if ss_headersSent ss then (ss, [], Ret (Some headers_already_sent))
    else (set_headers (ss_headers ss ++ [md]) ss, [], Ret None).
Proof. unfold SetHeader, setHeader; simpl. by destruct ss as [????????? ?], ss_headersSent0. Qed.

Lemma run_SendHeader ord werr md ss :
  let r := SendHeader (Msg:=Msg) ord werr md ss in
  (ss_headersSent ss = true → r = (ss, [], Ret (Some headers_already_sent))) ∧
  (ss_headersSent ss = false →
     let ss' := set_headers (ss_headers ss ++ [md]) ss in
     st_of r = match werr with Some _ => ss' | None => set_headersSent true ss' end ∧
     sent (log_of r) = ok_list werr
       (mkRpc (ss_id ss) (Some (stream_header ss (ToKeyValue ord (ss_headers ss ++ [md]))))
          None None None None) ∧
     res_of r = Ret werr).
Proof.
  destruct ss as [ctx id me src dst shs hs hsent ts tsent].
  unfold SendHeader, setHeader; simpl.
  split; intros ->; [done|]. unfold handle_rpc, write.
  destruct werr; simpl; split_and!; try done;
    unfold log_of; simpl; autorewrite with goat_sent; done.
Qed.

Lemma run_SetTrailer md ss :
  SetTrailer (Msg:=Msg) md ss =
    (if ss_trailersSent ss then ss else set_trailers (ss_trailers ss ++ [md]) ss, [], Ret tt).
Proof. unfold SetTrailer; simpl. by destruct ss as [????????? []]. Qed.

Lemma run_RecvMsg rd ss :
  let r := RecvMsg (Msg:=Msg) rd ss in st_of r = ss ∧ sent (log_of r) = [].
Proof.
  unfold RecvMsg, handle_rpc. destruct rd as [rpc|e]; [|done].
  destruct (GetTrailer (Some rpc)); [by case_decide|].
  destruct (Unmarshal _); [|done]. simpl. unfold log_of, st_of. simpl.
  by autorewrite with goat_sent.
Qed.
End results.

(** ** Sequences of operations on one stream *)
Section sequences.
Context {Msg Handler : Type}.
Context `{Unicode, MetadataPkg, StatusPkg, Codec Msg}.
Implicit Type ss : serverStream Handler.

Inductive ss_op : Type :=
  | OSetHeader (md : MD)
  | OSendHeader (ord : map_range) (werr : option error) (md : MD)
  | OSetTrailer (md : MD)
  | OSendMsg (ord : map_range) (werr : option error) (m : Msg)
  | ORecvMsg (rd : result Rpc)
  | OSendTrailer (ord : map_range) (werr : option error) (trErr : option error).

Definition ss_exec (o : ss_op) : M (serverStream Handler) (effect Msg Handler) () :=
  match o with
  | OSetHeader md => _ ← SetHeader md; mret tt
  | OSendHeader ord werr md => _ ← SendHeader ord werr md; mret tt
  | OSetTrailer md => SetTrailer md
  | OSendMsg ord werr m => _ ← SendMsg ord werr m; mret tt
  | ORecvMsg rd => _ ← RecvMsg rd; mret tt
  | OSendTrailer ord werr e => _ ← SendTrailer ord werr e; mret tt
  end.

Fixpoint ss_run (os : list ss_op) : M (serverStream Handler) (effect Msg Handler) () :=
  match os with
  | [] => mret tt
  | o :: os => _ ← ss_exec o; ss_run os
  end.

(** State and successful writes of one operation, results forgotten. *)
Definition ss_step (o : ss_op) ss : serverStream Handler * list Rpc :=
  (st_of (ss_exec o ss), sent (log_of (ss_exec o ss))).

Lemma forget_st {S E A} (m : M S E A) s :
  st_of (mbind (λ _, mret tt) m s) = st_of (m s) ∧
  log_of (mbind (λ _, mret tt) m s) = log_of (m s).
Proof.
  unfold mbind, M_bind, st_of, log_of. destruct (m s) as [[s' l] []]; simpl; [|done].
  by rewrite app_nil_r.
Qed.

Definition no_headers (r : Rpc) : Prop := GetHeaders (rpc_Header r) = [].
Definition has_trailer (r : Rpc) : Prop := is_Some (rpc_Trailer r).

#[export] Instance has_trailer_dec r : Decision (has_trailer r).
Proof. unfold has_trailer. apply _. Defined.

(** What every message of a stream repeats: id, method and addresses. *)
Definition stream_key ss : Z * string * string * string :=
  (ss_id ss, ss_method ss, ss_src ss, ss_dst ss).
Definition rpc_key (r : Rpc) : Z * string * string * string :=
  (rpc_Id r, GetMethod (rpc_Header r), GetSource (rpc_Header r),
   GetDestination (rpc_Header r)).

(** [ws] is what a stream in state [ss] may have written so far. *)
Definition wire_inv key ss (ws : list Rpc) : Prop :=
  stream_key ss = key ∧
  (ss_headersSent ss = false → ws = []) ∧
  Forall no_headers (tail ws) ∧
  (ss_trailersSent ss = false → Forall (λ r, rpc_Trailer r = None) ws) ∧
  length (filter has_trailer ws) ≤ 1 ∧
  Forall (λ r, rpc_key r = key) ws.
End sequences.

Section wire.
Context {Msg Handler : Type}.
Context `{Unicode, MetadataPkg, StatusPkg, Codec Msg}.
Implicit Type ss : serverStream Handler.

(** Nothing written: only the flags may move forward. *)
Lemma wire_inv_quiet key ss ss' ws :
  wire_inv key ss ws → stream_key ss' = stream_key ss →
  (ss_headersSent ss' = false → ss_headersSent ss = false) →
  (ss_trailersSent ss' = false → ss_trailersSent ss = false) →
  wire_inv key ss' ws.
Proof. intros (Hk & Hh & Ht & Htr & Hl & Hs) Hk' Hh' Ht'. split_and!; auto; congruence. Qed.

(** One message written: it may hold headers only while none were sent, and a
    trailer only while none was. *)
Lemma wire_inv_write key ss ss' ws rpc :
  wire_inv key ss ws → rpc_key rpc = stream_key ss → stream_key ss' = stream_key ss →
  ss_headersSent ss' = true →
  (ss_headersSent ss = true → no_headers rpc) →
  (rpc_Trailer rpc ≠ None → ss_trailersSent ss = false ∧ ss_trailersSent ss' = true) →
  (ss_trailersSent ss' = false → ss_trailersSent ss = false) →
  wire_inv key ss' (ws ++ [rpc]).
Proof.
  intros (Hk & Hh & Ht & Htr & Hl & Hs) Hr Hk' Hh' Hno Htrail Hmono. split_and!.
  - congruence.
  - congruence.
  - destruct (ss_headersSent ss) eqn:E.
    + destruct (decide (ws = [])) as [->|Hne]; [by constructor|].
      rewrite tail_app_ne by done. apply Forall_app. auto.
    + rewrite Hh by done. constructor.
  - intros Hts. apply Forall_app. split; [auto|]. apply Forall_singleton.
    destruct (rpc_Trailer rpc); [|done]. destruct Htrail as [_ ?]; congruence.
  - rewrite filter_app, length_app, filter_cons, filter_nil.
    destruct (decide (has_trailer rpc)) as [[t Hx]|]; [|simpl; lia].
    destruct Htrail as [Hf _]; [congruence|].
    rewrite filter_all_not; [done|]. eapply Forall_impl; [by apply Htr|].
    intros r Hn [t' Ht']. congruence.
  - apply Forall_app. split; [done|]. apply Forall_singleton. congruence.
Qed.

Lemma stream_header_no ss l : l = [] → GetHeaders (Some (stream_header ss l)) = [].
Proof. by intros ->. Qed.

Lemma pending_sent ord ss : ss_headersSent ss = true → pending ord ss = [].
Proof. unfold pending. by intros ->. Qed.

(** One operation preserves the invariant. *)
Lemma wire_inv_step key o ss ws :
  wire_inv key ss ws → wire_inv key (st_of (ss_exec o ss)) (ws ++ sent (log_of (ss_exec o ss))).
Proof.
  intros Hinv. destruct o as [md|ord werr md|md|ord werr m|rd|ord werr e];
    unfold ss_exec;
    try match goal with |- context [mbind _ ?m ss] =>
      rewrite (proj1 (forget_st m ss)), (proj2 (forget_st m ss)) end.
  - rewrite run_SetHeader. destruct (ss_headersSent ss) eqn:E;
      unfold st_of, log_of; simpl; rewrite app_nil_r; [done|].
    by eapply wire_inv_quiet.
  - destruct (run_SendHeader (Msg:=Msg) ord werr md ss) as [Hs Hn].
    destruct (ss_headersSent ss) eqn:E.
    + rewrite Hs by done. unfold st_of, log_of; simpl. by rewrite app_nil_r.
    + destruct (Hn eq_refl) as (-> & -> & _).
      destruct werr; simpl; rewrite ?app_nil_r.
      * by eapply wire_inv_quiet.
      * eapply wire_inv_write; simpl; try done; by rewrite E.
  - rewrite run_SetTrailer. unfold st_of, log_of; simpl. rewrite app_nil_r.
    destruct (ss_trailersSent ss) eqn:E; [done|]. by eapply wire_inv_quiet.
  - destruct (Marshal m) as [body|e] eqn:Em.
    + destruct (run_SendMsg (Handler:=Handler) ord werr m body ss Em) as (-> & -> & _).
      destruct werr; simpl; rewrite ?app_nil_r.
      * by eapply wire_inv_quiet.
      * eapply wire_inv_write; simpl; try done.
        intros E. by apply stream_header_no, pending_sent.
    + rewrite (run_SendMsg_err _ _ _ e) by done. unfold st_of, log_of; simpl.
      by rewrite app_nil_r.
  - destruct (run_RecvMsg (Msg:=Msg) rd ss) as [-> ->]. by rewrite app_nil_r.
  - destruct (run_SendTrailer (Msg:=Msg) ord werr e ss) as [Hs Hn].
    destruct (ss_trailersSent ss) eqn:E.
    + rewrite Hs by done. unfold st_of, log_of; simpl. by rewrite app_nil_r.
    + destruct (Hn eq_refl) as (-> & -> & _).
      destruct werr; simpl; rewrite ?app_nil_r.
      * by eapply wire_inv_quiet.
      * eapply wire_inv_write; simpl; try done.
        intros E'. by apply stream_header_no, pending_sent.
Qed.

(** No operation panics. *)
Lemma ss_exec_ret o ss : res_of (ss_exec o ss) = Ret tt.
Proof.
  destruct ss as [ctx id me src dst shs hs hsent ts tsent], o as [md|ord werr md|md|ord werr m|rd|ord werr e];
    unfold ss_exec, SetHeader, SendHeader, setHeader, SetTrailer, SendMsg, RecvMsg,
      SendTrailer, take_headers, handle_rpc, write.
  - by destruct hsent.
  - by destruct hsent, werr.
  - by destruct tsent.
  - by destruct (Marshal m), hsent, werr.
  - destruct rd as [rpc|]; [|done]. destruct (GetTrailer (Some rpc)); [by case_decide|].
    by destruct (Unmarshal _).
  - by destruct tsent, hsent, werr.
Qed.

Lemma wire_inv_run key os ss ws :
  wire_inv key ss ws → wire_inv key (st_of (ss_run os ss)) (ws ++ sent (log_of (ss_run os ss))).
Proof.
  revert ss ws. induction os as [|o os IH]; intros ss ws Hinv.
  { unfold st_of, log_of; simpl. by rewrite app_nil_r. }
  pose proof (wire_inv_step key o ss ws Hinv) as Hstep. pose proof (ss_exec_ret o ss) as Hret.
  cbn [ss_run]. unfold mbind, M_bind.
  destruct (ss_exec o ss) as [[ss1 l1] r1]. unfold st_of, log_of, res_of in *. simpl in *.
  subst r1. specialize (IH ss1 _ Hstep). destruct (ss_run os ss1) as [[ss2 l2] r2].
  simpl in *. by rewrite sent_app, app_assoc.
Qed.

(** C24: Whatever an application does with a server stream, in whatever order and
    with whatever transport failures, what reaches the wire is well-formed:
    every message carries the stream's id, method and addresses, only the
    first message can carry response headers, and at most one carries a
    trailer. *)
Theorem serverStream_wire_format ctx id method src dst shs os :
  let ws := sent (log_of (ss_run os (NewServerStream (Handler:=Handler) ctx id method src dst shs))) in
  Forall (λ r, rpc_Id r = id ∧ GetMethod (rpc_Header r) = method ∧
               GetSource (rpc_Header r) = src ∧ GetDestination (rpc_Header r) = dst) ws ∧
  Forall no_headers (tail ws) ∧
  length (filter has_trailer ws) ≤ 1.
Proof.
  intros ws. set (ss := NewServerStream (Handler:=Handler) ctx id method src dst shs).
  assert (wire_inv (id, method, src, dst) ss []) as Hinit.
  { split_and!; simpl; first [done | lia | constructor]. }
  pose proof (wire_inv_run _ os ss [] Hinit) as (_ & _ & Hh & _ & Hl & Hs).
  split_and!; [|done..]. eapply Forall_impl; [exact Hs|]. intros r [= <- <- <- <-]. done.
Qed.
End wire.
