(* ===== verification/Chan.v ===== *)
(** * Go channels and channel.go

    A channel is a bounded queue and a closed flag.  Sending on a closed channel
    and closing a closed channel panic; receiving from a closed, empty channel
    yields the zero value with ok = false.  An operation that would block has
    no result ([None]); it is retried by a later step.  Rendezvous on an
    unbuffered channel (capacity 0) is a joint step of sender and receiver and
    is written out where such channels are used. *)

From S2P Require Import Prelude Rpc Errors.

Record chan (A : Type) := mkChan { ch_cap : nat; ch_buf : list A; ch_closed : bool }.
Arguments mkChan {A}.
Arguments ch_cap {A}.
Arguments ch_buf {A}.
Arguments ch_closed {A}.

Section chan.
Context {A : Type}.

Definition make_chan (cap : nat) : chan A := mkChan cap [] false.

Definition chan_send (v : A) (ch : chan A) : option (outcome (chan A)) :=
  if ch_closed ch then Some (Panic "send on closed channel")
  else if decide (length (ch_buf ch) < ch_cap ch)
       then Some (Ret (mkChan (ch_cap ch) (ch_buf ch ++ [v]) false))
       else None.

(** The received value, or [None] for closed and drained. *)
Definition chan_recv (ch : chan A) : option (option A * chan A) :=
  match ch_buf ch with
  | v :: l => Some (Some v, mkChan (ch_cap ch) l (ch_closed ch))
  | [] => if ch_closed ch then Some (None, ch) else None
  end.

Definition chan_close (ch : chan A) : outcome (chan A) :=
  if ch_closed ch then Panic "close of closed channel"
  else Ret (mkChan (ch_cap ch) (ch_buf ch) true).

(** A non-blocking send: [select { case ch <- v: default: }]. *)
Definition chan_try_send (v : A) (ch : chan A) : outcome (chan A) * bool :=
  match chan_send v ch with
  | Some r => (r, true)
  | None => (Ret ch, false)
  end.

Definition chan_ok (ch : chan A) : Prop := length (ch_buf ch) ≤ ch_cap ch.

Lemma chan_send_ok v ch ch' :
  chan_send v ch = Some (Ret ch') →
  ch_closed ch = false ∧ ch_buf ch' = ch_buf ch ++ [v] ∧ ch_cap ch' = ch_cap ch ∧
  ch_closed ch' = false ∧ chan_ok ch'.
Proof.
  unfold chan_send, chan_ok. destruct (ch_closed ch); [done|].
  case_decide; [|done]. intros [= <-]. simpl. rewrite length_app. simpl. split_and!; try done; lia.
Qed.

Lemma chan_recv_Some ch v ch' :
  chan_recv ch = Some (Some v, ch') →
  ch_buf ch = v :: ch_buf ch' ∧ ch_cap ch' = ch_cap ch ∧ ch_closed ch' = ch_closed ch.
Proof.
  unfold chan_recv. destruct ch as [cap [|w l] cl]; simpl; [by destruct cl|].
  by intros [= -> <-].
Qed.
End chan.

(** ** [NewGoatOverChannel]

    A transport made of an input and an output channel.  [done] is the error of
    the context when it is cancelled; the [select] picks any ready branch, so
    the possible results are those of [chan_read] and [chan_write] with either
    branch chosen. *)
Section transport.
Definition read_channel_closed : error := Errorf "read channel closed".

(** [prefer_done]: which branch the select takes when both are ready. *)
Definition chan_Read (done : option error) (prefer_done : bool) (inQ : chan Rpc)
    : option (result Rpc * chan Rpc) :=
  match done, prefer_done, chan_recv inQ with
  | Some e, true, _ => Some (Err e, inQ)
  | _, _, Some (Some rpc, inQ') => Some (Ok rpc, inQ')
  | _, _, Some (None, inQ') => Some (Err read_channel_closed, inQ')
  | Some e, false, None => Some (Err e, inQ)
  | None, _, None => None
  end.

Definition chan_Write (done : option error) (prefer_done : bool) (rpc : Rpc) (outQ : chan Rpc)
    : option (outcome (option error * chan Rpc)) :=
  match done, prefer_done, chan_send rpc outQ with
  | Some e, true, _ => Some (Ret (Some e, outQ))
  | _, _, Some (Ret outQ') => Some (Ret (None, outQ'))
  | _, _, Some (Panic m) => Some (Panic m)
  | Some e, false, None => Some (Ret (Some e, outQ))
  | None, _, None => None
  end.
End transport.
