(* ===== verification/Multiplexer.v ===== *)
(** * internal/client/multiplexer.go: one connection, many calls

    [RpcMultiplexer] gives every call an id and a one-place response channel;
    its read loop hands each incoming Rpc to the channel registered for its id.
    The component is a step relation: the read loop, any number of callers
    (unary calls and streams) and the transport interleave freely.  A critical
    section of [rm.mutex] that cannot block inside is one step, enabled while the
    mutex is free; the read loop's [ch <- rpc] inside [handleResponse] can block,
    so it is split, and the mutex counts as held in between.  A Go panic ends the
    program: the system state is an [outcome].

    A unary call is followed to the end of its wait and its deferred
    unregisterHandler.  What CallUnaryMethod makes of the response in between (the
    stats events, which panic for a response without a header, and the result) is
    [ClientConn.CallUnaryMethod]. *)

From S2P Require Import Prelude GoString Rpc Errors Chan.

(** ** State *)

(** Where the read loop goroutine is. *)
Inductive reader :=
  | RRead                          (* in rw.Read *)
  | RHandle (rpc : Rpc)            (* calling handleResponse, wants the mutex *)
  | RSend (rpc : Rpc) (c : nat)    (* in [ch <- rpc], holding the mutex *)
  | RFail (err : error)            (* readLoop returned: about to closeError *)
  | RStopped.

#[export] Instance reader_eq_dec : EqDecision reader.
Proof. solve_decision. Defined.

Inductive kind := Unary | Stream.

(** How the wait of a unary call ended. *)
Inductive reason :=
  | WriteFailed (err : error)      (* rw.Write returned an error *)
  | GotRpc (rpc : Rpc)             (* resp, ok := <-respChan *)
  | ChanClosed                     (* ... with !ok *)
  | CtxDone (err : error).         (* <-ctx.Done() *)

(** Where a caller is in CallUnaryMethod, or a stream in its life: [reading]
    says whether its owner still calls Read, [pend] counts the calls of the
    teardown function that have not got the mutex yet. *)
Inductive pc :=
  | PCheck                                       (* at readErrorIfDone *)
  | PNewId                                       (* at AddUint64 *)
  | PRegister (id : Z) (c : nat)                 (* at registerHandler *)
  | PWrite (id : Z) (c : nat)                    (* unary: in rw.Write *)
  | PWait (id : Z) (c : nat)                     (* unary: in the select *)
  | PUnregister (id : Z) (c : nat) (r : reason)  (* unary: at unregisterHandler *)
  | PDone (id : Z) (r : reason)                  (* unary: returned *)
  | PStream (id : Z) (c : nat) (reading : bool) (pend : nat)
  | PFailed (err : error).                       (* readErrorIfDone returned err *)

Record mux := mkMux {
  m_handlers : gmap Z nat;           (* id -> response channel *)
  m_chans : gmap nat (chan Rpc);     (* every channel made so far *)
  m_cancelled : bool;                (* rm.ctx *)
  m_streamCounter : Z;               (* uint64 *)
  m_rErr : option error;
  m_reader : reader;
  m_callers : gmap nat (kind * pc) }.

Definition NewRpcMultiplexer : mux := mkMux ∅ ∅ false 0 None RRead ∅.

(** The mutex is free unless the read loop is inside its send. *)
Definition mutex_free (s : mux) : Prop :=
  match m_reader s with RSend _ _ => False | _ => True end.
#[export] Instance mutex_free_dec s : Decision (mutex_free s).
Proof. unfold mutex_free. destruct (m_reader s); apply _. Defined.

Lemma mutex_free_send s rpc c : mutex_free s → m_reader s ≠ RSend rpc c.
Proof. unfold mutex_free. by destruct (m_reader s). Qed.

Definition set_reader (r : reader) (s : mux) : mux :=
  mkMux (m_handlers s) (m_chans s) (m_cancelled s) (m_streamCounter s) (m_rErr s) r (m_callers s).
Definition set_caller (t : nat) (k : kind) (p : pc) (s : mux) : mux :=
  mkMux (m_handlers s) (m_chans s) (m_cancelled s) (m_streamCounter s) (m_rErr s) (m_reader s)
    (<[t := (k, p)]> (m_callers s)).
Definition set_chans (cs : gmap nat (chan Rpc)) (s : mux) : mux :=
  mkMux (m_handlers s) cs (m_cancelled s) (m_streamCounter s) (m_rErr s) (m_reader s) (m_callers s).
Definition set_handlers (hs : gmap Z nat) (s : mux) : mux :=
  mkMux hs (m_chans s) (m_cancelled s) (m_streamCounter s) (m_rErr s) (m_reader s) (m_callers s).

(** ** Critical sections *)

Definition readErrorIfDone (s : mux) : option error := m_rErr s.

Definition registerHandler (id : Z) (c : nat) (s : mux) : mux :=
  set_handlers (<[id := c]> (m_handlers s)) s.

(** close(ch) of a channel in the heap. *)
Definition close_in (c : nat) (cs : gmap nat (chan Rpc)) : outcome (gmap nat (chan Rpc)) :=
  match cs !! c with
  | Some ch => ch' ← chan_close ch; Ret (<[c := ch']> cs)
  | None => Panic "close of nil channel"
  end.

Definition unregisterHandler (id : Z) (s : mux) : outcome mux :=
  match m_handlers s !! id with
  | Some c => cs ← close_in c (m_chans s);
              Ret (set_handlers (delete id (m_handlers s)) (set_chans cs s))
  | None => Ret (set_handlers (delete id (m_handlers s)) s)
  end.

Fixpoint close_all (l : list nat) (cs : gmap nat (chan Rpc)) : outcome (gmap nat (chan Rpc)) :=
  match l with
  | [] => Ret cs
  | c :: l => cs ← close_in c cs; close_all l cs
  end.

(** [ord]: the order in which the loop ranges over the handlers. *)
Definition closeError (ord : list (Z * nat)) (err : option error) (s : mux) : outcome mux :=
  let s := mkMux (m_handlers s) (m_chans s) true (m_streamCounter s) (m_rErr s)
             (m_reader s) (m_callers s) in
  match err with
  | Some e =>
      cs ← close_all (ord.*2) (m_chans s);
      Ret (mkMux ∅ cs true (m_streamCounter s) (Some e) (m_reader s) (m_callers s))
  | None => Ret s
  end.

Definition Close (s : mux) : outcome mux := closeError [] None s.

(** handleResponse up to its send: the channel registered for the Rpc's id. *)
Definition handleResponse (rpc : Rpc) (s : mux) : mux :=
  match m_handlers s !! rpc_Id rpc with
  | Some c => set_reader (RSend rpc c) s
  | None => set_reader RRead s     (* "unhandled Rpc": dropped *)
  end.

(** [atomic.AddUint64(&rm.streamCounter, 1)] and [make(chan *Rpc, 1)]: a new id
    and a new channel, at a heap address that was never used. *)
Definition new_id (s : mux) : Z := wrapu64 (m_streamCounter s + 1).
Definition new_chan (s : mux) : nat := fresh (dom (m_chans s)).
Lemma new_chan_fresh s : m_chans s !! new_chan s = None.
Proof. apply (not_elem_of_dom (D:=gset nat)). apply (is_fresh (dom (m_chans s))). Qed.

Definition alloc (s : mux) : mux :=
  mkMux (m_handlers s) (<[new_chan s := make_chan 1]> (m_chans s)) (m_cancelled s)
    (new_id s) (m_rErr s) (m_reader s) (m_callers s).

(** ** Steps

    Labels starting with [Env] are choices of the environment: the transport,
    the application, a context.  The others are progress of the library's own
    code.  [EnvGo] starts a new call. *)
Inductive label :=
  | EnvRead (rpc : Rpc)                    (* rw.Read returns an Rpc *)
  | EnvReadErr (err : error)               (* ... or an error *)
  | EnvClose                               (* Close() *)
  | EnvGo (t : nat) (k : kind)             (* a call is made *)
  | EnvWrite (t : nat) (werr : option error)   (* rw.Write returns to the caller *)
  | EnvCtxDone (t : nat) (err : error)     (* the caller's context is done *)
  | EnvStopReading (t : nat)               (* a stream's owner reads no more *)
  | EnvTeardown (t : nat)                  (* a stream's teardown is called *)
  | LHandle (rpc : Rpc)                    (* handleResponse takes the mutex *)
  | LSend (rpc : Rpc) (c : nat)            (* its send completes *)
  | LCloseError (ord : list (Z * nat)) (err : error)
  | LCheck (t : nat)                       (* readErrorIfDone *)
  | LNewId (t : nat)
  | LRegister (t : nat)
  | LRecv (t : nat) (rpc : Rpc)            (* rpc := <-respChan *)
  | LRecvClosed (t : nat)                  (* respChan is closed *)
  | LUnregister (t : nat).                 (* unregisterHandler *)

(** The internal steps: those of the library's own goroutines. *)
Definition internal (l : label) : Prop :=
  match l with
  | LHandle _ | LSend _ _ | LCloseError _ _ | LCheck _ | LNewId _ | LRegister _
  | LRecv _ _ | LRecvClosed _ | LUnregister _ => True
  | _ => False
  end.

(** After registerHandler: a unary call writes its request, NewStreamReadWriter
    returns the stream. *)
Definition registered (k : kind) (id : Z) (c : nat) : pc :=
  match k with Unary => PWrite id c | Stream => PStream id c true 0 end.

(** A caller that receives from its channel, and where it goes on. *)
Definition recv_from (p : pc) : option (Z * nat) :=
  match p with
  | PWait id c | PStream id c true _ => Some (id, c)
  | _ => None
  end.
Definition after_recv (r : reason) (p : pc) : pc :=
  match p with PWait id c => PUnregister id c r | _ => p end.

(** A caller that wants to run unregisterHandler, and where it goes on. *)
Definition unregisters (p : pc) : option Z :=
  match p with
  | PUnregister id _ _ | PStream id _ _ (S _) => Some id
  | _ => None
  end.
Definition after_unregister (p : pc) : pc :=
  match p with
  | PUnregister id _ r => PDone id r
  | PStream id c reading (S pend) => PStream id c reading pend
  | _ => p
  end.

Inductive step : outcome mux → label → outcome mux → Prop :=
  (* the read loop *)
  | step_read s rpc :
      m_reader s = RRead →
      step (Ret s) (EnvRead rpc) (Ret (set_reader (RHandle rpc) s))
  | step_read_err s err :
      m_reader s = RRead →
      step (Ret s) (EnvReadErr err) (Ret (set_reader (RFail err) s))
  | step_handle s rpc :
      m_reader s = RHandle rpc → mutex_free s →
      step (Ret s) (LHandle rpc) (Ret (handleResponse rpc s))
  | step_send s rpc c ch r :
      m_reader s = RSend rpc c → m_chans s !! c = Some ch → chan_send rpc ch = Some r →
      step (Ret s) (LSend rpc c)
        (ch' ← r; Ret (set_reader RRead (set_chans (<[c := ch']> (m_chans s)) s)))
  | step_close_error s ord err :
      m_reader s = RFail err → mutex_free s → ord ≡ₚ map_to_list (m_handlers s) →
      step (Ret s) (LCloseError ord err)
        (s' ← closeError ord (Some err) s; Ret (set_reader RStopped s'))
  | step_close s :
      mutex_free s → step (Ret s) EnvClose (Close s)
  (* the callers *)
  | step_go s t k :
      m_callers s !! t = None →
      step (Ret s) (EnvGo t k) (Ret (set_caller t k PCheck s))
  | step_check s t k :
      m_callers s !! t = Some (k, PCheck) → mutex_free s →
      step (Ret s) (LCheck t)
        (Ret (set_caller t k (from_option PFailed PNewId (readErrorIfDone s)) s))
  | step_new_id s t k :
      m_callers s !! t = Some (k, PNewId) →
      step (Ret s) (LNewId t)
        (Ret (set_caller t k (PRegister (new_id s) (new_chan s)) (alloc s)))
  | step_register s t k id c :
      m_callers s !! t = Some (k, PRegister id c) → mutex_free s →
      step (Ret s) (LRegister t)
        (Ret (set_caller t k (registered k id c) (registerHandler id c s)))
  | step_write s t k id c werr :
      m_callers s !! t = Some (k, PWrite id c) →
      step (Ret s) (EnvWrite t werr)
        (Ret (set_caller t k
                (match werr with
                 | Some err => PUnregister id c (WriteFailed err)
                 | None => PWait id c
                 end) s))
  | step_recv s t k p id c ch rpc ch' :
      m_callers s !! t = Some (k, p) → recv_from p = Some (id, c) →
      m_chans s !! c = Some ch → chan_recv ch = Some (Some rpc, ch') →
      step (Ret s) (LRecv t rpc)
        (Ret (set_caller t k (after_recv (GotRpc rpc) p)
                (set_chans (<[c := ch']> (m_chans s)) s)))
  | step_recv_closed s t k p id c ch ch' :
      m_callers s !! t = Some (k, p) → recv_from p = Some (id, c) →
      m_chans s !! c = Some ch → chan_recv ch = Some (None, ch') →
      step (Ret s) (LRecvClosed t) (Ret (set_caller t k (after_recv ChanClosed p) s))
  | step_ctx_done s t k id c err :
      m_callers s !! t = Some (k, PWait id c) →
      step (Ret s) (EnvCtxDone t err) (Ret (set_caller t k (PUnregister id c (CtxDone err)) s))
  | step_stop_reading s t k id c r pend :
      m_callers s !! t = Some (k, PStream id c r pend) →
      step (Ret s) (EnvStopReading t) (Ret (set_caller t k (PStream id c false pend) s))
  | step_teardown s t k id c r pend :
      m_callers s !! t = Some (k, PStream id c r pend) →
      step (Ret s) (EnvTeardown t) (Ret (set_caller t k (PStream id c r (S pend)) s))
  | step_unregister s t k p id :
      m_callers s !! t = Some (k, p) → unregisters p = Some id → mutex_free s →
      step (Ret s) (LUnregister t)
        (s' ← unregisterHandler id s; Ret (set_caller t k (after_unregister p) s')).

Definition init : outcome mux := Ret NewRpcMultiplexer.

(** What a stream's Read returns on a closed channel, and its Write when the
    transport fails: the error that ended the read loop, if there is one. *)
Definition resp_chan_closed : error := Errorf "respChan closed".
Definition stream_read_closed (s : mux) : error :=
  default resp_chan_closed (readErrorIfDone s).
Definition stream_write (s : mux) (werr : option error) : option error :=
  match werr with
  | Some err => Some (default err (readErrorIfDone s))
  | None => None
  end.

(** ** Invariant *)

(** Every id a caller was ever given. *)
Definition pc_id (p : pc) : option Z :=
  match p with
  | PRegister id _ | PWrite id _ | PWait id _ | PUnregister id _ _ | PDone id _
  | PStream id _ _ _ => Some id
  | _ => None
  end.
(** The channel it was given with it, while it still refers to it. *)
Definition pc_chan (p : pc) : option (Z * nat) :=
  match p with
  | PRegister id c | PWrite id c | PWait id c | PUnregister id c _ | PStream id c _ _ =>
      Some (id, c)
  | _ => None
  end.
(** The same once registerHandler was called. *)
Definition pc_reg (p : pc) : option (Z * nat) :=
  match p with PRegister _ _ => None | _ => pc_chan p end.

(** No Rpc reaches a call it is not addressed to. *)
Definition addressed (id : Z) (ch : chan Rpc) : Prop :=
  Forall (λ rpc, rpc_Id rpc = id) (ch_buf ch).
Definition live (cs : gmap nat (chan Rpc)) (id : Z) (c : nat) : Prop :=
  ∃ ch, cs !! c = Some ch ∧ addressed id ch ∧ chan_ok ch ∧ ch_cap ch = 1.
Definition is_open (cs : gmap nat (chan Rpc)) (c : nat) : Prop :=
  ∃ ch, cs !! c = Some ch ∧ ch_closed ch = false.

(** What is known of one caller. *)
Definition caller_ok (cs : gmap nat (chan Rpc)) (counter : Z) (p : pc) : Prop :=
  (∀ id, pc_id p = Some id → 1 ≤ id ≤ counter)%Z ∧
  (∀ id c, pc_chan p = Some (id, c) → live cs id c) ∧
  match p with
  | PRegister _ c => is_open cs c
  | PUnregister id _ (GotRpc rpc) | PDone id (GotRpc rpc) => rpc_Id rpc = id
  | _ => True
  end.

Record mux_inv (s : mux) : Prop := {
  inv_counter : (0 ≤ m_streamCounter s)%Z;
  inv_callers t k p :
    m_callers s !! t = Some (k, p) → caller_ok (m_chans s) (m_streamCounter s) p;
  (* different callers have different ids and channels *)
  inv_ids t1 t2 k1 k2 p1 p2 id :
    m_callers s !! t1 = Some (k1, p1) → m_callers s !! t2 = Some (k2, p2) →
    pc_id p1 = Some id → pc_id p2 = Some id → t1 = t2;
  inv_chans t1 t2 k1 k2 p1 p2 i1 i2 c :
    m_callers s !! t1 = Some (k1, p1) → m_callers s !! t2 = Some (k2, p2) →
    pc_chan p1 = Some (i1, c) → pc_chan p2 = Some (i2, c) → t1 = t2;
  (* a registered channel is open and belongs to a registered caller *)
  inv_handlers id c :
    m_handlers s !! id = Some c →
    is_open (m_chans s) c ∧
    ∃ t k p, m_callers s !! t = Some (k, p) ∧ pc_reg p = Some (id, c);
  (* the read loop sends to the channel registered for the Rpc's id *)
  inv_reader rpc c : m_reader s = RSend rpc c → m_handlers s !! rpc_Id rpc = Some c }.

Lemma caller_ok_mono cs cs' n n' p :
  caller_ok cs n p → (n ≤ n')%Z →
  (∀ id c, pc_chan p = Some (id, c) → live cs id c → live cs' id c) →
  (∀ id c, p = PRegister id c → is_open cs c → is_open cs' c) →
  caller_ok cs' n' p.
Proof.
  intros (Hid & Hch & Hp) Hn Hlive Hopen. split_and!.
  - intros id Hi. specialize (Hid id Hi). lia.
  - intros id c Hc. eauto.
  - destruct p; eauto.
Qed.

Lemma live_insert cs id c c' ch' :
  live cs id c → (c' = c → addressed id ch' ∧ chan_ok ch' ∧ ch_cap ch' = 1) →
  live (<[c' := ch']> cs) id c.
Proof.
  intros Hl Hc. unfold live in *. destruct (decide (c' = c)) as [->|Hne].
  - rewrite lookup_insert_eq. naive_solver.
  - by rewrite lookup_insert_ne.
Qed.

Lemma is_open_insert cs c c' ch' :
  is_open cs c → (c' = c → ch_closed ch' = false) → is_open (<[c' := ch']> cs) c.
Proof.
  intros Ho Hc. unfold is_open in *. destruct (decide (c' = c)) as [->|Hne].
  - rewrite lookup_insert_eq. naive_solver.
  - by rewrite lookup_insert_ne.
Qed.

(** A step that changes the heap, the handlers and the read loop, not the
    callers. *)
Lemma inv_heap s hs cs b err r :
  mux_inv s →
  (∀ t k p, m_callers s !! t = Some (k, p) → caller_ok cs (m_streamCounter s) p) →
  (∀ id c, hs !! id = Some c → m_handlers s !! id = Some c ∧ is_open cs c) →
  (∀ rpc c, r = RSend rpc c → hs !! rpc_Id rpc = Some c) →
  mux_inv (mkMux hs cs b (m_streamCounter s) err r (m_callers s)).
Proof.
  intros [] Hok Hhs Hr. split; simpl; eauto.
  intros id c Hc. destruct (Hhs id c Hc). split; [done|]. by eapply inv_handlers0.
Qed.

(** A step of one caller [t], from [p] to [p']. *)
Lemma inv_set_caller s t k p p' :
  mux_inv s → m_callers s !! t = Some (k, p) →
  caller_ok (m_chans s) (m_streamCounter s) p' →
  (∀ id, pc_id p' = Some id → pc_id p = Some id) →
  (∀ id c, pc_chan p' = Some (id, c) → pc_chan p = Some (id, c)) →
  (∀ id c, m_handlers s !! id = Some c → pc_reg p = Some (id, c) → pc_reg p' = Some (id, c)) →
  mux_inv (set_caller t k p' s).
Proof.
  intros [] Ht Hok Hid Hch Hreg. split; simpl; try done.
  - intros t' k' q. rewrite lookup_insert_Some. intros [[<- [= <- <-]]|[_ ?]]; eauto.
  - intros t1 t2 k1 k2 p1 p2 id. rewrite !lookup_insert_Some.
    intros [[<- [= <- <-]]|[??]] [[<- [= <- <-]]|[??]] ??; eauto.
  - intros t1 t2 k1 k2 p1 p2 i1 i2 c. rewrite !lookup_insert_Some.
    intros [[<- [= <- <-]]|[??]] [[<- [= <- <-]]|[??]] ??; eauto.
  - intros id c Hc. destruct (inv_handlers0 id c Hc) as (Ho & t' & k' & q & Hq & Hr).
    split; [done|]. destruct (decide (t = t')) as [<-|Hne].
    + exists t, k, p'. rewrite lookup_insert_eq. rewrite Ht in Hq. simplify_eq. eauto.
    + exists t', k', q. by rewrite lookup_insert_ne.
Qed.

Lemma inv_go s t k :
  mux_inv s → m_callers s !! t = None → mux_inv (set_caller t k PCheck s).
Proof.
  intros [] Ht. split; simpl; try done.
  - intros t' k' q. rewrite lookup_insert_Some. intros [[<- [= <- <-]]|[_ ?]]; eauto. done.
  - intros t1 t2 k1 k2 p1 p2 id. rewrite !lookup_insert_Some.
    intros [[<- [= <- <-]]|[??]] [[<- [= <- <-]]|[??]] ??; eauto; done.
  - intros t1 t2 k1 k2 p1 p2 i1 i2 c. rewrite !lookup_insert_Some.
    intros [[<- [= <- <-]]|[??]] [[<- [= <- <-]]|[??]] ??; eauto; done.
  - intros id c Hc. destruct (inv_handlers0 id c Hc) as (Ho & t' & k' & q & Hq & Hr).
    split; [done|]. exists t', k', q. rewrite lookup_insert_ne by congruence. done.
Qed.

Lemma pc_chan_id p id c : pc_chan p = Some (id, c) → pc_id p = Some id.
Proof. by destruct p; intros; simplify_eq/=. Qed.
Lemma pc_reg_chan p id c : pc_reg p = Some (id, c) → pc_chan p = Some (id, c).
Proof. by destruct p. Qed.

(** The channel of a caller is the one a handler for its id refers to. *)
Lemma inv_owner s t k p id c c' :
  mux_inv s → m_callers s !! t = Some (k, p) → pc_chan p = Some (id, c) →
  m_handlers s !! id = Some c' → c' = c.
Proof.
  intros Hinv Ht Hp Hh. destruct (inv_handlers s Hinv id c' Hh) as (_ & t' & k' & q & Hq & Hr).
  apply pc_reg_chan in Hr.
  assert (t' = t) as -> by (eapply (inv_ids s Hinv); eauto using pc_chan_id).
  simplify_eq. congruence.
Qed.

Lemma live_addressed cs id c ch ch' :
  live cs id c → cs !! c = Some ch → (addressed id ch → addressed id ch') →
  chan_ok ch' → ch_cap ch' = ch_cap ch → addressed id ch' ∧ chan_ok ch' ∧ ch_cap ch' = 1.
Proof. intros (? & ? & ? & ? & ?) ? ?? Hcap. simplify_eq. split_and!; auto. congruence. Qed.

(** ** Preservation *)
Lemma inv_set_reader s r :
  mux_inv s → (∀ rpc c, r ≠ RSend rpc c) → mux_inv (set_reader r s).
Proof.
  intros Hinv Hr. apply (inv_heap s); [done|apply Hinv|..|].
  - intros id c Hc. split; [done|]. by eapply inv_handlers.
  - intros rpc c ->. by destruct (Hr rpc c).
Qed.

Lemma inv_handleResponse s rpc : mux_inv s → mux_inv (handleResponse rpc s).
Proof.
  intros Hinv. unfold handleResponse.
  destruct (m_handlers s !! rpc_Id rpc) as [c|] eqn:E; [|by apply inv_set_reader].
  apply inv_heap; try apply Hinv.
  - intros id c' Hc. split; [done|]. by eapply inv_handlers.
  - by intros ?? [= <- <-].
Qed.

(** One channel is replaced: sends and receives. *)
Lemma inv_chan_update s c ch ch' r :
  mux_inv s → m_chans s !! c = Some ch →
  (∀ t k p id, m_callers s !! t = Some (k, p) → pc_chan p = Some (id, c) →
     addressed id ch → addressed id ch') →
  chan_ok ch' → ch_cap ch' = ch_cap ch → ch_closed ch' = ch_closed ch →
  (∀ rpc c, r = RSend rpc c → m_handlers s !! rpc_Id rpc = Some c) →
  mux_inv (set_reader r (set_chans (<[c := ch']> (m_chans s)) s)).
Proof.
  intros Hinv Hc Hadd Hok Hcap Hcl Hr. apply (inv_heap s); [done|..|exact Hr].
  - intros t k p Ht. eapply caller_ok_mono; [by eapply inv_callers|done|..].
    + intros id c' Hp Hl. apply live_insert; [done|]. intros <-.
      eapply live_addressed; eauto.
    + intros id c' -> Ho. apply is_open_insert; [done|]. intros <-.
      destruct Ho as (? & ? & ?). simplify_eq. congruence.
  - intros id c' Hh. split; [done|]. apply is_open_insert; [by eapply inv_handlers|].
    intros <-. destruct (inv_handlers s Hinv _ _ Hh) as ((? & ? & ?) & _). simplify_eq. congruence.
Qed.

Lemma inv_send s rpc c ch r :
  mux_inv s → m_reader s = RSend rpc c → m_chans s !! c = Some ch →
  chan_send rpc ch = Some r →
  ∃ ch', r = Ret ch' ∧ mux_inv (set_reader RRead (set_chans (<[c := ch']> (m_chans s)) s)).
Proof.
  intros Hinv Hr Hc Hsend. pose proof (inv_reader s Hinv _ _ Hr) as Hh.
  destruct (inv_handlers s Hinv _ _ Hh) as ((ch0 & Hc0 & Hcl) & _). simplify_eq.
  destruct r as [ch'|m]; [|unfold chan_send in Hsend; rewrite Hcl in Hsend; by case_decide].
  apply chan_send_ok in Hsend as (_ & Hbuf & Hcap & Hcl' & Hok). exists ch'. split; [done|].
  eapply inv_chan_update; eauto; [|congruence].
  intros t k p id Ht Hp Ha. unfold addressed. rewrite Hbuf.
  apply Forall_app. split; [done|]. apply Forall_singleton.
  destruct (inv_handlers s Hinv _ _ Hh) as (_ & t' & k' & q & Hq & Hreg).
  apply pc_reg_chan in Hreg.
  assert (t' = t) as -> by (eapply (inv_chans s Hinv t' t); eauto). simplify_eq. congruence.
Qed.

Lemma inv_alloc s t k :
  mux_inv s → m_callers s !! t = Some (k, PNewId) → (m_streamCounter s + 1 < 2 ^ 64)%Z →
  mux_inv (set_caller t k (PRegister (new_id s) (new_chan s)) (alloc s)).
Proof.
  intros Hinv Ht Hc.
  assert (Hn : new_id s = (m_streamCounter s + 1)%Z).
  { unfold new_id, wrapu64. rewrite Z.mod_small; [done|]. destruct Hinv. lia. }
  pose proof (new_chan_fresh s) as Hf.
  assert (Hfresh : ∀ id c, live (m_chans s) id c → c ≠ new_chan s).
  { intros id c (ch & Hl & _) ->. congruence. }
  pose proof (inv_counter s Hinv) as Hpos. split; simpl; rewrite ?Hn.
  - lia.
  - intros t' k' q. rewrite lookup_insert_Some. intros [[<- [= <- <-]]|[Hne Hq]].
    + split_and!; simpl.
      * intros id [= <-]. lia.
      * intros id c [= <- <-]. exists (make_chan 1). rewrite lookup_insert_eq.
        split_and!; [done|constructor|unfold chan_ok; simpl; lia|done].
      * exists (make_chan 1). by rewrite lookup_insert_eq.
    + eapply caller_ok_mono; [by eapply inv_callers|lia|..].
      * intros id c Hp Hl. apply live_insert; [done|]. intros <-.
        by apply Hfresh in Hl.
      * intros id c -> Ho. by apply is_open_insert.
  - intros t1 t2 k1 k2 p1 p2 id. rewrite !lookup_insert_Some.
    intros [[<- [= <- <-]]|[? H1]] [[<- [= <- <-]]|[? H2]] Hp1 Hp2; try done; simplify_eq/=.
    + eapply inv_callers in H2 as (Hid & _ & _); [|done]. specialize (Hid _ Hp2). lia.
    + eapply inv_callers in H1 as (Hid & _ & _); [|done]. specialize (Hid _ Hp1). lia.
    + by eapply (inv_ids s Hinv).
  - intros t1 t2 k1 k2 p1 p2 i1 i2 c. rewrite !lookup_insert_Some.
    intros [[<- [= <- <-]]|[? H1]] [[<- [= <- <-]]|[? H2]] Hp1 Hp2; try done; simplify_eq/=.
    + eapply inv_callers in H2 as (_ & Hl & _); [|done]. by apply Hl, Hfresh in Hp2.
    + eapply inv_callers in H1 as (_ & Hl & _); [|done]. by apply Hl, Hfresh in Hp1.
    + by eapply (inv_chans s Hinv).
  - intros id c Hh. destruct (inv_handlers s Hinv id c Hh) as (Ho & t' & k' & q & Hq & Hr).
    split; [by apply is_open_insert|]. exists t', k', q.
    rewrite lookup_insert_ne; [done|]. intros <-. simplify_eq.
  - apply Hinv.
Qed.

Lemma close_in_open cs c :
  is_open cs c →
  ∃ ch, cs !! c = Some ch ∧
    close_in c cs = Ret (<[c := mkChan (ch_cap ch) (ch_buf ch) true]> cs).
Proof.
  intros (ch & Hc & Hcl). exists ch. split; [done|].
  unfold close_in. rewrite Hc. unfold chan_close. by rewrite Hcl.
Qed.

(** Closing keeps what a channel holds. *)
Lemma live_close cs id c c' ch :
  live cs id c → cs !! c' = Some ch →
  live (<[c' := mkChan (ch_cap ch) (ch_buf ch) true]> cs) id c.
Proof.
  intros (ch0 & Hc0 & Ha & Hok & Hcap) Hc. apply live_insert; [by exists ch0|]. intros ->.
  simplify_eq. split_and!; [exact Ha|exact Hok|done].
Qed.

(** Two handlers, or a handler and a caller about to register, never share a
    channel. *)
Lemma handlers_inj s id1 id2 c :
  mux_inv s → m_handlers s !! id1 = Some c → m_handlers s !! id2 = Some c → id1 = id2.
Proof.
  intros Hinv H1 H2.
  apply (inv_handlers s Hinv) in H1 as (_ & t1 & k1 & p1 & Hq1 & Hr1%pc_reg_chan).
  apply (inv_handlers s Hinv) in H2 as (_ & t2 & k2 & p2 & Hq2 & Hr2%pc_reg_chan).
  assert (t1 = t2) as -> by (eapply (inv_chans s Hinv); eauto). by simplify_eq.
Qed.

Lemma handler_not_fresh s id c t k id' :
  mux_inv s → m_handlers s !! id = Some c → m_callers s !! t ≠ Some (k, PRegister id' c).
Proof.
  intros Hinv Hh Ht. apply (inv_handlers s Hinv) in Hh as (_ & t' & k' & q & Hq & Hr).
  assert (t' = t) as -> by (eapply (inv_chans s Hinv t' t); eauto using pc_reg_chan).
  by simplify_eq.
Qed.

(** Removing a handler and closing its channel. *)
Lemma inv_close_handler s id c ch :
  mux_inv s → mutex_free s → m_handlers s !! id = Some c → m_chans s !! c = Some ch →
  mux_inv (set_handlers (delete id (m_handlers s))
             (set_chans (<[c := mkChan (ch_cap ch) (ch_buf ch) true]> (m_chans s)) s)).
Proof.
  intros Hinv Hmu Hh Hc. apply (inv_heap s); [done|..].
  - intros t k p Ht. eapply caller_ok_mono; [by eapply inv_callers|done|..].
    + intros id' c' _ Hl. by eapply live_close.
    + intros id' c' -> Ho. apply is_open_insert; [done|]. intros <-.
      by eapply handler_not_fresh in Ht.
  - intros id' c' [Hne Hh']%lookup_delete_Some. split; [done|].
    apply is_open_insert; [by eapply inv_handlers|]. intros <-.
    by destruct Hne; eapply handlers_inj.
  - intros rpc c' Hr. by destruct (mutex_free_send s rpc c' Hmu).
Qed.

Lemma inv_unregister s id :
  mux_inv s → mutex_free s →
  ∃ s', unregisterHandler id s = Ret s' ∧ mux_inv s' ∧ m_callers s' = m_callers s ∧
    m_streamCounter s' = m_streamCounter s ∧ m_handlers s' = delete id (m_handlers s).
Proof.
  intros Hinv Hmu. unfold unregisterHandler.
  destruct (m_handlers s !! id) as [c|] eqn:E.
  - destruct (close_in_open _ _ (proj1 (inv_handlers s Hinv _ _ E))) as (ch & Hc & ->).
    eexists. split; [done|]. split_and!; try done. by apply inv_close_handler.
  - eexists. split; [done|]. split_and!; try done.
    apply (inv_heap s); [done|apply Hinv|..].
    + intros id' c' [_ Hh]%lookup_delete_Some. split; [done|]. by eapply inv_handlers.
    + intros rpc c' Hr. by destruct (mutex_free_send s rpc c' Hmu).
Qed.

(** closeError: every registered channel is closed once. *)
Lemma close_all_open l cs :
  NoDup l → Forall (is_open cs) l →
  ∃ cs', close_all l cs = Ret cs' ∧
    (∀ id c, live cs id c → live cs' id c) ∧
    (∀ c, c ∉ l → is_open cs c → is_open cs' c).
Proof.
  intros Hnd. revert cs. induction Hnd as [|c l Hc Hnd IH]; intros cs Ho.
  { exists cs. split_and!; naive_solver. }
  apply Forall_cons in Ho as [Hoc Ho].
  destruct (close_in_open _ _ Hoc) as (ch & Hch & Hcl). cbn [close_all]. rewrite Hcl. simpl.
  destruct (IH (<[c := mkChan (ch_cap ch) (ch_buf ch) true]> cs)) as (cs' & Hcs' & Hl & Ho').
  { apply Forall_forall. intros c' Hc'. apply is_open_insert; [by eapply Forall_forall|].
    intros ->. done. }
  exists cs'. split_and!; [done|..].
  - intros id c' H. apply Hl. by eapply live_close.
  - intros c' [Hne Hn]%not_elem_of_cons Hop. apply Ho'; [done|].
    by apply is_open_insert.
Qed.

Lemma inv_closeError s ord err :
  mux_inv s → mutex_free s → ord ≡ₚ map_to_list (m_handlers s) →
  ∃ s', closeError ord (Some err) s = Ret s' ∧ mux_inv s' ∧ m_handlers s' = ∅ ∧
    m_rErr s' = Some err ∧ m_cancelled s' = true ∧
    m_streamCounter s' = m_streamCounter s ∧ m_callers s' = m_callers s.
Proof.
  intros Hinv Hmu Hord.
  assert (Hel : ∀ c, c ∈ ord.*2 → ∃ id, m_handlers s !! id = Some c).
  { intros c. rewrite Hord. intros ([id c'] & -> & Hin)%list_elem_of_fmap.
    exists id. by apply elem_of_map_to_list. }
  assert (Hnd : NoDup (ord.*2)).
  { rewrite Hord. apply NoDup_fmap_2_strong; [|apply NoDup_map_to_list].
    intros [i1 c1] [i2 c2] H1%elem_of_map_to_list H2%elem_of_map_to_list ?. simplify_eq/=.
    f_equal. by eapply handlers_inj. }
  destruct (close_all_open (ord.*2) (m_chans s) Hnd) as (cs' & Hcs & Hl & Ho).
  { apply Forall_forall. intros c (id & Hid)%Hel. by eapply inv_handlers. }
  unfold closeError. simpl. rewrite Hcs. simpl. eexists. split; [done|].
  split_and!; try done. apply (inv_heap s); [done|..].
  - intros t k p Ht. eapply caller_ok_mono; [by eapply inv_callers|done|..].
    + intros id c _ Hlive. by apply Hl.
    + intros id c -> Hop. apply Ho; [|done]. intros (id' & Hid')%Hel.
      by eapply handler_not_fresh in Ht.
  - intros id c. by rewrite lookup_empty.
  - intros rpc c Hr. by destruct (mutex_free_send s rpc c Hmu).
Qed.

Lemma inv_register s t k id c :
  mux_inv s → mutex_free s → m_callers s !! t = Some (k, PRegister id c) →
  mux_inv (set_caller t k (registered k id c) (registerHandler id c s)).
Proof.
  intros Hinv Hmu Ht. pose proof (inv_callers s Hinv _ _ _ Ht) as (Hid & Hch & Hop).
  pose proof (inv_set_caller s t k (PRegister id c) (registered k id c) Hinv Ht) as Hset.
  assert (mux_inv (set_caller t k (registered k id c) s)) as [].
  { by apply Hset; destruct k. }
  split; try done.
  - intros id' c'. simpl. rewrite lookup_insert_Some. intros [[<- <-]|[Hne Hh]]; [|by eapply inv_handlers0].
    split; [done|]. exists t, k, (registered k id c). rewrite lookup_insert_eq. by destruct k.
  - simpl. intros rpc c' Hr. by destruct (mutex_free_send s rpc c' Hmu).
Qed.

Lemma recv_from_chan p id c : recv_from p = Some (id, c) → pc_chan p = Some (id, c).
Proof. by destruct p as [| | | | | | |? ? []|]. Qed.

Lemma after_recv_ids r p :
  pc_id (after_recv r p) = pc_id p ∧ pc_chan (after_recv r p) = pc_chan p ∧
  (is_Some (recv_from p) → pc_reg (after_recv r p) = pc_reg p).
Proof. by destruct p. Qed.

Lemma inv_recv s t k p id c ch rpc ch' :
  mux_inv s → m_callers s !! t = Some (k, p) → recv_from p = Some (id, c) →
  m_chans s !! c = Some ch → chan_recv ch = Some (Some rpc, ch') →
  rpc_Id rpc = id ∧
  mux_inv (set_caller t k (after_recv (GotRpc rpc) p)
             (set_chans (<[c := ch']> (m_chans s)) s)).
Proof.
  intros Hinv Ht Hr Hc Hrecv. apply chan_recv_Some in Hrecv as (Hbuf & Hcap & Hcl).
  pose proof (inv_callers s Hinv _ _ _ Ht) as (Hid & Hlive & Hp).
  destruct (Hlive _ _ (recv_from_chan _ _ _ Hr)) as (ch0 & Hc0 & Ha & Hok & Hcap1). simplify_eq.
  unfold addressed in Ha. rewrite Hbuf in Ha. apply Forall_cons in Ha as [Hid' Ha].
  unfold chan_ok in Hok. rewrite Hbuf in Hok. simpl in Hok.
  assert (Hinv1 : mux_inv (set_reader (m_reader s) (set_chans (<[c := ch']> (m_chans s)) s))).
  { eapply inv_chan_update; eauto.
    - intros t' k' p' id' _ _. unfold addressed. rewrite Hbuf. by inversion 1.
    - unfold chan_ok. lia.
    - intros rpc' c'. apply Hinv. }
  split; [done|]. destruct (after_recv_ids (GotRpc rpc) p) as (Hi & Hch & Hreg).
  eapply (inv_set_caller _ t k p); [exact Hinv1|done|..]; simpl.
  - pose proof (inv_callers _ Hinv1 _ _ _ Ht) as (Hid1 & Hlive1 & Hp1). simpl in *.
    split_and!; rewrite ?Hi, ?Hch; eauto.
    destruct p; simplify_eq/=; done.
  - by rewrite Hi.
  - by rewrite Hch.
  - by rewrite Hreg.
Qed.

Lemma inv_recv_closed s t k p id c :
  mux_inv s → m_callers s !! t = Some (k, p) → recv_from p = Some (id, c) →
  mux_inv (set_caller t k (after_recv ChanClosed p) s).
Proof.
  intros Hinv Ht Hr. pose proof (inv_callers s Hinv _ _ _ Ht) as (Hid & Hlive & Hp).
  destruct (after_recv_ids ChanClosed p) as (Hi & Hch & Hreg).
  eapply inv_set_caller; eauto; rewrite ?Hi, ?Hch; eauto; [|by rewrite Hreg].
  split_and!; rewrite ?Hi, ?Hch; eauto. by destruct p.
Qed.

Lemma inv_after_unregister s s' t k p id :
  mux_inv s → m_callers s !! t = Some (k, p) → unregisters p = Some id →
  mux_inv s' → m_callers s' = m_callers s → m_streamCounter s' = m_streamCounter s →
  m_handlers s' = delete id (m_handlers s) →
  mux_inv (set_caller t k (after_unregister p) s').
Proof.
  intros Hinv Ht Hu Hinv' Hcal Hcnt Hhs.
  rewrite <-Hcal in Ht. pose proof (inv_callers s' Hinv' _ _ _ Ht) as (Hid & Hlive & Hp).
  eapply inv_set_caller; eauto.
  - destruct p as [| | | | |? ? []| |? ? ? []|]; simplify_eq/=; split_and!; simpl; eauto; done.
  - by destruct p as [| | | | | | |? ? ? []|]; simplify_eq/=.
  - by destruct p as [| | | | | | |? ? ? []|]; simplify_eq/=.
  - intros id' c'. rewrite Hhs. intros [Hne _]%lookup_delete_Some.
    destruct p as [| | | | | | |? ? ? []|]; simplify_eq/=; try done. congruence.
Qed.

(** Every step keeps the invariant and does not panic. *)
Lemma inv_step s l o :
  mux_inv s → (m_streamCounter s + 1 < 2 ^ 64)%Z → step (Ret s) l o →
  ∃ s', o = Ret s' ∧ mux_inv s' ∧ (m_streamCounter s' ≤ m_streamCounter s + 1)%Z.
Proof.
  intros Hinv Hcnt Hstep. inversion Hstep; subst;
    try match goal with
      Ht : m_callers s !! _ = Some _ |- _ =>
        pose proof (inv_callers s Hinv _ _ _ Ht) as (Hid & Hlive & Hok)
      end.
  - eexists. split; [done|]. split; [by apply inv_set_reader|simpl; lia].
  - eexists. split; [done|]. split; [by apply inv_set_reader|simpl; lia].
  - eexists. split; [done|]. split; [by apply inv_handleResponse|].
    unfold handleResponse. case_match; simpl; lia.
  - edestruct inv_send as (ch' & -> & Hi); eauto. eexists. split; [done|]. split; [done|]. simpl. lia.
  - edestruct inv_closeError as (s' & -> & Hi & _ & _ & _ & Hc & _); eauto.
    eexists. split; [done|]. split; [by apply inv_set_reader|simpl; lia].
  - eexists. split; [done|]. split; [|simpl; lia].
    apply (inv_heap s); [done|apply Hinv|..|apply Hinv].
    intros id c Hh. split; [done|]. by eapply inv_handlers.
  - eexists. split; [done|]. split; [by apply inv_go|simpl; lia].
  - eexists. split; [done|]. split; [|simpl; lia].
    unfold readErrorIfDone. by eapply inv_set_caller; eauto; destruct (m_rErr s).
  - eexists. split; [done|]. split; [by apply inv_alloc|]. simpl. unfold new_id, wrapu64.
    rewrite Z.mod_small; [lia|]. destruct Hinv. lia.
  - eexists. split; [done|]. split; [by apply inv_register|simpl; lia].
  - eexists. split; [done|]. split; [|simpl; lia].
    destruct werr; eapply inv_set_caller; eauto; by split_and!.
  - eexists. split; [done|]. split; [by eapply inv_recv|simpl; lia].
  - eexists. split; [done|]. split; [by eapply inv_recv_closed|simpl; lia].
  - eexists. split; [done|]. split; [|simpl; lia].
    eapply inv_set_caller; eauto; by split_and!.
  - eexists. split; [done|]. split; [|simpl; lia].
    eapply inv_set_caller; eauto; by split_and!.
  - eexists. split; [done|]. split; [|simpl; lia].
    eapply inv_set_caller; eauto; by split_and!.
  - edestruct (inv_unregister s id) as (s' & -> & Hi & Hcal & Hcn & Hhs); [done..|].
    eexists. split; [done|]. split; [by eapply (inv_after_unregister s); eauto|simpl; lia].
Qed.

(** ** Reachable states *)
Lemma mux_inv_init : mux_inv NewRpcMultiplexer.
Proof. split; simpl; try done; intros *; rewrite lookup_empty; done. Qed.

(** ** Executing labels

    [exec] computes the step of a label, so that concrete histories can be
    evaluated. *)
Definition caller_pc (s : mux) (t : nat) : option (kind * pc) := m_callers s !! t.

Definition exec (s : mux) (l : label) : option (outcome mux) :=
  match l with
  | EnvRead rpc =>
      guard (m_reader s = RRead);; Some (Ret (set_reader (RHandle rpc) s))
  | EnvReadErr err =>
      guard (m_reader s = RRead);; Some (Ret (set_reader (RFail err) s))
  | EnvClose => guard (mutex_free s);; Some (Close s)
  | EnvGo t k => guard (m_callers s !! t = None);; Some (Ret (set_caller t k PCheck s))
  | EnvWrite t werr =>
      match caller_pc s t with
      | Some (k, PWrite id c) =>
          Some (Ret (set_caller t k
                  (match werr with
                   | Some err => PUnregister id c (WriteFailed err)
                   | None => PWait id c
                   end) s))
      | _ => None
      end
  | EnvCtxDone t err =>
      match caller_pc s t with
      | Some (k, PWait id c) => Some (Ret (set_caller t k (PUnregister id c (CtxDone err)) s))
      | _ => None
      end
  | EnvStopReading t =>
      match caller_pc s t with
      | Some (k, PStream id c _ pend) => Some (Ret (set_caller t k (PStream id c false pend) s))
      | _ => None
      end
  | EnvTeardown t =>
      match caller_pc s t with
      | Some (k, PStream id c r pend) => Some (Ret (set_caller t k (PStream id c r (S pend)) s))
      | _ => None
      end
  | LHandle rpc =>
      guard (m_reader s = RHandle rpc);; Some (Ret (handleResponse rpc s))
  | LSend rpc c =>
      guard (m_reader s = RSend rpc c);;
      ch ← m_chans s !! c; r ← chan_send rpc ch;
      Some (ch' ← r; Ret (set_reader RRead (set_chans (<[c := ch']> (m_chans s)) s)))
  | LCloseError ord err =>
      guard (m_reader s = RFail err);; guard (ord ≡ₚ map_to_list (m_handlers s));;
      Some (s' ← closeError ord (Some err) s; Ret (set_reader RStopped s'))
  | LCheck t =>
      match caller_pc s t with
      | Some (k, PCheck) =>
          guard (mutex_free s);;
          Some (Ret (set_caller t k (from_option PFailed PNewId (readErrorIfDone s)) s))
      | _ => None
      end
  | LNewId t =>
      match caller_pc s t with
      | Some (k, PNewId) =>
          Some (Ret (set_caller t k (PRegister (new_id s) (new_chan s)) (alloc s)))
      | _ => None
      end
  | LRegister t =>
      match caller_pc s t with
      | Some (k, PRegister id c) =>
          guard (mutex_free s);;
          Some (Ret (set_caller t k (registered k id c) (registerHandler id c s)))
      | _ => None
      end
  | LRecv t rpc =>
      '(k, p) ← caller_pc s t; '(id, c) ← recv_from p; ch ← m_chans s !! c;
      '(v, ch') ← chan_recv ch;
      guard (v = Some rpc);;
      Some (Ret (set_caller t k (after_recv (GotRpc rpc) p) (set_chans (<[c := ch']> (m_chans s)) s)))
  | LRecvClosed t =>
      '(k, p) ← caller_pc s t; '(id, c) ← recv_from p; ch ← m_chans s !! c;
      '(v, ch') ← chan_recv ch;
      guard (v = None);; Some (Ret (set_caller t k (after_recv ChanClosed p) s))
  | LUnregister t =>
      '(k, p) ← caller_pc s t; id ← unregisters p; guard (mutex_free s);;
      Some (s' ← unregisterHandler id s; Ret (set_caller t k (after_unregister p) s'))
  end.

(** [exec] computes the steps of the relation. *)
Lemma guard_Some {A} (P : Prop) `{Decision P} (m : option A) x :
  (guard P;; m) = Some x → P ∧ m = Some x.
Proof. by case_guard. Qed.

Ltac exec_cases :=
  repeat match goal with
    | H : (guard _;; _) = Some _ |- _ => apply guard_Some in H as [? H]
    | H : (let '(_, _) := ?x in _) = Some _ |- _ => destruct x
    | H : mbind _ _ = Some _ |- _ => apply bind_Some in H as (? & ? & H)
    | H : (match m_callers ?s !! ?t with _ => _ end) = Some _ |- _ =>
        destruct (m_callers s !! t) as [[? []]|] eqn:?; try discriminate H
    | H : Some _ = Some _ |- _ => injection H as <-
    end.

Lemma exec_step s l o : exec s l = Some o → step (Ret s) l o.
Proof.
  unfold exec, caller_pc. intros H. destruct l; exec_cases; subst;
    econstructor; eauto; unfold mutex_free; by case_match.
Qed.

Fixpoint exec_run (s : mux) (ls : list label) : option mux :=
  match ls with
  | [] => Some s
  | l :: ls => match exec s l with Some (Ret s') => exec_run s' ls | _ => None end
  end.

Lemma exec_run_trace ls s s' : exec_run s ls = Some s' → trace step (Ret s) ls (Ret s').
Proof.
  revert s. induction ls as [|l ls IH]; intros s H; simplify_eq/=; [by constructor|].
  destruct (exec s l) as [[s1|]|] eqn:E; try done.
  eapply trace_step; [by apply exec_step|auto].
Qed.
