(* ===== verification/MuxDelivery.v ===== *)
(** * Properties of the multiplexer of file [Multiplexer]

    Delivery order of the responses of every call, absence of panics, what a
    transport failure does to the waiting calls, and the two ways in which the
    component can lose liveness. *)

From S2P Require Import Prelude GoString Rpc Errors Chan Multiplexer.

(** ** Delivery order *)
Definition reads_of (l : label) : list Rpc := match l with EnvRead rpc => [rpc] | _ => [] end.
Definition reads (h : list label) : list Rpc := h ≫= reads_of.

Definition recvs_of (t : nat) (l : label) : list Rpc :=
  match l with LRecv t' rpc => if decide (t' = t) then [rpc] else [] | _ => [] end.
(** The Rpcs that call [t] received. *)
Definition recvs (t : nat) (h : list label) : list Rpc := h ≫= recvs_of t.

Definition sends_of (l : label) : list (Rpc * nat) :=
  match l with LSend rpc c => [(rpc, c)] | _ => [] end.
Definition all_sends (h : list label) : list (Rpc * nat) := h ≫= sends_of.
(** The Rpcs the read loop put into channel [c]. *)
Definition sends (c : nat) (h : list label) : list Rpc :=
  (filter (λ x, x.2 = c) (all_sends h)).*1.

Lemma reads_snoc h l : reads (h ++ [l]) = reads h ++ reads_of l.
Proof. unfold reads. by rewrite bind_app, bind_singleton. Qed.
Lemma recvs_snoc t h l : recvs t (h ++ [l]) = recvs t h ++ recvs_of t l.
Proof. unfold recvs. by rewrite bind_app, bind_singleton. Qed.
Lemma all_sends_snoc h l : all_sends (h ++ [l]) = all_sends h ++ sends_of l.
Proof. unfold all_sends. by rewrite bind_app, bind_singleton. Qed.
Lemma sends_snoc c h l :
  sends c (h ++ [l]) = sends c h ++ (filter (λ x, x.2 = c) (sends_of l)).*1.
Proof. unfold sends. by rewrite all_sends_snoc, filter_app, fmap_app. Qed.

(** The Rpc the read loop is working on. *)
Definition in_hand (s : mux) : list Rpc :=
  match m_reader s with RHandle rpc | RSend rpc _ => [rpc] | _ => [] end.

Record deliv_inv (h : list label) (s : mux) : Prop := {
  (* what was put into a caller's channel was received, in order, or is in it *)
  dl_chan t k p id c :
    m_callers s !! t = Some (k, p) → pc_chan p = Some (id, c) →
    ∃ ch, m_chans s !! c = Some ch ∧ recvs t h ++ ch_buf ch = sends c h;
  dl_none t : (∀ k p, m_callers s !! t = Some (k, p) → pc_id p = None) → recvs t h = [];
  dl_unused c : m_chans s !! c = None → sends c h = [];
  (* what a caller received carries its id *)
  dl_id t k p id :
    m_callers s !! t = Some (k, p) → pc_id p = Some id →
    Forall (λ rpc, rpc_Id rpc = id) (recvs t h) ∧ recvs t h `sublist_of` (all_sends h).*1;
  (* what was put into channels was read from the transport before, in order *)
  dl_reads : (all_sends h).*1 ++ in_hand s `sublist_of` reads h }.

Definition silent (l : label) : Prop :=
  reads_of l = [] ∧ (∀ t, recvs_of t l = []) ∧ sends_of l = [].

(** A step that moves no Rpc. *)
Lemma deliv_silent h s l s' :
  deliv_inv h s → silent l →
  (∀ t k' p', m_callers s' !! t = Some (k', p') →
     (pc_id p' = None ∧ pc_chan p' = None ∧
      (∀ k p, m_callers s !! t = Some (k, p) → pc_id p = None)) ∨
     ∃ k p, m_callers s !! t = Some (k, p) ∧ pc_id p' = pc_id p ∧
       (pc_chan p' = pc_chan p ∨ pc_chan p' = None)) →
  (∀ t, m_callers s' !! t = None → m_callers s !! t = None) →
  (∀ c ch, m_chans s !! c = Some ch → ∃ ch', m_chans s' !! c = Some ch' ∧ ch_buf ch' = ch_buf ch) →
  in_hand s' `sublist_of` in_hand s →
  deliv_inv (h ++ [l]) s'.
Proof.
  intros [] (Hr & Hrv & Hse) Hcal Hnone Hch Hin.
  assert (Hrecvs : ∀ t, recvs t (h ++ [l]) = recvs t h)
    by (intros; by rewrite recvs_snoc, Hrv, app_nil_r).
  assert (Hsends : ∀ c, sends c (h ++ [l]) = sends c h)
    by (intros; rewrite sends_snoc, Hse; simpl; by rewrite app_nil_r).
  assert (Hall : all_sends (h ++ [l]) = all_sends h) by (by rewrite all_sends_snoc, Hse, app_nil_r).
  split.
  - intros t k' p' id c Ht Hp. rewrite Hrecvs, Hsends.
    destruct (Hcal _ _ _ Ht) as [(_ & Hn & _)|(k & p & Hq & _ & [Heq|Heq])]; [congruence| |congruence].
    rewrite Hp in Heq. destruct (dl_chan0 t k p id c Hq) as (ch & Hc & <-); [done|].
    destruct (Hch _ _ Hc) as (ch' & Hc' & <-). by exists ch'.
  - intros t Hn. rewrite Hrecvs. apply dl_none0. intros k p Hq.
    destruct (m_callers s' !! t) as [[k' p']|] eqn:E; [|apply Hnone in E; congruence].
    destruct (Hcal _ _ _ E) as [(_ & _ & H)|(k2 & p2 & Hq2 & Heq & _)]; [by eapply H|].
    simplify_eq. rewrite <-Heq. eauto.
  - intros c Hc. rewrite Hsends. apply dl_unused0. destruct (m_chans s !! c) eqn:E; [|done].
    destruct (Hch _ _ E) as (? & ? & _). congruence.
  - intros t k' p' id Ht Hp. rewrite Hrecvs, Hall.
    destruct (Hcal _ _ _ Ht) as [(Hn & _)|(k & p & Hq & Heq & _)]; [congruence|].
    rewrite Hp in Heq. eauto.
  - rewrite Hall, reads_snoc, Hr, app_nil_r. etrans; [|exact dl_reads0].
    by apply sublist_app.
Qed.

(** The silent step of one caller. *)
Lemma deliv_set_caller h s l t k p k' p' :
  deliv_inv h s → silent l → m_callers s !! t = Some (k, p) →
  pc_id p' = pc_id p → (pc_chan p' = pc_chan p ∨ pc_chan p' = None) →
  deliv_inv (h ++ [l]) (set_caller t k' p' s).
Proof.
  intros Hd Hl Ht Hid Hch. eapply deliv_silent; [done..| | | |done]; simpl.
  - intros t' k2 p2. rewrite lookup_insert_Some. intros [[<- [= <- <-]]|[Hne Hq]]; right; eauto 10.
  - intros t'. rewrite lookup_insert_None. tauto.
  - eauto.
Qed.

Lemma deliv_eq h s s' :
  deliv_inv h s → m_callers s' = m_callers s → m_chans s' = m_chans s →
  in_hand s' = in_hand s → deliv_inv h s'.
Proof. intros [] H1 H2 H3. split; rewrite ?H1, ?H2, ?H3; done. Qed.

Lemma deliv_new_id h s t k :
  deliv_inv h s → m_callers s !! t = Some (k, PNewId) →
  deliv_inv (h ++ [LNewId t]) (set_caller t k (PRegister (new_id s) (new_chan s)) (alloc s)).
Proof.
  intros [] Ht.
  pose proof (new_chan_fresh s) as Hf.
  assert (Hrt : recvs t h = []) by (apply dl_none0; intros; by simplify_eq).
  assert (Hrecvs : ∀ t', recvs t' (h ++ [LNewId t]) = recvs t' h)
    by (intros; by rewrite recvs_snoc, app_nil_r).
  assert (Hsends : ∀ c, sends c (h ++ [LNewId t]) = sends c h)
    by (intros; rewrite sends_snoc; simpl; by rewrite app_nil_r).
  assert (Hall : all_sends (h ++ [LNewId t]) = all_sends h) by (by rewrite all_sends_snoc, app_nil_r).
  split; simpl; setoid_rewrite Hrecvs || idtac.
  - intros t' k' p' id c. rewrite lookup_insert_Some, Hsends.
    intros [[<- [= <- <-]]|[Hne Hq]] Hp; simplify_eq/=.
    + exists (make_chan 1). rewrite lookup_insert_eq, Hrt, dl_unused0 by done. done.
    + destruct (dl_chan0 _ _ _ _ _ Hq Hp) as (ch & Hc & Heq). exists ch.
      rewrite lookup_insert_ne; [done|]. intros <-. congruence.
  - intros t' Hn. apply dl_none0. intros k' p' Hq. destruct (decide (t = t')) as [<-|Hne].
    + by simplify_eq.
    + eapply Hn. by rewrite lookup_insert_ne.
  - intros c [Hc _]%lookup_insert_None. rewrite Hsends. by apply dl_unused0.
  - intros t' k' p' id. rewrite lookup_insert_Some, Hall.
    intros [[<- [= <- <-]]|[Hne Hq]] Hp; [|by eauto].
    rewrite Hrt. split; [constructor|apply sublist_nil_l].
  - rewrite Hall, reads_snoc, app_nil_r. done.
Qed.

Lemma deliv_read h s rpc :
  deliv_inv h s → m_reader s = RRead →
  deliv_inv (h ++ [EnvRead rpc]) (set_reader (RHandle rpc) s).
Proof.
  intros [] Hr.
  assert (Hall : all_sends (h ++ [EnvRead rpc]) = all_sends h) by (by rewrite all_sends_snoc, app_nil_r).
  split; simpl.
  - intros. rewrite recvs_snoc, sends_snoc. simpl. rewrite !app_nil_r. eauto.
  - intros. rewrite recvs_snoc, app_nil_r. eauto.
  - intros. rewrite sends_snoc. simpl. rewrite app_nil_r. eauto.
  - intros. rewrite recvs_snoc, Hall, app_nil_r. eauto.
  - rewrite Hall, reads_snoc. simpl. apply sublist_app; [|done].
    unfold in_hand in dl_reads0. rewrite Hr, app_nil_r in dl_reads0. done.
Qed.

Lemma deliv_send h s rpc c ch ch' :
  mux_inv s → deliv_inv h s → m_reader s = RSend rpc c → m_chans s !! c = Some ch →
  ch_buf ch' = ch_buf ch ++ [rpc] →
  deliv_inv (h ++ [LSend rpc c]) (set_reader RRead (set_chans (<[c := ch']> (m_chans s)) s)).
Proof.
  intros Hinv [] Hr Hc Hbuf.
  assert (Hsends : ∀ c', sends c' (h ++ [LSend rpc c]) =
    sends c' h ++ if decide (c = c') then [rpc] else []).
  { intros c'. rewrite sends_snoc. f_equal. simpl. rewrite filter_cons, filter_nil. simpl.
    by repeat case_decide. }
  assert (Hall : all_sends (h ++ [LSend rpc c]) = all_sends h ++ [(rpc, c)])
    by (by rewrite all_sends_snoc).
  split; simpl.
  - intros t k p id c' Ht Hp. rewrite recvs_snoc, Hsends, app_nil_r.
    destruct (dl_chan0 _ _ _ _ _ Ht Hp) as (ch0 & Hc0 & <-).
    destruct (decide (c = c')) as [<-|Hne].
    + exists ch'. rewrite lookup_insert_eq. simplify_eq. by rewrite Hbuf, app_assoc.
    + exists ch0. rewrite lookup_insert_ne by done. by rewrite app_nil_r.
  - intros. rewrite recvs_snoc, app_nil_r. eauto.
  - intros c' [Hc' Hne]%lookup_insert_None. rewrite Hsends, decide_False, app_nil_r; auto.
  - intros t k p id Ht Hp. rewrite recvs_snoc, Hall, fmap_app, app_nil_r.
    destruct (dl_id0 _ _ _ _ Ht Hp). split; [done|]. by apply sublist_inserts_r.
  - rewrite Hall, reads_snoc, fmap_app, app_nil_r. simpl. rewrite app_nil_r.
    unfold in_hand in dl_reads0. by rewrite Hr in dl_reads0.
Qed.

Lemma sends_sublist c h : sends c h `sublist_of` (all_sends h).*1.
Proof. unfold sends. apply fmap_sublist, sublist_filter. Qed.

Lemma deliv_recv h s t k p id c ch rpc ch' :
  mux_inv s → deliv_inv h s → m_callers s !! t = Some (k, p) → recv_from p = Some (id, c) →
  m_chans s !! c = Some ch → chan_recv ch = Some (Some rpc, ch') →
  deliv_inv (h ++ [LRecv t rpc])
    (set_caller t k (after_recv (GotRpc rpc) p) (set_chans (<[c := ch']> (m_chans s)) s)).
Proof.
  intros Hinv [] Ht Hr Hc Hrecv. pose proof (recv_from_chan _ _ _ Hr) as Hpc.
  destruct (inv_recv s t k p id c ch rpc ch' Hinv Ht Hr Hc Hrecv) as [Hid _].
  apply chan_recv_Some in Hrecv as (Hbuf & _ & _).
  destruct (after_recv_ids (GotRpc rpc) p) as (Hi & Hch & _).
  assert (Hrecvs : ∀ t', recvs t' (h ++ [LRecv t rpc]) =
    recvs t' h ++ if decide (t = t') then [rpc] else []) by (intros; by rewrite recvs_snoc).
  assert (Hsends : ∀ c, sends c (h ++ [LRecv t rpc]) = sends c h)
    by (intros; rewrite sends_snoc; simpl; by rewrite app_nil_r).
  assert (Hall : all_sends (h ++ [LRecv t rpc]) = all_sends h) by (by rewrite all_sends_snoc, app_nil_r).
  destruct (dl_chan0 _ _ _ _ _ Ht Hpc) as (ch0 & Hc0 & Heq). simplify_eq.
  assert (Heq' : (recvs t h ++ [rpc]) ++ ch_buf ch' = sends c h)
    by (rewrite <-Heq, Hbuf, <-app_assoc; done).
  split; simpl.
  - intros t' k' p' id' c'. rewrite lookup_insert_Some, Hsends, Hrecvs.
    intros [[<- [= <- <-]]|[Hne Hq]] Hp.
    + rewrite Hch, Hpc in Hp. simplify_eq. exists ch'. by rewrite lookup_insert_eq, decide_True.
    + destruct (dl_chan0 _ _ _ _ _ Hq Hp) as (ch1 & Hc1 & <-). exists ch1.
      rewrite lookup_insert_ne, decide_False, app_nil_r by
        (done || (intros <-; destruct Hne; eapply (inv_chans s Hinv); eauto)). done.
  - intros t' Hn. rewrite Hrecvs. destruct (decide (t = t')) as [<-|Hne].
    + specialize (Hn k (after_recv (GotRpc rpc) p)). rewrite lookup_insert_eq in Hn.
      rewrite Hi, (pc_chan_id _ _ _ Hpc) in Hn. by specialize (Hn eq_refl).
    + rewrite app_nil_r. apply dl_none0. intros k' p' Hq. eapply Hn.
      by rewrite lookup_insert_ne.
  - intros c' [Hc' Hne]%lookup_insert_None. rewrite Hsends. auto.
  - intros t' k' p' id'. rewrite lookup_insert_Some, Hrecvs, Hall.
    intros [[<- [= <- <-]]|[Hne Hq]] Hp.
    + rewrite Hi, (pc_chan_id _ _ _ Hpc) in Hp. simplify_eq. rewrite decide_True by done.
      destruct (dl_id0 _ _ _ _ Ht (pc_chan_id _ _ _ Hpc)) as [Hf _]. split.
      * apply Forall_app. split; [done|]. by apply Forall_singleton.
      * etrans; [|apply (sends_sublist c)]. rewrite <-Heq'. by apply sublist_inserts_r.
    + rewrite decide_False, app_nil_r by done. eauto.
  - rewrite Hall, reads_snoc, app_nil_r. done.
Qed.

(** Closing channels keeps what they hold. *)
Definition keeps_bufs (cs cs' : gmap nat (chan Rpc)) : Prop :=
  ∀ c ch, cs !! c = Some ch → ∃ ch', cs' !! c = Some ch' ∧ ch_buf ch' = ch_buf ch.

Lemma close_in_bufs c cs cs' : close_in c cs = Ret cs' → keeps_bufs cs cs'.
Proof.
  unfold close_in, chan_close. destruct (cs !! c) as [ch|] eqn:E; [|done].
  destruct (ch_closed ch); [done|]. intros [= <-] c' ch' Hc'.
  destruct (decide (c = c')) as [<-|Hne].
  - rewrite lookup_insert_eq. simplify_eq. by eexists.
  - rewrite lookup_insert_ne by done. by eexists.
Qed.

Lemma close_all_bufs l cs cs' : close_all l cs = Ret cs' → keeps_bufs cs cs'.
Proof.
  revert cs. induction l as [|c l IH]; intros cs H; simplify_eq/=; [by intros c' ch; eauto|].
  destruct (close_in c cs) as [cs1|] eqn:E; simplify_eq/=.
  intros c' ch Hc. destruct (close_in_bufs _ _ _ E _ _ Hc) as (ch1 & Hc1 & <-).
  by eapply IH.
Qed.

Lemma unregisterHandler_frame id s s' :
  unregisterHandler id s = Ret s' →
  m_callers s' = m_callers s ∧ m_reader s' = m_reader s ∧ keeps_bufs (m_chans s) (m_chans s').
Proof.
  unfold unregisterHandler. destruct (m_handlers s !! id) as [c|]; simpl.
  - destruct (close_in c (m_chans s)) as [cs|] eqn:E; simpl; [|done]. intros [= <-].
    split_and!; [done..|]. by eapply close_in_bufs.
  - intros [= <-]. split_and!; [done..|]. intros c ch; eauto.
Qed.

Lemma closeError_frame ord err s s' :
  closeError ord err s = Ret s' →
  m_callers s' = m_callers s ∧ m_reader s' = m_reader s ∧ keeps_bufs (m_chans s) (m_chans s').
Proof.
  unfold closeError. destruct err as [e|]; simpl.
  - destruct (close_all ord.*2 (m_chans s)) as [cs|] eqn:E; simpl; [|done]. intros [= <-].
    split_and!; [done..|]. by eapply close_all_bufs.
  - intros [= <-]. split_and!; [done..|]. intros c ch; eauto.
Qed.

(** A silent step that changes neither callers nor the contents of channels. *)
Lemma deliv_frame h s l s' :
  deliv_inv h s → silent l → m_callers s' = m_callers s →
  keeps_bufs (m_chans s) (m_chans s') → in_hand s' `sublist_of` in_hand s →
  deliv_inv (h ++ [l]) s'.
Proof.
  intros Hd Hl Hcal Hch Hin. eapply deliv_silent; eauto; rewrite Hcal; [|done].
  intros t k p Ht. right. eauto 10.
Qed.

Lemma keeps_bufs_refl cs : keeps_bufs cs cs.
Proof. intros c ch; eauto. Qed.
#[local] Hint Resolve keeps_bufs_refl : core.

Lemma in_hand_nil s : (∀ rpc, m_reader s ≠ RHandle rpc) → mutex_free s → in_hand s = [].
Proof. unfold in_hand, mutex_free. destruct (m_reader s); naive_solver. Qed.

Lemma deliv_go h s t k :
  deliv_inv h s → m_callers s !! t = None → deliv_inv (h ++ [EnvGo t k]) (set_caller t k PCheck s).
Proof.
  intros Hd Ht. eapply deliv_silent; eauto; [done|..]; simpl.
  - intros t' k' p. rewrite lookup_insert_Some. intros [[<- [= <- <-]]|[Hne Hq]]; [|right; by eauto 10].
    left. split_and!; [done..|]. intros k2 p2 Hq. by simplify_eq.
  - intros t'. rewrite lookup_insert_None. tauto.
Qed.

Lemma deliv_unregister h s s' t k p id :
  deliv_inv h s → m_callers s !! t = Some (k, p) → unregisters p = Some id →
  unregisterHandler id s = Ret s' →
  deliv_inv (h ++ [LUnregister t]) (set_caller t k (after_unregister p) s').
Proof.
  intros Hd Ht Hu (Hcal & Hr & Hch)%unregisterHandler_frame.
  eapply deliv_silent; eauto; [done|..]; simpl; rewrite ?Hcal.
  - intros t' k' p'. rewrite lookup_insert_Some.
    intros [[<- [= <- <-]]|[Hne Hq]]; right; [|by eauto 10].
    exists k, p. split; [done|].
    destruct p as [| | | | |? ? []| |? ? ? []|]; simplify_eq/=; eauto.
  - intros t'. rewrite lookup_insert_None. tauto.
  - unfold in_hand. simpl. by rewrite Hr.
Qed.

Lemma deliv_closeError h s s' ord err :
  deliv_inv h s → closeError ord (Some err) s = Ret s' →
  deliv_inv (h ++ [LCloseError ord err]) (set_reader RStopped s').
Proof.
  intros Hd (Hcal & _ & Hch)%closeError_frame. eapply deliv_frame; eauto; [done|].
  unfold in_hand. simpl. apply sublist_nil_l.
Qed.

(** Every step keeps the delivery invariant. *)
Lemma deliv_step h s l s' :
  mux_inv s → deliv_inv h s → step (Ret s) l (Ret s') → deliv_inv (h ++ [l]) s'.
Proof.
  intros Hinv Hd Hstep. inversion Hstep; subst.
  - by apply deliv_read.
  - eapply deliv_frame; eauto; [done|]. by unfold in_hand; simpl; apply sublist_nil_l.
  - unfold handleResponse. case_match; (eapply deliv_frame; eauto; [done|]); unfold in_hand; simpl.
    + match goal with H : m_reader s = _ |- _ => by rewrite H end.
    + apply sublist_nil_l.
  - destruct r as [ch'|]; simplify_eq/=. eapply deliv_send; eauto.
    by match goal with H : chan_send _ _ = _ |- _ => apply chan_send_ok in H as (_ & ? & _) end.
  - match goal with H : _ = Ret s' |- _ => apply bind_Ret in H as (s1 & E & Hs1) end.
    injection Hs1 as <-. by apply (deliv_closeError h s s1 ord err).
  - eapply deliv_frame; eauto; done.
  - by apply deliv_go.
  - eapply deliv_set_caller; eauto; [done|..]; unfold readErrorIfDone; destruct (m_rErr s); simpl; auto.
  - by apply deliv_new_id.
  - eapply (deliv_eq _ (set_caller t k (registered k id c) s)); [|done..].
    eapply deliv_set_caller; eauto; [done|by destruct k|left; by destruct k].
  - eapply deliv_set_caller; eauto; [done|by destruct werr|left; by destruct werr].
  - by eapply deliv_recv.
  - destruct (after_recv_ids ChanClosed p) as (Hi & Hch & _).
    eapply deliv_set_caller; eauto; done.
  - eapply deliv_set_caller; eauto; done.
  - eapply deliv_set_caller; eauto; done.
  - eapply deliv_set_caller; eauto; done.
  - match goal with H : _ = Ret s' |- _ => apply bind_Ret in H as (s1 & E & Hs1) end.
    injection Hs1 as <-. by eapply deliv_unregister.
Qed.

(** ** Losslessness

    [since t h]: the Rpcs read from the transport since call [t] registered. *)
Definition is_register (t : nat) (l : label) : bool :=
  match l with LRegister t' => bool_decide (t' = t) | _ => false end.
Definition since (t : nat) (h : list label) : list Rpc :=
  foldl (λ acc l, if is_register t l then [] else acc ++ reads_of l) [] h.

Lemma since_snoc t h l :
  since t (h ++ [l]) = if is_register t l then [] else since t h ++ reads_of l.
Proof. unfold since. by rewrite foldl_app. Qed.

Definition for_id (id : Z) (l : list Rpc) : list Rpc := filter (λ rpc, rpc_Id rpc = id) l.

Definition lossless (h : list label) (s : mux) : Prop :=
  ∀ t k p id c, m_callers s !! t = Some (k, p) → pc_reg p = Some (id, c) →
    m_handlers s !! id = Some c →
    ∃ ch, m_chans s !! c = Some ch ∧
      for_id id (since t h) `suffix_of` recvs t h ++ ch_buf ch ++ for_id id (in_hand s).

(** A step that moves no Rpc and registers nobody. *)
Lemma lossless_silent h s l s' :
  lossless h s → silent l → (∀ t, is_register t l = false) →
  (∀ t k p id c, m_callers s' !! t = Some (k, p) → pc_reg p = Some (id, c) →
     m_handlers s' !! id = Some c →
     m_handlers s !! id = Some c ∧
     for_id id (in_hand s') = for_id id (in_hand s) ∧
     ∃ k' p', m_callers s !! t = Some (k', p') ∧ pc_reg p' = Some (id, c)) →
  keeps_bufs (m_chans s) (m_chans s') → lossless (h ++ [l]) s'.
Proof.
  intros Hl (Hr & Hrv & Hse) Hreg Hcal Hch t k p id c Ht Hp Hh.
  destruct (Hcal _ _ _ _ _ Ht Hp Hh) as (Hh' & -> & k' & p' & Ht' & Hp').
  destruct (Hl _ _ _ _ _ Ht' Hp' Hh') as (ch & Hc & Hsuf).
  destruct (Hch _ _ Hc) as (ch' & Hc' & Hb). exists ch'. split; [done|].
  by rewrite Hb, since_snoc, Hreg, Hr, recvs_snoc, Hrv, !app_nil_r.
Qed.

(** The silent step of one caller that keeps its registration. *)
Lemma lossless_set_caller h s l t k p k' p' :
  lossless h s → silent l → (∀ t, is_register t l = false) →
  m_callers s !! t = Some (k, p) → pc_reg p' = pc_reg p ∨ pc_reg p' = None →
  lossless (h ++ [l]) (set_caller t k' p' s).
Proof.
  intros Hl Hs Hr Ht Hp. eapply lossless_silent; eauto. simpl.
  intros t' k2 p2 id c. rewrite lookup_insert_Some.
  intros [[<- [= <- <-]]|[Hne Hq]] Hp2 Hh; (split_and!; [done..|]); [|by eauto].
  exists k, p. split; [done|]. destruct Hp; congruence.
Qed.

Lemma lossless_read h s rpc :
  lossless h s → m_reader s = RRead → lossless (h ++ [EnvRead rpc]) (set_reader (RHandle rpc) s).
Proof.
  intros Hl Hr t k p id c Ht Hp Hh. destruct (Hl _ _ _ _ _ Ht Hp Hh) as (ch & Hc & Hsuf).
  exists ch. split; [done|]. rewrite since_snoc, recvs_snoc. simpl.
  unfold for_id, in_hand in *. rewrite Hr in Hsuf. simpl in *.
  rewrite filter_app, !app_nil_r in *. rewrite app_assoc. by apply suffix_app.
Qed.

Lemma lossless_handle h s rpc :
  lossless h s → m_reader s = RHandle rpc → lossless (h ++ [LHandle rpc]) (handleResponse rpc s).
Proof.
  intros Hl Hr. unfold handleResponse. destruct (m_handlers s !! rpc_Id rpc) as [c'|] eqn:E.
  - eapply lossless_silent; eauto; [done|]. simpl. intros t k p id c Ht Hp Hh.
    split_and!; [done| |by eauto]. unfold in_hand. simpl. by rewrite Hr.
  - eapply lossless_silent; eauto; [done|]. simpl. intros t k p id c Ht Hp Hh.
    split_and!; [done| |by eauto]. unfold in_hand, for_id. simpl. rewrite Hr.
    rewrite filter_cons_False; [done|congruence].
Qed.

Lemma lossless_send h s rpc c ch ch' :
  mux_inv s → lossless h s → m_reader s = RSend rpc c → m_chans s !! c = Some ch →
  ch_buf ch' = ch_buf ch ++ [rpc] →
  lossless (h ++ [LSend rpc c]) (set_reader RRead (set_chans (<[c := ch']> (m_chans s)) s)).
Proof.
  intros Hinv Hl Hr Hc Hbuf t k p id c2 Ht Hp Hh. simpl in *.
  pose proof (inv_reader s Hinv _ _ Hr) as Hrc.
  destruct (Hl _ _ _ _ _ Ht Hp Hh) as (ch0 & Hc0 & Hsuf).
  rewrite since_snoc, recvs_snoc. simpl. rewrite !app_nil_r.
  unfold in_hand in Hsuf. rewrite Hr in Hsuf. unfold for_id in Hsuf at 2.
  destruct (decide (c = c2)) as [<-|Hne].
  - assert (rpc_Id rpc = id) as Hid by (by eapply handlers_inj).
    exists ch'. rewrite lookup_insert_eq. split; [done|]. simplify_eq.
    rewrite filter_cons_True, filter_nil in Hsuf by done.
    rewrite Hbuf. unfold in_hand. simpl. by rewrite app_nil_r.
  - exists ch0. rewrite lookup_insert_ne by done. split; [done|].
    unfold in_hand. simpl.
    rewrite filter_cons_False, filter_nil in Hsuf by (intros <-; congruence). done.
Qed.

Lemma lossless_recv h s t k p id c ch rpc ch' :
  mux_inv s → lossless h s → m_callers s !! t = Some (k, p) → recv_from p = Some (id, c) →
  m_chans s !! c = Some ch → chan_recv ch = Some (Some rpc, ch') →
  lossless (h ++ [LRecv t rpc])
    (set_caller t k (after_recv (GotRpc rpc) p) (set_chans (<[c := ch']> (m_chans s)) s)).
Proof.
  intros Hinv Hl Ht Hr Hc (Hbuf & _ & _)%chan_recv_Some t2 k2 p2 id2 c2. simpl.
  pose proof (recv_from_chan _ _ _ Hr) as Hpc. rewrite lookup_insert_Some.
  destruct (after_recv_ids (GotRpc rpc) p) as (_ & _ & Hreg).
  rewrite since_snoc, recvs_snoc. simpl. rewrite app_nil_r.
  intros [[<- [= <- <-]]|[Hne Hq]] Hp Hh.
  - rewrite Hreg in Hp by eauto. destruct (Hl _ _ _ _ _ Ht Hp Hh) as (ch0 & Hc0 & Hsuf).
    apply pc_reg_chan in Hp. simplify_eq. exists ch'.
    rewrite lookup_insert_eq, decide_True by done. split; [done|].
    rewrite Hbuf in Hsuf. by rewrite <-app_assoc.
  - destruct (Hl _ _ _ _ _ Hq Hp Hh) as (ch0 & Hc0 & Hsuf). exists ch0.
    rewrite lookup_insert_ne, decide_False, app_nil_r by
      (done || (intros <-; destruct Hne; eapply (inv_chans s Hinv); eauto using pc_reg_chan)).
    done.
Qed.

Lemma lossless_unregister h s s' t k p id :
  mux_inv s → lossless h s → m_callers s !! t = Some (k, p) → unregisters p = Some id →
  unregisterHandler id s = Ret s' → m_handlers s' = delete id (m_handlers s) →
  lossless (h ++ [LUnregister t]) (set_caller t k (after_unregister p) s').
Proof.
  intros Hinv Hl Ht Hu (Hcal & Hr & Hch)%unregisterHandler_frame Hhs.
  eapply lossless_silent; eauto; [done|]. simpl. rewrite Hcal, Hhs.
  intros t2 k2 p2 id2 c2 Hq Hp [Hne Hh]%lookup_delete_Some. split_and!; [done| |].
  - unfold in_hand. simpl. by rewrite Hr.
  - apply lookup_insert_Some in Hq as [[<- [= <- <-]]|[_ Hq]]; [|by eauto].
    exists k, p. split; [done|].
    destruct p as [| | | | |? ? []| |? ? ? []|]; simplify_eq/=; done.
Qed.

Lemma lossless_step h s l s' :
  mux_inv s → lossless h s → step (Ret s) l (Ret s') → lossless (h ++ [l]) s'.
Proof.
  intros Hinv Hd Hstep. inversion Hstep; subst.
  - by apply lossless_read.
  - eapply lossless_silent; eauto; [done|]. simpl. intros t k p id c Ht Hp Hh.
    split_and!; [done| |by eauto]. unfold in_hand. simpl.
    match goal with H : m_reader s = _ |- _ => by rewrite H end.
  - by apply lossless_handle.
  - destruct r as [ch'|]; simplify_eq/=. eapply lossless_send; eauto.
    by match goal with H : chan_send _ _ = _ |- _ => apply chan_send_ok in H as (_ & ? & _) end.
  - destruct (inv_closeError s ord err) as (s1 & E & _ & Hhs & _); [done..|].
    unfold closeError in E. simpl in E. rewrite E in *. simplify_eq/=.
    intros t k p id c Ht Hp. simpl. by rewrite Hhs, lookup_empty.
  - eapply lossless_silent; eauto 10; done.
  - eapply lossless_silent; eauto; [done|]. simpl. intros t2 k2 p id c.
    rewrite lookup_insert_Some. intros [[<- [= <- <-]]|[Hne Hq]]; [done|]. eauto 10.
  - eapply lossless_set_caller; eauto; [done|].
    unfold readErrorIfDone. by right; destruct (m_rErr s).
  - intros t2 k2 p2 id c. simpl. rewrite lookup_insert_Some.
    intros [[<- [= <- <-]]|[Hne Hq]] Hp Hh; [done|].
    destruct (Hd _ _ _ _ _ Hq Hp Hh) as (ch & Hc & Hsuf). exists ch.
    rewrite since_snoc, recvs_snoc. simpl. rewrite !app_nil_r. split; [|done].
    rewrite lookup_insert_ne; [done|]. intros <-.
    by rewrite new_chan_fresh in Hc.
  - intros t2 k2 p2 id2 c2. simpl. rewrite lookup_insert_Some, since_snoc, recvs_snoc. simpl.
    rewrite !app_nil_r. intros [[<- [= <- <-]]|[Hne Hq]] Hp Hh.
    + rewrite bool_decide_true by done.
      match goal with H : m_callers s !! t = Some _ |- _ =>
        pose proof (inv_callers s Hinv _ _ _ H) as (_ & Hlive & _) end.
      destruct (Hlive id2 c2) as (ch & Hc & _); [by destruct k; simplify_eq/=|].
      exists ch. split; [done|]. apply suffix_nil.
    + rewrite bool_decide_false by done. apply (Hd t2 k2 p2 id2 c2 Hq Hp).
      apply lookup_insert_Some in Hh as [[<- <-]|[_ Hh]]; [|done]. destruct Hne.
      by eapply (inv_ids s Hinv); eauto using pc_chan_id, pc_reg_chan.
  - eapply lossless_set_caller; eauto; [done|]. left. by destruct werr.
  - by eapply lossless_recv.
  - destruct (after_recv_ids ChanClosed p) as (_ & _ & Hreg).
    eapply lossless_set_caller; eauto; done.
  - eapply lossless_set_caller; eauto; done.
  - eapply lossless_set_caller; eauto; done.
  - eapply lossless_set_caller; eauto; done.
  - destruct (inv_unregister s id) as (s1 & E & _ & _ & _ & Hhs); [done..|].
    rewrite E in *. simplify_eq/=. by eapply lossless_unregister.
Qed.

(** ** Closed channels

    A registered caller's channel is reachable from the handlers or closed, and
    a closed channel stays closed. *)
Definition closed (cs : gmap nat (chan Rpc)) (c : nat) : Prop :=
  ∃ ch, cs !! c = Some ch ∧ ch_closed ch = true.

Lemma closed_insert cs c c' ch' :
  closed cs c → (c' = c → ch_closed ch' = true) → closed (<[c' := ch']> cs) c.
Proof.
  intros Ho Hc. unfold closed in *. destruct (decide (c' = c)) as [->|Hne].
  - rewrite lookup_insert_eq. naive_solver.
  - by rewrite lookup_insert_ne.
Qed.

Lemma close_in_closed c cs cs' :
  close_in c cs = Ret cs' → closed cs' c ∧ ∀ c', closed cs c' → closed cs' c'.
Proof.
  unfold close_in, chan_close. destruct (cs !! c) as [ch|] eqn:E; [|done].
  destruct (ch_closed ch); [done|]. intros [= <-]. split.
  - eexists. by rewrite lookup_insert_eq.
  - intros c' Hc'. by apply closed_insert.
Qed.

Lemma close_all_closed l cs cs' :
  close_all l cs = Ret cs' → (∀ c, c ∈ l → closed cs' c) ∧ ∀ c', closed cs c' → closed cs' c'.
Proof.
  revert cs. induction l as [|c l IH]; intros cs H.
  { simplify_eq/=. split; [|done]. intros c Hc. by apply not_elem_of_nil in Hc. }
  cbn [close_all] in H. apply bind_Ret in H as (cs1 & E & H).
  apply close_in_closed in E as [Hc Hm]. apply IH in H as [Hl Hm']. split; [|by eauto].
  intros c' [->|?]%elem_of_cons; eauto.
Qed.

Lemma unregisterHandler_closed id s s' :
  unregisterHandler id s = Ret s' →
  (∀ c, m_handlers s !! id = Some c → closed (m_chans s') c) ∧
  ∀ c', closed (m_chans s) c' → closed (m_chans s') c'.
Proof.
  unfold unregisterHandler. destruct (m_handlers s !! id) as [c|]; [|by intros [= <-]].
  intros (cs & [Hc Hm]%close_in_closed & [= <-])%bind_Ret. split; [|done]. by intros ? [= <-].
Qed.

Lemma closeError_closed ord err s s' :
  closeError ord (Some err) s = Ret s' →
  (∀ c, c ∈ ord.*2 → closed (m_chans s') c) ∧
  ∀ c', closed (m_chans s) c' → closed (m_chans s') c'.
Proof. unfold closeError. by intros (cs & ?%close_all_closed & [= <-])%bind_Ret. Qed.

Lemma closed_step s l s' c :
  step (Ret s) l (Ret s') → closed (m_chans s) c → closed (m_chans s') c.
Proof.
  intros Hstep Hc. inversion Hstep; subst; try done.
  - unfold handleResponse. by case_match.
  - destruct r as [ch'|]; simplify_eq/=. apply closed_insert; [done|]. intros <-.
    destruct Hc as (ch0 & ? & ?). simplify_eq.
    match goal with H : chan_send _ _ = _ |- _ => apply chan_send_ok in H as (? & _) end.
    congruence.
  - match goal with H : _ = Ret s' |- _ => apply bind_Ret in H as (s1 & E & Hs1) end.
    injection Hs1 as <-. by apply (closeError_closed ord err s s1).
  - simpl. apply closed_insert; [done|]. intros <-. destruct Hc as (ch0 & Hc & _).
    by rewrite new_chan_fresh in Hc.
  - simpl. apply closed_insert; [done|]. intros <-. destruct Hc as (ch0 & ? & ?). simplify_eq.
    match goal with H : chan_recv _ = _ |- _ => apply chan_recv_Some in H as (_ & _ & ->) end.
    done.
  - match goal with H : _ = Ret s' |- _ => apply bind_Ret in H as (s1 & E & Hs1) end.
    injection Hs1 as <-. by apply (unregisterHandler_closed id s s1 E).
Qed.

Definition wakeable (s : mux) : Prop :=
  ∀ t k p id c, m_callers s !! t = Some (k, p) → pc_reg p = Some (id, c) →
    m_handlers s !! id = Some c ∨ closed (m_chans s) c.

Lemma pc_reg_after_recv r p x :
  pc_reg (after_recv r p) = Some x → is_Some (recv_from p) → pc_reg p = Some x.
Proof. intros Hp Hr. by rewrite <-(proj2 (proj2 (after_recv_ids r p)) Hr). Qed.

Lemma pc_reg_after_unregister p x id :
  pc_reg (after_unregister p) = Some x → unregisters p = Some id → pc_reg p = Some x.
Proof. by destruct p as [| | | | |? ? []| |? ? ? []|]; intros; simplify_eq/=. Qed.

(** The registration of every caller is an old one, except after LRegister. *)
Lemma pc_reg_step s l s' t k p id c :
  step (Ret s) l (Ret s') → m_callers s' !! t = Some (k, p) → pc_reg p = Some (id, c) →
  (∃ k' p', m_callers s !! t = Some (k', p') ∧ pc_reg p' = Some (id, c)) ∨
  (l = LRegister t ∧ m_handlers s' !! id = Some c).
Proof.
  intros Hstep. inversion Hstep; subst; simpl; try (intros; left; by eauto 10);
    try (rewrite lookup_insert_Some; intros [[<- [= <- <-]]|[Hne Hq]] Hp; [|by left; eauto]).
  - unfold handleResponse. case_match; intros; left; by eauto.
  - destruct r as [ch'|]; simplify_eq/=. left; by eauto.
  - match goal with H : _ = Ret s' |- _ => apply bind_Ret in H as (s1 & E & Hs1) end.
    injection Hs1 as <-. apply (closeError_frame ord (Some err) s s1) in E as (Hcal & _).
    simpl. rewrite Hcal. left; by eauto.
  - done.
  - unfold readErrorIfDone in Hp. by destruct (m_rErr s).
  - done.
  - right. split; [done|]. simpl.
    match goal with Hp : pc_reg (registered ?k _ _) = _ |- _ => destruct k end;
      simplify_eq/=; by rewrite lookup_insert_eq.
  - left. do 2 eexists. split; [done|]. by destruct werr.
  - left. do 2 eexists. split; [done|]. by apply pc_reg_after_recv in Hp; eauto.
  - left. do 2 eexists. split; [done|]. by apply pc_reg_after_recv in Hp; eauto.
  - left. do 2 eexists. split; [done|]. done.
  - left. do 2 eexists. split; [done|]. done.
  - left. do 2 eexists. split; [done|]. done.
  - match goal with H : _ = Ret s' |- _ => apply bind_Ret in H as (s1 & E & Hs1) end.
    injection Hs1 as <-. apply unregisterHandler_frame in E as (Hcal & _). simpl. rewrite Hcal.
    rewrite lookup_insert_Some; intros [[<- [= <- <-]]|[Hne Hq]] Hp; [|by left; eauto].
    left. do 2 eexists. split; [done|].
    by eapply pc_reg_after_unregister.
Qed.

Lemma handlers_step s l s' t k p id c :
  mux_inv s → step (Ret s) l (Ret s') → m_callers s !! t = Some (k, p) →
  pc_reg p = Some (id, c) → m_handlers s !! id = Some c →
  m_handlers s' !! id = Some c ∨ closed (m_chans s') c.
Proof.
  intros Hinv Hstep Ht Hp Hh. inversion Hstep; subst; simpl; try by left.
  - left. unfold handleResponse. by case_match.
  - destruct r as [ch'|]; simplify_eq/=. by left.
  - right. match goal with H : _ = Ret s' |- _ => apply bind_Ret in H as (s1 & E & Hs1) end.
    injection Hs1 as <-. apply (closeError_closed ord err s s1) in E as [Hc _]. apply Hc.
    apply list_elem_of_fmap. exists (id, c). split; [done|].
    match goal with H : ord ≡ₚ _ |- _ => rewrite H end. by apply elem_of_map_to_list.
  - left. rewrite lookup_insert_ne; [done|]. intros <-.
    match goal with H : m_callers s !! _ = Some (_, PRegister _ _) |- _ =>
      pose proof (inv_ids s Hinv _ _ _ _ _ _ id0 H Ht eq_refl (pc_chan_id _ _ _ (pc_reg_chan _ _ _ Hp))) as <-
    end. by simplify_eq.
  - match goal with H : _ = Ret s' |- _ => apply bind_Ret in H as (s1 & E & Hs1) end.
    injection Hs1 as <-. simpl. destruct (unregisterHandler_closed _ _ _ E) as [Hc _].
    destruct (inv_unregister s id0) as (s2 & E2 & _ & _ & _ & Hhs); [done..|].
    rewrite E in E2. injection E2 as <-. rewrite Hhs. destruct (decide (id0 = id)) as [->|Hne]; [right; by apply Hc|].
    left. by rewrite lookup_delete_ne.
Qed.

Lemma wakeable_step s l s' :
  mux_inv s → wakeable s → step (Ret s) l (Ret s') → wakeable s'.
Proof.
  intros Hinv Hw Hstep t k p id c Ht Hp.
  destruct (pc_reg_step _ _ _ _ _ _ _ _ Hstep Ht Hp) as [(k' & p' & Ht' & Hp')|[_ ?]]; [|by left].
  destruct (Hw _ _ _ _ _ Ht' Hp') as [Hh|Hc]; [by eapply handlers_step|].
  right. by eapply closed_step.
Qed.

(** ** What a unary call ends with

    Until it has its answer a unary call has received nothing; the answer is the
    one Rpc it received. *)
Definition reason_rpcs (r : reason) : list Rpc :=
  match r with GotRpc rpc => [rpc] | _ => [] end.
Definition unary_recvs (p : pc) : option (list Rpc) :=
  match p with
  | PStream _ _ _ _ => None
  | PUnregister _ _ r | PDone _ r => Some (reason_rpcs r)
  | _ => Some []
  end.
Definition answered (h : list label) (s : mux) : Prop :=
  ∀ t k p l, m_callers s !! t = Some (k, p) → unary_recvs p = Some l → recvs t h = l.

Lemma answered_silent h s l s' :
  answered h s → (∀ t, recvs_of t l = []) →
  (∀ t k' p' r, m_callers s' !! t = Some (k', p') → unary_recvs p' = Some r →
     recvs t h = r ∨ ∃ k p, m_callers s !! t = Some (k, p) ∧ unary_recvs p = Some r) →
  answered (h ++ [l]) s'.
Proof.
  intros Ha Hl Hcal t k p r Ht Hp. rewrite recvs_snoc, Hl, app_nil_r.
  destruct (Hcal _ _ _ _ Ht Hp) as [?|(k' & p' & Ht' & Hp')]; [done|by eapply Ha].
Qed.

Lemma answered_set_caller h s l t k p k' p' s' :
  answered h s → (∀ t, recvs_of t l = []) → m_callers s !! t = Some (k, p) →
  m_callers s' = m_callers s → (∀ r, unary_recvs p' = Some r → unary_recvs p = Some r) →
  answered (h ++ [l]) (set_caller t k' p' s').
Proof.
  intros Ha Hl Ht Hs Hp. eapply answered_silent; [done..|]. simpl. rewrite Hs. intros t' k2 p2 r.
  rewrite lookup_insert_Some. intros [[<- [= <- <-]]|[_ ?]] ?; right; eauto.
Qed.

Lemma answered_frame h s l s' :
  answered h s → (∀ t, recvs_of t l = []) → m_callers s' = m_callers s → answered (h ++ [l]) s'.
Proof. intros Ha Hl Hs. eapply answered_silent; [done..|]. rewrite Hs. eauto. Qed.

Lemma answered_recv h s t k p id c rpc cs :
  answered h s → m_callers s !! t = Some (k, p) → recv_from p = Some (id, c) →
  answered (h ++ [LRecv t rpc]) (set_caller t k (after_recv (GotRpc rpc) p) (set_chans cs s)).
Proof.
  intros Ha Ht Hr t' k' p' r. simpl. rewrite lookup_insert_Some, recvs_snoc. simpl.
  intros [[<- [= <- <-]]|[Hne Hq]] Hp.
  - rewrite decide_True by done. destruct p as [| | | |i d| | |i d []|]; simplify_eq/=.
    by rewrite (Ha t k (PWait id c) [] Ht eq_refl).
  - rewrite decide_False, app_nil_r by done. by eapply Ha.
Qed.

Lemma answered_step h s l s' :
  deliv_inv h s → answered h s → step (Ret s) l (Ret s') → answered (h ++ [l]) s'.
Proof.
  intros Hd Ha Hstep. inversion Hstep; subst.
  - by eapply answered_frame.
  - by eapply answered_frame.
  - eapply answered_frame; [done..|]. unfold handleResponse. by case_match.
  - destruct r as [ch'|]; simplify_eq/=. by eapply answered_frame.
  - match goal with H : _ = Ret s' |- _ => apply bind_Ret in H as (s1 & E & Hs1) end.
    injection Hs1 as <-. apply (closeError_frame ord (Some err) s s1) in E as (Hcal & _).
    by eapply answered_frame.
  - by eapply answered_frame.
  - eapply answered_silent; [done..|]. simpl. intros t' k2 p2 r.
    rewrite lookup_insert_Some. intros [[<- [= <- <-]]|[_ ?]] Hp; [left|by right; eauto].
    injection Hp as <-. apply (dl_none _ _ Hd). intros. congruence.
  - eapply answered_set_caller; [done..|]. unfold readErrorIfDone. by destruct (m_rErr s).
  - by eapply answered_set_caller.
  - eapply answered_set_caller; [done..|]. by destruct k.
  - eapply answered_set_caller; [done..|]. by destruct werr.
  - by eapply answered_recv.
  - eapply answered_set_caller; [done..|]. by destruct p.
  - by eapply answered_set_caller.
  - by eapply answered_set_caller.
  - by eapply answered_set_caller.
  - match goal with H : _ = Ret s' |- _ => apply bind_Ret in H as (s1 & E & Hs1) end.
    injection Hs1 as <-. apply unregisterHandler_frame in E as (Hcal & _).
    eapply answered_set_caller; [done..|]. by destruct p as [| | | | | | |? ? ? []|].
Qed.

(** ** The invariants together *)
Record full_inv (h : list label) (s : mux) : Prop := {
  fi_mux : mux_inv s;
  fi_deliv : deliv_inv h s;
  fi_lossless : lossless h s;
  fi_wakeable : wakeable s;
  fi_answered : answered h s }.

Lemma full_inv_init : full_inv [] NewRpcMultiplexer.
Proof.
  split; [apply mux_inv_init| | | |]; [split| | |]; try done; intros *; simpl;
    try (by rewrite lookup_empty); intros; done.
Qed.

Definition hist_full (h : list label) (o : outcome mux) : Prop :=
  (Z.of_nat (length h) < 2 ^ 64)%Z →
  ∃ s, o = Ret s ∧ full_inv h s ∧ (m_streamCounter s ≤ Z.of_nat (length h))%Z.

Lemma hist_full_step h o l o' : hist_full h o → step o l o' → hist_full (h ++ [l]) o'.
Proof.
  unfold hist_full. rewrite length_app. simpl. intros Hh Hst Hlt.
  destruct Hh as (s & -> & [] & Hcnt); [lia|].
  destruct (inv_step s l o' fi_mux0 ltac:(lia) Hst) as (s' & -> & Hinv' & Hcnt').
  exists s'. split_and!; [done| |lia].
  split; eauto using deliv_step, lossless_step, wakeable_step, answered_step.
Qed.

Lemma reachable_full ls o :
  trace step init ls o → (Z.of_nat (length ls) < 2 ^ 64)%Z →
  ∃ s, o = Ret s ∧ full_inv ls s.
Proof.
  intros Htr Hlt.
  destruct (trace_history_invariant step hist_full hist_full_step [] init ls o)
    as (s & -> & ? & _); [|done..|by eauto].
  intros _. exists NewRpcMultiplexer. split_and!; [done|apply full_inv_init|done].
Qed.

(** ** What the multiplexer guarantees *)
Lemma recvs_for_id h s t k p id :
  deliv_inv h s → m_callers s !! t = Some (k, p) → pc_id p = Some id →
  recvs t h `sublist_of` for_id id (reads h).
Proof.
  intros Hd Ht Hp. destruct (dl_id _ _ Hd _ _ _ _ Ht Hp) as [Hid Hsub].
  rewrite <-(filter_all (λ rpc, rpc_Id rpc = id) (recvs t h)) by done.
  apply filter_sublist_mono. etrans; [exact Hsub|].
  etrans; [|exact (dl_reads _ _ Hd)]. by apply sublist_inserts_r.
Qed.

(** C9: however the read loop, the callers, the transport and the contexts
    interleave, no operation of the multiplexer on a response channel panics: the
    channel that the read loop sends to, and every channel that can still be
    closed, is open.  Two calls never share an id, and the response a unary call
    ends with is the only Rpc it received and one that the transport delivered
    with the id of that call (histories of fewer than 2^64 steps, so that the
    64-bit counter has not wrapped).  What CallUnaryMethod then does with the
    response, and when that panics, is [ClientConn.invoke_result]. *)
Theorem mux_safe ls o :
  trace step init ls o → (Z.of_nat (length ls) < 2 ^ 64)%Z →
  ∃ s, o = Ret s ∧
    (∀ id c, m_handlers s !! id = Some c → is_open (m_chans s) c) ∧
    (∀ rpc c, m_reader s = RSend rpc c → is_open (m_chans s) c) ∧
    (∀ t1 t2 k1 k2 p1 p2 id,
       m_callers s !! t1 = Some (k1, p1) → m_callers s !! t2 = Some (k2, p2) →
       pc_id p1 = Some id → pc_id p2 = Some id → t1 = t2) ∧
    (∀ t k id rpc, m_callers s !! t = Some (k, PDone id (GotRpc rpc)) →
       recvs t ls = [rpc] ∧ rpc ∈ for_id id (reads ls)).
Proof.
  intros Htr Hlt. destruct (reachable_full ls o Htr Hlt) as (s & -> & [Hinv Hd _ _ Ha]).
  exists s. split; [done|]. split_and!; [| |apply Hinv|].
  - intros id c Hc. by apply (inv_handlers _ Hinv id c).
  - intros rpc c Hr. by eapply (inv_handlers _ Hinv), inv_reader.
  - intros t k id rpc Ht.
    pose proof (Ha _ _ _ _ Ht eq_refl) as Hr. simpl in Hr. split; [done|].
    pose proof (recvs_for_id _ _ _ _ _ _ Hd Ht eq_refl) as Hsub. rewrite Hr in Hsub.
    eapply elem_of_sublist; [|exact Hsub]. apply list_elem_of_here.
Qed.

(** C10: what a call has received from the multiplexer are Rpcs that carry its
    id, in the order in which the transport delivered them and none twice; while
    the call is registered none of them is lost: every Rpc with its id read from
    the transport since it registered was received, waits in its channel, or is
    in the hands of the read loop. *)
Theorem mux_delivery ls s t k p id :
  trace step init ls (Ret s) → (Z.of_nat (length ls) < 2 ^ 64)%Z →
  m_callers s !! t = Some (k, p) → pc_id p = Some id →
  recvs t ls `sublist_of` for_id id (reads ls) ∧
  ∀ c, pc_reg p = Some (id, c) → m_handlers s !! id = Some c →
    ∃ ch, m_chans s !! c = Some ch ∧
      for_id id (since t ls) `suffix_of` recvs t ls ++ ch_buf ch ++ for_id id (in_hand s) ∧
      recvs t ls ++ ch_buf ch = sends c ls.
Proof.
  intros Htr Hlt Ht Hp. destruct (reachable_full ls _ Htr Hlt) as (s' & [= <-] & [_ Hd Hl _ _]).
  split; [by eapply recvs_for_id|].
  - intros c Hc Hh. destruct (Hl _ _ _ _ _ Ht Hc Hh) as (ch & Hch & Hsuf).
    destruct (dl_chan _ _ Hd _ _ _ _ _ Ht (pc_reg_chan _ _ _ Hc)) as (ch' & ? & ?).
    simplify_eq. by eexists.
Qed.

(** A caller that waits on a closed channel can always receive. *)
Lemma closed_recv s t k p id c :
  m_callers s !! t = Some (k, p) → recv_from p = Some (id, c) → closed (m_chans s) c →
  ∃ l o, (l = LRecvClosed t ∨ ∃ rpc, l = LRecv t rpc) ∧ step (Ret s) l o.
Proof.
  intros Ht Hr (ch & Hc & Hcl). destruct (ch_buf ch) as [|rpc b] eqn:E.
  - do 2 eexists. split; [by left|]. eapply step_recv_closed; eauto.
    unfold chan_recv. by rewrite E, Hcl.
  - do 2 eexists. split; [right; by eexists|]. eapply step_recv; eauto.
    unfold chan_recv. by rewrite E.
Qed.

Lemma closed_trace s ls s' c :
  trace step (Ret s) ls (Ret s') → closed (m_chans s) c → closed (m_chans s') c.
Proof.
  intros Htr Hc.
  assert (H : ∀ o, Ret s' = o → match o with Ret x => closed (m_chans x) c | _ => True end).
  { intros o <-. refine (trace_invariant step (λ o, match o with Ret x => closed (m_chans x) c | _ => True end)
      _ (Ret s) ls (Ret s') Hc Htr). intros [x|m] l [y|m'] Hx Hst; simpl; try done.
    - by eapply closed_step.
    - inversion Hst. }
  exact (H _ eq_refl).
Qed.

(** C21: when the transport fails, closeError wakes every call and stream that is
    registered at that moment: from then on, whatever happens, as long as it has
    not moved on it can take a receive step, and the error is recorded for
    every call made later. *)
Theorem mux_failure_wakes ls s ord err s1 ls' s2 t k p id c :
  trace step init ls (Ret s) → (Z.of_nat (length ls) < 2 ^ 64)%Z →
  step (Ret s) (LCloseError ord err) (Ret s1) →
  m_callers s !! t = Some (k, p) → pc_reg p = Some (id, c) →
  trace step (Ret s1) ls' (Ret s2) →
  ∀ k' p', m_callers s2 !! t = Some (k', p') → recv_from p' = Some (id, c) →
    readErrorIfDone s1 = Some err ∧
    ∃ l o, (l = LRecvClosed t ∨ ∃ rpc, l = LRecv t rpc) ∧ step (Ret s2) l o.
Proof.
  intros Htr Hlt Hst Ht Hp Htr' k' p' Ht' Hp'.
  destruct (reachable_full ls _ Htr Hlt) as (s' & [= <-] & [Hinv _ _ Hw _]).
  inversion Hst as [| | | |? ? ? Hr Hmu Hord E Heq1 Heq2| | | | | | | | | | | |]; subst.
  destruct (inv_closeError s ord err Hinv Hmu Hord) as (s1' & E & _ & Hhs & Herr & _ & _ & Hcal).
  match goal with H : _ = Ret s1 |- _ => apply bind_Ret in H as (s0 & E0 & Hs0) end.
  change (closeError ord (Some err) s = Ret s0) in E0. rewrite E in E0. simplify_eq.
  split; [done|]. eapply closed_recv; eauto. eapply closed_trace; [exact Htr'|].
  destruct (wakeable_step s _ _ Hinv Hw Hst t k p id c) as [Hh|Hc]; [by simpl; rewrite Hcal|done| |done].
  simpl in Hh. by rewrite Hhs, lookup_empty in Hh.
Qed.

Lemma send_enabled s rpc c ch :
  m_reader s = RSend rpc c → m_chans s !! c = Some ch → ch_closed ch = false →
  length (ch_buf ch) < ch_cap ch → ∃ s', step (Ret s) (LSend rpc c) (Ret s').
Proof.
  intros Hr Hc Hcl Hlen. eexists.
  apply (step_send s rpc c ch (Ret (mkChan (ch_cap ch) (ch_buf ch ++ [rpc]) false))); [done..|].
  unfold chan_send. by rewrite Hcl, decide_True.
Qed.

(** The read loop, which sends while it holds the mutex, is blocked only by
    the call the Rpc is addressed to: if its send cannot go on, that call is
    registered, and if it is still receiving then a receive step of it is
    enabled, after which the send goes on. *)
Theorem mux_send_progress ls s rpc c :
  trace step init ls (Ret s) → (Z.of_nat (length ls) < 2 ^ 64)%Z →
  m_reader s = RSend rpc c →
  (∃ s', step (Ret s) (LSend rpc c) (Ret s')) ∨
  ∃ t k p, m_callers s !! t = Some (k, p) ∧ pc_reg p = Some (rpc_Id rpc, c) ∧
    (is_Some (recv_from p) →
     ∃ r s1 s2, step (Ret s) (LRecv t r) (Ret s1) ∧ step (Ret s1) (LSend rpc c) (Ret s2)).
Proof.
  intros Htr Hlt Hr. destruct (reachable_full ls _ Htr Hlt) as (s' & [= <-] & [Hinv _ _ _ _]).
  pose proof (inv_reader s Hinv _ _ Hr) as Hh.
  destruct (inv_handlers s Hinv _ _ Hh) as ((ch & Hc & Hcl) & t & k & p & Ht & Hp).
  pose proof (inv_callers s Hinv _ _ _ Ht) as (_ & Hlive & _).
  destruct (Hlive _ _ (pc_reg_chan _ _ _ Hp)) as (ch0 & ? & _ & Hok & Hcap). simplify_eq.
  unfold chan_ok in Hok. destruct (ch_buf ch) as [|r b] eqn:E.
  - left. eapply send_enabled; eauto. rewrite E, Hcap. simpl. lia.
  - right. exists t, k, p. split_and!; [done..|]. intros [[id0 c0] Hrf].
    pose proof (recv_from_chan _ _ _ Hrf) as Hpc. apply pc_reg_chan in Hp. simplify_eq.
    assert (Hrecv : chan_recv ch = Some (Some r, mkChan (ch_cap ch) b (ch_closed ch)))
      by (unfold chan_recv; by rewrite E).
    pose proof (step_recv s t k p _ _ _ _ _ Ht Hrf Hc Hrecv) as Hst.
    match type of Hst with step _ _ (Ret ?x) =>
      destruct (send_enabled x rpc c (mkChan (ch_cap ch) b (ch_closed ch))) as [s2 Hs2] end.
    + done.
    + simpl. by rewrite lookup_insert_eq.
    + done.
    + simpl in *. lia.
    + by eexists r, _, s2.
Qed.

(** ** Concrete histories *)

(** A response to the first call. *)
Definition sample_resp : Rpc := mkRpc 1 None None (Some (mkBody (Some []))) None None.

(** A stream that has received one response while a second one waits in its
    channel and a third one in the read loop. *)
Definition sample_history : list label :=
  [EnvGo 0 Stream; LCheck 0; LNewId 0; LRegister 0;
   EnvRead sample_resp; LHandle sample_resp; LSend sample_resp 0; LRecv 0 sample_resp;
   EnvRead sample_resp; LHandle sample_resp; LSend sample_resp 0;
   EnvRead sample_resp; LHandle sample_resp].
(** The same with the transport failing instead of the third response. *)
Definition failing_history : list label := take 11 sample_history ++ [EnvReadErr EOF].

Definition sample_state : mux :=
  Eval vm_compute in default NewRpcMultiplexer (exec_run NewRpcMultiplexer sample_history).
Definition failing_state : mux :=
  Eval vm_compute in default NewRpcMultiplexer (exec_run NewRpcMultiplexer failing_history).

Lemma sample_state_trace : trace step init sample_history (Ret sample_state).
Proof. apply exec_run_trace. by vm_compute. Qed.
Lemma failing_state_trace : trace step init failing_history (Ret failing_state).
Proof. apply exec_run_trace. by vm_compute. Qed.

Lemma mux_safe_witness : ∃ s, Ret sample_state = Ret s ∧ m_streamCounter s = 1%Z.
Proof.
  destruct (mux_safe sample_history (Ret sample_state) sample_state_trace) as (s & Hs & _); [done|].
  exists s. split; [exact Hs|]. by injection Hs as <-.
Defined.

Lemma mux_delivery_witness : [sample_resp] `sublist_of` [sample_resp; sample_resp; sample_resp].
Proof.
  exact (proj1 (mux_delivery sample_history sample_state 0 Stream (PStream 1 0 true 0) 1
    sample_state_trace eq_refl eq_refl eq_refl)).
Defined.

Lemma mux_failure_wakes_witness :
  ∃ s1, readErrorIfDone s1 = Some EOF ∧
    ∃ l o, (l = LRecvClosed 0 ∨ ∃ rpc, l = LRecv 0 rpc) ∧ step (Ret s1) l o.
Proof.
  destruct (exec failing_state (LCloseError [(1%Z, 0)] EOF)) as [[s1|]|] eqn:E;
    [|by vm_compute in E..].
  exists s1. pose proof (exec_step _ _ _ E) as Hst. vm_compute in E. injection E as <-.
  exact (mux_failure_wakes failing_history failing_state [(1%Z, 0)] EOF _ [] _ 0 Stream
    (PStream 1 0 true 0) 1 0 failing_state_trace eq_refl Hst eq_refl eq_refl (trace_refl _ _)
    Stream (PStream 1 0 true 0) eq_refl eq_refl).
Defined.

Lemma mux_send_progress_witness :
  (∃ s', step (Ret sample_state) (LSend sample_resp 0) (Ret s')) ∨
  ∃ t k p, m_callers sample_state !! t = Some (k, p) ∧ pc_reg p = Some (1%Z, 0) ∧
    (is_Some (recv_from p) →
     ∃ r s1 s2, step (Ret sample_state) (LRecv t r) (Ret s1) ∧
                step (Ret s1) (LSend sample_resp 0) (Ret s2)).
Proof.
  exact (mux_send_progress sample_history sample_state sample_resp 0
    sample_state_trace eq_refl eq_refl).
Defined.
