(* ===== verification/MuxHazards.v ===== *)
(** * How the multiplexer can lose liveness

    The two hazards of internal/client/multiplexer.go: a read loop that blocks
    for ever while it holds the mutex, and a call that is never woken after the
    transport failed. *)

From S2P Require Import Prelude GoString Rpc Errors Chan Multiplexer MuxDelivery.

(** ** The wedge

    A stream whose owner has stopped reading keeps its handler until its
    teardown has run unregisterHandler, which needs the mutex; the read loop
    needs the owner to read before it gives the mutex back. *)

(** The read loop is in its send, to a full channel that nobody receives from. *)
Definition wedged (s : mux) : Prop :=
  ∃ rpc c ch, m_reader s = RSend rpc c ∧ m_chans s !! c = Some ch ∧
    chan_send rpc ch = None ∧
    ∀ t k p id, m_callers s !! t = Some (k, p) → pc_chan p = Some (id, c) →
      ∃ pend, p = PStream id c false pend.

(** Labels of the critical sections of the mutex and of the read loop. *)
Definition needs_mutex (l : label) : Prop :=
  match l with
  | EnvRead _ | EnvReadErr _ | EnvClose | LHandle _ | LSend _ _ | LCloseError _ _
  | LCheck _ | LRegister _ | LUnregister _ => True
  | _ => False
  end.

Lemma wedged_set_caller s t k p k' p' :
  wedged s → m_callers s !! t = Some (k, p) →
  (∀ id c, pc_chan p' = Some (id, c) → pc_chan p = Some (id, c)) →
  (∀ id c pend, p = PStream id c false pend → ∃ pend', p' = PStream id c false pend') →
  wedged (set_caller t k' p' s).
Proof.
  intros (rpc & c & ch & Hr & Hc & Hs & Hn) Ht Hch Hst. exists rpc, c, ch. split_and!; [done..|].
  simpl. intros t2 k2 p2 id2. rewrite lookup_insert_Some.
  intros [[<- [= <- <-]]|[Hne Hq]] Hp; [|by eapply Hn].
  destruct (Hn _ _ _ _ Ht (Hch _ _ Hp)) as [pend ->]. by eapply Hst.
Qed.

Lemma wedged_step s l o :
  wedged s → step (Ret s) l o → ¬ needs_mutex l ∧ ∃ s', o = Ret s' ∧ wedged s'.
Proof.
  intros Hw Hst. pose proof Hw as (rpc & c & ch & Hr & Hc & Hs & Hn).
  assert (Hmu : ¬ mutex_free s) by (intros Hf; by eapply mutex_free_send in Hf).
  inversion Hst; subst; try congruence; try (by destruct Hmu); (split; [by simpl; auto|]); eexists; (split; [done|]).
  - exists rpc, c, ch. split_and!; [done..|]. simpl. intros t2 k2 p2 id2.
    rewrite lookup_insert_Some. intros [[<- [= <- <-]]|[Hne Hq]]; [done|]. by eapply Hn.
  - exists rpc, c, ch. simpl.
    assert (Hne : new_chan s ≠ c) by (intros <-; by rewrite new_chan_fresh in Hc).
    split_and!; [done|by rewrite lookup_insert_ne|done|]. intros t2 k2 p2 id2.
    rewrite lookup_insert_Some. intros [[<- [= <- <-]]|[_ Hq]] Hp; [by simplify_eq/=|].
    by eapply Hn.
  - eapply wedged_set_caller; eauto; [by destruct werr|by intros].
  - match goal with Hr : recv_from ?p = Some (?id, ?c') |- _ =>
      pose proof (recv_from_chan _ _ _ Hr) as Hpc; rename c' into c2, p into q end.
    assert (Hne : c2 ≠ c).
    { intros ->. edestruct Hn as [pend Hq]; [done..|]. by subst q. }
    apply (wedged_set_caller (set_chans (<[c2 := ch']> (m_chans s)) s) _ k q); simpl; [|done|..].
    + exists rpc, c, ch. simpl. by rewrite lookup_insert_ne.
    + by destruct (after_recv_ids (GotRpc rpc0) q) as (_ & -> & _).
    + intros id2 c3 pend ->. simpl. by eexists.
  - match goal with Hr : recv_from ?p = Some _ |- _ => rename p into q end.
    eapply (wedged_set_caller s t k q); [done|done|..].
    + by destruct (after_recv_ids ChanClosed q) as (_ & -> & _).
    + intros id2 c3 pend ->. simpl. by eexists.
  - eapply wedged_set_caller; eauto. by intros.
  - eapply wedged_set_caller; eauto. intros ??? [=]. subst. by eexists.
  - eapply wedged_set_caller; eauto. intros ??? [=]. subst. by eexists.
Qed.

(** ** Which caller a label moves *)
Definition moves (l : label) : option nat :=
  match l with
  | EnvGo t _ | EnvWrite t _ | EnvCtxDone t _ | EnvStopReading t | EnvTeardown t | LCheck t
  | LNewId t | LRegister t | LRecv t _ | LRecvClosed t | LUnregister t => Some t
  | _ => None
  end.

Lemma moves_frame s l s' t :
  step (Ret s) l (Ret s') → moves l ≠ Some t → m_callers s' !! t = m_callers s !! t.
Proof.
  intros Hst Hm. inversion Hst; subst; simpl in *; try done;
    try (rewrite lookup_insert_ne; [done|congruence]).
  - unfold handleResponse. by case_match.
  - destruct r; by simplify_eq/=.
  - match goal with H : _ = Ret s' |- _ => apply bind_Ret in H as (s1 & E & Hs1) end.
    injection Hs1 as <-. simpl. by apply (closeError_frame ord (Some err) s s1) in E as (-> & _).
  - match goal with H : _ = Ret s' |- _ => apply bind_Ret in H as (s1 & E & Hs1) end.
    injection Hs1 as <-. apply unregisterHandler_frame in E as (Hcal & _). simpl.
    rewrite lookup_insert_ne, Hcal; [done|congruence].
Qed.

Lemma check_stays s l s' t k :
  step (Ret s) l (Ret s') → l ≠ LCheck t → m_callers s !! t = Some (k, PCheck) →
  m_callers s' !! t = Some (k, PCheck).
Proof.
  intros Hst Hl Ht. destruct (decide (moves l = Some t)) as [Hm|Hm].
  - inversion Hst; subst; simpl in Hm; try congruence;
      injection Hm as ->; match goal with H : m_callers s !! t = Some (_, ?p) |- _ =>
        rewrite Ht in H; injection H as <- <- end; done.
  - by rewrite (moves_frame _ _ _ _ Hst Hm).
Qed.

Lemma wedged_trace s ls o t k :
  wedged s → m_callers s !! t = Some (k, PCheck) → trace step (Ret s) ls o →
  Forall (λ l, ¬ needs_mutex l) ls ∧
  ∃ s', o = Ret s' ∧ m_callers s' !! t = Some (k, PCheck).
Proof.
  intros Hw Ht Htr. remember (Ret s) as x eqn:Hx. revert s Hw Ht Hx.
  induction Htr as [x|x l y ls z Hst Htr IH]; intros s Hw Ht ->; [by eauto|].
  destruct (wedged_step _ _ _ Hw Hst) as (Hl & s1 & -> & Hw1).
  assert (Ht1 : m_callers s1 !! t = Some (k, PCheck)).
  { eapply check_stays; eauto. by intros ->; apply Hl. }
  destruct (IH s1 Hw1 Ht1 eq_refl) as [Hf Hz]. split; [by constructor|done].
Qed.

(** ** The hazards *)

(** An Rpc with the id of the first call. *)
Definition first_resp : Rpc := mkRpc 1 None None (Some (mkBody (Some []))) None None.

(** A stream receives two responses while its owner stops reading and tears it
    down; meanwhile a unary call starts. *)
Definition wedge_history : list label :=
  [EnvGo 0 Stream; LCheck 0; LNewId 0; LRegister 0;
   EnvRead first_resp; LHandle first_resp; LSend first_resp 0;
   EnvRead first_resp; LHandle first_resp;
   EnvStopReading 0; EnvTeardown 0; EnvGo 1 Unary].

(** The read loop can block for ever while it holds the mutex: there is a
    history in which a stream's owner stops reading and calls teardown, after
    which, whatever happens, the read loop never reads again, no call passes its
    first check, Close never gets the mutex and the teardown never returns. *)
Theorem mux_wedge :
  ∃ ls s, trace step init ls (Ret s) ∧
    m_callers s !! 0 = Some (Stream, PStream 1 0 false 1) ∧
    ∀ ls' o, trace step (Ret s) ls' o →
      Forall (λ l, ¬ needs_mutex l) ls' ∧
      ∃ s', o = Ret s' ∧ m_callers s' !! 1 = Some (Unary, PCheck).
Proof.
  destruct (exec_run NewRpcMultiplexer wedge_history) as [s|] eqn:E; [|by vm_compute in E].
  pose proof (exec_run_trace _ _ _ E) as Htr. vm_compute in E. injection E as <-.
  do 2 eexists. split; [exact Htr|]. split; [done|]. intros ls' o. apply wedged_trace; [|done].
  exists first_resp, 0, (mkChan 1 [first_resp] false). split_and!; [done..|].
  intros t k p id Ht%elem_of_map_to_list Hp. vm_compute in Ht.
  repeat (apply elem_of_cons in Ht as [[= -> -> ->]|Ht]; [by simplify_eq/=; eexists|]).
  by apply elem_of_nil in Ht.
Qed.

(** ** A lost wakeup *)

(** The history of the theorem below: the call checks for an error, then the
    read loop fails and closeError runs, then the call registers. *)
Definition late_history : list label :=
  [EnvGo 0 Unary; LCheck 0; LNewId 0; EnvReadErr EOF; LCloseError [] EOF; LRegister 0;
   EnvWrite 0 None].

(** Call 0 waits on an open, empty channel and the read loop has ended. *)
Definition unheard (s : mux) : Prop :=
  m_reader s = RStopped ∧ m_callers s !! 0 = Some (Unary, PWait 1 0) ∧
  m_handlers s !! 1%Z = Some 0 ∧ m_chans s !! 0 = Some (make_chan 1).

Lemma unheard_set_caller s t k p : unheard s → t ≠ 0 → unheard (set_caller t k p s).
Proof. intros (?&?&?&?) Hne. split_and!; simpl; [done|by rewrite lookup_insert_ne|done|done]. Qed.

(** Only the context of call 0 moves it. *)
Lemma unheard_moves s l s' :
  unheard s → (∀ err, l ≠ EnvCtxDone 0 err) → step (Ret s) l (Ret s') → moves l ≠ Some 0.
Proof.
  intros (Hr & Ht & Hh & Hc) Hl Hst Hm. inversion Hst; subst; simpl in Hm; try done;
    injection Hm as ->; try (by eapply Hl); match goal with H : m_callers s !! 0 = _ |- _ =>
      rewrite Ht in H; try done; injection H as <- <- end; try done;
    match goal with H : recv_from _ = Some _ |- _ => injection H as <- <- end; simplify_eq.
Qed.

Lemma unheard_step s l s' :
  mux_inv s → unheard s → (∀ err, l ≠ EnvCtxDone 0 err) →
  step (Ret s) l (Ret s') → unheard s'.
Proof.
  intros Hinv Hu Hl Hst. pose proof (unheard_moves _ _ _ Hu Hl Hst) as Hm.
  pose proof Hu as (Hr & Ht & Hh & Hc).
  assert (Hid : ∀ t k p id, m_callers s !! t = Some (k, p) → pc_id p = Some id → t ≠ 0 → id ≠ 1%Z).
  { intros t k p id Hq Hp Hne ->. by eapply Hne, (inv_ids s Hinv t 0). }
  inversion Hst; subst; simpl in Hm; try congruence; try (apply unheard_set_caller; [|congruence]);
    try done.
  - unfold unheard in *. simpl. rewrite lookup_insert_ne; [done|]. intros Hn.
    pose proof (new_chan_fresh s). congruence.
  - unfold unheard in *. simpl. rewrite lookup_insert_ne; [done|].
    by eapply Hid; [done| |congruence].
  - unfold unheard in *. simpl. rewrite lookup_insert_ne; [done|]. intros ->. apply Hm.
    f_equal. match goal with H : recv_from _ = _ |- _ => apply recv_from_chan in H end.
    by eapply (inv_chans s Hinv t 0).
  - match goal with H : _ = Ret s' |- _ => apply bind_Ret in H as (s1 & E & Hs1) end.
    injection Hs1 as <-. apply unheard_set_caller; [|congruence].
    unfold unregisterHandler in E.
    assert (Hne : id ≠ 1%Z).
    { eapply Hid; [done| |congruence]. by destruct p as [| | | | | | |? ? ? []|]; simplify_eq/=. }
    destruct (m_handlers s !! id) as [c|] eqn:Ec; simpl in E.
    + apply bind_Ret in E as (cs & E & [= <-]). unfold close_in in E.
      destruct (m_chans s !! c) as [ch|]; [|done]. apply bind_Ret in E as (ch' & _ & [= <-]).
      unfold unheard in *. simpl. rewrite lookup_delete_ne, lookup_insert_ne; [done| |done].
      intros ->. by destruct Hne; eapply handlers_inj.
    + injection E as <-. unfold unheard in *. simpl. by rewrite lookup_delete_ne.
Qed.

Lemma unheard_trace ls0 s ls s' :
  trace step init ls0 (Ret s) → unheard s → (Z.of_nat (length (ls0 ++ ls)) < 2 ^ 64)%Z →
  Forall (λ l, ∀ err, l ≠ EnvCtxDone 0 err) ls → trace step (Ret s) ls (Ret s') → unheard s'.
Proof.
  intros Htr Hu Hlen Hf Htr'. remember (Ret s) as x eqn:Hx. remember (Ret s') as y eqn:Hy.
  revert ls0 s Htr Hu Hlen Hx Hf Hy.
  induction Htr' as [x|x l y ls z Hst Htr' IH]; intros ls0 s0 Htr Hu Hlen Hx Hf Hy;
    [by simplify_eq|]. subst x z.
  apply Forall_cons in Hf as [Hl Hf]. rewrite length_app in Hlen. simpl in Hlen.
  destruct (reachable_full ls0 (Ret s0) Htr) as (s1 & Heq & [Hinv _ _ _]); [lia|].
  injection Heq as <-.
  assert (Htr1 : trace step init (ls0 ++ [l]) y) by (eauto with goat).
  destruct (reachable_full _ _ Htr1) as (s1 & -> & _); [rewrite length_app; simpl; lia|].
  apply (IH _ s1 Htr1); [by eapply unheard_step| |done..]. rewrite !length_app. simpl. lia.
Qed.

(** A wakeup can be lost: a unary call that passed its check before
    closeError and registers after it waits on a channel that nothing closes and
    nothing sends to; until its own context is done it stays there, whatever the
    other goroutines do. *)
Theorem mux_lost_wakeup :
  ∃ ls s, trace step init ls (Ret s) ∧ readErrorIfDone s = Some EOF ∧
    m_callers s !! 0 = Some (Unary, PWait 1 0) ∧
    ∀ ls' s', trace step (Ret s) ls' (Ret s') →
      (Z.of_nat (length (ls ++ ls')) < 2 ^ 64)%Z →
      Forall (λ l, ∀ err, l ≠ EnvCtxDone 0 err) ls' →
      m_callers s' !! 0 = Some (Unary, PWait 1 0).
Proof.
  destruct (exec_run NewRpcMultiplexer late_history) as [s|] eqn:E; [|by vm_compute in E].
  pose proof (exec_run_trace _ _ _ E) as Htr. exists late_history, s.
  split; [exact Htr|]. vm_compute in E. injection E as <-. split_and!; [done..|].
  intros ls' s' Htr' Hlen Hf. eapply unheard_trace; eauto. by split_and!.
Qed.
