(* ===== verification/MuxTermination.v ===== *)
(** * The multiplexer comes to rest

    Left alone - no call is made, the transport delivers nothing, no context
    ends - the goroutines of internal/client/multiplexer.go run out of steps.
    The bound is read off the state: what the read loop still has to do, where
    every call stands, and what waits in the channels. *)

From S2P Require Import Prelude GoString Rpc Errors Chan Multiplexer MuxDelivery.

(** ** The measure *)
Definition reader_work (r : reader) : nat :=
  match r with RHandle _ => 3 | RSend _ _ => 2 | RFail _ => 1 | _ => 0 end.

(** PWrite waits for the transport; a stream's owner has only the teardowns it
    was asked for. *)
Definition pc_work (p : pc) : nat :=
  match p with
  | PCheck => 3
  | PNewId | PWait _ _ => 2
  | PRegister _ _ | PUnregister _ _ _ => 1
  | PStream _ _ _ pend => pend
  | _ => 0
  end.

Definition waiting (cs : gmap nat (chan Rpc)) : nat := map_total (λ ch, length (ch_buf ch)) cs.
Definition calls_work (cal : gmap nat (kind * pc)) : nat := map_total (λ x, pc_work x.2) cal.

Definition work (o : outcome mux) : nat :=
  match o with
  | Ret s => reader_work (m_reader s) + calls_work (m_callers s) + waiting (m_chans s)
  | Panic _ => 0
  end.

(** A stream's owner may read its closed channel as often as it likes. *)
Definition effort (l : label) : nat := match l with LRecvClosed _ => 0 | _ => 1 end.

(** ** What the operations cost *)
Lemma calls_work_update t k p k' p' cal :
  cal !! t = Some (k, p) → calls_work (<[t := (k', p')]> cal) + pc_work p = calls_work cal + pc_work p'.
Proof. intros Ht. exact (map_total_update (λ x, pc_work x.2) t (k, p) (k', p') cal Ht). Qed.

Lemma waiting_update c ch ch' cs :
  cs !! c = Some ch →
  waiting (<[c := ch']> cs) + length (ch_buf ch) = waiting cs + length (ch_buf ch').
Proof. intros Hc. exact (map_total_update (λ ch, length (ch_buf ch)) c ch ch' cs Hc). Qed.

Lemma waiting_new c ch cs :
  cs !! c = None → waiting (<[c := ch]> cs) = length (ch_buf ch) + waiting cs.
Proof. apply (map_total_insert_new (λ ch, length (ch_buf ch))). Qed.

Lemma waiting_close_in c cs cs' : close_in c cs = Ret cs' → waiting cs' = waiting cs.
Proof.
  unfold close_in, chan_close. destruct (cs !! c) as [ch|] eqn:E; [|done].
  destruct (ch_closed ch); [done|]. intros [= <-].
  pose proof (waiting_update c ch (mkChan (ch_cap ch) (ch_buf ch) true) cs E). simpl in *. lia.
Qed.

Lemma waiting_close_all l cs cs' : close_all l cs = Ret cs' → waiting cs' = waiting cs.
Proof.
  revert cs. induction l as [|c l IH]; intros cs; simpl; [by intros [= <-]|].
  intros (cs1 & E & H)%bind_Ret. rewrite (IH _ H). by eapply waiting_close_in.
Qed.

Lemma closeError_work ord err s s' :
  closeError ord (Some err) s = Ret s' →
  m_callers s' = m_callers s ∧ waiting (m_chans s') = waiting (m_chans s).
Proof.
  unfold closeError. intros (cs & E & [= <-])%bind_Ret. split; [done|]. by eapply waiting_close_all.
Qed.

Lemma unregisterHandler_work id s s' :
  unregisterHandler id s = Ret s' →
  m_callers s' = m_callers s ∧ m_reader s' = m_reader s ∧
  waiting (m_chans s') = waiting (m_chans s).
Proof.
  unfold unregisterHandler. destruct (m_handlers s !! id) as [c|]; [|by intros [= <-]].
  intros (cs & E & [= <-])%bind_Ret. split_and!; [done..|]. by eapply waiting_close_in.
Qed.

Lemma after_unregister_work p id : unregisters p = Some id → S (pc_work (after_unregister p)) ≤ pc_work p.
Proof. by destruct p as [| | | | |? ? r| |? ? ? []|]; intros; simpl; try lia. Qed.

Lemma after_recv_work r p : pc_work (after_recv r p) ≤ pc_work p.
Proof. destruct p; simpl; lia. Qed.

(** The step of one caller. *)
Lemma caller_work s t k p k' p' :
  m_callers s !! t = Some (k, p) →
  work (Ret (set_caller t k' p' s)) + pc_work p = work (Ret s) + pc_work p'.
Proof. intros Ht. pose proof (calls_work_update t k p k' p' _ Ht). simpl. lia. Qed.

(** ** Every internal step pays *)
Lemma work_step o l o' : internal l → step o l o' → effort l + work o' ≤ work o.
Proof.
  intros Hl Hst. inversion Hst; subst; try done; simpl effort.
  - (* LHandle *) unfold handleResponse.
    match goal with H : m_reader s = _ |- _ => case_match; simpl; rewrite H; simpl; lia end.
  - (* LSend *)
    match goal with H : m_reader s = _ |- _ => simpl work at 2; rewrite H end.
    destruct r as [ch'|]; simpl; [|lia].
    match goal with H : chan_send _ _ = _ |- _ => apply chan_send_ok in H as (_ & Hb & _) end.
    match goal with H : m_chans s !! c = _ |- _ =>
      pose proof (waiting_update c ch ch' _ H) as Hw end.
    rewrite Hb, length_app in Hw. simpl in Hw. lia.
  - (* LCloseError *)
    match goal with H : m_reader s = _ |- _ => simpl work at 2; rewrite H end.
    destruct (closeError ord (Some err) s) as [s'|] eqn:E; simpl; [|lia].
    apply closeError_work in E as [-> ->]. lia.
  - (* LCheck *)
    match goal with H : m_callers s !! t = _ |- _ =>
      pose proof (caller_work s t k _ k (from_option PFailed PNewId (readErrorIfDone s)) H) as Hw end.
    destruct (readErrorIfDone s); simpl in *; lia.
  - (* LNewId *)
    match goal with H : m_callers s !! t = _ |- _ =>
      pose proof (calls_work_update t k _ k (PRegister (new_id s) (new_chan s)) _ H) as Hw end.
    pose proof (waiting_new (new_chan s) (make_chan 1) _ (new_chan_fresh s)). simpl in *. lia.
  - (* LRegister *)
    match goal with H : m_callers s !! t = _ |- _ =>
      pose proof (calls_work_update t k _ k (registered k id c) _ H) as Hw end.
    destruct k; simpl in *; lia.
  - (* LRecv *)
    match goal with H : chan_recv ch = _ |- _ => apply chan_recv_Some in H as (Hb & _) end.
    match goal with H : m_chans s !! c = _ |- _ =>
      pose proof (waiting_update c ch ch' _ H) as Hw end.
    match goal with H : m_callers s !! t = _ |- _ =>
      pose proof (calls_work_update t k _ k (after_recv (GotRpc rpc) p) _ H) as Hc end.
    pose proof (after_recv_work (GotRpc rpc) p). rewrite Hb in Hw. simpl in *. lia.
  - (* LRecvClosed *)
    match goal with H : m_callers s !! t = _ |- _ =>
      pose proof (caller_work s t k _ k (after_recv ChanClosed p) H) as Hw end.
    pose proof (after_recv_work ChanClosed p). lia.
  - (* LUnregister *)
    match goal with H : m_callers s !! t = _ |- _ =>
      pose proof (calls_work_update t k _ k (after_unregister p) _ H) as Hc end.
    match goal with H : unregisters p = _ |- _ => pose proof (after_unregister_work p id H) end.
    destruct (unregisterHandler id s) as [s'|] eqn:E; simpl; [|lia].
    apply unregisterHandler_work in E as (-> & -> & ->). lia.
Qed.

(** C22: the goroutines of the multiplexer terminate: between two events of the
    environment (an Rpc or an error from the transport, a new call, the end of a
    write, a context or a stream) they take at most [work] steps, a number that
    the state determines, except for a stream's owner that goes on reading a
    channel which is already closed. *)
Theorem mux_quiesces s ls o :
  trace step (Ret s) ls o → Forall internal ls →
  sum_list_with effort ls + work o ≤ work (Ret s).
Proof. apply trace_variant, work_step. Qed.

(** The bound is met: with one response in the channel and one in the read loop,
    three steps and no more. *)
Definition rest_history : list label :=
  [LRecv 0 sample_resp; LSend sample_resp 0; LRecv 0 sample_resp].
Definition rest_state : mux :=
  Eval vm_compute in default NewRpcMultiplexer (exec_run sample_state rest_history).

Lemma mux_quiesces_witness : 3 + work (Ret rest_state) ≤ 3 ∧ work (Ret sample_state) = 3.
Proof.
  split; [|by vm_compute].
  refine (mux_quiesces sample_state rest_history (Ret rest_state) _ _).
  - apply exec_run_trace. by vm_compute.
  - by repeat constructor.
Defined.
