(* ===== verification/TestConn.v ===== *)
(** * internal/testutil/testutil.go: the transport of the tests

    [TestConn] is a transport whose other side is a test: it sends on
    [ReadChan], receives from [WriteChan], and can inject an error.  The two
    channels are unbuffered, so that an exchange is a joint step; [ErrorChan] has
    capacity 2.  Any number of goroutines use a connection; each is a program
    counter in a step relation.  Every critical section of [c.lock] is one step. *)

From S2P Require Import Prelude Rpc Errors Chan.

(** ** State *)
Inductive op := ORead | OWrite (rpc : Rpc) | OInject (err : error).

Record ReadReturn := mkReadReturn { rr_Rpc : option Rpc; rr_Err : option error }.

(** What a call returns: the Rpc of a Read, and the error. *)
Definition ret : Type := option Rpc * option error.

Inductive pc :=
  | PLock (o : op)                  (* wants the lock *)
  | PSelect (o : op)                (* a Read or a Write: in its select *)
  | PReturn (o : op) (r : ret)      (* returning: the deferred function *)
  | PInject (err : error) (n : nat) (* InjectError: n sends to ErrorChan are left *)
  | PDone (o : op) (r : ret).

Record TestConn := mkTestConn {
  tc_ErrorChan : chan error;
  tc_error : option error;
  tc_readers : Z;
  tc_writers : Z;
  tc_procs : gmap nat pc }.

Definition NewTestConn : TestConn := mkTestConn (make_chan 2) None 0 0 ∅.

Definition set_proc (t : nat) (p : pc) (c : TestConn) : TestConn :=
  mkTestConn (tc_ErrorChan c) (tc_error c) (tc_readers c) (tc_writers c) (<[t := p]> (tc_procs c)).
Definition set_ErrorChan (ch : chan error) (c : TestConn) : TestConn :=
  mkTestConn ch (tc_error c) (tc_readers c) (tc_writers c) (tc_procs c).

(** ** Critical sections *)
Definition CurrentReaders (c : TestConn) : Z := tc_readers c.
Definition CurrentWriters (c : TestConn) : Z := tc_writers c.

(** c.readers += n, or c.writers *)
Definition count (o : op) (n : Z) (c : TestConn) : TestConn :=
  match o with
  | ORead => mkTestConn (tc_ErrorChan c) (tc_error c) (tc_readers c + n) (tc_writers c) (tc_procs c)
  | OWrite _ => mkTestConn (tc_ErrorChan c) (tc_error c) (tc_readers c) (tc_writers c + n) (tc_procs c)
  | OInject _ => c
  end.

(** The first critical section of each method, and where the call goes on. *)
Definition enter (t : nat) (o : op) (c : TestConn) : TestConn :=
  match o with
  | OInject err =>
      set_proc t (PInject err 2)
        (mkTestConn (tc_ErrorChan c) (Some err) (tc_readers c) (tc_writers c) (tc_procs c))
  | _ =>
      set_proc t (match tc_error c with
                  | Some err => PReturn o (None, Some err)
                  | None => PSelect o
                  end) (count o 1 c)
  end.

(** The deferred function. *)
Definition leave (t : nat) (o : op) (r : ret) (c : TestConn) : TestConn :=
  set_proc t (PDone o r) (count o (-1) c).

(** ** Steps *)
Inductive label :=
  | EnvCall (t : nat) (o : op)
  | EnvRead (t : nat) (rr : ReadReturn)      (* the test sends on ReadChan *)
  | EnvWritten (t : nat) (rpc : Rpc)         (* the test receives from WriteChan *)
  | EnvCtx (t : nat) (err : error)           (* <-ctx.Done() *)
  | Enter (t : nat)
  | TakeError (t : nat) (err : error)        (* err := <-c.ErrorChan *)
  | SendError (t : nat) (err : error)        (* c.ErrorChan <- err *)
  | Leave (t : nat).

Inductive step : TestConn → label → TestConn → Prop :=
  | step_call c t o :
      tc_procs c !! t = None → step c (EnvCall t o) (set_proc t (PLock o) c)
  | step_enter c t o :
      tc_procs c !! t = Some (PLock o) → step c (Enter t) (enter t o c)
  | step_read c t rr :
      tc_procs c !! t = Some (PSelect ORead) →
      step c (EnvRead t rr) (set_proc t (PReturn ORead (rr_Rpc rr, rr_Err rr)) c)
  | step_written c t rpc :
      tc_procs c !! t = Some (PSelect (OWrite rpc)) →
      step c (EnvWritten t rpc) (set_proc t (PReturn (OWrite rpc) (None, None)) c)
  | step_ctx c t o err :
      tc_procs c !! t = Some (PSelect o) →
      step c (EnvCtx t err) (set_proc t (PReturn o (None, Some err)) c)
  | step_take_error c t o err ch :
      tc_procs c !! t = Some (PSelect o) → chan_recv (tc_ErrorChan c) = Some (Some err, ch) →
      step c (TakeError t err) (set_proc t (PReturn o (None, Some err)) (set_ErrorChan ch c))
  | step_send_error c t err n ch :
      tc_procs c !! t = Some (PInject err (S n)) → chan_send err (tc_ErrorChan c) = Some (Ret ch) →
      step c (SendError t err)
        (set_proc t (match n with 0 => PDone (OInject err) (None, None) | _ => PInject err n end)
           (set_ErrorChan ch c))
  | step_leave c t o r :
      tc_procs c !! t = Some (PReturn o r) → step c (Leave t) (leave t o r c).

(** ** Accounting *)
Definition in_read (p : pc) : nat :=
  match p with PSelect ORead | PReturn ORead _ => 1 | _ => 0 end.
Definition in_write (p : pc) : nat :=
  match p with PSelect (OWrite _) | PReturn (OWrite _) _ => 1 | _ => 0 end.

Definition takes_of (l : label) : list error := match l with TakeError _ err => [err] | _ => [] end.
Definition sends_of (l : label) : list error := match l with SendError _ err => [err] | _ => [] end.
(** The errors taken from ErrorChan, and those sent to it. *)
Definition takes (h : list label) : list error := h ≫= takes_of.
Definition sends (h : list label) : list error := h ≫= sends_of.

Lemma tc_takes_snoc h l : takes (h ++ [l]) = takes h ++ takes_of l.
Proof. unfold takes. by rewrite bind_app, bind_singleton. Qed.
Lemma tc_sends_snoc h l : sends (h ++ [l]) = sends h ++ sends_of l.
Proof. unfold sends. by rewrite bind_app, bind_singleton. Qed.

Record tc_inv (h : list label) (c : TestConn) : Prop := {
  ti_readers : tc_readers c = Z.of_nat (map_total in_read (tc_procs c));
  ti_writers : tc_writers c = Z.of_nat (map_total in_write (tc_procs c));
  ti_chan : chan_ok (tc_ErrorChan c) ∧ ch_cap (tc_ErrorChan c) = 2 ∧ ch_closed (tc_ErrorChan c) = false;
  ti_errors : takes h ++ ch_buf (tc_ErrorChan c) = sends h;
  ti_set : (ch_buf (tc_ErrorChan c) ≠ [] ∨ ∃ t err n, tc_procs c !! t = Some (PInject err n)) →
    tc_error c ≠ None;
  (* InjectError selects nothing *)
  ti_select t o : tc_procs c !! t = Some (PSelect o) ∨ (∃ r, tc_procs c !! t = Some (PReturn o r)) →
    ∀ err, o ≠ OInject err }.

(** One goroutine goes from [p] to [p']. *)
Lemma tc_inv_proc h c l c' t p p' :
  tc_inv h c → tc_procs c !! t = Some p → tc_procs c' = <[t := p']> (tc_procs c) →
  (tc_readers c' = tc_readers c + Z.of_nat (in_read p') - Z.of_nat (in_read p))%Z →
  (tc_writers c' = tc_writers c + Z.of_nat (in_write p') - Z.of_nat (in_write p))%Z →
  chan_ok (tc_ErrorChan c') ∧ ch_cap (tc_ErrorChan c') = 2 ∧ ch_closed (tc_ErrorChan c') = false →
  takes_of l ++ ch_buf (tc_ErrorChan c') = ch_buf (tc_ErrorChan c) ++ sends_of l →
  (tc_error c ≠ None → tc_error c' ≠ None) →
  ((∃ err n, p' = PInject err n) ∨ (ch_buf (tc_ErrorChan c') ≠ [] ∧ ch_buf (tc_ErrorChan c) = []) →
     tc_error c' ≠ None) →
  (∀ o, p' = PSelect o ∨ (∃ r, p' = PReturn o r) → ∀ err, o ≠ OInject err) →
  tc_inv (h ++ [l]) c'.
Proof.
  intros [] Ht Hp' Hr Hw Hch Herr Hset Hset' Hsel.
  pose proof (map_total_update in_read t p p' _ Ht) as Hrt.
  pose proof (map_total_update in_write t p p' _ Ht) as Hwt. split; rewrite ?Hp'.
  - lia.
  - lia.
  - done.
  - rewrite tc_takes_snoc, tc_sends_snoc, <-app_assoc, Herr, <-ti_errors0. by rewrite app_assoc.
  - intros [Hb|(t' & err & n & Ht')].
    + destruct (ch_buf (tc_ErrorChan c)) eqn:E; [by apply Hset'; right|].
      apply Hset, ti_set0. by left.
    + apply lookup_insert_Some in Ht' as [[<- ->]|[_ Ht']]; [apply Hset'; left; eauto|].
      apply Hset, ti_set0. right; eauto.
  - intros t' o. rewrite lookup_insert_Some. intros [[[<- ->]|[_ ?]]|(r & Hq)]; [by apply Hsel; left|by eauto|].
    apply lookup_insert_Some in Hq as [[<- ->]|[_ ?]]; [apply Hsel; right|]; eauto.
Qed.

(** A call leaves its select. *)
Lemma tc_inv_return h c l t o r :
  tc_inv h c → tc_procs c !! t = Some (PSelect o) → takes_of l = [] → sends_of l = [] →
  tc_inv (h ++ [l]) (set_proc t (PReturn o r) c).
Proof.
  intros Hinv Ht Htk Hsd. eapply (tc_inv_proc h c _ _ t);
    [done|done|done|destruct o; simpl; lia|destruct o; simpl; lia|apply Hinv
    |by rewrite Htk, Hsd, app_nil_r|done|by intros [(? & ? & ?)|[? ?]]|].
  intros o' [?|[? ?]]; simplify_eq. eapply (ti_select _ _ Hinv). by left.
Qed.

Lemma tc_inv_step h c l c' : tc_inv h c → step c l c' → tc_inv (h ++ [l]) c'.
Proof.
  intros Hinv Hst. pose proof (ti_select _ _ Hinv) as Hsel.
  inversion Hst as [? t o Ht|? t o Ht|? t rr Ht|? t rpc Ht|? t o err Ht|? t o err ch Ht Hrecv
                   |? t err n ch Ht Hsend|? t o r Ht]; subst; clear Hst.
  - (* EnvCall *)
    destruct Hinv. split; simpl; rewrite ?map_total_insert_new, ?tc_takes_snoc, ?tc_sends_snoc, ?app_nil_r by done;
      try done.
    + intros [?|(t' & err & n & Ht')]; [apply ti_set0; by left|].
      apply lookup_insert_Some in Ht' as [[_ ?]|[_ ?]]; [done|]. apply ti_set0. right; eauto.
    + intros t' o'. setoid_rewrite lookup_insert_Some. intros [[[_ ?]|[_ ?]]|(r & [[_ ?]|[_ ?]])]; eauto; done.
  - (* Enter *)
    destruct o as [|rpc|err].
    1,2: unfold enter; destruct (tc_error c) as [e|] eqn:E; (eapply (tc_inv_proc h c _ _ t);
      [done|done|done|simpl; lia|simpl; lia|apply Hinv|simpl; by rewrite app_nil_r|simpl; by rewrite E
      |by intros [(? & ? & ?)|[? ?]]|intros o [?|[? ?]]; by simplify_eq]).
    eapply (tc_inv_proc h c _ _ t); try done; simpl; [lia|lia|apply Hinv|by rewrite app_nil_r|].
    intros o [?|[? ?]]; by simplify_eq.
  - by apply tc_inv_return.
  - by apply tc_inv_return.
  - by apply tc_inv_return.
  - apply chan_recv_Some in Hrecv as (Hb & Hcap & Hcl). pose proof (ti_chan _ _ Hinv) as (Hok & Hc2 & Hcl2).
    eapply (tc_inv_proc h c _ _ t); simpl; rewrite ?app_nil_r; try done; try (destruct o; simpl; lia).
    + split_and!; [|congruence..]. unfold chan_ok in *. rewrite Hb, Hcap in *. simpl in Hok. lia.
    + intros [(? & ? & ?)|[? Hn]]; [done|]. by rewrite Hb in Hn.
    + intros o' [?|[? ?]]; simplify_eq. eapply Hsel. by left.
  - apply chan_send_ok in Hsend as (_ & Hb & Hcap & Hcl & Hok). pose proof (ti_chan _ _ Hinv) as (_ & Hc2 & _).
    assert (tc_error c ≠ None) as Hset by (apply (ti_set _ _ Hinv); right; eauto).
    eapply (tc_inv_proc h c _ _ t); simpl; try done; try (destruct n; simpl; lia).
    + split_and!; [done|congruence|done].
    + intros o' [?|[? ?]]; destruct n; simplify_eq.
  - eapply (tc_inv_proc h c _ _ t); [done|done|by destruct o|..].
    + destruct o; simpl; lia.
    + destruct o; simpl; lia.
    + destruct o; apply Hinv.
    + destruct o; simpl; by rewrite app_nil_r.
    + by destruct o.
    + intros [(? & ? & ?)|[? ?]]; destruct o; done.
    + intros o' [?|[? ?]]; simplify_eq.
Qed.

Lemma tc_inv_trace h c : trace step NewTestConn h c → tc_inv h c.
Proof.
  intros Htr. refine (trace_history_invariant step tc_inv tc_inv_step [] NewTestConn h c _ Htr).
  split; try done.
  - unfold chan_ok. simpl. split_and!; [lia|done..].
  - intros [?|(t & ? & ? & Ht)]; done.
  - intros t o [Ht|(r & Ht)]; done.
Qed.

(** ** An injected error *)

(** Once an error is set it stays set. *)
Lemma error_stays c l c' : step c l c' → tc_error c ≠ None → tc_error c' ≠ None.
Proof. intros Hst He. inversion Hst; subst; try done; by destruct o. Qed.

(** ... and no call that has not entered its select yet ever does. *)
Lemma no_select_step c l c' t :
  tc_error c ≠ None → step c l c' → (∀ o, tc_procs c !! t ≠ Some (PSelect o)) →
  ∀ o, tc_procs c' !! t ≠ Some (PSelect o).
Proof.
  intros He Hst Hns o Ho.
  assert (Hset : ∀ t' p m, (∀ o, p ≠ PSelect o) → m = tc_procs c →
    <[t' := p]> m !! t ≠ Some (PSelect o)).
  { intros t' p m Hp -> [[_ Heq]|[_ Heq]]%lookup_insert_Some; [by apply (Hp o)|by apply (Hns o)]. }
  inversion Hst; subst; clear Hst; simpl in Ho; try (by eapply Hset in Ho).
  - destruct o0; simpl in Ho; [destruct (tc_error c)..|]; try done; by eapply Hset in Ho.
  - destruct n; by eapply Hset in Ho.
  - destruct o0; by eapply Hset in Ho.
Qed.

Lemma no_select_trace c ls c' t :
  tc_error c ≠ None → (∀ o, tc_procs c !! t ≠ Some (PSelect o)) → trace step c ls c' →
  ∀ o, tc_procs c' !! t ≠ Some (PSelect o).
Proof.
  intros He Hns Htr. induction Htr as [|c1 l c2 ls c3 Hst Htr IH]; [done|].
  apply IH; [by eapply error_stays|]. by eapply no_select_step.
Qed.

(** The test connection's books are right: CurrentReaders and CurrentWriters are
    at any moment the numbers of the goroutines inside a Read and a Write; the
    errors that calls took from ErrorChan followed by those that wait in it, two
    at most, are those that InjectError sent, in order; and once InjectError has
    set its error no call that comes later waits for the test: it returns an
    error without looking at the channels. *)
Theorem test_conn_accounting h c :
  trace step NewTestConn h c →
  CurrentReaders c = Z.of_nat (map_total in_read (tc_procs c)) ∧
  CurrentWriters c = Z.of_nat (map_total in_write (tc_procs c)) ∧
  takes h ++ ch_buf (tc_ErrorChan c) = sends h ∧ length (ch_buf (tc_ErrorChan c)) ≤ 2 ∧
  ∀ ls c' t o, tc_error c ≠ None → tc_procs c !! t = None → trace step c ls c' →
    tc_procs c' !! t ≠ Some (PSelect o).
Proof.
  intros Htr. destruct (tc_inv_trace h c Htr) as [Hr Hw (Hok & Hcap & _) He _ _].
  split_and!; [done..| |].
  - unfold chan_ok in Hok. by rewrite Hcap in Hok.
  - intros ls c' t o Herr Ht Htr'. apply (no_select_trace c ls c' t); [done| |done].
    intros o'. by rewrite Ht.
Qed.

(** InjectError sends its error twice, one for a Read and one for a Write.  When
    no call is in its select nobody takes them, now or later, since every later
    call fails at once: a further InjectError never returns. *)
Definition wedged (t : nat) (err : error) (c : TestConn) : Prop :=
  tc_error c ≠ None ∧ length (ch_buf (tc_ErrorChan c)) = 2 ∧ ch_cap (tc_ErrorChan c) = 2 ∧
  ch_closed (tc_ErrorChan c) = false ∧ (∀ t o, tc_procs c !! t ≠ Some (PSelect o)) ∧
  tc_procs c !! t = Some (PInject err 2).

Lemma chan_send_full {A} (v : A) ch :
  ch_closed ch = false → length (ch_buf ch) = ch_cap ch → chan_send v ch = None.
Proof. unfold chan_send. intros -> ->. rewrite decide_False by lia. done. Qed.

Theorem inject_blocks t err c ls c' : wedged t err c → trace step c ls c' → wedged t err c'.
Proof.
  intros Hw Htr. induction Htr as [|c1 l c2 ls c3 Hst Htr IH]; [done|]. apply IH. clear IH Htr.
  destruct Hw as (He & Hl & Hc & Hcl & Hns & Ht).
  assert (Hch : tc_ErrorChan c2 = tc_ErrorChan c1 ∧ tc_procs c2 !! t = Some (PInject err 2)).
  { inversion Hst as [? t0 o Ht0|? t0 o Ht0|? t0 rr Ht0|? t0 rpc Ht0|? t0 o err0 Ht0|? t0 o err0 ch Ht0 _
                     |? t0 err0 n ch Ht0 Hsend|? t0 o r Ht0]; subst; try (by destruct (Hns _ _ Ht0)).
    - simpl. rewrite lookup_insert_ne by congruence. done.
    - destruct o; simpl; rewrite lookup_insert_ne by congruence; done.
    - rewrite chan_send_full in Hsend by (done || congruence). done.
    - destruct o; simpl; rewrite lookup_insert_ne by congruence; done. }
  destruct Hch as [Hch Ht2]. unfold wedged. rewrite Hch. split_and!; try done.
  - by eapply error_stays.
  - intros t'. by eapply no_select_step.
Qed.

(** ** A concrete history: a Read waits, an error is injected and wakes it; then
    another error is injected. *)
Definition tc_history : list label :=
  [EnvCall 0 ORead; Enter 0; EnvCall 1 (OInject EOF); Enter 1; SendError 1 EOF; SendError 1 EOF;
   TakeError 0 EOF; EnvCall 2 (OWrite (mkRpc 1 None None None None None)); Enter 2].
Definition tc_write : op := OWrite (mkRpc 1 None None None None None).
Definition tc_s1 : TestConn := enter 0 ORead (set_proc 0 (PLock ORead) NewTestConn).
Definition tc_s2 : TestConn := enter 1 (OInject EOF) (set_proc 1 (PLock (OInject EOF)) tc_s1).
Definition tc_s3 : TestConn := set_proc 1 (PInject EOF 1) (set_ErrorChan (mkChan 2 [EOF] false) tc_s2).
Definition tc_s4 : TestConn :=
  set_proc 1 (PDone (OInject EOF) (None, None)) (set_ErrorChan (mkChan 2 [EOF; EOF] false) tc_s3).
Definition tc_s5 : TestConn :=
  set_proc 0 (PReturn ORead (None, Some EOF)) (set_ErrorChan (mkChan 2 [EOF] false) tc_s4).
Definition tc_state : TestConn := enter 2 tc_write (set_proc 2 (PLock tc_write) tc_s5).

Lemma tc_trace : trace step NewTestConn tc_history tc_state.
Proof.
  unfold tc_history. eapply trace_step; [by apply step_call|]. eapply trace_step; [by apply step_enter|].
  eapply trace_step; [by apply step_call|]. eapply trace_step; [by apply step_enter|].
  eapply trace_step; [by apply (step_send_error tc_s2 1 EOF 1 (mkChan 2 [EOF] false))|].
  eapply trace_step; [by apply (step_send_error tc_s3 1 EOF 0 (mkChan 2 [EOF; EOF] false))|].
  eapply trace_step; [by apply (step_take_error tc_s4 0 ORead EOF (mkChan 2 [EOF] false))|].
  eapply trace_step; [by apply step_call|].
  apply trace_one. by apply (step_enter (set_proc 2 (PLock tc_write) tc_s5) 2 tc_write).
Qed.

Lemma test_conn_accounting_witness :
  CurrentReaders tc_state = 1%Z ∧ takes tc_history ++ [EOF] = sends tc_history ∧
  ∀ ls c' o, trace step tc_state ls c' → tc_procs c' !! 7 ≠ Some (PSelect o).
Proof.
  destruct (test_conn_accounting tc_history tc_state tc_trace) as (Hr & _ & He & _ & Hns).
  split; [rewrite Hr; by vm_compute|]. split; [exact He|].
  intros ls c' o Htr. exact (Hns ls c' 7 o ltac:(discriminate) eq_refl Htr).
Defined.
