(* ===== verification/Interceptors.v ===== *)
(** * chained.go: interceptor chains

    An application handler and an interceptor are foreign code; here they are
    functions into an arbitrary result type [R] (the meaning of running them),
    in which [index_panic] is Go's panic for a slice index out of range.  The
    recursive function of chained.go walks the slice with an index; the theorem
    is that it is the composition of the interceptors, outermost first. *)

From S2P Require Import Prelude.

Section chain.
(** The two arguments of a handler, the call info, and the meaning of a call:
    a unary handler takes a context and a request, a stream handler the service
    implementation and the stream. *)
Context {A B Info R : Type} (index_panic : R).

Definition handler : Type := A → B → R.
Definition interceptor : Type := A → B → Info → handler → R.

(** [interceptors[i](a, b, info, next)] *)
Definition call_at (interceptors : list interceptor) (i : nat) (a : A) (b : B) (info : Info)
    (next : handler) : R :=
  match interceptors !! i with
  | Some f => f a b info next
  | None => index_panic
  end.

(** getChainUnaryHandler and getChainStreamHandler, which differ only in the
    types of the handler's arguments.  [curr == len(interceptors)-1] is compared
    as integers, so an empty slice never satisfies it.  The recursion of the
    code is under a closure, one step per call of the handler; [fuel] bounds
    it. *)
Fixpoint getChainHandler (fuel : nat) (interceptors : list interceptor) (curr : nat)
    (info : Info) (finalHandler : handler) : handler :=
  if decide (Z.of_nat curr = Z.of_nat (length interceptors) - 1)%Z then finalHandler
  else
    match fuel with
    | 0 => λ _ _, index_panic
    | S fuel => λ a b,
        call_at interceptors (curr + 1) a b info
          (getChainHandler fuel interceptors (curr + 1) info finalHandler)
    end.

(** The interceptor that ChainUnaryInterceptor and ChainStreamInterceptor
    install.  The fuel is the number of interceptors: every step moves the index
    one to the right. *)
Definition chain (interceptors : list interceptor) : interceptor := λ a b info next,
  call_at interceptors 0 a b info
    (getChainHandler (length interceptors) interceptors 0 info next).

(** ** The reference: composition of the interceptors, first one outermost *)
Definition compose (interceptors : list interceptor) (info : Info) (h : handler) : handler :=
  foldr (λ (f : interceptor) (next : handler), λ a b, f a b info next) h interceptors.

(** Handlers are compared by what they do with every argument; an interceptor is
    expected to respect that. *)
Definition heq (h1 h2 : handler) : Prop := ∀ a b, h1 a b = h2 a b.
Definition respects (f : interceptor) : Prop :=
  ∀ a b info h1 h2, heq h1 h2 → f a b info h1 = f a b info h2.

#[export] Instance heq_equiv : Equivalence heq.
Proof. split; [by intros h a b|by intros h1 h2 H a b|by intros h1 h2 h3 H1 H2 a b; rewrite H1]. Qed.

Lemma call_at_Some interceptors i f a b info next :
  interceptors !! i = Some f → call_at interceptors i a b info next = f a b info next.
Proof. unfold call_at. by intros ->. Qed.

Lemma getChainHandler_compose fuel interceptors curr info h :
  Forall respects interceptors →
  curr < length interceptors → length interceptors ≤ curr + 1 + fuel →
  heq (getChainHandler fuel interceptors curr info h)
      (compose (drop (curr + 1) interceptors) info h).
Proof.
  intros Hres. revert curr. induction fuel as [|fuel IH]; intros curr Hc Hf a b.
  - cbn [getChainHandler]. rewrite decide_True by lia.
    by rewrite drop_ge by lia.
  - cbn [getChainHandler]. case_decide as Hl; [by rewrite drop_ge by lia|].
    destruct (lookup_lt_is_Some_2 interceptors (curr + 1)) as [f Hf1]; [lia|].
    rewrite (call_at_Some _ _ _ _ _ _ _ Hf1), (drop_S _ f) by done. cbn [compose foldr].
    eapply Forall_lookup_1 in Hres as Hfr; [|done].
    rewrite (Hfr _ _ _ _ (compose (drop (S (curr + 1)) interceptors) info h)); [done|].
    replace (S (curr + 1)) with (curr + 1 + 1) by lia. apply IH; lia.
Qed.

(** C37: a chain of at least one interceptor behaves, on every request and for
    every final handler, like the interceptors nested in their order, the first
    one outermost; the empty chain panics when it is called. *)
Theorem chain_compose interceptors info h a b :
  Forall respects interceptors →
  chain interceptors a b info h =
    if decide (interceptors = []) then index_panic else compose interceptors info h a b.
Proof.
  intros Hres. unfold chain. destruct interceptors as [|f fs]; [done|].
  rewrite decide_False by done. unfold call_at. cbn [lookup list_lookup compose foldr].
  apply Forall_cons in Hres as Hr. destruct Hr as [Hf _]. apply Hf.
  apply (getChainHandler_compose _ (f :: fs) 0 info h Hres); simpl; lia.
Qed.
End chain.

(** Two interceptors that tag the request, and a handler that records it. *)
Lemma chain_compose_witness :
  let tag n : interceptor (A:=nat) (B:=list nat) (Info:=()) (R:=list nat) :=
    λ a b _ next, next a (b ++ [n]) in
  chain [] [tag 1; tag 2; tag 3] 0 [] () (λ _ b, b) = [1; 2; 3].
Proof.
  intros tag.
  rewrite (chain_compose [] [tag 1; tag 2; tag 3] () (λ _ b, b) 0 []); [done|].
  unfold tag. repeat (first [apply Forall_nil; done|apply Forall_cons; split]);
    intros a b info h1 h2 Hh; apply Hh.
Defined.
