(* ===== verification/Server.v ===== *)
(** * server.go: services, dispatch and unary calls

    The server's registry and options, the decision the serve loop takes for
    each Rpc it reads, and [processUnaryRpc] with the handler it runs.  What
    concerns the goroutines of a connection is in file [ServerLoop]. *)

From S2P Require Import Prelude GoString Rpc Errors Metadata RequestContext Runtime TransportStream Interceptors.
Import USTS.

(** ** Application code

    A unary handler is foreign code: a strategy that calls back into the
    library, depending on the results it gets, and finally returns. *)
Inductive uprog (Msg : Type) : Type :=
  | URet (resp : option Msg) (err : option error)
  | UPanic (msg : string)
  | UDec (k : option Msg → option error → uprog Msg)       (* dec(msg) *)
  | USetHeader (md : MD) (k : option error → uprog Msg)    (* grpc.SetHeader(ctx, md) *)
  | USendHeader (md : MD) (k : option error → uprog Msg)
  | USetTrailer (md : MD) (k : option error → uprog Msg).
Arguments URet {Msg}.
Arguments UPanic {Msg}.
Arguments UDec {Msg}.
Arguments USetHeader {Msg}.
Arguments USendHeader {Msg}.
Arguments USetTrailer {Msg}.

(** A stream handler, with the stream it is given implicit. *)
Inductive sprog (Msg : Type) : Type :=
  | SRet (err : option error)
  | SPanic (msg : string)
  | SSendMsg (m : Msg) (k : option error → sprog Msg)
  | SRecvMsg (k : option Msg → option error → sprog Msg)
  | SSetHeader (md : MD) (k : option error → sprog Msg)
  | SSendHeader (md : MD) (k : option error → sprog Msg)
  | SSetTrailer (md : MD) (k : sprog Msg).
Arguments SRet {Msg}.
Arguments SPanic {Msg}.
Arguments SSendMsg {Msg}.
Arguments SRecvMsg {Msg}.
Arguments SSetHeader {Msg}.
Arguments SSendHeader {Msg}.
Arguments SSetTrailer {Msg}.

(** grpc.StreamServerInfo *)
Record StreamServerInfo := mkStreamServerInfo {
  ssi_FullMethod : string; ssi_IsClientStream : bool; ssi_IsServerStream : bool }.

Section types.
Context (Msg Impl : Type).

(** grpc.UnaryServerInterceptor; its info is the full method.  A request is the
    message that the handler decodes. *)
Definition UnaryServerInterceptor : Type :=
  interceptor (A:=Ctx) (B:=option Msg) (Info:=string) (R:=uprog Msg).
Definition StreamServerInterceptor : Type :=
  interceptor (A:=option Impl) (B:=()) (Info:=StreamServerInfo) (R:=sprog Msg).

(** grpc.MethodDesc and grpc.StreamDesc: the generated code passes the
    interceptor on to the handler itself. *)
Record MethodDesc := mkMethodDesc {
  md_MethodName : string;
  md_Handler : option Impl → Ctx → option UnaryServerInterceptor → uprog Msg }.
Record StreamDesc := mkStreamDesc {
  sd_StreamName : string;
  sd_Handler : option Impl → () → sprog Msg;
  sd_ServerStreams : bool;
  sd_ClientStreams : bool }.
(** grpc.ServiceDesc; [sdesc_HandlerType] is the type test that reflection makes. *)
Record ServiceDesc := mkServiceDesc {
  sdesc_ServiceName : string;
  sdesc_HandlerType : Impl → bool;
  sdesc_Methods : list MethodDesc;
  sdesc_Streams : list StreamDesc;
  sdesc_Metadata : string }.

Record serviceInfo := mkServiceInfo {
  si_name : string;
  si_serviceImpl : option Impl;
  si_methods : gmap string MethodDesc;
  si_streams : gmap string StreamDesc;
  si_mdata : string }.
End types.
Arguments mkMethodDesc {Msg Impl}.
Arguments md_MethodName {Msg Impl}.
Arguments md_Handler {Msg Impl}.
Arguments mkStreamDesc {Msg Impl}.
Arguments sd_StreamName {Msg Impl}.
Arguments sd_Handler {Msg Impl}.
Arguments sd_ServerStreams {Msg Impl}.
Arguments sd_ClientStreams {Msg Impl}.
Arguments mkServiceDesc {Msg Impl}.
Arguments sdesc_ServiceName {Msg Impl}.
Arguments sdesc_HandlerType {Msg Impl}.
Arguments sdesc_Methods {Msg Impl}.
Arguments sdesc_Streams {Msg Impl}.
Arguments sdesc_Metadata {Msg Impl}.
Arguments mkServiceInfo {Msg Impl}.
Arguments si_name {Msg Impl}.
Arguments si_serviceImpl {Msg Impl}.
Arguments si_methods {Msg Impl}.
Arguments si_streams {Msg Impl}.
Arguments si_mdata {Msg Impl}.

(** [srv_cancelled] is the state of the server's own context. *)
Record Server (Msg Impl Handler : Type) := mkServer {
  srv_cancelled : bool;
  srv_id : string;
  srv_services : gmap string (serviceInfo Msg Impl);
  srv_unaryInterceptor : option (UnaryServerInterceptor Msg);
  srv_streamInterceptor : option (StreamServerInterceptor Msg Impl);
  srv_statsHandlers : list Handler }.
Arguments mkServer {Msg Impl Handler}.
Arguments srv_cancelled {Msg Impl Handler}.
Arguments srv_id {Msg Impl Handler}.
Arguments srv_services {Msg Impl Handler}.
Arguments srv_unaryInterceptor {Msg Impl Handler}.
Arguments srv_streamInterceptor {Msg Impl Handler}.
Arguments srv_statsHandlers {Msg Impl Handler}.

(** ** Construction and registration *)
Section construction.
Context {Msg Impl Handler : Type}.
Abbreviation srv := (Server Msg Impl Handler).

Definition ServerOption : Type := srv → srv.

Definition UnaryInterceptor (i : UnaryServerInterceptor Msg) : ServerOption := λ s,
  mkServer (srv_cancelled s) (srv_id s) (srv_services s) (Some i) (srv_streamInterceptor s)
    (srv_statsHandlers s).
Definition StreamInterceptor (i : StreamServerInterceptor Msg Impl) : ServerOption := λ s,
  mkServer (srv_cancelled s) (srv_id s) (srv_services s) (srv_unaryInterceptor s) (Some i)
    (srv_statsHandlers s).
Definition WithServerStatsHandler (h : Handler) : ServerOption := λ s,
  mkServer (srv_cancelled s) (srv_id s) (srv_services s) (srv_unaryInterceptor s)
    (srv_streamInterceptor s) (srv_statsHandlers s ++ [h]).

(** chained.go *)
Definition ChainUnaryInterceptor (interceptors : list (UnaryServerInterceptor Msg)) : ServerOption :=
  UnaryInterceptor (chain (UPanic "index out of range") interceptors).
Definition ChainStreamInterceptor (interceptors : list (StreamServerInterceptor Msg Impl))
    : ServerOption :=
  StreamInterceptor (chain (SPanic "index out of range") interceptors).

Definition NewServer (id : string) (opts : list ServerOption) : srv :=
  foldl (λ s opt, opt s) (mkServer false id ∅ None None []) opts.

Definition Stop (s : srv) : srv :=
  mkServer true (srv_id s) (srv_services s) (srv_unaryInterceptor s)
    (srv_streamInterceptor s) (srv_statsHandlers s).

(** The loops that fill the maps of a serviceInfo: a later entry wins. *)
Definition fill {D} (name : D → string) (l : list D) : gmap string D :=
  foldl (λ m d, <[name d := d]> m) ∅ l.

Definition RegisterService (sd : ServiceDesc Msg Impl) (ss : option Impl) (s : srv) : outcome srv :=
  if from_option (λ impl, negb (sdesc_HandlerType sd impl)) false ss
  then Panic "RegisterService handler of type does not satisfy"
  else
    match srv_services s !! sdesc_ServiceName sd with
    | Some _ => Panic "RegisterService duplicate service registration"
    | None =>
        let info := mkServiceInfo (sdesc_ServiceName sd) ss
                      (fill md_MethodName (sdesc_Methods sd))
                      (fill sd_StreamName (sdesc_Streams sd)) (sdesc_Metadata sd) in
        Ret (mkServer (srv_cancelled s) (srv_id s)
               (<[sdesc_ServiceName sd := info]> (srv_services s))
               (srv_unaryInterceptor s) (srv_streamInterceptor s) (srv_statsHandlers s))
    end.
End construction.

(** ** The serve loop's decision about one Rpc *)
Inductive action (Msg Impl : Type) : Type :=
  | Ignore (why : string)
  | ToWorker (si : serviceInfo Msg Impl) (md : MethodDesc Msg Impl) (rpc : Rpc)
  | ToStream (si : serviceInfo Msg Impl) (sd : StreamDesc Msg Impl) (rpc : Rpc).
Arguments Ignore {Msg Impl}.
Arguments ToWorker {Msg Impl}.
Arguments ToStream {Msg Impl}.

Definition dispatch {Msg Impl Handler} (srv : Server Msg Impl Handler) (rpc : Rpc)
    : action Msg Impl :=
  match GetHeader (Some rpc) with
  | None => Ignore "received RPC without a header"
  | Some h =>
      match parseRawMethod (h_Method h) with
      | Err _ => Ignore "invalid header"
      | Ok (service, method) =>
          if decide (h_Destination h ≠ srv_id srv) then Ignore "invalid destination"
          else
            match srv_services srv !! service with
            | None => Ignore "unknown service"
            | Some si =>
                match si_methods si !! method with
                | Some md => ToWorker si md rpc
                | None =>
                    match si_streams si !! method with
                    | Some sd => ToStream si sd rpc
                    | None => Ignore "unhandled method"
                    end
                end
            end
      end
  end.

(** The path back through the proxies: all but the last entry of the record. *)
Definition reply_path (ProxyRecord : list string) : option (list string) :=
  if decide (1 < length ProxyRecord)
  then Some (take (length ProxyRecord - 1) ProxyRecord) else None.

(** [resetStream]: the reset that answers an Rpc. *)
Definition reset_rpc (rpc : Rpc) : Rpc :=
  let h := GetHeader (Some rpc) in
  mkRpc (rpc_Id rpc)
    (Some (mkRequestHeader (GetMethod h) [] (GetDestination h) (GetSource h) []
             (reply_path (GetProxyRecord h))))
    None None (Some (mkTrailer None)) (Some (mkReset RST_STREAM)).

(** ** processUnaryRpc *)
Section unary.
Context {Msg Impl Handler : Type}.
Context `{Unicode, MetadataPkg, StatusPkg, Codec Msg, StatsHandler Handler}.
Abbreviation srv := (Server Msg Impl Handler).

(** The [dec] function passed to the handler: the message it fills in, if any,
    its error, and the events it causes. *)
Definition dec (shs : list Handler) (ctx : Ctx) (body : option Body)
    : option Msg * option error * list (effect Msg Handler) :=
  match GetData body with
  | None => (None, None, [])
  | Some data =>
      match Unmarshal [data] with
      | Err err =>
          (None, status_Err (mkStatus codes_InvalidArgument (error_Error err) []), [])
      | Ok m => (Some m, None, notify shs ctx (StatsInPayload false (Some m) (length data)))
      end
  end.

(** The handler runs against its transport stream. *)
Fixpoint run_uprog (shs : list Handler) (ctx : Ctx) (body : option Body) (p : uprog Msg)
    : M unaryServerTransportStream (effect Msg Handler) (option Msg * option error) :=
  match p with
  | URet resp err => mret (resp, err)
  | UPanic msg => throw msg
  | UDec k =>
      let '(m, err, l) := dec shs ctx body in
      _ ← emit l; run_uprog shs ctx body (k m err)
  | USetHeader md k =>
      sts ← get; let '(sts', err) := SetHeader md sts in
      _ ← modify (λ _, sts'); run_uprog shs ctx body (k err)
  | USendHeader md k =>
      sts ← get; let '(sts', err) := SendHeader md sts in
      _ ← modify (λ _, sts'); run_uprog shs ctx body (k err)
  | USetTrailer md k =>
      sts ← get; let '(sts', err) := SetTrailer md sts in
      _ ← modify (λ _, sts'); run_uprog shs ctx body (k err)
  end.

(** The status of a handler's error, [None] for success. *)
Definition unary_status (appErr : option error) : option ResponseStatus :=
  (λ err, let '(st, ok) := status_FromError err in
          let st := if ok then st else status_FromContextError err in
          mkResponseStatus (s_Code st) (s_Message st) (s_Details st)) <$> appErr.

(** The response body and len(data); a marshalling error leaves no body. *)
Definition unary_body (resp : option Msg) : option Body * nat :=
  match resp with
  | Some m =>
      match Marshal m with
      | Ok data => (Some (mkBody (Some (Materialize data))), length data)
      | Err _ => (None, 0)
      end
  | None => (None, 0)
  end.

(** The three events every stats handler gets for the response. *)
Definition response_events (shs : list Handler) (ctx : Ctx) (method : string)
    (headers trailers : option MD) (resp : option Msg) (len : nat) : list (effect Msg Handler) :=
  shs ≫= λ sh,
    [EHandleRPC sh ctx (StatsOutHeader false method headers);
     EHandleRPC sh ctx (StatsOutPayload false resp len);
     EHandleRPC sh ctx (StatsOutTrailer false trailers)].

(** The response: [sts] holds what the handler set, [h] is the request's
    header. *)
Definition unary_response (ord : map_range) (id : Z) (h : RequestHeader) (method : string)
    (sts : unaryServerTransportStream) (resp : option Msg) (appErr : option error) : Rpc :=
  mkRpc id
    (Some (mkRequestHeader method (ToKeyValue ord [default ∅ (GetHeaders sts)])
             (h_Destination h) (h_Source h) [] (reply_path (h_ProxyRecord h))))
    (unary_status appErr) (unary_body resp).1
    (Some (mkTrailer (Some (ToKeyValue ord [default ∅ (GetTrailers sts)])))) None.

(** [now]: the clock when the context is made; [beginTime] and [clock]: the
    stamps of the stats events.  The deferred StatsEndRPC runs on a panic too.
    The context that carries the transport stream is the one the handler gets;
    the stream itself is the state of [run_uprog]. *)
Definition processUnaryRpc (now beginTime : Z) (clock : nat → Z) (ord : map_range) (s : srv)
    (clientCtx : Ctx) (info : serviceInfo Msg Impl) (md : MethodDesc Msg Impl) (rpc : Rpc)
    : list (effect Msg Handler) * outcome Rpc :=
  match GetHeader (Some rpc) with
  | None => ([], Panic "nil pointer dereference")
  | Some h =>
      match contextFromHeaders now clientCtx h with
      | (_, Some _) => ([], Panic "Server: failed to get context from headers")
      | (ctx, None) =>
          let shs := srv_statsHandlers s in
          let method := fullMethod (si_name info) (md_MethodName md) in
          let '(l1, ctx) := StatsStartServerRPC shs false beginTime method false false ctx in
          let '(sts, l2, r) :=
            run_uprog shs ctx (GetBody (Some rpc))
              (md_Handler md (si_serviceImpl info) ctx (srv_unaryInterceptor s))
              (NewUnaryServerTransportStream method) in
          match r with
          | Panic msg => (l1 ++ l2 ++ StatsEndRPC shs false beginTime None ctx clock, Panic msg)
          | Ret (resp, appErr) =>
              (l1 ++ l2 ++
               response_events shs ctx method (GetHeaders sts) (GetTrailers sts)
                 resp (unary_body resp).2 ++
               StatsEndRPC shs false beginTime appErr ctx clock,
               Ret (unary_response ord (rpc_Id rpc) h method sts resp appErr))
          end
      end
  end.
End unary.

(** ** Registration and dispatch *)
Section dispatching.
Context {Msg Impl Handler : Type}.
Abbreviation srv := (Server Msg Impl Handler).

Lemma fill_lookup {D} (name : D → string) (l : list D) k :
  fill name l !! k = last (filter (λ d, name d = k) l).
Proof.
  unfold fill. induction l as [|d l IH] using rev_ind; [apply lookup_empty|].
  rewrite foldl_app, filter_app, filter_cons, filter_nil. simpl.
  destruct (decide (name d = k)) as [<-|Hne].
  - by rewrite lookup_insert_eq, last_snoc.
  - by rewrite lookup_insert_ne, app_nil_r.
Qed.

Lemma fill_unique {D} (name : D → string) (l : list D) d :
  NoDup (name <$> l) → d ∈ l → fill name l !! name d = Some d.
Proof.
  intros Hnd Hd. rewrite fill_lookup.
  induction l as [|d' l IH]; [by apply not_elem_of_nil in Hd|].
  apply NoDup_cons in Hnd as [Hn Hnd]. rewrite filter_cons.
  apply elem_of_cons in Hd as [<-|Hd].
  - rewrite decide_True by done. rewrite filter_all_not; [done|].
    apply Forall_forall. intros x Hx Heq. apply Hn. rewrite <-Heq. by apply list_elem_of_fmap_2.
  - rewrite decide_False; [by apply IH|]. intros Heq. apply Hn. rewrite Heq.
    by apply list_elem_of_fmap_2.
Qed.

(** C18: a service that was registered is served: after RegisterService, an Rpc
    addressed to the server whose method is "/service/method" goes to the
    handler registered under that name, a unary method to a worker and a
    streaming one to its stream; registering does not change where the Rpcs of
    the services registered before go. *)
Theorem register_dispatch (s s' : srv) sd ss rpc h :
  RegisterService sd ss s = Ret s' →
  rpc_Header rpc = Some h → h_Destination h = srv_id s →
  (∀ md, NoDup (md_MethodName <$> sdesc_Methods sd) → md ∈ sdesc_Methods sd →
     slash ∉ bytes_of (md_MethodName md) →
     h_Method h = fullMethod (sdesc_ServiceName sd) (md_MethodName md) →
     ∃ si, dispatch s' rpc = ToWorker si md rpc ∧ si_serviceImpl si = ss ∧
           si_name si = sdesc_ServiceName sd) ∧
  (∀ st, NoDup (sd_StreamName <$> sdesc_Streams sd) → st ∈ sdesc_Streams sd →
     slash ∉ bytes_of (sd_StreamName st) →
     sd_StreamName st ∉ md_MethodName <$> sdesc_Methods sd →
     h_Method h = fullMethod (sdesc_ServiceName sd) (sd_StreamName st) →
     ∃ si, dispatch s' rpc = ToStream si st rpc ∧ si_serviceImpl si = ss ∧
           si_name si = sdesc_ServiceName sd) ∧
  (∀ service method, parseRawMethod (h_Method h) = Ok (service, method) →
     service ≠ sdesc_ServiceName sd → dispatch s' rpc = dispatch s rpc).
Proof.
  unfold RegisterService. intros Hreg Hh Hdst.
  destruct (from_option _ _ _); [done|]. destruct (srv_services s !! _) eqn:Es; [done|].
  injection Hreg as <-. unfold dispatch, GetHeader. simpl. rewrite Hh.
  split_and!.
  - intros md Hnd Hin Hsl Hm. rewrite Hm, parse_fullMethod by done.
    rewrite decide_False, lookup_insert_eq by tauto. simpl. rewrite fill_unique by done. by eexists.
  - intros st Hnd Hin Hsl Hn Hm. rewrite Hm, parse_fullMethod by done.
    rewrite decide_False, lookup_insert_eq by tauto. simpl. rewrite (fill_lookup md_MethodName), filter_all_not.
    + simpl. rewrite fill_unique by done. by eexists.
    + apply Forall_forall. intros x Hx Heq. apply Hn. rewrite <-Heq. by apply list_elem_of_fmap_2.
  - intros service method Hp Hne. rewrite Hp, lookup_insert_ne by done.
    done.
Qed.

(** The serve loop acts on an Rpc only if it has a header, its method parses,
    it is addressed to this server, and the method is registered; every other
    Rpc is ignored. *)
Theorem dispatch_spec (s : srv) rpc :
  match dispatch s rpc with
  | ToWorker si md rpc' =>
      rpc' = rpc ∧ ∃ h service method, rpc_Header rpc = Some h ∧
        parseRawMethod (h_Method h) = Ok (service, method) ∧ h_Destination h = srv_id s ∧
        srv_services s !! service = Some si ∧ si_methods si !! method = Some md
  | ToStream si sd rpc' =>
      rpc' = rpc ∧ ∃ h service method, rpc_Header rpc = Some h ∧
        parseRawMethod (h_Method h) = Ok (service, method) ∧ h_Destination h = srv_id s ∧
        srv_services s !! service = Some si ∧ si_methods si !! method = None ∧
        si_streams si !! method = Some sd
  | Ignore _ =>
      ∀ h service method si, rpc_Header rpc = Some h →
        parseRawMethod (h_Method h) = Ok (service, method) → h_Destination h = srv_id s →
        srv_services s !! service = Some si →
        si_methods si !! method = None ∧ si_streams si !! method = None
  end.
Proof.
  unfold dispatch, GetHeader. simpl. destruct (rpc_Header rpc) as [h|] eqn:Eh; [|by intros].
  destruct (parseRawMethod (h_Method h)) as [[service method]|e] eqn:Ep; [|intros; congruence].
  case_decide as Hd; [intros; simplify_eq; congruence|].
  assert (h_Destination h = srv_id s) by (by destruct (decide (h_Destination h = srv_id s))).
  destruct (srv_services s !! service) as [si|] eqn:Es; [|intros; simplify_eq; congruence].
  destruct (si_methods si !! method) as [md|] eqn:Em; [by split; eauto 10|].
  destruct (si_streams si !! method) as [sd|] eqn:Et; [by split; eauto 10|].
  intros ???? [= <-] Hp _ Hs. rewrite Ep in Hp. injection Hp as <- <-. rewrite Es in Hs. by injection Hs as <-.
Qed.
End dispatching.

(** ** Unary calls *)
Section unary_properties.
Context {Msg Impl Handler : Type}.
Context `{Unicode, MetadataPkg, StatusPkg, Codec Msg, StatsHandler Handler}.
Abbreviation srv := (Server Msg Impl Handler).
Implicit Types (info : serviceInfo Msg Impl) (md : MethodDesc Msg Impl).

Definition is_in_payload (ev : stats_event Msg) : Prop :=
  match ev with StatsInPayload false _ _ => True | _ => False end.

Lemma run_uprog_dec shs ctx body k sts :
  let '(m, err, l) := dec shs ctx body in
  run_uprog (Handler:=Handler) shs ctx body (UDec k) sts =
    let '(sts', l', r) := run_uprog shs ctx body (k m err) sts in (sts', l ++ l', r).
Proof.
  cbn [run_uprog]. destruct (dec shs ctx body) as [[m err] l].
  unfold mbind, M_bind, emit. by destruct (run_uprog _ _ _ _ _) as [[??]?].
Qed.

Lemma run_uprog_set shs ctx body p sts :
  match p with
  | USetHeader md k => run_uprog (Handler:=Handler) shs ctx body p sts =
      let '(sts', err) := SetHeader md sts in run_uprog shs ctx body (k err) sts'
  | USendHeader md k => run_uprog (Handler:=Handler) shs ctx body p sts =
      let '(sts', err) := SendHeader md sts in run_uprog shs ctx body (k err) sts'
  | USetTrailer md k => run_uprog (Handler:=Handler) shs ctx body p sts =
      let '(sts', err) := SetTrailer md sts in run_uprog shs ctx body (k err) sts'
  | _ => True
  end.
Proof.
  destruct p; try done; cbn [run_uprog]; unfold mbind, M_bind, get, modify; simpl.
  - destruct (SetHeader _ _) as [sts' err]. by destruct (run_uprog _ _ _ _ _) as [[??]?].
  - destruct (SendHeader _ _) as [sts' err]. by destruct (run_uprog _ _ _ _ _) as [[??]?].
  - by destruct (run_uprog _ _ _ _ _) as [[??]?].
Qed.

(** While it runs, a unary handler writes nothing and the only events it causes
    are those of the messages it decodes. *)
Lemma run_uprog_log `{EqDecision Handler} (sh : Handler) shs ctx body (p : uprog Msg) sts :
  NoDup shs →
  Forall is_in_payload (events_of sh (log_of (run_uprog shs ctx body p sts))).
Proof.
  intros Hnd. revert sts. induction p as [resp err|msg|k IH|md k IH|md k IH|md k IH];
    intros sts; try (by constructor).
  - pose proof (run_uprog_dec shs ctx body k sts) as E. unfold dec in E.
    destruct (GetData body) as [data|] eqn:Ed; [destruct (Unmarshal [data]) as [m|e]|];
      rewrite E; clear E; match goal with |- context [run_uprog _ _ _ (k ?a ?b) ?c] =>
        specialize (IH a b c); destruct (run_uprog shs ctx body (k a b) c) as [[??]?] end;
      unfold log_of in *; simpl in *; try done.
    rewrite events_of_app, events_of_notify by done. apply Forall_app. split; [|done].
    case_decide; [by apply Forall_singleton|by constructor].
  - pose proof (run_uprog_set shs ctx body (USetHeader md k) sts) as E. cbn -[run_uprog SetHeader] in E.
    destruct (SetHeader md sts) as [sts' err]. unfold log_of in *. rewrite E. apply IH.
  - pose proof (run_uprog_set shs ctx body (USendHeader md k) sts) as E. cbn -[run_uprog SendHeader] in E.
    destruct (SendHeader md sts) as [sts' err]. unfold log_of in *. rewrite E. apply IH.
  - pose proof (run_uprog_set shs ctx body (USetTrailer md k) sts) as E. cbn -[run_uprog SetTrailer] in E.
    unfold log_of in *. rewrite E. apply IH.
Qed.

(** The context a handler gets, and what running the handler gives. *)
Definition handler_ctx (now : Z) (s : srv) (clientCtx : Ctx) (method : string)
    (h : RequestHeader) : Ctx :=
  tag_all (srv_statsHandlers s) method (contextFromHeaders now clientCtx h).1.
Definition handler_run (now : Z) (s : srv) clientCtx (info : serviceInfo Msg Impl)
    (md : MethodDesc Msg Impl) rpc h :=
  let method := fullMethod (si_name info) (md_MethodName md) in
  let ctx := handler_ctx now s clientCtx method h in
  run_uprog (Msg:=Msg) (Handler:=Handler) (srv_statsHandlers s) ctx (rpc_Body rpc)
    (md_Handler md (si_serviceImpl info) ctx (srv_unaryInterceptor s))
    (NewUnaryServerTransportStream method).

Lemma contextFromHeaders_error now clientCtx h :
  (∃ e, (contextFromHeaders now clientCtx h).2 = Some e) ↔ ¬ Forall decodes (h_Headers h).
Proof.
  unfold contextFromHeaders, ToMetadata. rewrite <-(ToMetadata_loop_ok ∅).
  destruct (ToMetadata_loop ∅ (h_Headers h)) as [md|e].
  - split; [destruct (first_timeout _); naive_solver|]. intros []. by eexists.
  - split; [naive_solver|by eexists].
Qed.

(** processUnaryRpc, unfolded once. *)
Lemma processUnaryRpc_ok now b clock ord (s : srv) clientCtx info md rpc h :
  rpc_Header rpc = Some h → Forall decodes (h_Headers h) →
  let method := fullMethod (si_name info) (md_MethodName md) in
  let ctx := handler_ctx now s clientCtx method h in
  let shs := srv_statsHandlers s in
  let ctx0 := (contextFromHeaders now clientCtx h).1 in
  let l1 := (StatsStartServerRPC shs false b method false false ctx0).1 in
  let '(sts, l2, r) := handler_run now s clientCtx info md rpc h in
  processUnaryRpc now b clock ord s clientCtx info md rpc =
    match r with
    | Panic msg => (l1 ++ l2 ++ StatsEndRPC shs false b None ctx clock, Panic msg)
    | Ret (resp, appErr) =>
        (l1 ++ l2 ++ response_events shs ctx method (GetHeaders sts) (GetTrailers sts)
                       resp (unary_body resp).2 ++ StatsEndRPC shs false b appErr ctx clock,
         Ret (unary_response ord (rpc_Id rpc) h method sts resp appErr))
    end.
Proof.
  intros Hh Hd. unfold processUnaryRpc, handler_run, handler_ctx. simpl. rewrite Hh.
  destruct (contextFromHeaders now clientCtx h) as [ctx0 [e|]] eqn:E; simpl.
  { exfalso. apply (proj1 (contextFromHeaders_error now clientCtx h)); [|done].
    rewrite E. by eexists. }
  pose proof (StatsStartServerRPC_ctx (Msg:=Msg) (srv_statsHandlers s) false b
    (fullMethod (si_name info) (md_MethodName md)) false false ctx0) as Hctx.
  destruct (StatsStartServerRPC _ _ _ _ _ _ _) as [l1 ctx]. simpl in Hctx. subst ctx. simpl.
  destruct (run_uprog _ _ _ _ _) as [[sts l2] [[resp appErr]|msg]]; done.
Qed.

Lemma response_events_sent (shs : list Handler) ctx m hd tr (resp : option Msg) n :
  sent (response_events shs ctx m hd tr resp n) = [].
Proof.
  unfold response_events. induction shs as [|sh shs IH]; [done|].
  by rewrite bind_cons, sent_app, IH.
Qed.

(** C17: the response to a unary call carries the request's id, goes back to its
    source through the proxies it came by, holds the headers and trailers the
    handler set, and a status if and only if the handler returned an error; the
    body is the marshalled reply.  But when a request header does not decode
    (bad base64 in a "-bin" header) the server process panics, before any stats
    event, whatever the handler. *)
Theorem processUnaryRpc_spec now b clock ord (s : srv) clientCtx info md rpc h :
  rpc_Header rpc = Some h →
  (¬ Forall decodes (h_Headers h) →
     ∃ msg, processUnaryRpc now b clock ord s clientCtx info md rpc = ([], Panic msg)) ∧
  (Forall decodes (h_Headers h) →
     ∀ sts l resp appErr,
       handler_run now s clientCtx info md rpc h = (sts, l, Ret (resp, appErr)) →
       ∃ log, processUnaryRpc now b clock ord s clientCtx info md rpc =
         (log, Ret (mkRpc (rpc_Id rpc)
            (Some (mkRequestHeader (fullMethod (si_name info) (md_MethodName md))
               (ToKeyValue ord [default ∅ (GetHeaders sts)])
               (h_Destination h) (h_Source h) []
               (if decide (1 < length (h_ProxyRecord h))
                then Some (take (length (h_ProxyRecord h) - 1) (h_ProxyRecord h)) else None)))
            (unary_status appErr)
            (match resp with
             | Some m => match Marshal m with
                         | Ok data => Some (mkBody (Some (Materialize data)))
                         | Err _ => None
                         end
             | None => None
             end)
            (Some (mkTrailer (Some (ToKeyValue ord [default ∅ (GetTrailers sts)])))) None)) ∧
       sent log = sent l ∧ (unary_status appErr = None ↔ appErr = None)).
Proof.
  intros Hh. split.
  - intros Hd. apply (contextFromHeaders_error now clientCtx) in Hd as [e He].
    unfold processUnaryRpc. simpl. rewrite Hh.
    destruct (contextFromHeaders now clientCtx h) as [ctx0 [e'|]]; [by eexists|done].
  - intros Hd sts l resp appErr Hrun.
    pose proof (processUnaryRpc_ok now b clock ord s clientCtx info md rpc h Hh Hd) as Hp.
    cbv zeta in Hp. rewrite Hrun in Hp. rewrite Hp. eexists. split_and!.
    + unfold unary_response, unary_body, reply_path. do 2 f_equal.
      destruct resp as [m|]; [|done]. by destruct (Marshal m).
    + rewrite !sent_app, StatsStartServerRPC_sent, StatsEndRPC_sent, app_nil_r. simpl.
      by rewrite response_events_sent, app_nil_r.
    + destruct appErr as [e|]; [|done]. simpl. split; [|done].
      by destruct (status_FromError e).
Qed.

Lemma response_events_of `{EqDecision Handler} (sh : Handler) shs ctx m hd tr (resp : option Msg) n :
  NoDup shs →
  events_of sh (response_events shs ctx m hd tr resp n) =
    if decide (sh ∈ shs)
    then [StatsOutHeader false m hd; StatsOutPayload false resp n; StatsOutTrailer false tr] else [].
Proof.
  unfold response_events. induction 1 as [|sh' shs Hn Hnd IH].
  { by rewrite decide_False by set_solver. }
  rewrite bind_cons, events_of_app, IH. rewrite !events_of_cons. simpl.
  destruct (decide (sh' = sh)) as [->|Hne].
  - rewrite decide_False, decide_True by set_solver. done.
  - repeat case_decide; set_solver.
Qed.

(** Every stats handler sees a well-formed sequence of events for a unary
    call: first Begin and InHeader (with the request's metadata), then one
    InPayload for each message the handler decodes, then, if the handler
    returned, OutHeader, OutPayload and OutTrailer, and last exactly one End,
    which reports the handler's error; End comes also when the handler panics. *)
Theorem unary_stats_events `{EqDecision Handler} now b clock ord (s : srv) clientCtx info md rpc h sh m0 :
  rpc_Header rpc = Some h → ToMetadata (h_Headers h) = Ok m0 →
  NoDup (srv_statsHandlers s) → sh ∈ srv_statsHandlers s →
  let method := fullMethod (si_name info) (md_MethodName md) in
  let '(log, r) := processUnaryRpc now b clock ord s clientCtx info md rpc in
  ∃ payloads t, Forall is_in_payload payloads ∧
    match r with
    | Ret resp =>
        ∃ hd msg n tr appErr, rpc_Status resp = unary_status appErr ∧
          events_of sh log =
            [StatsBegin false b false false; StatsInHeader false method (Some m0)] ++ payloads ++
            [StatsOutHeader false method hd; StatsOutPayload false msg n; StatsOutTrailer false tr;
             StatsEnd false b t (end_error appErr)]
    | Panic _ =>
        events_of sh log =
          [StatsBegin false b false false; StatsInHeader false method (Some m0)] ++ payloads ++
          [StatsEnd false b t None]
    end.
Proof.
  intros Hh Hmd Hnd Hin method.
  assert (Hd : Forall decodes (h_Headers h)) by (apply (ToMetadata_loop_ok ∅); by eexists).
  pose proof (processUnaryRpc_ok now b clock ord s clientCtx info md rpc h Hh Hd) as Hp.
  cbv zeta in Hp. unfold handler_run in Hp. fold method in Hp.
  set (ctx := handler_ctx now s clientCtx method h) in *.
  pose proof (run_uprog_log sh (srv_statsHandlers s) ctx (rpc_Body rpc)
    (md_Handler md (si_serviceImpl info) ctx (srv_unaryInterceptor s))
    (NewUnaryServerTransportStream method) Hnd) as Hin_p.
  assert (Hst : ctx_incoming (contextFromHeaders now clientCtx h).1 = Some m0).
  { unfold contextFromHeaders. rewrite Hmd. by destruct (first_timeout _). }
  pose proof (StatsStartServerRPC_events (Msg:=Msg) sh (srv_statsHandlers s) false b method false false
    (contextFromHeaders now clientCtx h).1 Hnd Hin) as Hstart.
  rewrite Hst in Hstart. unfold start_events in Hstart. simpl in Hstart.
  destruct (run_uprog _ _ _ _ _) as [[sts l2] [[resp appErr]|msg]]; rewrite Hp; clear Hp;
    unfold log_of in Hin_p; simpl in Hin_p; exists (events_of sh l2).
  - destruct (stats_end_loop_events (Msg:=Msg) 0 sh (srv_statsHandlers s) false b appErr ctx clock Hnd)
      as [t Ht]. rewrite decide_True in Ht by done.
    exists t. split; [done|]. do 4 eexists. exists appErr. split; [done|].
    rewrite !events_of_app, Hstart, response_events_of, decide_True by done.
    unfold StatsEndRPC. rewrite Ht. done.
  - destruct (stats_end_loop_events (Msg:=Msg) 0 sh (srv_statsHandlers s) false b None ctx clock Hnd)
      as [t Ht]. rewrite decide_True in Ht by done.
    exists t. split; [done|]. rewrite !events_of_app, Hstart.
    unfold StatsEndRPC. by rewrite Ht.
Qed.
End unary_properties.

(** ** Concrete calls *)
Module ServerExample.
Import RuntimeModel.
#[local] Existing Instances codec stats StatusModel.pkg MetadataModel.Join MetadataModel.no_unicode.

(** A service with one method, which sets a header and echoes its request, and
    one stream. *)
Definition echo : MethodDesc Msg () :=
  mkMethodDesc "Echo" (λ _ _ _, UDec (λ m _, USetHeader {["k" := ["v"]]} (λ _, URet m None))).
Definition watch : StreamDesc Msg () := mkStreamDesc "Watch" (λ _ _, SRet None) true false.
Definition desc : ServiceDesc Msg () := mkServiceDesc "pkg.Svc" (λ _, true) [echo] [watch] "".
Definition server0 : Server Msg () nat := NewServer "srv" [WithServerStatsHandler 7].
Definition server1 : Server Msg () nat :=
  match RegisterService desc (Some ()) server0 with Ret s => s | Panic _ => server0 end.
Definition request_header (hs : list KeyValue) : RequestHeader :=
  mkRequestHeader "/pkg.Svc/Echo" hs "cli" "srv" ["p1"; "p2"] None.
Definition request (hs : list KeyValue) : Rpc :=
  mkRpc 3 (Some (request_header hs)) None (Some (mkBody (Some [Byte.x61]))) None None.
Definition info : serviceInfo Msg () :=
  mkServiceInfo "pkg.Svc" (Some ()) (fill md_MethodName [echo]) (fill sd_StreamName [watch]) "".
End ServerExample.

Section witnesses.
Import RuntimeModel ServerExample.
#[local] Existing Instances codec stats StatusModel.pkg MetadataModel.Join MetadataModel.no_unicode.

Lemma register_dispatch_witness :
  ∃ si, dispatch server1 (request []) = ToWorker si echo (request []) ∧
    si_serviceImpl si = Some () ∧ si_name si = "pkg.Svc".
Proof.
  apply (register_dispatch server0 server1 desc (Some ()) (request []) (request_header []));
    try reflexivity; vm_compute; repeat constructor; set_solver.
Defined.

(** A good request is answered along the proxies; a bad header crashes. *)
Lemma processUnaryRpc_spec_witness :
  (∃ msg, processUnaryRpc 0 0 (λ _, 0%Z) MetadataModel.order server1 Background info echo
            (request [mkKeyValue "x-bin" "!"]) = ([], Panic msg)) ∧
  (∃ log, processUnaryRpc 0 0 (λ _, 0%Z) MetadataModel.order server1 Background info echo
            (request []) =
     (log, Ret (mkRpc 3
        (Some (mkRequestHeader "/pkg.Svc/Echo" [mkKeyValue "k" "v"] "srv" "cli" [] (Some ["p1"])))
        None (Some (mkBody (Some [Byte.x61]))) (Some (mkTrailer (Some []))) None))).
Proof.
  split.
  - apply (processUnaryRpc_spec 0 0 (λ _, 0%Z) MetadataModel.order server1 Background info echo
      (request [mkKeyValue "x-bin" "!"]) (request_header [mkKeyValue "x-bin" "!"]) eq_refl).
    intros Hd. apply Forall_cons in Hd as [[v Hv] _]. by vm_compute in Hv.
  - edestruct (processUnaryRpc_spec 0 0 (λ _, 0%Z) MetadataModel.order server1 Background info echo
      (request []) (request_header []) eq_refl) as [_ Hok].
    edestruct Hok as (log & Hlog & _); [constructor|vm_compute; reflexivity|].
    exists log. rewrite Hlog. by vm_compute.
Defined.

Lemma unary_stats_events_witness :
  let '(log, r) := processUnaryRpc 0 0 (λ _, 0%Z) MetadataModel.order server1 Background info echo
                     (request []) in
  ∃ payloads t, Forall is_in_payload payloads ∧ is_panic r = false ∧
    ∃ hd msg n tr appErr,
    events_of 7 log =
      [StatsBegin false 0 false false; StatsInHeader false "/pkg.Svc/Echo" (Some ∅)] ++ payloads ++
      [StatsOutHeader false "/pkg.Svc/Echo" hd; StatsOutPayload false msg n;
       StatsOutTrailer false tr; StatsEnd false 0 t (end_error appErr)].
Proof.
  pose proof (unary_stats_events 0 0 (λ _, 0%Z) MetadataModel.order server1 Background info echo
    (request []) (request_header []) 7 ∅ eq_refl eq_refl) as Hev.
  destruct (processUnaryRpc _ _ _ _ _ _ _ _ _) as [log r] eqn:E.
  destruct Hev as (payloads & t & Hp & Hr).
  - vm_compute. repeat constructor. set_solver.
  - vm_compute. by apply elem_of_list_here || set_solver.
  - exists payloads, t. vm_compute in E. injection E as <- <-.
    split_and!; [exact Hp|reflexivity|]. destruct Hr as (hd & msg & n & tr & e & _ & He).
    exists hd, msg, n, tr, e. exact He.
Defined.
End witnesses.
