(* ===== verification/ClientConn.v ===== *)
(** * client.go and the end of CallUnaryMethod: the client's side of a call

    A unary call writes one request and waits on the multiplexer; how the wait
    ended ([Multiplexer.reason], or the error of the first check) is the
    argument [call] here, and the rest of the call is a function of it. *)

From S2P Require Import Prelude GoString Rpc Errors Metadata RequestContext Runtime Chan Multiplexer.

(** ** The connection *)
Inductive CallOption := StaticMethodCallOption | OtherCallOption (name : string).

Section conn.
(** [R]: what running a call with an interceptor means; interceptors are foreign
    code that is given the library's invoker or streamer to call. *)
Context (Msg Handler R : Type).

Definition UnaryInvoker : Type := Ctx → string → Msg → list CallOption → R.
Definition UnaryClientInterceptor : Type :=
  Ctx → string → Msg → UnaryInvoker → list CallOption → R.

Record StreamDesc := mkClientStreamDesc { csd_ServerStreams : bool; csd_ClientStreams : bool }.
Definition Streamer : Type := Ctx → StreamDesc → string → list CallOption → R.
Definition StreamClientInterceptor : Type :=
  Ctx → StreamDesc → string → Streamer → list CallOption → R.

Record ClientConn := mkClientConn {
  cc_unaryInterceptor : option UnaryClientInterceptor;
  cc_streamInterceptor : option StreamClientInterceptor;
  cc_sourceAddress : string;
  cc_destAddress : string;
  cc_statsHandlers : list Handler }.

Definition DialOption : Type := ClientConn → ClientConn.
Definition WithUnaryInterceptor (i : UnaryClientInterceptor) : DialOption := λ cc,
  mkClientConn (Some i) (cc_streamInterceptor cc) (cc_sourceAddress cc) (cc_destAddress cc)
    (cc_statsHandlers cc).
Definition WithStreamInterceptor (i : StreamClientInterceptor) : DialOption := λ cc,
  mkClientConn (cc_unaryInterceptor cc) (Some i) (cc_sourceAddress cc) (cc_destAddress cc)
    (cc_statsHandlers cc).
Definition WithStatsHandler (h : Handler) : DialOption := λ cc,
  mkClientConn (cc_unaryInterceptor cc) (cc_streamInterceptor cc) (cc_sourceAddress cc)
    (cc_destAddress cc) (cc_statsHandlers cc ++ [h]).

(** The events on the connection: TagConn's context is dropped by the code. *)
Definition conn_events (shs : list Handler) (ev : conn_event) : list (effect Msg Handler) :=
  (λ sh, EHandleConn sh Background ev) <$> shs.

Definition NewClientConn (source dest : string) (opts : list DialOption)
    : ClientConn * list (effect Msg Handler) :=
  let cc := foldl (λ cc opt, opt cc) (mkClientConn None None source dest []) opts in
  (cc, conn_events (cc_statsHandlers cc) (ConnBegin true)).

Definition CloseConn (cc : ClientConn) : list (effect Msg Handler) :=
  conn_events (cc_statsHandlers cc) (ConnEnd true).
End conn.
Arguments mkClientConn {Msg Handler R}.
Arguments cc_unaryInterceptor {Msg Handler R}.
Arguments cc_streamInterceptor {Msg Handler R}.
Arguments cc_sourceAddress {Msg Handler R}.
Arguments cc_destAddress {Msg Handler R}.
Arguments cc_statsHandlers {Msg Handler R}.

(** The check on the call options: at most one, and only a StaticMethodCallOption. *)
Definition opts_supported (opts : list CallOption) : bool :=
  match opts with
  | [] | [StaticMethodCallOption] => true
  | _ => false
  end.

(** metadata of a header list for a stats event: nil when it does not decode. *)
Definition stats_metadata `{Unicode} (kvs : list KeyValue) : option MD :=
  match ToMetadata kvs with Ok md => Some md | Err _ => None end.

(** ** Unary calls *)
Section unary.
Context {Msg Handler R : Type}.
Context `{Unicode, MetadataPkg, StatusPkg, Codec Msg, StatsHandler Handler}.
Abbreviation CC := (ClientConn Msg Handler R).

Definition malformed_response : error := Errorf "malformed response: no body or status".

(** CallUnaryMethod after the wait: [inl err] is the error of its first check. *)
Definition CallUnaryMethod (ctx : Ctx) (header : RequestHeader) (statsHandlers : list Handler)
    (ended : error + reason) : list (effect Msg Handler) * outcome (option Body * option error) :=
  match ended with
  | inl err | inr (WriteFailed err) | inr (CtxDone err) => ([], Ret (None, Some err))
  | inr ChanClosed => ([], Ret (None, Some resp_chan_closed))
  | inr (GotRpc resp) =>
      match statsHandlers, GetHeader (Some resp) with
      | _ :: _, None => ([], Panic "nil pointer dereference")
      | _, _ =>
          let headers := stats_metadata (GetHeaders (GetHeader (Some resp))) in
          (notify statsHandlers ctx (StatsInHeader true (h_Method header) headers),
           match rpc_Status resp with
           | Some st =>
               Ret (None, status_Err (mkStatus (rs_Code st) (rs_Message st) (rs_Details st)))
           | None =>
               match rpc_Body resp with
               | Some b => Ret (Some b, None)
               | None => Ret (None, Some malformed_response)
               end
           end)
      end
  end.

(** [call h b]: how the multiplexer's part of the call ends when the request
    has header [h] and body [b].  The result is the reply, [None] if it was not
    filled in, and the error.  The deferred StatsEndRPC reports the variable
    err, which is nil when the call panics. *)
Definition invoke (now beginTime : Z) (clock : nat → Z) (ord : map_range)
    (call : RequestHeader → Body → error + reason) (cc : CC)
    (ctx : Ctx) (method : string) (args : Msg) (opts : list CallOption)
    : list (effect Msg Handler) * outcome (option Msg * option error) :=
  if negb (opts_supported opts) then ([], Panic "Invoke: opts unsupported")
  else
    let shs := cc_statsHandlers cc in
    let '(l1, ctx) := StatsStartServerRPC shs true beginTime method false false ctx in
    let finish l err r := (l1 ++ l ++ StatsEndRPC shs true beginTime err ctx clock, r) in
    let headers := headersFromContext now ord ctx in
    match Marshal args with
    | Err err => finish [] (Some err) (Ret (None, Some err))
    | Ok body =>
        let l2 := shs ≫= λ sh,
          [EHandleRPC sh ctx (StatsOutHeader true method (stats_metadata headers));
           EHandleRPC sh ctx (StatsOutPayload true (Some args) (length body))] in
        let h := header_lit method headers (cc_sourceAddress cc) (cc_destAddress cc) in
        let b := mkBody (Some (Materialize body)) in
        let '(l3, r) := CallUnaryMethod ctx h shs (call h b) in
        match r with
        | Panic msg => finish (l2 ++ l3) None (Panic msg)
        | Ret (_, Some err) => finish (l2 ++ l3) (Some err) (Ret (None, Some err))
        | Ret (None, None) => finish (l2 ++ l3) None (Panic "nil pointer dereference")
        | Ret (Some replyBody, None) =>
            let data := default [] (GetData (Some replyBody)) in
            let '(reply, err) :=
              match Unmarshal [data] with Ok m => (Some m, None) | Err err => (None, Some err) end in
            finish (l2 ++ l3 ++ notify shs ctx (StatsInPayload true reply (length data))) err
              (Ret (reply, err))
        end
    end.

(** Invoke hands the call to the interceptor, with [invoke] as the invoker. *)
Definition Invoke (invoker : UnaryInvoker Msg R) (cc : CC) : UnaryInvoker Msg R :=
  λ ctx method args opts,
    match cc_unaryInterceptor cc with
    | Some i => i ctx method args invoker opts
    | None => invoker ctx method args opts
    end.

(** ** Streams: newStream

    [rw]: the result of NewStreamReadWriter, an id or an error; [werr]: the
    result of writing the opening Rpc.  The result is the error, or what the
    client stream is made of. *)
Record stream_args := mkStreamArgs {
  sa_ctx : Ctx; sa_id : Z; sa_method : string; sa_src : string; sa_dst : string;
  sa_statsHandlers : list Handler; sa_beginTime : Z }.

Definition open_rpc (now : Z) (ord : map_range) (cc : CC) (ctx : Ctx) (id : Z) (method : string)
    : Rpc :=
  mkRpc id (Some (header_lit method (headersFromContext now ord ctx)
                    (cc_sourceAddress cc) (cc_destAddress cc))) None None None None.

Definition newStream (now beginTime endTime : Z) (ord : map_range) (rw : result Z)
    (werr : option error) (cc : CC) (ctx : Ctx) (desc : StreamDesc) (method : string)
    (opts : list CallOption) : list (effect Msg Handler) * outcome (result stream_args) :=
  if negb (opts_supported opts) then ([], Panic "NewStream: opts unsupported")
  else
    match rw with
    | Err err => ([], Ret (Err err))
    | Ok id =>
        let shs := cc_statsHandlers cc in
        (* the loop of StatsStartServerRPC for a client: TagRPC and Begin *)
        let '(l1, ctx) := stats_start_loop shs true beginTime method
                            (csd_ClientStreams desc) (csd_ServerStreams desc) ∅ ctx in
        let rpc := open_rpc now ord cc ctx id method in
        match werr with
        | Some err =>
            (l1 ++ [EWrite rpc werr] ++
             notify shs ctx (StatsEnd true beginTime endTime (Some err)), Ret (Err err))
        | None =>
            (l1 ++ [EWrite rpc werr] ++
             notify shs ctx (StatsOutHeader true method
               (stats_metadata (GetHeaders (rpc_Header rpc)))),
             Ret (Ok (mkStreamArgs ctx id method (cc_sourceAddress cc) (cc_destAddress cc)
                        shs beginTime)))
        end
    end.

Definition NewStream (streamer : Streamer R) (cc : CC) : Streamer R :=
  λ ctx desc method opts,
    match cc_streamInterceptor cc with
    | Some i => i ctx desc method streamer opts
    | None => streamer ctx desc method opts
    end.
End unary.

(** ** What a unary call returns *)
Section unary_properties.
Context {Msg Handler R : Type}.
Context `{Unicode, MetadataPkg, StatusPkg, !StatusLaws, Codec Msg, StatsHandler Handler}.
Abbreviation CC := (ClientConn Msg Handler R).

(** The context and the header of the request. *)
Definition call_ctx (cc : CC) (method : string) (ctx : Ctx) : Ctx :=
  tag_all (cc_statsHandlers cc) method ctx.
Definition request_header (now : Z) (ord : map_range) (cc : CC) (ctx : Ctx) (method : string)
    : RequestHeader :=
  header_lit method (headersFromContext now ord (call_ctx cc method ctx))
    (cc_sourceAddress cc) (cc_destAddress cc).

Lemma invoke_unfold now b clock ord call (cc : CC) ctx method args opts body :
  opts_supported opts = true → Marshal args = Ok body →
  let shs := cc_statsHandlers cc in
  let ctx' := call_ctx cc method ctx in
  let h := request_header now ord cc ctx method in
  let '(l3, r) := CallUnaryMethod (Msg:=Msg) ctx' h shs (call h (mkBody (Some (Materialize body)))) in
  let l1 := (StatsStartServerRPC shs true b method false false ctx).1 in
  let l2 := shs ≫= λ sh,
    [EHandleRPC sh ctx' (StatsOutHeader true method (stats_metadata (h_Headers h)));
     EHandleRPC sh ctx' (StatsOutPayload true (Some args) (length body))] in
  let finish l err r := (l1 ++ l ++ StatsEndRPC shs true b err ctx' clock, r) in
  invoke now b clock ord call cc ctx method args opts =
    match r with
    | Panic msg => finish (l2 ++ l3) None (Panic msg)
    | Ret (_, Some err) => finish (l2 ++ l3) (Some err) (Ret (None, Some err))
    | Ret (None, None) => finish (l2 ++ l3) None (Panic "nil pointer dereference")
    | Ret (Some replyBody, None) =>
        let data := default [] (GetData (Some replyBody)) in
        let '(reply, err) :=
          match Unmarshal [data] with Ok m => (Some m, None) | Err err => (None, Some err) end in
        finish (l2 ++ l3 ++ notify shs ctx' (StatsInPayload true reply (length data))) err
          (Ret (reply, err))
    end.
Proof.
  intros Hopts Hm shs ctx' h. unfold invoke. rewrite Hopts. cbn [negb].
  pose proof (StatsStartServerRPC_ctx (Msg:=Msg) (cc_statsHandlers cc) true b method false false ctx)
    as Hctx.
  destruct (StatsStartServerRPC _ _ _ _ _ _ _) as [l1 ctx1]. simpl in Hctx. subst ctx1.
  rewrite Hm. fold (call_ctx cc method ctx). fold ctx' shs.
  change (header_lit method _ _ _) with h.
  by destruct (CallUnaryMethod _ _ _ _) as [l3 r].
Qed.

Lemma invoke_outcome now b clock ord call (cc : CC) ctx method args opts body :
  opts_supported opts = true → Marshal args = Ok body →
  (invoke now b clock ord call cc ctx method args opts).2 =
    match call (request_header now ord cc ctx method) (mkBody (Some (Materialize body))) with
    | inl err | inr (WriteFailed err) | inr (CtxDone err) => Ret (None, Some err)
    | inr ChanClosed => Ret (None, Some resp_chan_closed)
    | inr (GotRpc resp) =>
        if decide (rpc_Header resp = None ∧ cc_statsHandlers cc ≠ [])
        then Panic "nil pointer dereference"
        else
          match rpc_Status resp, rpc_Body resp with
          | Some st, _ =>
              if decide (rs_Code st = codes_OK) then Panic "nil pointer dereference"
              else Ret (None, Some (StatusError (mkStatus (rs_Code st) (rs_Message st) (rs_Details st))))
          | None, Some rb =>
              match Unmarshal [default [] (b_Data rb)] with
              | Ok m => Ret (Some m, None)
              | Err err => Ret (None, Some err)
              end
          | None, None => Ret (None, Some malformed_response)
          end
    end.
Proof.
  intros Hopts Hm.
  pose proof (invoke_unfold now b clock ord call cc ctx method args opts body Hopts Hm) as E.
  cbv zeta in E. unfold CallUnaryMethod in E.
  destruct (call _ _) as [err|[err|resp| |err]]; try (by rewrite E).
  unfold GetHeader in E. simpl in E.
  destruct (cc_statsHandlers cc) as [|sh shs], (rpc_Header resp) as [h|];
    [rewrite decide_False by naive_solver..|rewrite decide_False by naive_solver|
     rewrite decide_True by naive_solver; by rewrite E];
    (destruct (rpc_Status resp) as [st|];
     [case_decide as Hc;
      [rewrite (status_Err_OK (mkStatus (rs_Code st) (rs_Message st) (rs_Details st))) in E by done
      |rewrite (status_Err_not_OK (mkStatus (rs_Code st) (rs_Message st) (rs_Details st))) in E by done];
      by rewrite E|]);
    (destruct (rpc_Body resp) as [rb|]; [|by rewrite E]);
    unfold GetData in E; simpl in E; rewrite E; by destruct (Unmarshal _).
Qed.

(** C19: what invoke returns, for each way the wait can end: the transport's, the
    context's and the multiplexer's errors unchanged; the server's status as a
    gRPC error with the same code, message and details; the unmarshalled body;
    an error for a response with neither.  A response whose status is OK, and a
    response without a header when a stats handler is installed, make the client
    process panic. *)
Theorem invoke_result now b clock ord call (cc : CC) ctx method args opts body :
  opts_supported opts = true → Marshal args = Ok body →
  (invoke now b clock ord call cc ctx method args opts).2 =
    match call (request_header now ord cc ctx method) (mkBody (Some (Materialize body))) with
    | inl err | inr (WriteFailed err) | inr (CtxDone err) => Ret (None, Some err)
    | inr ChanClosed => Ret (None, Some resp_chan_closed)
    | inr (GotRpc resp) =>
        if decide (rpc_Header resp = None ∧ cc_statsHandlers cc ≠ [])
        then Panic "nil pointer dereference"
        else
          match rpc_Status resp, rpc_Body resp with
          | Some st, _ =>
              if decide (rs_Code st = codes_OK) then Panic "nil pointer dereference"
              else Ret (None, Some (StatusError (mkStatus (rs_Code st) (rs_Message st) (rs_Details st))))
          | None, Some rb =>
              match Unmarshal [default [] (b_Data rb)] with
              | Ok m => Ret (Some m, None)
              | Err err => Ret (None, Some err)
              end
          | None, None => Ret (None, Some malformed_response)
          end
    end.
Proof. by apply invoke_outcome. Qed.

Lemma out_events_of `{EqDecision Handler} (sh : Handler) shs ctx m (hd : option MD) (args : Msg) n :
  NoDup shs → sh ∈ shs →
  events_of sh (shs ≫= λ sh,
    [EHandleRPC sh ctx (StatsOutHeader true m hd);
     EHandleRPC sh ctx (StatsOutPayload true (Some args) n)]) =
  [StatsOutHeader true m hd; StatsOutPayload true (Some args) n].
Proof.
  assert (Hg : NoDup shs → events_of sh (shs ≫= λ sh,
    [EHandleRPC sh ctx (StatsOutHeader true m hd);
     EHandleRPC sh ctx (StatsOutPayload true (Some args) n)]) =
    if decide (sh ∈ shs) then [StatsOutHeader true m hd; StatsOutPayload true (Some args) n] else []).
  { induction 1 as [|sh' shs' Hn Hnd IH]; [by rewrite decide_False by set_solver|].
    rewrite bind_cons, events_of_app, IH. rewrite !events_of_cons. simpl.
    destruct (decide (sh' = sh)) as [->|Hne].
    - rewrite decide_False, decide_True by set_solver. done.
    - repeat case_decide; set_solver. }
  intros Hnd Hin. by rewrite Hg, decide_True.
Qed.

(** The event for the response, if one was received. *)
Definition is_in_header (ev : stats_event Msg) : Prop :=
  match ev with StatsInHeader true _ _ => True | _ => False end.
Definition is_in_payload (ev : stats_event Msg) : Prop :=
  match ev with StatsInPayload true _ _ => True | _ => False end.

(** Every stats handler of a client sees a well-formed sequence of events
    for a unary call: Begin, OutHeader and OutPayload, then at most one InHeader
    and one InPayload in this order, then exactly one End, last, with the error
    that the call returns (none for nil and for io.EOF, and none when it
    panics). *)
Theorem client_stats_events `{EqDecision Handler} now b clock ord call (cc : CC) ctx method args opts
    body sh :
  opts_supported opts = true → Marshal args = Ok body →
  NoDup (cc_statsHandlers cc) → sh ∈ cc_statsHandlers cc →
  let '(log, r) := invoke now b clock ord call cc ctx method args opts in
  ∃ hd mid1 mid2 t,
    events_of sh log =
      [StatsBegin true b false false; StatsOutHeader true method hd;
       StatsOutPayload true (Some args) (length body)] ++ mid1 ++ mid2 ++
      [StatsEnd true b t (match r with Ret (_, err) => end_error err | Panic _ => None end)] ∧
    Forall is_in_header mid1 ∧ length mid1 ≤ 1 ∧ Forall is_in_payload mid2 ∧ length mid2 ≤ 1.
Proof.
  intros Hopts Hm Hnd Hin.
  pose proof (invoke_unfold now b clock ord call cc ctx method args opts body Hopts Hm) as E.
  cbv zeta in E.
  pose proof (StatsStartServerRPC_events (Msg:=Msg) sh (cc_statsHandlers cc) true b method false false
    ctx Hnd Hin) as Hs. unfold start_events in Hs.
  set (ctx' := call_ctx cc method ctx) in *. set (h := request_header now ord cc ctx method) in *.
  assert (Hend : ∀ err, ∃ t, events_of sh (StatsEndRPC (Msg:=Msg) (cc_statsHandlers cc) true b err ctx' clock)
    = [StatsEnd true b t (end_error err)]).
  { intros err. destruct (stats_end_loop_events (Msg:=Msg) 0 sh (cc_statsHandlers cc) true b err ctx'
      clock Hnd) as [t Ht]. exists t. by rewrite decide_True in Ht. }
  assert (Hmid : ∃ mid, events_of sh (CallUnaryMethod ctx' h (cc_statsHandlers cc)
      (call h (mkBody (Some (Materialize body))))).1 = mid ∧ Forall is_in_header mid ∧ length mid ≤ 1).
  { unfold CallUnaryMethod. assert (Hnil : ∃ mid : list (stats_event Msg),
      [] = mid ∧ Forall is_in_header mid ∧ length mid ≤ 1) by (exists []; split_and!; [done|by constructor|simpl; lia]).
    destruct (call _ _) as [err|[err|resp| |err]]; try done.
    destruct (cc_statsHandlers cc) as [|sh0 shs] eqn:Esh; [set_solver|].
    destruct (GetHeader (Some resp)); [|done]. eexists. split; [done|].
    cbn [fst]. rewrite events_of_notify by done. rewrite decide_True by done.
    split; [by apply Forall_singleton|simpl; lia]. }
  destruct (CallUnaryMethod _ _ _ _) as [l3 r3]. simpl in Hmid. destruct Hmid as (mid & Hmid & Hf & Hl).
  destruct r3 as [[[rb|] [err|]]|msg]; [| |rewrite E..];
    try (match goal with |- context [StatsEndRPC _ _ _ ?e _ _] => destruct (Hend e) as [t Ht] end;
         eexists _, mid, [], t; split_and!; [|done|done|done|simpl; lia];
         rewrite !events_of_app, out_events_of, Hs, Hmid, Ht by done; done).
  - rewrite E. destruct (Hend (Some err)) as [t Ht].
    eexists _, mid, [], t. split_and!; [|done|done|done|simpl; lia].
    by rewrite !events_of_app, out_events_of, Hs, Hmid, Ht.
  - destruct (match Unmarshal _ with Ok m => (Some m, None) | Err err => (None, Some err) end)
      as [reply err]. rewrite E. destruct (Hend err) as [t Ht].
    eexists _, mid, [StatsInPayload true reply _], t. split_and!; [|done|done| |simpl; lia].
    + rewrite !events_of_app, out_events_of, Hs, Hmid, events_of_notify, decide_True, Ht by done.
      by rewrite <-!app_assoc.
    + by apply Forall_singleton.
Qed.
End unary_properties.

(** ** Concrete calls *)
Module ClientExample.
Import RuntimeModel.
Definition conn : ClientConn Msg nat () :=
  (NewClientConn Msg nat () "cli" "srv" [WithStatsHandler Msg nat () 7]).1.
(** A response with a status, and one with a body. *)
Definition response (st : option ResponseStatus) : Rpc :=
  mkRpc 1 (Some (header_lit "/s/m" [] "srv" "cli")) st (Some (mkBody (Some [Byte.x61]))) None None.
End ClientExample.

Section witnesses.
Import RuntimeModel ClientExample.
#[local] Existing Instances codec stats StatusModel.pkg MetadataModel.Join MetadataModel.no_unicode.
#[local] Existing Instance StatusModel.StatusModel_laws.

(** An error status, an OK status and a plain reply. *)
Lemma invoke_result_witness :
  let run st := (invoke 0 0 (λ _, 0%Z) MetadataModel.order (λ _ _, inr (GotRpc (response st)))
                   conn Background "/s/m" [Byte.x61] []).2 in
  run (Some (mkResponseStatus 5 "no" [])) = Ret (None, Some (StatusError (mkStatus 5 "no" []))) ∧
  run (Some (mkResponseStatus 0 "OK" [])) = Panic "nil pointer dereference" ∧
  run None = Ret (Some [Byte.x61], None).
Proof.
  intros run. unfold run.
  split_and!; rewrite (invoke_result _ _ _ _ _ conn Background "/s/m" [Byte.x61] [] [[Byte.x61]])
    by reflexivity; reflexivity.
Defined.

Lemma client_stats_events_witness :
  let '(log, r) := invoke 0 0 (λ _, 0%Z) MetadataModel.order (λ _ _, inr (GotRpc (response None)))
                     conn Background "/s/m" [Byte.x61] [] in
  ∃ hd mid1 mid2 t,
    events_of 7 log =
      [StatsBegin true 0 false false; StatsOutHeader true "/s/m" hd;
       StatsOutPayload true (Some [Byte.x61]) 1] ++ mid1 ++ mid2 ++
      [StatsEnd true 0 t (match r with Ret (_, err) => end_error err | Panic _ => None end)] ∧
    Forall is_in_header mid1 ∧ length mid1 ≤ 1 ∧ Forall is_in_payload mid2 ∧ length mid2 ≤ 1.
Proof.
  apply (client_stats_events 0 0 (λ _, 0%Z) MetadataModel.order
    (λ _ _, inr (GotRpc (response None))) conn Background "/s/m" [Byte.x61] [] [[Byte.x61]] 7).
  - reflexivity.
  - reflexivity.
  - apply NoDup_singleton.
  - by apply list_elem_of_singleton.
Defined.
End witnesses.
