(* ===== verification/ServerLoop.v ===== *)
(** * server.go: the goroutines of one connection

    [Serve] runs the read loop ([serve]), a writer, eight unary workers and one
    goroutine per stream.  They share the map of streams under the mutex
    [h.mu], the unbuffered channels [writeChan] and [unaryRpcChan], and one
    channel of capacity one per stream.  As in file [Multiplexer] this is a step
    relation; a critical section that cannot block is one step.  The serve loop
    holds the mutex while it blocks in [handler.ch <- rpc] and while it writes a
    reset.  An unbuffered channel is a joint step of sender and receiver. *)

From S2P Require Import Prelude GoString Rpc Errors Metadata RequestContext Runtime TransportStream Interceptors Server.

(** ** What processStreamingRpc does with an Rpc *)
Inductive stream_decision :=
  | SCancel (g : nat)      (* a reset for a running stream *)
  | SDeliver (g : nat)     (* an Rpc for a running stream *)
  | SIgnore
  | SReset                 (* answered with a reset *)
  | SStart.                (* opens a stream *)

Section decision.
Context `{Unicode}.

Definition is_reset (rpc : Rpc) : bool :=
  match GetReset_ (Some rpc) with
  | Some r => bool_decide (r_Type r = RST_STREAM)
  | None => false
  end.

(** [streams]: the goroutine of each registered stream. *)
Definition stream_decide (now : Z) (clientCtx : Ctx) (streams : gmap Z nat) (rpc : Rpc)
    : stream_decision :=
  let resetStream := is_reset rpc in
  match streams !! rpc_Id rpc with
  | Some g => if resetStream then SCancel g else SDeliver g
  | None =>
      if resetStream then SIgnore
      else if GetBody (Some rpc) is Some _ then SReset
      else if GetTrailer (Some rpc) is Some _ then SIgnore
      else
        match GetHeader (Some rpc) with
        | None => SReset
        | Some h =>
            match (contextFromHeaders now clientCtx h).2 with
            | Some _ => SReset
            | None => SStart
            end
        end
  end.
End decision.

(** ** State *)
Inductive serve_pc :=
  | VRead                                (* in h.rw.Read *)
  | VDispatch (rpc : Rpc)
  | VSendWorker (rpc : Rpc)              (* in the select on unaryRpcChan *)
  | VLock (rpc : Rpc)                    (* processStreamingRpc wants the mutex *)
  | VSendStream (g : nat) (rpc : Rpc)    (* holds it, in the select on handler.ch *)
  | VReset (rpc : Rpc)                   (* holds it, in resetStream's Write *)
  | VWaitLock (err : error)              (* serve returned: cancelAndWaitForStreams *)
  | VWaitDone (g : nat) (err : error)    (* in <-sh.done *)
  | VExit (err : error).                 (* Serve returned *)

Inductive worker_pc := WIdle | WRun (rpc : Rpc) | WSend (resp : Rpc) | WExit.
Inductive writer_pc := RWait | RWriting (rpc : Rpc) | RExit.

(** A stream's goroutine: in the handler's own code, in the select of its writer
    function, in SendTrailer, before unregisterStream. *)
Inductive stream_pc :=
  | GRun | GSend (rpc : Rpc) | GTrailer (rpc : Rpc) | GUnreg | GExit.

Record stream := mkStream {
  g_id : Z;
  g_ch : list Rpc;         (* handler.ch, of capacity 1 *)
  g_cancelled : bool;      (* the stream's own context *)
  g_done : bool;           (* a token is in handler.done *)
  g_recv : bool;           (* a RecvMsg is in the select of its reader function *)
  g_pc : stream_pc }.

Record conn := mkConn {
  v_ctx : bool;                   (* h.ctx is done *)
  v_clientCtx : bool;             (* clientCtx is done *)
  v_streams : gmap Z nat;         (* h.streams *)
  v_gs : gmap nat stream;         (* every stream goroutine so far *)
  v_serve : serve_pc;
  v_workers : gmap nat worker_pc;
  v_writer : writer_pc }.

Definition numRpcWorkers : nat := 8.
Definition newHandler : conn :=
  mkConn false false ∅ ∅ VRead
    (list_to_map ((λ w, (w, WIdle)) <$> seq 0 numRpcWorkers)) RWait.

Definition mu_free (s : conn) : Prop :=
  match v_serve s with VSendStream _ _ | VReset _ => False | _ => True end.
#[export] Instance mu_free_dec s : Decision (mu_free s).
Proof. unfold mu_free. destruct (v_serve s); apply _. Defined.

Definition set_serve (p : serve_pc) (s : conn) : conn :=
  mkConn (v_ctx s) (v_clientCtx s) (v_streams s) (v_gs s) p (v_workers s) (v_writer s).
Definition set_g (g : nat) (x : stream) (s : conn) : conn :=
  mkConn (v_ctx s) (v_clientCtx s) (v_streams s) (<[g := x]> (v_gs s)) (v_serve s)
    (v_workers s) (v_writer s).
Definition set_streams (m : gmap Z nat) (s : conn) : conn :=
  mkConn (v_ctx s) (v_clientCtx s) m (v_gs s) (v_serve s) (v_workers s) (v_writer s).
Definition set_worker (w : nat) (p : worker_pc) (s : conn) : conn :=
  mkConn (v_ctx s) (v_clientCtx s) (v_streams s) (v_gs s) (v_serve s)
    (<[w := p]> (v_workers s)) (v_writer s).
Definition set_writer (p : writer_pc) (s : conn) : conn :=
  mkConn (v_ctx s) (v_clientCtx s) (v_streams s) (v_gs s) (v_serve s) (v_workers s) p.
Definition cancel_h (s : conn) : conn :=
  mkConn true (v_clientCtx s) (v_streams s) (v_gs s) (v_serve s) (v_workers s) (v_writer s).
Definition cancel_client (s : conn) : conn :=
  mkConn (v_ctx s) true (v_streams s) (v_gs s) (v_serve s) (v_workers s) (v_writer s).

Definition set_pc (p : stream_pc) (x : stream) : stream :=
  mkStream (g_id x) (g_ch x) (g_cancelled x) (g_done x) (g_recv x) p.
Definition set_recv (b : bool) (x : stream) : stream :=
  mkStream (g_id x) (g_ch x) (g_cancelled x) (g_done x) b (g_pc x).
Definition cancel_g (x : stream) : stream :=
  mkStream (g_id x) (g_ch x) true (g_done x) (g_recv x) (g_pc x).
Definition set_ch (l : list Rpc) (x : stream) : stream :=
  mkStream (g_id x) l (g_cancelled x) (g_done x) (g_recv x) (g_pc x).
Definition set_token (b : bool) (x : stream) : stream :=
  mkStream (g_id x) (g_ch x) (g_cancelled x) b (g_recv x) (g_pc x).

(** The application's handler has not returned. *)
Definition handler_runs (x : stream) : Prop :=
  match g_pc x with GRun | GSend _ => True | _ => False end.
#[export] Instance handler_runs_dec x : Decision (handler_runs x).
Proof. unfold handler_runs. destruct (g_pc x); apply _. Defined.

(** serve returns [err]: its deferred functions cancel h.ctx. *)
Definition serve_return (err : error) (s : conn) : conn := set_serve (VWaitLock err) (cancel_h s).

(** The stream's context is derived from clientCtx, not from h.ctx. *)
Definition stream_ctx_done (s : conn) (x : stream) : Prop :=
  g_cancelled x = true ∨ v_clientCtx s = true.

(** processStreamingRpc up to a blocking operation. *)
Definition new_stream (s : conn) : nat := map_fold (λ g _ n, Nat.max (S g) n) 0 (v_gs s).
Definition apply_decision (d : stream_decision) (rpc : Rpc) (s : conn) : conn :=
  match d with
  | SCancel g =>
      match v_gs s !! g with
      | Some x => set_serve VRead (set_g g (cancel_g x) s)
      | None => set_serve VRead s
      end
  | SDeliver g => set_serve (VSendStream g rpc) s
  | SIgnore => set_serve VRead s
  | SReset => set_serve (VReset rpc) s
  | SStart =>
      let g := new_stream s in
      set_serve VRead
        (set_streams (<[rpc_Id rpc := g]> (v_streams s))
           (set_g g (mkStream (rpc_Id rpc) [] false false false GRun) s))
  end.

(** unregisterStream of the goroutine [g]. *)
Definition unregisterStream (g : nat) (x : stream) (s : conn) : conn :=
  match v_streams s !! g_id x with
  | Some g' =>
      let s := match v_gs s !! g' with
               | Some y => set_g g' (set_token true (cancel_g y)) s
               | None => s
               end in
      set_streams (delete (g_id x) (v_streams s)) s
  | None => set_streams (delete (g_id x) (v_streams s)) s
  end.

(** ** Steps

    [Env] labels are choices of the transport, the contexts and the
    applications' handlers. *)
Inductive label :=
  | EnvRead (rpc : Rpc)
  | EnvReadErr (err : error)
  | EnvClientCtx                          (* clientCtx is done *)
  | EnvStop                               (* Stop: the server's context, so h.ctx *)
  | VDecide (now : Z)                     (* serve looks at the Rpc it read *)
  | VHandOff (w : nat)                    (* h.unaryRpcChan <- ... *)
  | VCtx                                  (* <-h.ctx.Done() in that select *)
  | VStream (now : Z)                     (* processStreamingRpc takes the mutex *)
  | VStreamSend (g : nat) (rpc : Rpc)     (* handler.ch <- rpc *)
  | VStreamCtx (err : error)              (* a context is done in that select *)
  | EnvResetWritten (werr : option error) (* resetStream's Write returns *)
  | VPick (g : nat)                       (* cancelAndWaitForStreams picks a stream *)
  | VWoken (g : nat)                      (* <-sh.done *)
  | VDone                                 (* no stream left: Serve returns *)
  | WorkerRun (w : nat) (r : outcome Rpc) (* processUnaryRpc returns or panics *)
  | WorkerExit (w : nat)
  | WriteWorker (w : nat) (rpc : Rpc)     (* the writer takes a worker's response *)
  | WriteStream (g : nat) (rpc : Rpc)     (* ... or a stream's Rpc *)
  | EnvWritten (werr : option error)      (* the writer's Write returns *)
  | WriterExit
  | EnvRecv (g : nat)                     (* the handler calls RecvMsg *)
  | EnvSend (g : nat) (rpc : Rpc)         (* the handler sends *)
  | EnvReturn (g : nat) (rpc : Rpc)       (* the handler returned: SendTrailer *)
  | EnvPanic (g : nat) (msg : string)     (* the handler panics *)
  | EnvStreamCtx (g : nat)                (* the stream's deadline *)
  | GotRpc (g : nat) (rpc : Rpc)          (* its reader function receives *)
  | GotCtx (g : nat)                      (* its reader function sees the context *)
  | SendCtx (g : nat)                     (* its writer function sees the context *)
  | GUnregister (g : nat).

Section steps.
Context {Msg Impl Handler : Type}.
Context `{Unicode, MetadataPkg, StatusPkg, Codec Msg, StatsHandler Handler}.
Context (srv : Server Msg Impl Handler) (clientCtx : Ctx).

(** What processUnaryRpc may return for an Rpc that was handed to a worker. *)
Definition worker_result (rpc : Rpc) (r : outcome Rpc) : Prop :=
  ∃ now begin clock ord si md,
    dispatch srv rpc = ToWorker si md rpc ∧
    r = (processUnaryRpc now begin clock ord srv clientCtx si md rpc).2.

(** serve's decision about the Rpc it read. *)
Definition serve_decide (rpc : Rpc) : serve_pc :=
  match dispatch srv rpc with
  | Ignore _ => VRead
  | ToWorker _ _ _ => VSendWorker rpc
  | ToStream _ _ _ => VLock rpc
  end.

(** After the select of a stream's writer function: back to the handler, or, for
    SendTrailer, on to the deferred calls, which cancel the stream's context. *)
Definition after_write (x : stream) : stream :=
  match g_pc x with
  | GTrailer _ => set_pc GUnreg (cancel_g x)
  | _ => set_pc GRun x
  end.

Inductive step : outcome conn → label → outcome conn → Prop :=
  (* the serve loop *)
  | step_read s rpc :
      v_serve s = VRead → step (Ret s) (EnvRead rpc) (Ret (set_serve (VDispatch rpc) s))
  | step_read_err s err :
      v_serve s = VRead →
      step (Ret s) (EnvReadErr err) (Ret (serve_return (Wrap err "read error") s))
  | step_client_ctx s : step (Ret s) EnvClientCtx (Ret (cancel_client s))
  | step_stop s : step (Ret s) EnvStop (Ret (cancel_h s))
  | step_decide s now rpc :
      v_serve s = VDispatch rpc → step (Ret s) (VDecide now) (Ret (set_serve (serve_decide rpc) s))
  | step_hand_off s rpc w :
      v_serve s = VSendWorker rpc → v_workers s !! w = Some WIdle →
      step (Ret s) (VHandOff w) (Ret (set_serve VRead (set_worker w (WRun rpc) s)))
  | step_v_ctx s rpc :
      v_serve s = VSendWorker rpc → v_ctx s = true →
      step (Ret s) VCtx (Ret (serve_return Canceled s))
  | step_stream s now rpc :
      v_serve s = VLock rpc → mu_free s →
      step (Ret s) (VStream now)
        (Ret (apply_decision (stream_decide now clientCtx (v_streams s) rpc) rpc s))
  | step_stream_send s g rpc x :
      v_serve s = VSendStream g rpc → v_gs s !! g = Some x → length (g_ch x) < 1 →
      step (Ret s) (VStreamSend g rpc)
        (Ret (set_serve VRead (set_g g (set_ch (g_ch x ++ [rpc]) x) s)))
  | step_stream_ctx s g rpc err :
      v_serve s = VSendStream g rpc → v_clientCtx s = true ∨ v_ctx s = true →
      step (Ret s) (VStreamCtx err) (Ret (serve_return err s))
  | step_reset_written s rpc werr :
      v_serve s = VReset rpc →
      step (Ret s) (EnvResetWritten werr)
        (Ret (match werr with Some err => serve_return err s | None => set_serve VRead s end))
  (* cancelAndWaitForStreams *)
  | step_pick s err id g x :
      v_serve s = VWaitLock err → v_streams s !! id = Some g → v_gs s !! g = Some x →
      step (Ret s) (VPick g) (Ret (set_serve (VWaitDone g err) (set_g g (cancel_g x) s)))
  | step_woken s err g x :
      v_serve s = VWaitDone g err → v_gs s !! g = Some x → g_done x = true →
      step (Ret s) (VWoken g) (Ret (set_serve (VWaitLock err) (set_g g (set_token false x) s)))
  | step_done s err :
      v_serve s = VWaitLock err → v_streams s = ∅ →
      step (Ret s) VDone (Ret (set_serve (VExit err) s))
  (* the workers and the writer *)
  | step_worker_run s w rpc r :
      v_workers s !! w = Some (WRun rpc) → worker_result rpc r →
      step (Ret s) (WorkerRun w r) (resp ← r; Ret (set_worker w (WSend resp) s))
  | step_worker_exit s w :
      v_workers s !! w = Some WIdle → v_ctx s = true →
      step (Ret s) (WorkerExit w) (Ret (set_worker w WExit s))
  | step_write_worker s w rpc :
      v_workers s !! w = Some (WSend rpc) → v_writer s = RWait →
      step (Ret s) (WriteWorker w rpc) (Ret (set_worker w WIdle (set_writer (RWriting rpc) s)))
  | step_write_stream s g x rpc :
      v_gs s !! g = Some x → g_pc x = GSend rpc ∨ g_pc x = GTrailer rpc → v_writer s = RWait →
      step (Ret s) (WriteStream g rpc)
        (Ret (set_g g (after_write x) (set_writer (RWriting rpc) s)))
  | step_written s rpc werr :
      v_writer s = RWriting rpc →
      step (Ret s) (EnvWritten werr)
        (Ret (set_writer RWait (match werr with Some _ => cancel_h s | None => s end)))
  | step_writer_exit s :
      v_writer s = RWait → v_ctx s = true → step (Ret s) WriterExit (Ret (set_writer RExit s))
  (* the stream goroutines *)
  | step_recv s g x :
      v_gs s !! g = Some x → handler_runs x → g_recv x = false →
      step (Ret s) (EnvRecv g) (Ret (set_g g (set_recv true x) s))
  | step_send s g x rpc :
      v_gs s !! g = Some x → g_pc x = GRun → rpc_Id rpc = g_id x →
      step (Ret s) (EnvSend g rpc) (Ret (set_g g (set_pc (GSend rpc) x) s))
  | step_return s g x rpc :
      v_gs s !! g = Some x → g_pc x = GRun → rpc_Id rpc = g_id x →
      step (Ret s) (EnvReturn g rpc) (Ret (set_g g (set_pc (GTrailer rpc) x) s))
  | step_handler_panic s g x msg :
      v_gs s !! g = Some x → g_pc x = GRun → step (Ret s) (EnvPanic g msg) (Panic msg)
  | step_deadline s g x :
      v_gs s !! g = Some x → step (Ret s) (EnvStreamCtx g) (Ret (set_g g (cancel_g x) s))
  | step_got s g x rpc l :
      v_gs s !! g = Some x → g_recv x = true → g_ch x = rpc :: l →
      step (Ret s) (GotRpc g rpc) (Ret (set_g g (set_ch l (set_recv false x)) s))
  | step_got_ctx s g x :
      v_gs s !! g = Some x → g_recv x = true → stream_ctx_done s x →
      step (Ret s) (GotCtx g) (Ret (set_g g (set_recv false x) s))
  | step_send_ctx s g x rpc :
      v_gs s !! g = Some x → g_pc x = GSend rpc ∨ g_pc x = GTrailer rpc → stream_ctx_done s x →
      step (Ret s) (SendCtx g) (Ret (set_g g (after_write x) s))
  | step_unregister s g x :
      v_gs s !! g = Some x → g_pc x = GUnreg → mu_free s →
      step (Ret s) (GUnregister g)
        (Ret (unregisterStream g x (set_g g (set_pc GExit x) s))).
End steps.

(** ** Unary requests and stream messages *)
Section kinds.
Context {Msg Impl Handler : Type}.
Context `{Unicode, MetadataPkg, StatusPkg, Codec Msg, StatsHandler Handler}.
Context (srv : Server Msg Impl Handler).

(** The Rpcs for a worker and for a stream. *)
Definition is_unary (rpc : Rpc) : Prop :=
  match dispatch srv rpc with ToWorker _ _ _ => True | _ => False end.
Definition is_stream (rpc : Rpc) : Prop :=
  match dispatch srv rpc with ToStream _ _ _ => True | _ => False end.
#[export] Instance is_unary_dec rpc : Decision (is_unary rpc).
Proof. unfold is_unary. destruct (dispatch srv rpc); simpl; apply _. Defined.
#[export] Instance is_stream_dec rpc : Decision (is_stream rpc).
Proof. unfold is_stream. destruct (dispatch srv rpc); simpl; apply _. Defined.

Lemma is_stream_not_unary rpc : is_stream rpc → ¬ is_unary rpc.
Proof. unfold is_stream, is_unary. destruct (dispatch srv rpc); tauto. Qed.

(** The serve loop keeps the two apart. *)
Lemma serve_decide_spec rpc :
  match serve_decide srv rpc with
  | VRead => ¬ is_unary rpc ∧ ¬ is_stream rpc
  | VSendWorker rpc' => rpc' = rpc ∧ is_unary rpc
  | VLock rpc' => rpc' = rpc ∧ is_stream rpc
  | _ => False
  end.
Proof. unfold serve_decide, is_unary, is_stream. destruct (dispatch srv rpc); naive_solver. Qed.

(** An Rpc for a running stream with the id: no reset. *)
Definition stream_msg (id : Z) (rpc : Rpc) : Prop :=
  rpc_Id rpc = id ∧ is_stream rpc ∧ is_reset rpc = false.
Definition msgs_for (id : Z) : list Rpc → list Rpc := filter (stream_msg id).
End kinds.

(** ** Histories *)
Definition reads_of (l : label) : list Rpc := match l with EnvRead rpc => [rpc] | _ => [] end.
Definition reads (h : list label) : list Rpc := h ≫= reads_of.
Definition sends_of (l : label) : list (nat * Rpc) :=
  match l with VStreamSend g rpc => [(g, rpc)] | _ => [] end.
Definition all_sends (h : list label) : list (nat * Rpc) := h ≫= sends_of.
(** The Rpcs the serve loop put into the channel of a stream. *)
Definition sends (g : nat) (h : list label) : list Rpc :=
  (filter (λ x, x.1 = g) (all_sends h)).*2.
Definition recvs_of (g : nat) (l : label) : list Rpc :=
  match l with GotRpc g' rpc => if decide (g' = g) then [rpc] else [] | _ => [] end.
(** The Rpcs a stream's handler received. *)
Definition recvs (g : nat) (h : list label) : list Rpc := h ≫= recvs_of g.

Lemma srv_reads_snoc h l : reads (h ++ [l]) = reads h ++ reads_of l.
Proof. unfold reads. by rewrite bind_app, bind_singleton. Qed.
Lemma srv_recvs_snoc g h l : recvs g (h ++ [l]) = recvs g h ++ recvs_of g l.
Proof. unfold recvs. by rewrite bind_app, bind_singleton. Qed.
Lemma srv_all_sends_snoc h l : all_sends (h ++ [l]) = all_sends h ++ sends_of l.
Proof. unfold all_sends. by rewrite bind_app, bind_singleton. Qed.
Lemma srv_sends_snoc g h l :
  sends g (h ++ [l]) = sends g h ++ (filter (λ x, x.1 = g) (sends_of l)).*2.
Proof. unfold sends. by rewrite srv_all_sends_snoc, filter_app, fmap_app. Qed.

(** The Rpc the serve loop is working on. *)
Definition in_hand (p : serve_pc) : list Rpc :=
  match p with
  | VDispatch rpc | VSendWorker rpc | VLock rpc | VSendStream _ rpc | VReset rpc => [rpc]
  | _ => []
  end.

(** ** Invariant *)
Definition pc_addressed (x : stream) : Prop :=
  match g_pc x with GSend rpc | GTrailer rpc => rpc_Id rpc = g_id x | _ => True end.

Record conn_inv (h : list label) (s : conn) : Prop := {
  (* registered streams are those of the goroutines that have not unregistered *)
  iv_streams id g : v_streams s !! id = Some g →
    ∃ x, v_gs s !! g = Some x ∧ g_id x = id ∧ g_pc x ≠ GExit ∧ g_done x = false;
  iv_live g x : v_gs s !! g = Some x → g_pc x ≠ GExit → v_streams s !! g_id x = Some g;
  iv_send g rpc : v_serve s = VSendStream g rpc → v_streams s !! rpc_Id rpc = Some g;
  iv_exit err : v_serve s = VExit err → v_streams s = ∅;
  iv_pc g x : v_gs s !! g = Some x → pc_addressed x;
  (* the channel of a stream, in order *)
  iv_ch g x : v_gs s !! g = Some x →
    length (g_ch x) ≤ 1 ∧ recvs g h ++ g_ch x = sends g h ∧
    Forall (λ rpc, rpc_Id rpc = g_id x) (sends g h);
  iv_none g : v_gs s !! g = None → recvs g h = [] ∧ sends g h = [];
  iv_reads : (all_sends h).*2 ++ in_hand (v_serve s) `sublist_of` reads h }.

Definition silent (l : label) : Prop :=
  reads_of l = [] ∧ (∀ g, recvs_of g l = []) ∧ sends_of l = [].

(** A step that moves no Rpc into or out of a stream, starts none and
    unregisters none. *)
Lemma conn_inv_silent h s l s' :
  conn_inv h s → silent l → v_streams s' = v_streams s →
  (∀ g rpc, v_serve s' = VSendStream g rpc → v_streams s !! rpc_Id rpc = Some g) →
  (∀ err, v_serve s' = VExit err → v_streams s = ∅) →
  in_hand (v_serve s') `sublist_of` in_hand (v_serve s) →
  (∀ g x', v_gs s' !! g = Some x' → ∃ x, v_gs s !! g = Some x ∧ g_id x' = g_id x ∧
     g_ch x' = g_ch x ∧ (g_pc x' = GExit ↔ g_pc x = GExit) ∧
     (g_done x' = true → g_done x = true) ∧ (pc_addressed x → pc_addressed x')) →
  (∀ g, v_gs s' !! g = None ↔ v_gs s !! g = None) →
  conn_inv (h ++ [l]) s'.
Proof.
  intros [] (Hr & Hrv & Hse) Hst Hsend Hexit Hin Hgs Hnone.
  assert (Hrecvs : ∀ g, recvs g (h ++ [l]) = recvs g h)
    by (intros; by rewrite srv_recvs_snoc, Hrv, app_nil_r).
  assert (Hsends : ∀ g, sends g (h ++ [l]) = sends g h)
    by (intros; rewrite srv_sends_snoc, Hse; simpl; by rewrite app_nil_r).
  assert (Hall : all_sends (h ++ [l]) = all_sends h) by (by rewrite srv_all_sends_snoc, Hse, app_nil_r).
  split; rewrite ?Hst; try done.
  - intros id g Hg. destruct (iv_streams0 _ _ Hg) as (x & Hx & Hid & Hpc & Hd).
    destruct (v_gs s' !! g) as [x'|] eqn:E; [|apply Hnone in E; congruence].
    destruct (Hgs _ _ E) as (x0 & Hx0 & Hid' & _ & Hpc' & Hd' & _). simplify_eq.
    exists x'. split_and!; [done|done|tauto|]. destruct (g_done x'); [|done].
    by rewrite Hd' in Hd.
  - intros g x' Hx' Hpc'. destruct (Hgs _ _ Hx') as (x & Hx & -> & _ & Hpc & _). apply iv_live0; tauto.
  - intros g x' Hx'. destruct (Hgs _ _ Hx') as (x & Hx & _ & _ & _ & _ & Hp). eauto.
  - intros g x' Hx'. rewrite Hrecvs, Hsends.
    destruct (Hgs _ _ Hx') as (x & Hx & -> & -> & _). eauto.
  - intros g Hg. rewrite Hrecvs, Hsends. apply iv_none0. by apply Hnone.
  - rewrite Hall, srv_reads_snoc, Hr, app_nil_r. etrans; [|exact iv_reads0]. by apply sublist_app.
Qed.

(** A silent step of the serve loop alone, and of one stream alone. *)
Lemma conn_inv_serve h s l s' :
  conn_inv h s → silent l → v_streams s' = v_streams s → v_gs s' = v_gs s →
  (∀ g rpc, v_serve s' = VSendStream g rpc → v_streams s !! rpc_Id rpc = Some g) →
  (∀ err, v_serve s' = VExit err → v_streams s = ∅) →
  in_hand (v_serve s') `sublist_of` in_hand (v_serve s) → conn_inv (h ++ [l]) s'.
Proof.
  intros Hinv Hl Hst Hgs ???. eapply conn_inv_silent; eauto; rewrite Hgs; [|done].
  intros g x Hx. exists x. split_and!; done.
Qed.

Lemma conn_inv_set_g h s l s' g x x' :
  conn_inv h s → silent l → v_streams s' = v_streams s →
  (∀ g rpc, v_serve s' = VSendStream g rpc → v_streams s !! rpc_Id rpc = Some g) →
  (∀ err, v_serve s' = VExit err → v_streams s = ∅) →
  in_hand (v_serve s') `sublist_of` in_hand (v_serve s) →
  v_gs s' = <[g := x']> (v_gs s) → v_gs s !! g = Some x →
  g_id x' = g_id x → g_ch x' = g_ch x → (g_pc x' = GExit ↔ g_pc x = GExit) →
  (g_done x' = true → g_done x = true) → (pc_addressed x → pc_addressed x') →
  conn_inv (h ++ [l]) s'.
Proof.
  intros Hinv Hl Hst Hsv1 Hsv2 Hsv3 Hgs Hx Hid Hch Hpc Hd Hp.
  eapply conn_inv_silent; eauto; rewrite ?Hgs.
  - intros g2 y. rewrite lookup_insert_Some. intros [[<- <-]|[Hne Hy]]; [by eauto 10|].
    exists y. split_and!; done.
  - intros g2. rewrite lookup_insert_None. split; [tauto|]. intros Hn. split; [done|].
    intros <-. congruence.
Qed.

Lemma new_stream_fresh s : v_gs s !! new_stream s = None.
Proof.
  assert (Hlt : ∀ g, is_Some (v_gs s !! g) → g < new_stream s).
  { unfold new_stream. apply (map_fold_weak_ind (λ n m, ∀ g, is_Some (m !! g) → g < n)).
    - intros g [x Hx]. by rewrite lookup_empty in Hx.
    - intros g x m n Hg IH g' [y Hy]. apply lookup_insert_Some in Hy as [[<- _]|[_ Hy]]; [lia|].
      assert (g' < n) by eauto. lia. }
  destruct (v_gs s !! new_stream s) as [x|] eqn:E; [|done].
  assert (new_stream s < new_stream s) by eauto. lia.
Qed.

Lemma conn_inv_start h s l rpc :
  conn_inv h s → silent l → in_hand (v_serve s) = [rpc] → v_streams s !! rpc_Id rpc = None →
  conn_inv (h ++ [l]) (apply_decision SStart rpc s).
Proof.
  intros [] (Hr & Hrv & Hse) Hin Hnew.
  pose proof (new_stream_fresh s) as Hf.
  assert (Hrecvs : ∀ g, recvs g (h ++ [l]) = recvs g h)
    by (intros; by rewrite srv_recvs_snoc, Hrv, app_nil_r).
  assert (Hsends : ∀ g, sends g (h ++ [l]) = sends g h)
    by (intros; rewrite srv_sends_snoc, Hse; simpl; by rewrite app_nil_r).
  assert (Hall : all_sends (h ++ [l]) = all_sends h) by (by rewrite srv_all_sends_snoc, Hse, app_nil_r).
  split; simpl; try done.
  - intros id g. rewrite lookup_insert_Some. intros [[<- <-]|[Hne Hg]].
    + eexists. rewrite lookup_insert_eq. done.
    + destruct (iv_streams0 _ _ Hg) as (x & Hx & ?). exists x.
      rewrite lookup_insert_ne; [done|]. intros <-. congruence.
  - intros g x. rewrite lookup_insert_Some. intros [[<- <-]|[Hne Hx]] Hpc; simpl.
    + by rewrite lookup_insert_eq.
    + rewrite lookup_insert_ne; [by apply iv_live0|]. intros Heq.
      pose proof (iv_live0 _ _ Hx Hpc). congruence.
  - intros g x. rewrite lookup_insert_Some. intros [[<- <-]|[Hne Hx]]; [done|eauto].
  - intros g x. rewrite Hrecvs, Hsends, lookup_insert_Some. intros [[<- <-]|[Hne Hx]]; [|eauto].
    destruct (iv_none0 _ Hf) as [-> ->]. simpl. split_and!; [lia|done|by constructor].
  - intros g [Hg _]%lookup_insert_None. rewrite Hrecvs, Hsends. auto.
  - rewrite Hall, srv_reads_snoc, Hr, !app_nil_r. etrans; [|exact iv_reads0]. by apply sublist_inserts_r.
Qed.

Lemma conn_inv_stream_send h s g rpc x :
  conn_inv h s → v_serve s = VSendStream g rpc → v_gs s !! g = Some x → length (g_ch x) < 1 →
  conn_inv (h ++ [VStreamSend g rpc]) (set_serve VRead (set_g g (set_ch (g_ch x ++ [rpc]) x) s)).
Proof.
  intros [] Hsv Hx Hlen. rewrite Hsv in *.
  assert (Hsends : ∀ g', sends g' (h ++ [VStreamSend g rpc]) =
    sends g' h ++ if decide (g = g') then [rpc] else []).
  { intros g'. rewrite srv_sends_snoc. f_equal. simpl. rewrite filter_cons, filter_nil. simpl.
    by case_decide. }
  split; simpl; try done.
  - intros id g' Hg'. destruct (iv_streams0 _ _ Hg') as (y & Hy & Hyp).
    destruct (decide (g = g')) as [<-|Hne].
    + exists (set_ch (g_ch x ++ [rpc]) x). rewrite lookup_insert_eq. simplify_eq. done.
    + exists y. by rewrite lookup_insert_ne.
  - intros g' y. rewrite lookup_insert_Some. intros [[<- <-]|[Hne Hy]] Hpc; [|eauto].
    exact (iv_live0 _ _ Hx Hpc).
  - intros g' y. rewrite lookup_insert_Some. intros [[<- <-]|[Hne Hy]]; [|eauto].
    exact (iv_pc0 _ _ Hx).
  - intros g' y. rewrite srv_recvs_snoc, Hsends, lookup_insert_Some, app_nil_r.
    intros [[<- <-]|[Hne Hy]].
    + destruct (iv_ch0 _ _ Hx) as (Hl & Heq & Hf). rewrite decide_True by done. simpl.
      split_and!.
      * rewrite length_app. simpl. lia.
      * by rewrite app_assoc, Heq.
      * apply Forall_app. split; [done|]. apply Forall_singleton.
        destruct (iv_streams0 _ _ (iv_send0 _ _ eq_refl)) as (y & Hy & Hid & _). by simplify_eq.
    + rewrite decide_False, app_nil_r by done. eauto.
  - intros g' [Hg' Hne]%lookup_insert_None. rewrite srv_recvs_snoc, Hsends, decide_False by done.
    rewrite !app_nil_r. auto.
  - rewrite srv_all_sends_snoc, srv_reads_snoc, fmap_app. simpl. by rewrite !app_nil_r.
Qed.

Lemma conn_inv_got h s g x rpc l :
  conn_inv h s → v_gs s !! g = Some x → g_ch x = rpc :: l →
  conn_inv (h ++ [GotRpc g rpc]) (set_g g (set_ch l (set_recv false x)) s).
Proof.
  intros [] Hx Hch.
  assert (Hsends : ∀ g', sends g' (h ++ [GotRpc g rpc]) = sends g' h)
    by (intros; rewrite srv_sends_snoc; simpl; by rewrite app_nil_r).
  assert (Hall : all_sends (h ++ [GotRpc g rpc]) = all_sends h) by (by rewrite srv_all_sends_snoc, app_nil_r).
  split; simpl; try done.
  - intros id g' Hg'. destruct (iv_streams0 _ _ Hg') as (y & Hy & Hyp).
    destruct (decide (g = g')) as [<-|Hne].
    + eexists. rewrite lookup_insert_eq. simplify_eq. split; [done|]. simpl. naive_solver.
    + exists y. by rewrite lookup_insert_ne.
  - intros g' y. rewrite lookup_insert_Some. intros [[<- <-]|[Hne Hy]] Hpc; [|eauto].
    exact (iv_live0 _ _ Hx Hpc).
  - intros g' y. rewrite lookup_insert_Some. intros [[<- <-]|[Hne Hy]]; [|eauto].
    exact (iv_pc0 _ _ Hx).
  - intros g' y. rewrite srv_recvs_snoc, Hsends, lookup_insert_Some. simpl.
    intros [[<- <-]|[Hne Hy]].
    + destruct (iv_ch0 _ _ Hx) as (Hl & Heq & Hf). rewrite decide_True by done.
      rewrite Hch in *. simpl in *. split_and!; [lia| |done]. by rewrite <-app_assoc.
    + rewrite decide_False, app_nil_r by done. eauto.
  - intros g' [Hg' Hne]%lookup_insert_None. rewrite srv_recvs_snoc, Hsends. simpl.
    rewrite decide_False, app_nil_r by done. auto.
  - rewrite Hall, srv_reads_snoc, app_nil_r. done.
Qed.

Lemma conn_inv_unregister h s g x :
  conn_inv h s → v_gs s !! g = Some x → g_pc x = GUnreg → mu_free s →
  conn_inv (h ++ [GUnregister g]) (unregisterStream g x (set_g g (set_pc GExit x) s)).
Proof.
  intros [] Hx Hpc Hmu.
  assert (Hreg : v_streams s !! g_id x = Some g) by (apply iv_live0; [done|by rewrite Hpc]).
  assert (Hsends : ∀ g', sends g' (h ++ [GUnregister g]) = sends g' h)
    by (intros; rewrite srv_sends_snoc; simpl; by rewrite app_nil_r).
  assert (Hrecvs : ∀ g', recvs g' (h ++ [GUnregister g]) = recvs g' h)
    by (intros; by rewrite srv_recvs_snoc, app_nil_r).
  assert (Hall : all_sends (h ++ [GUnregister g]) = all_sends h) by (by rewrite srv_all_sends_snoc, app_nil_r).
  unfold unregisterStream. simpl. rewrite Hreg, lookup_insert_eq. unfold set_g. simpl.
  rewrite insert_insert_eq.
  split; simpl.
  - intros id g' [Hne Hg']%lookup_delete_Some.
    destruct (iv_streams0 _ _ Hg') as (y & Hy & Hid & Hyp). exists y.
    rewrite lookup_insert_ne; [done|]. intros <-. simplify_eq.
  - intros g' y. rewrite lookup_insert_Some. intros [[<- <-]|[Hne Hy]] Hpc'; [done|].
    rewrite lookup_delete_ne; [by apply iv_live0|]. intros Heq.
    pose proof (iv_live0 _ _ Hy Hpc'). congruence.
  - intros g' rpc Hsv. unfold mu_free in Hmu. by rewrite Hsv in Hmu.
  - intros err Hsv. apply iv_exit0 in Hsv. by rewrite Hsv in Hreg.
  - intros g' y. rewrite lookup_insert_Some. intros [[<- <-]|[Hne Hy]]; [done|eauto].
  - intros g' y. rewrite Hrecvs, Hsends, lookup_insert_Some. intros [[<- <-]|[Hne Hy]]; [|eauto].
    apply (iv_ch0 _ _ Hx).
  - intros g' [Hg' Hne]%lookup_insert_None. rewrite Hrecvs, Hsends. auto.
  - by rewrite Hall, srv_reads_snoc, app_nil_r.
Qed.

(** ** Reachability *)
Section reachable.
Context {Msg Impl Handler : Type}.
Context `{Unicode, MetadataPkg, StatusPkg, Codec Msg, StatsHandler Handler}.
Context (srv : Server Msg Impl Handler) (clientCtx : Ctx).

Lemma conn_inv_init : conn_inv [] newHandler.
Proof. split; try done; intros; simplify_map_eq. Qed.

(** What processStreamingRpc finds. *)
Lemma stream_decide_spec now m rpc :
  match stream_decide now clientCtx m rpc with
  | SCancel g | SDeliver g => m !! rpc_Id rpc = Some g
  | SIgnore => True
  | SReset | SStart => m !! rpc_Id rpc = None
  end.
Proof. unfold stream_decide. repeat case_match; naive_solver. Qed.

Lemma after_write_same x rpc :
  g_pc x = GSend rpc ∨ g_pc x = GTrailer rpc →
  g_id (after_write x) = g_id x ∧ g_ch (after_write x) = g_ch x ∧
  g_done (after_write x) = g_done x ∧ pc_addressed (after_write x) ∧ (g_pc (after_write x) = GExit ↔ g_pc x = GExit).
Proof. unfold after_write, pc_addressed. by intros [-> | ->]. Qed.

Lemma conn_inv_decision h s now rpc :
  conn_inv h s → v_serve s = VLock rpc →
  conn_inv (h ++ [VStream now])
    (apply_decision (stream_decide now clientCtx (v_streams s) rpc) rpc s).
Proof.
  intros Hinv Hsv. pose proof (stream_decide_spec now (v_streams s) rpc) as Hd.
  assert (Hl : silent (VStream now)) by done.
  assert (Hr : in_hand VRead `sublist_of` in_hand (v_serve s)) by apply sublist_nil_l.
  destruct (stream_decide _ _ _ _) as [g|g| | |]; simpl.
  - destruct (v_gs s !! g) as [x|] eqn:Hx; [|by eapply conn_inv_serve].
    by eapply (conn_inv_set_g h s _ _ g x).
  - eapply conn_inv_serve; eauto; simpl; [|done|by rewrite Hsv]. intros g' rpc' [= <- <-]. done.
  - by eapply conn_inv_serve.
  - eapply conn_inv_serve; eauto; simpl; [done..|by rewrite Hsv].
  - apply conn_inv_start; [done..|by rewrite Hsv|done].
Qed.

Lemma conn_inv_read h s rpc :
  conn_inv h s → v_serve s = VRead → conn_inv (h ++ [EnvRead rpc]) (set_serve (VDispatch rpc) s).
Proof.
  intros [] Hsv. rewrite Hsv in *.
  assert (Hs : ∀ g, sends g (h ++ [EnvRead rpc]) = sends g h)
    by (intros; rewrite srv_sends_snoc; simpl; by rewrite app_nil_r).
  assert (Hr : ∀ g, recvs g (h ++ [EnvRead rpc]) = recvs g h)
    by (intros; by rewrite srv_recvs_snoc, app_nil_r).
  split; simpl; try done.
  - intros g x Hx. rewrite Hr, Hs. eauto.
  - intros g Hg. rewrite Hr, Hs. eauto.
  - rewrite srv_all_sends_snoc, srv_reads_snoc, app_nil_r. simpl in *. rewrite app_nil_r in iv_reads0.
    by apply sublist_app.
Qed.

Lemma conn_inv_step h s l s' :
  conn_inv h s → step srv clientCtx (Ret s) l (Ret s') → conn_inv (h ++ [l]) s'.
Proof.
  intros Hinv Hstep. inversion Hstep; subst; clear Hstep.
  (* the serve loop *)
  all: try by eauto using conn_inv_read, conn_inv_decision, conn_inv_stream_send, conn_inv_got,
    conn_inv_unregister.
  all: try (eapply conn_inv_serve; [done|done|done|done|..]; simpl; try apply Hinv; try done;
    apply sublist_nil_l).
  - destruct (v_serve s) eqn:Hsv; simplify_eq.
    eapply conn_inv_serve; [done..| | |]; rewrite ?Hsv; simpl; unfold serve_decide;
      case_match; try done. apply sublist_nil_l.
  - destruct werr; eapply conn_inv_serve; try done; simpl; apply sublist_nil_l.
  - eapply (conn_inv_set_g h s _ _ g x); try done. apply sublist_nil_l.
  - eapply (conn_inv_set_g h s _ _ g x); try done. apply sublist_nil_l.
  - destruct r; simplify_eq/=. eapply conn_inv_serve; try done; apply Hinv.
  - (* the writer takes a stream's Rpc *)
    destruct (after_write_same x rpc) as (? & ? & Hd & ? & ?); [done|].
    eapply (conn_inv_set_g h s _ _ g x); try done; try apply Hinv. by rewrite Hd.
  - destruct werr; eapply conn_inv_serve; try done; apply Hinv.
  - eapply (conn_inv_set_g h s _ _ g x); try done; apply Hinv.
  - eapply (conn_inv_set_g h s _ _ g x); try done; try apply Hinv; split; simpl; congruence.
  - eapply (conn_inv_set_g h s _ _ g x); try done; try apply Hinv; split; simpl; congruence.
  - eapply (conn_inv_set_g h s _ _ g x); try done; apply Hinv.
  - eapply (conn_inv_set_g h s _ _ g x); try done; apply Hinv.
  - destruct (after_write_same x rpc) as (? & ? & Hd & ? & ?); [done|].
    eapply (conn_inv_set_g h s _ _ g x); try done; try apply Hinv. by rewrite Hd.
Qed.

Lemma conn_inv_trace h s :
  trace (step srv clientCtx) (Ret newHandler) h (Ret s) → conn_inv h s.
Proof.
  intros Htr.
  refine (trace_history_invariant (step srv clientCtx)
    (λ h o, match o with Ret s => conn_inv h s | Panic _ => True end)
    _ [] (Ret newHandler) h (Ret s) conn_inv_init Htr).
  clear. intros h [s|] l [s'|] Hinv Hst; try done; [by eapply conn_inv_step|inversion Hst].
Qed.

(** Once serve has returned, h.ctx is done, and the stream it waits for is
    cancelled and has not unregistered or has left its token. *)
Definition returned (p : serve_pc) : Prop :=
  match p with VWaitLock _ | VWaitDone _ _ | VExit _ => True | _ => False end.
Record wait_inv (s : conn) : Prop := {
  wi_ctx : returned (v_serve s) → v_ctx s = true;
  wi_wait g err : v_serve s = VWaitDone g err →
    ∃ x, v_gs s !! g = Some x ∧ g_cancelled x = true ∧ (g_done x = true ∨ g_pc x ≠ GExit) }.

Lemma wait_inv_same s s' :
  wait_inv s → v_serve s' = v_serve s → v_gs s' = v_gs s → (v_ctx s = true → v_ctx s' = true) →
  wait_inv s'.
Proof. intros [] Hsv Hgs Hc. split; rewrite Hsv, ?Hgs; eauto. Qed.

Lemma wait_inv_set_g s s' g x x' :
  wait_inv s → v_serve s' = v_serve s → v_ctx s' = v_ctx s →
  v_gs s' = <[g := x']> (v_gs s) → v_gs s !! g = Some x →
  (g_cancelled x = true → g_cancelled x' = true) →
  (g_done x = true ∨ g_pc x ≠ GExit → g_done x' = true ∨ g_pc x' ≠ GExit) → wait_inv s'.
Proof.
  intros [] Hsv Hc Hgs Hx Hca Hd. split; rewrite Hsv, ?Hc, ?Hgs; [done|].
  intros g2 err Hw. destruct (wi_wait0 _ _ Hw) as (y & Hy & Hyc & Hyd).
  destruct (decide (g = g2)) as [<-|Hne].
  - exists x'. rewrite lookup_insert_eq. simplify_eq. auto.
  - exists y. by rewrite lookup_insert_ne.
Qed.

Lemma wait_inv_serve s :
  (∀ g err, v_serve s ≠ VWaitDone g err) → (returned (v_serve s) → v_ctx s = true) → wait_inv s.
Proof. intros Hne Hc. split; [done|]. intros g err Hw. by destruct (Hne g err). Qed.

Lemma wait_inv_step h s l s' :
  conn_inv h s → wait_inv s → step srv clientCtx (Ret s) l (Ret s') → wait_inv s'.
Proof.
  intros Hinv Hw Hstep. inversion Hstep; subst; clear Hstep.
  all: try (by apply wait_inv_serve).
  all: try (by eapply wait_inv_same).
  all: try (eapply wait_inv_set_g; [done|done|done|done|done|by auto|by auto]).
  - apply wait_inv_serve; simpl; unfold serve_decide; by case_match.
  - pose proof (stream_decide_spec now (v_streams s) rpc).
    apply wait_inv_serve; destruct (stream_decide _ _ _ _); simpl; repeat case_match; done.
  - apply wait_inv_serve; by destruct werr.
  - (* VPick *)
    destruct (iv_streams _ _ Hinv id g) as (y & Hy & _ & Hpc & _); [done|]. simplify_eq.
    split; simpl.
    + intros _. apply (wi_ctx s); [done|]. by match goal with Hv : v_serve s = _ |- _ => rewrite Hv end.
    + intros g' err' [= <- <-]. eexists. rewrite lookup_insert_eq. split; [done|]. simpl. auto.
  - apply wait_inv_serve; [done|]. intros _. apply (wi_ctx s); [done|].
    by match goal with Hv : v_serve s = _ |- _ => rewrite Hv end.
  - apply wait_inv_serve; [done|]. intros _. apply (wi_ctx s); [done|].
    by match goal with Hv : v_serve s = _ |- _ => rewrite Hv end.
  - destruct r; simplify_eq/=. by eapply wait_inv_same.
  - destruct (after_write_same x rpc) as (_ & _ & Hd & _ & Hpc); [done|].
    eapply (wait_inv_set_g s _ g x); try done; rewrite ?Hd, ?Hpc; [|done].
    unfold after_write. by destruct (g_pc x).
  - by eapply wait_inv_same; [done|destruct werr..].
  - destruct (after_write_same x rpc) as (_ & _ & Hd & _ & Hpc); [done|].
    eapply (wait_inv_set_g s _ g x); try done; rewrite ?Hd, ?Hpc; [|done].
    unfold after_write. by destruct (g_pc x).
  - (* GUnregister *)
    pose proof (iv_live _ _ Hinv g x) as Hreg. unfold unregisterStream. simpl.
    rewrite Hreg, lookup_insert_eq by (done || congruence).
    eapply (wait_inv_set_g s _ g x (set_token true (cancel_g (set_pc GExit x)))); try done; simpl.
    + by rewrite insert_insert_eq.
    + by left.
Qed.

Lemma wait_inv_trace h s :
  trace (step srv clientCtx) (Ret newHandler) h (Ret s) → wait_inv s.
Proof.
  intros Htr.
  refine (proj2 (trace_history_invariant (step srv clientCtx)
    (λ h o, match o with Ret s => conn_inv h s ∧ wait_inv s | Panic _ => True end)
    _ [] (Ret newHandler) h (Ret s) (conj conn_inv_init (wait_inv_serve newHandler _ _)) Htr)); [|done|by intros []].
  clear. intros h [s|] l [s'|] Hinv Hst; try done; [|inversion Hst].
  destruct Hinv. eauto using conn_inv_step, wait_inv_step.
Qed.

(** Goroutines keep their ids. *)
Definition same_id (m m' : gmap nat stream) : Prop :=
  ∀ g x, m !! g = Some x → ∃ x', m' !! g = Some x' ∧ g_id x' = g_id x.

Lemma same_id_refl m : same_id m m.
Proof. intros g x Hx. eauto. Qed.
Lemma same_id_set m g x x' : m !! g = Some x → g_id x' = g_id x → same_id m (<[g := x']> m).
Proof.
  intros Hx Hid g' y Hy. destruct (decide (g = g')) as [<-|Hne].
  - rewrite lookup_insert_eq. simplify_eq. eauto.
  - rewrite lookup_insert_ne by done. eauto.
Qed.
Lemma same_id_new m g x : m !! g = None → same_id m (<[g := x]> m).
Proof. intros Hx g' y Hy. rewrite lookup_insert_ne by congruence. eauto. Qed.
Lemma same_id_trans m1 m2 m3 : same_id m1 m2 → same_id m2 m3 → same_id m1 m3.
Proof. intros H12 H23 g x Hx. destruct (H12 g x Hx) as (y & Hy & <-). eauto. Qed.

Lemma step_same_id v l v' : step srv clientCtx (Ret v) l (Ret v') → same_id (v_gs v) (v_gs v').
Proof.
  intros Hst. inversion Hst; subst; simpl; try apply same_id_refl;
    try (by eapply same_id_set; [done|]; unfold after_write; destruct (g_pc x)).
  - unfold apply_decision. destruct (stream_decide _ _ _ _) as [g|g| | |]; simpl; try apply same_id_refl.
    + destruct (v_gs v !! g) as [x|] eqn:Hx; [by eapply same_id_set|apply same_id_refl].
    + apply same_id_new, new_stream_fresh.
  - destruct werr; apply same_id_refl.
  - destruct r; simplify_eq/=. apply same_id_refl.
  - destruct werr; apply same_id_refl.
  - assert (Hs : same_id (v_gs v) (<[g := set_pc GExit x]> (v_gs v))) by by eapply same_id_set.
    unfold unregisterStream. simpl. destruct (v_streams v !! g_id x) as [g2|]; simpl; [|done].
    destruct (<[g := set_pc GExit x]> (v_gs v) !! g2) as [y|] eqn:Hy; simpl; [|done].
    eapply same_id_trans; [exact Hs|by eapply same_id_set].
Qed.

(** The serve loop's view of the Rpc in its hand. *)
Definition hand_inv (s : conn) : Prop :=
  match v_serve s with
  | VSendWorker rpc => is_unary srv rpc
  | VLock rpc => is_stream srv rpc
  | VSendStream _ rpc => is_stream srv rpc ∧ is_reset rpc = false
  | VReset rpc => v_streams s !! rpc_Id rpc = None
  | _ => True
  end.

(** The history [h] since the goroutine [g] was started for the id: [h2]. *)
Definition began (h : list label) (g : nat) (id : Z) (h2 : list label) : Prop :=
  ∃ h1 now s0 opening, h = h1 ++ VStream now :: h2 ∧
    trace (step srv clientCtx) (Ret newHandler) h1 (Ret s0) ∧
    v_serve s0 = VLock opening ∧ rpc_Id opening = id ∧
    stream_decide now clientCtx (v_streams s0) opening = SStart ∧ new_stream s0 = g.

(** What the goroutine's stream is due. *)
Definition routed (h : list label) (s : conn) (g : nat) (x : stream) : Prop :=
  ∃ h2, began h g (g_id x) h2 ∧
    sends g h `prefix_of` msgs_for srv (g_id x) (reads h2) ∧
    (v_streams s !! g_id x = Some g → ¬ returned (v_serve s) →
     sends g h ++ msgs_for srv (g_id x) (in_hand (v_serve s)) = msgs_for srv (g_id x) (reads h2)).

Lemma began_snoc h g id h2 l : began h g id h2 → began (h ++ [l]) g id (h2 ++ [l]).
Proof.
  intros (h1 & now & s0 & op & -> & ?). exists h1, now, s0, op. split; [|done]. by rewrite <-app_assoc.
Qed.
Lemma began_after h s now opening :
  trace (step srv clientCtx) (Ret newHandler) h (Ret s) → v_serve s = VLock opening →
  stream_decide now clientCtx (v_streams s) opening = SStart →
  began (h ++ [VStream now]) (new_stream s) (rpc_Id opening) [].
Proof. intros. by exists h, now, s, opening. Qed.

Lemma msgs_for_app id l1 l2 : msgs_for srv id (l1 ++ l2) = msgs_for srv id l1 ++ msgs_for srv id l2.
Proof. apply filter_app. Qed.
Lemma msgs_for_one id rpc : stream_msg srv id rpc → msgs_for srv id [rpc] = [rpc].
Proof. intros. unfold msgs_for. by rewrite filter_cons_True. Qed.
Lemma msgs_for_none id rpc : ¬ stream_msg srv id rpc → msgs_for srv id [rpc] = [].
Proof. intros. unfold msgs_for. by rewrite filter_cons_False. Qed.

(** A step that neither reads nor sends. *)
Lemma routed_keep h s l s' g x x' :
  routed h s g x → g_id x' = g_id x → reads_of l = [] → sends_of l = [] →
  (v_streams s' !! g_id x = Some g → ¬ returned (v_serve s') →
   v_streams s !! g_id x = Some g ∧ ¬ returned (v_serve s) ∧
   msgs_for srv (g_id x) (in_hand (v_serve s')) = msgs_for srv (g_id x) (in_hand (v_serve s))) →
  routed (h ++ [l]) s' g x'.
Proof.
  intros (h2 & Hst & Hpre & Heq) Hid Hr Hs Hk. exists (h2 ++ [l]). rewrite Hid.
  rewrite srv_sends_snoc, srv_reads_snoc, Hr, Hs, !app_nil_r. split_and!; [by apply began_snoc|done|].
  intros Hreg Hret. destruct (Hk Hreg Hret) as (? & ? & ->). auto.
Qed.

(** Where a goroutine comes from. *)
Lemma step_new s l s' g x :
  step srv clientCtx (Ret s) l (Ret s') → v_gs s !! g = None → v_gs s' !! g = Some x →
  ∃ now opening, l = VStream now ∧ v_serve s = VLock opening ∧ g = new_stream s ∧ g_id x = rpc_Id opening ∧
    stream_decide now clientCtx (v_streams s) opening = SStart ∧ v_serve s' = VRead.
Proof.
  intros Hst Hn Hx. assert (Hset : ∀ g2 y y' z, v_gs s !! g2 = Some y → <[g2 := y']> (v_gs s) !! g ≠ Some z).
  { intros g2 y y' z Hy. destruct (decide (g2 = g)) as [->|Hne]; [congruence|]. rewrite lookup_insert_ne by done. congruence. }
  inversion Hst; subst; simpl in *; try congruence; try (by exfalso; eapply Hset).
  - exists now, rpc. destruct (stream_decide _ _ _ _) as [g'|g'| | |] eqn:Hd; simpl in *; try congruence.
    + destruct (v_gs s !! g') eqn:E; simpl in *; [by exfalso; eapply Hset|congruence].
    + apply lookup_insert_Some in Hx as [[<- <-]|[_ Hx]]; [done|congruence].
  - by destruct werr; simpl in *; congruence.
  - by destruct r; simplify_eq/=.
  - by destruct werr; simpl in *; congruence.
  - exfalso. unfold unregisterStream in Hx. simpl in Hx. destruct (v_streams s !! g_id x0) as [g2|]; simpl in Hx; [|by eapply Hset].
    destruct (<[g0 := set_pc GExit x0]> (v_gs s) !! g2) as [y|] eqn:Hy; simpl in Hx; [|by eapply Hset].
    apply lookup_insert_Some in Hx as [[-> <-]|[_ Hx]]; [|by eapply Hset]. by eapply Hset.
Qed.
Lemma unregister_serve g x s : v_serve (unregisterStream g x s) = v_serve s.
Proof. unfold unregisterStream. by repeat case_match. Qed.

Lemma hand_inv_step s l s' : hand_inv s → step srv clientCtx (Ret s) l (Ret s') → hand_inv s'.
Proof.
  unfold hand_inv. intros Hi Hst. inversion Hst; subst; simpl; try done.
  - pose proof (serve_decide_spec srv rpc). by destruct (serve_decide srv rpc); naive_solver.
  - match goal with Hs : v_serve s = _ |- _ => rewrite Hs in Hi end. unfold stream_decide.
    destruct (v_streams s !! rpc_Id rpc) as [g|] eqn:E.
    + destruct (is_reset rpc) eqn:Er; simpl; [by destruct (v_gs s !! g)|done].
    + destruct (is_reset rpc), (GetBody (Some rpc)), (GetTrailer (Some rpc)), (GetHeader (Some rpc)) as [hd|]; try done.
      by destruct (contextFromHeaders now clientCtx hd).2.
  - by destruct werr.
  - by destruct r; simplify_eq/=.
  - by destruct werr.
  - rewrite unregister_serve. simpl. unfold mu_free in *. by destruct (v_serve s).
Qed.

Lemma unregister_streams g x s : v_streams (unregisterStream g x s) = delete (g_id x) (v_streams s).
Proof. unfold unregisterStream. by repeat case_match. Qed.

(** processStreamingRpc passes every message of a running stream on. *)
Lemma decision_keeps h s now rpc g x :
  conn_inv h s → v_gs s !! g = Some x →
  let s' := apply_decision (stream_decide now clientCtx (v_streams s) rpc) rpc s in
  v_streams s' !! g_id x = Some g → ¬ returned (v_serve s') →
  v_streams s !! g_id x = Some g ∧ ¬ returned (VLock rpc) ∧
  msgs_for srv (g_id x) (in_hand (v_serve s')) = msgs_for srv (g_id x) (in_hand (VLock rpc)).
Proof.
  intros Hc Hx s' Hreg _.
  assert (Hsame : v_streams s !! g_id x = Some g).
  { subst s'. destruct (stream_decide _ _ _ _) as [g'|g'| | |]; simpl in *; try done.
    - by destruct (v_gs s !! g').
    - apply lookup_insert_Some in Hreg as [[_ <-]|[_ Hreg]]; [|done]. by rewrite new_stream_fresh in Hx. }
  split_and!; [done|by intros []|]. subst s'. simpl.
  destruct (decide (stream_msg srv (g_id x) rpc)) as [Hm|Hm]; [|rewrite (msgs_for_none _ rpc) by done].
  - destruct Hm as (Hrid & Hs & Hr). unfold stream_decide. by rewrite Hrid, Hsame, Hr.
  - destruct (stream_decide _ _ _ _) as [g'|g'| | |]; simpl; try done; try by apply msgs_for_none.
    by destruct (v_gs s !! g').
Qed.

Lemma routed_step h s l s' g x x' :
  conn_inv h s → hand_inv s → step srv clientCtx (Ret s) l (Ret s') →
  v_gs s !! g = Some x → g_id x' = g_id x → routed h s g x → routed (h ++ [l]) s' g x'.
Proof.
  intros Hc Hi Hst Hx Hid Hrt. pose proof Hst as Hst0. unfold hand_inv in Hi. inversion Hst; subst.
  all: try (by apply (routed_keep h s _ _ g x x')).
  all: try match goal with Hs : v_serve _ = _ |- _ => rename Hs into Hsv; rewrite Hsv in Hi end.
  - destruct Hrt as (h2 & Hs & Hpre & Heq). exists (h2 ++ [EnvRead rpc]). rewrite Hid, srv_sends_snoc, srv_reads_snoc, msgs_for_app.
    rewrite Hsv in Heq. simpl in *. rewrite !app_nil_r in *. split_and!; [by apply began_snoc|by apply prefix_app_r|].
    intros Hreg _. by rewrite <-(Heq Hreg) by (by intros []).
  - apply (routed_keep h s _ _ g x x'); try done. rewrite Hsv. simpl. intros Hreg _. split_and!; [done|by intros []|].
    pose proof (serve_decide_spec srv rpc) as Hd. destruct (serve_decide srv rpc); simpl; try done; try by destruct Hd as [-> _].
    symmetry. apply msgs_for_none. unfold stream_msg. tauto.
  - apply (routed_keep h s _ _ g x x'); try done. rewrite Hsv. simpl. intros Hreg _. split_and!; [done|by intros []|].
    symmetry. apply msgs_for_none. intros (_ & Hst' & _). by apply (is_stream_not_unary srv rpc).
  - apply (routed_keep h s _ _ g x x'); try done. rewrite Hsv. by eapply decision_keeps.
  - rename x0 into y. pose proof (iv_send _ _ Hc _ _ Hsv) as Hrpc. destruct Hrt as (h2 & Hs & Hpre & Heq).
    exists (h2 ++ [VStreamSend g0 rpc]). rewrite Hid, srv_sends_snoc, srv_reads_snoc. cbn [sends_of reads_of]. rewrite app_nil_r.
    rewrite Hsv in Heq. destruct (decide (g0 = g)) as [->|Hne].
    + rewrite filter_cons_True, filter_nil by done. simpl. rewrite app_nil_r.
      destruct (iv_streams _ _ Hc _ _ Hrpc) as (x0 & Hx0 & Hid0 & _). simplify_eq.
      rewrite Hid0 in *. rewrite <-Heq in * by (done || by intros []). simpl in *.
      rewrite msgs_for_one in * by done. split_and!; [by apply began_snoc|done|done].
    + rewrite filter_cons_False, filter_nil, app_nil_r by done. split_and!; [by apply began_snoc|done|].
      simpl in *. intros Hreg _. rewrite <-(Heq Hreg) by (by intros []). f_equal. symmetry. apply msgs_for_none.
      intros [Hrid _]. congruence.
  - destruct werr; [by apply (routed_keep h s _ _ g x x')|]. apply (routed_keep h s _ _ g x x'); try done. rewrite Hsv.
    simpl. intros Hreg _. split_and!; [done|by intros []|]. symmetry. apply msgs_for_none. intros [Hrid _]. congruence.
  - destruct r; simplify_eq/=. by apply (routed_keep h s _ _ g x x').
  - by apply (routed_keep h s _ _ g x x'); destruct werr.
  - apply (routed_keep h s _ _ g x x'); try done. rewrite unregister_serve, unregister_streams.
    simpl. by intros [_ ?]%lookup_delete_Some.
Qed.

Lemma routed_trace h s :
  trace (step srv clientCtx) (Ret newHandler) h (Ret s) → ∀ g x, v_gs s !! g = Some x → routed h s g x.
Proof.
  intros Htr. refine (proj2 (proj2 (proj2 (trace_history_invariant (step srv clientCtx)
    (λ h o, match o with Ret s => trace (step srv clientCtx) (Ret newHandler) h (Ret s) ∧ conn_inv h s ∧ hand_inv s ∧
       ∀ g x, v_gs s !! g = Some x → routed h s g x | Panic _ => True end)
    _ [] (Ret newHandler) h (Ret s) _ Htr)))).
  - clear. intros h [s|] l [s'|] Hinv Hst; try done; [|inversion Hst]. destruct Hinv as (Htr & Hc & Hi & Hr).
    split_and!; [by eapply trace_app, trace_one|by eapply conn_inv_step|by eapply hand_inv_step|].
    intros g x' Hx'. destruct (v_gs s !! g) as [x|] eqn:Hx.
    + destruct (step_same_id _ _ _ Hst g x Hx) as (y & Hy & Hid). simplify_eq.
      by apply (routed_step h s l s' g x x'); auto.
    + destruct (step_new _ _ _ _ _ Hst Hx Hx') as (now & op & -> & Hsv & -> & Hid & Hd & Hsv').
      exists []. rewrite Hid, Hsv', srv_sends_snoc. rewrite (proj2 (iv_none _ _ Hc _ Hx)).
      split_and!; [by apply began_after|done|done].
  - split_and!; [constructor|apply conn_inv_init|done|]. intros g x Hx. by apply (lookup_empty_Some (M:=gmap nat) g x) in Hx.
Qed.

(** C38: at every moment of a connection, at most one goroutine serves a stream
    id: the streams of [h.streams] are exactly the goroutines that have not
    unregistered, each under its own id.  What a stream's handler received,
    followed by what its channel holds (at most one Rpc), is what the serve loop
    sent it.  Every goroutine was started by an Rpc that opened a stream with its
    id, and what it was sent is, in order and from the first one on, the stream
    messages with its id (all its Rpcs but resets) that the transport gave since:
    while the stream is registered and the serve loop has not returned, each of
    them was received, is in the channel, or is the one the serve loop is
    handling.  And the Rpcs sent to all streams were read in the order in which
    they were sent, none twice. *)
Theorem server_stream_routing h s :
  trace (step srv clientCtx) (Ret newHandler) h (Ret s) →
  (∀ id g, v_streams s !! id = Some g ↔
     ∃ x, v_gs s !! g = Some x ∧ g_id x = id ∧ g_pc x ≠ GExit) ∧
  (∀ g x, v_gs s !! g = Some x →
     length (g_ch x) ≤ 1 ∧ recvs g h ++ g_ch x = sends g h ∧
     ∃ h2, began h g (g_id x) h2 ∧
       sends g h `prefix_of` msgs_for srv (g_id x) (reads h2) ∧
       (v_streams s !! g_id x = Some g → ¬ returned (v_serve s) →
        recvs g h ++ g_ch x ++ msgs_for srv (g_id x) (in_hand (v_serve s)) =
        msgs_for srv (g_id x) (reads h2))) ∧
  (all_sends h).*2 `sublist_of` reads h.
Proof.
  intros Htr. destruct (conn_inv_trace _ _ Htr) as []. split_and!.
  - intros id g. split.
    + intros Hid. destruct (iv_streams0 _ _ Hid) as (x & ? & ? & ? & _). by exists x.
    + intros (x & Hx & <- & Hpc). eauto.
  - intros g x Hx. destruct (iv_ch0 _ _ Hx) as (? & Heq & _). split_and!; [done..|].
    rewrite app_assoc, Heq. exact (routed_trace _ _ Htr g x Hx).
  - etrans; [|exact iv_reads0]. by apply sublist_inserts_r.
Qed.
End reachable.
