(* ===== verification/ServerUnary.v ===== *)
(** * server.go: what becomes of a unary request

    The serve loop hands a unary request to an idle worker, the worker runs
    processUnaryRpc, and the writer takes the response.  This file accounts for
    every request and every response of a connection (file [ServerLoop]), and
    traces every Rpc the server writes back to one that it read. *)

From S2P Require Import Prelude GoString Rpc Errors Metadata RequestContext Runtime TransportStream Interceptors Server ServerLoop.

Section unary.
Context {Msg Impl Handler : Type}.
Context `{Unicode, MetadataPkg, StatusPkg, Codec Msg, StatsHandler Handler}.
Context (srv : Server Msg Impl Handler) (clientCtx : Ctx).

Abbreviation is_unary := (ServerLoop.is_unary srv).
Abbreviation is_stream := (ServerLoop.is_stream srv).

(** What the workers are at. *)
Definition running (p : worker_pc) : list Rpc := match p with WRun rpc => [rpc] | _ => [] end.
Definition responding (p : worker_pc) : list Rpc := match p with WSend resp => [resp] | _ => [] end.

Definition writing (p : writer_pc) : list Rpc := match p with RWriting rpc => [rpc] | _ => [] end.

Definition taken_of (l : label) : list Rpc := match l with WriteWorker _ rpc => [rpc] | _ => [] end.
(** The responses that the writer took from workers. *)
Definition taken (h : list label) : list Rpc := h ≫= taken_of.

Lemma taken_snoc h l : taken (h ++ [l]) = taken h ++ taken_of l.
Proof. unfold taken. by rewrite bind_app, bind_singleton. Qed.

(** The serve loop keeps unary requests and stream messages apart. *)
Definition serve_sorted (p : serve_pc) : Prop :=
  match p with
  | VSendWorker rpc => is_unary rpc
  | VLock rpc | VSendStream _ rpc | VReset rpc => is_stream rpc
  | _ => True
  end.

Lemma serve_decide_sorted rpc : serve_sorted (serve_decide srv rpc).
Proof.
  unfold serve_decide. destruct (dispatch srv rpc) eqn:E; simpl; [done|..];
    unfold is_unary, is_stream; by rewrite E.
Qed.

Lemma serve_decide_unary rpc :
  filter is_unary (in_hand (serve_decide srv rpc)) = filter is_unary [rpc].
Proof.
  unfold serve_decide. destruct (dispatch srv rpc) eqn:E; simpl; try done;
    (rewrite (filter_cons_False _ rpc); [done|unfold is_unary; rewrite E; tauto]).
Qed.

Record work_inv (h : list label) (s : conn) (runs : list (Rpc * Rpc)) (lost : list Rpc) : Prop := {
  wk_sorted : serve_sorted (v_serve s);
  wk_runs : Forall (λ p, worker_result srv clientCtx p.1 (Ret p.2)) runs;
  wk_out : runs.*2 ≡ₚ taken h ++ map_collect responding (v_workers s);
  wk_in : filter is_unary (reads h) ≡ₚ
    runs.*1 ++ map_collect running (v_workers s) ++ filter is_unary (in_hand (v_serve s)) ++ lost;
  wk_lost : lost = [] ∨ (length lost = 1 ∧ returned (v_serve s));
  wk_size : size (v_workers s) = numRpcWorkers }.

(** A step that leaves the workers and the requests in the serve loop alone. *)
Lemma work_inv_same h s l s' runs lost :
  work_inv h s runs lost → reads_of l = [] → taken_of l = [] → v_workers s' = v_workers s →
  serve_sorted (v_serve s') →
  filter is_unary (in_hand (v_serve s')) = filter is_unary (in_hand (v_serve s)) →
  (returned (v_serve s) → returned (v_serve s')) → work_inv (h ++ [l]) s' runs lost.
Proof.
  intros [] Hr Ht Hw Hs Hi Hret.
  split; rewrite ?taken_snoc, ?srv_reads_snoc, ?Hr, ?Ht, ?app_nil_r, ?Hw, ?Hi; try done.
  destruct wk_lost0 as [?|[? ?]]; [by left|right; auto].
Qed.

Lemma work_inv_frame h s l s' runs lost :
  work_inv h s runs lost → reads_of l = [] → taken_of l = [] → v_workers s' = v_workers s →
  v_serve s' = v_serve s → work_inv (h ++ [l]) s' runs lost.
Proof. intros Hinv ??? Hs. apply (work_inv_same h s); rewrite ?Hs; try done. apply Hinv. Qed.

(** A message for a stream is none of the workers' business. *)
Lemma unary_in_hand_stream p :
  serve_sorted p → (∀ rpc, p ≠ VDispatch rpc) → (∀ rpc, p ≠ VSendWorker rpc) →
  filter is_unary (in_hand p) = [].
Proof.
  intros Hs Hd Hw. destruct p; simpl in *; try done; try (by edestruct Hd); try (by edestruct Hw);
    apply filter_all_not, Forall_singleton; by apply is_stream_not_unary.
Qed.

Lemma work_inv_set_worker h s l w p q runs runs' lost sv :
  work_inv h s runs lost → v_workers s !! w = Some p →
  serve_sorted sv → (returned (v_serve s) → returned sv) → reads_of l = [] →
  Forall (λ p, worker_result srv clientCtx p.1 (Ret p.2)) runs' →
  (* what the step moves *)
  runs'.*2 ++ responding p ≡ₚ runs.*2 ++ taken_of l ++ responding q →
  runs.*1 ++ running p ++ filter is_unary (in_hand (v_serve s)) ≡ₚ
    runs'.*1 ++ running q ++ filter is_unary (in_hand sv) →
  ∀ s', v_workers s' = <[w := q]> (v_workers s) → v_serve s' = sv →
    work_inv (h ++ [l]) s' runs' lost.
Proof.
  intros [] Hw Hsv Hret Hr Hruns Hout Hin s' Hw' Hsv'.
  pose proof (map_collect_update responding w p q _ Hw) as Hresp.
  pose proof (map_collect_update running w p q _ Hw) as Hrun.
  split; rewrite ?taken_snoc, ?srv_reads_snoc, ?Hr, ?app_nil_r, ?Hw', ?Hsv'; try done.
  - apply (Permutation_app_inv_r (responding p)). rewrite Hout, wk_out0, <-!app_assoc, Hresp.
    rewrite !app_assoc. apply Permutation_app_tail. rewrite <-!app_assoc.
    apply Permutation_app_head, Permutation_app_comm.
  - apply (Permutation_app_inv_r (running p)). rewrite wk_in0.
    transitivity (map_collect running (v_workers s) ++ lost ++
      (runs.*1 ++ running p ++ filter is_unary (in_hand (v_serve s)))); [solve_Permutation|].
    rewrite Hin. transitivity ((map_collect running (v_workers s) ++ running q) ++ lost ++ runs'.*1 ++
      filter is_unary (in_hand sv)); [solve_Permutation|]. rewrite <-Hrun. solve_Permutation.
  - destruct wk_lost0 as [?|[? ?]]; [by left|right; auto].
  - rewrite map_size_insert_Some by (by eexists). done.
Qed.

(** A step of the serve loop that hands nothing to a worker. *)
Lemma work_inv_serve h s l s' runs lost :
  work_inv h s runs lost → reads_of l = [] → taken_of l = [] → v_workers s' = v_workers s →
  (∀ rpc, v_serve s ≠ VDispatch rpc) → (∀ rpc, v_serve s ≠ VSendWorker rpc) →
  serve_sorted (v_serve s') →
  (∀ rpc, v_serve s' ≠ VDispatch rpc) → (∀ rpc, v_serve s' ≠ VSendWorker rpc) →
  (returned (v_serve s) → returned (v_serve s')) → work_inv (h ++ [l]) s' runs lost.
Proof.
  intros Hinv ?????????. apply (work_inv_same h s); try done.
  by rewrite !unary_in_hand_stream by (done || apply Hinv).
Qed.

Lemma apply_decision_workers d rpc s :
  is_stream rpc →
  v_workers (apply_decision d rpc s) = v_workers s ∧ serve_sorted (v_serve (apply_decision d rpc s)) ∧
  (∀ rpc', v_serve (apply_decision d rpc s) ≠ VDispatch rpc') ∧
  (∀ rpc', v_serve (apply_decision d rpc s) ≠ VSendWorker rpc').
Proof. intros Hs. destruct d; simpl; repeat case_match; done. Qed.

Lemma unregisterStream_workers g x s :
  v_workers (unregisterStream g x s) = v_workers s ∧ v_serve (unregisterStream g x s) = v_serve s.
Proof. unfold unregisterStream. by repeat case_match. Qed.

Lemma work_inv_step h s l s' runs lost :
  work_inv h s runs lost → step srv clientCtx (Ret s) l (Ret s') →
  ∃ runs' lost', work_inv (h ++ [l]) s' runs' lost'.
Proof.
  intros Hinv Hst. pose proof (wk_sorted _ _ _ _ Hinv) as Hsort.
  inversion Hst; subst; clear Hst;
    try match goal with Hsv : v_serve _ = _ |- _ => rewrite Hsv in Hsort; simpl in Hsort end.
  all: try (exists runs, lost; by eapply work_inv_frame).
  all: try (exists runs, lost; eapply work_inv_serve; [done|done|done|done|..|done|done|done|];
    by match goal with Hsv : v_serve _ = _ |- _ => rewrite Hsv end).
  - (* EnvRead *)
    match goal with Hsv : v_serve _ = _ |- _ => rename Hsv into Hv end.
    exists runs, lost. destruct Hinv. rewrite Hv in *. split; rewrite ?taken_snoc, ?srv_reads_snoc; simpl; rewrite ?app_nil_r; try done.
    rewrite filter_app, wk_in0. simpl. solve_Permutation.
  - (* VDecide *)
    match goal with Hsv : v_serve _ = _ |- _ => rename Hsv into Hv end.
    exists runs, lost. apply (work_inv_same h s); try done; simpl.
    + apply serve_decide_sorted.
    + by rewrite serve_decide_unary, Hv.
    + by rewrite Hv.
  - (* VHandOff *)
    match goal with Hsv : v_serve _ = _ |- _ => rename Hsv into Hv end.
    exists runs, lost. eapply (work_inv_set_worker h s _ w WIdle (WRun rpc) runs runs lost VRead);
      try done; simpl; try (by rewrite Hv); [apply Hinv|].
    rewrite Hv. simpl. rewrite filter_cons_True, filter_nil by done. solve_Permutation.
  - (* VCtx *)
    match goal with Hsv : v_serve _ = _ |- _ => rename Hsv into Hv end.
    exists runs, [rpc]. destruct Hinv. rewrite Hv in *.
    split; rewrite ?taken_snoc, ?srv_reads_snoc; simpl; rewrite ?app_nil_r; try done; [|by right].
    destruct wk_lost0 as [->|[_ []]]. simpl in *. rewrite filter_cons_True, filter_nil in wk_in0 by done.
    by rewrite wk_in0.
  - (* VStream *)
    match goal with Hsv : v_serve _ = _ |- _ => rename Hsv into Hv end.
    destruct (apply_decision_workers (stream_decide now clientCtx (v_streams s) rpc) rpc s Hsort)
      as (? & ? & ? & ?).
    exists runs, lost. apply (work_inv_serve h s); try done; by rewrite Hv.
  - match goal with Hsv : v_serve _ = _ |- _ => rename Hsv into Hv end.
    exists runs, lost. destruct werr; apply (work_inv_serve h s); try done; by rewrite Hv.
  - (* WorkerRun *)
    destruct r as [resp|]; simplify_eq/=. exists (runs ++ [(rpc, resp)]), lost.
    eapply (work_inv_set_worker h s _ w (WRun rpc) (WSend resp)); try done; simpl.
    + apply Forall_app. split; [apply Hinv|by apply Forall_singleton].
    + rewrite fmap_app. simpl. by rewrite app_nil_r.
    + rewrite fmap_app. simpl. solve_Permutation.
  - exists runs, lost. eapply (work_inv_set_worker h s _ w WIdle WExit); try done; apply Hinv.
  - (* WriteWorker *)
    exists runs, lost. eapply (work_inv_set_worker h s _ w (WSend rpc) WIdle); try done; apply Hinv.
  - exists runs, lost. destruct werr; by eapply work_inv_frame.
  - (* GUnregister *)
    destruct (unregisterStream_workers g x (set_g g (set_pc GExit x) s)).
    exists runs, lost. by eapply work_inv_frame.
Qed.

Lemma work_inv_init : work_inv [] newHandler [] [].
Proof. split; (done || by left). Qed.

Lemma work_inv_trace h s :
  trace (step srv clientCtx) (Ret newHandler) h (Ret s) → ∃ runs lost, work_inv h s runs lost.
Proof.
  intros Htr.
  refine (trace_history_invariant (step srv clientCtx)
    (λ h o, match o with Ret s => ∃ runs lost, work_inv h s runs lost | Panic _ => True end)
    _ [] (Ret newHandler) h (Ret s) _ Htr); [|by exists [], []; apply work_inv_init].
  clear. intros h [s|] l [s'|] Hinv Hst; try done; [|inversion Hst].
  destruct Hinv as (runs & lost & Hinv). by eapply work_inv_step.
Qed.

(** ** Where every Rpc of the server comes from *)

Lemma worker_result_response rpc r :
  worker_result srv clientCtx rpc (Ret r) →
  ∃ h now begin clock ord si md sts l resp appErr,
    rpc_Header rpc = Some h ∧ Forall decodes (h_Headers h) ∧ dispatch srv rpc = ToWorker si md rpc ∧
    handler_run now srv clientCtx si md rpc h = (sts, l, Ret (resp, appErr)) ∧
    (processUnaryRpc now begin clock ord srv clientCtx si md rpc).2 = Ret r ∧
    r = unary_response ord (rpc_Id rpc) h (fullMethod (si_name si) (md_MethodName md)) sts resp appErr.
Proof.
  intros (now & b & clock & ord & si & md & Hd & Hr).
  destruct (rpc_Header rpc) as [h|] eqn:Hh; [|unfold dispatch in Hd; simpl in Hd; by rewrite Hh in Hd].
  destruct (contextFromHeaders now clientCtx h).2 as [e|] eqn:Hc.
  { unfold processUnaryRpc in Hr. simpl in Hr. rewrite Hh in Hr.
    by destruct (contextFromHeaders now clientCtx h) as [ctx0 [e'|]]. }
  assert (Hdec : Forall decodes (h_Headers h)).
  { destruct (decide (Forall decodes (h_Headers h))) as [?|Hn]; [done|].
    apply (contextFromHeaders_error now clientCtx) in Hn as [e He]. congruence. }
  pose proof (processUnaryRpc_ok now b clock ord srv clientCtx si md rpc h Hh Hdec) as Hp. cbv zeta in Hp.
  destruct (handler_run now srv clientCtx si md rpc h) as [[sts l] [[resp appErr]|msg]] eqn:Hrun;
    rewrite Hp in Hr; simpl in Hr; [|done].
  injection Hr as ->. exists h, now, b, clock, ord, si, md, sts, l, resp, appErr.
  split_and!; try done. by rewrite Hp.
Qed.

Lemma worker_result_id rpc r : worker_result srv clientCtx rpc (Ret r) → rpc_Id r = rpc_Id rpc.
Proof.
  intros Hw. destruct (worker_result_response rpc r Hw)
    as (h & now & b & clock & ord & si & md & sts & l & resp & appErr & _ & _ & _ & _ & _ & ->). done.
Qed.

Definition answers (h : list label) (r : Rpc) : Prop :=
  ∃ req, req ∈ reads h ∧ rpc_Id req = rpc_Id r ∧
    (worker_result srv clientCtx req (Ret r) ∨ is_stream req).

Record origin_inv (h : list label) (s : conn) : Prop := {
  og_hand rpc : rpc ∈ in_hand (v_serve s) → rpc ∈ reads h;
  og_run w rpc : v_workers s !! w = Some (WRun rpc) → rpc ∈ reads h;
  og_send w r : v_workers s !! w = Some (WSend r) → answers h r;
  og_writer r : v_writer s = RWriting r → answers h r;
  og_stream g x : v_gs s !! g = Some x →
    ∃ req, req ∈ reads h ∧ rpc_Id req = g_id x ∧ is_stream req }.

Lemma answers_snoc h l r : answers h r → answers (h ++ [l]) r.
Proof.
  intros (req & Hr & ?). exists req. split; [|done].
  rewrite srv_reads_snoc. apply elem_of_app. by left.
Qed.
Lemma reads_snoc_elem h l rpc : rpc ∈ reads h → rpc ∈ reads (h ++ [l]).
Proof. rewrite srv_reads_snoc. intros Hr. apply elem_of_app. by left. Qed.

(** What a step changes has to come from somewhere; the rest keeps its origin. *)
Lemma origin_inv_step_from h s l s' :
  origin_inv h s →
  (∀ rpc, rpc ∈ in_hand (v_serve s') → rpc ∈ in_hand (v_serve s) ∨ rpc ∈ reads_of l) →
  (∀ w p, v_workers s' !! w = Some p → v_workers s !! w = Some p ∨
     match p with WRun rpc => rpc ∈ reads h | WSend r => answers h r | _ => True end) →
  (∀ r, v_writer s' = RWriting r → v_writer s = RWriting r ∨ answers h r) →
  (∀ g x', v_gs s' !! g = Some x' → (∃ x, v_gs s !! g = Some x ∧ g_id x' = g_id x) ∨
     ∃ req, req ∈ reads h ∧ rpc_Id req = g_id x' ∧ is_stream req) →
  origin_inv (h ++ [l]) s'.
Proof.
  intros [] Hh Hw Hwr Hg. split.
  - intros rpc Hr. rewrite srv_reads_snoc, elem_of_app. destruct (Hh _ Hr); auto.
  - intros w rpc Hq. apply reads_snoc_elem. destruct (Hw _ _ Hq); eauto.
  - intros w r Hq. apply answers_snoc. destruct (Hw _ _ Hq); eauto.
  - intros r Hq. apply answers_snoc. destruct (Hwr _ Hq); eauto.
  - intros g x' Hq.
    assert (∃ req, req ∈ reads h ∧ rpc_Id req = g_id x' ∧ is_stream req) as (req & ? & ?).
    { destruct (Hg _ _ Hq) as [(x & Hx & ->)|?]; eauto. }
    exists req. split; [by apply reads_snoc_elem|done].
Qed.

(** The parts of the state that a step of one stream goroutine leaves alone. *)
Lemma origin_inv_set_g h s l s' g x x' :
  origin_inv h s → in_hand (v_serve s') `sublist_of` in_hand (v_serve s) →
  v_workers s' = v_workers s →
  (∀ r, v_writer s' = RWriting r → v_writer s = RWriting r ∨ answers h r) →
  v_gs s' = <[g := x']> (v_gs s) → v_gs s !! g = Some x → g_id x' = g_id x →
  origin_inv (h ++ [l]) s'.
Proof.
  intros Hinv Hs Hw Hwr Hg Hx Hid. apply (origin_inv_step_from h s); rewrite ?Hw, ?Hg; eauto.
  - intros rpc Hr. left. by eapply elem_of_sublist.
  - intros g' y. rewrite lookup_insert_Some. intros [[<- <-]|[_ ?]]; left; eauto.
Qed.

(** A step of the serve loop, of the writer, and of a worker. *)
Lemma origin_inv_serve h s l s' :
  origin_inv h s → v_workers s' = v_workers s → v_gs s' = v_gs s →
  (∀ r, v_writer s' = RWriting r → v_writer s = RWriting r) →
  in_hand (v_serve s') `sublist_of` in_hand (v_serve s) ++ reads_of l →
  origin_inv (h ++ [l]) s'.
Proof.
  intros Hinv Hw Hg Hwr Hh. apply (origin_inv_step_from h s); rewrite ?Hw, ?Hg; eauto.
  intros rpc Hr. apply elem_of_app. by eapply elem_of_sublist.
Qed.

Lemma origin_inv_set_worker h s l s' w p :
  origin_inv h s → v_workers s' = <[w := p]> (v_workers s) → v_gs s' = v_gs s →
  in_hand (v_serve s') `sublist_of` in_hand (v_serve s) →
  (∀ r, v_writer s' = RWriting r → v_writer s = RWriting r ∨ answers h r) →
  match p with WRun rpc => rpc ∈ reads h | WSend r => answers h r | _ => True end →
  origin_inv (h ++ [l]) s'.
Proof.
  intros Hinv Hw Hg Hs Hwr Hp. apply (origin_inv_step_from h s); rewrite ?Hw, ?Hg; eauto.
  - intros rpc Hr. left. by eapply elem_of_sublist.
  - intros w' q. rewrite lookup_insert_Some. intros [[<- <-]|[_ ?]]; auto.
Qed.

Lemma origin_inv_decision h s now rpc :
  origin_inv h s → v_serve s = VLock rpc → is_stream rpc →
  origin_inv (h ++ [VStream now])
    (apply_decision (stream_decide now clientCtx (v_streams s) rpc) rpc s).
Proof.
  intros Hinv Hsv Hs. assert (Hr : rpc ∈ reads h) by (apply (og_hand _ _ Hinv); rewrite Hsv; by left).
  destruct (stream_decide _ _ _ _) as [g|g| | |]; simpl.
  - destruct (v_gs s !! g) as [x|] eqn:Hx.
    + apply (origin_inv_step_from h s); simpl; eauto; try by intros ? Hn%elem_of_nil.
      intros g' y. rewrite lookup_insert_Some. intros [[<- <-]|[_ ?]]; left; eauto.
    + eapply origin_inv_serve; try done. apply sublist_nil_l.
  - eapply origin_inv_serve; try done. by rewrite Hsv.
  - eapply origin_inv_serve; try done. apply sublist_nil_l.
  - eapply origin_inv_serve; try done. by rewrite Hsv.
  - apply (origin_inv_step_from h s); simpl; eauto; try by intros ? Hn%elem_of_nil.
    intros g' y. rewrite lookup_insert_Some. intros [[<- <-]|[_ ?]]; [right|left]; eauto.
Qed.

Lemma origin_inv_unregister h s g x :
  origin_inv h s → v_gs s !! g = Some x →
  origin_inv (h ++ [GUnregister g]) (unregisterStream g x (set_g g (set_pc GExit x) s)).
Proof.
  intros Hinv Hx.
  assert (Hinv' : origin_inv (h ++ [GUnregister g]) (set_g g (set_pc GExit x) s))
    by (eapply origin_inv_set_g; eauto).
  unfold unregisterStream. case_match; [|by destruct Hinv'; split]. case_match; [|by destruct Hinv'; split].
  destruct Hinv'. split; [exact og_hand0|exact og_run0|exact og_send0|exact og_writer0|].
  intros g' y Hy. cbn [set_streams set_g v_gs] in Hy.
  apply lookup_insert_Some in Hy as [[<- <-]|[_ Hy]]; [|exact (og_stream0 _ _ Hy)].
  match goal with Hs0 : _ = Some s0 |- _ => exact (og_stream0 _ _ Hs0) end.
Qed.

Lemma origin_inv_step h s l s' :
  serve_sorted (v_serve s) → conn_inv h s → origin_inv h s → step srv clientCtx (Ret s) l (Ret s') →
  origin_inv (h ++ [l]) s'.
Proof.
  intros Hsort Hconn Hinv Hst. inversion Hst; subst; clear Hst;
    try match goal with Hsv : v_serve _ = _ |- _ =>
      rewrite Hsv in Hsort; simpl in Hsort; pose proof Hsv as Hv end.
  all: try by apply origin_inv_unregister.
  all: try by apply origin_inv_decision.
  all: try by (eapply origin_inv_set_g; eauto).
  all: try (eapply origin_inv_set_g; [done|apply sublist_nil_l|done|by left|done|done|done]).
  all: try by (eapply origin_inv_serve; try done; rewrite ?Hv; apply sublist_nil_l).
  all: try by (eapply origin_inv_serve; try done; rewrite ?Hv; simpl; rewrite ?app_nil_r).
  - eapply origin_inv_serve; try done. rewrite Hv. simpl. unfold serve_decide.
    case_match; try done; apply sublist_nil_l.
  - eapply (origin_inv_set_worker h s _ _ w); try done; [apply sublist_nil_l|by left|].
    apply (og_hand _ _ Hinv). rewrite Hv. apply list_elem_of_here.
  - destruct werr; eapply origin_inv_serve; try done; apply sublist_nil_l.
  - destruct r as [resp|]; simplify_eq/=. eapply (origin_inv_set_worker h s); try done; [by left|].
    match goal with Hw : v_workers s !! w = _ |- _ => pose proof (og_run _ _ Hinv _ _ Hw) end.
    exists rpc. split; [done|]. split; [|by left].
    symmetry. by apply worker_result_id.
  - eapply (origin_inv_set_worker h s); try done. by left.
  - eapply origin_inv_set_worker; try done. intros r [= <-]. right. by eapply (og_send _ _ Hinv).
  - (* WriteStream *)
    destruct (after_write_same x rpc) as (Hid & _); [done|].
    eapply (origin_inv_set_g h s _ _ g x); try done. intros r [= <-]. right.
    destruct (og_stream _ _ Hinv g x) as (req & ? & ? & ?); [done|]. exists req. split; [done|].
    split; [|by right]. pose proof (iv_pc _ _ Hconn g x) as Ha. unfold pc_addressed in Ha.
    match goal with Hor : g_pc x = _ ∨ _ |- _ => destruct Hor as [Hp|Hp]; rewrite Hp in Ha end;
      rewrite Ha; done.
  - destruct werr; eapply origin_inv_serve; try done; simpl; by rewrite app_nil_r.
  - destruct (after_write_same x rpc) as (Hid & _); [done|].
    eapply (origin_inv_set_g h s _ _ g x); eauto.
Qed.

Lemma origin_inv_init : origin_inv [] newHandler.
Proof.
  split; try done.
  all: intros w r Hw; apply elem_of_list_to_map_2, list_elem_of_fmap in Hw as (? & ? & _); congruence.
Qed.

Lemma origin_inv_trace h s :
  trace (step srv clientCtx) (Ret newHandler) h (Ret s) → origin_inv h s.
Proof.
  intros Htr.
  refine (proj2 (proj2 (trace_history_invariant (step srv clientCtx)
    (λ h o, match o with
       | Ret s => conn_inv h s ∧ (∃ runs lost, work_inv h s runs lost) ∧ origin_inv h s
       | Panic _ => True end)
    _ [] (Ret newHandler) h (Ret s) _ Htr)));
    [|by split_and!; [apply conn_inv_init|exists [], []; apply work_inv_init|apply origin_inv_init]].
  clear. intros h [s|] l [s'|] Hinv Hst; try done; [|inversion Hst].
  destruct Hinv as (Hc & (runs & lost & Hw) & Ho). split_and!.
  - by eapply conn_inv_step.
  - by eapply work_inv_step.
  - eapply origin_inv_step; eauto. apply Hw.
Qed.

(** C7: every unary request is served exactly once.  Whatever the order in which
    the goroutines of a connection run, the unary requests read from the
    transport are those that a worker has run processUnaryRpc on, those that a
    worker is running, and the one that the serve loop holds, each as often as
    it was read; at most one is lost, and only because serve returned.  The
    responses that the writer took, and those that wait for it, are the results
    of these runs, one for each; and at most eight requests are run at once. *)
Theorem server_unary_once h s :
  trace (step srv clientCtx) (Ret newHandler) h (Ret s) →
  ∃ (runs : list (Rpc * Rpc)) lost,
    Forall (λ p, worker_result srv clientCtx p.1 (Ret p.2)) runs ∧
    filter is_unary (reads h) ≡ₚ
      runs.*1 ++ map_collect running (v_workers s) ++ filter is_unary (in_hand (v_serve s)) ++ lost ∧
    (lost = [] ∨ (length lost = 1 ∧ returned (v_serve s))) ∧
    runs.*2 ≡ₚ taken h ++ map_collect responding (v_workers s) ∧
    length (map_collect running (v_workers s)) ≤ numRpcWorkers.
Proof.
  intros (runs & lost & [])%work_inv_trace. exists runs, lost. split_and!; try done.
  rewrite <-wk_size0, <-(Nat.mul_1_r (size _)). apply map_collect_length. intros []; simpl; lia.
Qed.

(** ** A worker that nobody hears *)

(** The writer has left and a worker has a response for it. *)
Definition unheard_worker (w : nat) (resp : Rpc) (s : conn) : Prop :=
  v_writer s = RExit ∧ v_workers s !! w = Some (WSend resp).

Lemma unheard_worker_step w resp s l s' :
  unheard_worker w resp s → step srv clientCtx (Ret s) l (Ret s') → unheard_worker w resp s'.
Proof.
  intros [Hwr Hw] Hst. inversion Hst; subst; clear Hst; try (by split);
    try (match goal with Hs : v_writer s = _ |- _ => rewrite Hwr in Hs end; done).
  - split; [done|]. simpl. rewrite lookup_insert_ne; [done|]. intros <-. congruence.
  - unfold apply_decision. by repeat case_match.
  - by destruct werr.
  - destruct r as [resp'|]; simplify_eq/=. split; [done|]. simpl. rewrite lookup_insert_ne; [done|].
    intros <-. congruence.
  - split; [done|]. simpl. rewrite lookup_insert_ne; [done|]. intros <-. congruence.
  - destruct (unregisterStream_workers g x (set_g g (set_pc GExit x) s)) as [Hw' _]. split.
    + unfold unregisterStream. by repeat case_match.
    + by rewrite Hw'.
Qed.

(** It stays there for ever, whatever happens: not even Stop ends it. *)
Lemma unheard_worker_forever w resp s ls s' :
  unheard_worker w resp s → trace (step srv clientCtx) (Ret s) ls (Ret s') → unheard_worker w resp s'.
Proof.
  intros Hw Htr.
  refine (trace_invariant (step srv clientCtx) (λ o, match o with Ret s => unheard_worker w resp s | Panic _ => True end)
    _ (Ret s) ls (Ret s') Hw Htr).
  clear. intros [s|] l [s'|] Hs Hst; try done; [by eapply unheard_worker_step|inversion Hst].
Qed.
End unary.

(** ** A concrete connection *)
Section witness.
Import RuntimeModel ServerExample.
#[local] Existing Instances codec stats StatusModel.pkg MetadataModel.Join MetadataModel.no_unicode.

(** One echo request is read, run by worker 0 and answered. *)
Definition echo_resp : Rpc :=
  match (processUnaryRpc 0 0 (λ _, 0%Z) MetadataModel.order server1 Background info echo (request [])).2 with
  | Ret resp => resp
  | Panic _ => request []
  end.
Definition echo_history : list label :=
  [EnvRead (request []); VDecide 0; VHandOff 0; WorkerRun 0 (Ret echo_resp);
   WriteWorker 0 echo_resp; EnvWritten None].
Definition echo_state : conn :=
  set_writer RWait (set_worker 0 WIdle (set_writer (RWriting echo_resp)
    (set_worker 0 (WSend echo_resp) (set_serve VRead (set_worker 0 (WRun (request []))
      (set_serve (VSendWorker (request [])) newHandler)))))).

Lemma echo_result : worker_result server1 Background (request []) (Ret echo_resp).
Proof.
  exists 0%Z, 0%Z, (λ _, 0%Z), MetadataModel.order, info, echo. split; [reflexivity|].
  by vm_compute.
Qed.

Lemma echo_trace : trace (step server1 Background) (Ret newHandler) echo_history (Ret echo_state).
Proof.
  set (s0 := set_serve (VSendWorker (request [])) newHandler).
  set (s1 := set_serve VRead (set_worker 0 (WRun (request [])) s0)).
  set (s2 := set_worker 0 (WSend echo_resp) s1).
  set (s3 := set_worker 0 WIdle (set_writer (RWriting echo_resp) s2)).
  eapply trace_step; [by apply (step_read _ _ newHandler)|].
  eapply trace_step; [by apply (step_decide _ _ _ _ (request []))|].
  change (serve_decide server1 (request [])) with (VSendWorker (request [])).
  eapply trace_step; [by apply (step_hand_off _ _ s0 (request []) 0)|].
  eapply trace_step; [by apply (step_worker_run _ _ s1 0 (request []) (Ret echo_resp) eq_refl echo_result)|].
  eapply trace_step; [by apply (step_write_worker _ _ s2 0 echo_resp)|].
  by apply trace_one, (step_written _ _ s3 echo_resp None).
Qed.

Lemma server_unary_once_witness :
  ∃ runs lost, runs.*2 ≡ₚ [echo_resp] ∧ [request []] ≡ₚ runs.*1 ++ lost ∧ lost = [].
Proof.
  destruct (server_unary_once server1 Background echo_history echo_state echo_trace)
    as (runs & lost & _ & Hin & Hlost & Hout & _).
  exists runs, lost. split; [exact Hout|]. split; [exact Hin|].
  destruct Hlost as [Hl|[_ Hr]]; [exact Hl|destruct Hr].
Defined.

(** A request is being served when the connection ends: Serve returns and the
    writer leaves, so the worker never gets rid of its response. *)
Definition leak_history : list label :=
  [EnvRead (request []); VDecide 0; VHandOff 0; EnvReadErr EOF; VDone; WriterExit; WorkerRun 0 (Ret echo_resp)].
Definition leak_state : conn :=
  set_worker 0 (WSend echo_resp) (set_writer RExit (set_serve (VExit (Wrap EOF "read error"))
    (serve_return (Wrap EOF "read error") (set_serve VRead (set_worker 0 (WRun (request []))
      (set_serve (VSendWorker (request [])) newHandler)))))).

Lemma leak_trace : trace (step server1 Background) (Ret newHandler) leak_history (Ret leak_state).
Proof.
  set (s0 := set_serve (VSendWorker (request [])) newHandler).
  set (s1 := set_serve VRead (set_worker 0 (WRun (request [])) s0)).
  set (s2 := serve_return (Wrap EOF "read error") s1).
  set (s3 := set_serve (VExit (Wrap EOF "read error")) s2).
  set (s4 := set_writer RExit s3).
  eapply trace_step; [by apply (step_read _ _ newHandler)|].
  eapply trace_step; [by apply (step_decide _ _ _ _ (request []))|].
  change (serve_decide server1 (request [])) with (VSendWorker (request [])).
  eapply trace_step; [by apply (step_hand_off _ _ s0 (request []) 0)|].
  eapply trace_step; [by apply (step_read_err _ _ s1 EOF)|].
  eapply trace_step; [by apply (step_done _ _ s2 (Wrap EOF "read error"))|].
  eapply trace_step; [by apply (step_writer_exit _ _ s3)|].
  by apply trace_one, (step_worker_run _ _ s4 0 (request []) (Ret echo_resp) eq_refl echo_result).
Qed.

(** After Serve has returned a worker goroutine is left behind for ever. *)
Theorem worker_leak :
  trace (step server1 Background) (Ret newHandler) leak_history (Ret leak_state) ∧
  v_serve leak_state = VExit (Wrap EOF "read error") ∧
  ∀ ls s, trace (step server1 Background) (Ret leak_state) ls (Ret s) → v_workers s !! 0 = Some (WSend echo_resp).
Proof.
  split; [exact leak_trace|]. split; [done|]. intros ls s Htr. by eapply unheard_worker_forever, Htr.
Qed.
End witness.
