(* ===== verification/ServerShutdown.v ===== *)
(** * Ending a connection of the server

    [Serve] does not return before every stream has unregistered.  Once the serve
    loop has returned, [cancelAndWaitForStreams] always can finish; but while the
    loop still runs it can block for ever on the channel of a stream, holding the
    mutex that this stream needs to unregister. *)

From S2P Require Import Prelude GoString Rpc Errors Metadata RequestContext Runtime TransportStream Interceptors Server ServerLoop.

(** ** Draining the streams *)
Section shutdown.
Context {Msg Impl Handler : Type}.
Context `{Unicode, MetadataPkg, StatusPkg, Codec Msg, StatsHandler Handler}.
Context (srv : Server Msg Impl Handler) (clientCtx : Ctx).
Abbreviation steps := (trace (step srv clientCtx)).

(** The steps of the shutdown: those of [cancelAndWaitForStreams], the end of a
    cancelled stream, and the return of a handler. *)
Definition shutdown_label (l : label) : Prop :=
  match l with
  | VPick _ | VWoken _ | VDone | SendCtx _ | GUnregister _ | EnvReturn _ _ => True
  | _ => False
  end.

Lemma set_g_id s g x : v_gs s !! g = Some x → set_g g x s = s.
Proof. intros Hx. unfold set_g. rewrite insert_id by done. by destruct s. Qed.
Lemma set_g_set_g s g x y : set_g g x (set_g g y s) = set_g g x s.
Proof. unfold set_g. simpl. by rewrite insert_insert_eq. Qed.

(** A cancelled stream whose handler returns reaches its unregisterStream. *)
Lemma stream_ends s g x :
  v_gs s !! g = Some x → g_cancelled x = true → g_pc x ≠ GExit →
  ∃ ls x', steps (Ret s) ls (Ret (set_g g x' s)) ∧ Forall shutdown_label ls ∧
    g_pc x' = GUnreg ∧ g_id x' = g_id x.
Proof.
  assert (Htr : ∀ s x rpc, v_gs s !! g = Some x → g_cancelled x = true → g_pc x = GTrailer rpc →
    steps (Ret s) [SendCtx g] (Ret (set_g g (after_write x) s))).
  { intros. apply trace_one. eapply step_send_ctx; [done|by right|by left]. }
  assert (Hrun : ∀ s x, v_gs s !! g = Some x → g_cancelled x = true → g_pc x = GRun →
    ∃ x', steps (Ret s) [EnvReturn g (mkRpc (g_id x) None None None None None); SendCtx g]
            (Ret (set_g g x' s)) ∧ g_pc x' = GUnreg ∧ g_id x' = g_id x).
  { clear s x. intros s x Hx Hc Hpc.
    set (rpc := mkRpc (g_id x) None None None None None).
    exists (after_write (set_pc (GTrailer rpc) x)). split_and!; [|done..].
    eapply trace_step; [by apply (step_return _ _ s g x rpc)|].
    pose proof (Htr (set_g g (set_pc (GTrailer rpc) x) s) (set_pc (GTrailer rpc) x) rpc) as Hs.
    rewrite set_g_set_g in Hs. apply Hs; [apply lookup_insert_eq|done..]. }
  intros Hx Hc Hpc. destruct (g_pc x) as [|rpc|rpc| |] eqn:E; [| | | |done].
  - destruct (Hrun s x) as (x' & Hst & ? & ?); [done..|].
    do 2 eexists. split_and!; [exact Hst|by repeat constructor|done..].
  - destruct (Hrun (set_g g (after_write x) s) (after_write x)) as (x' & Hst & Hpc' & Hid).
    + apply lookup_insert_eq.
    + unfold after_write. by rewrite E.
    + unfold after_write. by rewrite E.
    + rewrite set_g_set_g in Hst. do 2 eexists. split.
      * eapply trace_step; [|exact Hst]. eapply step_send_ctx; [done|by left|by left].
      * split_and!; [by repeat constructor|done|]. rewrite Hid. unfold after_write. by rewrite E.
  - do 2 eexists. split_and!; [by eapply Htr|by repeat constructor|..]; unfold after_write; by rewrite E.
  - exists [], x. rewrite set_g_id by done. split_and!; [constructor|constructor|done..].
Qed.

(** One round of the loop. *)
Lemma drain_one h s g x err :
  conn_inv h s → v_serve s = VWaitDone g err → v_gs s !! g = Some x →
  g_cancelled x = true → g_pc x ≠ GExit →
  ∃ ls s', steps (Ret s) ls (Ret s') ∧ Forall shutdown_label ls ∧
    v_serve s' = VWaitLock err ∧ v_streams s' = delete (g_id x) (v_streams s).
Proof.
  intros Hinv Hsv Hx Hc Hpc.
  destruct (stream_ends s g x) as (ls & x' & Hst & Hls & Hpc' & Hid); [done..|].
  pose proof (iv_live _ _ Hinv _ _ Hx Hpc) as Hreg.
  exists (ls ++ [GUnregister g; VWoken g]).
  eexists. split_and!.
  - eapply trace_app; [exact Hst|].
    eapply trace_step; [apply (step_unregister _ _ _ g x'); [apply lookup_insert_eq|done|]|].
    { unfold mu_free. simpl. by rewrite Hsv. }
    rewrite set_g_set_g. unfold unregisterStream. simpl. rewrite Hid, Hreg, lookup_insert_eq.
    apply trace_one. eapply step_woken; simpl; [done|apply lookup_insert_eq|done].
  - apply Forall_app. split; [done|by repeat constructor].
  - done.
  - done.
Qed.

(** The error with which serve returned. *)
Definition returned_with (p : serve_pc) : option error :=
  match p with VWaitLock err | VWaitDone _ err | VExit err => Some err | _ => None end.

Lemma drain_all err n : ∀ h s,
  steps (Ret newHandler) h (Ret s) → returned_with (v_serve s) = Some err → size (v_streams s) < n →
  ∃ ls s', steps (Ret s) ls (Ret s') ∧ Forall shutdown_label ls ∧ v_serve s' = VExit err.
Proof.
  induction n as [|n IH]; intros h s Htr Hret Hsz; [lia|].
  assert (Hlock : ∀ h s, steps (Ret newHandler) h (Ret s) → v_serve s = VWaitLock err →
    size (v_streams s) < S n →
    ∃ ls s', steps (Ret s) ls (Ret s') ∧ Forall shutdown_label ls ∧ v_serve s' = VExit err).
  { clear h s Htr Hret Hsz. intros h s Htr Hsv Hsz. pose proof (conn_inv_trace _ _ _ _ Htr) as Hinv.
    destruct (decide (v_streams s = ∅)) as [Hem|[id [g Hg]]%map_choose].
    { exists [VDone]. eexists. split_and!; [by apply trace_one, step_done|by repeat constructor|done]. }
    destruct (iv_streams _ _ Hinv _ _ Hg) as (x & Hx & Hid & Hpc & _).
    assert (Hp : step srv clientCtx (Ret s) (VPick g)
      (Ret (set_serve (VWaitDone g err) (set_g g (cancel_g x) s)))) by (by eapply step_pick).
    pose proof (conn_inv_step _ _ _ _ _ _ Hinv Hp) as Hinv'.
    edestruct (drain_one (h ++ [VPick g]) _ g (cancel_g x) err Hinv') as (ls & s2 & Hst & Hls & Hsv2 & Hsm);
      [done|apply lookup_insert_eq|done..|].
    destruct (IH (h ++ VPick g :: ls) s2) as (ls2 & s3 & Hst2 & Hls2 & Hex).
    - eapply trace_app; [exact Htr|]. by eapply trace_step.
    - by rewrite Hsv2.
    - rewrite Hsm. simpl. rewrite Hid. rewrite map_size_delete_Some by eauto.
      assert (size (v_streams s) ≠ 0) by (apply map_size_ne_0_lookup; eauto). lia.
    - exists (VPick g :: ls ++ ls2), s3. split_and!; [|constructor; [done|by apply Forall_app]|done].
      eapply trace_step; [exact Hp|]. by eapply trace_app. }
  destruct (v_serve s) as [| | | | | |err'|g err'|err'] eqn:Hsv; simplify_eq/=; [by eauto| |].
  - pose proof (conn_inv_trace _ _ _ _ Htr) as Hinv.
    destruct (wi_wait _ (wait_inv_trace _ _ _ _ Htr) _ _ Hsv) as (x & Hx & Hc & Hd).
    destruct (g_done x) eqn:Hdone.
    + assert (Hw : step srv clientCtx (Ret s) (VWoken g)
        (Ret (set_serve (VWaitLock err) (set_g g (set_token false x) s)))) by (by eapply step_woken).
      edestruct (Hlock (h ++ [VWoken g])) as (ls & s2 & Hst & Hls & Hex);
        [eapply trace_app; [exact Htr|by apply trace_one]|done|done|].
      exists (VWoken g :: ls), s2. split_and!; [by eapply trace_step|by constructor|done].
    + destruct Hd as [?|Hpc]; [done|].
      destruct (drain_one h s g x err) as (ls & s2 & Hst & Hls & Hsv2 & Hsm); [done..|].
      edestruct (Hlock (h ++ ls) s2) as (ls2 & s3 & Hst2 & Hls2 & Hex);
        [by eapply trace_app|done| |].
      { rewrite Hsm, map_size_delete_Some; [lia|]. exists g. by apply (iv_live _ _ Hinv). }
      exists (ls ++ ls2), s3. split_and!; [by eapply trace_app|by apply Forall_app|done].
  - exists [], s. split_and!; [constructor|constructor|done].
Qed.

(** C39: [Serve] returns only when no stream is registered, every stream
    goroutine has ended and h.ctx is done.  From every state in which the serve
    loop has returned with an error, [Serve] can return that error by its own
    steps once the handlers return: the wait for the streams has no deadlock. *)
Theorem server_shutdown h s err :
  steps (Ret newHandler) h (Ret s) → returned_with (v_serve s) = Some err →
  v_ctx s = true ∧
  (v_serve s = VExit err → v_streams s = ∅ ∧ ∀ g x, v_gs s !! g = Some x → g_pc x = GExit) ∧
  ∃ ls s', steps (Ret s) ls (Ret s') ∧ Forall shutdown_label ls ∧ v_serve s' = VExit err.
Proof.
  intros Htr Hret. pose proof (conn_inv_trace _ _ _ _ Htr) as Hinv. split_and!.
  - apply (wi_ctx _ (wait_inv_trace _ _ _ _ Htr)). by destruct (v_serve s).
  - intros Hsv. pose proof (iv_exit _ _ Hinv _ Hsv) as Hem. split; [done|]. intros g x Hx.
    destruct (g_pc x) eqn:Hpc; try done;
      (assert (v_streams s !! g_id x = Some g) as Hg by (apply (iv_live _ _ Hinv); congruence));
      rewrite Hem in Hg; by apply lookup_empty_Some in Hg.
  - by eapply drain_all, Nat.lt_succ_diag_r.
Qed.

(** ** A handler that returns early can stop the connection *)
Definition ends_context (l : label) : Prop :=
  match l with EnvClientCtx | EnvStop | EnvWritten (Some _) => True | _ => False end.

(** The serve loop holds the mutex and sends to the full channel of a stream
    that is about to unregister. *)
Definition wedged (g : nat) (rpc : Rpc) (s : conn) : Prop :=
  v_serve s = VSendStream g rpc ∧ v_ctx s = false ∧ v_clientCtx s = false ∧
  ∃ x, v_gs s !! g = Some x ∧ g_pc x = GUnreg ∧ g_ch x ≠ [] ∧ g_recv x = false.

Lemma wedged_set_g g rpc s s' g2 x x' :
  wedged g rpc s → v_serve s' = v_serve s → v_ctx s' = false → v_clientCtx s' = false →
  v_gs s' = <[g2 := x']> (v_gs s) → v_gs s !! g2 = Some x →
  (g2 = g → g_pc x = GUnreg → g_pc x' = GUnreg ∧ g_ch x' = g_ch x ∧ (g_recv x = false → g_recv x' = false)) →
  wedged g rpc s'.
Proof.
  intros (Hsv & Hc & Hcc & y & Hy & Hpc & Hch & Hrv) Hsv' Hc' Hcc' Hgs Hx Hp.
  split; [by rewrite Hsv'|]. split_and!; [done..|]. rewrite Hgs.
  destruct (decide (g2 = g)) as [->|Hne].
  - exists x'. rewrite lookup_insert_eq. simplify_eq. destruct (Hp eq_refl Hpc) as (? & -> & ?). auto.
  - exists y. by rewrite lookup_insert_ne.
Qed.

Lemma conn_wedged_step g rpc s l s' :
  wedged g rpc s → step srv clientCtx (Ret s) l (Ret s') → ¬ ends_context l →
  wedged g rpc s' ∧ reads_of l = [] ∧ sends_of l = [] ∧ ∀ g', l ≠ GUnregister g'.
Proof.
  intros Hw Hst Hl. pose proof Hw as (Hsv & Hc & Hcc & x & Hx & Hpc & Hch & Hrv).
  assert (Hmu : ¬ mu_free s) by (unfold mu_free; intros Hf; by rewrite Hsv in Hf).
  assert (Hlen : length (g_ch x) ≠ 0) by (by rewrite length_zero_iff_nil).
  inversion Hst; subst; try congruence; try (by destruct Hl).
  - exfalso. match goal with Hs : v_serve s = _ |- _ => rewrite Hsv in Hs; injection Hs as <- <- end.
    simplify_eq. lia.
  - exfalso. intuition congruence.
  - split; [|done]. destruct r; simplify_eq/=. split; [done|]. by eauto 10.
  - split; [|done]. split; [done|]. by eauto 10.
  - split; [|done]. eapply (wedged_set_g g rpc s _ g0 x0); try done. intuition congruence.
  - split; [|done]. destruct werr; [by destruct Hl|]. split; [done|]. by eauto 10.
  - split; [|done]. eapply (wedged_set_g g rpc s _ g0 x0); try done. intros _ Hp.
    match goal with Hr : handler_runs x0 |- _ => unfold handler_runs in Hr; by rewrite Hp in Hr end.
  - split; [|done]. eapply (wedged_set_g g rpc s _ g0 x0); try done. congruence.
  - split; [|done]. eapply (wedged_set_g g rpc s _ g0 x0); try done. congruence.
  - split; [|done]. by eapply (wedged_set_g g rpc s _ g0 x0).
  - split; [|done]. eapply (wedged_set_g g rpc s _ g0 x0); try done. intros ->. congruence.
  - split; [|done]. by eapply (wedged_set_g g rpc s _ g0 x0).
  - split; [|done]. eapply (wedged_set_g g rpc s _ g0 x0); try done. intuition congruence.
Qed.

Lemma conn_wedged_trace g rpc s h o :
  wedged g rpc s → steps (Ret s) h o → Forall (λ l, ¬ ends_context l) h →
  ∀ s', o = Ret s' → wedged g rpc s' ∧ reads h = [] ∧ all_sends h = [] ∧ ∀ g', GUnregister g' ∉ h.
Proof.
  intros Hw Htr. remember (Ret s) as o1 eqn:Ho. revert s Ho Hw.
  induction Htr as [o|o1 l o2 ls o3 Hst Htr IH]; intros s -> Hw Hall s' Ho.
  - simplify_eq. split_and!; [done..|]. intros ? []%elem_of_nil.
  - apply Forall_cons in Hall as [Hl Hall]. destruct o2 as [s2|].
    + destruct (conn_wedged_step _ _ _ _ _ Hw Hst Hl) as (Hw2 & Hr & Hse & Hu).
      destruct (IH s2 eq_refl Hw2 Hall s' Ho) as (? & Hrs & Hss & Hus). split_and!; [done|..].
      * unfold reads in *. by rewrite bind_cons, Hr, Hrs.
      * unfold all_sends in *. by rewrite bind_cons, Hse, Hss.
      * intros g'. rewrite elem_of_cons. intros [Heq|Hin]; [by apply (Hu g')|by apply (Hus g')].
    + subst o3. inversion Htr; subst. match goal with Hb : step _ _ (Panic _) _ _ |- _ => inversion Hb end.
Qed.

Definition for_stream (rpc : Rpc) : Prop := ∃ si sd, dispatch srv rpc = ToStream si sd rpc.

Lemma serve_decide_stream rpc : for_stream rpc → serve_decide srv rpc = VLock rpc.
Proof. intros (si & sd & Hd). unfold serve_decide. by rewrite Hd. Qed.

Lemma stream_decide_deliver now m rpc g :
  m !! rpc_Id rpc = Some g → is_reset rpc = false → stream_decide now clientCtx m rpc = SDeliver g.
Proof. intros Hm Hr. unfold stream_decide. by rewrite Hm, Hr. Qed.

(** The serve loop reads an Rpc for a stream and takes the mutex. *)
Lemma read_for_stream s now rpc :
  v_serve s = VRead → for_stream rpc →
  steps (Ret s) [EnvRead rpc; VDecide now; VStream now]
    (Ret (apply_decision (stream_decide now clientCtx (v_streams s) rpc) rpc
       (set_serve (VLock rpc) s))).
Proof.
  intros Hsv Hd. eapply trace_step; [by apply step_read|].
  eapply trace_step; [by eapply step_decide|].
  rewrite serve_decide_stream by done. apply trace_one.
  apply (step_stream _ _ (set_serve (VLock rpc) s)); done.
Qed.

(** A stream is opened and one message is put into its channel. *)
Definition opened (opening : Rpc) : conn :=
  apply_decision SStart opening (set_serve (VLock opening) newHandler).
Definition one_message (opening msg : Rpc) : conn :=
  set_g 0 (mkStream (rpc_Id opening) [msg] false false false GRun) (set_serve VRead (opened opening)).

Lemma opened_trace now opening :
  for_stream opening → stream_decide now clientCtx ∅ opening = SStart →
  steps (Ret newHandler) [EnvRead opening; VDecide now; VStream now] (Ret (opened opening)).
Proof.
  intros Ho Hstart. pose proof (read_for_stream newHandler now opening eq_refl Ho) as Ht.
  change (v_streams newHandler) with (∅ : gmap Z nat) in Ht. by rewrite Hstart in Ht.
Qed.

Lemma one_message_trace now opening msg :
  for_stream opening → for_stream msg → rpc_Id msg = rpc_Id opening → is_reset msg = false →
  stream_decide now clientCtx ∅ opening = SStart →
  steps (Ret newHandler)
    [EnvRead opening; VDecide now; VStream now; EnvRead msg; VDecide now; VStream now; VStreamSend 0 msg]
    (Ret (one_message opening msg)).
Proof.
  intros Ho Hm Hid Hr Hstart. set (s1 := opened opening).
  eapply (trace_app _ _ [_; _; _]); [by apply opened_trace|].
  eapply (trace_app _ _ [_; _; _]); [by apply (read_for_stream s1)|].
  rewrite (stream_decide_deliver _ _ _ 0) by (done || (rewrite Hid; apply lookup_insert_eq)).
  apply trace_one.
  apply (step_stream_send _ _ (set_serve (VSendStream 0 msg) s1) 0 msg
    (mkStream (rpc_Id opening) [] false false false GRun));
    [done|apply lookup_insert_eq|simpl; lia].
Qed.

(** C40: the serve loop can block for ever.  After an Rpc that opens a stream and
    two messages for it, whose handler returns without reading them, the loop
    holds the mutex in its send of the second message while the stream waits for
    the mutex to unregister.  From then on, as long as no context of the
    connection or of the server ends and no write fails, nothing is read from the
    transport, nothing is sent to any stream, and no stream unregisters. *)
Theorem server_wedge now (opening msg1 msg2 : Rpc) :
  for_stream opening → for_stream msg1 → for_stream msg2 →
  rpc_Id msg1 = rpc_Id opening → rpc_Id msg2 = rpc_Id opening →
  is_reset msg1 = false → is_reset msg2 = false →
  stream_decide now clientCtx ∅ opening = SStart →
  ∃ h s g, steps (Ret newHandler) h (Ret s) ∧ reads h = [opening; msg1; msg2] ∧
    Forall (λ l, ¬ ends_context l) h ∧ wedged g msg2 s ∧
    ∀ h' s', steps (Ret s) h' (Ret s') → Forall (λ l, ¬ ends_context l) h' →
      wedged g msg2 s' ∧
      reads h' = [] ∧ all_sends h' = [] ∧ ∀ g', GUnregister g' ∉ h'.
Proof.
  intros Ho H1' H2' Hid1 Hid2 Hr1 Hr2 Hstart.
  set (x1 := mkStream (rpc_Id opening) [msg1] false false false GRun).
  set (tr := mkRpc (rpc_Id opening) None None None None None).
  set (x2 := set_pc GUnreg (cancel_g x1)).
  set (s2 := one_message opening msg1).
  pose proof (one_message_trace now opening msg1 Ho H1' Hid1 Hr1 Hstart) as T2. fold s2 in T2.
  set (s3 := set_g 0 x2 s2).
  assert (T3 : steps (Ret s2) [EnvReturn 0 tr; WriteStream 0 tr; EnvWritten None] (Ret s3)).
  { eapply trace_step; [by apply (step_return _ _ s2 0 x1 tr)|].
    eapply trace_step; [eapply step_write_stream; [apply lookup_insert_eq|by right|done]|].
    apply trace_one. unfold set_g at 1. simpl. rewrite insert_insert_eq.
    match goal with |- step _ _ (Ret ?a) _ _ => apply (step_written _ _ a tr None) end. done. }
  assert (T4 : steps (Ret s3) [EnvRead msg2; VDecide now; VStream now]
    (Ret (set_serve (VSendStream 0 msg2) s3))).
  { pose proof (read_for_stream s3 now msg2 eq_refl H2') as Ht.
    rewrite (stream_decide_deliver _ _ _ 0) in Ht by (done || (rewrite Hid2; apply lookup_insert_eq)).
    exact Ht. }
  assert (Hw : wedged 0 msg2 (set_serve (VSendStream 0 msg2) s3)).
  { split_and!; [done..|]. exists x2. split_and!; [apply lookup_insert_eq|done..]. }
  eexists _, _, 0. split_and!; [|..|exact Hw|].
  - eapply trace_app; [exact T2|]. eapply trace_app; [exact T3|exact T4].
  - done.
  - repeat (apply Forall_cons; split; [by intros []|]). by apply Forall_nil.
  - intros h' s' Htr Hall. by eapply conn_wedged_trace.
Qed.
End shutdown.

Section witnesses.
Import RuntimeModel ServerExample.
#[local] Existing Instances codec stats StatusModel.pkg MetadataModel.Join MetadataModel.no_unicode.

Definition watch_rpc (b : option Body) : Rpc :=
  mkRpc 3 (Some (mkRequestHeader "/pkg.Svc/Watch" [] "cli" "srv" [] None)) None b None None.
Definition opening : Rpc := watch_rpc None.
Definition msg1 : Rpc := watch_rpc (Some (mkBody (Some [Byte.x61]))).
Definition msg2 : Rpc := watch_rpc (Some (mkBody (Some [Byte.x62]))).

Lemma watch_for_stream b : for_stream server1 (watch_rpc b).
Proof. by do 2 eexists. Qed.
Lemma opening_starts : stream_decide 0 Background ∅ opening = SStart.
Proof. reflexivity. Qed.

Definition one_message_history : list label :=
  [EnvRead opening; VDecide 0; VStream 0; EnvRead msg1; VDecide 0; VStream 0; VStreamSend 0 msg1].

Lemma server_stream_routing_witness :
  ∃ h2, began server1 Background one_message_history 0 3 h2 ∧
    recvs 0 one_message_history ++ [msg1] = [msg1] ∧ msgs_for server1 3 (reads h2) = [msg1].
Proof.
  destruct (server_stream_routing server1 Background one_message_history _
    (one_message_trace server1 Background 0 opening msg1 (watch_for_stream _) (watch_for_stream _)
      eq_refl eq_refl opening_starts)) as (_ & Hg & _).
  destruct (Hg 0 (mkStream 3 [msg1] false false false GRun)) as (_ & Hr & h2 & Hs & _ & Heq); [reflexivity|].
  exists h2. split; [exact Hs|]. split; [exact Hr|].
  etrans; [symmetry; exact (Heq eq_refl (λ Hret, Hret))|reflexivity].
Defined.

Lemma server_shutdown_witness :
  ∃ ls s', trace (step server1 Background)
    (Ret (serve_return (Wrap EOF "read error") (opened opening))) ls (Ret s') ∧
    v_serve s' = VExit (Wrap EOF "read error").
Proof.
  destruct (server_shutdown server1 Background
    ([EnvRead opening; VDecide 0; VStream 0] ++ [EnvReadErr EOF])
    (serve_return (Wrap EOF "read error") (opened opening)) (Wrap EOF "read error"))
    as (_ & _ & ls & s' & Hst & _ & Hex).
  - eapply trace_app; [apply (opened_trace _ _ 0); [apply watch_for_stream|reflexivity]|].
    apply trace_one, step_read_err. reflexivity.
  - reflexivity.
  - exists ls, s'. split; [exact Hst|exact Hex].
Defined.

Lemma server_wedge_witness :
  ∃ h s g, trace (step server1 Background) (Ret newHandler) h (Ret s) ∧
    reads h = [opening; msg1; msg2] ∧ wedged g msg2 s.
Proof.
  destruct (server_wedge server1 Background 0 opening msg1 msg2) as (h & s & g & Hst & Hr & _ & Hw & _);
    try apply watch_for_stream; try reflexivity.
  exists h, s, g. split; [exact Hst|]. split; [exact Hr|exact Hw].
Defined.
End witnesses.
