(* ===== verification/Unary.v ===== *)
(** * A unary call from end to end

    [ClientConn.Invoke] on one side of a transport, the serve loop's dispatch
    and [processUnaryRpc] on the other.  That the request and the response reach
    the other side, the response under the call's own id, is the business of the
    multiplexer and of the server loop (files [MuxDelivery] and [ServerLoop]);
    here the two halves of the computation are put together. *)

From S2P Require Import Prelude GoString Rpc Errors Metadata RequestContext Runtime TransportStream Interceptors Server Chan Multiplexer ClientConn.
Import USTS.

Section unary.
Context {Msg Impl Handler CHandler R : Type}.
Context `{Unicode, MetadataPkg, StatusPkg, !StatusLaws, Codec Msg, !CodecLaws Msg,
  StatsHandler Handler, StatsHandler CHandler}.

(** The request that CallUnaryMethod writes. *)
Definition request_rpc (id : Z) (h : RequestHeader) (b : Body) : Rpc :=
  mkRpc id (Some h) None (Some b) None None.

(** The server's part of a call: dispatch, then the worker. *)
Definition remote (now begin : Z) (clock : nat → Z) (ord : map_range) (s : Server Msg Impl Handler)
    (clientCtx : Ctx) (id : Z) (h : RequestHeader) (b : Body) : option (outcome Rpc) :=
  match dispatch s (request_rpc id h b) with
  | ToWorker si md rpc => Some (processUnaryRpc now begin clock ord s clientCtx si md rpc).2
  | _ => None
  end.

(** The gRPC status that stands for an error: the status it carries, or else the
    one of a context error (Canceled, DeadlineExceeded), or else Unknown. *)
Definition grpc_status (err : error) : Status :=
  if (status_FromError err).2 then (status_FromError err).1 else status_FromContextError err.

Lemma unary_status_grpc appErr :
  unary_status appErr =
    (λ err, mkResponseStatus (s_Code (grpc_status err)) (s_Message (grpc_status err))
              (s_Details (grpc_status err))) <$> appErr.
Proof.
  destruct appErr as [err|]; [|done]. unfold unary_status, grpc_status. simpl.
  by destruct (status_FromError err) as [st []].
Qed.

(** What the caller of a unary method should get from the result of the handler:
    its message, or its error as a gRPC status error. *)
Definition expected (resp : option Msg) (appErr : option error) : outcome (option Msg * option error) :=
  match appErr with
  | Some err =>
      if decide (s_Code (grpc_status err) = codes_OK) then Panic "nil pointer dereference"
      else Ret (None, Some (StatusError (grpc_status err)))
  | None =>
      match resp with
      | Some m => match Marshal m with
                  | Ok _ => Ret (Some m, None)
                  | Err _ => Ret (None, Some malformed_response)
                  end
      | None => Ret (None, Some malformed_response)
      end
  end.

(** What Invoke makes of the response to its request. *)
Lemma invoke_unary_response now1 b1 clock1 ord1 call (cc : ClientConn Msg CHandler R) ctx method args
    opts body id ord2 h method' sts resp appErr :
  opts_supported opts = true → Marshal args = Ok body →
  call (request_header now1 ord1 cc ctx method) (mkBody (Some (Materialize body))) =
    inr (GotRpc (unary_response (Msg:=Msg) ord2 id h method' sts resp appErr)) →
  (invoke now1 b1 clock1 ord1 call cc ctx method args opts).2 = expected resp appErr.
Proof.
  intros Hopts Hm Hcall.
  rewrite (invoke_outcome now1 b1 clock1 ord1 _ cc ctx method args opts body Hopts Hm), Hcall.
  rewrite decide_False by (by intros [? _]). unfold expected, unary_response, unary_body. simpl.
  rewrite unary_status_grpc. destruct appErr as [err|]; simpl; [by destruct (grpc_status err)|].
  destruct resp as [m|]; [|done]. destruct (Marshal m) as [data|e] eqn:Em; [|done]. simpl.
  by rewrite (Unmarshal_Marshal m data Em).
Qed.

(** C14: a unary call over a transport that carries the request and the response
    has the result of running the handler on the server: the handler decodes
    exactly the message the client sent; when it returns a message (that can be
    marshalled) the call returns that message and no error; when it returns an
    error the call returns the gRPC error of that error's status: the one it
    carries, else the status of a context error ([grpc_status]).  (An error whose
    status is OK makes the client panic; see [expected].) *)
Theorem unary_end_to_end
    (now1 b1 now2 b2 id : Z) clock1 clock2 ord1 ord2 (cc : ClientConn Msg CHandler R)
    (s : Server Msg Impl Handler) ctx clientCtx method service args opts body info md
    sts l resp appErr :
  opts_supported opts = true → Marshal args = Ok body →
  parseRawMethod method = Ok (service, md_MethodName md) →
  cc_destAddress cc = srv_id s → srv_services s !! service = Some info →
  si_methods info !! md_MethodName md = Some md →
  let h := request_header now1 ord1 cc ctx method in
  let b := mkBody (Some (Materialize body)) in
  handler_run now2 s clientCtx info md (request_rpc id h b) h = (sts, l, Ret (resp, appErr)) →
  (∀ shs hctx, (dec (Handler:=Handler) shs hctx (Some b)).1 = (Some args, None)) ∧
  ∃ reply, remote now2 b2 clock2 ord2 s clientCtx id h b = Some (Ret reply) ∧ rpc_Id reply = id ∧
    (invoke now1 b1 clock1 ord1
       (λ h' b', match remote now2 b2 clock2 ord2 s clientCtx id h' b' with
                 | Some (Ret reply) => inr (GotRpc reply)
                 | _ => inr ChanClosed
                 end) cc ctx method args opts).2 = expected resp appErr.
Proof.
  intros Hopts Hm Hpm Hdst Hsi Hmd h b Hrun. split.
  { intros shs hctx. unfold dec. simpl. by rewrite (Unmarshal_Marshal args body Hm). }
  assert (Hd : dispatch s (request_rpc id h b) = ToWorker info md (request_rpc id h b)).
  { unfold dispatch. simpl. rewrite Hpm, decide_False by tauto. by rewrite Hsi, Hmd. }
  assert (Hdec : Forall decodes (h_Headers h)) by apply headersFromContext_decodes.
  pose proof (processUnaryRpc_ok now2 b2 clock2 ord2 s clientCtx info md (request_rpc id h b) h
    eq_refl Hdec) as Hp. cbv zeta in Hp. rewrite Hrun in Hp.
  eexists. split; [unfold remote; by rewrite Hd, Hp|]. split; [done|].
  eapply invoke_unary_response; [done..|]. fold h b. unfold remote. by rewrite Hd, Hp.
Qed.
End unary.

(** ** A concrete call

    The echo service of [Server.ServerExample], called with metadata. *)
Section witness.
Import RuntimeModel ServerExample.
#[local] Existing Instances codec stats StatusModel.pkg MetadataModel.Join MetadataModel.no_unicode.

Definition example_conn : ClientConn Msg nat () := (NewClientConn _ _ _ "cli" "srv" []).1.
Definition example_ctx : Ctx := mkCtx None (Some {[ "user" := ["bob"] ]}) None [].

Lemma unary_end_to_end_witness :
  ∃ reply,
    remote 0 0 (λ _, 0%Z) MetadataModel.order server1 Background 5
      (ClientConn.request_header 0 MetadataModel.order example_conn example_ctx "/pkg.Svc/Echo")
      (mkBody (Some [Byte.x61; Byte.x62])) = Some (Ret reply) ∧
    rpc_Id reply = 5%Z ∧
    (invoke 0 0 (λ _, 0%Z) MetadataModel.order
       (λ h' b', match remote 0 0 (λ _, 0%Z) MetadataModel.order server1 Background 5 h' b' with
                 | Some (Ret reply) => inr (GotRpc reply)
                 | _ => inr ChanClosed
                 end) example_conn example_ctx "/pkg.Svc/Echo" [Byte.x61; Byte.x62] []).2
    = Ret (Some [Byte.x61; Byte.x62], None).
Proof.
  destruct (@unary_end_to_end Msg () nat nat () MetadataModel.no_unicode MetadataModel.Join
    StatusModel.pkg StatusModel.StatusModel_laws codec
    RuntimeModel_laws stats stats
    0 0 0 0 5 (λ _, 0%Z) (λ _, 0%Z) MetadataModel.order MetadataModel.order example_conn server1
    example_ctx Background "/pkg.Svc/Echo" "pkg.Svc" [Byte.x61; Byte.x62] [] [[Byte.x61]; [Byte.x62]]
    info echo
    (handler_run 0 server1 Background info echo
       (request_rpc 5 (ClientConn.request_header 0 MetadataModel.order example_conn example_ctx
          "/pkg.Svc/Echo") (mkBody (Some [Byte.x61; Byte.x62])))
       (ClientConn.request_header 0 MetadataModel.order example_conn example_ctx "/pkg.Svc/Echo")).1.1
    [EHandleRPC 7 (mkCtx (Some {[ "user" := ["bob"] ]}) None None [])
       (StatsInPayload false (Some [Byte.x61; Byte.x62]) 2)]
    (Some [Byte.x61; Byte.x62]) None)
    as [_ H].
  - reflexivity.
  - reflexivity.
  - reflexivity.
  - reflexivity.
  - reflexivity.
  - reflexivity.
  - vm_compute. reflexivity.
  - exact H.
Defined.
End witness.
