(* ===== verification/ClientStream.v ===== *)
(** * internal/client/stream.go: a client stream

    A stream is its read loop, the application's calls of RecvMsg and SendMsg
    (one goroutine for each, as its documentation demands) and a context that
    the environment may cancel, running concurrently: a step relation.  The
    mutex [protected] is held by the read loop's deferred function from its
    first to its last step, teardown included; every other critical section is
    one step.  The unbuffered channel rCh is a joint step of the read loop and
    RecvMsg. *)

From S2P Require Import Prelude GoString Rpc Errors Metadata RequestContext Runtime ClientConn.

Section functions.
Context `{StatusPkg}.

Definition toStatusError (err : error) : option error :=
  if errors_Is err DeadlineExceeded || errors_Is err Canceled
  then status_Err (status_FromContextError err)
  else status_Err (status_FromError err).1.

(** [None]: not the last Rpc of the stream. *)
Definition errorIfDone (rpc : Rpc) : option (option error) :=
  match rpc_Trailer rpc with
  | None => None
  | Some _ =>
      let st := GetStatus (Some rpc) in
      if decide (GetCode st = codes_OK) then Some (Some EOF)
      else Some (status_Err (mkStatus (GetCode st) (GetMessage st) (GetDetails st)))
  end.
End functions.

(** ** State *)

(** Where the read loop is. *)
Inductive loop_pc :=
  | LRead                                   (* in rw.Read *)
  | LGot (rpc : Rpc)                        (* it returned an Rpc *)
  | LSend (body : Body)                     (* in the select that sends to rCh *)
  | LDefer (tr : option Trailer) (err : option error)   (* returned, about to lock *)
  | LTear (rst : bool) (tr : option Trailer) (err : option error)  (* locked, rCh closed *)
  | LFinish (tr : option Trailer) (err : option error)  (* locked, torn down *)
  | LExit.

(** Where RecvMsg is, and SendMsg. *)
Inductive recv_pc := RIdle | RSelect | RClosed.
Inductive send_pc (Msg : Type) := SIdle | SWrite (m : Msg).
Arguments SIdle {Msg}.
Arguments SWrite {Msg}.

Record prot := mkProt {
  p_done : bool;
  p_headerErr : option error;
  p_rErr : option error;
  p_trailer : option Trailer }.

Record cstream (Msg Handler : Type) := mkCs {
  cs_args : stream_args (Handler:=Handler);    (* the arguments of NewStream *)
  cs_ctxErr : option error;          (* cs.ctx.Err() *)
  cs_header : option MD;
  cs_ready : nat;                    (* calls of ready.Done *)
  cs_rCh_closed : bool;
  cs_protected : prot;
  cs_loop : loop_pc;
  cs_recv : recv_pc;
  cs_send : send_pc Msg;
  cs_log : list (effect Msg Handler) (* writes and stats events so far *) }.
Arguments mkCs {Msg Handler}.
Arguments cs_args {Msg Handler}.
Arguments cs_ctxErr {Msg Handler}.
Arguments cs_header {Msg Handler}.
Arguments cs_ready {Msg Handler}.
Arguments cs_rCh_closed {Msg Handler}.
Arguments cs_protected {Msg Handler}.
Arguments cs_loop {Msg Handler}.
Arguments cs_recv {Msg Handler}.
Arguments cs_send {Msg Handler}.
Arguments cs_log {Msg Handler}.

Section setters.
Context {Msg Handler : Type}.
Implicit Type s : cstream Msg Handler.

Definition set_loop (p : loop_pc) s :=
  mkCs (cs_args s) (cs_ctxErr s) (cs_header s) (cs_ready s) (cs_rCh_closed s) (cs_protected s) p
    (cs_recv s) (cs_send s) (cs_log s).
Definition set_recv (p : recv_pc) s :=
  mkCs (cs_args s) (cs_ctxErr s) (cs_header s) (cs_ready s) (cs_rCh_closed s) (cs_protected s)
    (cs_loop s) p (cs_send s) (cs_log s).
Definition set_send (p : send_pc Msg) s :=
  mkCs (cs_args s) (cs_ctxErr s) (cs_header s) (cs_ready s) (cs_rCh_closed s) (cs_protected s)
    (cs_loop s) (cs_recv s) p (cs_log s).
Definition add_log (l : list (effect Msg Handler)) s :=
  mkCs (cs_args s) (cs_ctxErr s) (cs_header s) (cs_ready s) (cs_rCh_closed s) (cs_protected s)
    (cs_loop s) (cs_recv s) (cs_send s) (cs_log s ++ l).
(** A context's error is the first one. *)
Definition cancel_ctx (err : error) s :=
  mkCs (cs_args s) (Some (default err (cs_ctxErr s))) (cs_header s) (cs_ready s) (cs_rCh_closed s)
    (cs_protected s) (cs_loop s) (cs_recv s) (cs_send s) (cs_log s).
Definition set_header (hd : option MD) (err : option error) s :=
  mkCs (cs_args s) (cs_ctxErr s) hd (S (cs_ready s)) (cs_rCh_closed s)
    (mkProt (p_done (cs_protected s)) err (p_rErr (cs_protected s)) (p_trailer (cs_protected s)))
    (cs_loop s) (cs_recv s) (cs_send s) (cs_log s).
Definition close_rCh s :=
  mkCs (cs_args s) (cs_ctxErr s) (cs_header s) (cs_ready s) true (cs_protected s)
    (cs_loop s) (cs_recv s) (cs_send s) (cs_log s).
Definition set_done (err : option error) (tr : option Trailer) s :=
  mkCs (cs_args s) (cs_ctxErr s) (cs_header s) (cs_ready s) (cs_rCh_closed s)
    (mkProt true (p_headerErr (cs_protected s)) err tr)
    (cs_loop s) (cs_recv s) (cs_send s) (cs_log s).
End setters.

(** ** Operations *)
Section ops.
Context {Msg Handler : Type}.
Context `{Unicode, StatusPkg, Codec Msg}.
Implicit Type s : cstream Msg Handler.

Definition NewClientStream (args : stream_args (Handler:=Handler)) : cstream Msg Handler :=
  mkCs args None None 0 false (mkProt false None None None) LRead RIdle SIdle [].

Definition cs_lit s : RequestHeader :=
  header_lit (sa_method (cs_args s)) [] (sa_src (cs_args s)) (sa_dst (cs_args s)).
Definition cs_notify s (ev : stats_event Msg) : list (effect Msg Handler) :=
  notify (sa_statsHandlers (cs_args s)) (sa_ctx (cs_args s)) ev.

(** [Some]: the stream is done, with this error. *)
Definition readErrorIfDone s : option (option error) :=
  if p_done (cs_protected s) then Some (p_rErr (cs_protected s)) else None.

(** The mutex is held by the read loop's deferred function. *)
Definition unlocked s : bool :=
  match cs_loop s with LTear _ _ _ | LFinish _ _ => false | _ => true end.

Definition onReady (err : option error) (headers : option MD) s : cstream Msg Handler :=
  match cs_header s with
  | Some _ => s
  | None =>
      let s' := set_header headers err s in
      match err with
      | None => add_log (cs_notify s (StatsInHeader true (sa_method (cs_args s)) headers)) s'
      | Some _ => s'
      end
  end.

(** The reset that teardown writes when it is told to. *)
Definition rst_rpc s : Rpc :=
  mkRpc (sa_id (cs_args s)) (Some (cs_lit s)) None None None (Some (mkReset RST_STREAM)).

(** One iteration of the read loop for a Read result, up to its select. *)
Definition loop_error (err : error) s : cstream Msg Handler :=
  let rErr := toStatusError err in
  set_loop (LDefer None rErr) (onReady rErr None s).

Definition loop_handle (rpc : Rpc) s : cstream Msg Handler :=
  let continue s :=
    match errorIfDone rpc with
    | Some err => set_loop (LDefer (rpc_Trailer rpc) err) s
    | None =>
        match rpc_Body rpc with
        | None => set_loop LRead s
        | Some body => set_loop (LSend body) s
        end
    end in
  match cs_header s with
  | Some _ => continue s
  | None =>
      match ToMetadata (GetHeaders (GetHeader (Some rpc))) with
      | Err _ => set_loop (LDefer None None) s       (* rErr is still nil *)
      | Ok md => continue (onReady None (Some md) s)
      end
  end.

(** The deferred function: [close(cs.rCh)] and the decision to reset; teardown;
    the final state and the End event. *)
Definition defer_lock (tr : option Trailer) (err : option error) s : outcome (cstream Msg Handler) :=
  if cs_rCh_closed s then Panic "close of closed channel"
  else
    let sendRst := bool_decide (tr = None ∧ cs_ctxErr s ≠ None) in
    Ret (set_loop (LTear sendRst tr err) (close_rCh s)).

(** teardown(sendRst): the reset (a failed write is only logged), the
    multiplexer's teardown, and the cancellation of the stream's context. *)
Definition teardown (sendRst : bool) (werr : option error) s : cstream Msg Handler :=
  cancel_ctx Canceled (add_log (if sendRst then [EWrite (rst_rpc s) werr] else []) s).

Definition defer_finish (endTime : Z) (tr : option Trailer) (err : option error) s
    : cstream Msg Handler :=
  let end_err := if decide (err = Some EOF) then None else err in
  set_loop LExit
    (add_log (cs_notify s (StatsEnd false (sa_beginTime (cs_args s)) endTime end_err))
       (set_done err tr s)).

Definition Header s : option (option MD * option error) :=
  if decide (cs_ready s = 0) then None    (* blocks in ready.Wait *)
  else Some (cs_header s, p_headerErr (cs_protected s)).

(** The trailer metadata; [None] is nil. *)
Definition Trailer_ s : outcome (option MD) :=
  match GetMetadata (p_trailer (cs_protected s)) with
  | None => Ret None
  | Some kvs =>
      match ToMetadata kvs with
      | Ok md => Ret (Some md)
      | Err _ => Panic "Trailer err"
      end
  end.

(** [CloseSend] only writes and notifies. *)
Definition close_rpc s : Rpc :=
  mkRpc (sa_id (cs_args s)) (Some (cs_lit s)) (Some (mkResponseStatus codes_OK codes_OK_String []))
    None (Some (mkTrailer None)) None.
Definition CloseSend (werr : option error) s : cstream Msg Handler * option error :=
  (add_log (cs_notify s (StatsOutTrailer true (Some ∅)) ++ [EWrite (close_rpc s) werr]) s, werr).

(** SendMsg after its check: the write's result is [werr]. *)
Definition SendMsg_write (werr : option error) (m : Msg) s
    : cstream Msg Handler * option error :=
  match Marshal m with
  | Err err => (teardown false None s, Some err)
  | Ok body =>
      let rpc := mkRpc (sa_id (cs_args s)) (Some (cs_lit s)) None
                   (Some (mkBody (Some (Materialize body)))) None None in
      let s := add_log [EWrite rpc werr] s in
      match werr with
      | Some err => (teardown false None s, Some err)
      | None => (add_log (cs_notify s (StatsOutPayload true (Some m) (length body))) s, None)
      end
  end.

(** RecvMsg with a body received from rCh. *)
Definition RecvMsg_body (body : Body) s : cstream Msg Handler * result Msg :=
  let data := default [] (b_Data body) in
  match Unmarshal [data] with
  | Err err => (s, Err err)
  | Ok m => (add_log (cs_notify s (StatsInPayload false (Some m) (length data))) s, Ok m)
  end.
End ops.

(** ** Steps *)
Inductive label (Msg : Type) :=
  | EnvRead (rpc : Rpc)                  (* rw.Read returns an Rpc *)
  | EnvReadErr (err : error)             (* ... or an error *)
  | EnvCtx (err : error)                 (* the application's context is done *)
  | LoopHandle                           (* the read loop works on an Rpc *)
  | LoopDeliver (body : Body)            (* cs.rCh <- rpc.Body, body := <-cs.rCh *)
  | LoopSendClosed                       (* cs.rCh <- on a closed channel *)
  | LoopCtx                              (* <-cs.ctx.Done() in the read loop *)
  | DeferLock
  | DeferTeardown (werr : option error)
  | DeferFinish (endTime : Z)
  | RecvStart                            (* RecvMsg is called and waits *)
  | RecvEnd (ret : option error)         (* RecvMsg returns the stream's error *)
  | RecvCtx (ret : option error)         (* RecvMsg returns the context's error *)
  | RecvSeesClosed                       (* body, ok := <-cs.rCh with !ok *)
  | RecvPanic
  | SendStart (m : Msg)
  | SendEnd (ret : option error)         (* SendMsg returns the stream's error *)
  | SendReturn (werr ret : option error) (* SendMsg returns after its write *)
  | AppCloseSend (werr : option error)
  | AppHeader (ret : option MD * option error)  (* Header returns *)
  | AppTrailer.                          (* Trailer is called *)
Arguments EnvRead {Msg}.
Arguments EnvReadErr {Msg}.
Arguments EnvCtx {Msg}.
Arguments LoopHandle {Msg}.
Arguments LoopDeliver {Msg}.
Arguments LoopSendClosed {Msg}.
Arguments LoopCtx {Msg}.
Arguments DeferLock {Msg}.
Arguments DeferTeardown {Msg}.
Arguments DeferFinish {Msg}.
Arguments RecvStart {Msg}.
Arguments RecvEnd {Msg}.
Arguments RecvCtx {Msg}.
Arguments RecvSeesClosed {Msg}.
Arguments RecvPanic {Msg}.
Arguments SendStart {Msg}.
Arguments SendEnd {Msg}.
Arguments SendReturn {Msg}.
Arguments AppCloseSend {Msg}.
Arguments AppHeader {Msg}.
Arguments AppTrailer {Msg}.

Section steps.
Context {Msg Handler : Type}.
Context `{Unicode, StatusPkg, Codec Msg}.
Implicit Type s : cstream Msg Handler.

Inductive step : outcome (cstream Msg Handler) → label Msg → outcome (cstream Msg Handler) → Prop :=
  (* the environment *)
  | step_read s rpc :
      cs_loop s = LRead → step (Ret s) (EnvRead rpc) (Ret (set_loop (LGot rpc) s))
  | step_read_err s err :
      cs_loop s = LRead → step (Ret s) (EnvReadErr err) (Ret (loop_error err s))
  | step_ctx s err : step (Ret s) (EnvCtx err) (Ret (cancel_ctx err s))
  (* the read loop *)
  | step_handle s rpc :
      cs_loop s = LGot rpc → step (Ret s) LoopHandle (Ret (loop_handle rpc s))
  | step_deliver s body :
      cs_loop s = LSend body → cs_recv s = RSelect → cs_rCh_closed s = false →
      step (Ret s) (LoopDeliver body) (Ret (set_loop LRead (set_recv RIdle (RecvMsg_body body s).1)))
  | step_send_closed s body :
      cs_loop s = LSend body → cs_rCh_closed s = true →
      step (Ret s) LoopSendClosed (Panic "send on closed channel")
  | step_loop_ctx s body err :
      cs_loop s = LSend body → cs_ctxErr s = Some err →
      step (Ret s) LoopCtx (Ret (set_loop (LDefer None (toStatusError err)) s))
  | step_defer_lock s tr err :
      cs_loop s = LDefer tr err → step (Ret s) DeferLock (defer_lock tr err s)
  | step_defer_teardown s rst tr err werr :
      cs_loop s = LTear rst tr err →
      step (Ret s) (DeferTeardown werr) (Ret (set_loop (LFinish tr err) (teardown rst werr s)))
  | step_defer_finish s tr err endTime :
      cs_loop s = LFinish tr err →
      step (Ret s) (DeferFinish endTime) (Ret (defer_finish endTime tr err s))
  (* RecvMsg *)
  | step_recv_done s ret :
      cs_recv s = RIdle → unlocked s = true → readErrorIfDone s = Some ret →
      step (Ret s) (RecvEnd ret) (Ret s)
  | step_recv_start s :
      cs_recv s = RIdle → unlocked s = true → readErrorIfDone s = None →
      step (Ret s) RecvStart (Ret (set_recv RSelect s))
  | step_recv_ctx s err :
      cs_recv s = RSelect → cs_ctxErr s = Some err →
      step (Ret s) (RecvCtx (toStatusError err)) (Ret (set_recv RIdle s))
  | step_recv_sees_closed s :
      cs_recv s = RSelect → cs_rCh_closed s = true →
      step (Ret s) RecvSeesClosed (Ret (set_recv RClosed s))
  | step_recv_closed s ret :
      cs_recv s = RClosed → unlocked s = true → readErrorIfDone s = Some ret →
      step (Ret s) (RecvEnd ret) (Ret (set_recv RIdle s))
  | step_recv_panic s :
      cs_recv s = RClosed → unlocked s = true → readErrorIfDone s = None →
      step (Ret s) RecvPanic (Panic "cs.rCh was closed but cs.done == false!")
  (* SendMsg and CloseSend *)
  | step_send_done s ret :
      cs_send s = SIdle → unlocked s = true → readErrorIfDone s = Some ret →
      step (Ret s) (SendEnd ret) (Ret s)
  | step_send_start s m :
      cs_send s = SIdle → unlocked s = true → readErrorIfDone s = None →
      step (Ret s) (SendStart m) (Ret (set_send (SWrite m) s))
  | step_send_return s m werr :
      cs_send s = SWrite m →
      step (Ret s) (SendReturn werr (SendMsg_write werr m s).2)
        (Ret (set_send SIdle (SendMsg_write werr m s).1))
  | step_close_send s werr :
      cs_send s = SIdle → step (Ret s) (AppCloseSend werr) (Ret (CloseSend werr s).1)
  (* Header and Trailer: any goroutine may call them at any time *)
  | step_header s ret :
      unlocked s = true → Header s = Some ret → step (Ret s) (AppHeader ret) (Ret s)
  | step_trailer s :
      unlocked s = true → step (Ret s) AppTrailer (_ ← Trailer_ s; Ret s).
End steps.

(** ** Executing labels

    [exec] computes the step of a label, so that concrete histories can be
    evaluated. *)
Section exec.
Context {Msg Handler : Type}.
Context `{Unicode, StatusPkg, Codec Msg}.
Implicit Type s : cstream Msg Handler.

Definition exec s (l : label Msg) : option (outcome (cstream Msg Handler)) :=
  match l with
  | EnvRead rpc =>
      match cs_loop s with LRead => Some (Ret (set_loop (LGot rpc) s)) | _ => None end
  | EnvReadErr err =>
      match cs_loop s with LRead => Some (Ret (loop_error err s)) | _ => None end
  | EnvCtx err => Some (Ret (cancel_ctx err s))
  | LoopHandle =>
      match cs_loop s with LGot rpc => Some (Ret (loop_handle rpc s)) | _ => None end
  | LoopDeliver body =>
      match cs_loop s, cs_recv s, cs_rCh_closed s with
      | LSend b, RSelect, false =>
          if decide (b = body)
          then Some (Ret (set_loop LRead (set_recv RIdle (RecvMsg_body body s).1))) else None
      | _, _, _ => None
      end
  | LoopSendClosed =>
      match cs_loop s, cs_rCh_closed s with
      | LSend _, true => Some (Panic "send on closed channel")
      | _, _ => None
      end
  | LoopCtx =>
      match cs_loop s, cs_ctxErr s with
      | LSend _, Some err => Some (Ret (set_loop (LDefer None (toStatusError err)) s))
      | _, _ => None
      end
  | DeferLock => match cs_loop s with LDefer tr err => Some (defer_lock tr err s) | _ => None end
  | DeferTeardown werr =>
      match cs_loop s with
      | LTear rst tr err => Some (Ret (set_loop (LFinish tr err) (teardown rst werr s)))
      | _ => None
      end
  | DeferFinish endTime =>
      match cs_loop s with
      | LFinish tr err => Some (Ret (defer_finish endTime tr err s))
      | _ => None
      end
  | RecvStart =>
      match cs_recv s, unlocked s, readErrorIfDone s with
      | RIdle, true, None => Some (Ret (set_recv RSelect s))
      | _, _, _ => None
      end
  | RecvEnd ret =>
      match cs_recv s, unlocked s, readErrorIfDone s with
      | RIdle, true, Some r => if decide (r = ret) then Some (Ret s) else None
      | RClosed, true, Some r => if decide (r = ret) then Some (Ret (set_recv RIdle s)) else None
      | _, _, _ => None
      end
  | RecvCtx ret =>
      match cs_recv s, cs_ctxErr s with
      | RSelect, Some err =>
          if decide (toStatusError err = ret) then Some (Ret (set_recv RIdle s)) else None
      | _, _ => None
      end
  | RecvSeesClosed =>
      match cs_recv s, cs_rCh_closed s with
      | RSelect, true => Some (Ret (set_recv RClosed s))
      | _, _ => None
      end
  | RecvPanic =>
      match cs_recv s, unlocked s, readErrorIfDone s with
      | RClosed, true, None => Some (Panic "cs.rCh was closed but cs.done == false!")
      | _, _, _ => None
      end
  | SendStart m =>
      match cs_send s, unlocked s, readErrorIfDone s with
      | SIdle, true, None => Some (Ret (set_send (SWrite m) s))
      | _, _, _ => None
      end
  | SendEnd ret =>
      match cs_send s, unlocked s, readErrorIfDone s with
      | SIdle, true, Some r => if decide (r = ret) then Some (Ret s) else None
      | _, _, _ => None
      end
  | SendReturn werr ret =>
      match cs_send s with
      | SWrite m =>
          if decide ((SendMsg_write werr m s).2 = ret)
          then Some (Ret (set_send SIdle (SendMsg_write werr m s).1)) else None
      | SIdle => None
      end
  | AppCloseSend werr =>
      match cs_send s with SIdle => Some (Ret (CloseSend werr s).1) | _ => None end
  | AppHeader ret =>
      match unlocked s, Header s with
      | true, Some r => if decide (r = ret) then Some (Ret s) else None
      | _, _ => None
      end
  | AppTrailer => if unlocked s then Some (_ ← Trailer_ s; Ret s) else None
  end.

(** [exec] computes the steps of the relation. *)
Lemma cs_exec_step s l o : exec s l = Some o → step (Ret s) l o.
Proof.
  unfold exec. intros E. destruct l;
    repeat match goal with
      | H : (match ?x with _ => _ end) = Some _ |- _ =>
          destruct x eqn:?; try discriminate H
      end; injection E as <-; subst; try (by econstructor; eauto).
Qed.

Fixpoint exec_run s (ls : list (label Msg)) : option (cstream Msg Handler) :=
  match ls with
  | [] => Some s
  | l :: ls => match exec s l with Some (Ret s') => exec_run s' ls | _ => None end
  end.

Lemma cs_exec_run_trace ls s s' : exec_run s ls = Some s' → trace step (Ret s) ls (Ret s').
Proof.
  revert s. induction ls as [|l ls IH]; intros s E; simplify_eq/=; [by constructor|].
  destruct (exec s l) as [[s1|]|] eqn:Es; try done.
  eapply trace_step; [by apply cs_exec_step|auto].
Qed.
End exec.

(** ** What the labels of a history say *)
Section history.
Context {Msg : Type}.
Implicit Type h : list (label Msg).

Definition reads_of (l : label Msg) : list Rpc := match l with EnvRead rpc => [rpc] | _ => [] end.
Definition reads h : list Rpc := h ≫= reads_of.
Definition delivered_of (l : label Msg) : list Body :=
  match l with LoopDeliver b => [b] | _ => [] end.
(** The bodies that RecvMsg was given, in order. *)
Definition delivered h : list Body := h ≫= delivered_of.

(** The message an Rpc from the server carries; the last Rpc carries none. *)
Definition message (rpc : Rpc) : list Body :=
  match rpc_Trailer rpc, rpc_Body rpc with None, Some b => [b] | _, _ => [] end.
Definition messages (rs : list Rpc) : list Body := rs ≫= message.

Lemma cs_reads_snoc h l : reads (h ++ [l]) = reads h ++ reads_of l.
Proof. unfold reads. by rewrite bind_app, bind_singleton. Qed.
Lemma delivered_snoc h l : delivered (h ++ [l]) = delivered h ++ delivered_of l.
Proof. unfold delivered. by rewrite bind_app, bind_singleton. Qed.
Lemma messages_snoc rs r : messages (rs ++ [r]) = messages rs ++ message r.
Proof. unfold messages. by rewrite bind_app, bind_singleton. Qed.
End history.

(** ** Invariant *)
Section invariant.
Context {Msg Handler : Type}.
Context `{Unicode, StatusPkg, Codec Msg}.
Implicit Type s : cstream Msg Handler.

(** The resets a stream has written, or tried to. *)
Definition reset_of (e : effect Msg Handler) : list Rpc :=
  match e with
  | EWrite rpc _ => match rpc_Reset rpc with Some _ => [rpc] | None => [] end
  | _ => []
  end.
Definition resets (l : list (effect Msg Handler)) : list Rpc := l ≫= reset_of.

(** The end of the stream that the read loop has come to, if it has. *)
Definition ending (p : loop_pc) (pr : prot) : option (option Trailer * option error) :=
  match p with
  | LDefer tr err | LTear _ tr err | LFinish tr err => Some (tr, err)
  | LExit => Some (p_trailer pr, p_rErr pr)
  | _ => None
  end.

Definition has_closed (p : loop_pc) : bool :=
  match p with LTear _ _ _ | LFinish _ _ | LExit => true | _ => false end.

(** Where the message of the last Rpc is. *)
Definition in_hand (p : loop_pc) : list Body :=
  match p with LGot rpc => message rpc | LSend b => [b] | _ => [] end.

Record cs_inv (h : list (label Msg)) s : Prop := {
  ci_closed : cs_rCh_closed s = has_closed (cs_loop s);
  ci_done : p_done (cs_protected s) = true ↔ cs_loop s = LExit;
  ci_trailer : p_done (cs_protected s) = false → p_trailer (cs_protected s) = None;
  ci_recv : cs_recv s = RClosed → cs_rCh_closed s = true;
  ci_ready : cs_ready s ≤ 1;
  ci_ready_loop : match cs_loop s with
    | LRead | LGot _ => cs_ready s = match cs_header s with Some _ => 1 | None => 0 end
    | LSend _ => cs_ready s = 1 ∧ cs_header s ≠ None
    | _ => True
    end;
  ci_got rpc : cs_loop s = LGot rpc → last (reads h) = Some rpc;
  ci_open : ending (cs_loop s) (cs_protected s) = None →
    delivered h ++ in_hand (cs_loop s) = messages (reads h);
  ci_ending tr err : ending (cs_loop s) (cs_protected s) = Some (tr, err) →
    delivered h `prefix_of` messages (reads h) ∧
    (tr ≠ None → delivered h = messages (reads h) ∧
       ∃ rpc, last (reads h) = Some rpc ∧ rpc_Trailer rpc = tr ∧ errorIfDone rpc = Some err);
  ci_resets : length (resets (cs_log s)) ≤
    match cs_loop s with
    | LFinish None _ => 1
    | LExit => match p_trailer (cs_protected s) with None => 1 | Some _ => 0 end
    | _ => 0
    end;
  ci_tear rst tr err : cs_loop s = LTear rst tr err → rst = true → tr = None }.

Lemma resets_app l1 l2 : resets (l1 ++ l2) = resets l1 ++ resets l2.
Proof. apply bind_app. Qed.
Lemma resets_notify s ev : resets (cs_notify s ev) = [].
Proof. unfold cs_notify, notify. by induction (sa_statsHandlers (cs_args s)). Qed.

Lemma cs_inv_init args : cs_inv [] (NewClientStream (Msg:=Msg) (Handler:=Handler) args).
Proof. split; simpl; try done; lia. Qed.

(** A step that leaves the read loop and what it owns alone. *)
Lemma cs_inv_frame h l s s' :
  cs_inv h s → reads_of l = [] → delivered_of l = [] →
  cs_loop s' = cs_loop s → cs_protected s' = cs_protected s →
  cs_rCh_closed s' = cs_rCh_closed s → cs_ready s' = cs_ready s → cs_header s' = cs_header s →
  (cs_recv s' = RClosed → cs_rCh_closed s = true) →
  resets (cs_log s') = resets (cs_log s) → cs_inv (h ++ [l]) s'.
Proof.
  intros [] Hr Hd Hl Hp Hc Hrd Hhd Hrecv Hlog.
  assert (Hreads : reads (h ++ [l]) = reads h) by (by rewrite cs_reads_snoc, Hr, app_nil_r).
  assert (Hdel : delivered (h ++ [l]) = delivered h) by (by rewrite delivered_snoc, Hd, app_nil_r).
  split; rewrite ?Hl, ?Hp, ?Hc, ?Hrd, ?Hhd, ?Hreads, ?Hdel, ?Hlog; done.
Qed.

Lemma SendMsg_write_frame werr m s :
  let s' := (SendMsg_write werr m s).1 in
  cs_loop s' = cs_loop s ∧ cs_protected s' = cs_protected s ∧ cs_rCh_closed s' = cs_rCh_closed s ∧
  cs_ready s' = cs_ready s ∧ cs_header s' = cs_header s ∧ cs_recv s' = cs_recv s ∧
  resets (cs_log s') = resets (cs_log s).
Proof.
  unfold SendMsg_write. destruct (Marshal m) as [body|e]; simpl.
  - destruct werr; simpl; split_and!; try done; rewrite !resets_app, ?resets_notify; simpl;
      by rewrite !app_nil_r.
  - split_and!; try done. by rewrite resets_app, app_nil_r.
Qed.

Lemma RecvMsg_body_frame body s :
  let s' := (RecvMsg_body (Msg:=Msg) body s).1 in
  cs_loop s' = cs_loop s ∧ cs_protected s' = cs_protected s ∧ cs_rCh_closed s' = cs_rCh_closed s ∧
  cs_ready s' = cs_ready s ∧ cs_header s' = cs_header s ∧ cs_recv s' = cs_recv s ∧
  resets (cs_log s') = resets (cs_log s).
Proof.
  unfold RecvMsg_body. destruct (Unmarshal _); [|done]. simpl. split_and!; try done.
  by rewrite resets_app, resets_notify, app_nil_r.
Qed.

Definition done_trailer (p : prot) : bool * option Trailer := (p_done p, p_trailer p).

Lemma onReady_frame err hd s :
  let s' := onReady err hd s in
  cs_loop s' = cs_loop s ∧ done_trailer (cs_protected s') = done_trailer (cs_protected s) ∧
  cs_rCh_closed s' = cs_rCh_closed s ∧ cs_recv s' = cs_recv s ∧
  resets (cs_log s') = resets (cs_log s) ∧
  (match cs_header s with
   | Some _ => s' = s
   | None => cs_ready s' = S (cs_ready s) ∧ cs_header s' = hd
   end).
Proof.
  unfold onReady. destruct (cs_header s) eqn:E; [done|]. destruct err; simpl; split_and!; try done.
  by rewrite resets_app, resets_notify, app_nil_r.
Qed.

Lemma messages_prefix rs r : messages rs `prefix_of` messages (rs ++ [r]).
Proof. rewrite messages_snoc. by eexists. Qed.

Lemma errorIfDone_trailer rpc err : errorIfDone rpc = Some err → rpc_Trailer rpc ≠ None ∧ message rpc = [].
Proof. unfold errorIfDone, message. by destruct (rpc_Trailer rpc). Qed.
Lemma errorIfDone_None rpc :
  errorIfDone rpc = None → rpc_Trailer rpc = None ∧
    message rpc = match rpc_Body rpc with Some b => [b] | None => [] end.
Proof.
  unfold errorIfDone, message. destruct (rpc_Trailer rpc); [|done]. by case_decide.
Qed.

Lemma cs_inv_read h s rpc :
  cs_inv h s → cs_loop s = LRead → cs_inv (h ++ [EnvRead rpc]) (set_loop (LGot rpc) s).
Proof.
  intros [] Hl. rewrite Hl in *. split; simpl; try done.
  - split; [intros Hd; apply ci_done0 in Hd|]; done.
  - intros rpc' [= <-]. rewrite cs_reads_snoc. simpl. by rewrite last_snoc.
  - intros _. rewrite delivered_snoc, cs_reads_snoc. simpl.
    rewrite messages_snoc, app_nil_r, <-ci_open0 by done. simpl. by rewrite app_nil_r.
Qed.

(** Leaving the loop. *)
Lemma cs_inv_leave h l s s' tr err :
  cs_inv h s → reads_of l = [] → delivered_of l = [] →
  ending (cs_loop s) (cs_protected s) = None → cs_loop s' = LDefer tr err →
  done_trailer (cs_protected s') = done_trailer (cs_protected s) →
  cs_rCh_closed s' = cs_rCh_closed s → cs_ready s' ≤ 1 → cs_recv s' = cs_recv s →
  resets (cs_log s') = resets (cs_log s) →
  (tr ≠ None → in_hand (cs_loop s) = [] ∧
     ∃ rpc, last (reads h) = Some rpc ∧ rpc_Trailer rpc = tr ∧ errorIfDone rpc = Some err) →
  cs_inv (h ++ [l]) s'.
Proof.
  intros [] Hr Hd Hend Hl' [= Hp Hpt] Hc Hrd Hrecv Hlog Htr.
  assert (Hreads : reads (h ++ [l]) = reads h) by (by rewrite cs_reads_snoc, Hr, app_nil_r).
  assert (Hdel : delivered (h ++ [l]) = delivered h) by (by rewrite delivered_snoc, Hd, app_nil_r).
  assert (Hcl : has_closed (cs_loop s) = false) by (by destruct (cs_loop s)).
  specialize (ci_open0 Hend).
  split; rewrite ?Hl', ?Hp, ?Hpt, ?Hc, ?Hreads, ?Hdel, ?Hlog; try done.
  - by rewrite ci_closed0.
  - rewrite ci_done0. split; [intros Hx; rewrite Hx in Hend|]; done.
  - rewrite Hrecv. done.
  - intros tr' err' [= <- <-]. split; [rewrite <-ci_open0; by eexists|].
    intros Hne. destruct (Htr Hne) as [Hin Hrpc]. split; [|done].
    by rewrite <-ci_open0, Hin, app_nil_r.
  - by destruct (cs_loop s).
Qed.

Lemma cs_inv_handle h s rpc :
  cs_inv h s → cs_loop s = LGot rpc → cs_inv (h ++ [LoopHandle]) (loop_handle rpc s).
Proof.
  intros Hinv Hl. pose proof Hinv as []. rewrite Hl in *. specialize (ci_open0 eq_refl).
  assert (Hcont : ∀ s1, cs_loop s1 = LGot rpc → done_trailer (cs_protected s1) = done_trailer (cs_protected s) →
    cs_rCh_closed s1 = cs_rCh_closed s → cs_recv s1 = cs_recv s →
    resets (cs_log s1) = resets (cs_log s) → cs_header s1 ≠ None → cs_ready s1 = 1 →
    cs_inv (h ++ [LoopHandle])
      (match errorIfDone rpc with
       | Some err => set_loop (LDefer (rpc_Trailer rpc) err) s1
       | None => match rpc_Body rpc with
                 | None => set_loop LRead s1
                 | Some body => set_loop (LSend body) s1
                 end
       end)).
  { intros s1 F1 F2' F3 F4 F5 F6 F7. pose proof F2' as [= F2 F2t]. destruct (errorIfDone rpc) as [err|] eqn:Ed.
    - eapply cs_inv_leave; eauto; simpl; try done; rewrite ?Hl; try done; [lia|].
      intros _. destruct (errorIfDone_trailer _ _ Ed) as [_ Hm]. simpl. split; [done|].
      exists rpc. by split_and!; [apply ci_got0| |].
    - apply errorIfDone_None in Ed as [_ Hm]. simpl in ci_open0. rewrite Hm in ci_open0.
      destruct (rpc_Body rpc) as [b|]; split; simpl; rewrite ?F2, ?F2t, ?F3, ?F4, ?F5; try done;
        rewrite ?cs_reads_snoc, ?delivered_snoc, ?app_nil_r; simpl; try done.
      + by rewrite ci_done0.
      + lia.
      + by rewrite ci_done0.
      + lia.
      + by destruct (cs_header s1).
      + intros _. by rewrite app_nil_r in ci_open0. }
  unfold loop_handle. destruct (cs_header s) as [hd|] eqn:Eh.
  { apply Hcont; try done. by rewrite Eh. }
  destruct (ToMetadata _) as [md|e].
  - pose proof (onReady_frame None (Some md) s) as (F1 & F2 & F3 & F4 & F5 & F6).
    rewrite Eh in F6. destruct F6 as [F6 F7]. apply Hcont; try congruence.
  - eapply cs_inv_leave; eauto; try done. by rewrite Hl.
Qed.

Lemma cs_inv_error h s err :
  cs_inv h s → cs_loop s = LRead → cs_inv (h ++ [EnvReadErr err]) (loop_error err s).
Proof.
  intros Hinv Hl. pose proof Hinv as []. rewrite Hl in *. unfold loop_error.
  pose proof (onReady_frame (toStatusError err) None s) as (F1 & F2 & F3 & F4 & F5 & F6).
  eapply cs_inv_leave; eauto; try done; simpl; [by rewrite Hl|].
  destruct (cs_header s) eqn:Eh; [rewrite F6|]; lia.
Qed.

Lemma cs_inv_deliver h s body :
  cs_inv h s → cs_loop s = LSend body → cs_recv s = RSelect →
  cs_inv (h ++ [LoopDeliver body])
    (set_loop LRead (set_recv RIdle (RecvMsg_body (Msg:=Msg) body s).1)).
Proof.
  intros [] Hl Hr. rewrite Hl in *. specialize (ci_open0 eq_refl).
  destruct (RecvMsg_body_frame body s) as (F1 & F2 & F3 & F4 & F5 & F6 & F7).
  split; simpl; rewrite ?F2, ?F3, ?F4, ?F5, ?F7; try done.
  - by rewrite ci_done0.
  - destruct ci_ready_loop0. by destruct (cs_header s).
  - intros _. rewrite delivered_snoc, cs_reads_snoc. simpl. by rewrite !app_nil_r.
Qed.

Lemma cs_inv_defer h s tr err :
  cs_inv h s → cs_loop s = LDefer tr err →
  ∃ s', defer_lock tr err s = Ret s' ∧ cs_inv (h ++ [DeferLock]) s'.
Proof.
  intros [] Hl. rewrite Hl in *. unfold defer_lock. rewrite ci_closed0. simpl.
  eexists. split; [done|].
  split; simpl; rewrite ?cs_reads_snoc, ?delivered_snoc; simpl; rewrite ?app_nil_r; try done.
  - by rewrite ci_done0.
  - intros ??? [= <- <- <-] [? _]%bool_decide_eq_true. done.
Qed.

Lemma cs_inv_teardown h s rst tr err werr :
  cs_inv h s → cs_loop s = LTear rst tr err →
  cs_inv (h ++ [DeferTeardown werr]) (set_loop (LFinish tr err) (teardown rst werr s)).
Proof.
  intros [] Hl. rewrite Hl in *.
  split; simpl; rewrite ?cs_reads_snoc, ?delivered_snoc; simpl; rewrite ?app_nil_r; try done.
  - by rewrite ci_done0.
  - rewrite resets_app, length_app. specialize (ci_tear0 rst tr err eq_refl).
    destruct rst; simpl; [rewrite ci_tear0 by done; simpl|destruct tr]; lia.
Qed.

Lemma cs_inv_finish h s tr err endTime :
  cs_inv h s → cs_loop s = LFinish tr err →
  cs_inv (h ++ [DeferFinish endTime]) (defer_finish endTime tr err s).
Proof.
  intros [] Hl. rewrite Hl in *.
  split; simpl; rewrite ?cs_reads_snoc, ?delivered_snoc; simpl; rewrite ?app_nil_r; try done.
  - rewrite resets_app, resets_notify, app_nil_r. destruct tr; lia.
Qed.

Lemma cs_inv_step h s l o :
  cs_inv h s → step (Ret s) l o →
  (∃ s', o = Ret s' ∧ cs_inv (h ++ [l]) s') ∨ (l = AppTrailer ∧ ∃ msg, Trailer_ s = Panic msg ∧ o = Panic msg).
Proof.
  intros Hinv Hst. pose proof Hinv as [].
  assert (l = AppTrailer ∨ l ≠ AppTrailer) as [->|Hl] by (destruct l; (by left) || (by right)).
  { inversion Hst; subst. destruct (Trailer_ s) as [md|msg]; [|right; simpl; eauto].
    left. eexists. split; [done|]. by eapply cs_inv_frame. }
  left. inversion Hst; subst; try done.
  - eexists. split; [done|]. by apply cs_inv_read.
  - eexists. split; [done|]. by apply cs_inv_error.
  - eexists. split; [done|]. by eapply cs_inv_frame.
  - eexists. split; [done|]. by apply cs_inv_handle.
  - eexists. split; [done|]. by apply cs_inv_deliver.
  - match goal with H : cs_loop s = _ |- _ => rewrite H in * end. simpl in *. congruence.
  - eexists. split; [done|]. match goal with H : cs_loop s = _ |- _ => rewrite H in * end.
    eapply cs_inv_leave; eauto; try done.
    by match goal with H : cs_loop s = _ |- _ => rewrite H end.
  - by eapply cs_inv_defer.
  - eexists. split; [done|]. by eapply cs_inv_teardown.
  - eexists. split; [done|]. by eapply cs_inv_finish.
  - eexists. split; [done|]. by eapply cs_inv_frame.
  - eexists. split; [done|]. by eapply cs_inv_frame.
  - eexists. split; [done|]. by eapply cs_inv_frame.
  - eexists. split; [done|]. by eapply cs_inv_frame.
  - eexists. split; [done|]. by eapply cs_inv_frame.
  - exfalso. unfold readErrorIfDone in *. destruct (p_done (cs_protected s)) eqn:E; [done|].
    assert (Hcl : has_closed (cs_loop s) = true) by (rewrite <-ci_closed0; auto).
    unfold unlocked in *. destruct (cs_loop s); try done.
    by pose proof (proj2 ci_done0 eq_refl).
  - eexists. split; [done|]. by eapply cs_inv_frame.
  - eexists. split; [done|]. by eapply cs_inv_frame.
  - eexists. split; [done|]. destruct (SendMsg_write_frame werr m s) as (?&?&?&?&?&?&?).
    eapply cs_inv_frame; eauto. simpl. intros Hx. apply ci_recv0. congruence.
  - eexists. split; [done|]. eapply cs_inv_frame; eauto. unfold CloseSend. simpl.
    by rewrite !resets_app, resets_notify, app_nil_r.
  - eexists. split; [done|]. by eapply cs_inv_frame.
Qed.
End invariant.

(** ** What the stream guarantees *)
Section properties.
Context {Msg Handler : Type}.
Context `{Unicode, StatusPkg, Codec Msg}.
Implicit Type s : cstream Msg Handler.

(** A stream that panics does so in Trailer. *)
Lemma reachable_cs_inv args ls o :
  trace step (Ret (NewClientStream (Msg:=Msg) (Handler:=Handler) args)) ls o →
  match o with
  | Ret s => cs_inv ls s
  | Panic msg => ∃ ls' s, ls = ls' ++ [AppTrailer] ∧ cs_inv ls' s ∧ Trailer_ s = Panic msg
  end.
Proof.
  intros Htr.
  refine (trace_history_invariant step (λ h o, match o with
    | Ret s => cs_inv h s
    | Panic msg => ∃ h' s, h = h' ++ [AppTrailer] ∧ cs_inv h' s ∧ Trailer_ s = Panic msg
    end) _ [] (Ret (NewClientStream args)) ls o (cs_inv_init args) Htr).
  clear. intros h [s|] l o Hinv Hst; [|inversion Hst].
  destruct (cs_inv_step h s l o Hinv Hst) as [(s' & -> & ?)|(-> & msg & ? & ->)]; [done|eauto].
Qed.

(** The trailer that Trailer fails on was the last thing read. *)
Lemma trailer_panic h s msg :
  cs_inv h s → Trailer_ s = Panic msg →
  ∃ rpc kvs e, last (reads h) = Some rpc ∧ GetMetadata (rpc_Trailer rpc) = Some kvs ∧ ToMetadata kvs = Err e ∧
    cs_loop s = LExit.
Proof.
  intros [] Ht. unfold Trailer_ in Ht.
  destruct (GetMetadata (p_trailer (cs_protected s))) as [kvs|] eqn:Hmd; [|done].
  destruct (ToMetadata kvs) as [|e] eqn:He; [done|].
  assert (Hne : p_trailer (cs_protected s) ≠ None) by (intros Hn; by rewrite Hn in Hmd).
  assert (Hl : cs_loop s = LExit).
  { apply ci_done0. destruct (p_done (cs_protected s)); [done|]. by destruct Hne, ci_trailer0. }
  rewrite Hl in ci_ending0. simpl in ci_ending0. destruct (ci_ending0 _ _ eq_refl) as [_ Hend].
  destruct (Hend Hne) as (_ & rpc & Hlast & Htr & _). exists rpc, kvs, e. by rewrite Htr.
Qed.

(** C11: what a client stream guarantees whatever the server sends, however the
    application's calls and the context's end interleave with its read loop: rCh
    is closed once and never sent to afterwards, the panic "rCh was closed but
    done == false" is unreachable, and the WaitGroup that Header waits for is
    released at most once; a reset is written at most once, and never on a
    stream that the server has ended with a trailer.  The only panic is that of
    Trailer, once the stream has ended, and only if the last Rpc that was read has
    trailer metadata that cannot be decoded. *)
Theorem cstream_safe args ls o :
  trace step (Ret (NewClientStream (Msg:=Msg) (Handler:=Handler) args)) ls o →
  match o with
  | Ret s => cs_ready s ≤ 1 ∧ (p_done (cs_protected s) = true ↔ cs_loop s = LExit) ∧
      cs_rCh_closed s = has_closed (cs_loop s) ∧ length (resets (cs_log s)) ≤ 1 ∧
      (cs_loop s = LExit → p_trailer (cs_protected s) ≠ None → resets (cs_log s) = [])
  | Panic msg => ∃ ls' s rpc kvs e, ls = ls' ++ [AppTrailer] ∧
      trace step (Ret (NewClientStream (Msg:=Msg) (Handler:=Handler) args)) ls' (Ret s) ∧ cs_loop s = LExit ∧
      last (reads ls') = Some rpc ∧ GetMetadata (rpc_Trailer rpc) = Some kvs ∧ ToMetadata kvs = Err e
  end.
Proof.
  intros Htr. pose proof (reachable_cs_inv args ls o Htr) as Hinv. destruct o as [s|msg].
  - destruct Hinv. split_and!; try done.
    + destruct (cs_loop s); try lia; [destruct tr|destruct (p_trailer _)]; lia.
    + intros Hl Ht. rewrite Hl in *. destruct (p_trailer _); [|done].
      by destruct (resets (cs_log s)); [|simpl in *; lia].
  - destruct Hinv as (ls' & _ & -> & _). apply trace_snoc_inv in Htr as ([s|] & Htr & Hst); [|inversion Hst].
    pose proof (reachable_cs_inv _ _ _ Htr) as Hinv. inversion Hst; subst.
    destruct (Trailer_ s) as [|m] eqn:Em; simplify_eq/=.
    destruct (trailer_panic ls' s msg Hinv Em) as (rpc & kvs & e & ? & ? & ? & ?). eauto 15.
Qed.

Lemma RecvEnd_done ls l args s s' :
  trace step (Ret (NewClientStream (Msg:=Msg) (Handler:=Handler) args)) ls (Ret s) →
  step (Ret s) (RecvEnd l) (Ret s') → p_done (cs_protected s') = true ∧ p_rErr (cs_protected s') = l.
Proof.
  intros _ Hst. inversion Hst; subst; unfold readErrorIfDone in *; simpl;
    destruct (p_done (cs_protected _)); by simplify_eq.
Qed.

(** C12: RecvMsg yields the messages of the Rpcs read for the stream in their
    order, none twice and none skipped: what it has been given is always a
    prefix of them.  When it returns the stream's end after a trailer, it has
    been given all of them, and the error is io.EOF if the trailer's status is
    OK and otherwise that status as a gRPC error. *)
Theorem cstream_delivery args ls s :
  trace step (Ret (NewClientStream (Msg:=Msg) (Handler:=Handler) args)) ls (Ret s) →
  delivered ls `prefix_of` messages (reads ls) ∧
  (∀ ret, last ls = Some (RecvEnd ret) →
     p_rErr (cs_protected s) = ret ∧
     (p_trailer (cs_protected s) ≠ None →
        delivered ls = messages (reads ls) ∧
        ∃ rpc, last (reads ls) = Some rpc ∧ rpc_Trailer rpc = p_trailer (cs_protected s) ∧
          errorIfDone rpc = Some ret)).
Proof.
  intros Htr. pose proof (reachable_cs_inv _ _ _ Htr) as Hinv.
  pose proof Hinv as []. split.
  - destruct (ending (cs_loop s) (cs_protected s)) as [[tr err]|] eqn:E.
    + by destruct (ci_ending0 _ _ eq_refl).
    + rewrite <-ci_open0 by done. by eexists.
  - intros ret Hlast. apply last_Some in Hlast as [ls0 ->].
    apply trace_snoc_inv in Htr as ([s0|m] & Htr0 & Hst); [|inversion Hst].
    destruct (RecvEnd_done _ _ _ _ _ Htr0 Hst) as [Hd Hr]. split; [done|]. intros Ht.
    apply ci_done0 in Hd. rewrite Hd in ci_ending0. simpl in ci_ending0. rewrite Hr in ci_ending0.
    by destruct (ci_ending0 _ _ eq_refl) as [_ ?]; auto.
Qed.

(** Once the read loop has ended, the stream's end never changes. *)
Definition stays s0 (l : option (label Msg)) (o : outcome (cstream Msg Handler)) : Prop :=
  match o with
  | Ret s => cs_loop s = LExit ∧ cs_protected s = cs_protected s0 ∧ cs_ready s = cs_ready s0
  | Panic msg => l = Some AppTrailer ∧ Trailer_ s0 = Panic msg
  end.

Lemma stays_done s0 l s : stays s0 l (Ret s) → readErrorIfDone s = readErrorIfDone s0.
Proof. intros (_ & Hp & _). unfold readErrorIfDone. by rewrite Hp. Qed.

Lemma done_step s l o r :
  cs_loop s = LExit → readErrorIfDone s = Some r → step (Ret s) l o →
  stays s (Some l) o ∧ delivered_of l = [] ∧ (∀ ret, l = RecvEnd ret → ret = r).
Proof.
  intros Hl Hr Hst. inversion Hst; subst; try congruence;
    try (split_and!; try done; intros ? [= <-]; congruence).
  - destruct (SendMsg_write_frame werr m s) as (E1&E2&_&E4&_).
    unfold stays. simpl. rewrite E1, E2. by split_and!.
  - destruct (Trailer_ s) eqn:Et; by split_and!.
Qed.

Lemma done_trace s ls o r :
  cs_loop s = LExit → readErrorIfDone s = Some r → trace step (Ret s) ls o →
  delivered ls = [] ∧ (∀ ret, RecvEnd ret ∈ ls → ret = r) ∧ stays s (last ls) o.
Proof.
  intros Hl Hr Htr. revert s Hl Hr Htr. induction ls as [|l ls IH]; intros s Hl Hr Htr;
    inversion Htr as [|? ? o1 ? ? Hst Htr']; subst.
  { split_and!; [done| |done]. intros ret Hin. by apply not_elem_of_nil in Hin. }
  destruct (done_step s l o1 r Hl Hr Hst) as (Hs1 & Hd & Hret). destruct o1 as [s1|msg].
  - pose proof (stays_done _ _ _ Hs1) as Hr1. rewrite Hr in Hr1. destruct Hs1 as (Hl1 & Hp & Hn).
    destruct (IH s1 Hl1 Hr1 Htr') as (Hdel & Hin & Hs). split_and!.
    + unfold delivered in *. by rewrite bind_cons, Hd, Hdel.
    + intros ret [<-|?]%elem_of_cons; [by apply Hret|by apply Hin].
    + unfold stays, Trailer_ in *. rewrite Hp, Hn in Hs.
      destruct o; [done|]. destruct ls; [by destruct Hs|by rewrite last_cons_cons].
  - destruct Hs1 as [[= ->] Ht]. inversion Htr' as [|? ? ? ? ? Hs]; subst; [|inversion Hs].
    split_and!; [done| |done]. intros ret Hin. by apply list_elem_of_singleton in Hin.
Qed.

(** C13: the end of a stream is final: once RecvMsg can return the stream's end
    [r], every later RecvMsg that returns an end returns [r], and no message is
    delivered any more.  (A history may end with the panic of Trailer.) *)
Theorem cstream_end_sticky args ls0 s ls o r :
  trace step (Ret (NewClientStream (Msg:=Msg) (Handler:=Handler) args)) ls0 (Ret s) →
  readErrorIfDone s = Some r → trace step (Ret s) ls o →
  delivered ls = [] ∧ (∀ ret, RecvEnd ret ∈ ls → ret = r) ∧
  match o with Ret s' => readErrorIfDone s' = Some r | Panic _ => last ls = Some AppTrailer end.
Proof.
  intros Htr0 Hr Htr. pose proof (reachable_cs_inv _ _ _ Htr0) as [].
  assert (Hl : cs_loop s = LExit).
  { apply ci_done0. unfold readErrorIfDone in Hr. by destruct (p_done _). }
  destruct (done_trace _ _ _ _ Hl Hr Htr) as (? & ? & Hs). split_and!; [done..|].
  destruct o; [by rewrite (stays_done _ _ _ Hs)|by destruct Hs].
Qed.
End properties.
