(* ===== verification/Streams.v ===== *)
(** * Streams from end to end, and what can go wrong on the client's side

    The server half of a stream (file [ServerStream]) writes a sequence of
    Rpcs; the client half (file [ClientStream]) reads them.  The first theorem
    puts the two together; the others are histories of a client stream in which
    the application is told something else than what happened. *)

From S2P Require Import Prelude GoString Rpc Errors Metadata RequestContext Runtime ServerStream TransportStream Interceptors Server Chan Multiplexer ClientConn ClientStream.

(** ** What a server stream puts on the wire *)
Section server_side.
Context {Msg Handler : Type}.
Context `{Unicode, MetadataPkg, StatusPkg, Codec Msg}.
Implicit Type ss : serverStream Handler.

(** The message of a SendMsg that reaches the wire. *)
Definition op_messages (o : ss_op (Msg:=Msg)) : list Msg :=
  match o with
  | OSendMsg _ None m => match Marshal m with Ok _ => [m] | Err _ => [] end
  | _ => []
  end.
Definition message_body (m : Msg) : list Body :=
  match Marshal m with Ok data => [mkBody (Some (Materialize data))] | Err _ => [] end.
Definition ends (o : ss_op (Msg:=Msg)) : Prop := match o with OSendTrailer _ _ _ => True | _ => False end.

Lemma ss_exec_messages o ss :
  ¬ ends o →
  messages (sent (log_of (ss_exec o ss))) = op_messages o ≫= message_body ∧
  ss_trailersSent (st_of (ss_exec o ss)) = ss_trailersSent ss.
Proof.
  intros Hne. destruct o as [md|ord werr md|md|ord werr m|rd|ord werr e]; unfold ss_exec;
    try match goal with |- context [mbind _ ?m ss] =>
      rewrite (proj1 (forget_st m ss)), (proj2 (forget_st m ss)) end.
  - rewrite run_SetHeader. by destruct (ss_headersSent ss).
  - destruct (run_SendHeader (Msg:=Msg) ord werr md ss) as [Hs Hn].
    destruct (ss_headersSent ss); [by rewrite Hs|]. destruct (Hn eq_refl) as (-> & -> & _).
    by destruct werr.
  - rewrite run_SetTrailer. by destruct (ss_trailersSent ss) eqn:E; unfold st_of; simpl; rewrite ?E.
  - unfold op_messages. destruct (Marshal m) as [body|e] eqn:Em.
    + destruct (run_SendMsg (Handler:=Handler) ord werr m body ss Em) as (-> & -> & _).
      destruct werr; simpl; [done|]. unfold message_body. by rewrite Em.
    + rewrite (run_SendMsg_err _ _ _ e) by done. by destruct werr.
  - by destruct (run_RecvMsg (Msg:=Msg) rd ss) as [-> ->].
  - by destruct Hne.
Qed.

Lemma ss_run_messages os ss :
  Forall (λ o, ¬ ends o) os →
  messages (sent (log_of (ss_run os ss))) = (os ≫= op_messages) ≫= message_body ∧
  ss_trailersSent (st_of (ss_run os ss)) = ss_trailersSent ss.
Proof.
  intros Hf. revert ss. induction Hf as [|o os Ho Hf IH]; intros ss; [done|].
  destruct (ss_exec_messages o ss Ho) as [Hm Ht]. pose proof (ss_exec_ret o ss) as Hret.
  cbn [ss_run]. unfold mbind at 1 4, M_bind. destruct (ss_exec o ss) as [[ss1 l1] r1].
  unfold st_of, log_of, res_of in *. simpl in *. subst r1.
  destruct (IH ss1) as [IHm IHt]. destruct (ss_run os ss1) as [[ss2 l2] r2]. simpl in *.
  split; [|congruence]. rewrite sent_app. unfold messages in *.
  by rewrite bind_app, Hm, IHm, bind_app.
Qed.

Lemma ss_run_app os1 os2 ss :
  sent (log_of (ss_run (os1 ++ os2) ss)) =
  sent (log_of (ss_run os1 ss)) ++ sent (log_of (ss_run os2 (st_of (ss_run os1 ss)))).
Proof.
  revert ss. induction os1 as [|o os1 IH]; intros ss; [done|].
  pose proof (ss_exec_ret o ss) as Hret. cbn [app ss_run]. unfold mbind, M_bind.
  destruct (ss_exec o ss) as [[ss1 l1] r1]. unfold st_of, log_of, res_of in *. simpl in *. subst r1.
  specialize (IH ss1). destruct (ss_run (os1 ++ os2) ss1) as [[??]?], (ss_run os1 ss1) as [[ss2 ?]?].
  simpl in *. rewrite !sent_app, IH. by rewrite app_assoc.
Qed.
(** The last Rpc. *)
Lemma ss_run_trailer ord e ss :
  ss_trailersSent ss = false →
  ∃ hd md, sent (log_of (ss_run [OSendTrailer (Msg:=Msg) ord None e] ss)) =
    [mkRpc (ss_id ss) hd (Some (trailer_status e)) None (Some (mkTrailer md)) None].
Proof.
  intros Ht. destruct (run_SendTrailer (Msg:=Msg) ord None e ss) as [_ Hn].
  destruct (Hn Ht) as (_ & Hlog & _). do 2 eexists. etrans; [|exact Hlog].
  cbn [ss_run ss_exec]. unfold mbind, M_bind, sent, log_of.
  destruct (SendTrailer ord None e ss) as [[ss1 l1] [r|]]; simpl; [|done]. by rewrite !app_nil_r.
Qed.
End server_side.

(** ** Both sides *)
Section both.
Context {Msg Handler CHandler : Type}.
Context `{Unicode, MetadataPkg, StatusPkg, !StatusLaws, Codec Msg, !CodecLaws Msg}.

Lemma messages_unmarshal (ms : list Msg) :
  Forall (λ m, ∃ bs, Marshal m = Ok bs) ms →
  (λ b, Unmarshal [default [] (b_Data b)]) <$> (ms ≫= message_body) = Ok <$> ms.
Proof.
  induction 1 as [|m ms [bs Hm] Hf IH]; [done|]. rewrite bind_cons, fmap_app, IH.
  unfold message_body. rewrite Hm. simpl. by rewrite (Unmarshal_Marshal m bs Hm).
Qed.

Lemma op_messages_marshal (os : list (ss_op (Msg:=Msg))) :
  Forall (λ m, ∃ bs, Marshal m = Ok bs) (os ≫= op_messages).
Proof.
  induction os as [|o os IH]; [by constructor|]. rewrite bind_cons. apply Forall_app.
  split; [|done]. destruct o as [| | |ord [] m| |]; simpl; try by constructor.
  destruct (Marshal m) eqn:E; [|by constructor]. apply Forall_singleton. by eexists.
Qed.

(** The stream's end as RecvMsg should report it: io.EOF, or the status of the
    handler's error, with Internal for a failure that claims to be OK. *)
Definition expected_end (e : option error) : option error :=
  match e with
  | None => Some EOF
  | Some err =>
      let st := (status_FromError err).1 in
      Some (StatusError (if decide (s_Code st = codes_OK)
                         then mkStatus codes_Internal (s_Message st) (s_Details st) else st))
  end.

Lemma errorIfDone_trailer_status id h e md :
  errorIfDone (mkRpc id h (Some (trailer_status e)) None (Some (mkTrailer md)) None) =
    Some (expected_end e).
Proof.
  unfold errorIfDone. simpl. destruct e as [e|]; [|done]. unfold GetCode. simpl.
  case_decide as Hc; simpl; [exfalso; by case_decide|].
  rewrite status_Err_not_OK by done. unfold expected_end.
  case_decide; [done|]. by destruct (status_FromError e).1.
Qed.

(** A client stream that reads what a server wrote: the Rpcs of [pre] and then
    the trailer of a handler that ended with [e]. *)
Lemma client_reads_back args ls (s : cstream Msg CHandler) ret pre id hd e md :
  trace step (Ret (NewClientStream args)) ls (Ret s) →
  reads ls = pre ++ [mkRpc id hd (Some (trailer_status e)) None (Some (mkTrailer md)) None] →
  last ls = Some (RecvEnd ret) → p_trailer (cs_protected s) ≠ None →
  delivered ls = messages pre ∧ ret = expected_end e.
Proof.
  intros Htr Hreads Hlast Htrail.
  pose proof (reachable_cs_inv _ _ _ Htr) as Hinv.
  pose proof (ci_done _ _ Hinv) as Hdone. pose proof (ci_ending _ _ Hinv) as Hend.
  apply last_Some in Hlast as [ls0 ->].
  apply trace_snoc_inv in Htr as ([s0|m] & Htr0 & Hst); [|inversion Hst].
  destruct (RecvEnd_done _ _ _ _ _ Htr0 Hst) as [Hd Hr].
  apply Hdone in Hd. rewrite Hd in Hend. simpl in Hend.
  destruct (Hend _ _ eq_refl) as [_ Hall].
  destruct (Hall Htrail) as (Hdel & rpc & Hl & _ & He).
  rewrite Hreads, last_snoc in Hl. injection Hl as <-.
  rewrite errorIfDone_trailer_status, Hr in He. injection He as <-.
  split; [|done]. by rewrite Hdel, Hreads, messages_snoc, app_nil_r.
Qed.

(** C3: streaming from server to client: let a server stream be used in any way
    (headers, messages, reads, trailers, in any order and with any failures) and
    then be ended by SendTrailer with the handler's error [e].  A client stream
    that reads exactly what was written, in that order, and is ended by the
    server, has its RecvMsg calls return exactly the messages that SendMsg
    accepted, in order, and then io.EOF if the handler succeeded, or the gRPC
    error with the code, message and details of its error - which is never
    mistaken for success. *)
Theorem stream_end_to_end ctx id method src dst shs os ord e args ls
    (s : cstream Msg CHandler) ret :
  Forall (λ o, ¬ ends o) os →
  trace step (Ret (NewClientStream args)) ls (Ret s) →
  reads ls = sent (log_of (ss_run (os ++ [OSendTrailer ord None e])
                     (NewServerStream (Handler:=Handler) ctx id method src dst shs))) →
  last ls = Some (RecvEnd ret) → p_trailer (cs_protected s) ≠ None →
  (λ b, Unmarshal [default [] (b_Data b)]) <$> delivered ls = Ok <$> (os ≫= op_messages) ∧
  ret = expected_end e ∧ (ret = Some EOF ↔ e = None).
Proof.
  intros Hos Htr Hreads Hlast Htrail.
  set (ss := NewServerStream ctx id method src dst shs) in *.
  rewrite ss_run_app in Hreads.
  destruct (ss_run_messages os ss Hos) as [Hm Ht].
  destruct (ss_run_trailer ord e (st_of (ss_run os ss))) as (hd & md & Hout); [by rewrite Ht|].
  rewrite Hout in Hreads.
  destruct (client_reads_back _ _ _ _ _ _ _ _ _ Htr Hreads Hlast Htrail) as [-> ->].
  rewrite Hm. split_and!; [|done|by destruct e].
  apply messages_unmarshal, op_messages_marshal.
Qed.
End both.

(** ** Histories in which the application is told something else *)
Tactic Notation "next" uconstr(rule) :=
  eapply trace_step; [eapply rule; simpl; try reflexivity|].

Section hazards.
Context {Msg Handler : Type}.
Context `{Unicode, MetadataPkg, StatusPkg, !StatusLaws, Codec Msg}.
Abbreviation init args := (Ret (NewClientStream (Msg:=Msg) (Handler:=Handler) args)).

Lemma toStatusError_Canceled :
  ∃ st, toStatusError Canceled = Some (StatusError st) ∧ s_Code st = codes_Canceled.
Proof.
  exists (status_FromContextError Canceled).
  assert (Hc : s_Code (status_FromContextError Canceled) = codes_Canceled)
    by (by apply status_FromContextError_Canceled).
  split; [|done]. unfold toStatusError. simpl. apply status_Err_not_OK. by rewrite Hc.
Qed.

(** The last Rpc of a stream that succeeded. *)
Definition ok_trailer (id : Z) : Rpc :=
  mkRpc id None (Some (mkResponseStatus codes_OK codes_OK_String [])) None
    (Some (mkTrailer None)) None.

(** A stream that the server has ended with success can be reported as
    cancelled: RecvMsg may wait when the read loop handles the trailer, whose
    deferred function cancels the stream's own context before it has recorded
    the end; the select of RecvMsg can then take the context's branch.  No
    context of the application and no transport error is involved. *)
Theorem cstream_end_race args :
  ∃ ls s st, trace step (init args) ls (Ret s) ∧
    reads ls = [ok_trailer (sa_id args)] ∧
    Forall (λ l, (∀ err, l ≠ EnvCtx err) ∧ (∀ err, l ≠ EnvReadErr err)) ls ∧
    last ls = Some (RecvCtx (Some (StatusError st))) ∧ s_Code st = codes_Canceled.
Proof.
  destruct toStatusError_Canceled as (st & Hst & Hc). do 2 eexists. exists st. split_and!; [| | | |done].
  - next step_recv_start. next (step_read _ (ok_trailer (sa_id args))).
    next (step_handle _ (ok_trailer (sa_id args))). next step_defer_lock.
    next (step_defer_teardown _ false (Some (mkTrailer None)) (Some EOF) None).
    next step_recv_ctx. apply trace_refl.
  - done.
  - repeat (apply Forall_cons; split; [done|]). by apply Forall_nil.
  - simpl. by rewrite Hst.
Qed.

(** When the headers of the first response do not decode, the client stream
    ends without an error: every RecvMsg returns nil although no message was
    received, and Header never returns. *)
Theorem cstream_bad_header args rpc e :
  ToMetadata (GetHeaders (rpc_Header rpc)) = Err e →
  ∃ ls s, trace step (init args) ls (Ret s) ∧ reads ls = [rpc] ∧
    step (Ret s) (RecvEnd None) (Ret s) ∧
    ∀ ls' o, trace step (Ret s) ls' o →
      delivered ls' = [] ∧ (∀ ret, RecvEnd ret ∈ ls' → ret = None) ∧
      ∃ s', o = Ret s' ∧ Header s' = None.
Proof.
  intros He.
  assert (Hh : ∀ s : cstream Msg Handler, cs_header s = None →
    loop_handle rpc s = set_loop (LDefer None None) s).
  { intros s Hs. unfold loop_handle, GetHeader. simpl. by rewrite Hs, He. }
  assert (∃ ls s, trace step (init args) ls (Ret s) ∧ reads ls = [rpc] ∧ cs_loop s = LExit ∧
    readErrorIfDone s = Some None ∧ cs_ready s = 0 ∧ cs_recv s = RIdle ∧ p_trailer (cs_protected s) = None) as
    (ls & s & Htr & Hr & Hl & Hd & Hrd & Hrv & Hp).
  { do 2 eexists. split_and!.
    - next (step_read _ rpc). next (step_handle _ rpc). rewrite Hh by done.
      next step_defer_lock. next (step_defer_teardown _ false None None None).
      next (step_defer_finish _ None None 0%Z). apply trace_refl.
    - done.
    - done.
    - done.
    - done.
    - done.
    - done. }
  exists ls, s. split_and!; [done..| |].
  - apply step_recv_done; [done| |done]. unfold unlocked. by rewrite Hl.
  - intros ls' o Htr'. destruct (done_trace s ls' o None Hl Hd Htr') as (Hdel & Hret & Hs). split_and!; [done..|].
    destruct o as [s'|msg]; [|by destruct Hs as [_ Ht]; unfold Trailer_ in Ht; rewrite Hp in Ht].
    exists s'. split; [done|]. destruct Hs as (_ & _ & Hrd'). unfold Header. by rewrite Hrd', Hrd.
Qed.

(** A reset from the server looks like success: the Rpc with which the
    server resets a stream ("tear down and restart the stream") has a trailer
    and no status, and a client stream that reads it returns io.EOF from
    RecvMsg, as after a stream that completed. *)
Theorem server_reset_is_eof args rpc :
  ∃ ls s, trace step (init args) ls (Ret s) ∧ reads ls = [reset_rpc rpc] ∧
    rpc_Reset (reset_rpc rpc) = Some (mkReset RST_STREAM) ∧
    last ls = Some (RecvEnd (Some EOF)).
Proof.
  do 2 eexists. split_and!.
  - next (step_read _ (reset_rpc rpc)). next (step_handle _ (reset_rpc rpc)).
    next step_defer_lock. next (step_defer_teardown _ false (Some (mkTrailer None)) (Some EOF) None).
    next (step_defer_finish _ (Some (mkTrailer None)) (Some EOF) 0%Z).
    next (step_recv_done _ (Some EOF)). apply trace_refl.
  - done.
  - done.
  - done.
Qed.
End hazards.

(** ** A concrete stream

    The server sets a header, sends two messages and succeeds; the client reads
    the three Rpcs and RecvMsg is called three times. *)
Module StreamExample.
Import RuntimeModel.
#[local] Existing Instances codec stats StatusModel.pkg MetadataModel.Join MetadataModel.no_unicode.

Definition ops : list (ss_op (Msg:=Msg)) :=
  [OSetHeader {["k" := ["v"]]}; OSendMsg MetadataModel.order None [Byte.x61];
   OSendMsg MetadataModel.order None [Byte.x62; Byte.x63]].
Definition wire : list Rpc := Eval vm_compute in
  sent (log_of (ss_run (ops ++ [OSendTrailer MetadataModel.order None None])
    (NewServerStream (Handler:=nat) Background 3 "/s/m" "srv" "cli" []))).
Definition args : stream_args (Handler:=nat) := mkStreamArgs Background 3 "/s/m" "cli" "srv" [] 0.
Definition rpc_at (i : nat) : Rpc := default (mkRpc 0 None None None None None) (wire !! i).
Definition body_at (i : nat) : Body := default (mkBody None) (rpc_Body (rpc_at i)).
Definition history : list (label Msg) :=
  [EnvRead (rpc_at 0); LoopHandle; RecvStart; LoopDeliver (body_at 0);
   EnvRead (rpc_at 1); LoopHandle; RecvStart; LoopDeliver (body_at 1);
   EnvRead (rpc_at 2); LoopHandle; DeferLock; DeferTeardown None; DeferFinish 0;
   RecvEnd (Some EOF)].
Definition final_state : cstream Msg nat :=
  mkCs args (Some Canceled) (Some {["k" := ["v"]]}) 1 true
    (mkProt true None (Some EOF) (Some (mkTrailer (Some [])))) LExit RIdle SIdle [].
Lemma history_trace :
  trace step (Ret (NewClientStream (Msg:=Msg) args)) history (Ret final_state).
Proof. apply cs_exec_run_trace. by vm_compute. Qed.
End StreamExample.

Section witnesses.
Import RuntimeModel StreamExample.
#[local] Existing Instances codec stats StatusModel.pkg MetadataModel.Join MetadataModel.no_unicode.
#[local] Existing Instances StatusModel.StatusModel_laws RuntimeModel_laws.

Lemma stream_end_to_end_witness :
  (λ b, Unmarshal (Msg:=Msg) [default [] (b_Data b)]) <$> delivered history =
    Ok <$> ([[Byte.x61]; [Byte.x62; Byte.x63]] : list Msg) ∧
  Some EOF = expected_end None ∧ (Some EOF = Some EOF ↔ @None error = None).
Proof.
  destruct (stream_end_to_end (Handler:=nat) Background 3 "/s/m" "srv" "cli" [] ops
    MetadataModel.order None args history final_state (Some EOF)) as (Hd & Hr & Hok).
  - unfold ops. repeat (apply Forall_cons; split; [by intros []|]). by apply Forall_nil.
  - apply history_trace.
  - reflexivity.
  - reflexivity.
  - discriminate.
  - split_and!; [|exact Hr|exact Hok]. rewrite Hd. reflexivity.
Defined.

Lemma cstream_safe_witness :
  cs_ready final_state ≤ 1 ∧ length (resets (cs_log final_state)) ≤ 1 ∧ resets (cs_log final_state) = [].
Proof.
  destruct (cstream_safe args history (Ret final_state) history_trace) as (Hr & _ & _ & Hl & Hn).
  split; [exact Hr|]. split; [exact Hl|]. apply Hn; [reflexivity|discriminate].
Defined.

Lemma cstream_delivery_witness :
  delivered history `prefix_of` messages (reads history) ∧
  delivered history = messages (reads history).
Proof.
  destruct (cstream_delivery args history final_state history_trace) as [Hp Hend].
  split; [exact Hp|]. destruct (Hend (Some EOF) eq_refl) as [_ Htr].
  destruct Htr as [Hd _]; [discriminate|exact Hd].
Defined.

Lemma cstream_end_sticky_witness :
  delivered [RecvEnd (Msg:=Msg) (Some EOF)] = [] ∧
  (∀ ret, RecvEnd ret ∈ [RecvEnd (Msg:=Msg) (Some EOF)] → ret = Some EOF) ∧
  readErrorIfDone final_state = Some (Some EOF).
Proof.
  apply (cstream_end_sticky args history final_state [RecvEnd (Some EOF)] (Ret final_state)
    (Some EOF) history_trace); [reflexivity|].
  apply cs_exec_run_trace. reflexivity.
Defined.

Lemma cstream_end_race_witness :
  ∃ ls (s : cstream Msg nat) st, trace step (Ret (NewClientStream args)) ls (Ret s) ∧
    reads ls = [ok_trailer 3] ∧
    Forall (λ l, (∀ err, l ≠ EnvCtx err) ∧ (∀ err, l ≠ EnvReadErr err)) ls ∧
    last ls = Some (RecvCtx (Some (StatusError st))) ∧ s_Code st = codes_Canceled.
Proof. exact (cstream_end_race args). Defined.

Lemma cstream_bad_header_witness :
  ∃ ls (s : cstream Msg nat), trace step (Ret (NewClientStream args)) ls (Ret s) ∧
    step (Ret s) (RecvEnd None) (Ret s) ∧ Header s = None.
Proof.
  destruct (cstream_bad_header (Msg:=Msg) args
    (mkRpc 3 (Some (header_lit "/s/m" [mkKeyValue "x-bin" "!"] "srv" "cli")) None
       (Some (mkBody (Some [Byte.x61]))) None None) (Errorf "illegal base64 data"))
    as (ls & s & Htr & _ & Hend & Hall); [vm_compute; reflexivity|].
  exists ls, s. split_and!; [exact Htr|exact Hend|].
  destruct (Hall [] (Ret s) (trace_refl _ _)) as (_ & _ & s' & Hs & Hh).
  by injection Hs as <-.
Defined.
End witnesses.
