(* ===== verification/Proxy.v ===== *)
(** * proxy.go: where an Rpc is forwarded to

    [forwardRpc] up to its lookup of the destination: the check of the source,
    the address translation, the record of the proxies passed and the route of a
    reply.  The goroutines of a proxy are in file [ProxyLoop]. *)

From S2P Require Import Prelude GoString Rpc Errors Metadata RequestContext Runtime TransportStream Interceptors Server.

(** An RpcIntercepter: the header as it leaves it, and its error. *)
Definition RpcIntercepter : Type := RequestHeader → RequestHeader * option error.

Definition set_route (ProxyRecord : list string) (ProxyNext : option (list string))
    (h : RequestHeader) : RequestHeader :=
  mkRequestHeader (h_Method h) (h_Headers h) (h_Source h) (h_Destination h) ProxyRecord ProxyNext.
Definition set_header (h : RequestHeader) (rpc : Rpc) : Rpc :=
  mkRpc (rpc_Id rpc) (Some h) (rpc_Status rpc) (rpc_Body rpc) (rpc_Trailer rpc) (rpc_Reset rpc).

(** The proxy [id] is recorded, and the route to follow, if there is one, gives
    the next hop: its last entry, which is removed.  Indexing an empty slice
    panics. *)
Definition next_hop (id : string) (h : RequestHeader) : outcome (string * RequestHeader) :=
  let record := h_ProxyRecord h ++ [id] in
  match h_ProxyNext h with
  | None => Ret (h_Destination h, set_route record None h)
  | Some route =>
      match last route with
      | None => Panic "runtime error: index out of range [-1]"
      | Some hop => Ret (hop, set_route record (Some (take (length route - 1) route)) h)
      end
  end.

(** [forwardRpc] of the proxy [id] for an Rpc that came from the client
    [source]: the client it goes to and the Rpc as it is passed on, or nothing
    when the interceptor refuses it. *)
Definition forwardRpc (id : string) (rpcIntercepter : option RpcIntercepter) (source : string)
    (rpc : Rpc) : outcome (option (string * Rpc)) :=
  match rpc_Header rpc with
  | None => Panic "TODO: handle invalid RPC here (log and ignore?)"
  | Some h =>
      if decide (h_Source h ≠ source) then Panic "TODO: handle invalid RPC here (log and ignore?)"
      else
        match (match rpcIntercepter with Some f => f h | None => (h, None) end) with
        | (_, Some _) => Ret None
        | (h, None) => '(hop, h) ← next_hop id h; Ret (Some (hop, set_header h rpc))
        end
  end.

(** ** Routes *)
Section route.
(** What a transport makes of a header on its way to the next process. *)
Variable transmit : RequestHeader → RequestHeader.
Definition transmitted (rpc : Rpc) : Rpc :=
  match rpc_Header rpc with Some h => set_header (transmit h) rpc | None => rpc end.

(** The Rpc passes proxies without interceptor, one after the other.  Each is
    given with the id under which it knows the client that the Rpc comes from: the
    process before it.  The result are the hops that the proxies choose, and the
    Rpc that the last one sends. *)
Fixpoint pass (proxies : list (string * string)) (rpc : Rpc) : outcome (list string * Rpc) :=
  match proxies with
  | [] => Ret ([], rpc)
  | (id, source) :: proxies =>
      fwd ← forwardRpc id None source rpc;
      match fwd with
      | None => Ret ([], rpc)
      | Some (hop, rpc) =>
          '(hops, rpc) ← pass proxies (transmitted rpc);
          Ret (hop :: hops, rpc)
      end
  end.
End route.

(** protobuf's encoding of a message has no nil and no empty slice: an empty
    [ProxyNext] is received as nil, and everything else as it was. *)
Class WireLaws (transmit : RequestHeader → RequestHeader) : Prop := {
  transmit_addresses h :
    h_Source (transmit h) = h_Source h ∧ h_Destination (transmit h) = h_Destination h ∧
    h_ProxyRecord (transmit h) = h_ProxyRecord h;
  transmit_next h :
    h_ProxyNext (transmit h) = match h_ProxyNext h with Some [] => None | l => l end }.

(** Without an interceptor, forwardRpc checks the source and chooses the hop. *)
Lemma forwardRpc_plain id source rpc h :
  rpc_Header rpc = Some h →
  forwardRpc id None source rpc =
    if decide (h_Source h ≠ source) then Panic "TODO: handle invalid RPC here (log and ignore?)"
    else '(hop, h) ← next_hop id h; Ret (Some (hop, set_header h rpc)).
Proof. intros Hh. unfold forwardRpc. by rewrite Hh. Qed.

Lemma next_hop_source id h hop h' : next_hop id h = Ret (hop, h') → h_Source h' = h_Source h.
Proof.
  unfold next_hop. destruct (h_ProxyNext h) as [route|]; [destruct (last route); [|done]|];
    by intros [= <- <-].
Qed.

(** Every proxy knows the process before it under the name that the Rpc gives as
    its source. *)
Definition known_as (source : string) (proxies : list (string * string)) : Prop :=
  Forall (λ x, x.2 = source) proxies.

Section routing.
Context {transmit : RequestHeader → RequestHeader} `{WireLaws transmit}.
Abbreviation pass := (pass transmit).

(** One proxy, and the rest of the way. *)
Lemma pass_cons id source proxies rpc h hop h' :
  rpc_Header rpc = Some h → h_Source h = source → next_hop id h = Ret (hop, h') →
  pass ((id, source) :: proxies) rpc =
    '(hops, rpc') ← pass proxies (set_header (transmit h') rpc); Ret (hop :: hops, rpc').
Proof.
  intros Hh Hs Hn. cbn [Proxy.pass]. rewrite (forwardRpc_plain _ _ _ h Hh), decide_False, Hn by tauto.
  done.
Qed.
Lemma pass_unknown id source proxies rpc h :
  rpc_Header rpc = Some h → h_Source h ≠ source → is_panic (pass ((id, source) :: proxies) rpc) = true.
Proof.
  intros Hh Hs. cbn [Proxy.pass]. by rewrite (forwardRpc_plain _ _ _ h Hh), decide_True.
Qed.

Lemma pass_request proxies rpc h :
  rpc_Header rpc = Some h → h_ProxyNext h = None →
  (known_as (h_Source h) proxies →
   ∃ rpc' h', pass proxies rpc = Ret (replicate (length proxies) (h_Destination h), rpc') ∧
    rpc_Header rpc' = Some h' ∧ h_ProxyRecord h' = h_ProxyRecord h ++ proxies.*1 ∧
    h_Source h' = h_Source h ∧ h_Destination h' = h_Destination h) ∧
  (¬ known_as (h_Source h) proxies → is_panic (pass proxies rpc) = true).
Proof.
  revert rpc h. induction proxies as [|[id source] proxies IH]; intros rpc h Hh Hn.
  { split; [|intros Hk; destruct Hk; constructor]. intros _. exists rpc, h. by rewrite app_nil_r. }
  set (h1 := set_route (h_ProxyRecord h ++ [id]) None h).
  destruct (transmit_addresses h1) as (Hs & Hd & Hr).
  assert (Hhop : next_hop id h = Ret (h_Destination h, h1)) by (unfold next_hop; by rewrite Hn).
  destruct (IH (set_header (transmit h1) rpc) (transmit h1)) as [IHy IHn]; [done|by rewrite transmit_next|].
  rewrite Hs, Hd, Hr in *. simpl in IHy, IHn.
  destruct (decide (h_Source h = source)) as [Heq|Hne].
  - rewrite (pass_cons id source proxies rpc h _ h1) by done. unfold known_as. rewrite Forall_cons. simpl. split.
    + intros [_ Hk]. destruct (IHy Hk) as (rpc' & h' & -> & Hh' & Hr' & Hs' & Hd'). exists rpc', h'.
      split_and!; try done. by rewrite Hr', <-app_assoc.
    + intros Hk. assert (Hp : ¬ known_as (h_Source h) proxies) by (intros ?; by apply Hk).
      by destruct (pass proxies _) as [[]|]; [by specialize (IHn Hp)|].
  - split; [|intros _; by eapply pass_unknown]. intros [? _]%Forall_cons. by destruct Hne.
Qed.

(** A reply follows its route backwards and then goes to its destination. *)
Lemma pass_route proxies route rpc h :
  rpc_Header rpc = Some h →
  h_ProxyNext h = (match route with [] => None | _ => Some route end) →
  length proxies = S (length route) →
  (known_as (h_Source h) proxies → ∃ rpc', pass proxies rpc = Ret (rev route ++ [h_Destination h], rpc')) ∧
  (¬ known_as (h_Source h) proxies → is_panic (pass proxies rpc) = true).
Proof.
  revert proxies rpc h. induction route as [|hop route IH] using rev_ind;
    intros [|[id source] proxies] rpc h Hh Hn Hlen; try done.
  all: destruct (decide (h_Source h = source)) as [Heq|Hne];
    [|split; [by intros [? _]%Forall_cons|intros _; by eapply pass_unknown]].
  - destruct proxies; [|done]. simpl in Hn.
    rewrite (pass_cons id source [] rpc h (h_Destination h) (set_route (h_ProxyRecord h ++ [id]) None h))
      by (done || unfold next_hop; by rewrite Hn).
    split; [by eexists|]. intros Hk. destruct Hk. by repeat constructor.
  - rewrite length_app in Hlen. simpl in Hlen.
    assert (Hroute : h_ProxyNext h = Some (route ++ [hop])) by (rewrite Hn; by destruct route).
    set (h1 := set_route (h_ProxyRecord h ++ [id]) (Some route) h).
    assert (Hhop : next_hop id h = Ret (hop, h1)).
    { unfold next_hop. by rewrite Hroute, last_snoc, length_app, Nat.add_sub, take_app_length. }
    rewrite (pass_cons id source proxies rpc h _ h1) by done.
    destruct (transmit_addresses h1) as (Hs & Hd & _).
    destruct (IH proxies (set_header (transmit h1) rpc) (transmit h1)) as [IHy IHn];
      [done|rewrite transmit_next; by destruct route|lia|].
    rewrite Hs, Hd in *. simpl in IHy, IHn. unfold known_as. rewrite Forall_cons. simpl. split.
    + intros [_ Hk]. destruct (IHy Hk) as [rpc' ->]. exists rpc'. simpl. by rewrite rev_app_distr.
    + intros Hk. assert (Hp : ¬ known_as (h_Source h) proxies) by (intros ?; by apply Hk).
      by destruct (pass proxies _) as [[]|]; [by specialize (IHn Hp)|].
Qed.

Context {Msg : Type} `{Unicode, MetadataPkg, StatusPkg, Codec Msg}.

(** What a server answers with the route of the request: the response to a unary
    call, and the reset of a stream that it cannot start.  What the handler of a
    stream sends carries no route. *)
Definition reply_to (rpc reply : Rpc) : Prop :=
  (∃ ord h method sts (resp : option Msg) appErr, rpc_Header rpc = Some h ∧
     reply = unary_response ord (rpc_Id rpc) h method sts resp appErr) ∨
  reply = reset_rpc rpc.

Lemma reply_to_header rpc h reply :
  rpc_Header rpc = Some h → reply_to rpc reply →
  ∃ h', rpc_Header reply = Some h' ∧ h_Source h' = h_Destination h ∧ h_Destination h' = h_Source h ∧
    h_ProxyNext h' = reply_path (h_ProxyRecord h).
Proof.
  intros Hh [(ord & h0 & method & sts & resp & appErr & Hh0 & ->)| ->].
  - rewrite Hh in Hh0. injection Hh0 as <-. by eexists.
  - unfold reset_rpc. simpl. rewrite Hh. by eexists.
Qed.

(** C30: proxies bring a unary response back on the path of its request.  A request
    passes the proxies, without interceptors, if and only if each of them knows the
    process before it under the name that is the request's source: each sends it
    to its destination, where it arrives with their ids as its record; otherwise one
    of them panics.  A unary response to it, or a reset, then passes the same
    proxies in the reverse order, if and only if each of them knows the process it
    comes from under the name that is its source, the destination of the request:
    each proxy sends it to the one that the request came through before, and the
    first to the request's source.  (One proxy between a client and a server that
    it knows by their names is the case in use.) *)
Theorem proxy_route_roundtrip proxies back rpc h reply :
  rpc_Header rpc = Some h → h_ProxyRecord h = [] → h_ProxyNext h = None →
  back.*1 = rev (proxies.*1) → proxies ≠ [] →
  (¬ known_as (h_Source h) proxies → is_panic (pass proxies rpc) = true) ∧
  (known_as (h_Source h) proxies →
   ∃ rpc1 h1, pass proxies rpc = Ret (replicate (length proxies) (h_Destination h), rpc1) ∧
    rpc_Header rpc1 = Some h1 ∧ h_ProxyRecord h1 = proxies.*1 ∧
    (reply_to (transmitted transmit rpc1) reply →
      (known_as (h_Destination h) back → ∃ rpc2,
         pass back reply = Ret (tail (rev (proxies.*1)) ++ [h_Source h], rpc2)) ∧
      (¬ known_as (h_Destination h) back → is_panic (pass back reply) = true))).
Proof.
  intros Hh Hr Hn Hback Hne. destruct (pass_request proxies rpc h Hh Hn) as [Hyes Hno]. split; [done|].
  intros Hk. destruct (Hyes Hk) as (rpc1 & h1 & Hp & Hh1 & Hr1 & Hs1 & Hd1). rewrite Hr in Hr1.
  exists rpc1, h1. split_and!; [done..|]. intros Hreply.
  destruct (transmit_addresses h1) as (Hs & Hd & Hrec).
  destruct (reply_to_header (transmitted transmit rpc1) (transmit h1) reply) as (h2 & Hh2 & Hs2 & Hd2 & Hn2);
    [unfold transmitted; by rewrite Hh1|done|].
  set (ids := proxies.*1) in *. simpl in Hr1.
  destruct (rev ids) as [|last_id route] eqn:Hrev.
  { destruct Hne. apply (fmap_nil_inv fst). fold ids. by rewrite <-(rev_involutive ids), Hrev. }
  assert (Hids : ids = rev route ++ [last_id]) by (by rewrite <-(rev_involutive ids), Hrev).
  destruct (pass_route back (rev route) reply h2 Hh2) as [Hy2 Hn2'].
  - rewrite Hn2, Hrec, Hr1, Hids. unfold reply_path. rewrite length_app, Nat.add_sub, take_app_length. simpl.
    case_decide; destruct (rev route); simpl in *; done || lia.
  - rewrite <-(length_fmap fst), Hback, length_rev. done.
  - rewrite Hs2, Hd, Hd1 in Hy2, Hn2'. rewrite Hd2, Hs, Hs1, rev_involutive in Hy2. done.
Qed.
End routing.

(** ** forwardRpc on every branch *)
Section forwarding.
Variable (id : string) (rpcIntercepter : option RpcIntercepter) (source : string).

(** The header after the address translation. *)
Definition translated (h : RequestHeader) : RequestHeader * option error :=
  match rpcIntercepter with Some f => f h | None => (h, None) end.

Definition valid_from (rpc : Rpc) (h : RequestHeader) : Prop :=
  rpc_Header rpc = Some h ∧ h_Source h = source.

(** [forwardRpc] panics for an Rpc without a header or with another source
    than the client it came from, and for an Rpc with an empty, non-nil
    [ProxyNext]; it drops an Rpc that the interceptor refuses; otherwise it
    forwards the Rpc, changed only in its header: to the last entry of
    [ProxyNext], which is removed, or else to the destination that the
    interceptor left, with the proxy's id appended to [ProxyRecord]. *)
Theorem forwardRpc_spec rpc :
  ((∀ h, ¬ valid_from rpc h) → is_panic (forwardRpc id rpcIntercepter source rpc) = true) ∧
  (∀ h, valid_from rpc h →
     let '(h', err) := translated h in
     match err, h_ProxyNext h' with
     | Some _, _ => forwardRpc id rpcIntercepter source rpc = Ret None
     | None, Some [] => is_panic (forwardRpc id rpcIntercepter source rpc) = true
     | None, route => ∃ hop h2,
         forwardRpc id rpcIntercepter source rpc = Ret (Some (hop, set_header h2 rpc)) ∧
         h_ProxyRecord h2 = h_ProxyRecord h' ++ [id] ∧
         h_Source h2 = h_Source h' ∧ h_Destination h2 = h_Destination h' ∧
         h_Method h2 = h_Method h' ∧ h_Headers h2 = h_Headers h' ∧
         match route with
         | None => hop = h_Destination h' ∧ h_ProxyNext h2 = None
         | Some route => ∃ route', route = route' ++ [hop] ∧ h_ProxyNext h2 = Some route'
         end
     end).
Proof.
  unfold forwardRpc, valid_from. split.
  - intros Hno. destruct (rpc_Header rpc) as [h|]; [|done]. case_decide as Hd; [done|].
    destruct (Hno h). split; [done|]. destruct (decide (h_Source h = source)); [done|by destruct Hd].
  - intros h [-> Hs]. rewrite decide_False by tauto. fold (translated h).
    destruct (translated h) as [h' [err|]]; [done|]. unfold next_hop.
    destruct (h_ProxyNext h') as [route|]; simpl; [|by do 2 eexists; split_and!].
    destruct route as [|hop route] using rev_ind; [done|clear IHroute].
    rewrite last_snoc, length_app, Nat.add_sub, take_app_length.
    destruct (route ++ [hop]) eqn:E; [by destruct route|]. rewrite <-E. simpl.
    do 2 eexists. split_and!; try done. by eexists.
Qed.
End forwarding.

(** ** Chains of proxies *)

(** Two ways in which a chain of proxies crashes.  The second proxy panics on
    every Rpc that the first one forwards for a client, unless an interceptor
    rewrites the source or the first proxy is known to the second under the
    client's name.  And between proxies that pass the Rpcs on in memory, where an
    empty slice stays an empty slice, an Rpc panics that has a route and more
    proxies to pass than its route has entries: so does the reply to a request
    that passed two or more proxies, on its way back. *)
Theorem proxy_chain_panics id1 id2 client link rpc hop rpc' :
  forwardRpc id1 None client rpc = Ret (Some (hop, rpc')) → link ≠ client →
  is_panic (forwardRpc id2 None link rpc') = true ∧
  ∀ reply h route proxies, rpc_Header reply = Some h → h_ProxyNext h = Some route →
    length route < length proxies → is_panic (pass (λ h, h) proxies reply) = true.
Proof.
  intros Hf Hlink. split.
  - unfold forwardRpc in *. destruct (rpc_Header rpc) as [h0|] eqn:E; [|done].
    destruct (decide (h_Source h0 = client)) as [Hs|Hs]; [|by rewrite decide_True in Hf].
    rewrite decide_False in Hf by tauto. destruct (next_hop id1 h0) as [[hop' h']|] eqn:Hn; [|done].
    injection Hf as <- <-. apply next_hop_source in Hn. simpl. rewrite decide_True by congruence. done.
  - clear. intros reply h route proxies. revert reply h route.
    induction proxies as [|[id source] proxies IH]; intros reply h route Hh Hn Hlen; simpl in *; [lia|].
    rewrite (forwardRpc_plain _ _ _ h Hh). case_decide; [done|].
    unfold next_hop. rewrite Hn. destruct (last route) as [hop|] eqn:E; [|done]. simpl.
    assert (0 < length route) by (destruct route; [done|simpl; lia]).
    match goal with |- context [pass _ _ ?r] => pose proof (λ h', IH r h' (take (length route - 1) route)) as Hi end.
    specialize (Hi _ eq_refl eq_refl). rewrite length_take in Hi.
    destruct (pass _ _ _) as [[]|]; [|done]. apply Hi. lia.
Qed.

Section witnesses.
Import RuntimeModel.
#[local] Existing Instances codec StatusModel.pkg MetadataModel.Join MetadataModel.no_unicode.
Definition wire_header (h : RequestHeader) : RequestHeader :=
  set_route (h_ProxyRecord h) (match h_ProxyNext h with Some [] => None | l => l end) h.
#[local] Instance wire_header_laws : WireLaws wire_header.
Proof. by split. Qed.
Definition call_header : RequestHeader := mkRequestHeader "/pkg.Svc/Echo" [] "cli" "srv" [] None.
Definition call_rpc : Rpc := mkRpc 1 (Some call_header) None None None None.
(** What the server gets through the proxies p1, p2 and p3, and its response. *)
Definition arrived_header : RequestHeader := set_route ["p1"; "p2"; "p3"] None call_header.
Definition call_reply : Rpc :=
  unary_response (Msg:=Msg) MetadataModel.order 1 arrived_header "/pkg.Svc/Echo" (USTS.NewUnaryServerTransportStream "/pkg.Svc/Echo") None None.

Lemma proxy_route_roundtrip_witness :
  ∃ rpc1, pass wire_header [("p1", "cli"); ("p2", "cli"); ("p3", "cli")] call_rpc =
      Ret (["srv"; "srv"; "srv"], rpc1) ∧
    ∃ rpc2, pass wire_header [("p3", "srv"); ("p2", "srv"); ("p1", "srv")] call_reply =
      Ret (["p2"; "p1"; "cli"], rpc2).
Proof.
  destruct (proxy_route_roundtrip (transmit:=wire_header) (Msg:=Msg) [("p1", "cli"); ("p2", "cli"); ("p3", "cli")]
    [("p3", "srv"); ("p2", "srv"); ("p1", "srv")] call_rpc call_header call_reply
    eq_refl eq_refl eq_refl eq_refl ltac:(discriminate)) as [_ Hyes].
  destruct Hyes as (rpc1 & h1 & Hp & _ & _ & Hback); [by repeat constructor|].
  exists rpc1. split; [exact Hp|]. apply Hback; [|by repeat constructor].
  vm_compute in Hp. injection Hp as <-. left. by do 6 eexists.
Defined.

Lemma proxy_chain_panics_witness :
  is_panic (forwardRpc "p2" None "p1" (set_header (set_route ["p1"] None call_header) call_rpc)) = true ∧
  is_panic (pass (λ h, h) [("p3", "srv"); ("p2", "srv"); ("p1", "srv")] call_reply) = true.
Proof.
  destruct (proxy_chain_panics "p1" "p2" "cli" "p1" call_rpc "srv"
    (set_header (set_route ["p1"] None call_header) call_rpc) eq_refl ltac:(discriminate)) as [H1 H2].
  split; [exact H1|]. eapply H2; [reflexivity|reflexivity|simpl; lia].
Defined.
End witnesses.
