(* ===== verification/ProxyLoop.v ===== *)
(** * proxy.go: the goroutines of a proxy

    A proxy runs [serveClients] and, per client, a read loop and a write loop in
    one errgroup, after a [connect] goroutine for the clients it dials itself.
    [commands] is unbuffered: a send on it is a joint step with serveClients,
    which then handles the command without blocking.  [fromServer] holds up to 16
    Rpcs; an Rpc for a full channel is dropped.

    Clients are numbered in the order in which
    they are created; the map [p_ids] names the current client of an id. *)

From S2P Require Import Prelude GoString Rpc Errors Metadata RequestContext Runtime TransportStream Interceptors Server Proxy.

Definition clientBufferSize : nat := 16.

(** ** State *)
Inductive connect_pc :=
  | KDialing | KFailed (err : error) | KGone | KOpen
  | KNil.   (* connected with a nil connection *)
Inductive read_pc :=
  | RdOff | RdRead | RdSend (rpc : Rpc) | RdErr (err : error) | RdExit
  | RdNil.  (* Read returned neither an Rpc nor an error *)
Inductive write_pc := WrOff | WrWait | WrWriting (rpc : Rpc) | WrErr (err : error) | WrExit.

Record proxyClient := mkClient {
  k_id : string;
  k_fromServer : list Rpc;
  k_connect : connect_pc;   (* connect, for an outgoing connection *)
  k_read : read_pc;         (* readLoop *)
  k_write : write_pc;       (* writeLoop *)
  k_group : bool }.         (* one loop has returned: the errgroup's context is done *)

(** A command, and (only to state properties) the client that sent it. *)
Inductive command :=
  | CmdRpc (c : nat) (id : string) (rpc : Rpc)
  | CmdErr (c : nat) (id : string) (err : error)
  | CmdNil (c : nat) (id : string).      (* neither an Rpc nor an error *)

Inductive serve_pc :=
  | PWait                                (* in the select *)
  | PHandle (cmd : command)
  | PCallback (id : string) (err : error) (* in clientDisconnect *)
  | PExit.

Record proxy := mkProxy {
  p_ctx : bool;                          (* ctx is done *)
  p_ids : gmap string nat;               (* p.clients *)
  p_clients : list proxyClient;          (* every client so far *)
  p_serve : serve_pc }.

(** The parameters of NewProxy. *)
Record proxy_config := mkProxyConfig {
  px_id : string;
  px_newConnection : bool;               (* whether it is set *)
  px_rpcIntercepter : bool;
  px_clientDisconnect : bool }.

Definition NewProxy : proxy := mkProxy false ∅ [] PWait.

(** ** Operations *)
Definition set_serve (p : serve_pc) (s : proxy) : proxy :=
  mkProxy (p_ctx s) (p_ids s) (p_clients s) p.
Definition set_client (c : nat) (k : proxyClient) (s : proxy) : proxy :=
  mkProxy (p_ctx s) (p_ids s) (<[c := k]> (p_clients s)) (p_serve s).
Definition register (k : proxyClient) (s : proxy) : proxy :=
  mkProxy (p_ctx s) (<[k_id k := length (p_clients s)]> (p_ids s)) (p_clients s ++ [k]) (p_serve s).

Definition set_read (p : read_pc) (k : proxyClient) : proxyClient :=
  mkClient (k_id k) (k_fromServer k) (k_connect k) p (k_write k) (k_group k).
Definition set_write (p : write_pc) (k : proxyClient) : proxyClient :=
  mkClient (k_id k) (k_fromServer k) (k_connect k) (k_read k) p (k_group k).
Definition set_connect (p : connect_pc) (k : proxyClient) : proxyClient :=
  mkClient (k_id k) (k_fromServer k) p (k_read k) (k_write k) (k_group k).
Definition set_buf (l : list Rpc) (k : proxyClient) : proxyClient :=
  mkClient (k_id k) l (k_connect k) (k_read k) (k_write k) (k_group k).
Definition group_done (k : proxyClient) : proxyClient :=
  mkClient (k_id k) (k_fromServer k) (k_connect k) (k_read k) (k_write k) true.

(** [AddClient] of a connected client; [readWrite] starts both loops. *)
Definition readWrite (k : proxyClient) : proxyClient := set_read RdRead (set_write WrWait k).
Definition AddClient (id : string) (s : proxy) : proxy :=
  register (readWrite (mkClient id [] KOpen RdOff WrOff false)) s.
Definition addOutgoingConnectionLocked (id : string) (s : proxy) : proxy :=
  register (mkClient id [] KDialing RdOff WrOff false) s.

(** The client an Rpc for [id] goes to, dialled if there is none. *)
Definition client_for (id : string) (s : proxy) : nat * proxy :=
  match p_ids s !! id with
  | Some c => (c, s)
  | None => (length (p_clients s), addOutgoingConnectionLocked id s)
  end.

(** The non-blocking send to [client.fromServer]. *)
Definition enqueue (rpc : Rpc) (k : proxyClient) : option proxyClient :=
  if decide (length (k_fromServer k) < clientBufferSize)
  then Some (set_buf (k_fromServer k ++ [rpc]) k) else None.

(** The rest of [forwardRpc]: the new state and the client that got the Rpc. *)
Definition deliver (hop : string) (rpc : Rpc) (s : proxy) : proxy * option nat :=
  let '(c, s) := client_for hop s in
  match p_clients s !! c ≫= enqueue rpc with
  | Some k => (set_client c k s, Some c)
  | None => (s, None)
  end.

(** serveClients handles a command; [f] is what the interceptor does. *)
Definition handle (cfg : proxy_config) (f : RpcIntercepter) (cmd : command) (s : proxy)
    : outcome (proxy * option (nat * Rpc)) :=
  match cmd with
  | CmdRpc _ id rpc =>
      fwd ← forwardRpc (px_id cfg) (if px_rpcIntercepter cfg then Some f else None) id rpc;
      match fwd with
      | None => Ret (set_serve PWait s, None)
      | Some (hop, rpc') =>
          let '(s', to) := deliver hop rpc' (set_serve PWait s) in
          Ret (s', (λ c, (c, rpc')) <$> to)
      end
  | CmdErr _ id err =>
      let s := mkProxy (p_ctx s) (delete id (p_ids s)) (p_clients s) (p_serve s) in
      Ret (set_serve (if px_clientDisconnect cfg then PCallback id err else PWait) s, None)
  | CmdNil _ _ => Ret (set_serve PWait s, None)
  end.

(** ** Steps *)
Inductive label :=
  | EnvAdd (id : string)                       (* AddClient *)
  | EnvCtx                                     (* the proxy's context is done *)
  | EnvDialed (c : nat) (werr : option error)  (* newConnection returns *)
  | EnvDialedNil (c : nat)                     (* ... neither a connection nor an error *)
  | DialNil (c : nat)                          (* connect without newConnection *)
  | NilConn (c : nat)                          (* the loops use a nil connection *)
  | EnvRead (c : nat) (rpc : Rpc)              (* conn.Read returns *)
  | EnvReadNil (c : nat)                       (* ... neither an Rpc nor an error *)
  | EnvReadErr (c : nat) (err : error)
  | EnvWritten (c : nat) (werr : option error) (* conn.Write returns *)
  | EnvCallback                                (* clientDisconnect returns *)
  | SendConnect (c : nat)                      (* commands: from connect *)
  | SendRead (c : nat)                         (* from readLoop *)
  | SendWrite (c : nat)                        (* from writeLoop *)
  | ReadCtx (c : nat)                          (* the select of readLoop sees its context *)
  | WriteTake (c : nat) (rpc : Rpc)            (* writeLoop takes an Rpc *)
  | WriteCtx (c : nat)
  | Serve (f : RpcIntercepter) (cmd : command) (to : option (nat * Rpc))
  | ServeCtx.

Section steps.
Variable cfg : proxy_config.

(** The context of the loops of a client: the proxy's or the errgroup's. *)
Definition ctx_done (s : proxy) (k : proxyClient) : Prop := p_ctx s = true ∨ k_group k = true.

Inductive step : outcome proxy → label → outcome proxy → Prop :=
  | step_add s id : step (Ret s) (EnvAdd id) (Ret (AddClient id s))
  | step_env_ctx s :
      step (Ret s) EnvCtx (Ret (mkProxy true (p_ids s) (p_clients s) (p_serve s)))
  (* connect *)
  | step_dialed s c k werr :
      px_newConnection cfg = true → p_clients s !! c = Some k → k_connect k = KDialing →
      step (Ret s) (EnvDialed c werr)
        (Ret (set_client c (match werr with
                            | Some err => set_connect (KFailed err) k
                            | None => readWrite (set_connect KOpen k)
                            end) s))
  | step_dialed_nil s c k :
      px_newConnection cfg = true → p_clients s !! c = Some k → k_connect k = KDialing →
      step (Ret s) (EnvDialedNil c) (Ret (set_client c (set_connect KNil k) s))
  | step_dial_nil s c k :
      px_newConnection cfg = false → p_clients s !! c = Some k → k_connect k = KDialing →
      step (Ret s) (DialNil c) (Panic "nil pointer dereference")
  | step_nil_conn s c k :
      p_clients s !! c = Some k → k_connect k = KNil →
      step (Ret s) (NilConn c) (Panic "nil pointer dereference")
  | step_send_connect s c k err :
      p_clients s !! c = Some k → k_connect k = KFailed err → p_serve s = PWait →
      step (Ret s) (SendConnect c)
        (Ret (set_serve (PHandle (CmdErr c (k_id k) err)) (set_client c (set_connect KGone k) s)))
  (* readLoop *)
  | step_read s c k rpc :
      p_clients s !! c = Some k → k_read k = RdRead →
      step (Ret s) (EnvRead c rpc) (Ret (set_client c (set_read (RdSend rpc) k) s))
  | step_read_nil s c k :
      p_clients s !! c = Some k → k_read k = RdRead →
      step (Ret s) (EnvReadNil c) (Ret (set_client c (set_read RdNil k) s))
  | step_read_err s c k err :
      p_clients s !! c = Some k → k_read k = RdRead →
      step (Ret s) (EnvReadErr c err) (Ret (set_client c (set_read (RdErr err) k) s))
  | step_send_rpc s c k rpc :
      p_clients s !! c = Some k → k_read k = RdSend rpc → p_serve s = PWait →
      step (Ret s) (SendRead c)
        (Ret (set_serve (PHandle (CmdRpc c (k_id k) rpc)) (set_client c (set_read RdRead k) s)))
  | step_send_nil s c k :
      p_clients s !! c = Some k → k_read k = RdNil → p_serve s = PWait →
      step (Ret s) (SendRead c)
        (Ret (set_serve (PHandle (CmdNil c (k_id k))) (set_client c (set_read RdRead k) s)))
  | step_send_read_err s c k err :
      p_clients s !! c = Some k → k_read k = RdErr err → p_serve s = PWait →
      step (Ret s) (SendRead c)
        (Ret (set_serve (PHandle (CmdErr c (k_id k) err))
               (set_client c (group_done (set_read RdExit k)) s)))
  | step_read_ctx s c k :
      p_clients s !! c = Some k → (∃ rpc, k_read k = RdSend rpc) ∨ k_read k = RdNil → ctx_done s k →
      step (Ret s) (ReadCtx c) (Ret (set_client c (group_done (set_read RdExit k)) s))
  (* writeLoop *)
  | step_write_take s c k rpc l :
      p_clients s !! c = Some k → k_write k = WrWait → k_fromServer k = rpc :: l →
      step (Ret s) (WriteTake c rpc) (Ret (set_client c (set_write (WrWriting rpc) (set_buf l k)) s))
  | step_written s c k rpc werr :
      p_clients s !! c = Some k → k_write k = WrWriting rpc →
      step (Ret s) (EnvWritten c werr)
        (Ret (set_client c (set_write (match werr with Some err => WrErr err | None => WrWait end) k) s))
  | step_send_write_err s c k err :
      p_clients s !! c = Some k → k_write k = WrErr err → p_serve s = PWait →
      step (Ret s) (SendWrite c)
        (Ret (set_serve (PHandle (CmdErr c (k_id k) err))
               (set_client c (group_done (set_write WrExit k)) s)))
  | step_write_ctx s c k :
      p_clients s !! c = Some k → k_write k = WrWait → ctx_done s k →
      step (Ret s) (WriteCtx c) (Ret (set_client c (group_done (set_write WrExit k)) s))
  (* serveClients *)
  | step_serve s f cmd s' to :
      p_serve s = PHandle cmd → handle cfg f cmd s = Ret (s', to) →
      step (Ret s) (Serve f cmd to) (Ret s')
  | step_serve_panic s f cmd msg :
      p_serve s = PHandle cmd → handle cfg f cmd s = Panic msg →
      step (Ret s) (Serve f cmd None) (Panic msg)
  | step_callback s id err :
      p_serve s = PCallback id err → step (Ret s) EnvCallback (Ret (set_serve PWait s))
  | step_serve_ctx s :
      p_serve s = PWait → p_ctx s = true → step (Ret s) ServeCtx (Ret (set_serve PExit s)).
End steps.

(** ** Histories *)
Definition reads_of (c : nat) (l : label) : list Rpc :=
  match l with EnvRead c' rpc => if decide (c' = c) then [rpc] else [] | _ => [] end.
(** What was read from a client. *)
Definition reads (c : nat) (h : list label) : list Rpc := h ≫= reads_of c.
Definition handled_of (c : nat) (l : label) : list Rpc :=
  match l with Serve _ (CmdRpc c' _ rpc) _ => if decide (c' = c) then [rpc] else [] | _ => [] end.
(** The Rpcs of a client that serveClients handled. *)
Definition handled (c : nat) (h : list label) : list Rpc := h ≫= handled_of c.
Definition queued_of (c : nat) (l : label) : list Rpc :=
  match l with Serve _ _ (Some (c', rpc)) => if decide (c' = c) then [rpc] else [] | _ => [] end.
(** The Rpcs that serveClients put into the channel of a client. *)
Definition queued (c : nat) (h : list label) : list Rpc := h ≫= queued_of c.
Definition taken_of (c : nat) (l : label) : list Rpc :=
  match l with WriteTake c' rpc => if decide (c' = c) then [rpc] else [] | _ => [] end.
(** The Rpcs given to the client's connection to write. *)
Definition taken (c : nat) (h : list label) : list Rpc := h ≫= taken_of c.

(** ** Invariant *)
Definition cmd_client (cmd : command) : nat :=
  match cmd with CmdRpc c _ _ | CmdErr c _ _ | CmdNil c _ => c end.
Definition cmd_id (cmd : command) : string :=
  match cmd with CmdRpc _ id _ | CmdErr _ id _ | CmdNil _ id => id end.

(** The Rpc of the client [c] that serveClients is working on, and the one that
    the client's read loop holds. *)
Definition in_serve (c : nat) (p : serve_pc) : list Rpc :=
  match p with PHandle (CmdRpc c' _ rpc) => if decide (c' = c) then [rpc] else [] | _ => [] end.
Definition in_hand (k : proxyClient) : list Rpc :=
  match k_read k with RdSend rpc => [rpc] | _ => [] end.

Section invariant.
Variable cfg : proxy_config.

(** An Rpc is put into the channel of the client it is forwarded to. *)
Definition label_ok (s : proxy) (l : label) : Prop :=
  match l with
  | Serve f (CmdRpc c id rpc) (Some (c', rpc')) =>
      ∃ k k' hop, p_clients s !! c = Some k ∧ k_id k = id ∧
        forwardRpc (px_id cfg) (if px_rpcIntercepter cfg then Some f else None) id rpc =
          Ret (Some (hop, rpc')) ∧
        p_clients s !! c' = Some k' ∧ k_id k' = hop
  | Serve _ (CmdErr _ _ _) (Some _) | Serve _ (CmdNil _ _) (Some _) => False
  | _ => True
  end.

Record proxy_inv (h : list label) (s : proxy) : Prop := {
  pi_ids id c : p_ids s !! id = Some c → ∃ k, p_clients s !! c = Some k ∧ k_id k = id;
  pi_cmd cmd : p_serve s = PHandle cmd →
    ∃ k, p_clients s !! cmd_client cmd = Some k ∧ k_id k = cmd_id cmd;
  pi_buf c k : p_clients s !! c = Some k →
    length (k_fromServer k) ≤ clientBufferSize ∧ taken c h ++ k_fromServer k = queued c h;
  pi_read c k : p_clients s !! c = Some k →
    handled c h ++ in_serve c (p_serve s) ++ in_hand k `prefix_of` reads c h ∧
    (k_read k ≠ RdExit → handled c h ++ in_serve c (p_serve s) ++ in_hand k = reads c h);
  pi_open c k : p_clients s !! c = Some k → k_connect k ≠ KOpen → k_read k = RdOff;
  pi_none c : p_clients s !! c = None →
    reads c h = [] ∧ handled c h = [] ∧ queued c h = [] ∧ taken c h = [];
  pi_labels : Forall (label_ok s) h }.

Lemma px_reads_snoc c h l : reads c (h ++ [l]) = reads c h ++ reads_of c l.
Proof. unfold reads. by rewrite bind_app, bind_singleton. Qed.
Lemma px_handled_snoc c h l : handled c (h ++ [l]) = handled c h ++ handled_of c l.
Proof. unfold handled. by rewrite bind_app, bind_singleton. Qed.
Lemma px_queued_snoc c h l : queued c (h ++ [l]) = queued c h ++ queued_of c l.
Proof. unfold queued. by rewrite bind_app, bind_singleton. Qed.
Lemma px_taken_snoc c h l : taken c (h ++ [l]) = taken c h ++ taken_of c l.
Proof. unfold taken. by rewrite bind_app, bind_singleton. Qed.

(** Clients stay, under their ids. *)
Definition grows (s s' : proxy) : Prop :=
  ∀ c k, p_clients s !! c = Some k → ∃ k', p_clients s' !! c = Some k' ∧ k_id k' = k_id k.

Lemma label_ok_grows s s' l : grows s s' → label_ok s l → label_ok s' l.
Proof.
  intros Hg. destruct l as [| | | | | | | | | | | | | | | | |f [c id rpc| |] [[c' rpc']|]|]; try done. simpl.
  intros (k & k' & hop & Hk & Hid & Hf & Hk' & Hid').
  destruct (Hg _ _ Hk) as (k2 & Hk2 & E2), (Hg _ _ Hk') as (k3 & Hk3 & E3).
  exists k2, k3, hop. split_and!; congruence.
Qed.

Lemma labels_grow s s' h : grows s s' → Forall (label_ok s) h → Forall (label_ok s') h.
Proof. intros Hg Hh. eapply Forall_impl; [exact Hh|]. intros l. by apply label_ok_grows. Qed.

(** Addresses keep their meaning when clients only grow. *)
Lemma ids_grow s s' (m : gmap string nat) :
  grows s s' → (∀ id c, m !! id = Some c → ∃ k, p_clients s !! c = Some k ∧ k_id k = id) →
  ∀ id c, m !! id = Some c → ∃ k, p_clients s' !! c = Some k ∧ k_id k = id.
Proof.
  intros Hg Hids id c Hc. destruct (Hids _ _ Hc) as (k & Hk & <-).
  destruct (Hg _ _ Hk) as (k' & ? & ?). eauto.
Qed.
Lemma cmds_grow s s' (p : serve_pc) :
  grows s s' →
  (∀ cmd, p = PHandle cmd → ∃ k, p_clients s !! cmd_client cmd = Some k ∧ k_id k = cmd_id cmd) →
  ∀ cmd, p = PHandle cmd → ∃ k, p_clients s' !! cmd_client cmd = Some k ∧ k_id k = cmd_id cmd.
Proof.
  intros Hg Hp cmd Hcmd. destruct (Hp _ Hcmd) as (k & Hk & <-).
  destruct (Hg _ _ Hk) as (k' & ? & ?). eauto.
Qed.

Lemma grows_set_client s s' c k k' :
  p_clients s' = <[c := k']> (p_clients s) → p_clients s !! c = Some k → k_id k' = k_id k →
  grows s s'.
Proof.
  intros Hs Hk Hid c2 k2 Hk2. rewrite Hs. destruct (decide (c = c2)) as [<-|Hne].
  - exists k'. rewrite list_lookup_insert_eq by (by eapply lookup_lt_Some). simplify_eq. done.
  - exists k2. by rewrite list_lookup_insert_ne.
Qed.

Definition silent (l : label) : Prop :=
  match l with EnvRead _ _ | WriteTake _ _ | Serve _ _ _ => False | _ => True end.

Lemma proxy_inv_silent h s l : silent l → proxy_inv h s → proxy_inv (h ++ [l]) s.
Proof.
  intros Hl [].
  assert (Hr : ∀ c, reads c (h ++ [l]) = reads c h)
    by (intros; rewrite px_reads_snoc; destruct l; try done; by rewrite app_nil_r).
  assert (Hh : ∀ c, handled c (h ++ [l]) = handled c h)
    by (intros; rewrite px_handled_snoc; destruct l; try done; by rewrite app_nil_r).
  assert (Hq : ∀ c, queued c (h ++ [l]) = queued c h)
    by (intros; rewrite px_queued_snoc; destruct l; try done; by rewrite app_nil_r).
  assert (Ht : ∀ c, taken c (h ++ [l]) = taken c h)
    by (intros; rewrite px_taken_snoc; destruct l; try done; by rewrite app_nil_r).
  split; intros; rewrite ?Hr, ?Hh, ?Hq, ?Ht; eauto.
  apply Forall_app. split; [done|]. apply Forall_singleton. by destruct l.
Qed.

Lemma proxy_inv_init : proxy_inv [] NewProxy.
Proof. split; try done. Qed.

(** A new client. *)
Lemma proxy_inv_register h s k :
  proxy_inv h s → k_fromServer k = [] → in_hand k = [] →
  (k_connect k ≠ KOpen → k_read k = RdOff) → proxy_inv h (register k s).
Proof.
  intros [] Hb Hh Hop.
  assert (Hlook : ∀ c k', p_clients (register k s) !! c = Some k' ↔
    p_clients s !! c = Some k' ∨ (c = length (p_clients s) ∧ k' = k)).
  { intros c k'. simpl. rewrite lookup_app. destruct (p_clients s !! c) eqn:E.
    - split; [by left|]. intros [?|[-> ->]]; [done|]. apply lookup_lt_Some in E. lia.
    - apply lookup_ge_None in E. rewrite list_lookup_singleton_Some.
      split; [intros [? <-]; right; split; [lia|done]|]. intros [?|[-> ->]]; [done|]. split; [lia|done]. }
  assert (Hnew : p_clients s !! length (p_clients s) = None) by (by apply lookup_ge_None).
  destruct (pi_none0 _ Hnew) as (Hr & Hha & Hq & Ht).
  split.
  - intros id c Hc. simpl in Hc. apply lookup_insert_Some in Hc as [[<- <-]|[_ Hc]].
    + exists k. rewrite Hlook. auto.
    + destruct (pi_ids0 _ _ Hc) as (k' & ? & ?). exists k'. rewrite Hlook. auto.
  - intros cmd Hcmd. destruct (pi_cmd0 _ Hcmd) as (k' & ? & ?). exists k'. rewrite Hlook. auto.
  - intros c k' [Hk|[-> ->]]%Hlook; [by eauto|]. rewrite Hb, Ht, Hq. simpl. split; [lia|done].
  - intros c k' [Hk|[-> ->]]%Hlook; [by eapply pi_read0|].
    assert (in_serve (length (p_clients s)) (p_serve s) = []) as Hs.
    { unfold in_serve. destruct (p_serve s) as [|[c id rpc| |]| |] eqn:E; try done.
      rewrite decide_False; [done|]. intros ->. destruct (pi_cmd0 _ eq_refl) as (k' & Hk' & _).
      simpl in Hk'. congruence. }
    simpl. rewrite Hha, Hr, Hs, Hh. simpl. done.
  - intros c k' [Hk|[-> ->]]%Hlook; [by eauto|done].
  - intros c Hc. apply pi_none0. destruct (p_clients s !! c) eqn:E; [|done].
    assert (p_clients (register k s) !! c = Some p) by (apply Hlook; auto). congruence.
  - eapply Forall_impl; [exact pi_labels0|]. intros l. apply label_ok_grows.
    intros c k' Hk'. exists k'. rewrite Hlook. auto.
Qed.

(** A client changes, or hands a command to serveClients. *)
Lemma proxy_inv_client h s s' c k k' :
  proxy_inv h s → p_ids s' = p_ids s → p_clients s' = <[c := k']> (p_clients s) →
  p_clients s !! c = Some k → k_id k' = k_id k → k_fromServer k' = k_fromServer k →
  (p_serve s' = p_serve s ∨
   p_serve s = PWait ∧ ∃ cmd, p_serve s' = PHandle cmd ∧ cmd_client cmd = c ∧ cmd_id cmd = k_id k) →
  (k_read k = RdExit → k_read k' = RdExit) → (k_connect k' ≠ KOpen → k_read k' = RdOff) →
  in_serve c (p_serve s') ++ in_hand k' `prefix_of` in_serve c (p_serve s) ++ in_hand k →
  (k_read k' ≠ RdExit →
     in_serve c (p_serve s') ++ in_hand k' = in_serve c (p_serve s) ++ in_hand k) →
  proxy_inv h s'.
Proof.
  intros [] Hids Hcl Hk Hid Hb Hsv Hex Hop Hpre Heq.
  assert (Hlook : p_clients s' !! c = Some k')
    by (rewrite Hcl; apply list_lookup_insert_eq; by eapply lookup_lt_Some).
  assert (Hother : ∀ c2, c2 ≠ c → p_clients s' !! c2 = p_clients s !! c2 ∧
    in_serve c2 (p_serve s') = in_serve c2 (p_serve s)).
  { intros c2 Hne. split; [by rewrite Hcl, list_lookup_insert_ne|].
    destruct Hsv as [->|(-> & cmd & -> & <- & _)]; [done|]. simpl. destruct cmd; simpl in *; [|done..].
    by rewrite decide_False. }
  pose proof (grows_set_client s s' c k k' Hcl Hk Hid) as Hg.
  split.
  - rewrite Hids. by apply (ids_grow s).
  - intros cmd Hcmd. destruct Hsv as [Hsv|(Hsv & cmd' & Hcmd' & <- & Hcid)].
    + rewrite Hsv in Hcmd. destruct (pi_cmd0 _ Hcmd) as (k2 & Hk2 & <-).
      destruct (Hg _ _ Hk2) as (k3 & ? & ?). eauto.
    + rewrite Hcmd in Hcmd'. injection Hcmd' as ->. exists k'. split; congruence.
  - intros c2 k2 Hk2. destruct (decide (c2 = c)) as [->|Hne].
    + rewrite Hlook in Hk2. injection Hk2 as <-. rewrite Hb. eauto.
    + destruct (Hother c2 Hne) as [Ho _]. rewrite Ho in Hk2. eauto.
  - intros c2 k2 Hk2. destruct (decide (c2 = c)) as [->|Hne].
    + rewrite Hlook in Hk2. injection Hk2 as <-. destruct (pi_read0 _ _ Hk) as [Hp He]. split.
      * etrans; [|exact Hp]. by apply prefix_app.
      * intros Hne. rewrite Heq by done. apply He. tauto.
    + destruct (Hother c2 Hne) as [Ho ->]. rewrite Ho in Hk2. eauto.
  - intros c2 k2 Hk2. destruct (decide (c2 = c)) as [->|Hne].
    + rewrite Hlook in Hk2. by injection Hk2 as <-.
    + destruct (Hother c2 Hne) as [Ho _]. rewrite Ho in Hk2. eauto.
  - intros c2 Hc2. apply pi_none0. destruct (decide (c2 = c)) as [->|Hne]; [congruence|].
    destruct (Hother c2 Hne) as [Ho _]. congruence.
  - by eapply labels_grow.
Qed.

Lemma proxy_inv_read h s c k rpc :
  proxy_inv h s → p_clients s !! c = Some k → k_read k = RdRead →
  proxy_inv (h ++ [EnvRead c rpc]) (set_client c (set_read (RdSend rpc) k) s).
Proof.
  intros [] Hk Hr.
  assert (Hlt : c < length (p_clients s)) by (by eapply lookup_lt_Some).
  assert (Hg : grows s (set_client c (set_read (RdSend rpc) k) s)) by (by eapply grows_set_client).
  split.
  - by apply (ids_grow s).
  - by apply (cmds_grow s).
  - intros c2 k2. simpl. rewrite px_taken_snoc, px_queued_snoc, !app_nil_r.
    intros [(<- & <- & _)|[_ Hk2]]%list_lookup_insert_Some; [apply (pi_buf0 _ _ Hk)|eauto].
  - intros c2 k2. simpl. rewrite px_handled_snoc, px_reads_snoc, app_nil_r. simpl.
    intros [(<- & <- & _)|[Hne Hk2]]%list_lookup_insert_Some.
    + rewrite decide_True by done. destruct (pi_read0 _ _ Hk) as [_ He].
      assert (handled c h ++ in_serve c (p_serve s) ++ [rpc] = reads c h ++ [rpc]) as Heq.
      { rewrite <-He by congruence. unfold in_hand. rewrite Hr. rewrite app_nil_r. by rewrite app_assoc. }
      unfold in_hand. simpl. rewrite Heq. done.
    + rewrite decide_False, app_nil_r by done. eauto.
  - intros c2 k2. simpl. intros [(<- & <- & _)|[_ Hk2]]%list_lookup_insert_Some Hop; [|eauto].
    pose proof (pi_open0 _ _ Hk Hop). congruence.
  - intros c2. simpl. rewrite list_lookup_insert_None. intros Hc2.
    rewrite px_reads_snoc, px_handled_snoc, px_queued_snoc, px_taken_snoc. simpl.
    rewrite decide_False, !app_nil_r by congruence. auto.
  - apply Forall_app. split; [|by apply Forall_singleton].
    by eapply labels_grow.
Qed.

Lemma proxy_inv_take h s c k rpc l :
  proxy_inv h s → p_clients s !! c = Some k → k_fromServer k = rpc :: l →
  proxy_inv (h ++ [WriteTake c rpc]) (set_client c (set_write (WrWriting rpc) (set_buf l k)) s).
Proof.
  intros [] Hk Hb.
  assert (Hg : grows s (set_client c (set_write (WrWriting rpc) (set_buf l k)) s))
    by (by eapply grows_set_client).
  split.
  - by apply (ids_grow s).
  - by apply (cmds_grow s).
  - intros c2 k2. simpl. rewrite px_taken_snoc, px_queued_snoc, app_nil_r. simpl.
    intros [(<- & <- & _)|[Hne Hk2]]%list_lookup_insert_Some.
    + destruct (pi_buf0 _ _ Hk) as [Hl He]. rewrite Hb in *. simpl in *.
      rewrite decide_True, <-app_assoc by done. split; [lia|done].
    + rewrite decide_False, app_nil_r by done. eauto.
  - intros c2 k2. simpl. rewrite px_handled_snoc, px_reads_snoc, !app_nil_r.
    intros [(<- & <- & _)|[_ Hk2]]%list_lookup_insert_Some; [apply (pi_read0 _ _ Hk)|eauto].
  - intros c2 k2. simpl. intros [(<- & <- & _)|[_ Hk2]]%list_lookup_insert_Some; [|eauto].
    apply (pi_open0 _ _ Hk).
  - intros c2. simpl. rewrite list_lookup_insert_None. intros Hc2.
    rewrite px_reads_snoc, px_handled_snoc, px_queued_snoc, px_taken_snoc. simpl.
    rewrite decide_False, !app_nil_r by congruence. auto.
  - apply Forall_app. split; [|by apply Forall_singleton].
    by eapply labels_grow.
Qed.

(** serveClients handles an Rpc, possibly putting one into a channel. *)
Lemma proxy_inv_handled h s f c id rpc to s' :
  proxy_inv h s → p_serve s = PHandle (CmdRpc c id rpc) →
  p_ids s' = p_ids s → p_serve s' = PWait → label_ok s' (Serve f (CmdRpc c id rpc) to) →
  match to with
  | None => p_clients s' = p_clients s
  | Some (c', rpc') => ∃ k', p_clients s !! c' = Some k' ∧
      length (k_fromServer k') < clientBufferSize ∧
      p_clients s' = <[c' := set_buf (k_fromServer k' ++ [rpc']) k']> (p_clients s)
  end →
  proxy_inv (h ++ [Serve f (CmdRpc c id rpc) to]) s'.
Proof.
  intros [] Hsv Hids Hsv' Hok Hto. set (l := Serve f (CmdRpc c id rpc) to) in *.
  assert (Hlook : ∀ c2 k2, p_clients s' !! c2 = Some k2 → ∃ k, p_clients s !! c2 = Some k ∧
    k_id k2 = k_id k ∧ k_read k2 = k_read k ∧ k_connect k2 = k_connect k ∧
    (length (k_fromServer k) ≤ clientBufferSize → length (k_fromServer k2) ≤ clientBufferSize) ∧
    k_fromServer k2 = k_fromServer k ++ queued_of c2 l).
  { intros c2 k2. destruct to as [[c' rpc']|]; simpl.
    - destruct Hto as (k' & Hk' & Hlen & ->).
      intros [(<- & <- & _)|[Hne Hk2]]%list_lookup_insert_Some.
      + exists k'. rewrite decide_True by done. split_and!; try done.
        simpl. rewrite length_app. simpl. lia.
      + exists k2. rewrite decide_False, app_nil_r by done. done.
    - rewrite Hto. intros Hk2. exists k2. by rewrite app_nil_r. }
  assert (Hg : grows s s').
  { destruct to as [[c' rpc']|]; [|intros c2 k2 Hk2; rewrite Hto; by eauto].
    destruct Hto as (k' & Hk' & _ & Heq). by eapply grows_set_client. }
  assert (Hnone : ∀ c2, p_clients s' !! c2 = None → p_clients s !! c2 = None).
  { intros c2 Hc2. destruct (p_clients s !! c2) eqn:E; [|done].
    destruct (Hg _ _ E) as (? & ? & _). congruence. }
  split.
  - rewrite Hids. by apply (ids_grow s).
  - by rewrite Hsv'.
  - intros c2 k2 Hk2. destruct (Hlook _ _ Hk2) as (k & Hk & _ & _ & _ & Hlen & Hb).
    rewrite px_taken_snoc, px_queued_snoc, app_nil_r, Hb, app_assoc.
    destruct (pi_buf0 _ _ Hk) as [Hl ->]. rewrite <-Hb. auto.
  - intros c2 k2 Hk2. destruct (Hlook _ _ Hk2) as (k & Hk & _ & Hrd & _).
    rewrite px_handled_snoc, px_reads_snoc, app_nil_r, Hsv'. simpl. unfold in_hand. rewrite Hrd.
    rewrite <-app_assoc. pose proof (pi_read0 _ _ Hk) as Hp. by rewrite Hsv in Hp.
  - intros c2 k2 Hk2. destruct (Hlook _ _ Hk2) as (k & Hk & _ & -> & -> & _). eauto.
  - intros c2 Hc2%Hnone. rewrite px_reads_snoc, px_handled_snoc, px_queued_snoc, px_taken_snoc.
    destruct (pi_none0 _ Hc2) as (-> & -> & -> & ->). simpl.
    destruct (pi_cmd0 _ Hsv) as (k & Hk & _). simpl in Hk.
    rewrite (decide_False (P:=c = c2)) by congruence.
    destruct to as [[c' rpc']|]; [|done]. destruct Hto as (k' & Hk' & _).
    by rewrite decide_False by congruence.
  - apply Forall_app. split; [by eapply labels_grow|by apply Forall_singleton].
Qed.

(** serveClients handles a command without an Rpc: an id may lose its client. *)
Lemma proxy_inv_dropped h s f cmd ids p :
  proxy_inv h s → p_serve s = PHandle cmd → match cmd with CmdRpc _ _ _ => False | _ => True end →
  ids ⊆ p_ids s → (p = PWait ∨ ∃ id err, p = PCallback id err) →
  proxy_inv (h ++ [Serve f cmd None]) (set_serve p (mkProxy (p_ctx s) ids (p_clients s) (p_serve s))).
Proof.
  intros [] Hsv Hcmd Hids Hp.
  assert (Hin : ∀ c2, in_serve c2 p = in_serve c2 (p_serve s))
    by (intros; rewrite Hsv; by destruct cmd, Hp as [->|(? & ? & ->)]).
  assert (Hh : ∀ c2, handled_of c2 (Serve f cmd None) = []) by (by destruct cmd).
  split; simpl.
  - intros id' c2 Hc2. eapply pi_ids0, lookup_weaken; [exact Hc2|exact Hids].
  - by destruct Hp as [->|(? & ? & ->)].
  - intros c2 k2 Hk2. rewrite px_taken_snoc, px_queued_snoc, !app_nil_r. eauto.
  - intros c2 k2 Hk2. rewrite px_handled_snoc, px_reads_snoc, Hh, !app_nil_r, Hin. eauto.
  - eauto.
  - intros c2 Hc2. rewrite px_reads_snoc, px_handled_snoc, px_queued_snoc, px_taken_snoc, Hh, !app_nil_r. eauto.
  - apply Forall_app. split; [exact pi_labels0|]. apply Forall_singleton. by destruct cmd.
Qed.

Lemma client_for_spec h s id :
  proxy_inv h s →
  let '(c, s1) := client_for id s in
  proxy_inv h s1 ∧ grows s s1 ∧ p_serve s1 = p_serve s ∧ p_ctx s1 = p_ctx s ∧
  ∃ k, p_clients s1 !! c = Some k ∧ k_id k = id.
Proof.
  intros Hinv. unfold client_for. destruct (p_ids s !! id) as [c|] eqn:E.
  - split_and!; [done|by intros c2 k2 ?; eauto|done..|by eapply pi_ids].
  - split_and!; [by apply proxy_inv_register| |done..|].
    + intros c2 k2 Hk2. exists k2. simpl. split; [by apply lookup_app_l_Some|done].
    + eexists. simpl. by rewrite list_lookup_middle.
Qed.

Lemma client_for_set_serve id p s :
  client_for id (set_serve p s) = ((client_for id s).1, set_serve p (client_for id s).2).
Proof. unfold client_for. simpl. by destruct (p_ids s !! id). Qed.

Lemma proxy_inv_serve h s f cmd s' to :
  proxy_inv h s → p_serve s = PHandle cmd → handle cfg f cmd s = Ret (s', to) →
  proxy_inv (h ++ [Serve f cmd to]) s'.
Proof.
  intros Hinv Hsv Hh. destruct cmd as [c id rpc|c id err|c id]; simpl in Hh.
  - apply bind_Ret in Hh as (fwd & Hf & Hh). destruct fwd as [[hop rpc']|].
    + pose proof (client_for_spec h s hop Hinv) as Hcf. unfold deliver in Hh.
      rewrite client_for_set_serve in Hh. destruct (client_for hop s) as [c' s1]. simpl in Hh.
      destruct Hcf as (Hinv1 & Hg & Hsv1 & _ & k' & Hk' & Hid'). rewrite Hsv in Hsv1.
      rewrite Hk' in Hh. simpl in Hh. unfold enqueue in Hh.
      destruct (pi_cmd _ _ Hinv _ Hsv) as (k & Hk & Hid). simpl in *.
      destruct (Hg _ _ Hk) as (k1 & Hk1 & Hid1).
      case_decide as Hlen; injection Hh as <- <-; (eapply (proxy_inv_handled h s1);
        [done|done|done|done| |simpl]); [|by eauto|done|done].
      assert (Hg2 : grows s1 (set_client c' (set_buf (k_fromServer k' ++ [rpc']) k') s1))
        by (by eapply grows_set_client).
      destruct (Hg2 _ _ Hk1) as (k2 & Hk2 & Hid2), (Hg2 _ _ Hk') as (k3 & Hk3 & Hid3).
      exists k2, k3, hop. split_and!; [exact Hk2|congruence|exact Hf|exact Hk3|congruence].
    + injection Hh as <- <-. by eapply (proxy_inv_handled h s).
  - injection Hh as <- <-. apply proxy_inv_dropped; [done|done|done|apply delete_subseteq|].
    destruct (px_clientDisconnect cfg); eauto.
  - injection Hh as <- <-. replace s with (mkProxy (p_ctx s) (p_ids s) (p_clients s) (p_serve s)) at 2 by (by destruct s).
    apply proxy_inv_dropped; auto.
Qed.

(** Closes the side conditions of [proxy_inv_client]. *)
Ltac client_step h s c k :=
  let Hop := fresh in
  assert (k_connect k ≠ KOpen → k_read k = RdOff) as Hop by (by eapply pi_open);
  eapply (proxy_inv_client h s _ c k); try done; unfold in_hand; simpl;
  try match goal with Heq : p_serve s = _ |- _ => rewrite !Heq end;
  try match goal with Heq : k_read k = _ |- _ => rewrite !Heq end;
  simpl; rewrite ?decide_True by done; try done; eauto 10 using prefix_app, prefix_nil;
  try (intros Hc; try specialize (Hop Hc); congruence).

Lemma proxy_inv_step h s l s' :
  proxy_inv h s → step cfg (Ret s) l (Ret s') → proxy_inv (h ++ [l]) s'.
Proof.
  intros Hinv Hst. inversion Hst; subst; clear Hst;
    try (by eapply proxy_inv_read || by eapply proxy_inv_take || by eapply proxy_inv_serve).
  all: apply proxy_inv_silent; [done|].
  all: try match goal with Hd : k_connect ?k = KDialing |- _ =>
    assert (k_read k = RdOff) as Hoff by (eapply pi_open; [done..|congruence]) end.
  all: try match goal with Hd : k_connect ?k = KFailed _ |- _ =>
    assert (k_read k = RdOff) as Hoff by (eapply pi_open; [done..|congruence]) end.
  all: try match goal with Hr : (∃ rpc, k_read _ = RdSend rpc) ∨ _ |- _ => destruct Hr as [[rpc Hr]|Hr] end.
  all: try match goal with Hk : p_clients _ !! ?c = Some ?k |- context [match ?w with Some _ => _ | None => _ end] =>
    destruct w end.
  all: try match goal with Hk : p_clients _ !! ?c = Some ?k |- _ => by client_step h s c k end.
  - by apply proxy_inv_register.
  - by destruct Hinv.
  - destruct Hinv. match goal with Heq : p_serve s = _ |- _ => rewrite Heq in * end. by split.
  - destruct Hinv. match goal with Heq : p_serve s = _ |- _ => rewrite Heq in * end. by split.
Qed.
End invariant.

(** ** Guarantees *)
Section guarantees.
Variable cfg : proxy_config.
Abbreviation steps := (trace (step cfg)).

Lemma proxy_inv_trace h s : steps (Ret NewProxy) h (Ret s) → proxy_inv cfg h s.
Proof.
  intros Htr.
  refine (trace_history_invariant (step cfg)
    (λ h o, match o with Ret s => proxy_inv cfg h s | Panic _ => True end)
    _ [] (Ret NewProxy) h (Ret s) (proxy_inv_init cfg) Htr).
  clear. intros h [s|] l [s'|] Hinv Hst; try done; [by eapply proxy_inv_step|inversion Hst].
Qed.

(** Why serveClients put an Rpc that it handled into no channel: the interceptor
    refused it, or the channel of the client it is for held 16 Rpcs, those that had
    been put into it and not been taken. *)
Lemma not_queued h1 f c id rpc h2 s :
  steps (Ret NewProxy) (h1 ++ Serve f (CmdRpc c id rpc) None :: h2) (Ret s) →
  let fwd := forwardRpc (px_id cfg) (if px_rpcIntercepter cfg then Some f else None) id rpc in
  fwd = Ret None ∨
  ∃ hop rpc' c' s1, fwd = Ret (Some (hop, rpc')) ∧ steps (Ret NewProxy) h1 (Ret s1) ∧
    p_ids s1 !! hop = Some c' ∧ length (queued c' h1) = length (taken c' h1) + clientBufferSize.
Proof.
  intros (o & Htr & Hst)%trace_app_inv. inversion Hst as [|? ? o2 ? ? Hstep Htr2]; subst.
  destruct o2 as [s2|]; [|by inversion Htr2 as [|? ? ? ? ? Hs]; inversion Hs].
  inversion Hstep; subst. pose proof (proxy_inv_trace _ _ Htr) as Hinv.
  match goal with Hh : handle _ _ _ _ = _ |- _ => simpl in Hh; apply bind_Ret in Hh as (fwd & Hf & Hh) end.
  simpl. rewrite Hf. destruct fwd as [[hop rpc']|]; [right|by left].
  match goal with Hh : context [deliver] |- _ => rename Hh into Hd end.
  unfold deliver in Hd. rewrite client_for_set_serve in Hd. unfold client_for in Hd.
  destruct (p_ids _ !! hop) as [c'|] eqn:Hid; simpl in Hd.
  - destruct (pi_ids _ _ _ Hinv _ _ Hid) as (k & Hk & _). rewrite Hk in Hd. simpl in Hd.
    destruct (pi_buf _ _ _ Hinv _ _ Hk) as [Hlen Hq]. unfold enqueue in Hd.
    case_decide as Hfull; [done|]. do 4 eexists. split_and!; [done..|].
    rewrite <-Hq, length_app. lia.
  - rewrite list_lookup_middle in Hd by done. simpl in Hd. done.
Qed.

(** C29: a proxy keeps each client's Rpcs in order, invents none, and drops none
    but the ones it has to.  It handles the Rpcs of a client in the order in which
    they were read, without a gap, and while the client's read loop runs all of
    them but the one in its hand and the one in serveClients' hand; what it gives to
    a client's connection is, in order and without a gap, what it put into the
    client's channel, which never holds more than 16; every Rpc put into a channel
    is the forwarded form of one that was handled, in the channel of a client with
    the id that [forwardRpc] chose; and an Rpc that was handled is put into a
    channel, unless the interceptor refused it or the channel of the client that has
    that id was full: 16 of the Rpcs put into it had not been taken. *)
Theorem proxy_delivery h s :
  steps (Ret NewProxy) h (Ret s) →
  (∀ c, handled c h `prefix_of` reads c h) ∧
  (∀ c k, p_clients s !! c = Some k → k_read k ≠ RdExit →
     handled c h ++ in_serve c (p_serve s) ++ in_hand k = reads c h) ∧
  (∀ c, taken c h `prefix_of` queued c h) ∧
  (∀ c k, p_clients s !! c = Some k →
     length (k_fromServer k) ≤ clientBufferSize ∧ taken c h ++ k_fromServer k = queued c h) ∧
  Forall (label_ok cfg s) h ∧
  ∀ h1 f c id rpc h2, h = h1 ++ Serve f (CmdRpc c id rpc) None :: h2 →
    let fwd := forwardRpc (px_id cfg) (if px_rpcIntercepter cfg then Some f else None) id rpc in
    fwd = Ret None ∨
    ∃ hop rpc' c' s1, fwd = Ret (Some (hop, rpc')) ∧ steps (Ret NewProxy) h1 (Ret s1) ∧
      p_ids s1 !! hop = Some c' ∧ length (queued c' h1) = length (taken c' h1) + 16.
Proof.
  intros Htr. pose proof (proxy_inv_trace _ _ Htr) as [Hids Hcmd Hbuf Hread Hopen Hnone Hlab].
  split_and!; [| | |done|done|].
  - intros c. destruct (p_clients s !! c) as [k|] eqn:Hk.
    + etrans; [|by apply (Hread _ _ Hk)]. by apply prefix_app_r.
    + destruct (Hnone _ Hk) as (_ & -> & _). apply prefix_nil.
  - intros c k Hk. by apply (Hread _ _ Hk).
  - intros c. destruct (p_clients s !! c) as [k|] eqn:Hk.
    + destruct (Hbuf _ _ Hk) as [_ <-]. by apply prefix_app_r.
    + destruct (Hnone _ Hk) as (_ & _ & _ & ->). apply prefix_nil.
  - intros h1 f c id rpc h2 ->. by eapply not_queued.
Qed.

(** What a proxy does with an Rpc for the id [hop], in every reachable
    state: without a client of that id it creates one, which it dials, with the
    Rpc as the only one in its channel; with one whose channel has room the Rpc is
    appended there; with one whose channel is full the Rpc is dropped and nothing
    changes.  No other client's channel changes. *)
Theorem proxy_deliver_spec h s hop rpc :
  steps (Ret NewProxy) h (Ret s) →
  let '(s', to) := deliver hop rpc s in
  p_serve s' = p_serve s ∧
  match p_ids s !! hop with
  | None => to = Some (length (p_clients s)) ∧ p_ids s' = <[hop := length (p_clients s)]> (p_ids s) ∧
      p_clients s' = p_clients s ++ [mkClient hop [rpc] KDialing RdOff WrOff false]
  | Some c => ∃ k, p_clients s !! c = Some k ∧ k_id k = hop ∧ p_ids s' = p_ids s ∧
      (length (k_fromServer k) < 16 → to = Some c ∧
         p_clients s' = <[c := set_buf (k_fromServer k ++ [rpc]) k]> (p_clients s)) ∧
      (length (k_fromServer k) = 16 → to = None ∧ p_clients s' = p_clients s)
  end.
Proof.
  intros Hinv%proxy_inv_trace. unfold deliver, client_for.
  destruct (p_ids s !! hop) as [c|] eqn:E.
  - destruct (pi_ids _ _ _ Hinv _ _ E) as (k & Hk & Hid). rewrite Hk. simpl.
    unfold enqueue. case_decide as Hlen; (split; [done|]); exists k; split_and!; try done;
      unfold clientBufferSize in *; lia.
  - simpl. rewrite list_lookup_middle by done. simpl. split_and!; try done.
    rewrite insert_app_r_alt, Nat.sub_diag by lia. done.
Qed.

(** ** Panics *)

(** An Rpc that a proxy cannot take from the client [id]: one without a header,
    or with another source, or with an empty, non-nil [ProxyNext] after the address
    translation [f]. *)
Definition bad_rpc (f : RpcIntercepter) (id : string) (rpc : Rpc) : Prop :=
  (∀ h, ¬ valid_from id rpc h) ∨
  ∃ h h', valid_from id rpc h ∧
    translated (if px_rpcIntercepter cfg then Some f else None) h = (h', None) ∧ h_ProxyNext h' = Some [].

Lemma forwardRpc_bad f id rpc :
  is_panic (forwardRpc (px_id cfg) (if px_rpcIntercepter cfg then Some f else None) id rpc) = true ↔
  bad_rpc f id rpc.
Proof.
  destruct (forwardRpc_spec (px_id cfg) (if px_rpcIntercepter cfg then Some f else None) id rpc) as [Hno Hyes].
  split; [|intros [Hb|(h & h' & Hv & Ht & Hn)]; [by apply Hno|]].
  - intros Hp. unfold bad_rpc. destruct (rpc_Header rpc) as [h|] eqn:Hh; [|left; intros ? [? _]; congruence].
    destruct (decide (h_Source h = id)) as [Hs|Hs]; [|left; intros ? [? ?]; congruence].
    right. specialize (Hyes h (conj Hh Hs)). exists h.
    destruct (translated _ h) as [h' [err|]] eqn:Ht; [by rewrite Hyes in Hp|]. exists h'.
    destruct (h_ProxyNext h') as [[|x l]|] eqn:Hn; [done|..];
      destruct Hyes as (hop & h2 & Hf & _); by rewrite Hf in Hp.
  - specialize (Hyes h Hv). rewrite Ht in Hyes. by rewrite Hn in Hyes.
Qed.

(** A nil connection comes from newConnection. *)
Definition nil_inv (h : list label) (s : proxy) : Prop :=
  ∀ c k, p_clients s !! c = Some k → k_connect k = KNil → EnvDialedNil c ∈ h.

Lemma nil_inv_set h l s c k k' ids p x :
  nil_inv h s → p_clients s !! c = Some k →
  (k_connect k' = KNil → k_connect k = KNil ∨ l = EnvDialedNil c) →
  nil_inv (h ++ [l]) (mkProxy x ids (<[c := k']> (p_clients s)) p).
Proof.
  intros Hi Hk Hc c2 k2. simpl. rewrite elem_of_app, list_elem_of_singleton.
  intros [(<- & <- & _)|[_ Hk2]]%list_lookup_insert_Some Hn; [|by left; eapply Hi].
  destruct (Hc Hn) as [Hn'|]; [|by right]. left. by eapply Hi.
Qed.
Lemma nil_inv_same h l s s' : nil_inv h s → p_clients s' = p_clients s → nil_inv (h ++ [l]) s'.
Proof. intros Hi Hs c k. rewrite Hs, elem_of_app. left. by eapply Hi. Qed.
Lemma nil_inv_register h s k : nil_inv h s → k_connect k ≠ KNil → nil_inv h (register k s).
Proof.
  intros Hi Hk c k2. simpl. rewrite lookup_snoc_Some. intros [[_ Hk2]|[_ <-]]; [by apply Hi|done].
Qed.

Lemma nil_inv_step h s l s' : nil_inv h s → step cfg (Ret s) l (Ret s') → nil_inv (h ++ [l]) s'.
Proof.
  intros Hi Hst. inversion Hst; subst.
  all: try (by apply (nil_inv_same h _ s)).
  all: try (by eapply nil_inv_set; [done..|]; simpl; auto).
  - apply (nil_inv_same h _ (AddClient id s)); [|done]. by apply nil_inv_register.
  - eapply nil_inv_set; [done..|]. by destruct werr.
  - destruct cmd as [c id rpc|c id err|c id];
      match goal with Hh : handle _ _ _ _ = _ |- _ => simpl in Hh end; simplify_eq; try (by apply (nil_inv_same h _ s)).
    match goal with Hh : context [forwardRpc] |- _ => apply bind_Ret in Hh as (fwd & _ & Hd) end.
    destruct fwd as [[hop rpc']|]; [|simplify_eq; by apply (nil_inv_same h _ s)].
    unfold deliver in Hd. rewrite client_for_set_serve in Hd.
    assert (Hi1 : nil_inv h (client_for hop s).2).
    { unfold client_for. destruct (p_ids s !! hop); [done|]. by apply nil_inv_register. }
    destruct (client_for hop s) as [c' s1]. simpl in *.
    destruct (p_clients s1 !! c') as [k|] eqn:Hk; simpl in Hd;
      [|simplify_eq; by apply (nil_inv_same h _ s1)].
    unfold enqueue in Hd. case_decide; simplify_eq; [|by apply (nil_inv_same h _ s1)].
    eapply nil_inv_set; [done..|]; simpl; auto.
Qed.

(** C35: what crashes a proxy.  A proxy panics only while it handles an Rpc, read
    from a client, that has no header, or another source than the id of that
    client, or an empty, non-nil [ProxyNext] after the address translation; or when
    it dials without a newConnection function; or when newConnection returned
    neither a connection nor an error.  And handling such an Rpc always panics,
    while handling any other never does. *)
Theorem proxy_panic_cause :
  (∀ h msg, steps (Ret NewProxy) h (Panic msg) →
     ∃ h' l s, h = h' ++ [l] ∧ steps (Ret NewProxy) h' (Ret s) ∧
       match l with
       | Serve f (CmdRpc c id rpc) None =>
           rpc ∈ reads c h' ∧ (∃ k, p_clients s !! c = Some k ∧ k_id k = id) ∧ bad_rpc f id rpc
       | DialNil c => px_newConnection cfg = false
       | NilConn c => EnvDialedNil c ∈ h'
       | _ => False
       end) ∧
  (∀ s f c id rpc to o, step cfg (Ret s) (Serve f (CmdRpc c id rpc) to) o →
     is_panic o = true ↔ bad_rpc f id rpc).
Proof.
  split.
  - intros h msg Htr. destruct h as [|l h _] using rev_ind; [inversion Htr|].
    apply trace_snoc_inv in Htr as ([s|] & Htr & Hst); [|inversion Hst]. exists h, l, s.
    split_and!; [done..|]. pose proof (proxy_inv_trace _ _ Htr) as Hinv.
    inversion Hst; subst; [done| |].
    + match goal with Hk : p_clients s !! c = Some k, Hn : k_connect k = KNil |- _ =>
        clear Hst; revert Hk Hn end. revert c k.
      refine (trace_history_invariant (step cfg)
        (λ h o, match o with Ret s => nil_inv h s | Panic _ => True end) _ [] (Ret NewProxy) h (Ret s) _ Htr);
        [|by intros c k].
      clear. intros h [s|] l [s'|] Hi Hs; try done; [by eapply nil_inv_step|inversion Hs].
    + match goal with Hp : p_serve _ = PHandle _, Hd : handle _ _ _ _ = _ |- _ => rename Hp into Hsv, Hd into Hh end.
      destruct cmd as [c id rpc| |]; [|done..]. destruct (pi_cmd _ _ _ Hinv _ Hsv) as (k & Hk & Hid). simpl in *.
      split_and!; [|by eauto|].
      * destruct (pi_read _ _ _ Hinv _ _ Hk) as [Hp _]. rewrite Hsv in Hp. simpl in Hp.
        rewrite decide_True in Hp by done. eapply elem_of_prefix; [|exact Hp]. set_solver.
      * apply forwardRpc_bad. destruct (forwardRpc _ _ _ _) as [[[]|]|]; simpl in Hh; try done.
        by destruct (deliver _ _ _).
  - intros s f c id rpc to o Hst. rewrite <-forwardRpc_bad. inversion Hst; subst;
      match goal with Hh : handle _ _ _ _ = _ |- _ => simpl in Hh;
        destruct (forwardRpc _ _ _ _) as [[[]|]|]; simpl in Hh; try done end.
    by destruct (deliver _ _ _).
Qed.
End guarantees.

(** ** A stale error removes a new client *)
Section stale.
Definition cfg0 : proxy_config := mkProxyConfig "proxy" true false false.
Definition self_rpc : Rpc :=
  mkRpc 1 (Some (mkRequestHeader "/pkg.Svc/Echo" [] "a" "a" [] None)) None None None None.
Definition forwarded_rpc : Rpc :=
  mkRpc 1 (Some (mkRequestHeader "/pkg.Svc/Echo" [] "a" "a" ["proxy"] None)) None None None None.
Definition pass_on : RpcIntercepter := λ h, (h, None).

(** Client 0 is told an Rpc for itself. *)
Definition forward_history : list label :=
  [EnvAdd "a"; EnvRead 0 self_rpc; SendRead 0;
   Serve pass_on (CmdRpc 0 "a" self_rpc) (Some (0, forwarded_rpc))].
(** Its write fails, it is replaced, and then its read fails too. *)
Definition stale_history (werr rerr : error) : list label :=
  [WriteTake 0 forwarded_rpc; EnvWritten 0 (Some werr); SendWrite 0;
   Serve pass_on (CmdErr 0 "a" werr) None; EnvAdd "a";
   EnvReadErr 0 rerr; SendRead 0; Serve pass_on (CmdErr 0 "a" rerr) None].

Definition client0 (buf : list Rpc) : proxyClient := mkClient "a" buf KOpen RdRead WrWait false.
Definition forward_state : proxy := mkProxy false {["a" := 0]} [client0 [forwarded_rpc]] PWait.
Definition stale_state : proxy :=
  mkProxy false ∅ [mkClient "a" [] KOpen RdExit WrExit true; client0 []] PWait.

Ltac proxy_next := eapply trace_step; [econstructor; reflexivity|].

Lemma forward_trace : trace (step cfg0) (Ret NewProxy) forward_history (Ret forward_state).
Proof. do 4 proxy_next. apply trace_refl. Qed.

Lemma stale_trace werr rerr :
  trace (step cfg0) (Ret forward_state) (stale_history werr rerr) (Ret stale_state).
Proof. do 8 proxy_next. apply trace_refl. Qed.

(** An error of a client that is long gone removes its successor.  When a
    write to a client fails, the client's id is free again and a new client can
    be added under it; the errgroup then ends the old client's read, whose error
    removes the id once more.  The new client is connected, its loops run and
    none of its operations failed, but no Rpc reaches it any more: the next Rpc
    for the id dials a new connection. *)
Theorem proxy_stale_disconnect (werr rerr : error) :
  ∃ ls s k, trace (step cfg0) (Ret NewProxy) ls (Ret s) ∧
    (∀ err, (EnvReadErr 1 err ∉ ls) ∧ (EnvWritten 1 (Some err) ∉ ls)) ∧
    p_clients s !! 1 = Some k ∧ k_id k = "a" ∧ k_connect k = KOpen ∧ k_read k = RdRead ∧
    k_write k = WrWait ∧ k_group k = false ∧ p_ctx s = false ∧
    p_ids s !! "a" = None ∧ ∀ rpc, (deliver "a" rpc s).2 = Some 2.
Proof.
  exists (forward_history ++ stale_history werr rerr), stale_state, (client0 []).
  split; [eapply trace_app; [apply forward_trace|apply stale_trace]|].
  split; [|by split_and!].
  intros err. split; intros Hin; repeat (apply elem_of_cons in Hin as [Hin|Hin]; [discriminate|]);
    by apply elem_of_nil in Hin.
Qed.

Lemma proxy_delivery_witness :
  handled 0 forward_history `prefix_of` [self_rpc] ∧
  taken 0 forward_history ++ [forwarded_rpc] = queued 0 forward_history.
Proof.
  destruct (proxy_delivery cfg0 forward_history forward_state forward_trace) as (Hh & _ & _ & Hb & _).
  split; [exact (Hh 0)|]. apply (Hb 0 (client0 [forwarded_rpc])). reflexivity.
Defined.

Lemma proxy_deliver_spec_witness :
  (deliver "a" self_rpc forward_state).2 = Some 0.
Proof.
  pose proof (proxy_deliver_spec cfg0 forward_history forward_state "a" self_rpc forward_trace) as Hd.
  destruct (deliver "a" self_rpc forward_state) as [s' to] eqn:E.
  destruct Hd as (_ & k & Hk & _ & _ & Hroom & _). vm_compute in Hk. injection Hk as <-.
  destruct Hroom as [Hto _]; [simpl; lia|exact Hto].
Defined.

Lemma proxy_panic_cause_witness :
  ∃ h' l s, [EnvAdd "a"; EnvRead 0 call_rpc; SendRead 0; Serve pass_on (CmdRpc 0 "a" call_rpc) None] =
      h' ++ [l] ∧ trace (step cfg0) (Ret NewProxy) h' (Ret s) ∧ l = Serve pass_on (CmdRpc 0 "a" call_rpc) None.
Proof.
  destruct (proj1 (proxy_panic_cause cfg0) [EnvAdd "a"; EnvRead 0 call_rpc; SendRead 0;
    Serve pass_on (CmdRpc 0 "a" call_rpc) None] "TODO: handle invalid RPC here (log and ignore?)")
    as (h' & l & s & Heq & Htr & _).
  - do 3 proxy_next. apply trace_one. eapply step_serve_panic; reflexivity.
  - exists h', l, s. split; [exact Heq|]. split; [exact Htr|].
    change [EnvAdd "a"; EnvRead 0 call_rpc; SendRead 0; Serve pass_on (CmdRpc 0 "a" call_rpc) None]
      with ([EnvAdd "a"; EnvRead 0 call_rpc; SendRead 0] ++ [Serve pass_on (CmdRpc 0 "a" call_rpc) None]) in Heq.
    apply app_inj_tail in Heq as [_ Heq]. exact (eq_sym Heq).
Defined.
End stale.
