(* ===== verification/Demux.v ===== *)
(** * demux.go: one transport for many connections

    [Run] reads the transport and hands each Rpc to the connection that [demuxOn]
    names, creating it when there is none; one goroutine per connection writes
    what the connection sends.  The channels [r] and [w] of a connection are
    unbuffered: a receive by the connection's [Read] is a joint step with [Run],
    and a send by its [Write] one with the writer goroutine.  [Cancel] closes both
    channels; a send to a closed channel panics. *)

From S2P Require Import Prelude Rpc Errors Chan.

(** ** State *)
Inductive writer_pc := WWait | WWriting (rpc : Rpc) | WExit.
Inductive run_pc :=
  | DRead                       (* in gsd.rw.Read *)
  | DRoute (rpc : Rpc)          (* wants gsd.conns *)
  | DSend (c : nat) (rpc : Rpc) (* in conn.r <- rpc *)
  | DExit.

Record demuxConn := mkDemuxConn {
  dc_id : string;
  dc_closed : bool;             (* r and w are closed *)
  dc_writer : writer_pc }.

Record demux := mkDemux {
  d_ctx : bool;                 (* gsd.ctx is done *)
  d_value : gmap string nat;    (* gsd.conns.value *)
  d_conns : list demuxConn;     (* every connection so far *)
  d_run : run_pc }.

Definition NewDemux : demux := mkDemux false ∅ [] DRead.

(** ** Operations *)
Definition set_run (p : run_pc) (s : demux) : demux :=
  mkDemux (d_ctx s) (d_value s) (d_conns s) p.
Definition set_conn (c : nat) (x : demuxConn) (s : demux) : demux :=
  mkDemux (d_ctx s) (d_value s) (<[c := x]> (d_conns s)) (d_run s).
Definition Stop (s : demux) : demux := mkDemux true (d_value s) (d_conns s) (d_run s).
Definition set_writer (p : writer_pc) (x : demuxConn) : demuxConn :=
  mkDemuxConn (dc_id x) (dc_closed x) p.
Definition close_conn (x : demuxConn) : demuxConn := mkDemuxConn (dc_id x) true (dc_writer x).

Definition newConnLocked (id : string) (s : demux) : demux :=
  mkDemux (d_ctx s) (<[id := length (d_conns s)]> (d_value s))
    (d_conns s ++ [mkDemuxConn id false WWait]) (d_run s).

(** [Cancel] *)
Definition Cancel (id : string) (s : demux) : demux :=
  match d_value s !! id with
  | Some c =>
      mkDemux (d_ctx s) (delete id (d_value s)) (alter close_conn c (d_conns s)) (d_run s)
  | None => s
  end.

(** [Run] looks the connection up, or creates it. *)
Definition route (demuxOn : Rpc → string) (rpc : Rpc) (s : demux) : demux :=
  let id := demuxOn rpc in
  match d_value s !! id with
  | Some c => set_run (DSend c rpc) s
  | None => set_run (DSend (length (d_conns s)) rpc) (newConnLocked id s)
  end.

(** ** Steps *)
Inductive label :=
  | EnvRead (rpc : Rpc)                        (* gsd.rw.Read returns *)
  | EnvReadErr (err : error)
  | EnvStop
  | EnvCancel (id : string)
  | Route
  | EnvRecv (c : nat) (rpc : Rpc)              (* the connection's Read gets an Rpc *)
  | RunClosed                                  (* Run's send to a closed channel *)
  | EnvSend (c : nat) (rpc : Rpc)              (* the connection's Write *)
  | EnvSendClosed (c : nat) (rpc : Rpc)        (* ... to a closed channel *)
  | EnvWritten (c : nat) (werr : option error) (* gsd.rw.Write returns *)
  | WriterExit (c : nat).                      (* the writer sees ctx or the closed w *)

Section steps.
Variable demuxOn : Rpc → string.

Inductive step : outcome demux → label → outcome demux → Prop :=
  | step_read s rpc :
      d_run s = DRead → step (Ret s) (EnvRead rpc) (Ret (set_run (DRoute rpc) s))
  | step_read_err s err :
      d_run s = DRead → step (Ret s) (EnvReadErr err) (Ret (set_run DExit s))
  | step_stop s : step (Ret s) EnvStop (Ret (Stop s))
  | step_cancel s id : step (Ret s) (EnvCancel id) (Ret (Cancel id s))
  | step_route s rpc : d_run s = DRoute rpc → step (Ret s) Route (Ret (route demuxOn rpc s))
  | step_recv s c x rpc :
      d_run s = DSend c rpc → d_conns s !! c = Some x → dc_closed x = false →
      step (Ret s) (EnvRecv c rpc) (Ret (set_run DRead s))
  | step_run_closed s c x rpc :
      d_run s = DSend c rpc → d_conns s !! c = Some x → dc_closed x = true →
      step (Ret s) RunClosed (Panic "send on closed channel")
  | step_send s c x rpc :
      d_conns s !! c = Some x → dc_closed x = false → dc_writer x = WWait →
      step (Ret s) (EnvSend c rpc) (Ret (set_conn c (set_writer (WWriting rpc) x) s))
  | step_send_closed s c x rpc :
      d_conns s !! c = Some x → dc_closed x = true →
      step (Ret s) (EnvSendClosed c rpc) (Panic "send on closed channel")
  | step_written s c x rpc werr :
      d_conns s !! c = Some x → dc_writer x = WWriting rpc →
      step (Ret s) (EnvWritten c werr)
        (Ret (set_conn c (set_writer (match werr with Some _ => WExit | None => WWait end) x) s))
  | step_writer_exit s c x :
      d_conns s !! c = Some x → dc_writer x = WWait → d_ctx s = true ∨ dc_closed x = true →
      step (Ret s) (WriterExit c) (Ret (set_conn c (set_writer WExit x) s)).
End steps.

(** ** Histories *)
Definition reads_of (l : label) : list Rpc := match l with EnvRead rpc => [rpc] | _ => [] end.
Definition reads (h : list label) : list Rpc := h ≫= reads_of.
Definition recvs_of (l : label) : list (nat * Rpc) :=
  match l with EnvRecv c rpc => [(c, rpc)] | _ => [] end.
(** The Rpcs that connections received, with the connection. *)
Definition recvs (h : list label) : list (nat * Rpc) := h ≫= recvs_of.
(** The Rpc that Run is working on. *)
Definition in_hand (p : run_pc) : list Rpc :=
  match p with DRoute rpc | DSend _ rpc => [rpc] | _ => [] end.

Lemma dx_reads_snoc h l : reads (h ++ [l]) = reads h ++ reads_of l.
Proof. unfold reads. by rewrite bind_app, bind_singleton. Qed.
Lemma dx_recvs_snoc h l : recvs (h ++ [l]) = recvs h ++ recvs_of l.
Proof. unfold recvs. by rewrite bind_app, bind_singleton. Qed.

(** ** Invariant *)
Section invariant.
Variable demuxOn : Rpc → string.

(** The connection [c] is the one for the Rpc. *)
Definition conn_for (s : demux) (c : nat) (rpc : Rpc) : Prop :=
  ∃ x, d_conns s !! c = Some x ∧ dc_id x = demuxOn rpc.

Record demux_inv (h : list label) (s : demux) : Prop := {
  di_value id c : d_value s !! id = Some c ↔
    ∃ x, d_conns s !! c = Some x ∧ dc_id x = id ∧ dc_closed x = false;
  di_send c rpc : d_run s = DSend c rpc → conn_for s c rpc;
  di_recvs : Forall (λ p, conn_for s p.1 p.2) (recvs h);
  di_reads : (recvs h).*2 ++ in_hand (d_run s) = reads h;
  di_closed c x : d_conns s !! c = Some x → dc_closed x = true → EnvCancel (dc_id x) ∈ h }.

Definition same_conns (s s' : demux) : Prop :=
  ∀ c x, d_conns s !! c = Some x → ∃ x', d_conns s' !! c = Some x' ∧ dc_id x' = dc_id x.

Lemma conn_for_same s s' c rpc : same_conns s s' → conn_for s c rpc → conn_for s' c rpc.
Proof.
  intros Hs (x & Hx & Hid). destruct (Hs _ _ Hx) as (x' & ? & ?). exists x'. split; congruence.
Qed.

Lemma demux_inv_init : demux_inv [] NewDemux.
Proof. split; try done. intros id c. split; [done|]. intros (x & Hx & _). by destruct c. Qed.

(** A step that moves no connection. *)
Lemma demux_inv_run h s l p :
  demux_inv h s → (∀ c rpc, p = DSend c rpc → conn_for s c rpc) →
  (∀ c rpc, l = EnvRecv c rpc → conn_for s c rpc) →
  (recvs_of l).*2 ++ in_hand p = in_hand (d_run s) ++ reads_of l →
  demux_inv (h ++ [l]) (set_run p s).
Proof.
  intros [] Hp Hl Heq. split; simpl; try done.
  - rewrite dx_recvs_snoc. apply Forall_app. split; [done|]. destruct l; try by constructor.
    apply Forall_singleton. by apply Hl.
  - by rewrite dx_recvs_snoc, dx_reads_snoc, fmap_app, <-app_assoc, Heq, app_assoc, di_reads0.
  - intros c x Hx Hc. apply elem_of_app. eauto.
Qed.

(** A step of the connection [c], whose channels stay open. *)
Lemma demux_inv_conn h s l c x p :
  demux_inv h s → d_conns s !! c = Some x → recvs_of l = [] → reads_of l = [] →
  demux_inv (h ++ [l]) (set_conn c (set_writer p x) s).
Proof.
  intros [] Hx Hrv Hrd.
  assert (Hlook : ∀ c2 x2, d_conns (set_conn c (set_writer p x) s) !! c2 = Some x2 →
    ∃ x1, d_conns s !! c2 = Some x1 ∧ dc_id x1 = dc_id x2 ∧ dc_closed x1 = dc_closed x2).
  { intros c2 x2. simpl. intros [(<- & <- & _)|[_ Hx2]]%list_lookup_insert_Some; eauto. }
  assert (Hsame : ∀ c2 x1, d_conns s !! c2 = Some x1 →
    ∃ x2, d_conns (set_conn c (set_writer p x) s) !! c2 = Some x2 ∧
      dc_id x2 = dc_id x1 ∧ dc_closed x2 = dc_closed x1).
  { intros c2 x1 Hx1. simpl. destruct (decide (c = c2)) as [<-|Hne].
    - rewrite list_lookup_insert_eq by (by eapply lookup_lt_Some). simplify_eq. eauto.
    - rewrite list_lookup_insert_ne by done. eauto. }
  assert (Hs : same_conns s (set_conn c (set_writer p x) s)).
  { intros c2 x1 Hx1. destruct (Hsame _ _ Hx1) as (x2 & ? & ? & _). eauto. }
  split; simpl.
  - intros id c2. rewrite di_value0. split.
    + intros (x1 & Hx1 & <- & <-). destruct (Hsame _ _ Hx1) as (x2 & ? & ? & ?). by exists x2.
    + intros (x2 & Hx2 & <- & <-). destruct (Hlook _ _ Hx2) as (x1 & ? & ? & ?). by exists x1.
  - intros c2 rpc Hr. eapply conn_for_same; eauto.
  - rewrite dx_recvs_snoc, Hrv, app_nil_r. eapply Forall_impl; [exact di_recvs0|].
    intros q. by apply conn_for_same.
  - by rewrite dx_recvs_snoc, dx_reads_snoc, Hrv, Hrd, !app_nil_r.
  - intros c2 x2 Hx2 Hc. apply elem_of_app. left.
    destruct (Hlook _ _ Hx2) as (x1 & Hx1 & <- & Hcl). eapply di_closed0; [exact Hx1|congruence].
Qed.

Lemma demux_inv_cancel h s id :
  demux_inv h s → demux_inv (h ++ [EnvCancel id]) (Cancel id s).
Proof.
  intros [].
  assert (Hh : recvs (h ++ [EnvCancel id]) = recvs h ∧ reads (h ++ [EnvCancel id]) = reads h)
    by (by rewrite dx_recvs_snoc, dx_reads_snoc, !app_nil_r).
  destruct Hh as [Hrv Hrd]. unfold Cancel. destruct (d_value s !! id) as [c|] eqn:E.
  2:{ split; rewrite ?Hrv, ?Hrd; try done. intros c x Hx Hc. apply elem_of_app. eauto. }
  apply di_value0 in E as (x & Hx & Hid & Hcl).
  assert (Hother : ∀ c2, c2 ≠ c → alter close_conn c (d_conns s) !! c2 = d_conns s !! c2)
    by (intros; by apply list_lookup_alter_ne).
  assert (Hc : alter close_conn c (d_conns s) !! c = Some (close_conn x))
    by (by rewrite list_lookup_alter_eq, Hx).
  assert (Hs : same_conns s (mkDemux (d_ctx s) (delete id (d_value s)) (alter close_conn c (d_conns s)) (d_run s))).
  { intros c2 x2 Hx2. simpl. destruct (decide (c2 = c)) as [->|Hne].
    - rewrite Hc. simplify_eq. by eexists.
    - rewrite Hother by done. eauto. }
  split; simpl; rewrite ?Hrv, ?Hrd.
  - intros id2 c2. rewrite lookup_delete_Some, di_value0. destruct (decide (c2 = c)) as [->|Hne].
    + rewrite Hc, Hx. split; [|by intros (? & [= <-] & _ & ?)]. intros (Hne & ? & [= <-] & ? & _). congruence.
    + rewrite Hother by done. split; [tauto|]. intros (x2 & Hx2 & <- & Hcl2). split; [|eauto].
      intros Heq. assert (d_value s !! id = Some c2) by (apply di_value0; eauto).
      assert (d_value s !! id = Some c) by (apply di_value0; eauto). congruence.
  - intros c2 rpc Hr. eapply conn_for_same; eauto.
  - eapply Forall_impl; [exact di_recvs0|]. intros q. by apply conn_for_same.
  - done.
  - intros c2 x2 Hx2 Hcl2. apply elem_of_app. destruct (decide (c2 = c)) as [->|Hne].
    + right. rewrite Hc in Hx2. injection Hx2 as <-. simpl. rewrite Hid. by apply list_elem_of_singleton.
    + rewrite Hother in Hx2 by done. eauto.
Qed.

Lemma demux_inv_route h s rpc :
  demux_inv h s → d_run s = DRoute rpc → demux_inv (h ++ [Route]) (route demuxOn rpc s).
Proof.
  intros Hinv Hr. unfold route. destruct (d_value s !! demuxOn rpc) as [c|] eqn:E.
  - apply (di_value _ _ Hinv) in E as (x & Hx & Hid & _). apply demux_inv_run; try done.
    + intros c' rpc' [= <- <-]. by exists x.
    + by rewrite Hr.
  - destruct Hinv. set (c := length (d_conns s)).
    assert (Hlook : ∀ c2 x, d_conns (newConnLocked (demuxOn rpc) s) !! c2 = Some x ↔
      d_conns s !! c2 = Some x ∨ (c2 = c ∧ x = mkDemuxConn (demuxOn rpc) false WWait)).
    { intros c2 x. simpl. rewrite lookup_snoc_Some. subst c. split.
      - intros [[_ ?]|[<- <-]]; auto.
      - intros [Hx|[-> ->]]; [left; split; [by eapply lookup_lt_Some|done]|auto]. }
    assert (Hs : same_conns s (set_run (DSend c rpc) (newConnLocked (demuxOn rpc) s))).
    { intros c2 x2 Hx2. exists x2. simpl. split; [|done]. apply Hlook. auto. }
    split.
    + intros id c2. simpl. setoid_rewrite Hlook. rewrite lookup_insert_Some, di_value0. split.
      * intros [[<- <-]|[Hne (x & ? & ? & ?)]]; [|by eauto]. eexists. split; [by right|done].
      * intros (x & [Hx|[-> ->]] & Hid & Hcl); [right|by left]. split; [|by eauto].
        intros Heq. assert (d_value s !! demuxOn rpc = Some c2) by (apply di_value0; exists x; split_and!; congruence).
        congruence.
    + intros c2 rpc2 [= <- <-]. eexists. split; [apply Hlook; by right|done].
    + rewrite dx_recvs_snoc, app_nil_r. eapply Forall_impl; [exact di_recvs0|].
      intros q. by apply conn_for_same.
    + rewrite dx_recvs_snoc, dx_reads_snoc, !app_nil_r. by rewrite Hr in di_reads0.
    + intros c2 x [Hx|[-> ->]]%Hlook Hcl; [|done]. apply elem_of_app. eauto.
Qed.

Lemma demux_inv_step h s l s' :
  demux_inv h s → step demuxOn (Ret s) l (Ret s') → demux_inv (h ++ [l]) s'.
Proof.
  intros Hinv Hst. inversion Hst; subst; clear Hst;
    try (by eapply demux_inv_conn || by apply demux_inv_cancel || by apply demux_inv_route).
  - apply demux_inv_run; try done. simpl. by match goal with Hr : d_run s = _ |- _ => rewrite Hr end.
  - apply demux_inv_run; try done. simpl. by match goal with Hr : d_run s = _ |- _ => rewrite Hr end.
  - destruct Hinv. split; simpl; rewrite ?dx_recvs_snoc, ?dx_reads_snoc, ?app_nil_r; try done.
    intros c x Hx Hc. apply elem_of_app. eauto.
  - apply demux_inv_run; try done.
    + intros c' rpc' [= <- <-]. by apply (di_send _ _ Hinv).
    + simpl. by match goal with Hr : d_run s = _ |- _ => rewrite Hr end.
Qed.

Abbreviation steps := (trace (step demuxOn)).

Lemma demux_inv_trace h s : steps (Ret NewDemux) h (Ret s) → demux_inv h s.
Proof.
  intros Htr.
  refine (trace_history_invariant (step demuxOn)
    (λ h o, match o with Ret s => demux_inv h s | Panic _ => True end)
    _ [] (Ret NewDemux) h (Ret s) demux_inv_init Htr).
  intros h1 [s1|] l [s2|] Hinv Hst; try done; [by eapply demux_inv_step|inversion Hst].
Qed.

(** ** Guarantees *)

(** C31: the demultiplexer loses, duplicates and reorders nothing: the Rpcs that
    its connections received, taken together in the order in which they received
    them, followed by the one that [Run] holds, are those read from the transport.
    Each went to a connection for the id that [demuxOn] gives it, and at every
    moment the open connections are those of the map, one for each id. *)
Theorem demux_routing h s :
  steps (Ret NewDemux) h (Ret s) →
  (recvs h).*2 ++ in_hand (d_run s) = reads h ∧
  Forall (λ p, ∃ x, d_conns s !! p.1 = Some x ∧ dc_id x = demuxOn p.2) (recvs h) ∧
  (∀ id c, d_value s !! id = Some c ↔
     ∃ x, d_conns s !! c = Some x ∧ dc_id x = id ∧ dc_closed x = false).
Proof. by intros []%demux_inv_trace. Qed.

(** A demultiplexer panics only after [Cancel] has closed a connection: the
    send that panics is one to, or by, a connection whose id was cancelled. *)
Theorem demux_panic_cause h msg :
  steps (Ret NewDemux) h (Panic msg) →
  msg = "send on closed channel" ∧
  ∃ h' s c x, steps (Ret NewDemux) h' (Ret s) ∧ d_conns s !! c = Some x ∧
    EnvCancel (dc_id x) ∈ h' ∧
    ((∃ rpc, h = h' ++ [RunClosed] ∧ d_run s = DSend c rpc) ∨ (∃ rpc, h = h' ++ [EnvSendClosed c rpc])).
Proof.
  destruct h as [|l h _] using rev_ind; intros Htr; [inversion Htr|].
  apply trace_snoc_inv in Htr as (o & Htr & Hst).
  inversion Hst; subst; (split; [done|]); exists h, s, c, x;
    (split; [done|]; split; [done|]; split; [by eapply di_closed; [apply demux_inv_trace|..]|eauto]).
Qed.

(** A connection that does not read stops the whole demultiplexer, even after
    [Stop].  Once [Run] holds an Rpc for a connection, it reads nothing more from
    the transport until that connection reads; [Cancel] does not unblock it but
    makes its send panic. *)
Theorem demux_blocks h s c rpc h' o :
  steps (Ret NewDemux) h (Ret s) → d_run s = DSend c rpc →
  steps (Ret s) h' o → EnvRecv c rpc ∉ h' →
  reads h' = [] ∧ recvs h' = [] ∧ (∀ s', o = Ret s' → d_run s' = DSend c rpc) ∧
  (∀ s' x, o = Ret s' → d_conns s' !! c = Some x → dc_closed x = true →
     step demuxOn (Ret s') RunClosed (Panic "send on closed channel")).
Proof.
  intros _ Hr Htr Hno.
  assert (Hmain : reads h' = [] ∧ recvs h' = [] ∧ ∀ s', o = Ret s' → d_run s' = DSend c rpc).
  2:{ destruct Hmain as (? & ? & Hrun). split_and!; try done. intros s' x -> Hx Hc.
      by eapply step_run_closed; [apply Hrun|..]. }
  remember (Ret s) as o1 eqn:Ho1. revert s Ho1 Hr.
  induction Htr as [o|o1 l o2 ls o3 Hst Htr IH]; intros s -> Hr; [by split_and!; [..|intros ? [= <-]]|].
  apply not_elem_of_cons in Hno as [Hne Hno].
  assert (Hstep : reads_of l = [] ∧ recvs_of l = [] ∧ ∀ s', o2 = Ret s' → d_run s' = DSend c rpc).
  { inversion Hst; subst; try congruence; split_and!; try done; try (by intros s' [= <-]).
    intros s' [= <-]. unfold Cancel. by destruct (d_value s !! id). }
  destruct Hstep as (Hrd & Hrv & Hrun). unfold reads, recvs. rewrite !bind_cons, Hrd, Hrv.
  destruct o2 as [s2|msg]; [by apply (IH Hno s2); [|apply Hrun]|].
  inversion Htr; subst; [done|]. match goal with Hb : step _ (Panic _) _ _ |- _ => inversion Hb end.
Qed.
End invariant.

Section witnesses.
Definition on_source (rpc : Rpc) : string := GetSource (GetHeader (Some rpc)).
Definition rpc_from (src : string) : Rpc :=
  mkRpc 1 (Some (mkRequestHeader "/pkg.Svc/Echo" [] src "srv" [] None)) None None None None.
Definition two_clients : list label :=
  [EnvRead (rpc_from "a"); Route; EnvRecv 0 (rpc_from "a"); EnvRead (rpc_from "b"); Route].
Definition two_clients_state : demux :=
  mkDemux false {["b" := 1; "a" := 0]} [mkDemuxConn "a" false WWait; mkDemuxConn "b" false WWait]
    (DSend 1 (rpc_from "b")).

Lemma two_clients_trace :
  trace (step on_source) (Ret NewDemux) two_clients (Ret two_clients_state).
Proof. do 5 (eapply trace_step; [econstructor; reflexivity|]). apply trace_refl. Qed.

Lemma demux_routing_witness :
  [rpc_from "a"] ++ [rpc_from "b"] = reads two_clients ∧
  d_value two_clients_state !! "a" = Some 0.
Proof.
  destruct (demux_routing on_source _ _ two_clients_trace) as (Hr & _ & Hv).
  split; [exact Hr|]. apply Hv. eexists. split; [reflexivity|]. split; reflexivity.
Defined.

Lemma demux_panic_cause_witness :
  ∃ h' (x : demuxConn), EnvCancel (dc_id x) ∈ h' ∧
    (two_clients ++ [EnvCancel "b"; RunClosed] = h' ++ [RunClosed] ∨
     ∃ c rpc, two_clients ++ [EnvCancel "b"; RunClosed] = h' ++ [EnvSendClosed c rpc]).
Proof.
  destruct (demux_panic_cause on_source (two_clients ++ [EnvCancel "b"; RunClosed])
    "send on closed channel") as (_ & h' & s & c & x & _ & _ & Hc & Hcase).
  - eapply trace_app; [apply two_clients_trace|]. eapply trace_step; [apply step_cancel|].
    apply trace_one. eapply step_run_closed; reflexivity.
  - exists h', x. split; [exact Hc|]. destruct Hcase as [(rpc & Hh & _)|(rpc & Hh)]; eauto.
Defined.

Lemma demux_blocks_witness :
  reads [EnvStop] = [] ∧ d_run (Stop two_clients_state) = DSend 1 (rpc_from "b").
Proof.
  destruct (demux_blocks on_source two_clients two_clients_state 1 (rpc_from "b") [EnvStop]
    (Ret (Stop two_clients_state)) two_clients_trace) as (Hr & _ & Hrun & _); [reflexivity|..].
  - apply trace_one, step_stop.
  - intros Hin. apply list_elem_of_singleton in Hin. discriminate.
  - split; [exact Hr|]. by apply Hrun.
Defined.
End witnesses.
