(* ===== verification/Http.v ===== *)
(** * http.go: connections over HTTP requests

    A [GoatOverHttp] keeps one [httpReadWriter] per address.  An incoming request
    carries one Rpc, which [ServeHTTP] sends to the connection of its source,
    blocking until the connection reads it; outgoing Rpcs are requests of their
    own.  A cleaner closes the connections without recent activity.  protobuf
    decoding and the mapping of sources to addresses are parameters.

    The pending requests are the calls of [ServeHTTP] that are blocked in their
    send.  A send to a closed channel panics; net/http recovers a panic of a
    handler, so that only this request is lost.  A receive and the update of the
    activity that follows it are one step. *)

From Stdlib Require Import ZArith Floats.SpecFloat.
From S2P Require Import Prelude Rpc Errors.

(** ** State *)
Record httpReadWriter := mkHttpReadWriter {
  w_writeAddr : string;
  w_closed : bool;              (* readCh is closed *)
  w_lastActivity : Z }.         (* Unix seconds; 0 until the first Read or Write *)

Record GoatOverHttp := mkGoatOverHttp {
  o_ctx : bool;                 (* goh.ctx is done *)
  o_value : gmap string nat;    (* goh.conns.value *)
  o_cleaner : bool;             (* connectionCleaner has returned *)
  o_conns : list httpReadWriter; (* every connection so far *)
  o_pending : list (nat * Rpc) }.

(** The fields set by the options, durations in nanoseconds. *)
Record http_config := mkHttpConfig {
  hc_connectionCleanupInterval : Z;
  hc_connectionTimeout : Z }.
Inductive GoatOverHttpOption :=
  | WithConnectionCleanupInterval (i : Z)
  | WithConnectionTimeout (t : Z).
Definition apply_http_option (o : GoatOverHttpOption) (c : http_config) : http_config :=
  match o with
  | WithConnectionCleanupInterval i => mkHttpConfig i (hc_connectionTimeout c)
  | WithConnectionTimeout t => mkHttpConfig (hc_connectionCleanupInterval c) t
  end.
Definition time_Minute : Z := 60000000000.
Definition http_config_of (opts : list GoatOverHttpOption) : http_config :=
  foldl (λ c o, apply_http_option o c) (mkHttpConfig (1 * time_Minute) (4 * time_Minute)) opts.
Definition NewGoatOverHttp : GoatOverHttp := mkGoatOverHttp false ∅ false [] [].

(** float64 is IEEE 754 binary64: 53 bits of mantissa, exponents below 1024.
    [int64_of] truncates towards zero; a duration is far from its limits. *)
Definition float64_of (z : Z) : spec_float := binary_normalize 53 1024 z 0 false.
Definition int64_of (f : spec_float) : Z :=
  match f with
  | S754_finite s m e => cond_Zopp s (Z.shiftl (Z.pos m) e)
  | _ => 0
  end.
(** time.Duration's Seconds: the whole seconds and the nanoseconds, added as
    float64. *)
Definition Seconds (d : Z) : spec_float :=
  SFadd 53 1024 (float64_of (Z.quot d 1000000000))
    (SFdiv 53 1024 (float64_of (Z.rem d 1000000000)) (float64_of 1000000000)).
(** int64(timeout.Seconds()). *)
Definition timeout_seconds (c : http_config) : Z := int64_of (Seconds (hc_connectionTimeout c)).

(** Whole seconds are exact and parts of seconds are cut off, unless the sum is
    rounded up: after some 272 years. *)
Lemma timeout_seconds_ex :
  int64_of (Seconds (4 * time_Minute)) = 240%Z ∧ int64_of (Seconds 1999999999) = 1%Z ∧
  int64_of (Seconds (-1500000000)) = (-1)%Z ∧ int64_of (Seconds 8589934591999999999) = 8589934592%Z.
Proof. by vm_compute. Qed.

(** ** Operations *)
Definition set_activity (now : Z) (x : httpReadWriter) : httpReadWriter :=
  mkHttpReadWriter (w_writeAddr x) (w_closed x) now.
Definition close_readCh (x : httpReadWriter) : httpReadWriter :=
  mkHttpReadWriter (w_writeAddr x) true (w_lastActivity x).
Definition set_conns (l : list httpReadWriter) (s : GoatOverHttp) : GoatOverHttp :=
  mkGoatOverHttp (o_ctx s) (o_value s) (o_cleaner s) l (o_pending s).
Definition set_pending (l : list (nat * Rpc)) (s : GoatOverHttp) : GoatOverHttp :=
  mkGoatOverHttp (o_ctx s) (o_value s) (o_cleaner s) (o_conns s) l.
Definition Cancel (s : GoatOverHttp) : GoatOverHttp :=
  mkGoatOverHttp true (o_value s) (o_cleaner s) (o_conns s) (o_pending s).

(** [retrieve]: the connection of an address, and whether it is new. *)
Definition retrieve (id : string) (s : GoatOverHttp) : nat * bool * GoatOverHttp :=
  match o_value s !! id with
  | Some c => (c, false, s)
  | None =>
      (length (o_conns s), true,
       mkGoatOverHttp (o_ctx s) (<[id := length (o_conns s)]> (o_value s)) (o_cleaner s)
         (o_conns s ++ [mkHttpReadWriter id false 0]) (o_pending s))
  end.

Definition unregisterLocked (id : string) (s : GoatOverHttp) : GoatOverHttp :=
  mkGoatOverHttp (o_ctx s) (delete id (o_value s)) (o_cleaner s)
    (match o_value s !! id with
     | Some c => alter close_readCh c (o_conns s)
     | None => o_conns s
     end) (o_pending s).

(** The body of the cleaner's loop. *)
Definition clean_conn (cfg : http_config) (now : Z) (c : nat) (s : GoatOverHttp) : GoatOverHttp :=
  match o_conns s !! c with
  | Some x =>
      if bool_decide (timeout_seconds cfg ≤ now - w_lastActivity x)%Z
      then unregisterLocked (w_writeAddr x) s else s
  | None => s
  end.
(** One tick of [connectionCleaner], which iterates over the map. *)
Definition connectionCleaner (cfg : http_config) (now : Z) (s : GoatOverHttp) : GoatOverHttp :=
  map_fold (λ _ c s, clean_conn cfg now c s) s (o_value s).

(** ** ServeHTTP *)
Section serve.
Variable unmarshal : list Byte.byte → result Rpc.
Variable sourceToAddress : string → result string.

(** A request's body: nil, unreadable, or its bytes.  The result is the text of
    the error answered with status 400, or the Rpc and its source's address. *)
Definition serve_request (body : option (result (list Byte.byte))) : string + (string * Rpc) :=
  match body with
  | None => inl "missing body"
  | Some (Err _) => inl "body read"
  | Some (Ok data) =>
      match unmarshal data with
      | Err _ => inl "proto decode"
      | Ok rpc =>
          if bool_decide (GetSource (GetHeader (Some rpc)) = "") then inl "missing header/source"
          else
            match sourceToAddress (GetSource (GetHeader (Some rpc))) with
            | Err _ => inl "failed to map source"
            | Ok source => inr (source, rpc)
            end
      end
  end.

(** ** Steps *)
Inductive label :=
  | EnvRequest (source : string) (rpc : Rpc) (c : nat) (new : bool)
      (* ServeHTTP accepts an Rpc; [new]: onConnect is called for connection [c] *)
  | EnvBadRequest (text : string)              (* status 400 *)
  | EnvNewConnection (destination : string) (c : nat)
  | EnvRead (c : nat) (rpc : Rpc) (now : Z)    (* the connection's Read takes an Rpc *)
  | RequestPanics (c : nat) (rpc : Rpc)        (* a send to a closed readCh *)
  | EnvWrite (c : nat) (now : Z) (failed : bool) (* Write; [failed]: the request failed *)
  | EnvTick (now : Z)
  | CleanerExit
  | EnvCancel.

Variable cfg : http_config.

Inductive step : GoatOverHttp → label → GoatOverHttp → Prop :=
  | step_request s body source rpc c new s' :
      serve_request body = inr (source, rpc) → retrieve source s = (c, new, s') →
      step s (EnvRequest source rpc c new) (set_pending (o_pending s' ++ [(c, rpc)]) s')
  | step_bad_request s body text :
      serve_request body = inl text → step s (EnvBadRequest text) s
  | step_new_connection s destination c new s' :
      retrieve destination s = (c, new, s') → step s (EnvNewConnection destination c) s'
  | step_read s c x rpc now l1 l2 :
      o_pending s = l1 ++ (c, rpc) :: l2 → o_conns s !! c = Some x → w_closed x = false →
      step s (EnvRead c rpc now)
        (set_pending (l1 ++ l2) (set_conns (<[c := set_activity now x]> (o_conns s)) s))
  | step_request_panics s c x rpc l1 l2 :
      o_pending s = l1 ++ (c, rpc) :: l2 → o_conns s !! c = Some x → w_closed x = true →
      step s (RequestPanics c rpc) (set_pending (l1 ++ l2) s)
  | step_write s c x now (failed : bool) :
      o_conns s !! c = Some x →
      step s (EnvWrite c now failed)
        (let s := set_conns (<[c := set_activity now x]> (o_conns s)) s in
         if failed then unregisterLocked (w_writeAddr x) s else s)
  | step_tick s now : o_cleaner s = false → step s (EnvTick now) (connectionCleaner cfg now s)
  | step_cleaner_exit s :
      o_ctx s = true →
      step s CleanerExit (mkGoatOverHttp true (o_value s) true (o_conns s) (o_pending s))
  | step_cancel s : step s EnvCancel (Cancel s).
End serve.

(** ** Histories *)
Definition accepted_of (l : label) : list (nat * Rpc) :=
  match l with EnvRequest _ rpc c _ => [(c, rpc)] | _ => [] end.
(** The Rpcs of accepted requests, with the connection they are for. *)
Definition accepted (h : list label) : list (nat * Rpc) := h ≫= accepted_of.
Definition recvs_of (l : label) : list (nat * Rpc) :=
  match l with EnvRead c rpc _ => [(c, rpc)] | _ => [] end.
Definition recvs (h : list label) : list (nat * Rpc) := h ≫= recvs_of.
Definition lost_of (l : label) : list (nat * Rpc) :=
  match l with RequestPanics c rpc => [(c, rpc)] | _ => [] end.
Definition lost (h : list label) : list (nat * Rpc) := h ≫= lost_of.
Definition announced_of (l : label) : list nat :=
  match l with EnvRequest _ _ c true => [c] | _ => [] end.
(** The connections given to onConnect. *)
Definition announced (h : list label) : list nat := h ≫= announced_of.

Lemma bind_snoc {A B} (f : A → list B) h l : (h ++ [l]) ≫= f = (h ≫= f) ++ f l.
Proof. by rewrite bind_app, bind_singleton. Qed.

(** ** Invariant *)
Section invariant.
Variable unmarshal : list Byte.byte → result Rpc.
Variable sourceToAddress : string → result string.
Variable cfg : http_config.

(** The connection [c] is the one for the Rpc's source. *)
Definition conn_for (s : GoatOverHttp) (p : nat * Rpc) : Prop :=
  ∃ x, o_conns s !! p.1 = Some x ∧
    sourceToAddress (GetSource (GetHeader (Some p.2))) = Ok (w_writeAddr x).

(** The map holds the open connections, each under its address. *)
Definition registered_open (s : GoatOverHttp) : Prop :=
  ∀ id c, o_value s !! id = Some c ↔
    ∃ x, o_conns s !! c = Some x ∧ w_writeAddr x = id ∧ w_closed x = false.

Record http_inv (h : list label) (s : GoatOverHttp) : Prop := {
  hi_value : registered_open s;
  hi_accepted : Forall (conn_for s) (accepted h);
  hi_split : accepted h ≡ₚ recvs h ++ o_pending s ++ lost h;
  hi_lost : Forall (λ p, ∃ x, o_conns s !! p.1 = Some x ∧ w_closed x = true) (lost h);
  hi_announced : NoDup (announced h) ∧ ∀ c, c ∈ announced h → c < length (o_conns s) }.

(** Connections stay, under their addresses, and closed ones stay closed. *)
Definition evolves (s s' : GoatOverHttp) : Prop :=
  ∀ c x, o_conns s !! c = Some x → ∃ x', o_conns s' !! c = Some x' ∧
    w_writeAddr x' = w_writeAddr x ∧ (w_closed x = true → w_closed x' = true).

Lemma conn_for_evolves s s' p : evolves s s' → conn_for s p → conn_for s' p.
Proof.
  intros Hev (x & Hx & Hs). destruct (Hev _ _ Hx) as (x' & Hx' & Ha & _).
  exists x'. by rewrite Ha.
Qed.

(** ** The cleaner *)
Definition expired (now : Z) (x : httpReadWriter) : bool :=
  bool_decide (timeout_seconds cfg ≤ now - w_lastActivity x)%Z.

(** The state [r] after the cleaner has visited the entries [m] of the map. *)
Record cleaned (now : Z) (s : GoatOverHttp) (m : gmap string nat) (r : GoatOverHttp) : Prop := {
  cl_value id c : o_value r !! id = Some c ↔
    o_value s !! id = Some c ∧
    ∀ x, o_conns s !! c = Some x → m !! id = Some c → expired now x = false;
  cl_conns c x : o_conns s !! c = Some x →
    o_conns r !! c = Some (if expired now x && bool_decide (m !! w_writeAddr x = Some c)
                           then close_readCh x else x);
  cl_len : length (o_conns r) = length (o_conns s);
  cl_rest : o_ctx r = o_ctx s ∧ o_cleaner r = o_cleaner s ∧ o_pending r = o_pending s }.

Lemma cleaned_step now s m id c r :
  registered_open s → m !! id = None → o_value s !! id = Some c → m ⊆ o_value s →
  cleaned now s m r → cleaned now s (<[id := c]> m) (clean_conn cfg now c r).
Proof.
  intros Hreg Hm Hid Hsub [].
  destruct (proj1 (Hreg id c) Hid) as (x & Hx & Ha & Hcl).
  assert (Hrx : o_conns r !! c = Some x).
  { rewrite (cl_conns0 _ _ Hx), Ha, Hm. by rewrite andb_false_r. }
  assert (Hrid : o_value r !! id = Some c) by (apply cl_value0; split; [done|congruence]).
  assert (Hm' : ∀ id2 c2, <[id := c]> m !! id2 = Some c2 ↔ (id2 = id ∧ c2 = c) ∨ m !! id2 = Some c2).
  { intros id2 c2. rewrite lookup_insert_Some. split; [intros [[<- <-]|[_ ?]]; auto|].
    intros [[-> ->]|Hm2]; [auto|]. right. split; [congruence|done]. }
  unfold clean_conn. rewrite Hrx. fold (expired now x). destruct (expired now x) eqn:Hexp.
  - rewrite Ha. unfold unregisterLocked. rewrite Hrid. split; simpl; [| | |done].
    + intros id2 c2. rewrite lookup_delete_Some, cl_value0. split.
      * intros (Hne & Hv & Hall). split; [done|]. intros x2 Hx2 [[-> _]|Hm2]%Hm'; [done|eauto].
      * intros [Hv Hall]. split_and!; [|done|].
        -- intros <-. rewrite Hid in Hv. injection Hv as <-.
           assert (expired now x = false) by (apply Hall; [done|]; apply Hm'; auto). congruence.
        -- intros x2 Hx2 Hm2. apply Hall; [done|]. apply Hm'. auto.
    + intros c2 x2 Hx2. destruct (decide (c2 = c)) as [->|Hne].
      * rewrite list_lookup_alter_eq, Hrx. simpl. simplify_eq.
        rewrite Hexp, bool_decide_true; [done|]. apply Hm'. auto.
      * rewrite list_lookup_alter_ne, (cl_conns0 _ _ Hx2) by done.
        assert (m !! w_writeAddr x2 = Some c2 ↔ <[id := c]> m !! w_writeAddr x2 = Some c2) as Hiff
          by (rewrite Hm'; split; [auto|]; intros [[_ ->]|?]; done).
        by rewrite (bool_decide_ext _ _ Hiff).
    + by rewrite length_alter.
  - split; [| |done|done].
    + intros id2 c2. rewrite cl_value0. split; intros [Hv Hall]; (split; [done|]); intros x2 Hx2 Hm2.
      * apply Hm' in Hm2 as [[-> ->]|Hm2]; [congruence|eauto].
      * apply Hall; [done|]. apply Hm'. auto.
    + intros c2 x2 Hx2. rewrite (cl_conns0 _ _ Hx2). destruct (expired now x2) eqn:Hexp2; [|done].
      assert (m !! w_writeAddr x2 = Some c2 ↔ <[id := c]> m !! w_writeAddr x2 = Some c2) as Hiff.
      { rewrite Hm'. split; [auto|]. intros [[_ ->]|?]; [congruence|done]. }
      by rewrite (bool_decide_ext _ _ Hiff).
Qed.

Lemma connectionCleaner_cleaned now s :
  registered_open s → cleaned now s (o_value s) (connectionCleaner cfg now s).
Proof.
  intros Hreg. unfold connectionCleaner.
  refine (map_fold_weak_ind (λ r m, m ⊆ o_value s → cleaned now s m r) _ s _ _ (o_value s) (reflexivity _)).
  - intros _. split; [|intros; by rewrite lookup_empty, andb_false_r|done|done].
    intros id c. rewrite lookup_empty. split; [by intros Hv|tauto].
  - intros id c m r Hm IH Hsub. 
    assert (Hid : o_value s !! id = Some c)
      by (eapply lookup_weaken; [apply lookup_insert_eq|done]).
    assert (Hs2 : m ⊆ o_value s) by (etrans; [by apply insert_subseteq|exact Hsub]).
    apply cleaned_step; auto.
Qed.

(** ** Every operation keeps the map and the connections in step *)
Definition keeps (s s' : GoatOverHttp) : Prop :=
  evolves s s' ∧ registered_open s' ∧ length (o_conns s) ≤ length (o_conns s').

Lemma keeps_refl s : registered_open s → keeps s s.
Proof. intros Hreg. split_and!; [|done|done]. intros c x Hx. by exists x. Qed.

Lemma keeps_trans s1 s2 s3 : keeps s1 s2 → keeps s2 s3 → keeps s1 s3.
Proof.
  intros (He1 & _ & Hl1) (He2 & Hr & Hl2). split_and!; [|done|lia]. intros c x Hx.
  destruct (He1 _ _ Hx) as (x2 & Hx2 & Ha2 & Hc2), (He2 _ _ Hx2) as (x3 & Hx3 & Ha3 & Hc3).
  exists x3. split_and!; [done|congruence|auto].
Qed.

Lemma keeps_activity s c x now :
  registered_open s → o_conns s !! c = Some x →
  keeps s (set_conns (<[c := set_activity now x]> (o_conns s)) s).
Proof.
  intros Hreg Hx. assert (Hlt : c < length (o_conns s)) by (by eapply lookup_lt_Some).
  split_and!; [| |simpl; by rewrite length_insert].
  - intros c2 x2 Hx2. simpl. destruct (decide (c = c2)) as [<-|Hne].
    + rewrite list_lookup_insert_eq by done. simplify_eq. by eexists.
    + rewrite list_lookup_insert_ne by done. eauto.
  - intros id c2. simpl. rewrite (Hreg _ _). destruct (decide (c = c2)) as [<-|Hne].
    + rewrite list_lookup_insert_eq, Hx by done. split; intros (y & [= <-] & ?); by eexists.
    + by rewrite list_lookup_insert_ne.
Qed.

Lemma keeps_unregister s id : registered_open s → keeps s (unregisterLocked id s).
Proof.
  intros Hreg. unfold unregisterLocked. destruct (o_value s !! id) as [c|] eqn:E.
  - destruct (proj1 (Hreg id c) E) as (x & Hx & Ha & Hcl). split_and!; simpl.
    + intros c2 x2 Hx2. simpl. destruct (decide (c2 = c)) as [->|Hne].
      * rewrite list_lookup_alter_eq, Hx2. by eexists.
      * rewrite list_lookup_alter_ne by done. eauto.
    + intros id2 c2. simpl. rewrite lookup_delete_Some, (Hreg _ _). destruct (decide (c2 = c)) as [->|Hne].
      * rewrite list_lookup_alter_eq, Hx. simpl. split; [intros (? & ? & [= <-] & ? & _); congruence|].
        by intros (? & [= <-] & _ & ?).
      * rewrite list_lookup_alter_ne by done. split; [tauto|]. intros (x2 & Hx2 & <- & Hc2).
        split; [|eauto]. intros Heq. assert (o_value s !! id = Some c2) by (rewrite Heq; apply Hreg; eauto).
        congruence.
    + by rewrite length_alter.
  - split_and!; simpl; [intros c x Hx; by exists x| |done].
    intros id2 c2. simpl. rewrite lookup_delete_Some, (Hreg _ _). split; [tauto|].
    intros (x & Hx & <- & Hcl). split; [|eauto]. intros Heq.
    assert (o_value s !! id = Some c2) by (rewrite Heq; apply Hreg; eauto). congruence.
Qed.

Lemma keeps_clean now s : registered_open s → keeps s (connectionCleaner cfg now s).
Proof.
  intros Hreg. destruct (connectionCleaner_cleaned now s Hreg) as [Hv Hc Hl _].
  split_and!; [| |by rewrite Hl].
  - intros c x Hx. rewrite (Hc _ _ Hx). eexists. split; [done|]. by destruct (_ && _).
  - intros id c. rewrite Hv, (Hreg _ _). split.
    + intros [(x & Hx & <- & Hcl) Hall]. exists x. rewrite (Hc _ _ Hx).
      rewrite (Hall x); [done|done|]. apply Hreg. eauto.
    + intros (y & Hy & Ha & Hcl). destruct (o_conns s !! c) as [x|] eqn:Hx.
      * rewrite (Hc _ _ Hx) in Hy. injection Hy as <-.
        destruct (expired now x) eqn:Hexp; simpl in *.
        -- case_bool_decide as Hm; [done|]. destruct Hm. apply Hreg. eauto.
        -- split; [eauto|]. intros x2 Hx2 _. congruence.
      * apply lookup_ge_None in Hx. apply lookup_lt_Some in Hy. lia.
Qed.

Lemma keeps_retrieve s id c new s' :
  registered_open s → retrieve id s = (c, new, s') →
  keeps s s' ∧ o_pending s' = o_pending s ∧
  (∃ x, o_conns s' !! c = Some x ∧ w_writeAddr x = id ∧ w_closed x = false) ∧
  (new = true → c = length (o_conns s) ∧ c < length (o_conns s')).
Proof.
  intros Hreg. unfold retrieve. destruct (o_value s !! id) as [c0|] eqn:E; intros [= <- <- <-].
  - split_and!; [by apply keeps_refl|done|by apply Hreg|done].
  - set (x0 := mkHttpReadWriter id false 0).
    assert (Hnew : (o_conns s ++ [x0]) !! length (o_conns s) = Some x0) by (by rewrite list_lookup_middle).
    unfold keeps. split_and!; simpl.
    + intros c x Hx. exists x. simpl. split; [by apply lookup_app_l_Some|done].
    + intros id2 c2. simpl. rewrite lookup_insert_Some, (Hreg _ _). split.
      * intros [[<- <-]|[_ (x & Hx & ? & ?)]]; [by exists x0|]. exists x.
        split; [by apply lookup_app_l_Some|done].
      * intros (x & [[_ Hx]|[<- <-]]%lookup_snoc_Some & <- & Hc); [|by left].
        right. split; [|by eauto]. intros Heq.
        assert (o_value s !! id = Some c2) by (rewrite Heq; apply Hreg; eauto). congruence.
    + rewrite length_app. lia.
    + done.
    + by exists x0.
    + intros _. rewrite length_app. simpl. lia.
Qed.

(** ** The invariant is preserved *)
Abbreviation stp := (step unmarshal sourceToAddress cfg).

Lemma http_inv_init : http_inv [] NewGoatOverHttp.
Proof.
  split; try done; [|by split; [constructor|intros c []%elem_of_nil]].
  intros id c. split; [done|]. intros (x & Hx & _). by destruct c.
Qed.

(** What a step does to the pending requests and the histories. *)
Lemma http_inv_keeps h s l s' :
  http_inv h s → keeps s s' →
  accepted_of l ++ o_pending s ≡ₚ recvs_of l ++ o_pending s' ++ lost_of l →
  Forall (conn_for s') (accepted_of l) →
  Forall (λ p, ∃ x, o_conns s' !! p.1 = Some x ∧ w_closed x = true) (lost_of l) →
  (∀ c, announced_of l = [c] → c = length (o_conns s) ∧ c < length (o_conns s')) →
  http_inv (h ++ [l]) s'.
Proof.
  intros [] (Hev & Hreg & Hlen) Hperm Hacc Hlost Hann.
  split; [done|..]; unfold accepted, recvs, lost, announced; rewrite ?bind_snoc.
  - apply Forall_app. split; [|done]. eapply Forall_impl; [exact hi_accepted0|].
    intros p. by apply conn_for_evolves.
  - fold (accepted h) (recvs h) (lost h). rewrite hi_split0.
    trans (recvs h ++ (accepted_of l ++ o_pending s) ++ lost h); [by solve_Permutation|].
    rewrite Hperm. by solve_Permutation.
  - apply Forall_app. split; [|done]. eapply Forall_impl; [exact hi_lost0|].
    intros p (x & Hx & Hc). destruct (Hev _ _ Hx) as (x' & ? & _ & ?). eauto.
  - destruct hi_announced0 as [Hnd Hlt].
    assert (Hcase : announced_of l = [] ∨ ∃ c, announced_of l = [c])
      by (destruct l as [? ? c []| | | | | | | |]; eauto).
    destruct Hcase as [->|[c Hc]].
    + rewrite app_nil_r. split; [done|]. intros c Hc. apply Hlt in Hc. lia.
    + rewrite Hc. destruct (Hann _ Hc) as [-> Hl]. split.
      * apply NoDup_app. split_and!; [done| |by apply NoDup_singleton].
        intros c Hin ->%list_elem_of_singleton. apply Hlt in Hin. lia.
      * intros c [Hin| ->%list_elem_of_singleton]%elem_of_app; [apply Hlt in Hin|]; lia.
Qed.

Lemma http_inv_silent h s l s' :
  http_inv h s → keeps s s' → o_pending s' = o_pending s →
  accepted_of l = [] → recvs_of l = [] → lost_of l = [] → announced_of l = [] →
  http_inv (h ++ [l]) s'.
Proof.
  intros Hinv Hk Hp Ha Hr Hl Hn.
  eapply http_inv_keeps; eauto; rewrite ?Ha, ?Hr, ?Hl, ?Hn, ?Hp; simpl;
    [by rewrite app_nil_r|done|done|done].
Qed.

Lemma serve_request_source body source rpc :
  serve_request unmarshal sourceToAddress body = inr (source, rpc) →
  sourceToAddress (GetSource (GetHeader (Some rpc))) = Ok source.
Proof. unfold serve_request. intros Hs. repeat case_match; simplify_eq; done. Qed.

Lemma keeps_pending s s' l : keeps s s' → keeps s (set_pending l s').
Proof. intros (? & ? & ?). by split_and!. Qed.

Lemma http_inv_step h s l s' : http_inv h s → stp s l s' → http_inv (h ++ [l]) s'.
Proof.
  intros Hinv Hst. pose proof (hi_value _ _ Hinv) as Hreg.
  inversion Hst as [? body source rpc c new s1 Hreq Hret| |? dest c new s1 Hret|
    ? c x rpc now l1 l2 Hpend Hx Hcl|? c x rpc l1 l2 Hpend Hx Hcl|? c x now failed Hx| | |];
    subst; clear Hst.
  - destruct (keeps_retrieve _ _ _ _ _ Hreg Hret) as (Hk & Hp & (x & Hx & Ha & _) & Hnew).
    eapply http_inv_keeps; [done|by apply keeps_pending|..]; simpl; rewrite ?Hp.
    + rewrite app_nil_r. by rewrite Permutation_app_comm.
    + apply Forall_singleton. exists x. simpl. rewrite Ha. split; [done|].
      by eapply serve_request_source.
    + done.
    + destruct new; intros c' [= <-]. auto.
  - by eapply http_inv_silent; [|apply keeps_refl|..].
  - destruct (keeps_retrieve _ _ _ _ _ Hreg Hret) as (Hk & Hp & _). by eapply http_inv_silent.
  - eapply http_inv_keeps; [done|by apply keeps_pending, keeps_activity|..]; simpl; try done.
    rewrite Hpend, app_nil_r. by rewrite <-Permutation_middle.
  - eapply http_inv_keeps; [done|by apply keeps_pending, keeps_refl|..]; simpl; try done.
    + rewrite Hpend, <-Permutation_middle. by rewrite (Permutation_app_comm _ [_]).
    + apply Forall_singleton. by exists x.
  - pose proof (keeps_activity s c x now Hreg Hx) as Hk.
    destruct failed; eapply http_inv_silent; try done.
    eapply keeps_trans; [exact Hk|]. apply keeps_unregister, Hk.
  - destruct (connectionCleaner_cleaned now s Hreg) as [_ _ _ (_ & _ & Hp)].
    by eapply http_inv_silent; [|apply keeps_clean|..].
  - eapply http_inv_silent; try done. by apply (keeps_refl s).
  - eapply http_inv_silent; try done. by apply (keeps_refl s).
Qed.

Lemma http_inv_trace h s : trace stp NewGoatOverHttp h s → http_inv h s.
Proof.
  intros Htr. refine (trace_history_invariant stp http_inv _ [] NewGoatOverHttp h s http_inv_init Htr).
  intros h1 s1 l s2. by apply http_inv_step.
Qed.

(** ** Guarantees *)

(** C32: every Rpc of an accepted request is received once by its connection, or
    still waits for it, or was lost because the connection was closed before it
    read the Rpc; and the connection is the one for the address of the Rpc's
    source.  onConnect is called at most once for a connection, and the open
    connections are those of the map, one for each address. *)
Theorem http_delivery h s :
  trace stp NewGoatOverHttp h s →
  accepted h ≡ₚ recvs h ++ o_pending s ++ lost h ∧
  Forall (conn_for s) (accepted h) ∧
  Forall (λ p, ∃ x, o_conns s !! p.1 = Some x ∧ w_closed x = true) (lost h) ∧
  NoDup (announced h) ∧ registered_open s.
Proof. intros [Hv Ha Hs Hl [Hn _]]%http_inv_trace. by split_and!. Qed.

(** A tick of the cleaner closes and forgets exactly the connections of the
    map whose last activity is at least the timeout (in whole seconds) ago,
    whatever order it visits them in, and changes nothing else. *)
Theorem http_cleaner_spec h s now :
  trace stp NewGoatOverHttp h s →
  let s' := connectionCleaner cfg now s in
  o_pending s' = o_pending s ∧ length (o_conns s') = length (o_conns s) ∧
  (∀ id c x, o_value s !! id = Some c → o_conns s !! c = Some x →
     if decide (timeout_seconds cfg ≤ now - w_lastActivity x)%Z
     then o_value s' !! id = None ∧ o_conns s' !! c = Some (close_readCh x)
     else o_value s' !! id = Some c ∧ o_conns s' !! c = Some x) ∧
  (∀ id, o_value s !! id = None → o_value s' !! id = None) ∧
  (∀ c x, o_conns s !! c = Some x → w_closed x = true → o_conns s' !! c = Some x).
Proof.
  intros Hinv%http_inv_trace. pose proof (hi_value _ _ Hinv) as Hreg. simpl.
  destruct (connectionCleaner_cleaned now s Hreg) as [Hv Hc Hl (_ & _ & Hp)].
  set (s' := connectionCleaner cfg now s) in *.
  split_and!; [done|done| | |].
  - intros id c x Hid Hx. destruct (proj1 (Hreg _ _) Hid) as (x' & Hx' & Ha & _).
    rewrite Hx in Hx'. injection Hx' as <-.
    rewrite (Hc _ _ Hx), Ha, Hid, bool_decide_true, andb_true_r by done. unfold expired.
    case_decide as Ht; [rewrite bool_decide_true by done|rewrite bool_decide_false by done]; (split; [|done]).
    + destruct (o_value s' !! id) as [c'|] eqn:E; [|done]. apply Hv in E as [Hid' Hall].
      rewrite Hid in Hid'. injection Hid' as <-. specialize (Hall _ Hx Hid).
      unfold expired in Hall. by apply bool_decide_eq_false in Hall.
    + apply Hv. split; [done|]. intros x' Hx' _. rewrite Hx in Hx'. injection Hx' as <-.
      by apply bool_decide_eq_false.
  - intros id Hid. destruct (o_value s' !! id) as [c|] eqn:E; [|done].
    apply Hv in E as [Hid' _]. congruence.
  - intros c x Hx Hcl. rewrite (Hc _ _ Hx). case_bool_decide as Hm; [|by rewrite andb_false_r].
    destruct (proj1 (Hreg _ _) Hm) as (x' & Hx' & _ & Hcl'). congruence.
Qed.

(** A connection that has not been read or written yet counts as inactive
    since 1970: a tick right after its creation closes it, although it is new. *)
Theorem http_new_conn_closed h s id c s1 now :
  trace stp NewGoatOverHttp h s → o_value s !! id = None → retrieve id s = (c, true, s1) →
  (timeout_seconds cfg ≤ now)%Z →
  let s2 := connectionCleaner cfg now s1 in
  o_value s1 !! id = Some c ∧ o_value s2 !! id = None ∧
  ∃ x, o_conns s2 !! c = Some x ∧ w_writeAddr x = id ∧ w_closed x = true.
Proof.
  intros Hinv%http_inv_trace Hid Hret Ht. pose proof (hi_value _ _ Hinv) as Hreg.
  destruct (keeps_retrieve _ _ _ _ _ Hreg Hret) as ((_ & Hreg1 & _) & _ & (x & Hx & Ha & Hcl) & _).
  unfold retrieve in Hret. rewrite Hid in Hret. injection Hret as <- <-.
  set (s1 := mkGoatOverHttp _ _ _ _ _) in *. simpl in Hx.
  rewrite list_lookup_middle in Hx by done. injection Hx as <-.
  assert (Hid1 : o_value s1 !! id = Some (length (o_conns s))) by apply lookup_insert_eq.
  destruct (connectionCleaner_cleaned now s1 Hreg1) as [Hv Hc _ _].
  assert (Hx : o_conns s1 !! length (o_conns s) = Some (mkHttpReadWriter id false 0))
    by (simpl; by rewrite list_lookup_middle).
  assert (Hexp : expired now (mkHttpReadWriter id false 0) = true)
    by (apply bool_decide_true; simpl; lia).
  split_and!; [done| |].
  - destruct (o_value (connectionCleaner cfg now s1) !! id) as [c'|] eqn:E; [|done].
    apply Hv in E as [Hid' Hall]. rewrite Hid1 in Hid'. injection Hid' as <-.
    specialize (Hall _ Hx Hid1). congruence.
  - rewrite (Hc _ _ Hx), Hexp. simpl. rewrite bool_decide_true by done. by eexists.
Qed.

(** A failed write of a connection that is already closed closes its
    successor: [cancel] unregisters by address.  After the cleaner has closed a
    connection and a new one was made for the address, the failure of a write on
    the old one removes and closes the new one. *)
Theorem http_stale_cancel h s c c' x id now :
  trace stp NewGoatOverHttp h s → o_conns s !! c = Some x → w_writeAddr x = id →
  w_closed x = true → o_value s !! id = Some c' →
  ∃ s', stp s (EnvWrite c now true) s' ∧ c ≠ c' ∧ o_value s' !! id = None ∧
    ∃ x', o_conns s' !! c' = Some x' ∧ w_closed x' = true.
Proof.
  intros Hinv%http_inv_trace Hx Ha Hcl Hid. pose proof (hi_value _ _ Hinv) as Hreg.
  destruct (proj1 (Hreg _ _) Hid) as (x' & Hx' & Ha' & Hcl').
  assert (Hne : c ≠ c') by (intros ->; congruence).
  eexists. split; [by eapply step_write|]. split; [done|]. simpl. unfold unregisterLocked. simpl.
  rewrite Ha, Hid. split; [apply lookup_delete_eq|].
  rewrite list_lookup_alter_eq, list_lookup_insert_ne, Hx' by done. by eexists.
Qed.
End invariant.

(** ** ServeHTTP *)
Section serve_spec.
Variable unmarshal : list Byte.byte → result Rpc.
Variable sourceToAddress : string → result string.

(** [ServeHTTP] answers with status 400 exactly when the body is missing,
    cannot be read or decoded, the Rpc has no header or no source, or the source
    has no address; otherwise it accepts the Rpc for its source's address. *)
Theorem serve_request_spec body :
  match serve_request unmarshal sourceToAddress body with
  | inr (source, rpc) => ∃ data h, body = Some (Ok data) ∧ unmarshal data = Ok rpc ∧
      rpc_Header rpc = Some h ∧ h_Source h ≠ "" ∧ sourceToAddress (h_Source h) = Ok source
  | inl text => (body = None ∧ text = "missing body") ∨
      (∃ e, body = Some (Err e) ∧ text = "body read") ∨
      (∃ data, body = Some (Ok data) ∧
         ((∃ e, unmarshal data = Err e ∧ text = "proto decode") ∨
          (∃ rpc, unmarshal data = Ok rpc ∧
             ((∀ h, rpc_Header rpc = Some h → h_Source h = "") ∧ text = "missing header/source" ∨
              ∃ h e, rpc_Header rpc = Some h ∧ h_Source h ≠ "" ∧
                sourceToAddress (h_Source h) = Err e ∧ text = "failed to map source"))))
  end.
Proof.
  unfold serve_request, GetHeader, GetSource. destruct body as [[data|e]|]; [|by eauto 10..].
  destruct (unmarshal data) as [rpc|e] eqn:Hu; [|by eauto 10]. simpl.
  destruct (rpc_Header rpc) as [h|] eqn:Hh; simpl.
  - case_bool_decide as Hs.
    + right. right. exists data. split; [done|]. right. exists rpc. split; [done|]. left.
      split; [|done]. intros h' Hh'. rewrite Hh in Hh'. by injection Hh' as <-.
    + destruct (sourceToAddress (h_Source h)) eqn:Ha; [by eauto 10|].
      right. right. exists data. split; [done|]. right. exists rpc. split; [done|]. right. eauto 10.
  - right. right. exists data. split; [done|]. right. exists rpc. split; [done|]. left.
    split; [|done]. intros h Hh'. congruence.
Qed.
End serve_spec.

Section witnesses.
(** The request's body is the source's name; every source is its own address. *)
Definition unmarshal_source (data : list Byte.byte) : result Rpc :=
  Ok (mkRpc 1 (Some (mkRequestHeader "/pkg.Svc/Echo" [] "a" "srv" [] None)) None
        (Some (mkBody (Some data))) None None).
Definition own_address (src : string) : result string := Ok src.
Definition one_rpc : Rpc :=
  mkRpc 1 (Some (mkRequestHeader "/pkg.Svc/Echo" [] "a" "srv" [] None)) None
    (Some (mkBody (Some []))) None None.
Definition cfg_default : http_config := http_config_of [].

Definition request_history : list label := [EnvRequest "a" one_rpc 0 true].
Definition request_state : GoatOverHttp :=
  mkGoatOverHttp false {["a" := 0]} false [mkHttpReadWriter "a" false 0] [(0, one_rpc)].
Lemma request_trace :
  trace (step unmarshal_source own_address cfg_default) NewGoatOverHttp request_history request_state.
Proof.
  apply trace_one. apply (step_request _ _ _ NewGoatOverHttp (Some (Ok [])) "a" one_rpc 0 true
    (retrieve "a" NewGoatOverHttp).2); reflexivity.
Qed.

(** An old connection is closed by a tick, and a new one is made. *)
Definition renewed_history : list label :=
  [EnvNewConnection "a" 0; EnvTick 1700000000; EnvNewConnection "a" 1].
Definition renewed_state : GoatOverHttp :=
  mkGoatOverHttp false {["a" := 1]} false
    [mkHttpReadWriter "a" true 0; mkHttpReadWriter "a" false 0] [].
Lemma renewed_trace :
  trace (step unmarshal_source own_address cfg_default) NewGoatOverHttp renewed_history renewed_state.
Proof.
  eapply trace_step; [eapply step_new_connection; reflexivity|].
  eapply trace_step; [by apply step_tick|].
  assert (connectionCleaner cfg_default 1700000000
    (mkGoatOverHttp false {["a" := 0]} false [mkHttpReadWriter "a" false 0] []) =
    mkGoatOverHttp false ∅ false [mkHttpReadWriter "a" true 0] []) as Hc by reflexivity.
  apply trace_one.
  match goal with |- step _ _ _ ?s _ _ => change s with (connectionCleaner cfg_default 1700000000
    (mkGoatOverHttp false {["a" := 0]} false [mkHttpReadWriter "a" false 0] [])) end.
  rewrite Hc. eapply step_new_connection. reflexivity.
Qed.

Lemma http_delivery_witness :
  (accepted request_history ≡ₚ [] ++ [(0, one_rpc)] ++ []) ∧ NoDup [0].
Proof.
  destruct (http_delivery _ _ _ _ _ request_trace) as (Hp & _ & _ & Hn & _).
  split; [exact Hp|exact Hn].
Defined.

Lemma http_cleaner_spec_witness :
  o_value (connectionCleaner cfg_default 100 request_state) !! "a" = Some 0 ∧
  o_value (connectionCleaner cfg_default 1700000000 request_state) !! "a" = None.
Proof.
  split.
  - destruct (http_cleaner_spec _ _ _ _ _ 100 request_trace) as (_ & _ & Hc & _).
    by destruct (Hc "a" 0 (mkHttpReadWriter "a" false 0) eq_refl eq_refl).
  - destruct (http_cleaner_spec _ _ _ _ _ 1700000000 request_trace) as (_ & _ & Hc & _).
    by destruct (Hc "a" 0 (mkHttpReadWriter "a" false 0) eq_refl eq_refl).
Defined.

Lemma http_new_conn_closed_witness :
  o_value (connectionCleaner cfg_default 1700000000 (retrieve "b" request_state).2) !! "b" = None.
Proof.
  apply (http_new_conn_closed _ _ _ _ _ "b" 1 (retrieve "b" request_state).2 1700000000 request_trace);
    [reflexivity|reflexivity|]. vm_compute. discriminate.
Defined.

Lemma http_stale_cancel_witness :
  ∃ s', step unmarshal_source own_address cfg_default renewed_state (EnvWrite 0 1700000001 true) s' ∧
    o_value s' !! "a" = None.
Proof.
  destruct (http_stale_cancel _ _ _ _ _ 0 1 (mkHttpReadWriter "a" true 0) "a" 1700000001 renewed_trace)
    as (s' & Hst & _ & Hv & _); try reflexivity.
  exists s'. split; [exact Hst|exact Hv].
Defined.
End witnesses.
