(* ===== verification/RunStream.v ===== *)
(** * server.go: runStream

    What the goroutine of a stream does, as one program: the stats events, the
    server stream, the interceptor and the application's handler, the trailer.
    How it interacts with the other goroutines is in file [ServerLoop]; here the
    answers of the transport are given: [rd i] is what the i-th Read returns and
    [wr i] the error of the i-th Write. *)

From S2P Require Import Prelude GoString Rpc Errors Metadata RequestContext Runtime TransportStream ServerStream Interceptors Server ClientStream Streams.

Section run.
Context {Msg Impl Handler : Type}.
Context `{Unicode, MetadataPkg, StatusPkg, Codec Msg, StatsHandler Handler}.
Variable ord : map_range.
Variable rd : nat → result Rpc.
Variable wr : nat → option error.
Abbreviation SM := (M (serverStream Handler) (effect Msg Handler)).

(** The handler runs against its stream; the result is its error and how many
    Writes it made. *)
Fixpoint run_sprog (i j : nat) (p : sprog Msg) : SM (option error * nat) :=
  match p with
  | SRet err => mret (err, j)
  | SPanic msg => throw msg
  | SSendMsg m k => err ← SendMsg ord (wr j) m; run_sprog i (S j) (k err)
  | SRecvMsg k => '(m, err) ← RecvMsg (rd i); run_sprog (S i) j (k m err)
  | SSetHeader md k => err ← SetHeader md; run_sprog i j (k err)
  | SSendHeader md k => err ← SendHeader ord (wr j) md; run_sprog i (S j) (k err)
  | SSetTrailer md k => _ ← SetTrailer md; run_sprog i j k
  end.

(** The handler behind the server's stream interceptor. *)
Definition stream_handler (s : Server Msg Impl Handler) (info : serviceInfo Msg Impl)
    (sd : StreamDesc Msg Impl) : sprog Msg :=
  let si := mkStreamServerInfo (fullMethod (si_name info) (sd_StreamName sd))
              (sd_ClientStreams sd) (sd_ServerStreams sd) in
  match srv_streamInterceptor s with
  | Some f => f (si_serviceImpl info) tt si (sd_Handler sd)
  | None => sd_Handler sd (si_serviceImpl info) tt
  end.

(** The trailer follows what the handler did. *)
Definition handle_stream (p : sprog Msg) : SM (option error * option error) :=
  '(appErr, j) ← run_sprog 0 0 p;
  err ← SendTrailer ord (wr j) appErr;
  mret (appErr, err).

(** [ctx]: the context made by contextFromHeaders.  The deferred StatsEndRPC
    runs on a panic too, with the nil error. *)
Definition runStream (beginTime : Z) (clock : nat → Z) (s : Server Msg Impl Handler)
    (info : serviceInfo Msg Impl) (sd : StreamDesc Msg Impl) (rpc : Rpc) (streamId : Z) (ctx : Ctx)
    : list (effect Msg Handler) * outcome (option error) :=
  let shs := srv_statsHandlers s in
  let method := fullMethod (si_name info) (sd_StreamName sd) in
  let '(l1, ctx) := StatsStartServerRPC shs false beginTime method
                      (sd_ClientStreams sd) (sd_ServerStreams sd) ctx in
  match rpc_Header rpc with
  | None => (l1 ++ StatsEndRPC shs false beginTime None ctx clock, Panic "nil pointer dereference")
  | Some h =>
      let stream := SetContext ctx
        (NewServerStream ctx streamId method (h_Destination h) (h_Source h) shs) in
      let '(_, l2, r) := handle_stream (stream_handler s info sd) stream in
      match r with
      | Panic msg => (l1 ++ l2 ++ StatsEndRPC shs false beginTime None ctx clock, Panic msg)
      | Ret (appErr, err) => (l1 ++ l2 ++ StatsEndRPC shs false beginTime appErr ctx clock, Ret err)
      end
  end.

(** ** What a handler does, as a sequence of stream operations

    [performs i j p ss os r j']: used on the stream [ss], with the answers of the
    transport from the [i]-th Read and the [j]-th Write on, the program [p] calls
    the operations [os] one after the other, each on the stream as the ones before
    it left it and going on with what it returned, and then ends with [r]; the
    next Write is the [j']-th. *)
Inductive performs : nat → nat → sprog Msg → serverStream Handler →
    list (ss_op (Msg:=Msg)) → outcome (option error) → nat → Prop :=
  | pf_ret i j err ss : performs i j (SRet err) ss [] (Ret err) j
  | pf_panic i j msg ss : performs i j (SPanic msg) ss [] (Panic msg) j
  | pf_send_msg i j m k ss e os r j' :
      res_of (SendMsg ord (wr j) m ss) = Ret e →
      performs i (S j) (k e) (st_of (SendMsg ord (wr j) m ss)) os r j' →
      performs i j (SSendMsg m k) ss (OSendMsg ord (wr j) m :: os) r j'
  | pf_recv_msg i j k ss m e os r j' :
      res_of (RecvMsg (rd i) ss) = Ret (m, e) →
      performs (S i) j (k m e) (st_of (RecvMsg (Msg:=Msg) (rd i) ss)) os r j' →
      performs i j (SRecvMsg k) ss (ORecvMsg (rd i) :: os) r j'
  | pf_set_header i j md k ss e os r j' :
      res_of (SetHeader (Msg:=Msg) md ss) = Ret e →
      performs i j (k e) (st_of (SetHeader (Msg:=Msg) md ss)) os r j' →
      performs i j (SSetHeader md k) ss (OSetHeader md :: os) r j'
  | pf_send_header i j md k ss e os r j' :
      res_of (SendHeader (Msg:=Msg) ord (wr j) md ss) = Ret e →
      performs i (S j) (k e) (st_of (SendHeader (Msg:=Msg) ord (wr j) md ss)) os r j' →
      performs i j (SSendHeader md k) ss (OSendHeader ord (wr j) md :: os) r j'
  | pf_set_trailer i j md k ss os r j' :
      performs i j k (st_of (SetTrailer (Msg:=Msg) md ss)) os r j' →
      performs i j (SSetTrailer md k) ss (OSetTrailer md :: os) r j'.

(** ** The handler is a sequence of stream operations *)
Lemma bind_run {A B} (m : SM A) (k : A → SM B) ss :
  mbind k m ss = match res_of (m ss) with
    | Ret a => let '(ss', l, r) := k a (st_of (m ss)) in (ss', log_of (m ss) ++ l, r)
    | Panic msg => (st_of (m ss), log_of (m ss), Panic msg)
    end.
Proof.
  unfold mbind, M_bind, res_of, st_of, log_of. destruct (m ss) as [[s1 l1] [a|]]; [|done].
  simpl. by destruct (k a s1) as [[??]?].
Qed.

Lemma ss_run_cons (o : ss_op (Msg:=Msg)) os (ss : serverStream Handler) :
  st_of (ss_run (o :: os) ss) = st_of (ss_run os (st_of (ss_exec o ss))) ∧
  log_of (ss_run (o :: os) ss) = log_of (ss_exec o ss) ++ log_of (ss_run os (st_of (ss_exec o ss))).
Proof.
  cbn [ss_run]. rewrite bind_run, ss_exec_ret.
  by destruct (ss_run os (st_of (ss_exec o ss))) as [[??]?].
Qed.

(** One operation, and the rest. *)
Lemma run_op {A} (o : ss_op (Msg:=Msg)) (m : SM A) (k : A → SM (option error * nat)) ss a os :
  ¬ ends o → res_of (m ss) = Ret a →
  st_of (ss_exec o ss) = st_of (m ss) → log_of (ss_exec o ss) = log_of (m ss) →
  Forall (λ o, ¬ ends o) os →
  st_of (k a (st_of (m ss))) = st_of (ss_run os (st_of (m ss))) →
  log_of (k a (st_of (m ss))) = log_of (ss_run os (st_of (m ss))) →
  Forall (λ o, ¬ ends o) (o :: os) ∧
  st_of (mbind k m ss) = st_of (ss_run (o :: os) ss) ∧
  log_of (mbind k m ss) = log_of (ss_run (o :: os) ss) ∧
  res_of (mbind k m ss) = res_of (k a (st_of (m ss))).
Proof.
  intros Ho Hr Hs Hl Hos Hks Hkl. split; [by constructor|].
  destruct (ss_run_cons o os ss) as [-> ->]. rewrite Hs, Hl, bind_run, Hr, <-Hks, <-Hkl.
  by destruct (k a (st_of (m ss))) as [[??]?].
Qed.

(** The interpreter and the relation agree. *)
Definition handler_result (r : outcome (option error)) (j : nat) : outcome (option error * nat) :=
  match r with Ret err => Ret (err, j) | Panic msg => Panic msg end.

Lemma performs_run i j p ss os r j' :
  performs i j p ss os r j' →
  Forall (λ o, ¬ ends o) os ∧
    st_of (run_sprog i j p ss) = st_of (ss_run os ss) ∧
    log_of (run_sprog i j p ss) = log_of (ss_run os ss) ∧
    res_of (run_sprog i j p ss) = handler_result r j'.
Proof.
  induction 1 as [| |i j m k ss e os r j' He _ (Hos & Hs & Hl & Hr)
    |i j k ss m e os r j' He _ (Hos & Hs & Hl & Hr)|i j md k ss e os r j' He _ (Hos & Hs & Hl & Hr)
    |i j md k ss e os r j' He _ (Hos & Hs & Hl & Hr)|i j md k ss os r j' _ (Hos & Hs & Hl & Hr)];
    try done; cbn [run_sprog]; rewrite <-Hr.
  - destruct (forget_st (SendMsg (Handler:=Handler) ord (wr j) m) ss).
    apply (run_op _ _ (λ err, run_sprog i (S j) (k err)) _ e); [by intros []|done..].
  - destruct (forget_st (RecvMsg (Msg:=Msg) (Handler:=Handler) (rd i)) ss).
    apply (run_op _ _ (λ '(m, err), run_sprog (S i) j (k m err)) _ (m, e)); [by intros []|done..].
  - destruct (forget_st (SetHeader (Msg:=Msg) md) ss). apply (run_op _ _ (λ err, run_sprog i j (k err)) _ e); [by intros []|done..].
  - destruct (forget_st (SendHeader (Msg:=Msg) ord (wr j) md) ss).
    apply (run_op _ _ (λ err, run_sprog i (S j) (k err)) _ e); [by intros []|done..].
  - apply (run_op _ _ (λ _, run_sprog i j k) _ tt); [by intros []|by rewrite run_SetTrailer|done..].
Qed.

(** Every program ends, with some operations: each of them returns. *)
Lemma performs_total i j (p : sprog Msg) (ss : serverStream Handler) :
  ∃ os r j', performs i j p ss os r j'.
Proof.
  revert i j ss. induction p as [err|msg|m k IH|k IH|md k IH|md k IH|md k IH]; intros i j ss.
  - do 3 eexists. constructor.
  - do 3 eexists. constructor.
  - assert (∃ e, res_of (SendMsg (Handler:=Handler) ord (wr j) m ss) = Ret e) as [e He].
    { destruct (Marshal m) as [b|e] eqn:Em.
      - destruct (run_SendMsg (Handler:=Handler) ord (wr j) m b ss Em) as (_ & _ & ->). by eexists.
      - rewrite (run_SendMsg_err _ _ _ _ _ Em). by eexists. }
    edestruct (IH e) as (os & r & j' & Hp). do 3 eexists. by eapply pf_send_msg.
  - assert (∃ x, res_of (RecvMsg (Msg:=Msg) (Handler:=Handler) (rd i) ss) = Ret x) as [[m e] He].
    { unfold RecvMsg. destruct (rd i) as [rpc|e]; [|by eexists].
      destruct (GetTrailer (Some rpc)); [case_decide; by eexists|].
      destruct (Unmarshal _); by eexists. }
    edestruct (IH m e) as (os & r & j' & Hp). do 3 eexists. by eapply pf_recv_msg.
  - assert (∃ e, res_of (SetHeader (Msg:=Msg) md ss) = Ret e) as [e He]
      by (rewrite run_SetHeader; case_match; by eexists).
    edestruct (IH e) as (os & r & j' & Hp). do 3 eexists. by eapply pf_set_header.
  - assert (∃ e, res_of (SendHeader (Msg:=Msg) ord (wr j) md ss) = Ret e) as [e He].
    { destruct (run_SendHeader (Msg:=Msg) ord (wr j) md ss) as [Ht Hf].
      destruct (ss_headersSent ss); [rewrite Ht by done; by eexists|].
      destruct (Hf eq_refl) as (_ & _ & ->). by eexists. }
    edestruct (IH e) as (os & r & j' & Hp). do 3 eexists. by eapply pf_send_header.
  - edestruct IH as (os & r & j' & Hp). do 3 eexists. by eapply pf_set_trailer.
Qed.

(** ** The trailer *)
Lemma handle_stream_ops (p : sprog Msg) (ss : serverStream Handler) :
  ss_trailersSent ss = false →
  ∃ os r j, performs 0 0 p ss os r j ∧ Forall (λ o, ¬ ends o) os ∧
    match r with
    | Ret appErr =>
        res_of (handle_stream p ss) = Ret (appErr, wr j) ∧
        log_of (handle_stream p ss) =
          log_of (ss_run os ss) ++ log_of (SendTrailer ord (wr j) appErr (st_of (ss_run os ss))) ∧
        ss_trailersSent (st_of (ss_run os ss)) = false
    | Panic msg =>
        res_of (handle_stream p ss) = Panic msg ∧ log_of (handle_stream p ss) = log_of (ss_run os ss)
    end.
Proof.
  intros Ht. destruct (performs_total 0 0 p ss) as (os & r & j & Hp). exists os, r, j. split; [done|].
  destruct (performs_run _ _ _ _ _ _ _ Hp) as (Hos & Hs & Hl & Hr). split; [done|].
  destruct (ss_run_messages os ss Hos) as [_ Hts]. rewrite Ht in Hts.
  unfold handle_stream. rewrite bind_run, Hr.
  destruct r as [appErr|msg]; simpl; [|done].
  rewrite bind_run, Hs, Hl. set (ss1 := st_of (ss_run os ss)) in *.
  destruct (run_SendTrailer (Msg:=Msg) ord (wr j) appErr ss1) as [_ Hf].
  destruct (Hf Hts) as (_ & _ & ->). unfold res_of, log_of. simpl.
  by rewrite app_nil_r.
Qed.

(** The stream that runStream makes. *)
Definition stream_of (s : Server Msg Impl Handler) (info : serviceInfo Msg Impl)
    (sd : StreamDesc Msg Impl) (h : RequestHeader) (streamId : Z) (ctx : Ctx) : serverStream Handler :=
  let method := fullMethod (si_name info) (sd_StreamName sd) in
  NewServerStream (tag_all (srv_statsHandlers s) method ctx) streamId method
    (h_Destination h) (h_Source h) (srv_statsHandlers s).

Lemma runStream_unfold b clock (s : Server Msg Impl Handler) info sd rpc h id ctx :
  rpc_Header rpc = Some h →
  let shs := srv_statsHandlers s in
  let method := fullMethod (si_name info) (sd_StreamName sd) in
  let l1 := (StatsStartServerRPC shs false b method (sd_ClientStreams sd) (sd_ServerStreams sd) ctx).1 in
  let run := handle_stream (stream_handler s info sd) (stream_of s info sd h id ctx) in
  runStream b clock s info sd rpc id ctx =
    match res_of run with
    | Panic msg =>
        (l1 ++ log_of run ++ StatsEndRPC shs false b None (tag_all shs method ctx) clock, Panic msg)
    | Ret (appErr, err) =>
        (l1 ++ log_of run ++ StatsEndRPC shs false b appErr (tag_all shs method ctx) clock, Ret err)
    end.
Proof.
  intros Hh. simpl. unfold runStream. rewrite Hh.
  pose proof (StatsStartServerRPC_ctx (Msg:=Msg) (srv_statsHandlers s) false b
    (fullMethod (si_name info) (sd_StreamName sd)) (sd_ClientStreams sd) (sd_ServerStreams sd) ctx) as Hc.
  destruct (StatsStartServerRPC _ _ _ _ _ _ _) as [l1 ctx']. simpl in *. subst ctx'.
  unfold res_of, log_of. change (SetContext _ _) with (stream_of s info sd h id ctx).
  destruct (handle_stream _ _) as [[ss l2] [[appErr err]|msg]]; done.
Qed.

(** C33: what a stream writes: whatever its handler is, and whatever the transport
    answers, [runStream] uses its server stream by the operations that the handler
    (behind the interceptor) calls, none of which ends the stream, followed, unless
    the handler panics, by one [SendTrailer] with the error that the handler
    returned; its result is the error of that trailer's Write.  When the handler
    panics, nothing follows and [runStream] panics with the same message. *)
Theorem runStream_refines b clock (s : Server Msg Impl Handler) info sd rpc h id ctx :
  rpc_Header rpc = Some h →
  let '(log, res) := runStream b clock s info sd rpc id ctx in
  let stream := stream_of s info sd h id ctx in
  ∃ os r j, performs 0 0 (stream_handler s info sd) stream os r j ∧ Forall (λ o, ¬ ends o) os ∧
    match r with
    | Ret appErr => res = Ret (wr j) ∧
        sent log = sent (log_of (ss_run (os ++ [OSendTrailer ord (wr j) appErr]) stream))
    | Panic msg => res = Panic msg ∧ sent log = sent (log_of (ss_run os stream))
    end.
Proof.
  intros Hh. rewrite (runStream_unfold b clock s info sd rpc h id ctx Hh). cbv zeta.
  set (stream := stream_of s info sd h id ctx).
  destruct (handle_stream_ops (stream_handler s info sd) stream eq_refl) as (os & r & j & Hp & Hos & Hrun).
  destruct r as [appErr|msg].
  - destruct Hrun as (-> & Hlog & _). exists os, (Ret appErr), j. split_and!; [done..|].
    rewrite Hlog, !sent_app, StatsStartServerRPC_sent, StatsEndRPC_sent, app_nil_r, app_nil_l, ss_run_app.
    f_equal. destruct (ss_run_cons (OSendTrailer ord (wr j) appErr) [] (st_of (ss_run os stream))) as [_ ->].
    rewrite sent_app. unfold ss_exec. rewrite (proj2 (forget_st _ _)). symmetry. apply app_nil_r.
  - destruct Hrun as [-> Hlog]. exists os, (Panic msg), j. split_and!; [done..|].
    by rewrite Hlog, !sent_app, StatsStartServerRPC_sent, StatsEndRPC_sent, app_nil_r.
Qed.

(** ** Stats events *)
Context `{EqDecision Handler}.
Variable sh : Handler.

Definition is_message_event (ev : stats_event Msg) : Prop :=
  match ev with
  | StatsInPayload false _ _ | StatsOutHeader false _ _ | StatsOutPayload false _ _ => True
  | _ => False
  end.

Lemma notify_message_events (shs : list Handler) ctx ev :
  NoDup shs → is_message_event ev → Forall is_message_event (events_of sh (notify shs ctx ev)).
Proof.
  intros Hnd Hev. rewrite events_of_notify by done. case_decide; [by apply Forall_singleton|constructor].
Qed.

Lemma ss_exec_events (o : ss_op (Msg:=Msg)) (ss : serverStream Handler) :
  NoDup (ss_statsHandlers ss) → ¬ ends o →
  ss_statsHandlers (st_of (ss_exec o ss)) = ss_statsHandlers ss ∧
  Forall is_message_event (events_of sh (log_of (ss_exec o ss))).
Proof.
  intros Hnd Ho. destruct ss as [ctx id me src dst shs hs hsent ts tsent]. simpl in Hnd.
  assert (Hn : ∀ ev, is_message_event ev → Forall is_message_event (events_of sh (notify shs ctx ev)))
    by (intros; by apply notify_message_events).
  destruct o as [md|ord' werr md|md|ord' werr m|rd'|ord' werr e]; unfold ss_exec;
    try match goal with |- context [mbind _ ?m ?ss] =>
      rewrite (proj1 (forget_st m ss)), (proj2 (forget_st m ss)) end.
  - rewrite run_SetHeader. simpl. destruct hsent; split; try done; by constructor.
  - unfold SendHeader, setHeader. destruct hsent; simpl; [by split; [|constructor]|].
    destruct werr; simpl; (split; [done|]); unfold log_of; simpl;
      rewrite events_of_app; simpl; rewrite ?app_nil_r; by apply Hn.
  - rewrite run_SetTrailer. simpl. destruct tsent; split; try done; by constructor.
  - unfold SendMsg. destruct (Marshal m) as [body|e]; [|by split; [|constructor]].
    unfold take_headers, handle_rpc, write. destruct hsent; simpl; (split; [done|]);
      unfold log_of; simpl; rewrite ?events_of_app; simpl; rewrite ?app_nil_r;
      rewrite ?Forall_app; repeat split; by apply Hn.
  - unfold RecvMsg, handle_rpc. destruct rd' as [rpc|e]; [|by split; [|constructor]].
    destruct (GetTrailer (Some rpc)); [case_decide; by split; [|constructor]|].
    destruct (Unmarshal _); [|by split; [|constructor]].
    split; [done|]. unfold log_of. simpl. rewrite ?app_nil_r. by apply Hn.
  - by destruct Ho.
Qed.

Lemma ss_run_events (os : list (ss_op (Msg:=Msg))) (ss : serverStream Handler) :
  NoDup (ss_statsHandlers ss) → Forall (λ o, ¬ ends o) os →
  ss_statsHandlers (st_of (ss_run os ss)) = ss_statsHandlers ss ∧
  Forall is_message_event (events_of sh (log_of (ss_run os ss))).
Proof.
  intros Hnd Hos. revert ss Hnd. induction Hos as [|o os Ho Hos IH]; intros ss Hnd; [by split; [|constructor]|].
  destruct (ss_exec_events o ss Hnd Ho) as [Hs He]. destruct (ss_run_cons o os ss) as [-> ->].
  destruct (IH (st_of (ss_exec o ss))) as [-> Hl]; [by rewrite Hs|].
  split; [done|]. rewrite events_of_app. by apply Forall_app.
Qed.

Lemma SendTrailer_log werr e (ss : serverStream Handler) :
  ss_trailersSent ss = false →
  ∃ rpc, log_of (SendTrailer (Msg:=Msg) ord werr e ss) =
    notify (ss_statsHandlers ss) (ss_ctx ss) (StatsOutTrailer false (Some (md_Join (ss_trailers ss))))
    ++ [EWrite rpc werr].
Proof.
  destruct ss as [ctx id me src dst shs hs hsent ts tsent]. simpl. intros ->.
  unfold SendTrailer, take_headers, handle_rpc, write. simpl.
  destruct hsent; simpl; by eexists.
Qed.

(** C36: every stats handler sees a well-formed sequence of events for a stream:
    first Begin, with the kind of the stream, and InHeader, with the metadata of
    the request; then the events of the operations that the application's handler
    called; then, if it returned, exactly one OutTrailer; and last exactly one End,
    which reports the error that it returned.  End comes also when it panics,
    with no error. *)
Theorem stream_stats_events b clock (s : Server Msg Impl Handler) info sd rpc h id ctx :
  rpc_Header rpc = Some h → NoDup (srv_statsHandlers s) → sh ∈ srv_statsHandlers s →
  let '(log, res) := runStream b clock s info sd rpc id ctx in
  let stream := stream_of s info sd h id ctx in
  let start := [StatsBegin false b (sd_ClientStreams sd) (sd_ServerStreams sd);
                StatsInHeader false (fullMethod (si_name info) (sd_StreamName sd))
                  (Some (default ∅ (ctx_incoming ctx)))] in
  ∃ os r j t, performs 0 0 (stream_handler s info sd) stream os r j ∧
    let mid := events_of sh (log_of (ss_run os stream)) in
    Forall is_message_event mid ∧
    match r with
    | Ret appErr => res = Ret (wr j) ∧ ∃ tr, events_of sh log =
        start ++ mid ++ [StatsOutTrailer false tr; StatsEnd false b t (end_error appErr)]
    | Panic msg => res = Panic msg ∧ events_of sh log = start ++ mid ++ [StatsEnd false b t None]
    end.
Proof.
  intros Hh Hnd Hin. rewrite (runStream_unfold b clock s info sd rpc h id ctx Hh). cbv zeta.
  set (stream := stream_of s info sd h id ctx).
  pose proof (StatsStartServerRPC_events (Msg:=Msg) sh (srv_statsHandlers s) false b
    (fullMethod (si_name info) (sd_StreamName sd)) (sd_ClientStreams sd) (sd_ServerStreams sd)
    ctx Hnd Hin) as Hstart. unfold start_events in Hstart.
  destruct (handle_stream_ops (stream_handler s info sd) stream eq_refl) as (os & r & j & Hp & Hos & Hrun).
  destruct (ss_run_events os stream Hnd Hos) as [Hshs Hmid].
  assert (Hend : ∀ e, ∃ t, events_of sh (StatsEndRPC (Msg:=Msg) (srv_statsHandlers s) false b e
      (tag_all (srv_statsHandlers s) (fullMethod (si_name info) (sd_StreamName sd)) ctx) clock) =
    [StatsEnd false b t (end_error e)]).
  { intros e. destruct (stats_end_loop_events (Msg:=Msg) 0 sh (srv_statsHandlers s) false b e
      (tag_all (srv_statsHandlers s) (fullMethod (si_name info) (sd_StreamName sd)) ctx) clock Hnd)
      as [t Ht]. rewrite decide_True in Ht by done. by exists t. }
  destruct r as [appErr|msg].
  - destruct Hrun as (-> & Hlog & Hts). destruct (Hend appErr) as [t Ht].
    exists os, (Ret appErr), j, t. split_and!; [done..|].
    set (ss1 := st_of (ss_run os stream)) in *. exists (Some (md_Join (ss_trailers ss1))).
    rewrite Hlog, !events_of_app, Hstart, Ht. rewrite <-!app_assoc. f_equal. f_equal.
    destruct (SendTrailer_log (wr j) appErr ss1 Hts) as [rpc' ->]. rewrite Hshs, events_of_app. simpl.
    rewrite events_of_notify, decide_True by done. done.
  - destruct Hrun as [-> Hlog]. destruct (Hend None) as [t Ht].
    exists os, (Panic msg), j, t. split_and!; [done..|].
    by rewrite Hlog, !events_of_app, Hstart, Ht.
Qed.
End run.

(** ** The stats events of a connection *)
Section connection.
Context {Msg Handler : Type}.
Context `{StatsHandler Handler}.

(** serve tags the context with each handler before it tells it the event. *)
Fixpoint serve_begin (shs : list Handler) (clientCtx : Ctx) : list (effect Msg Handler) * Ctx :=
  match shs with
  | [] => ([], clientCtx)
  | sh :: shs =>
      let clientCtx := TagConn sh clientCtx in
      let '(l, ctx) := serve_begin shs clientCtx in
      (EHandleConn sh clientCtx (ConnBegin false) :: l, ctx)
  end.
(** The deferred events, with the context that has all tags. *)
Definition serve_end (shs : list Handler) (clientCtx : Ctx) : list (effect Msg Handler) :=
  (λ sh, EHandleConn sh clientCtx (ConnEnd false)) <$> shs.

Definition conn_handler (e : effect Msg Handler) : option (Handler * conn_event) :=
  match e with EHandleConn sh _ ev => Some (sh, ev) | _ => None end.

(** Every handler is told of the begin and of the end, in the same order. *)
Lemma serve_events shs clientCtx :
  omap conn_handler (serve_begin shs clientCtx).1 = (λ sh, (sh, ConnBegin false)) <$> shs ∧
  omap conn_handler (serve_end shs (serve_begin shs clientCtx).2) = (λ sh, (sh, ConnEnd false)) <$> shs ∧
  (serve_begin shs clientCtx).2 = foldl (λ ctx sh, TagConn sh ctx) clientCtx shs.
Proof.
  split_and!.
  - revert clientCtx. induction shs as [|sh shs IH]; intros ctx; [done|]. simpl.
    specialize (IH (TagConn sh ctx)). destruct (serve_begin shs _) as [l ctx']. simpl in *. f_equal. exact IH.
  - generalize (serve_begin shs clientCtx).2. intros ctx. unfold serve_end.
    induction shs as [|sh shs IH]; [done|]. simpl. f_equal. exact IH.
  - revert clientCtx. induction shs as [|sh shs IH]; intros ctx; [done|]. simpl.
    specialize (IH (TagConn sh ctx)). by destruct (serve_begin shs _) as [l ctx'].
Qed.
End connection.

Section witnesses.
Import RuntimeModel ServerExample.
#[local] Existing Instances codec stats StatusModel.pkg MetadataModel.Join MetadataModel.no_unicode.

(** A handler that sends one message and fails. *)
Definition send_one : sprog Msg := SSendMsg [Byte.x61] (λ _, SRet (Some (External "failed"))).
Definition watch_one : StreamDesc Msg () := mkStreamDesc "Watch" (λ _ _, send_one) true false.
Definition open_header : RequestHeader := mkRequestHeader "/pkg.Svc/Watch" [] "cli" "srv" [] None.
Definition open_stream : Rpc := mkRpc 3 (Some open_header) None None None None.
Definition one_run : list (effect Msg nat) * outcome (option error) :=
  runStream MetadataModel.order (λ _, Err EOF) (λ _, None) 0 (λ _, 0%Z) server1 info watch_one
    open_stream 3 Background.

Lemma runStream_refines_witness :
  ∃ (os : list (ss_op (Msg:=Msg))) j,
    performs MetadataModel.order (λ _, Err EOF) (λ _, None) 0 0 send_one
      (stream_of server1 info watch_one open_header 3 Background) os (Ret (Some (External "failed"))) j ∧
    sent one_run.1 = sent (log_of (ss_run
      (os ++ [OSendTrailer MetadataModel.order None (Some (External "failed"))])
      (stream_of server1 info watch_one open_header 3 Background))).
Proof.
  pose proof (runStream_refines MetadataModel.order (λ _, Err EOF) (λ _, None) 0 (λ _, 0%Z) server1
    info watch_one open_stream open_header 3 Background eq_refl) as Hr.
  fold one_run in Hr. destruct one_run as [log res] eqn:E.
  destruct Hr as (os & r & j & Hp & _ & Hr).
  assert (r = Ret (Some (External "failed"))) as ->.
  { inversion Hp as [| |? ? ? ? ? ? ? ? ? _ Hq| | | |]; subst. by inversion Hq. }
  exists os, j. split; [exact Hp|exact (proj2 Hr)].
Defined.

Lemma stream_stats_events_witness :
  ∃ mid t tr, Forall is_message_event mid ∧
    events_of 7 one_run.1 =
      [StatsBegin false 0 false true; StatsInHeader false "/pkg.Svc/Watch" (Some ∅)] ++ mid ++
      [StatsOutTrailer false tr; StatsEnd false 0 t (Some (External "failed"))].
Proof.
  pose proof (stream_stats_events MetadataModel.order (λ _, Err EOF) (λ _, None) 7 0 (λ _, 0%Z) server1
    info watch_one open_stream open_header 3 Background eq_refl) as Hr.
  fold one_run in Hr. destruct one_run as [log res] eqn:E.
  destruct Hr as (os & r & j & t & Hp & Hm & Hr).
  - vm_compute. repeat constructor. set_solver.
  - vm_compute. by apply elem_of_list_here || set_solver.
  - assert (r = Ret (Some (External "failed"))) as ->.
    { inversion Hp as [| |? ? ? ? ? ? ? ? ? _ Hq| | | |]; subst. by inversion Hq. }
    destruct Hr as (_ & tr & He). eexists _, t, tr. split; [exact Hm|exact He].
Defined.
End witnesses.
