(* ===== verification/Wire.v ===== *)
(** * The types of the Rpcs on the wire

    Which combinations of the fields of an [Rpc] a client and a server send: a
    type for each side.  What each side writes has its type, whatever the
    application does (preservation); and what has the type of one side is
    understood by the other: its metadata decodes, so that none of the error
    paths for malformed metadata, two of which panic, is taken (progress). *)

From S2P Require Import Prelude GoString Rpc Errors Metadata RequestContext Runtime TransportStream ServerStream Interceptors Server Chan Multiplexer ClientConn Unary ServerLoop ServerUnary ClientStream Streams RunStream.

Section types.
Context `{Unicode}.

(** A header and a trailer whose metadata can be read. *)
Definition good_header (h : RequestHeader) : Prop := Forall decodes (h_Headers h).
Definition good_trailer (t : option Trailer) : Prop := Forall decodes (default [] (GetMetadata t)).

Inductive from_client : Rpc → Prop :=
  (* a unary request, and a message of a stream *)
  | client_message id h b : good_header h → from_client (mkRpc id (Some h) None (Some b) None None)
  | client_open id h : good_header h → from_client (mkRpc id (Some h) None None None None)
  | client_close id h st :
      good_header h → from_client (mkRpc id (Some h) (Some st) None (Some (mkTrailer None)) None)
  | client_reset id h :
      good_header h → from_client (mkRpc id (Some h) None None None (Some (mkReset RST_STREAM))).

Inductive from_server : Rpc → Prop :=
  (* the response of a unary call, and the end of a stream *)
  | server_end id h st b md :
      good_header h → Forall decodes md →
      from_server (mkRpc id (Some h) st b (Some (mkTrailer (Some md))) None)
  | server_headers id h : good_header h → from_server (mkRpc id (Some h) None None None None)
  | server_message id h b : good_header h → from_server (mkRpc id (Some h) None (Some b) None None)
  | server_reset id h :
      good_header h →
      from_server (mkRpc id (Some h) None None (Some (mkTrailer None)) (Some (mkReset RST_STREAM))).

Lemma from_server_trailer rpc : from_server rpc → good_trailer (rpc_Trailer rpc).
Proof. destruct 1; unfold good_trailer; simpl; by try constructor. Qed.
Lemma from_server_headers rpc : from_server rpc → Forall decodes (GetHeaders (GetHeader (Some rpc))).
Proof. by destruct 1. Qed.
Lemma from_client_header rpc : from_client rpc → ∃ h, rpc_Header rpc = Some h ∧ good_header h.
Proof. destruct 1; by eexists. Qed.
End types.

(** ** What the server writes *)
Section server.
Context {Msg Impl Handler : Type}.
Context `{Unicode, MetadataPkg, StatusPkg, Codec Msg, StatsHandler Handler}.
Implicit Type ss : serverStream Handler.

Lemma pending_good ord ss : good_header (stream_header ss (pending ord ss)).
Proof. unfold good_header, pending. simpl. destruct (ss_headersSent ss); [constructor|apply ToKeyValue_decodes]. Qed.

Lemma ok_list_typed werr rpc : from_server rpc → Forall from_server (ok_list werr rpc).
Proof. intros Hr. by destruct werr; repeat constructor. Qed.

Lemma SendTrailer_typed ord werr e ss :
  Forall from_server (sent (log_of (SendTrailer (Msg:=Msg) ord werr e ss))).
Proof.
  destruct (run_SendTrailer (Msg:=Msg) ord werr e ss) as [Hc Ho].
  destruct (ss_trailersSent ss); [rewrite Hc by done; constructor|].
  destruct (Ho eq_refl) as (_ & -> & _).
  apply ok_list_typed, server_end; [apply pending_good|apply ToKeyValue_decodes].
Qed.

Lemma ss_exec_typed (o : ss_op (Msg:=Msg)) ss : Forall from_server (sent (log_of (ss_exec o ss))).
Proof.
  destruct o as [md|ord werr md|md|ord werr m|rd|ord werr e]; unfold ss_exec;
    try match goal with |- context [mbind _ ?m ss] => rewrite (proj2 (forget_st m ss)) end.
  - rewrite run_SetHeader. destruct (ss_headersSent ss); constructor.
  - destruct (run_SendHeader (Msg:=Msg) ord werr md ss) as [Hc Ho].
    destruct (ss_headersSent ss); [rewrite Hc by done; constructor|].
    destruct (Ho eq_refl) as (_ & -> & _). apply ok_list_typed, server_headers, ToKeyValue_decodes.
  - rewrite run_SetTrailer. constructor.
  - destruct (Marshal m) as [body|e] eqn:Em; [|rewrite (run_SendMsg_err _ _ _ e) by done; constructor].
    destruct (run_SendMsg (Handler:=Handler) ord werr m body ss Em) as (_ & -> & _).
    apply ok_list_typed, server_message, pending_good.
  - destruct (run_RecvMsg (Msg:=Msg) rd ss) as [_ ->]. constructor.
  - apply SendTrailer_typed.
Qed.

Lemma ss_run_typed (os : list (ss_op (Msg:=Msg))) ss : Forall from_server (sent (log_of (ss_run os ss))).
Proof.
  revert ss. induction os as [|o os IH]; intros ss; [constructor|].
  destruct (ss_run_cons o os ss) as [_ ->]. rewrite sent_app. apply Forall_app.
  split; [apply ss_exec_typed|apply IH].
Qed.

Lemma runStream_typed ord rd wr b clock (s : Server Msg Impl Handler) info sd rpc h id ctx :
  rpc_Header rpc = Some h →
  Forall from_server (sent (runStream ord rd wr b clock s info sd rpc id ctx).1).
Proof.
  intros Hh. rewrite (runStream_unfold ord rd wr b clock s info sd rpc h id ctx Hh). cbv zeta.
  set (stream := stream_of s info sd h id ctx).
  destruct (handle_stream_ops ord rd wr (stream_handler s info sd) stream eq_refl) as (os & r & j & _ & _ & Hrun).
  destruct r as [appErr|msg].
  - destruct Hrun as (-> & Hlog & _). simpl.
    rewrite !sent_app, StatsStartServerRPC_sent, StatsEndRPC_sent, app_nil_r, Hlog, sent_app. simpl.
    apply Forall_app. split; [apply ss_run_typed|apply SendTrailer_typed].
  - destruct Hrun as [-> Hlog]. simpl.
    rewrite !sent_app, StatsStartServerRPC_sent, StatsEndRPC_sent, app_nil_r, Hlog. apply ss_run_typed.
Qed.

(** Everything a server writes is well typed, whatever the handlers do: the
    response of processUnaryRpc, all that runStream writes for a stream, and
    the reset that answers an Rpc, are responses, headers, messages, ends and
    resets whose metadata decodes. *)
Theorem server_writes_typed ord (s : Server Msg Impl Handler) info :
  (∀ now b clock clientCtx md rpc r,
     dispatch s rpc = ToWorker info md rpc →
     (processUnaryRpc now b clock ord s clientCtx info md rpc).2 = Ret r → from_server r) ∧
  (∀ rd wr b clock sd rpc h id ctx, rpc_Header rpc = Some h →
     Forall from_server (sent (runStream ord rd wr b clock s info sd rpc id ctx).1)) ∧
  ∀ rpc, from_server (reset_rpc rpc).
Proof.
  split_and!.
  - intros now b clock clientCtx md rpc r Hd Hr.
    destruct (worker_result_response s clientCtx rpc r)
      as (h & ? & ? & ? & ? & ? & ? & sts & l & resp & appErr & _ & _ & _ & _ & _ & ->).
    { exists now, b, clock, ord, info, md. done. }
    apply server_end; apply ToKeyValue_decodes.
  - intros. by apply runStream_typed with (h := h).
  - intros rpc. apply server_reset. constructor.
Qed.
End server.

(** ** What the client writes, and reads *)
Section client.
Context {Msg Handler R : Type}.
Context `{Unicode, MetadataPkg, StatusPkg, Codec Msg, StatsHandler Handler}.
Implicit Type s : cstream Msg Handler.

(** What is known of a stream that reads only well-typed Rpcs. *)
Record cs_typed s : Prop := {
  ct_log : Forall from_client (sent (cs_log s));
  ct_trailer : good_trailer (p_trailer (cs_protected s));
  ct_loop : match cs_loop s with
    | LGot rpc => from_server rpc
    | LDefer tr _ | LTear _ tr _ | LFinish tr _ => good_trailer tr
    | _ => True
    end }.
Definition reads_typed (l : label Msg) : Prop := Forall from_server (reads_of l).

Lemma sent_cs_notify s ev : sent (cs_notify s ev) = [].
Proof. unfold cs_notify, notify. by induction (sa_statsHandlers (cs_args s)). Qed.

Lemma cs_lit_good s : good_header (cs_lit s).
Proof. constructor. Qed.

(** [l] is what a step adds to the log. *)
Lemma cs_typed_from s s' l :
  cs_typed s → cs_log s' = cs_log s ++ l → Forall from_client (sent l) →
  cs_protected s' = cs_protected s ∨ good_trailer (p_trailer (cs_protected s')) →
  cs_loop s' = cs_loop s ∨
    match cs_loop s' with
    | LGot rpc => from_server rpc
    | LDefer tr _ | LTear _ tr _ | LFinish tr _ => good_trailer tr
    | _ => True
    end →
  cs_typed s'.
Proof.
  intros [] Hlog Hl Hp Hloop. split.
  - rewrite Hlog, sent_app. by apply Forall_app.
  - by destruct Hp as [->|?].
  - by destruct Hloop as [->|?].
Qed.

Lemma cs_typed_silent s s' :
  cs_typed s → cs_log s' = cs_log s → cs_protected s' = cs_protected s →
  cs_loop s' = cs_loop s ∨
    match cs_loop s' with
    | LGot rpc => from_server rpc
    | LDefer tr _ | LTear _ tr _ | LFinish tr _ => good_trailer tr
    | _ => True
    end →
  cs_typed s'.
Proof.
  intros Hs Hlog Hp Hloop. apply (cs_typed_from s s' []); [done| |constructor|by left|done].
  by rewrite app_nil_r.
Qed.

Lemma good_trailer_None : good_trailer None.
Proof. constructor. Qed.
#[local] Hint Resolve good_trailer_None : core.

Lemma write_typed (rpc : Rpc) werr :
  from_client rpc → Forall from_client (sent (Msg:=Msg) (Handler:=Handler) [EWrite rpc werr]).
Proof. intros Hr. destruct werr; simpl; by repeat constructor. Qed.

Lemma onReady_typed err hd s : cs_typed s → cs_typed (onReady err hd s).
Proof.
  intros Hs. unfold onReady. destruct (cs_header s); [done|]. destruct err; simpl.
  - destruct Hs. by split.
  - eapply cs_typed_from; [exact Hs|done| |right; apply Hs|by left].
    rewrite sent_cs_notify. constructor.
Qed.

Lemma loop_handle_typed rpc s : cs_typed s → from_server rpc → cs_typed (loop_handle rpc s).
Proof.
  intros Hs Hr.
  assert (Hcont : ∀ s1, cs_typed s1 → cs_typed
    match errorIfDone rpc with
    | Some err => set_loop (LDefer (rpc_Trailer rpc) err) s1
    | None => match rpc_Body rpc with
              | None => set_loop LRead s1
              | Some body => set_loop (LSend body) s1
              end
    end).
  { intros s1 Hs1. repeat case_match; apply (cs_typed_silent s1); try done; right; [|done|done].
    by apply from_server_trailer. }
  unfold loop_handle. destruct (cs_header s); [by apply Hcont|].
  destruct (ToMetadata _); [by apply Hcont, onReady_typed|].
  apply (cs_typed_silent s); try done. right. apply good_trailer_None.
Qed.

Lemma SendMsg_write_typed werr m s : cs_typed s → cs_typed (SendMsg_write werr m s).1.
Proof.
  intros Hs. unfold SendMsg_write. destruct (Marshal m) as [body|e]; simpl.
  - set (rpc := mkRpc _ _ _ _ _ _).
    assert (from_client rpc) as Hr by (apply client_message, cs_lit_good).
    destruct werr; simpl.
    + apply (cs_typed_from s _ [EWrite rpc (Some e)]); [done| |constructor|by left|by left].
      simpl. by rewrite app_nil_r.
    + eapply (cs_typed_from s); [done|simpl; by rewrite <-app_assoc| |by left..].
      rewrite sent_app, sent_cs_notify, app_nil_r. by apply write_typed.
  - apply (cs_typed_from s _ []); [done|done|constructor|by left|by left].
Qed.

Lemma cs_typed_step s l s' : cs_typed s → reads_typed l → step (Ret s) l (Ret s') → cs_typed s'.
Proof.
  intros Hs Hl Hst. pose proof (ct_loop _ Hs) as Hloop. inversion Hst; subst; clear Hst;
    try (match goal with Hq : cs_loop _ = _ |- _ => rewrite Hq in Hloop end); try done;
    try (by apply (cs_typed_silent s); [..|left]);
    try (by apply (cs_typed_silent s); [..|right]).
  - apply (cs_typed_silent s); try done. right. by apply Forall_cons in Hl as [? _].
  - unfold loop_error. apply (cs_typed_silent (onReady (toStatusError err) None s));
      [by apply onReady_typed|done|done|right; apply good_trailer_None].
  - by apply loop_handle_typed.
  - unfold RecvMsg_body. destruct (Unmarshal _); simpl.
    + eapply (cs_typed_from s); [done|done| |by left|by right].
      rewrite sent_cs_notify. constructor.
    + by apply (cs_typed_silent s); [..|right].
  - apply (cs_typed_silent s); try done. right. apply good_trailer_None.
  - match goal with Hd : defer_lock _ _ _ = _ |- _ => unfold defer_lock in Hd; rename Hd into Hdl end.
    destruct (cs_rCh_closed s); [done|]. injection Hdl as <-. by apply (cs_typed_silent s); [..|right].
  - eapply (cs_typed_from s); [done|done| |by left|by right].
    destruct rst; [|constructor]. apply write_typed, client_reset, cs_lit_good.
  - eapply (cs_typed_from s); [done|done| |by right|by right].
    rewrite sent_cs_notify. constructor.
  - apply (cs_typed_silent (SendMsg_write werr m s).1); [by apply SendMsg_write_typed|done|done|by left].
  - eapply (cs_typed_from s); [done|done| |by left|by left].
    rewrite sent_app, sent_cs_notify. apply write_typed, client_close, cs_lit_good.
  - by destruct (Trailer_ s); simplify_eq/=.
Qed.

Lemma cs_typed_trace args ls s :
  trace step (Ret (NewClientStream (Msg:=Msg) (Handler:=Handler) args)) ls (Ret s) →
  Forall from_server (reads ls) → cs_typed s.
Proof.
  intros Htr Hr.
  refine (trace_history_invariant step
    (λ h o, Forall from_server (reads h) → match o with Ret s => cs_typed s | Panic _ => True end)
    _ [] _ ls (Ret s) _ Htr Hr); [|intros _; by split; [constructor|apply good_trailer_None|]].
  clear. intros h [s|] l [s'|] Hinv Hst Hreads; try done; [|inversion Hst].
  rewrite cs_reads_snoc in Hreads. apply Forall_app in Hreads as [Hh Hl].
  eapply cs_typed_step; [by apply Hinv|exact Hl|exact Hst].
Qed.

(** C16: everything a client writes is well typed: the request of a unary call, the
    opening Rpc of a stream, and, as long as the server keeps to its type, all
    that a client stream writes, whatever the application calls and in whatever
    order.  And such a stream can read what it gets: the metadata of every Rpc
    decodes, and Trailer does not panic ("Trailer err"). *)
Theorem client_typed args ls s (cc : ClientConn Msg Handler R) :
  trace step (Ret (NewClientStream args)) ls (Ret s) → Forall from_server (reads ls) →
  (∀ id now ord ctx method b, from_client (request_rpc id (request_header now ord cc ctx method) b)) ∧
  (∀ now b e ord rw werr ctx desc method opts,
     Forall from_client (sent (newStream now b e ord rw werr cc ctx desc method opts).1)) ∧
  Forall from_client (sent (cs_log s)) ∧
  (∃ md, Trailer_ s = Ret md) ∧
  Forall (λ rpc, ∃ md, ToMetadata (GetHeaders (GetHeader (Some rpc))) = Ok md) (reads ls).
Proof.
  intros Htr Hr. pose proof (cs_typed_trace args ls s Htr Hr) as [Hlog Htrail _]. split_and!.
  - intros. apply client_message, headersFromContext_decodes.
  - intros now b e ord rw werr ctx desc method opts. unfold newStream.
    destruct (negb _); [constructor|]. destruct rw as [id|err]; [|constructor].
    pose proof (stats_start_loop_sent (Msg:=Msg) (cc_statsHandlers cc) true b method
      (csd_ClientStreams desc) (csd_ServerStreams desc) ∅ ctx) as Hl.
    destruct (stats_start_loop _ _ _ _ _ _ _ _) as [l1 ctx1]. simpl in Hl.
    destruct werr; simpl; rewrite !sent_app, Hl; simpl; autorewrite with goat_sent; [constructor|].
    apply Forall_singleton, client_open, headersFromContext_decodes.
  - done.
  - unfold Trailer_. unfold good_trailer in Htrail.
    destruct (GetMetadata _) as [kvs|]; [|by eexists].
    apply (ToMetadata_loop_ok ∅) in Htrail as [md Hmd]. unfold ToMetadata. simpl in Hmd. rewrite Hmd. by eexists.
  - eapply Forall_impl; [exact Hr|]. intros rpc Hf%from_server_headers. by apply ToMetadata_loop_ok.
Qed.
End client.

(** ** What the server makes of it *)
Section accepted.
Context {Msg Impl Handler : Type}.
Context `{Unicode, MetadataPkg, StatusPkg, Codec Msg, StatsHandler Handler}.

(** A good header is no reason to panic. *)
Lemma processUnaryRpc_good_header now b clock ord (s : Server Msg Impl Handler) clientCtx info md rpc h msg :
  rpc_Header rpc = Some h → good_header h →
  (processUnaryRpc now b clock ord s clientCtx info md rpc).2 = Panic msg ↔
  (handler_run now s clientCtx info md rpc h).2 = Panic msg.
Proof.
  intros Hh Hgood.
  pose proof (processUnaryRpc_ok now b clock ord s clientCtx info md rpc h Hh Hgood) as Hp. cbv zeta in Hp.
  destruct (handler_run now s clientCtx info md rpc h) as [[sts l] [[resp appErr]|m]];
    rewrite Hp; simpl; split; congruence.
Qed.

(** The server accepts what is typed as a client's: its metadata decodes; an
    Rpc that opens a stream which is not registered starts one (it is not
    answered with a reset); and processUnaryRpc panics on it only if the handler
    panics, so that a well-typed request never takes the panic on malformed
    headers, which would end the server. *)
Theorem server_accepts_typed rpc now (clientCtx : Ctx) streams :
  from_client rpc →
  (∃ h, rpc_Header rpc = Some h ∧ (contextFromHeaders now clientCtx h).2 = None ∧
     ∀ b clock ord (s : Server Msg Impl Handler) info md msg,
       (processUnaryRpc now b clock ord s clientCtx info md rpc).2 = Panic msg ↔
       (handler_run now s clientCtx info md rpc h).2 = Panic msg) ∧
  (streams !! rpc_Id rpc = None → rpc_Body rpc = None → rpc_Trailer rpc = None → rpc_Reset rpc = None →
   stream_decide now clientCtx streams rpc = SStart).
Proof.
  intros Hc. destruct (from_client_header rpc Hc) as (h & Hh & Hgood).
  assert (Hctx : (contextFromHeaders now clientCtx h).2 = None).
  { destruct (contextFromHeaders now clientCtx h).2 as [e|] eqn:E; [|done].
    by destruct (proj1 (contextFromHeaders_error now clientCtx h) (ex_intro _ e E)). }
  split.
  - exists h. split_and!; [done..|]. intros b clock ord s info md msg.
    by apply processUnaryRpc_good_header.
  - intros Hs Hb Ht Hr. unfold stream_decide, is_reset. simpl. by rewrite Hs, Hr, Hb, Ht, Hh, Hctx.
Qed.
End accepted.

(** ** Concrete Rpcs *)
Section witness.
Import RuntimeModel ServerExample StreamExample.
#[local] Existing Instances codec stats StatusModel.pkg MetadataModel.Join MetadataModel.no_unicode.

Definition typed_open : Rpc :=
  mkRpc 3 (Some (mkRequestHeader "/pkg.Svc/Watch" [] "cli" "srv" [] None)) None None None None.
Lemma server_writes_typed_witness : from_server echo_resp ∧ from_server (reset_rpc typed_open).
Proof.
  destruct (server_writes_typed (Handler:=nat) MetadataModel.order server1 info) as (Hu & _ & Hr).
  split; [|apply Hr].
  apply (Hu 0%Z 0%Z (λ _, 0%Z) Background echo (ServerExample.request [])); [reflexivity|by vm_compute].
Defined.

Lemma client_typed_witness : ∃ md, Trailer_ final_state = Ret md.
Proof.
  destruct (client_typed (Msg:=Msg) args history final_state example_conn history_trace)
    as (_ & _ & _ & Hmd & _); [|exact Hmd].
  repeat (apply Forall_cons; split); [| | |by apply Forall_nil].
  - apply server_message. apply Forall_singleton. by exists "v".
  - apply server_message. apply Forall_nil. done.
  - apply server_end; apply Forall_nil; done.
Defined.

Lemma server_accepts_typed_witness :
  stream_decide 0 Background ∅ typed_open = SStart.
Proof.
  refine (proj2 (server_accepts_typed (Msg:=Msg) (Impl:=()) (Handler:=nat) typed_open 0 Background ∅ _)
    eq_refl eq_refl eq_refl eq_refl).
  apply client_open. constructor.
Defined.
End witness.
