(* ===== verification/Handlers.v ===== *)
(** * server.go: the streams' handlers in their goroutines

    In file [ServerLoop] a stream's handler is part of the environment; in file
    [RunStream] the transport is.  Here the two are put together: the goroutines
    of a connection, in which those of the streams run [runStream], with the
    handlers that are registered, over the real channels.  A handler stops at
    each call of its stream: inside the select of the writer function, or of the
    reader function, until the connection goes on; so calls of different streams
    interleave freely.  The main theorem is that whatever a goroutine does there
    is what [RunStream.runStream] does for some answers of the transport, so that
    all that was proved of [runStream] holds in every history of a connection. *)

From S2P Require Import Prelude GoString Rpc Errors Metadata RequestContext Runtime TransportStream ServerStream Interceptors Server ClientStream Streams RunStream Wire ServerLoop ServerUnary.

Section handlers.
Context {Msg Impl Handler : Type}.
Context `{Unicode, MetadataPkg, StatusPkg, Codec Msg, StatsHandler Handler}.
Context (srv : Server Msg Impl Handler) (clientCtx : Ctx) (ord : map_range).

(** ** A handler that stops at its calls *)

(** Where it is: in its own code, about to do the next call of [p]; inside that
    call, in the select of writerFunc with [rpc] or in that of readerFunc; or past
    SendTrailer, with the error of the handler and of the trailer's Write. *)
Inductive point :=
  | AtCode (p : sprog Msg)
  | AtWrite (p : sprog Msg) (rpc : Rpc)
  | AtRead (k : option Msg → option error → sprog Msg)
  | AtEnd (appErr err : option error).

(** [p_log]: what its calls have done so far. *)
Record proc := mkProc {
  p_at : point;
  p_stream : serverStream Handler;
  p_log : list (effect Msg Handler) }.

Abbreviation SM := (M (serverStream Handler) (effect Msg Handler)).

(** The next call of [p], from its start to its end, if Write answers [werr] and
    Read answers [rd]. *)
Definition call (werr : option error) (rd : result Rpc) (p : sprog Msg) : SM point :=
  match p with
  | SRet appErr => err ← SendTrailer ord werr appErr; mret (AtEnd appErr err)
  | SPanic msg => throw msg
  | SSendMsg m k => err ← SendMsg ord werr m; mret (AtCode (k err))
  | SRecvMsg k => '(m, err) ← RecvMsg rd; mret (AtCode (k m err))
  | SSetHeader md k => err ← SetHeader md; mret (AtCode (k err))
  | SSendHeader md k => err ← SendHeader ord werr md; mret (AtCode (k err))
  | SSetTrailer md k => _ ← SetTrailer md; mret (AtCode k)
  end.

(** The Rpc that the call hands to writerFunc, if it gets there. *)
Definition wants (p : sprog Msg) (ss : serverStream Handler) : list Rpc :=
  sent (log_of (call None (Err EOF) p ss)).
Definition receives (p : sprog Msg) : bool := match p with SRecvMsg _ => true | _ => false end.
Definition ends_with (p : sprog Msg) : bool := match p with SRet _ => true | _ => false end.

Definition exec (m : SM point) (pr : proc) : outcome proc :=
  match m (p_stream pr) with
  | (ss, l, r) => pt ← r; Ret (mkProc pt ss (p_log pr ++ l))
  end.
Definition set_at (pt : point) (pr : proc) : proc := mkProc pt (p_stream pr) (p_log pr).

(** [PAsk last rpc]: the handler enters the select of writerFunc, from SendTrailer
    when [last]; [PWrote]: it leaves it. *)
Inductive plabel :=
  | PLocal
  | PAsk (last : bool) (rpc : Rpc)
  | PWrote (rpc : Rpc) (werr : option error)
  | PRecv
  | PGot (rd : result Rpc).

Inductive pstep : proc → plabel → outcome proc → Prop :=
  (* a call that neither writes nor reads *)
  | p_local pr p :
      p_at pr = AtCode p → wants p (p_stream pr) = [] → receives p = false →
      pstep pr PLocal (exec (call None (Err EOF) p) pr)
  | p_ask pr p rpc :
      p_at pr = AtCode p → wants p (p_stream pr) = [rpc] →
      pstep pr (PAsk (ends_with p) rpc) (Ret (set_at (AtWrite p rpc) pr))
  | p_wrote pr p rpc werr :
      p_at pr = AtWrite p rpc → pstep pr (PWrote rpc werr) (exec (call werr (Err EOF) p) pr)
  | p_recv pr k :
      p_at pr = AtCode (SRecvMsg k) → pstep pr PRecv (Ret (set_at (AtRead k) pr))
  | p_got pr k rd :
      p_at pr = AtRead k → pstep pr (PGot rd) (exec (call None rd (SRecvMsg k)) pr).

(** ** The connection with its handlers *)
Record driven := mkDriven {
  d_conn : conn;
  d_procs : gmap nat proc }.
Definition driven_init : driven := mkDriven newHandler ∅.

(** runStream up to the handler: the goroutine that the serve loop starts. *)
Definition start_proc (info : serviceInfo Msg Impl) (sd : StreamDesc Msg Impl) (h : RequestHeader)
    (streamId : Z) (ctx : Ctx) : proc :=
  mkProc (AtCode (stream_handler srv info sd)) (stream_of srv info sd h streamId ctx) [].
Definition started (l : label) (v : conn) (ps : gmap nat proc) : gmap nat proc :=
  match l, v_serve v with
  | VStream now, VLock rpc =>
      match stream_decide now clientCtx (v_streams v) rpc, dispatch srv rpc, rpc_Header rpc with
      | SStart, ToStream info sd _, Some h =>
          <[new_stream v := start_proc info sd h (rpc_Id rpc) (contextFromHeaders now clientCtx h).1]> ps
      | _, _, _ => ps
      end
  | _, _ => ps
  end.

(** What a step of the connection is for the handler of goroutine [g]; the
    contexts end with one of two errors. *)
Definition ctx_error (err : error) : Prop := err = Canceled ∨ err = DeadlineExceeded.
Inductive handler_label : label → nat → plabel → Prop :=
  | h_send g rpc : handler_label (EnvSend g rpc) g (PAsk false rpc)
  | h_return g rpc : handler_label (EnvReturn g rpc) g (PAsk true rpc)
  | h_wrote g rpc : handler_label (WriteStream g rpc) g (PWrote rpc None)
  | h_send_ctx g rpc err : ctx_error err → handler_label (SendCtx g) g (PWrote rpc (Some err))
  | h_recv g : handler_label (EnvRecv g) g PRecv
  | h_got g rpc : handler_label (GotRpc g rpc) g (PGot (Ok rpc))
  | h_got_ctx g err : ctx_error err → handler_label (GotCtx g) g (PGot (Err err)).
(** (A handler's panic is a step of its own code, see [d_code].) *)
Definition of_handler (l : label) : Prop :=
  match l with
  | EnvSend _ _ | EnvReturn _ _ | WriteStream _ _ | SendCtx _ | EnvRecv _ | GotRpc _ _ | GotCtx _
  | EnvPanic _ _ => True
  | _ => False
  end.

Inductive dlabel :=
  | Conn (l : label)
  | Code (g : nat).     (* the handler's own code, up to its next call *)

Inductive dstep : outcome driven → dlabel → outcome driven → Prop :=
  | d_conn_step v ps l o :
      ¬ of_handler l → step srv clientCtx (Ret v) l o →
      dstep (Ret (mkDriven v ps)) (Conn l) (v' ← o; Ret (mkDriven v' (started l v ps)))
  | d_handler v v' ps l g pr pl o :
      handler_label l g pl → step srv clientCtx (Ret v) l (Ret v') → ps !! g = Some pr → pstep pr pl o →
      dstep (Ret (mkDriven v ps)) (Conn l) (pr' ← o; Ret (mkDriven v' (<[g := pr']> ps)))
  | d_code v ps g pr o :
      ps !! g = Some pr → pstep pr PLocal o →
      dstep (Ret (mkDriven v ps)) (Code g) (pr' ← o; Ret (mkDriven v (<[g := pr']> ps))).

(** The history of the connection, and what it took from a goroutine. *)
Definition conn_label (l : dlabel) : list label := match l with Conn l => [l] | Code _ => [] end.
Definition conn_history (h : list dlabel) : list label := h ≫= conn_label.
Definition handed_of (g : nat) (l : label) : list Rpc :=
  match l with WriteStream g' rpc => if decide (g' = g) then [rpc] else [] | _ => [] end.
Definition handed (g : nat) (h : list label) : list Rpc := h ≫= handed_of g.

(** ** One call *)
Lemma bind_pure {A B} (m : SM A) (f : A → B) ss r :
  res_of (m ss) = Ret r → mbind (λ a, mret (f a)) m ss = (st_of (m ss), log_of (m ss), Ret (f r)).
Proof. intros Hr. rewrite bind_run, Hr. unfold mret, M_ret. simpl. by rewrite app_nil_r. Qed.

(** What a call does to its stream when the Write answers [werr]: it keeps the id,
    it hands over [wants], and only SendTrailer ends it. *)
Definition call_ok (werr : option error) (rd : result Rpc) (p : sprog Msg) (ss : serverStream Handler) : Prop :=
  ∃ ss' l pt, call werr rd p ss = (ss', l, Ret pt) ∧ ss_id ss' = ss_id ss ∧
    sent l = (if werr is Some _ then [] else wants p ss) ∧
    match pt with
    | AtCode _ => ends_with p = false ∧ ss_trailersSent ss' = ss_trailersSent ss
    | AtEnd _ _ => ends_with p = true
    | _ => False
    end.

Lemma ok_list_if werr (rpc : Rpc) : ok_list werr rpc = (if werr is Some _ then [] else [rpc]).
Proof. by destruct werr. Qed.

Lemma call_SendMsg werr rd m k ss : call_ok werr rd (SSendMsg m k) ss.
Proof.
  unfold call_ok, wants, call. destruct (Marshal m) as [body|e] eqn:Em.
  - destruct (run_SendMsg (Handler:=Handler) ord werr m body ss Em) as (Hst & Hs & Hr).
    destruct (run_SendMsg (Handler:=Handler) ord None m body ss Em) as (_ & Hs0 & Hr0).
    rewrite (bind_pure _ _ _ _ Hr), (bind_pure _ _ _ _ Hr0). do 3 eexists. split; [done|].
    rewrite Hst, Hs. unfold log_of at 1. simpl. rewrite Hs0, ok_list_if. by destruct werr.
  - rewrite !(bind_pure _ _ _ (Some e)), !(run_SendMsg_err _ _ _ e) by (done || by rewrite (run_SendMsg_err _ _ _ e)).
    do 3 eexists. split; [done|]. by destruct werr.
Qed.

Lemma call_SendHeader werr rd md k ss : call_ok werr rd (SSendHeader md k) ss.
Proof.
  unfold call_ok, wants, call.
  destruct (run_SendHeader (Msg:=Msg) ord werr md ss) as [Ht Hf].
  destruct (run_SendHeader (Msg:=Msg) ord None md ss) as [Ht0 Hf0].
  destruct (ss_headersSent ss).
  - rewrite !(bind_pure _ _ _ (Some headers_already_sent)), Ht, Ht0 by (done || by rewrite ?Ht, ?Ht0).
    do 3 eexists. split; [done|]. by destruct werr.
  - destruct (Hf eq_refl) as (Hst & Hs & Hr). destruct (Hf0 eq_refl) as (_ & Hs0 & Hr0).
    rewrite (bind_pure _ _ _ _ Hr), (bind_pure _ _ _ _ Hr0). do 3 eexists. split; [done|].
    rewrite Hst, Hs. unfold log_of at 1. simpl. rewrite Hs0, ok_list_if. by destruct werr.
Qed.

Lemma call_SendTrailer werr rd e ss : ss_trailersSent ss = false → call_ok werr rd (SRet e) ss.
Proof.
  intros Hts. unfold call_ok, wants, call.
  destruct (run_SendTrailer (Msg:=Msg) ord werr e ss) as [_ Hf]. destruct (Hf Hts) as (Hst & Hs & Hr).
  destruct (run_SendTrailer (Msg:=Msg) ord None e ss) as [_ Hf0]. destruct (Hf0 Hts) as (_ & Hs0 & Hr0).
  rewrite (bind_pure _ _ _ _ Hr), (bind_pure _ _ _ _ Hr0). do 3 eexists. split; [done|].
  rewrite Hst, Hs. unfold log_of at 1. simpl. rewrite Hs0, ok_list_if. by destruct werr.
Qed.

Lemma call_RecvMsg werr rd k ss : call_ok werr rd (SRecvMsg k) ss ∧ wants (SRecvMsg k) ss = [].
Proof.
  assert (Hr : ∀ rd, ∃ m e, res_of (RecvMsg (Msg:=Msg) (Handler:=Handler) rd ss) = Ret (m, e)).
  { intros [rpc|e]; unfold RecvMsg; [|by do 2 eexists].
    destruct (GetTrailer (Some rpc)); [case_decide; by do 2 eexists|].
    destruct (Unmarshal _); by do 2 eexists. }
  assert (Hw : wants (SRecvMsg k) ss = []).
  { unfold wants, call. destruct (Hr (Err EOF)) as (m & e & Hre). by rewrite bind_run, Hre. }
  split; [|done]. unfold call_ok. rewrite Hw. unfold call. destruct (Hr rd) as (m & e & Hre).
  destruct (run_RecvMsg (Msg:=Msg) rd ss) as [Hst Hs]. rewrite bind_run, Hre. do 3 eexists. split; [done|].
  simpl. rewrite app_nil_r, Hst, Hs. by destruct werr.
Qed.

Lemma call_local_ok werr rd p ss :
  match p with SSetHeader _ _ | SSetTrailer _ _ => True | _ => False end → call_ok werr rd p ss ∧ wants p ss = [].
Proof.
  destruct p as [| | | |md k| |md k]; try done; intros _; unfold call_ok, wants, call.
  - rewrite bind_run, run_SetHeader. destruct (ss_headersSent ss); (split; [|done]);
      do 3 eexists; (split; [done|]); simpl; by destruct werr.
  - rewrite bind_run, run_SetTrailer. split; [|done]. do 3 eexists. split; [done|]. simpl.
    destruct ss as [????????? []], werr; done.
Qed.

Lemma call_total werr rd p ss :
  ss_trailersSent ss = false → call_ok werr rd p ss ∨ ∃ msg, p = SPanic msg.
Proof.
  intros Ht. destruct p; eauto using call_SendMsg, call_SendHeader, call_SendTrailer.
  - left. apply call_RecvMsg.
  - left. by apply call_local_ok.
  - left. by apply call_local_ok.
Qed.

Lemma wants_recv k ss : wants (SRecvMsg k) ss = [].
Proof. by apply (call_RecvMsg None (Err EOF)). Qed.

(** A call hands over at most one Rpc, which carries the id of the stream; and if
    it hands over none and receives none, no answer matters to it. *)
Lemma wants_spec p ss :
  ss_trailersSent ss = false →
  (wants p ss = [] ∧ ends_with p = false ∧
     ∀ werr rd, receives p = false → call werr rd p ss = call None (Err EOF) p ss) ∨
  ∃ rpc, wants p ss = [rpc] ∧ rpc_Id rpc = ss_id ss ∧ receives p = false.
Proof.
  intros Hts. destruct p as [e|msg|m k|k|md k|md k|md k]; try (left; by split_and!).
  - right. unfold wants, call. destruct (run_SendTrailer (Msg:=Msg) ord None e ss) as [_ Hf].
    destruct (Hf Hts) as (_ & Hs & Hr). rewrite (bind_pure _ _ _ _ Hr). unfold log_of at 1. simpl.
    rewrite Hs. by eexists.
  - unfold wants, call. destruct (Marshal m) as [body|e] eqn:Em.
    + right. destruct (run_SendMsg (Handler:=Handler) ord None m body ss Em) as (_ & Hs & Hr).
      rewrite (bind_pure _ _ _ _ Hr). unfold log_of at 1. simpl. rewrite Hs. by eexists.
    + left. assert (Hc : ∀ werr, mbind (λ err, mret (AtCode (k err))) (SendMsg (Handler:=Handler) ord werr m) ss =
        (ss, [], Ret (AtCode (k (Some e))))) by (intros; by rewrite bind_run, (run_SendMsg_err _ _ _ e)).
      split_and!; [by rewrite Hc|done|]. intros. by rewrite !Hc.
  - left. split_and!; [by apply (call_local_ok None (Err EOF))|done|done].
  - unfold wants, call. destruct (ss_headersSent ss) eqn:Eh.
    + left. assert (Hc : ∀ werr, mbind (λ err, mret (AtCode (k err))) (SendHeader (Msg:=Msg) ord werr md) ss =
        (ss, [], Ret (AtCode (k (Some headers_already_sent)))))
        by (intros; by rewrite bind_run, (proj1 (run_SendHeader _ _ _ _) Eh)).
      split_and!; [by rewrite Hc|done|]. intros. by rewrite !Hc.
    + right. destruct (run_SendHeader (Msg:=Msg) ord None md ss) as [_ Hf]. destruct (Hf Eh) as (_ & Hs & Hr).
      rewrite (bind_pure _ _ _ _ Hr). unfold log_of at 1. simpl. rewrite Hs. by eexists.
  - left. split_and!; [by apply (call_local_ok None (Err EOF))|done|done].
Qed.

(** ** What is left of a run *)
Definition finish (rd : nat → result Rpc) (wr : nat → option error) (i j : nat) (p : sprog Msg)
    : SM (option error * option error) :=
  '(appErr, j) ← run_sprog ord rd wr i j p;
  err ← SendTrailer ord (wr j) appErr;
  mret (appErr, err).
Definition resume (rd : nat → result Rpc) (wr : nat → option error) (i j : nat) (pt : point)
    : SM (option error * option error) :=
  match pt with
  | AtCode p | AtWrite p _ => finish rd wr i j p
  | AtRead k => finish rd wr i j (SRecvMsg k)
  | AtEnd appErr err => mret (appErr, err)
  end.

(** The answers that a call uses up. *)
Definition uses_rd (p : sprog Msg) : nat := if receives p then 1 else 0.
Definition uses_wr (p : sprog Msg) : nat :=
  match p with SRet _ | SSendMsg _ _ | SSendHeader _ _ => 1 | _ => 0 end.

Lemma finish_call rd wr i j p ss :
  finish rd wr i j p ss = mbind (resume rd wr (i + uses_rd p) (j + uses_wr p)) (call (wr j) (rd i) p) ss.
Proof.
  unfold finish, uses_rd, uses_wr.
  destruct p as [e|msg|m k|k|md k|md k|md k]; cbn [call run_sprog receives];
    rewrite ?Nat.add_0_r, ?Nat.add_1_r.
  - rewrite M_ret_bind, M_bind_assoc. by apply M_bind_ext.
  - done.
  - rewrite !M_bind_assoc. apply M_bind_ext. intros err s. by rewrite M_ret_bind.
  - rewrite !M_bind_assoc. apply M_bind_ext. intros [m err] s. by rewrite M_ret_bind.
  - rewrite !M_bind_assoc. apply M_bind_ext. intros err s. by rewrite M_ret_bind.
  - rewrite !M_bind_assoc. apply M_bind_ext. intros err s. by rewrite M_ret_bind.
  - rewrite !M_bind_assoc. apply M_bind_ext. intros [] s. by rewrite M_ret_bind.
Qed.

(** [pr] is on its way through the run of [p0] on [ss0]: whatever else will be
    answered, that run is what [pr] has done and what is left to do. *)
Definition prepend {S E A} (l : list E) (r : S * list E * outcome A) : S * list E * outcome A :=
  match r with (s, l', a) => (s, l ++ l', a) end.
Definition on_way (p0 : sprog Msg) (ss0 : serverStream Handler) (pr : proc)
    (rds : list (result Rpc)) (wrs : list (option error)) : Prop :=
  ∀ rd wr, (∀ n r, rds !! n = Some r → rd n = r) → (∀ n w, wrs !! n = Some w → wr n = w) →
    handle_stream ord rd wr p0 ss0 =
      prepend (p_log pr) (resume rd wr (length rds) (length wrs) (p_at pr) (p_stream pr)).

Lemma prepend_app {S E A} (l1 l2 : list E) (r : S * list E * outcome A) :
  prepend (l1 ++ l2) r = prepend l1 (prepend l2 r).
Proof. destruct r as [[s l] a]. simpl. by rewrite app_assoc. Qed.

(** A call that was made, with its answers. *)
Lemma on_way_exec p0 ss0 pr rds wrs p werr rd pr' rds' wrs' :
  on_way p0 ss0 pr rds wrs → exec (call werr rd p) pr = Ret pr' →
  (p_at pr = AtCode p ∨ (∃ rpc, p_at pr = AtWrite p rpc) ∨ ∃ k, p = SRecvMsg k ∧ p_at pr = AtRead k) →
  length rds' = uses_rd p → length wrs' = uses_wr p →
  (∀ w r, (∀ n x, wrs' !! n = Some x → w = x) → (∀ n x, rds' !! n = Some x → r = x) →
    call w r p (p_stream pr) = call werr rd p (p_stream pr)) →
  on_way p0 ss0 pr' (rds ++ rds') (wrs ++ wrs').
Proof.
  intros Hway Hex Hat Hlr Hlw Hans rdf wrf Hrd Hwr.
  rewrite (Hway rdf wrf).
  2: { intros n r Hn. apply Hrd. by apply lookup_app_l_Some. }
  2: { intros n w Hn. apply Hwr. by apply lookup_app_l_Some. }
  assert (resume rdf wrf (length rds) (length wrs) (p_at pr) (p_stream pr) =
    finish rdf wrf (length rds) (length wrs) p (p_stream pr)) as ->
    by (by destruct Hat as [->|[[? ->]|(? & -> & ->)]]).
  rewrite finish_call. unfold mbind, M_bind. rewrite Hans.
  - unfold exec in Hex. destruct (call werr rd p (p_stream pr)) as [[ss l] [pt|]]; simplify_eq/=.
    rewrite !length_app, Hlr, Hlw. unfold prepend.
    destruct (resume _ _ _ _ _ _) as [[??]?]. by rewrite app_assoc.
  - intros n x Hx. destruct n as [|n].
    + rewrite <-(Hwr (length wrs + 0) x); [by rewrite Nat.add_0_r|]. rewrite lookup_app_r by lia. by replace (length wrs + 0 - length wrs) with 0 by lia.
    + apply lookup_lt_Some in Hx. rewrite Hlw in Hx. unfold uses_wr in Hx. destruct p; lia.
  - intros n x Hx. destruct n as [|n].
    + rewrite <-(Hrd (length rds + 0) x); [by rewrite Nat.add_0_r|]. rewrite lookup_app_r by lia. by replace (length rds + 0 - length rds) with 0 by lia.
    + apply lookup_lt_Some in Hx. rewrite Hlr in Hx. unfold uses_rd in Hx. destruct (receives p); lia.
Qed.

(** ** One step of a handler *)
Record proc_ok (id : Z) (pr : proc) : Prop := {
  pk_id : ss_id (p_stream pr) = id;
  pk_open : match p_at pr with AtEnd _ _ => True | _ => ss_trailersSent (p_stream pr) = false end;
  pk_write p rpc : p_at pr = AtWrite p rpc → wants p (p_stream pr) = [rpc] }.

Definition got (pl : plabel) : list (result Rpc) := match pl with PGot rd => [rd] | _ => [] end.
Definition wrote (pl : plabel) : list Rpc := match pl with PWrote rpc None => [rpc] | _ => [] end.

(** The call that a handler comes back from. *)
Lemma exec_ok id pr p werr rd pr' :
  proc_ok id pr → (∀ a e, p_at pr ≠ AtEnd a e) → exec (call werr rd p) pr = Ret pr' →
  proc_ok id pr' ∧
  sent (p_log pr') = sent (p_log pr) ++ (if werr is Some _ then [] else wants p (p_stream pr)) ∧
  match p_at pr' with
  | AtCode _ => ends_with p = false
  | AtEnd _ _ => ends_with p = true
  | _ => False
  end.
Proof.
  intros [Hid Hopen Hw] Hat Hex.
  assert (Hts : ss_trailersSent (p_stream pr) = false)
    by (destruct (p_at pr) as [| | |a e]; try done; by destruct (Hat a e)).
  unfold exec in Hex. destruct (call_total werr rd p (p_stream pr) Hts) as [(ss' & l & pt & Hc & Hi & Hs & Hpt)|[msg ->]].
  - rewrite Hc in Hex. injection Hex as <-. simpl. rewrite sent_app, Hs. split_and!; [|done|].
    + split; simpl; [congruence| |].
      * destruct pt; try done. destruct Hpt as [_ ->]. done.
      * intros ? ? ->. done.
    + destruct pt; try done. by destruct Hpt.
  - done.
Qed.

Lemma pstep_ok id p0 ss0 pr pl pr' rds wrs :
  proc_ok id pr → on_way p0 ss0 pr rds wrs → pstep pr pl (Ret pr') →
  proc_ok id pr' ∧ (∃ wrs', on_way p0 ss0 pr' (rds ++ got pl) (wrs ++ wrs')) ∧
  sent (p_log pr') = sent (p_log pr) ++ wrote pl.
Proof.
  intros Hok Hway Hst. inversion Hst as [? p Hat Hw Hr Heq|? p rpc Hat Hw Heq|? p rpc werr Hat Heq|? k Hat Heq|? k rd Hat Heq];
    subst; simpl got; simpl wrote; rewrite ?app_nil_r.
  - match goal with He : _ = Ret pr' |- _ => rename He into Hex end.
    assert (Hts : ss_trailersSent (p_stream pr) = false) by (pose proof (pk_open _ _ Hok) as Ho; by rewrite Hat in Ho).
    destruct (exec_ok id pr p _ _ pr' Hok ltac:(by rewrite Hat) Hex) as (Hok' & Hs & _). rewrite Hw, app_nil_r in Hs.
    split_and!; [done| |done]. exists (replicate (uses_wr p) None). rewrite <-(app_nil_r rds).
    eapply on_way_exec; [done..|by left|by unfold uses_rd; rewrite Hr|by rewrite length_replicate|].
    intros w r _ _. destruct (wants_spec p (p_stream pr) Hts) as [(_ & _ & Hc)|(rpc & Hn & _)]; [by apply Hc|congruence].
  - split_and!; [|exists []; rewrite app_nil_r|done].
    + destruct Hok as [? Ho ?]. rewrite Hat in Ho. split; simpl; try done. by intros ? ? [= -> ->].
    + intros rd wr Hrd Hwr. rewrite (Hway rd wr Hrd Hwr). simpl. by rewrite Hat.
  - match goal with He : _ = Ret pr' |- _ => rename He into Hex end.
    pose proof (pk_write _ _ Hok _ _ Hat) as Hw.
    assert (Hts : ss_trailersSent (p_stream pr) = false) by (pose proof (pk_open _ _ Hok) as Ho; by rewrite Hat in Ho).
    destruct (exec_ok id pr p _ _ pr' Hok ltac:(by rewrite Hat) Hex) as (Hok' & Hs & _).
    assert (receives p = false) as Hr by (destruct (wants_spec p (p_stream pr) Hts) as [(? & _)|(? & _ & _ & ?)]; congruence).
    split_and!; [done| |rewrite Hs, Hw; by destruct werr].
    exists (replicate (uses_wr p) werr). rewrite <-(app_nil_r rds).
    eapply on_way_exec; [done..|by right; left; exists rpc|by unfold uses_rd; rewrite Hr|by rewrite length_replicate|].
    intros w r Hwr _. destruct p; try done; by rewrite (Hwr 0 werr eq_refl).
  - split_and!; [|exists []; rewrite app_nil_r|done].
    + destruct Hok as [? Ho ?]. rewrite Hat in Ho. split; simpl; done.
    + intros rd wr Hrd Hwr. rewrite (Hway rd wr Hrd Hwr). simpl. by rewrite Hat.
  - match goal with He : _ = Ret pr' |- _ => rename He into Hex end.
    destruct (exec_ok id pr (SRecvMsg k) None rd pr' Hok ltac:(by rewrite Hat) Hex) as (Hok' & Hs & _).
    rewrite wants_recv, app_nil_r in Hs. split_and!; [done| |done]. exists [].
    eapply (on_way_exec _ _ _ _ _ (SRecvMsg k) None rd); [done..|by right; right; exists k|done|done|].
    intros w r _ Hrd. simpl. by rewrite (Hrd 0 rd eq_refl).
Qed.

(** ** The goroutines and their handlers *)
Definition matches (x : stream) (pr : proc) : Prop :=
  match p_at pr with
  | AtCode _ => g_pc x = GRun ∧ g_recv x = false
  | AtWrite p rpc => g_pc x = (if ends_with p then GTrailer rpc else GSend rpc) ∧ g_recv x = false
  | AtRead _ => g_pc x = GRun ∧ g_recv x = true
  | AtEnd _ _ => (g_pc x = GUnreg ∨ g_pc x = GExit) ∧ g_recv x = false
  end.

(** What a step of the connection that is none of a handler does to a goroutine:
    at most it ends it; or it starts it. *)
Definition kept (x x' : stream) : Prop :=
  g_id x' = g_id x ∧ g_recv x' = g_recv x ∧ (g_pc x' = g_pc x ∨ g_pc x = GUnreg ∧ g_pc x' = GExit).
Definition starts (v : conn) (l : label) (g : nat) (x : stream) : Prop :=
  ∃ now rpc, l = VStream now ∧ v_serve v = VLock rpc ∧ g = new_stream v ∧
    stream_decide now clientCtx (v_streams v) rpc = SStart ∧
    x = mkStream (rpc_Id rpc) [] false false false GRun.

Lemma kept_refl x : kept x x.
Proof. split_and!; auto. Qed.
Lemma kept_set (m : gmap nat stream) g x x' g' y :
  m !! g = Some x → kept x x' → <[g := x']> m !! g' = Some y → ∃ x0, m !! g' = Some x0 ∧ kept x0 y.
Proof.
  intros Hx Hk. rewrite lookup_insert_Some. intros [[<- <-]|[_ Hy]]; eauto using kept_refl.
Qed.
Lemma none_set (m : gmap nat stream) g x x' g' :
  m !! g = Some x → <[g := x']> m !! g' = None → m !! g' = None.
Proof. intros Hx [? _]%lookup_insert_None. done. Qed.

Lemma decision_gs now rpc v g y :
  v_serve v = VLock rpc →
  v_gs (apply_decision (stream_decide now clientCtx (v_streams v) rpc) rpc v) !! g = Some y →
  (∃ x, v_gs v !! g = Some x ∧ kept x y) ∨ starts v (VStream now) g y.
Proof.
  intros Hsv. destruct (stream_decide _ _ _ _) as [g'|g'| | |] eqn:Hd; simpl; eauto using kept_refl.
  - destruct (v_gs v !! g') as [x|] eqn:Hx; simpl; [|eauto using kept_refl].
    intros Hy. left. eapply kept_set; [done| |done]. by split_and!; auto.
  - rewrite lookup_insert_Some. intros [[<- <-]|[_ Hy]]; [right|eauto using kept_refl].
    by exists now, rpc.
Qed.

Lemma unregister_gs g x v g' y :
  v_gs v !! g = Some x → g_pc x = GUnreg →
  v_gs (unregisterStream g x (set_g g (set_pc GExit x) v)) !! g' = Some y →
  ∃ x0, v_gs v !! g' = Some x0 ∧ kept x0 y.
Proof.
  intros Hx Hpc.
  assert (Hset : ∀ g' y, <[g := set_pc GExit x]> (v_gs v) !! g' = Some y → ∃ x0, v_gs v !! g' = Some x0 ∧ kept x0 y).
  { intros g2 y2 Hy. eapply kept_set; [done| |done]. split_and!; auto. }
  unfold unregisterStream. destruct (v_streams _ !! g_id x) as [g2|]; simpl; [|by apply Hset].
  destruct (<[g := set_pc GExit x]> (v_gs v) !! g2) as [y2|] eqn:Hy2; simpl; [|by apply Hset].
  rewrite lookup_insert_Some. intros [[<- <-]|[_ Hy]]; [|by apply Hset]. destruct (Hset _ _ Hy2) as (x0 & ? & Hk).
  by exists x0.
Qed.

Lemma env_step_gs v l v' g y :
  ¬ of_handler l → step srv clientCtx (Ret v) l (Ret v') → v_gs v' !! g = Some y →
  (∃ x, v_gs v !! g = Some x ∧ kept x y) ∨ starts v l g y.
Proof.
  intros Hl Hst. inversion Hst; subst; simpl in *; try tauto;
    try (intros Hy; left; by eauto using kept_refl);
    try (intros Hy; left; eapply kept_set; [done| |done]; by split_and!; auto).
  - by apply decision_gs.
  - destruct werr; simpl; eauto using kept_refl.
  - destruct r; simplify_eq/=. eauto using kept_refl.
  - destruct werr; simpl; eauto using kept_refl.
  - intros Hy. left. by eapply unregister_gs.
Qed.

Lemma step_gs_none v l v' g :
  step srv clientCtx (Ret v) l (Ret v') → v_gs v' !! g = None → v_gs v !! g = None.
Proof.
  intros Hst. inversion Hst; subst; simpl; try done; try (by eapply none_set).
  - unfold apply_decision. case_match; simpl; try done.
    + case_match; simpl; [by eapply none_set|done].
    + by intros [? _]%lookup_insert_None.
  - by destruct werr.
  - by destruct r; simplify_eq/=.
  - by destruct werr.
  - unfold unregisterStream. repeat case_match; simpl; rewrite ?lookup_insert_None; tauto.
Qed.

(** ** The invariant *)
Definition oks (rds : list (result Rpc)) : list Rpc :=
  rds ≫= λ r, match r with Ok rpc => [rpc] | Err _ => [] end.

(** Goroutine [g] runs the handler of a stream that was opened by an Rpc of the
    history; what it has read is what it received there, and what its Writes have
    sent is what the connection's writer took from it. *)
Definition runs_handler (h : list label) (g : nat) (pr : proc) : Prop :=
  ∃ info sd rpc hd now rds wrs,
    rpc ∈ reads h ∧ dispatch srv rpc = ToStream info sd rpc ∧ rpc_Header rpc = Some hd ∧
    (contextFromHeaders now clientCtx hd).2 = None ∧
    on_way (stream_handler srv info sd)
      (stream_of srv info sd hd (rpc_Id rpc) (contextFromHeaders now clientCtx hd).1) pr rds wrs ∧
    oks rds = recvs g h ∧ sent (p_log pr) = handed g h ∧ ss_id (p_stream pr) = rpc_Id rpc.

Record dinv (h : list label) (d : driven) : Prop := {
  di_match g x : v_gs (d_conn d) !! g = Some x →
    ∃ pr, d_procs d !! g = Some pr ∧ matches x pr ∧ proc_ok (g_id x) pr;
  di_none g : v_gs (d_conn d) !! g = None → d_procs d !! g = None ∧ handed g h = [];
  di_run g pr : d_procs d !! g = Some pr → runs_handler h g pr }.

Lemma handed_snoc g h l : handed g (h ++ [l]) = handed g h ++ handed_of g l.
Proof. unfold handed. by rewrite bind_app, bind_singleton. Qed.

Lemma runs_handler_snoc h l g pr :
  runs_handler h g pr → recvs_of g l = [] → handed_of g l = [] → runs_handler (h ++ [l]) g pr.
Proof.
  intros (info & sd & rpc & hd & now & rds & wrs & Hr & Hd & Hh & Hc & Hway & Hrd & Hs & Hid) Hl1 Hl2.
  exists info, sd, rpc, hd, now, rds, wrs.
  rewrite srv_recvs_snoc, handed_snoc, srv_reads_snoc, Hl1, Hl2, !app_nil_r, elem_of_app. split_and!; auto.
Qed.

(** A handler's step, with what the connection's step is to it. *)
Lemma runs_handler_step h l id g pr pl pr' :
  runs_handler h g pr → proc_ok id pr → pstep pr pl (Ret pr') →
  oks (got pl) = recvs_of g l → wrote pl = handed_of g l → runs_handler (h ++ [l]) g pr'.
Proof.
  intros (info & sd & rpc & hd & now & rds & wrs & Hr & Hd & Hh & Hc & Hway & Hrd & Hs & Hid) Hok Hst Hl1 Hl2.
  destruct (pstep_ok _ _ _ _ _ _ _ _ Hok Hway Hst) as (Hok' & [wrs' Hway'] & Hs').
  exists info, sd, rpc, hd, now, (rds ++ got pl), (wrs ++ wrs').
  rewrite srv_recvs_snoc, handed_snoc, srv_reads_snoc, elem_of_app, Hs', Hs, <-Hl1, <-Hl2, <-Hrd.
  split_and!; auto; [unfold oks; by rewrite bind_app|].
  rewrite (pk_id _ _ Hok'), <-(pk_id _ _ Hok). done.
Qed.

Lemma kept_matches x y pr : kept x y → matches x pr → proc_ok (g_id x) pr → matches y pr ∧ proc_ok (g_id y) pr.
Proof.
  intros (-> & Hr & Hp) Hm Hok. split; [|done]. unfold matches in *. rewrite Hr.
  destruct (p_at pr) as [p|p rpc|k|a e].
  - destruct Hm as [Hpc ?], Hp as [->|[? _]]; [done|congruence].
  - destruct Hm as [Hpc ?], Hp as [->|[? _]]; [done|]. rewrite Hpc in *. by destruct (ends_with p).
  - destruct Hm as [Hpc ?], Hp as [->|[? _]]; [done|congruence].
  - destruct Hm as [Hpc ?], Hp as [->|[? ->]]; auto.
Qed.

Lemma not_handler_silent l g : ¬ of_handler l → recvs_of g l = [] ∧ handed_of g l = [].
Proof. destruct l; simpl; tauto. Qed.

(** A stream is opened by an Rpc for a registered method whose metadata decodes. *)
Lemma stream_starts now m rpc :
  stream_decide now clientCtx m rpc = SStart → is_stream srv rpc →
  ∃ info sd hd, dispatch srv rpc = ToStream info sd rpc ∧ rpc_Header rpc = Some hd ∧
    (contextFromHeaders now clientCtx hd).2 = None.
Proof.
  intros Hd Hs. unfold is_stream in Hs.
  assert (∃ info sd, dispatch srv rpc = ToStream info sd rpc) as (info & sd & Hdis).
  { unfold dispatch in *. repeat case_match; try done. eauto. }
  exists info, sd. unfold stream_decide in Hd. repeat case_match; try done.
  eexists. split_and!; [done|done|done].
Qed.

(** The handlers' table after a step that is none of a handler. *)
Lemma started_lookup v l ps g pr :
  started l v ps !! g = Some pr →
  ps !! g = Some pr ∨ ∃ now rpc info sd hd, l = VStream now ∧ v_serve v = VLock rpc ∧ g = new_stream v ∧
    stream_decide now clientCtx (v_streams v) rpc = SStart ∧ dispatch srv rpc = ToStream info sd rpc ∧
    rpc_Header rpc = Some hd ∧
    pr = start_proc info sd hd (rpc_Id rpc) (contextFromHeaders now clientCtx hd).1.
Proof.
  unfold started. destruct l; try (by left). destruct (v_serve v) eqn:Hsv; try (by left).
  destruct (stream_decide _ _ _ _) eqn:Hd; try (by left).
  destruct (dispatch srv rpc) as [|info md rpc'|info sd rpc'] eqn:Hdis; try (by left).
  destruct (rpc_Header rpc) as [hd|] eqn:Hh; [|by left].
  rewrite lookup_insert_Some. intros [[<- <-]|[_ ?]]; [right|by left].
  assert (rpc' = rpc) as -> by (unfold dispatch in Hdis; repeat case_match; by simplify_eq).
  by exists now, rpc, info, sd, hd.
Qed.
Lemma started_keeps v l ps g pr :
  ps !! g = Some pr → g ≠ new_stream v → started l v ps !! g = Some pr.
Proof. intros Hg Hne. unfold started. repeat case_match; try done. by rewrite lookup_insert_ne. Qed.
Lemma started_new v now rpc info sd hd ps :
  v_serve v = VLock rpc → stream_decide now clientCtx (v_streams v) rpc = SStart →
  dispatch srv rpc = ToStream info sd rpc → rpc_Header rpc = Some hd →
  started (VStream now) v ps !! new_stream v =
    Some (start_proc info sd hd (rpc_Id rpc) (contextFromHeaders now clientCtx hd).1).
Proof. intros Hsv Hd Hdis Hh. unfold started. by rewrite Hsv, Hd, Hdis, Hh, lookup_insert_eq. Qed.

(** ** It is kept *)
Lemma dinv_conn h v ps l v' :
  conn_inv h v → (∃ runs lost, work_inv srv clientCtx h v runs lost) → origin_inv srv clientCtx h v →
  dinv h (mkDriven v ps) → ¬ of_handler l → step srv clientCtx (Ret v) l (Ret v') →
  dinv (h ++ [l]) (mkDriven v' (started l v ps)).
Proof.
  intros Hconn (runs & lost & Hwork) Horig [Hm Hn Hr] Hl Hst. simpl in Hm, Hn. split; simpl.
  - intros g y Hy. destruct (env_step_gs v l v' g y Hl Hst Hy) as [(x & Hx & Hk)|(now & rpc & -> & Hsv & -> & Hd & ->)].
    + destruct (Hm g x Hx) as (pr & Hpr & Hmt & Hok). exists pr.
      split; [|by apply (kept_matches x y)]. apply started_keeps; [done|]. intros ->.
      by rewrite new_stream_fresh in Hx.
    + pose proof (wk_sorted _ _ _ _ _ _ Hwork) as Hs. rewrite Hsv in Hs.
      destruct (stream_starts _ _ _ Hd Hs) as (info & sd & hd & Hdis & Hh & _).
      eexists. split; [by apply started_new|]. split; [done|]. split; [done|done|]. intros ? ? [=].
  - intros g Hg. destruct (Hn g (step_gs_none v l v' g Hst Hg)) as [Hps Hh]. split.
    + destruct (started l v ps !! g) as [pr|] eqn:E; [|done].
      destruct (started_lookup _ _ _ _ _ E) as [?|(now & rpc & ? & ? & ? & -> & Hsv & -> & Hd & _)]; [congruence|].
      inversion Hst as [| | | | | | |? ? rpc0 Hsv0| | | | | | | | | | | | | | | | | | | | |]; subst.
      rewrite Hsv in Hsv0. injection Hsv0 as <-. rewrite Hd in Hg. simpl in Hg. by rewrite lookup_insert_eq in Hg.
    + rewrite handed_snoc, Hh. by apply not_handler_silent.
  - intros g pr Hg. destruct (not_handler_silent l g Hl) as [Hl1 Hl2].
    destruct (started_lookup _ _ _ _ _ Hg) as [Hg'|(now & rpc & info & sd & hd & -> & Hsv & -> & Hd & Hdis & Hh & ->)].
    + apply runs_handler_snoc; auto.
    + pose proof (wk_sorted _ _ _ _ _ _ Hwork) as Hs. rewrite Hsv in Hs.
      destruct (stream_starts _ _ _ Hd Hs) as (info' & sd' & hd' & Hdis' & Hh' & Hc). simplify_eq.
      destruct (Hn _ (new_stream_fresh v)) as [_ Hhand].
      destruct (iv_none _ _ Hconn _ (new_stream_fresh v)) as [Hrecv _].
      apply runs_handler_snoc; [|done|done]. exists info, sd, rpc, hd, now, [], [].
      split_and!; try done; [apply (og_hand _ _ _ _ Horig); rewrite Hsv; by left|].
      intros rd wr _ _. simpl. change (handle_stream ord rd wr (stream_handler srv info sd))
        with (finish rd wr 0 0 (stream_handler srv info sd)).
      by destruct (finish _ _ _ _ _ _) as [[??]?].
Qed.

Lemma got_inv id pr rd pr' :
  proc_ok id pr → pstep pr (PGot rd) (Ret pr') → ∃ k p, p_at pr = AtRead k ∧ p_at pr' = AtCode p.
Proof.
  intros Hok Hst. inversion Hst as [| | | |? k ? Hat Heq]; subst.
  destruct (exec_ok id pr (SRecvMsg k) None rd pr' Hok ltac:(by rewrite Hat)) as (_ & _ & Hpt); [done|].
  exists k. destruct (p_at pr'); try done. by eexists.
Qed.

(** A handler's step and the goroutine's are in step. *)
Lemma handler_gs v v' l g pl :
  handler_label l g pl → step srv clientCtx (Ret v) l (Ret v') →
  ∃ x x', v_gs v !! g = Some x ∧ v_gs v' = <[g := x']> (v_gs v) ∧ g_id x' = g_id x ∧
    ∀ pr pr', matches x pr → proc_ok (g_id x) pr → pstep pr pl (Ret pr') → matches x' pr'.
Proof.
  intros Hl Hst. destruct Hl; inversion Hst; subst; clear Hst;
    (do 2 eexists; split; [done|]; split; [done|]; split; [by unfold after_write; destruct (g_pc x)|]);
    intros pr pr' Hm Hok Hp;
    try (destruct (got_inv _ _ _ _ Hok Hp) as (k & p & Hk & Hp'); unfold matches in *; rewrite Hk in Hm;
      rewrite Hp'; destruct Hm; done);
    inversion Hp; subst; clear Hp;
    match goal with Hat : p_at pr = _ |- _ => unfold matches in Hm; rewrite Hat in Hm; destruct Hm as [Hpc Hrv] end;
    try match goal with Hex : exec _ _ = Ret pr' |- _ =>
      eapply exec_ok in Hex as (_ & _ & Hpt); [|done|congruence]; unfold matches;
        destruct (p_at pr'); try done end.
  - unfold matches. simpl. match goal with He : ends_with _ = _ |- _ => by rewrite He end.
  - unfold matches. simpl. match goal with He : ends_with _ = _ |- _ => by rewrite He end.
  - rewrite Hpt in Hpc. unfold after_write. rewrite Hpc. done.
  - rewrite Hpt in Hpc. unfold after_write. rewrite Hpc. simpl. auto.
  - rewrite Hpt in Hpc. unfold after_write. rewrite Hpc. done.
  - rewrite Hpt in Hpc. unfold after_write. rewrite Hpc. simpl. auto.
  - done.
Qed.

Lemma dinv_handler h v v' ps l g pr pl pr' :
  dinv h (mkDriven v ps) → handler_label l g pl → step srv clientCtx (Ret v) l (Ret v') →
  ps !! g = Some pr → pstep pr pl (Ret pr') → dinv (h ++ [l]) (mkDriven v' (<[g := pr']> ps)).
Proof.
  intros [Hm Hn Hr] Hl Hst Hpr Hp. simpl in *.
  destruct (handler_gs v v' l g pl Hl Hst) as (x & x' & Hx & Hgs & Hid & Hmatch).
  destruct (Hm g x Hx) as (pr0 & ? & Hmt & Hok). simplify_eq.
  assert (Hother : ∀ g', g' ≠ g → recvs_of g' l = [] ∧ handed_of g' l = [])
    by (intros g' Hne; destruct Hl; simpl; rewrite ?decide_False by done; done).
  pose proof (Hr g pr Hpr) as Hrun. split; simpl; rewrite ?Hgs.
  - intros g' y. rewrite lookup_insert_Some. intros [[<- <-]|[Hne Hy]].
    + exists pr'. rewrite lookup_insert_eq, Hid. split_and!; [done|by eapply Hmatch|].
      destruct Hrun as (? & ? & ? & ? & ? & rds & wrs & _ & _ & _ & _ & Hway & _).
      by apply (pstep_ok _ _ _ _ _ _ _ _ Hok Hway Hp).
    + rewrite lookup_insert_ne by done. by apply Hm.
  - intros g' [Hg' Hne]%lookup_insert_None. rewrite lookup_insert_ne by done.
    destruct (Hn g' Hg') as [? Hh]. rewrite handed_snoc, Hh. by destruct (Hother g' (not_eq_sym Hne)).
  - intros g' pr2. rewrite lookup_insert_Some. intros [[<- <-]|[Hne Hg']].
    + eapply runs_handler_step; [done..| |]; destruct Hl; simpl; by rewrite ?decide_True.
    + destruct (Hother g' (not_eq_sym Hne)). by apply runs_handler_snoc; auto.
Qed.

Lemma dinv_code h v ps g pr pr' :
  dinv h (mkDriven v ps) → conn_inv h v → ps !! g = Some pr → pstep pr PLocal (Ret pr') →
  dinv h (mkDriven v (<[g := pr']> ps)).
Proof.
  intros [Hm Hn Hr] Hconn Hpr Hp. simpl in *.
  destruct (v_gs v !! g) as [x|] eqn:Hx; [|destruct (Hn g Hx); congruence].
  destruct (Hm g x Hx) as (pr0 & ? & Hmt & Hok). simplify_eq.
  destruct (Hr g pr Hpr) as (info & sd & rpc & hd & now & rds & wrs & Hread & Hd & Hh & Hc & Hway & Hrd & Hs & Hid).
  destruct (pstep_ok _ _ _ _ _ _ _ _ Hok Hway Hp) as (Hok' & [wrs' Hway'] & Hs').
  split; simpl.
  - intros g' y Hy. destruct (decide (g = g')) as [<-|Hne]; [|rewrite lookup_insert_ne by done; by apply Hm].
    rewrite lookup_insert_eq. exists pr'. simplify_eq. split_and!; [done| |done].
    inversion Hp as [? p Hat Hw Hrc Heq| | | |]; subst. unfold matches in Hmt. rewrite Hat in Hmt.
    pose proof (pk_open _ _ Hok) as Hts. rewrite Hat in Hts.
    destruct (wants_spec p (p_stream pr) Hts) as [(_ & He & _)|(? & Hn' & _)]; [|congruence].
    destruct (exec_ok _ pr p None (Err EOF) pr' Hok ltac:(by rewrite Hat)) as (_ & _ & Hpt); [done|].
    unfold matches. destruct (p_at pr'); try done. congruence.
  - intros g' Hg'. destruct (Hn g' Hg') as [? ?]. rewrite lookup_insert_ne; [done|]. intros <-. congruence.
  - intros g' pr2. rewrite lookup_insert_Some. intros [[<- <-]|[Hne Hg']]; [|by apply Hr].
    exists info, sd, rpc, hd, now, (rds ++ got PLocal), (wrs ++ wrs'). rewrite Hs', Hs. simpl. rewrite !app_nil_r.
    simpl in Hway'. rewrite app_nil_r in Hway'. split_and!; try done.
    rewrite (pk_id _ _ Hok'), <-(pk_id _ _ Hok). done.
Qed.

(** ** Histories *)
Lemma conn_history_snoc h l : conn_history (h ++ [l]) = conn_history h ++ conn_label l.
Proof. unfold conn_history. by rewrite bind_app, bind_singleton. Qed.

Definition driven_inv (h : list dlabel) (o : outcome driven) : Prop :=
  match o with
  | Ret d =>
      trace (step srv clientCtx) (Ret newHandler) (conn_history h) (Ret (d_conn d)) ∧ dinv (conn_history h) d
  | Panic _ => True
  end.

Lemma driven_inv_step h o l o' : driven_inv h o → dstep o l o' → driven_inv (h ++ [l]) o'.
Proof.
  intros Hinv Hst. destruct o' as [d'|]; [|done]. unfold driven_inv. rewrite conn_history_snoc.
  inversion Hst as [v ps l0 o0 Hl Hc Heq|v v' ps l0 g pr pl o0 Hl Hc Hpr Hp Heq|v ps g pr o0 Hpr Hp Heq]; subst;
    destruct Hinv as [Htr Hd]; simpl in Htr; simpl conn_label.
  - match goal with Hb : _ = Ret d' |- _ => apply bind_Ret in Hb as (v' & -> & [= <-]) end. simpl.
    split; [eapply trace_app; [done|by apply trace_one]|].
    apply dinv_conn; try done; [by eapply conn_inv_trace|by apply work_inv_trace|by apply origin_inv_trace].
  - match goal with Hb : _ = Ret d' |- _ => apply bind_Ret in Hb as (pr' & -> & [= <-]) end. simpl.
    split; [eapply trace_app; [done|by apply trace_one]|]. by eapply dinv_handler.
  - match goal with Hb : _ = Ret d' |- _ => apply bind_Ret in Hb as (pr' & -> & [= <-]) end.
    rewrite app_nil_r. split; [done|]. eapply dinv_code; try done. by eapply conn_inv_trace.
Qed.

Lemma driven_trace h d :
  trace dstep (Ret driven_init) h (Ret d) →
  trace (step srv clientCtx) (Ret newHandler) (conn_history h) (Ret (d_conn d)) ∧ dinv (conn_history h) d.
Proof.
  intros Htr. refine (trace_history_invariant dstep driven_inv driven_inv_step [] (Ret driven_init) h (Ret d) _ Htr).
  split; [constructor|]. split; simpl; [by intros ? ? ?%lookup_empty_Some|done|by intros ? ? ?%lookup_empty_Some].
Qed.

(** ** What it means *)

(** The answers as functions. *)
Lemma oks_seq (rds : list (result Rpc)) d : oks ((λ n, default d (rds !! n)) <$> seq 0 (length rds)) = oks rds.
Proof. f_equal. apply list_eq. intros n. rewrite list_lookup_fmap.
  destruct (decide (n < length rds)) as [Hn|Hn].
  - rewrite lookup_seq_lt by done. simpl. destruct (lookup_lt_is_Some_2 rds n Hn) as [x ->]. done.
  - rewrite lookup_seq_ge, lookup_ge_None_2 by lia. done.
Qed.

(** The log of runStream, from that of its handler. *)
Lemma runStream_sent rd wr b clock info sd rpc hd id ctx :
  rpc_Header rpc = Some hd →
  let run := handle_stream ord rd wr (stream_handler srv info sd) (stream_of srv info sd hd id ctx) in
  sent (runStream ord rd wr b clock srv info sd rpc id ctx).1 = sent (log_of run) ∧
  ∀ appErr err, res_of run = Ret (appErr, err) →
    (runStream ord rd wr b clock srv info sd rpc id ctx).2 = Ret err.
Proof.
  intros Hh. simpl. rewrite (runStream_unfold ord rd wr b clock srv info sd rpc hd id ctx Hh). cbv zeta.
  destruct (res_of _) as [[appErr err]|msg] eqn:E; simpl;
    rewrite !sent_app, StatsStartServerRPC_sent, StatsEndRPC_sent, app_nil_r; split; try done.
  by intros ? ? [= <- <-].
Qed.

Definition runs_stream (h : list label) (d : driven) (g : nat) (x : stream) : Prop :=
  ∃ pr info sd rpc hd now rd wr n,
    d_procs d !! g = Some pr ∧ rpc ∈ reads h ∧ rpc_Id rpc = g_id x ∧
    dispatch srv rpc = ToStream info sd rpc ∧ rpc_Header rpc = Some hd ∧
    (contextFromHeaders now clientCtx hd).2 = None ∧ oks (rd <$> seq 0 n) = recvs g h ∧
    ∀ b clock,
      let run := runStream ord rd wr b clock srv info sd rpc (g_id x) (contextFromHeaders now clientCtx hd).1 in
      handed g h `prefix_of` sent run.1 ∧
      ∀ appErr err, p_at pr = AtEnd appErr err → handed g h = sent run.1 ∧ run.2 = Ret err.

Lemma dinv_runs_stream h d g x : dinv h d → v_gs (d_conn d) !! g = Some x → runs_stream h d g x.
Proof.
  intros Hd Hx. destruct (di_match _ _ Hd g x Hx) as (pr & Hpr & _ & Hok).
  destruct (di_run _ _ Hd g pr Hpr) as (info & sd & rpc & hd & now & rds & wrs & Hread & Hdis & Hh & Hctx & Hway & Hrd & Hs & Hid).
  assert (Hidx : rpc_Id rpc = g_id x) by (rewrite <-Hid; apply Hok).
  exists pr, info, sd, rpc, hd, now, (λ n, default (Err EOF) (rds !! n)), (λ n, default None (wrs !! n)), (length rds).
  split_and!; try done; [by rewrite oks_seq|]. intros b clock. rewrite <-Hidx.
  destruct (runStream_sent (λ n, default (Err EOF) (rds !! n)) (λ n, default None (wrs !! n)) b clock info sd rpc hd
    (rpc_Id rpc) (contextFromHeaders now clientCtx hd).1 Hh) as [Hsent Hres]. cbv zeta. rewrite Hsent.
  rewrite (Hway (λ n, default (Err EOF) (rds !! n)) (λ n, default None (wrs !! n))) in *
    by (intros ? ? E; by rewrite E).
  destruct (resume _ _ _ _ _ _) as [[ss l] r] eqn:Er. unfold log_of, res_of in *. simpl in *.
  rewrite sent_app, Hs. split; [by eexists|]. intros appErr err Hat. rewrite Hat in Er. injection Er as <- <- <-.
  rewrite app_nil_r. split; [done|]. by eapply Hres.
Qed.

(** C4: the goroutine of a stream does what runStream does.  In every history of a
    connection whose streams run the registered handlers, with all goroutines
    interleaved, the connection behaves as file ServerLoop says, and each
    goroutine carries out [runStream] on the Rpc that opened its stream, for some
    answers of the transport: the Rpcs that its Reads got are those it received
    on its channel, in order; the Rpcs that the connection's writer took from it
    are, in order, the first that this run sends; and all of them once the
    goroutine is past its trailer, with the run's result. *)
Theorem goroutine_runs_stream h d g x :
  trace dstep (Ret driven_init) h (Ret d) → v_gs (d_conn d) !! g = Some x →
  trace (step srv clientCtx) (Ret newHandler) (conn_history h) (Ret (d_conn d)) ∧
  ∃ pr info sd rpc hd now rd wr n,
    d_procs d !! g = Some pr ∧ rpc ∈ reads (conn_history h) ∧ rpc_Id rpc = g_id x ∧
    dispatch srv rpc = ToStream info sd rpc ∧ rpc_Header rpc = Some hd ∧
    (contextFromHeaders now clientCtx hd).2 = None ∧ oks (rd <$> seq 0 n) = recvs g (conn_history h) ∧
    ∀ b clock,
      let run := runStream ord rd wr b clock srv info sd rpc (g_id x) (contextFromHeaders now clientCtx hd).1 in
      handed g (conn_history h) `prefix_of` sent run.1 ∧
      ∀ appErr err, p_at pr = AtEnd appErr err → handed g (conn_history h) = sent run.1 ∧ run.2 = Ret err.
Proof. intros Htr Hx. destruct (driven_trace h d Htr) as [Hc Hd]. split; [done|by apply dinv_runs_stream]. Qed.

(** What the connection's writer takes, from the workers and from the streams. *)
Definition taken_all_of (l : label) : list Rpc :=
  match l with WriteWorker _ rpc | WriteStream _ rpc => [rpc] | _ => [] end.
Definition taken_all (h : list label) : list Rpc := h ≫= taken_all_of.

Lemma worker_result_typed rpc r : worker_result srv clientCtx rpc (Ret r) → from_server r.
Proof.
  intros Hr. destruct (worker_result_response srv clientCtx rpc r Hr)
    as (h & ? & ? & ? & ? & ? & ? & sts & l & resp & appErr & _ & _ & _ & _ & _ & ->).
  apply server_end; apply ToKeyValue_decodes.
Qed.

Lemma handed_typed h d g : trace dstep (Ret driven_init) h (Ret d) → Forall from_server (handed g (conn_history h)).
Proof.
  intros Htr. destruct (driven_trace h d Htr) as [Hc Hd].
  destruct (v_gs (d_conn d) !! g) as [x|] eqn:Hx.
  - destruct (di_match _ _ Hd g x Hx) as (pr & Hpr & _ & Hok).
    destruct (di_run _ _ Hd g pr Hpr) as (info & sd & rpc & hd & now & rds & wrs & _ & _ & Hh & _ & Hway & _ & Hs & _).
    pose proof (runStream_typed ord (λ n, default (Err EOF) (rds !! n)) (λ n, default None (wrs !! n)) 0 (λ _, 0%Z) srv
      info sd rpc hd (rpc_Id rpc) (contextFromHeaders now clientCtx hd).1 Hh) as Hty.
    rewrite (proj1 (runStream_sent _ _ _ _ _ _ _ hd _ _ Hh)) in Hty.
    rewrite (Hway (λ n, default (Err EOF) (rds !! n)) (λ n, default None (wrs !! n))) in Hty
      by (intros ? ? E; by rewrite E).
    destruct (resume _ _ _ _ _ _) as [[ss l] r]. unfold log_of in Hty. simpl in Hty.
    rewrite sent_app, Hs in Hty. by apply Forall_app in Hty as [? _].
  - destruct (di_none _ _ Hd g Hx) as [_ ->]. constructor.
Qed.

Lemma taken_typed h d :
  trace dstep (Ret driven_init) h (Ret d) → Forall from_server (taken_all (conn_history h)).
Proof.
  intros Htr.
  destruct (driven_trace h d Htr) as [Hc _]. apply Forall_forall. intros rpc Hin.
  apply list_elem_of_bind in Hin as (l & Hrpc & Hl). destruct l; simpl in Hrpc; try (by apply not_elem_of_nil in Hrpc).
  - apply list_elem_of_singleton in Hrpc as <-.
    destruct (work_inv_trace srv clientCtx _ _ Hc) as (runs & lost & Hw).
    assert (rpc ∈ runs.*2) as [[req r] [-> Hr]]%list_elem_of_fmap.
    { rewrite (wk_out _ _ _ _ _ _ Hw). apply elem_of_app. left. apply list_elem_of_bind.
      exists (WriteWorker w rpc). split; [apply list_elem_of_here|done]. }
    pose proof (wk_runs _ _ _ _ _ _ Hw) as Hf. rewrite Forall_forall in Hf.
    by eapply worker_result_typed, (Hf _ Hr).
  - apply list_elem_of_singleton in Hrpc as <-. pose proof (handed_typed h d g Htr) as Hf.
    rewrite Forall_forall in Hf. apply Hf. apply list_elem_of_bind. exists (WriteStream g rpc).
    split; [|done]. simpl. rewrite decide_True by done. apply list_elem_of_here.
Qed.

(** C15: everything a connection writes is well typed: whatever the registered
    handlers do and however the goroutines interleave, each Rpc that the writer
    takes from a worker or from a stream, and each reset, is a response, a
    header, a message, an end or a reset whose metadata decodes. *)
Theorem connection_writes_typed h d :
  trace dstep (Ret driven_init) h (Ret d) →
  Forall from_server (taken_all (conn_history h)) ∧ ∀ rpc, from_server (reset_rpc rpc).
Proof.
  intros Htr. split; [by eapply taken_typed|]. intros rpc. apply server_reset. constructor.
Qed.

(** ** Nothing but the connection holds a handler up *)
Lemma exec_total id pr p werr rd :
  proc_ok id pr → (∀ a e, p_at pr ≠ AtEnd a e) → (∀ msg, p ≠ SPanic msg) →
  ∃ pr', exec (call werr rd p) pr = Ret pr'.
Proof.
  intros [_ Hopen _] Hat Hp.
  assert (Hts : ss_trailersSent (p_stream pr) = false)
    by (destruct (p_at pr) as [| | |a e]; try done; by destruct (Hat a e)).
  destruct (call_total werr rd p (p_stream pr) Hts) as [(ss' & l & pt & Hc & _)|[msg ->]]; [|by destruct (Hp msg)].
  unfold exec. rewrite Hc. by eexists.
Qed.

(** ** Handlers that do not panic *)
Fixpoint returns (p : sprog Msg) : Prop :=
  match p with
  | SRet _ => True
  | SPanic _ => False
  | SSendMsg _ k | SSetHeader _ k | SSendHeader _ k => ∀ err, returns (k err)
  | SRecvMsg k => ∀ m err, returns (k m err)
  | SSetTrailer _ k => returns k
  end.
(** Every stream handler that the server may start does. *)
Definition streams_return : Prop :=
  ∀ rpc info sd rpc', dispatch srv rpc = ToStream info sd rpc' → returns (stream_handler srv info sd).
Definition point_returns (pt : point) : Prop :=
  match pt with
  | AtCode p | AtWrite p _ => returns p
  | AtRead k => ∀ m err, returns (k m err)
  | AtEnd _ _ => True
  end.
Definition procs_return (ps : gmap nat proc) : Prop := ∀ g pr, ps !! g = Some pr → point_returns (p_at pr).

Lemma bind_point {A} (m : SM A) (f : A → point) ss ss' l pt :
  mbind (λ a, mret (f a)) m ss = (ss', l, Ret pt) → ∃ a, pt = f a.
Proof. rewrite bind_run. destruct (res_of (m ss)) as [a|]; simpl; [|done]. intros [= _ _ <-]. by exists a. Qed.

Lemma exec_returns werr rd p pr pr' :
  returns p → exec (call werr rd p) pr = Ret pr' → point_returns (p_at pr').
Proof.
  unfold exec. intros Hp Hex. destruct (call werr rd p (p_stream pr)) as [[ss l] [pt|]] eqn:Ec; simplify_eq/=.
  destruct p as [e|msg|m k|k|md k|md k|md k]; try done; simpl in *; try (apply bind_point in Ec as [a ->]; by simpl).
  rewrite bind_run in Ec. destruct (res_of _) as [[m e]|]; simpl in Ec; [|done]. injection Ec as _ _ <-. apply Hp.
Qed.

Lemma pstep_returns pr pl pr' : point_returns (p_at pr) → pstep pr pl (Ret pr') → point_returns (p_at pr').
Proof.
  intros Hp Hst. inversion Hst; subst; match goal with Ha : p_at pr = _ |- _ => rewrite Ha in Hp end;
    try done.
  - by eapply exec_returns.
  - by eapply exec_returns.
  - by apply (exec_returns None rd (SRecvMsg k) pr pr').
Qed.

Lemma dstep_returns v ps l v' ps' :
  streams_return → procs_return ps → dstep (Ret (mkDriven v ps)) l (Ret (mkDriven v' ps')) → procs_return ps'.
Proof.
  intros Hr Hps Hst. inversion Hst as [v0 q0 l0 o Hn Hs|v0 v1 q0 l0 g pr pl o Hl Hs Hg Hp|v0 q0 g pr o Hg Hp]; subst;
    destruct o as [a|]; simplify_eq/=; try (intros g' pr' [[<- <-]|[_ ?]]%lookup_insert_Some; [by eapply pstep_returns, Hp; eauto|eauto]).
  unfold started. destruct l0; try done. destruct (v_serve v); try done.
  destruct (stream_decide _ _ _ _); try done. destruct (dispatch srv rpc) eqn:Hd; try done.
  destruct (rpc_Header rpc); [|done]. intros g' pr' [[<- <-]|[_ ?]]%lookup_insert_Some; [by eapply Hr|eauto].
Qed.

Lemma dstep_no_panic h v ps g msg :
  dinv h (mkDriven v ps) → procs_return ps → ¬ dstep (Ret (mkDriven v ps)) (Code g) (Panic msg).
Proof.
  intros Hd Hps Hst. inversion Hst as [| |v0 q0 g0 pr o Hg Hp]; subst. destruct o as [a|]; simplify_eq/=.
  destruct (v_gs v !! g) as [x|] eqn:Hx; [|destruct (di_none _ _ Hd g Hx) as [Hn _]; simpl in Hn; congruence].
  destruct (di_match _ _ Hd g x Hx) as (pr' & Hpr & _ & Hok). simpl in Hpr. simplify_eq.
  inversion Hp as [? p Hat _ _ Hex| | | |]; subst. specialize (Hps g pr Hg). rewrite Hat in Hps.
  edestruct (exec_total (g_id x) pr p None (Err EOF)) as [pr' Hpr']; [done|by rewrite Hat|by intros m ->|congruence].
Qed.

(** A step of goroutine [g]. *)
Definition label_of (g : nat) (l : dlabel) : Prop :=
  match l with
  | Code g' => g' = g
  | Conn l => match l with
    | EnvSend g' _ | EnvReturn g' _ | EnvRecv g' => g' = g
    | _ => False
    end
  end.

Lemma code_goes_on v ps g x pr p :
  v_gs v !! g = Some x → ps !! g = Some pr → matches x pr → proc_ok (g_id x) pr → p_at pr = AtCode p →
  ∃ l o, label_of g l ∧ dstep (Ret (mkDriven v ps)) l o.
Proof.
  intros Hx Hpr Hmt Hok Hat. unfold matches in Hmt. rewrite Hat in Hmt. destruct Hmt as [Hpc Hrv].
  assert (Hts : ss_trailersSent (p_stream pr) = false) by (pose proof (pk_open _ _ Hok) as Ho; by rewrite Hat in Ho).
  destruct (wants_spec p (p_stream pr) Hts) as [(Hw & _)|(rpc & Hw & Hid & _)].
  - destruct (receives p) eqn:Hr.
    + destruct p as [| | |k| | |]; try done. exists (Conn (EnvRecv g)). eexists. split; [done|].
      eapply d_handler; [apply h_recv| |done|by apply (p_recv pr k)].
      apply (step_recv _ _ v g x); [done| |done]. unfold handler_runs. by rewrite Hpc.
    + exists (Code g). eexists. split; [done|]. eapply d_code; [done|by apply p_local].
  - rewrite (pk_id _ _ Hok) in Hid. destruct (ends_with p) eqn:He.
    + exists (Conn (EnvReturn g rpc)). eexists. split; [done|].
      eapply d_handler; [apply h_return|by apply (step_return _ _ v g x)|done|].
      rewrite <-He. by apply (p_ask pr p).
    + exists (Conn (EnvSend g rpc)). eexists. split; [done|].
      eapply d_handler; [apply h_send|by apply (step_send _ _ v g x)|done|].
      rewrite <-He. by apply (p_ask pr p).
Qed.

(** C20: nothing but the connection holds a handler up.  At every moment of every
    history, the goroutine of a stream can do its next step: while it runs the
    handler's code, without anybody's help; in a Write, as soon as the writer is
    free or the stream's context is done; in a Read, as soon as an Rpc is in its
    channel or the context is done; and after its trailer it can unregister as
    soon as the mutex is free. *)
Theorem handler_goes_on h v ps g x :
  trace dstep (Ret driven_init) h (Ret (mkDriven v ps)) → v_gs v !! g = Some x →
  ∃ pr, ps !! g = Some pr ∧
    match p_at pr with
    | AtCode _ => ∃ l o, label_of g l ∧ dstep (Ret (mkDriven v ps)) l o
    | AtWrite _ rpc =>
        (v_writer v = RWait → ∃ d', dstep (Ret (mkDriven v ps)) (Conn (WriteStream g rpc)) (Ret d')) ∧
        (stream_ctx_done v x → ∃ d', dstep (Ret (mkDriven v ps)) (Conn (SendCtx g)) (Ret d'))
    | AtRead _ =>
        (∀ rpc l, g_ch x = rpc :: l → ∃ d', dstep (Ret (mkDriven v ps)) (Conn (GotRpc g rpc)) (Ret d')) ∧
        (stream_ctx_done v x → ∃ d', dstep (Ret (mkDriven v ps)) (Conn (GotCtx g)) (Ret d'))
    | AtEnd _ _ =>
        g_pc x = GExit ∨ (mu_free v → ∃ d', dstep (Ret (mkDriven v ps)) (Conn (GUnregister g)) (Ret d'))
    end.
Proof.
  intros Htr Hx. destruct (driven_trace _ _ Htr) as [_ Hd].
  destruct (di_match _ _ Hd g x Hx) as (pr & Hpr & Hmt & Hok). simpl in Hpr. exists pr. split; [done|].
  pose proof Hmt as Hmt'. unfold matches in Hmt'.
  destruct (p_at pr) as [p|p rpc|k|a e] eqn:Hat; destruct Hmt' as [Hpc Hrv].
  - by eapply code_goes_on.
  - assert (Hg : g_pc x = GSend rpc ∨ g_pc x = GTrailer rpc) by (rewrite Hpc; destruct (ends_with p); auto).
    assert (Hex : ∀ werr, ∃ pr', exec (call werr (Err EOF) p) pr = Ret pr').
    { intros werr. apply (exec_total (g_id x)); [done|by rewrite Hat|]. intros msg ->.
      by pose proof (pk_write _ _ Hok _ _ Hat). }
    split; intros Hready.
    + destruct (Hex None) as [pr' Hp]. eexists. eapply (d_handler v _ ps _ g pr _ (Ret pr'));
        [apply h_wrote|by apply (step_write_stream _ _ v g x rpc)|done|]. rewrite <-Hp. by apply p_wrote.
    + destruct (Hex (Some Canceled)) as [pr' Hp]. eexists. eapply (d_handler v _ ps _ g pr _ (Ret pr'));
        [apply (h_send_ctx g rpc Canceled); by left|by apply (step_send_ctx _ _ v g x rpc)|done|]. rewrite <-Hp. by apply p_wrote.
  - assert (Hex : ∀ rd, ∃ pr', exec (call None rd (SRecvMsg k)) pr = Ret pr')
      by (intros rd; apply (exec_total (g_id x)); [done|by rewrite Hat|done]).
    split.
    + intros rpc l Hch. destruct (Hex (Ok rpc)) as [pr' Hp]. eexists. eapply (d_handler v _ ps _ g pr _ (Ret pr'));
        [apply h_got|by apply (step_got _ _ v g x rpc l)|done|]. rewrite <-Hp. by apply p_got.
    + intros Hready. destruct (Hex (Err Canceled)) as [pr' Hp]. eexists. eapply (d_handler v _ ps _ g pr _ (Ret pr'));
        [apply (h_got_ctx g Canceled); by left|by apply (step_got_ctx _ _ v g x)|done|]. rewrite <-Hp. by apply p_got.
  - destruct Hpc as [Hpc|?]; [right|by left]. intros Hmu. eexists.
    eapply (d_conn_step v ps _ (Ret _)); [by intros []|by apply (step_unregister _ _ v g x)].
Qed.
End handlers.

(** ** A concrete history *)
Section witness.
Import RuntimeModel ServerExample.
#[local] Existing Instances codec stats StatusModel.pkg MetadataModel.Join MetadataModel.no_unicode.
#[local] Abbreviation order := MetadataModel.order.

(** A server whose stream sends one message and fails. *)
Definition server2 : Server Msg () nat :=
  match RegisterService (mkServiceDesc "pkg.Svc" (λ _, true) [echo] [watch_one] "") (Some ()) server0 with
  | Ret s => s
  | Panic _ => server0
  end.
Definition info2 : serviceInfo Msg () :=
  mkServiceInfo "pkg.Svc" (Some ()) (fill md_MethodName [echo]) (fill sd_StreamName [watch_one]) "".
Definition ctx2 : Ctx := (contextFromHeaders 0 Background open_header).1.
Definition proc0 : proc := start_proc server2 info2 watch_one open_header 3 ctx2.
Definition msg_rpc : Rpc := Eval vm_compute in hd open_stream (wants order send_one (p_stream proc0)).
Definition proc1 : proc := set_at (AtWrite send_one msg_rpc) proc0.
Definition proc2 : proc := Eval vm_compute in
  match exec (call order None (Err EOF) send_one) proc1 with Ret pr => pr | Panic _ => proc1 end.
Definition last_call : sprog Msg := SRet (Some (External "failed")).
Definition end_rpc : Rpc := Eval vm_compute in hd open_stream (wants order last_call (p_stream proc2)).
Definition proc3 : proc := set_at (AtWrite last_call end_rpc) proc2.
Definition proc4 : proc := Eval vm_compute in
  match exec (call order None (Err EOF) last_call) proc3 with Ret pr => pr | Panic _ => proc3 end.

Definition g0 : stream := mkStream 3 [] false false false GRun.
Definition opened : conn := set_serve VRead (set_streams {[3%Z := 0]} (set_g 0 g0 newHandler)).
Definition sending : conn := set_g 0 (set_pc (GSend msg_rpc) g0) opened.
Definition written_one : conn := set_writer RWait (set_g 0 g0 (set_writer (RWriting msg_rpc) sending)).
Definition returning : conn := set_g 0 (set_pc (GTrailer end_rpc) g0) written_one.
Definition ended : conn :=
  set_g 0 (set_pc GUnreg (cancel_g (set_pc (GTrailer end_rpc) g0))) (set_writer (RWriting end_rpc) returning).

Definition one_history : list dlabel :=
  Conn <$> [EnvRead open_stream; VDecide 0; VStream 0; EnvSend 0 msg_rpc; WriteStream 0 msg_rpc; EnvWritten None;
            EnvReturn 0 end_rpc; WriteStream 0 end_rpc].

Abbreviation dstep2 := (dstep server2 Background order).
Definition handling : conn := set_serve (VDispatch open_stream) newHandler.
Lemma start_read : dstep2 (Ret driven_init) (Conn (EnvRead open_stream)) (Ret (mkDriven handling ∅)).
Proof.
  apply (d_conn_step server2 Background order newHandler ∅ (EnvRead open_stream) (Ret handling)); [by intros []|].
  by apply step_read.
Qed.
Lemma start_run :
  trace dstep2 (Ret (mkDriven handling ∅)) (Conn <$> [VDecide 0; VStream 0]) (Ret (mkDriven opened {[0 := proc0]})).
Proof.
  eapply trace_step.
  { apply (d_conn_step _ _ _ handling ∅ _ (Ret (set_serve (serve_decide server2 open_stream) handling))); [by intros []|].
    by apply (step_decide _ _ handling 0 open_stream). }
  assert (Hd : serve_decide server2 open_stream = VLock open_stream) by by vm_compute. rewrite Hd.
  set (v2 := set_serve (VLock open_stream) handling). apply trace_one.
  assert (Hst : dstep2 (Ret (mkDriven v2 ∅)) (Conn (VStream 0))
    (Ret (mkDriven opened (started server2 Background (VStream 0) v2 ∅)))).
  { exact (d_conn_step server2 Background order v2 ∅ (VStream 0) _ ltac:(by intros [])
      (step_stream server2 Background v2 0 open_stream eq_refl I)). }
  assert (Hs : started server2 Background (VStream 0) v2 ∅ = {[0 := proc0]}) by by vm_compute.
  rewrite Hs in Hst. exact Hst.
Qed.
Lemma start_one : trace dstep2 (Ret driven_init) (take 3 one_history) (Ret (mkDriven opened {[0 := proc0]})).
Proof. eapply trace_step; [apply start_read|apply start_run]. Qed.

Definition ps0 : gmap nat proc := {[0 := proc0]}.
Definition ps1 : gmap nat proc := <[0 := proc1]> ps0.
Definition ps2 : gmap nat proc := <[0 := proc2]> ps1.
Definition ps3 : gmap nat proc := <[0 := proc3]> ps2.
Definition ps4 : gmap nat proc := <[0 := proc4]> ps3.
Definition wrote_one : conn := set_g 0 g0 (set_writer (RWriting msg_rpc) sending).

Lemma step_ask : dstep2 (Ret (mkDriven opened ps0)) (Conn (EnvSend 0 msg_rpc)) (Ret (mkDriven sending ps1)).
Proof.
  apply (d_handler _ _ _ opened sending _ _ 0 proc0 _ (Ret proc1) (h_send 0 msg_rpc)); [by apply (step_send _ _ opened 0 g0)|done|].
  apply (p_ask _ proc0 send_one msg_rpc); by vm_compute.
Qed.
Lemma step_wrote : dstep2 (Ret (mkDriven sending ps1)) (Conn (WriteStream 0 msg_rpc)) (Ret (mkDriven wrote_one ps2)).
Proof.
  apply (d_handler _ _ _ sending wrote_one _ _ 0 proc1 _ (Ret proc2) (h_wrote 0 msg_rpc)).
  - apply (step_write_stream _ _ sending 0 (set_pc (GSend msg_rpc) g0) msg_rpc); [done|by left|done].
  - done.
  - exact (p_wrote order proc1 send_one msg_rpc None eq_refl).
Qed.
Lemma step_next : dstep2 (Ret (mkDriven wrote_one ps2)) (Conn (EnvWritten None)) (Ret (mkDriven written_one ps2)).
Proof.
  apply (d_conn_step _ _ _ wrote_one ps2 (EnvWritten None) (Ret written_one)); [by intros []|].
  by apply (step_written _ _ wrote_one msg_rpc None).
Qed.
Lemma step_last : dstep2 (Ret (mkDriven written_one ps2)) (Conn (EnvReturn 0 end_rpc)) (Ret (mkDriven returning ps3)).
Proof.
  apply (d_handler _ _ _ written_one returning _ _ 0 proc2 _ (Ret proc3) (h_return 0 end_rpc));
    [by apply (step_return _ _ written_one 0 g0)|done|].
  apply (p_ask _ proc2 last_call end_rpc); by vm_compute.
Qed.
Lemma step_end : dstep2 (Ret (mkDriven returning ps3)) (Conn (WriteStream 0 end_rpc)) (Ret (mkDriven ended ps4)).
Proof.
  apply (d_handler _ _ _ returning ended _ _ 0 proc3 _ (Ret proc4) (h_wrote 0 end_rpc)).
  - apply (step_write_stream _ _ returning 0 (set_pc (GTrailer end_rpc) g0) end_rpc); [done|by right|done].
  - done.
  - exact (p_wrote order proc3 last_call end_rpc None eq_refl).
Qed.

Lemma one_trace : trace dstep2 (Ret driven_init) one_history (Ret (mkDriven ended ps4)).
Proof.
  rewrite <-(take_drop 3 one_history). eapply trace_app; [apply start_one|].
  eapply trace_step; [apply step_ask|]. eapply trace_step; [apply step_wrote|].
  eapply trace_step; [apply step_next|]. eapply trace_step; [apply step_last|]. apply trace_one, step_end.
Qed.

(** The goroutine has ended: the writer took its message and its trailer, which
    are what runStream sends. *)
Lemma goroutine_runs_stream_witness :
  handed 0 (conn_history one_history) = [msg_rpc; end_rpc] ∧
  ∃ info sd rpc hd now rd wr, rpc_Header rpc = Some hd ∧ dispatch server2 rpc = ToStream info sd rpc ∧
    [msg_rpc; end_rpc] =
      sent (runStream order rd wr 0 (λ _, 0%Z) server2 info sd rpc 3 (contextFromHeaders now Background hd).1).1.
Proof.
  split; [done|].
  destruct (goroutine_runs_stream server2 Background order one_history (mkDriven ended ps4) 0
    (cancel_g (set_pc GUnreg g0)) one_trace eq_refl)
    as (_ & pr & info & sd & rpc & hd & now & rd & wr & n & Hpr & _ & _ & Hdis & Hh & _ & _ & Hrun).
  exists info, sd, rpc, hd, now, rd, wr. split; [done|]. split; [done|].
  assert (pr = proc4) as -> by (simpl in Hpr; unfold ps4 in Hpr; rewrite lookup_insert_eq in Hpr; congruence).
  apply (Hrun 0%Z (λ _, 0%Z)) with (appErr := Some (External "failed")) (err := None). done.
Defined.

Lemma connection_writes_typed_witness : Forall from_server [msg_rpc; end_rpc].
Proof. exact (proj1 (connection_writes_typed server2 Background order one_history _ one_trace)). Defined.

(** After the first step the handler goes on by itself. *)
Lemma handler_goes_on_witness : ∃ pr, ps0 !! 0 = Some pr ∧ ∃ p, p_at pr = AtCode p.
Proof.
  destruct (handler_goes_on server2 Background order (take 3 one_history) opened ps0 0 g0 start_one eq_refl)
    as (pr & Hpr & _). exists pr. split; [exact Hpr|].
  unfold ps0 in Hpr. rewrite lookup_singleton_eq in Hpr. injection Hpr as <-. by eexists.
Defined.
End witness.
