(* ===== verification/TestService.v ===== *)
(** * The example server (cmd/e2e-websocket-test/main.go)

    The service that the end-to-end tests run, as handlers of the server of file
    [Server]: its methods, the generated code that registers them
    (gen/testproto/test_grpc.pb.go), and main's interceptors.  What a client
    of its streams is told follows from the files [RunStream] and [Streams]. *)

From S2P Require Import Prelude GoString Rpc Errors Metadata RequestContext Runtime TransportStream ServerStream Interceptors Server ClientConn ClientStream Streams RunStream.

(** ** int32 *)
Definition is_int32 (z : Z) : Prop := (- 2 ^ 31 ≤ z < 2 ^ 31)%Z.
Definition wrap32 (z : Z) : Z := (z + 2 ^ 31) `mod` 2 ^ 32 - 2 ^ 31.

Lemma wrap32_id z : is_int32 z → wrap32 z = z.
Proof. unfold is_int32, wrap32. intros Hz. rewrite Z.mod_small; lia. Qed.
Lemma wrap32_int32 z : is_int32 (wrap32 z).
Proof. unfold is_int32, wrap32. pose proof (Z.mod_pos_bound (z + 2 ^ 31) (2 ^ 32)). lia. Qed.

(** An int that overflowed still has the right low 32 bits. *)
Lemma wrap32_wrap64 z : wrap32 (wrap64 z) = wrap32 z.
Proof.
  unfold wrap32, wrap64. f_equal.
  rewrite (Z.mod_eq (z + 2 ^ 63) (2 ^ 64)) by lia.
  set (q := ((z + 2 ^ 63) `div` 2 ^ 64)%Z).
  replace (z + 2 ^ 63 - 2 ^ 64 * q - 2 ^ 63 + 2 ^ 31)%Z
    with (z + 2 ^ 31 + (- (2 ^ 32) * q) * 2 ^ 32)%Z by lia.
  apply Z.mod_add. lia.
Qed.

Lemma wrap32_add a b c : wrap32 (wrap64 (a + b) + c) = wrap32 (a + (b + c)).
Proof.
  rewrite <-(wrap32_wrap64 (a + (b + c))), <-(wrap32_wrap64 (wrap64 (a + b) + c)). f_equal.
  unfold wrap64. f_equal.
  replace ((a + b + 2 ^ 63) `mod` 2 ^ 64 - 2 ^ 63 + c + 2 ^ 63)%Z
    with ((a + b + 2 ^ 63) `mod` 2 ^ 64 + c)%Z by lia.
  rewrite Z.add_mod_idemp_l by lia. f_equal. lia.
Qed.

(** testproto.Msg *)
Record Msg := mkMsg { Value : Z }.

(** ** The service

    A loop of receives is unfolded [n] times.  metadata.Pairs and metadata.New,
    and the text of time.Now(), are parameters; Recv, Send and SendAndClose of
    the generated stream types call RecvMsg and SendMsg. *)
Section service.
Variable Pairs : list string → MD.
Variable New : list (string * string) → MD.
Variable now : string.

Definition Recv (k : Msg → sprog Msg) (kerr : error → sprog Msg) : sprog Msg :=
  SRecvMsg (λ m err, match err with Some e => kerr e | None => k (default (mkMsg 0) m) end).

(** [for i := 0; i < limit; i++ { srv.Send(&testproto.Msg{Value: int32(i)}) }] *)
Fixpoint send_values (l : list Z) (k : sprog Msg) : sprog Msg :=
  match l with
  | [] => k
  | i :: l => SSendMsg (mkMsg (wrap32 i)) (λ _, send_values l k)
  end.
Definition send_up_to (limit : Z) (k : sprog Msg) : sprog Msg := send_values (seqZ 0 limit) k.

Fixpoint BidiStream (n : nat) : sprog Msg :=
  match n with
  | 0 => SPanic "more messages than the bound"
  | S n => Recv (λ msg, send_up_to (Value msg) (BidiStream n)) (λ _, SRet None)
  end.

Fixpoint ClientStream_loop (n : nat) (count : Z) : sprog Msg :=
  match n with
  | 0 => SPanic "more messages than the bound"
  | S n => Recv (λ msg, ClientStream_loop n (wrap64 (count + Value msg)))
             (λ _, SSendMsg (mkMsg (wrap32 count)) (λ _, SRet None))
  end.
Definition ClientStream (n : nat) : sprog Msg := ClientStream_loop n 0.

Definition ServerStream (msg : Msg) : sprog Msg :=
  send_up_to (Value msg) (SSetTrailer (New [("FOOO", "bar")]) (SRet None)).

(** Both branches of its select return nil. *)
Definition ServerStreamThatSleeps (msg : Msg) : sprog Msg := SRet None.

Definition Unary (m : Msg) : uprog Msg :=
  USetTrailer (Pairs ["timestamp"; now; "foo"; "bar"; "input"; FormatInt (Value m)]) (λ _,
  USetHeader (Pairs ["foo"; "baz"]) (λ _,
  URet (Some (mkMsg (wrap32 (Value m * 2)))) None)).

(** ** The generated code *)
Definition Unary_FullMethodName : string := "/grpcwebsockets.TestService/Unary".

Definition _TestService_Unary_Handler (srv : option ()) (ctx : Ctx)
    (interceptor : option (UnaryServerInterceptor Msg)) : uprog Msg :=
  UDec (λ m err,
    match err with
    | Some e => URet None (Some e)
    | None =>
        let inp := default (mkMsg 0) m in
        match interceptor with
        | None => Unary inp
        | Some f => f ctx (Some inp) Unary_FullMethodName (λ _ req, Unary (default (mkMsg 0) req))
        end
    end).

Definition _TestService_ServerStream_Handler (srv : option ()) (_ : ()) : sprog Msg :=
  Recv ServerStream (λ err, SRet (Some err)).
Definition _TestService_ServerStreamThatSleeps_Handler (srv : option ()) (_ : ()) : sprog Msg :=
  Recv ServerStreamThatSleeps (λ err, SRet (Some err)).

Definition TestService_ServiceDesc (n : nat) : ServiceDesc Msg () :=
  mkServiceDesc "grpcwebsockets.TestService" (λ _, true)
    [mkMethodDesc "Unary" _TestService_Unary_Handler]
    [mkStreamDesc "BidiStream" (λ _ _, BidiStream n) true true;
     mkStreamDesc "ServerStream" _TestService_ServerStream_Handler true false;
     mkStreamDesc "ServerStreamThatSleeps" _TestService_ServerStreamThatSleeps_Handler true false;
     mkStreamDesc "ClientStream" (λ _ _, ClientStream n) false true]
    "testproto/test.proto".

(** main: the interceptors log and call the handler. *)
Definition main_server {Handler} (n : nat) : outcome (Server Msg () Handler) :=
  RegisterService (TestService_ServiceDesc n) (Some ())
    (NewServer "e2e"
       [UnaryInterceptor (λ ctx req _ handler, handler ctx req);
        StreamInterceptor (λ srv ss _ handler, handler srv ss)]).

(** WebsocketAcceptor serves one connection.  [accept]: the error of
    websocket.Accept; [Serve]: what Serve returns for a context; [CloseStatus]:
    websocket.CloseStatus.  The results are what it logs, and the reason of the
    close frame. *)
Inductive acceptor_log := LConnected | LClosed | LUnexpected (err : option error) | LClose (reason : string).

Definition WebsocketAcceptor `{StatusPkg} (CloseStatus : option error → Z) (RemoteAddr : string)
    (accept : option error) (Serve : Ctx → option error) (ctx : Ctx) : list acceptor_log * outcome () :=
  match accept with
  | Some _ => ([], Ret tt)
  | None =>
      let ctx := mkCtx (ctx_incoming ctx) (ctx_outgoing ctx) (ctx_deadline ctx)
                   (RemoteAddr :: ctx_values ctx) in
      let err := Serve ctx in
      let l := if from_option (λ e, errors_Is e EOF) false err || (CloseStatus err =? 1000)%Z
               then LClosed else LUnexpected err in
      match err with
      | Some e => ([LConnected; l; LClose (error_Error e)], Ret tt)
      | None => ([LConnected; l], Panic "nil pointer dereference")
      end
  end.

(** ** What the streams promise *)
Definition up_to (m : Msg) : list Msg := mkMsg <$> seqZ 0 (Value m).
Definition total (ms : list Msg) : Z := foldr (λ m z, Value m + z)%Z 0%Z ms.

(** The messages a client gets from a method, given those it sent. *)
Definition stream_result (name : string) (ms : list Msg) : list Msg :=
  if decide (name = "BidiStream") then ms ≫= up_to
  else if decide (name = "ClientStream") then [mkMsg (wrap32 (total ms))]
  else if decide (name = "ServerStream") then from_option up_to [] (head ms)
  else [].
End service.

Lemma up_to_int32 m : is_int32 (Value m) → Forall (λ m, is_int32 (Value m)) (up_to m).
Proof.
  intros Hm. apply Forall_fmap, Forall_forall. intros z Hz. apply elem_of_seqZ in Hz.
  unfold is_int32 in *. simpl. lia.
Qed.

Lemma stream_result_int32 name ms :
  Forall (λ m, is_int32 (Value m)) ms → Forall (λ m, is_int32 (Value m)) (stream_result name ms).
Proof.
  intros Hms. unfold stream_result. repeat case_decide.
  - induction Hms as [|m ms Hm Hms IH]; [done|]. rewrite bind_cons. apply Forall_app.
    split; [by apply up_to_int32|done].
  - apply Forall_singleton, wrap32_int32.
  - destruct Hms; [done|by apply up_to_int32].
  - done.
Qed.

(** ** What a client sends *)
Section client.
Context {CHandler : Type}.
Context `{Unicode, StatusPkg, Codec Msg}.
Implicit Type s : cstream Msg CHandler.

(** Its messages, then CloseSend; every Write succeeds. *)
Definition client_sends (ms : list Msg) s : cstream Msg CHandler :=
  (CloseSend None (foldl (λ s m, (SendMsg_write None m s).1) s ms)).1.
Definition requests (args : stream_args (Handler:=CHandler)) (ms : list Msg) : list Rpc :=
  sent (cs_log (client_sends ms (NewClientStream args))).
(** What the server's reads return. *)
Definition reads_from (rpcs : list Rpc) (i : nat) : result Rpc :=
  from_option Ok (Err EOF) (rpcs !! i).

Definition message_rpc s (m : Msg) : Rpc :=
  mkRpc (sa_id (cs_args s)) (Some (cs_lit s)) None
    (Some (mkBody (Some (Materialize (match Marshal m with Ok body => body | Err _ => [] end)))))
    None None.

Lemma client_sends_log ms s :
  Forall (λ m, ∃ body, Marshal m = Ok body) ms →
  sent (cs_log (client_sends ms s)) = sent (cs_log s) ++ (message_rpc s <$> ms) ++ [close_rpc s].
Proof.
  intros Hms. revert s. induction Hms as [|m ms [body Hm] Hms IH]; intros s; unfold client_sends in *.
  - simpl. unfold cs_notify. by autorewrite with goat_sent.
  - cbn [foldl fmap list_fmap]. rewrite IH. unfold SendMsg_write, message_rpc. rewrite Hm. simpl.
    unfold cs_notify. autorewrite with goat_sent. simpl. by rewrite app_nil_r, <-app_assoc.
Qed.

Lemma requests_eq args ms :
  Forall (λ m, ∃ body, Marshal m = Ok body) ms →
  let s := NewClientStream args in requests args ms = (message_rpc s <$> ms) ++ [close_rpc s].
Proof. intros Hms s. unfold requests. by rewrite client_sends_log. Qed.
End client.

(** ** What the handlers do with it *)
Section handlers.
Context {CHandler Handler : Type}.
Context `{Unicode, MetadataPkg, StatusPkg, !StatusLaws, Codec Msg, !CodecLaws Msg}.
Context (ord : map_range) (rd : nat → result Rpc).
Hypothesis Marshal_int32 : ∀ m, is_int32 (Value m) → ∃ body, Marshal m = Ok body.

(** [p], started at the [i]-th read, puts [out] on the wire and returns [e]. *)
Definition emits (i : nat) (p : sprog Msg) (out : list Msg) (e : option error) : Prop :=
  ∀ j (ss : serverStream Handler), let r := run_sprog ord rd (λ _, None) i j p ss in
    messages (sent (log_of r)) = out ≫= message_body ∧ ∃ j', res_of r = Ret (e, j').

(** One operation before the rest of the handler. *)
Abbreviation SM := (M (serverStream Handler) (effect Msg Handler)).
Lemma emits_op {A} (m : SM A) (k : A → SM (option error * nat)) ss a out1 out2 e :
  res_of (m ss) = Ret a → messages (sent (log_of (m ss))) = out1 ≫= message_body →
  (let r := k a (st_of (m ss)) in
   messages (sent (log_of r)) = out2 ≫= message_body ∧ ∃ j' : nat, res_of r = Ret (e, j')) →
  let r := mbind k m ss in
  messages (sent (log_of r)) = (out1 ++ out2) ≫= message_body ∧ ∃ j' : nat, res_of r = Ret (e, j').
Proof.
  cbv zeta. rewrite bind_run. intros -> Hl [Hk Hj].
  destruct (k a (st_of (m ss))) as [[s1 l1] r1]. unfold log_of, res_of in *. simpl in *.
  unfold messages in *. by rewrite sent_app, !bind_app, Hl, Hk.
Qed.

Lemma emits_ret i e : emits i (SRet e) [] e.
Proof. intros j ss. split; [done|]. by eexists. Qed.

Lemma emits_send i m k out e :
  is_int32 (Value m) → emits i (k None) out e → emits i (SSendMsg m k) (m :: out) e.
Proof.
  intros Hm Hk j ss. destruct (Marshal_int32 m Hm) as [body Hb].
  destruct (run_SendMsg (Handler:=Handler) ord None m body ss Hb) as (_ & Hl & Hr).
  apply (emits_op _ _ _ None [m] out); [done| |apply Hk]. rewrite Hl. simpl.
  unfold message_body. by rewrite Hb.
Qed.

Lemma emits_trailer i md k out e : emits i k out e → emits i (SSetTrailer md k) out e.
Proof. intros Hk j ss. apply (emits_op _ _ _ tt [] out); rewrite run_SetTrailer; [done..|apply Hk]. Qed.

(** A read of a message, and of the client's CloseSend. *)
Lemma emits_recv (s : cstream Msg CHandler) i m k kerr out e :
  rd i = Ok (message_rpc s m) → is_int32 (Value m) →
  emits (S i) (k m) out e → emits i (Recv k kerr) out e.
Proof.
  intros Hrd Hm Hk j ss. destruct (Marshal_int32 m Hm) as [body Hb].
  destruct (run_RecvMsg (Msg:=Msg) (rd i) ss) as [Hst Hl].
  apply (emits_op _ _ _ (Some m, None) [] out); [|by rewrite Hl|apply Hk].
  rewrite Hrd. unfold RecvMsg, message_rpc. rewrite Hb. simpl.
  by rewrite (Unmarshal_Marshal m body Hb).
Qed.

Lemma emits_recv_end (s : cstream Msg CHandler) i k kerr out e :
  rd i = Ok (close_rpc s) → emits (S i) (kerr EOF) out e → emits i (Recv k kerr) out e.
Proof.
  intros Hrd Hk j ss. destruct (run_RecvMsg (Msg:=Msg) (rd i) ss) as [Hst Hl].
  apply (emits_op _ _ _ (None, Some EOF) [] out); [|by rewrite Hl|apply Hk].
  by rewrite Hrd.
Qed.

Lemma emits_send_values i l k out e :
  Forall is_int32 l → emits i k out e → emits i (send_values l k) ((mkMsg <$> l) ++ out) e.
Proof.
  induction 1 as [|z l Hz Hl IH]; intros Hk; [done|]. simpl. rewrite wrap32_id by done.
  by apply emits_send; [|apply IH].
Qed.

Lemma emits_up_to i m k out e :
  is_int32 (Value m) → emits i k out e → emits i (send_up_to (Value m) k) (up_to m ++ out) e.
Proof.
  intros Hm Hk. apply emits_send_values; [|done]. apply Forall_forall. intros z Hz.
  apply elem_of_seqZ in Hz. unfold is_int32 in *. lia.
Qed.

(** The messages of the client, then its CloseSend. *)
Lemma emits_loop (s : cstream Msg CHandler) ms i :
  (∀ k, rd (i + k) = reads_from ((message_rpc s <$> ms) ++ [close_rpc s]) k) →
  match ms with
  | [] => rd i = Ok (close_rpc s)
  | m :: ms => rd i = Ok (message_rpc s m) ∧
      ∀ k, rd (S i + k) = reads_from ((message_rpc s <$> ms) ++ [close_rpc s]) k
  end.
Proof.
  intros Hrd. pose proof (Hrd 0) as H0'. rewrite Nat.add_0_r in H0'. destruct ms as [|m ms]; [done|].
  split; [done|]. intros k. rewrite Nat.add_succ_comm. by rewrite Hrd.
Qed.

Lemma BidiStream_emits (s : cstream Msg CHandler) ms n i :
  length ms < n → Forall (λ m, is_int32 (Value m)) ms →
  (∀ k, rd (i + k) = reads_from ((message_rpc s <$> ms) ++ [close_rpc s]) k) →
  emits i (BidiStream n) (ms ≫= up_to) None.
Proof.
  intros Hn Hms. revert n i Hn. induction Hms as [|m ms Hm Hms IH]; intros [|n] i Hn Hrd; simpl in Hn; try lia.
  - apply emits_loop in Hrd. eapply emits_recv_end; [done|]. apply emits_ret.
  - apply emits_loop in Hrd as [Hr Hrd]. eapply emits_recv; [done..|]. rewrite bind_cons.
    apply emits_up_to; [done|]. apply IH; [lia|done].
Qed.

Lemma ClientStream_emits (s : cstream Msg CHandler) ms n i count :
  length ms < n → Forall (λ m, is_int32 (Value m)) ms →
  (∀ k, rd (i + k) = reads_from ((message_rpc s <$> ms) ++ [close_rpc s]) k) →
  emits i (ClientStream_loop n count) [mkMsg (wrap32 (count + total ms))] None.
Proof.
  intros Hn Hms. revert n i count Hn.
  induction Hms as [|m ms Hm Hms IH]; intros [|n] i count Hn Hrd; simpl in Hn; try lia.
  - apply emits_loop in Hrd. eapply emits_recv_end; [done|]. unfold total. simpl. rewrite Z.add_0_r.
    apply emits_send; [apply wrap32_int32|]. apply emits_ret.
  - apply emits_loop in Hrd as [Hr Hrd]. eapply emits_recv; [done..|].
    replace (mkMsg (wrap32 (count + total (m :: ms))))
      with (mkMsg (wrap32 (wrap64 (count + Value m) + total ms))); [apply IH; [lia|done]|].
    f_equal. unfold total. simpl. fold (total ms). apply wrap32_add.
Qed.

Lemma ServerStream_emits (s : cstream Msg CHandler) New m ms srv u :
  is_int32 (Value m) →
  (∀ k, rd (0 + k) = reads_from ((message_rpc s <$> (m :: ms)) ++ [close_rpc s]) k) →
  emits 0 (_TestService_ServerStream_Handler New srv u) (up_to m) None.
Proof.
  intros Hm Hrd. apply emits_loop in Hrd as [Hr _]. eapply emits_recv; [done..|].
  rewrite <-(app_nil_r (up_to m)). apply emits_up_to; [done|]. apply emits_trailer, emits_ret.
Qed.

Lemma ServerStreamThatSleeps_emits (s : cstream Msg CHandler) m ms srv u :
  is_int32 (Value m) →
  (∀ k, rd (0 + k) = reads_from ((message_rpc s <$> (m :: ms)) ++ [close_rpc s]) k) →
  emits 0 (_TestService_ServerStreamThatSleeps_Handler srv u) [] None.
Proof.
  intros Hm Hrd. apply emits_loop in Hrd as [Hr _]. eapply emits_recv; [done..|]. apply emits_ret.
Qed.
End handlers.

(** ** Both sides *)
Section both.
Context {CHandler Handler : Type}.
Context `{Unicode, MetadataPkg, StatusPkg, !StatusLaws, Codec Msg, !CodecLaws Msg, StatsHandler Handler}.
Variable ord : map_range.
Hypothesis Marshal_int32 : ∀ m, is_int32 (Value m) → ∃ body, Marshal m = Ok body.

(** runStream writes what the handler emits, and the trailer. *)
Lemma emits_runStream rd b clock (s : Server Msg () Handler) info sd rpc h id ctx out e :
  rpc_Header rpc = Some h → emits (Handler:=Handler) ord rd 0 (stream_handler s info sd) out e →
  ∃ pre id' hd md, let r := runStream ord rd (λ _, None) b clock s info sd rpc id ctx in
    r.2 = Ret None ∧ messages pre = out ≫= message_body ∧
    sent r.1 = pre ++ [mkRpc id' hd (Some (trailer_status e)) None (Some (mkTrailer md)) None].
Proof.
  intros Hh He. rewrite (runStream_unfold _ _ _ b clock s info sd rpc h id ctx Hh). cbv zeta.
  set (ss := stream_of s info sd h id ctx). set (p := stream_handler s info sd) in *.
  destruct (He 0 ss) as [Hm [j Hr]].
  destruct (performs_total ord rd (λ _, None) 0 0 p ss) as (os & r & j' & Hp).
  destruct (performs_run _ _ _ _ _ _ _ _ _ _ Hp) as (Hos & Hst & _).
  destruct (ss_run_messages os ss Hos) as [_ Hts]. rewrite <-Hst in Hts.
  set (ss1 := st_of (run_sprog ord rd (λ _, None) 0 0 p ss)) in *.
  destruct (run_SendTrailer (Msg:=Msg) ord None e ss1) as [_ Hf].
  destruct (Hf Hts) as (_ & Hl & Hret).
  unfold handle_stream. rewrite bind_run, Hr, bind_run. fold ss1. rewrite Hret. simpl.
  do 4 eexists. split; [done|]. split; [exact Hm|].
  rewrite !sent_app, StatsStartServerRPC_sent, StatsEndRPC_sent, app_nil_r. simpl.
  unfold log_of at 1. cbn [fst snd]. by rewrite app_nil_r, sent_app, Hl.
Qed.

Variable Pairs : list string → MD.
Variable New : list (string * string) → MD.
Variable now : string.

(** The streams that the handlers of a method need. *)
Definition acceptable (name : string) (ms : list Msg) : Prop :=
  name = "BidiStream" ∨ name = "ClientStream" ∨
  ((name = "ServerStream" ∨ name = "ServerStreamThatSleeps") ∧ ms ≠ []).

Lemma method_emits (s : cstream Msg CHandler) n name ms rd :
  acceptable name ms → length ms < n → Forall (λ m, is_int32 (Value m)) ms →
  (∀ k, rd (0 + k) = reads_from ((message_rpc s <$> ms) ++ [close_rpc s]) k) →
  ∃ sd, fill sd_StreamName (sdesc_Streams (TestService_ServiceDesc Pairs New now n)) !! name = Some sd ∧
    sd_StreamName sd = name ∧
    emits (Handler:=Handler) ord rd 0 (sd_Handler sd (Some ()) tt) (stream_result name ms) None.
Proof.
  intros Hname Hn Hms Hrd.
  destruct Hname as [->|[->|[[->| ->] Hne]]];
    (eexists; split; [reflexivity|]; split; [reflexivity|]); unfold stream_result; simpl.
  - by eapply BidiStream_emits.
  - replace (mkMsg (wrap32 (total ms))) with (mkMsg (wrap32 (0 + total ms))) by done.
    by eapply ClientStream_emits.
  - destruct ms as [|m ms]; [done|]. apply Forall_cons in Hms as [Hm _]. by eapply ServerStream_emits.
  - destruct ms as [|m ms]; [done|]. apply Forall_cons in Hms as [Hm _].
    by eapply ServerStreamThatSleeps_emits.
Qed.

Definition test_info (n : nat) : serviceInfo Msg () :=
  let desc := TestService_ServiceDesc Pairs New now n in
  mkServiceInfo (sdesc_ServiceName desc) (Some ()) (fill md_MethodName (sdesc_Methods desc))
    (fill sd_StreamName (sdesc_Streams desc)) (sdesc_Metadata desc).

Lemma dispatch_stream n (srv : Server Msg () Handler) rpc h name sd :
  main_server Pairs New now n = Ret srv → rpc_Header rpc = Some h →
  h_Method h = fullMethod "grpcwebsockets.TestService" name → h_Destination h = "e2e" →
  slash ∉ bytes_of name → name ≠ "Unary" →
  fill sd_StreamName (sdesc_Streams (TestService_ServiceDesc Pairs New now n)) !! name = Some sd →
  ∃ info, dispatch srv rpc = ToStream info sd rpc ∧
    stream_handler srv info sd = sd_Handler sd (Some ()) tt.
Proof.
  intros Hsrv Hh Hm Hd Hsl Hu Hsd.
  assert (Hreg : srv_id srv = "e2e" ∧
    srv_services srv !! "grpcwebsockets.TestService" = Some (test_info n) ∧
    srv_streamInterceptor srv = Some (λ srv ss _ handler, handler srv ss))
    by (injection Hsrv as <-; by split_and!).
  destruct Hreg as (Hid & Hsi & Hint). exists (test_info n). split.
  - unfold dispatch, GetHeader. cbn [mbind option_bind]. rewrite Hh, Hm, parse_fullMethod by done.
    rewrite decide_False by (rewrite Hd, Hid; tauto). rewrite Hsi.
    replace (si_methods (test_info n) !! name) with (@None (MethodDesc Msg ())).
    + cbn [test_info si_streams]. by rewrite Hsd.
    + symmetry. apply lookup_insert_None. split; [apply lookup_empty|]. by apply not_eq_sym.
  - unfold stream_handler. by rewrite Hint.
Qed.

(** C28: the example server end to end.  A client opens one of the streams of the
    test service, sends messages and closes its side.  The server dispatches the
    request to the method's handler through main's interceptor and ends without
    an error; and a client stream that reads what the server wrote is given
    exactly the method's answer and then io.EOF: for each message the numbers
    below its value (BidiStream), the sum of the values as an int32
    (ClientStream), the numbers below the first value (ServerStream). *)
Theorem testService_streams n (srv : Server Msg () Handler) name ms rpc h b clock id ctx
    (args : stream_args (Handler:=CHandler)) ls (s : cstream Msg CHandler) ret :
  main_server Pairs New now n = Ret srv →
  acceptable name ms → length ms < n → Forall (λ m, is_int32 (Value m)) ms →
  rpc_Header rpc = Some h → h_Method h = fullMethod "grpcwebsockets.TestService" name →
  h_Destination h = "e2e" →
  ∃ info sd, dispatch srv rpc = ToStream info sd rpc ∧ sd_StreamName sd = name ∧
    let '(log, r) := runStream ord (reads_from (requests args ms)) (λ _, None) b clock srv info sd rpc
                       id ctx in
    r = Ret None ∧
    (trace step (Ret (NewClientStream args)) ls (Ret s) → reads ls = sent log →
     last ls = Some (RecvEnd ret) → p_trailer (cs_protected s) ≠ None →
     (λ b, Unmarshal [default [] (b_Data b)]) <$> delivered ls = Ok <$> stream_result name ms ∧
     ret = Some EOF).
Proof.
  intros Hsrv Hname Hn Hms Hh Hm Hd.
  assert (Hbodies : Forall (λ m, ∃ body, Marshal m = Ok body) ms)
    by (eapply Forall_impl; [exact Hms|exact Marshal_int32]).
  destruct (method_emits (NewClientStream args) n name ms (reads_from (requests args ms)))
    as (sd & Hsd & Hsn & He); [done..| |].
  { intros k. by rewrite (requests_eq args ms Hbodies). }
  destruct (dispatch_stream n srv rpc h name sd) as (info & Hdis & Hst); try done.
  1-2: by destruct Hname as [->|[->|[[->| ->] _]]]; apply (bool_decide_unpack _); vm_compute.
  exists info, sd. split; [done|]. split; [done|]. rewrite <-Hst in He.
  destruct (emits_runStream _ b clock srv info sd rpc h id ctx _ _ Hh He)
    as (pre & id' & hd & md & Hr & Hp & Hl).
  destruct (runStream _ _ _ _ _ _ _ _ _ _ _) as [log r]. cbn [fst snd] in *. split; [done|].
  intros Htr Hreads Hlast Htl. rewrite Hl in Hreads.
  destruct (client_reads_back _ _ _ _ _ _ _ _ _ Htr Hreads Hlast Htl) as [-> ->].
  rewrite Hp. split; [|done]. apply messages_unmarshal. eapply Forall_impl; [|exact Marshal_int32].
  by apply stream_result_int32.
Qed.
End both.

(** ** The unary method *)
Section unary_method.
Context {Handler : Type}.
Context `{Unicode, MetadataPkg, StatusPkg, Codec Msg, !CodecLaws Msg}.
Variable Pairs : list string → MD.
Variable now : string.

(** Behind main's interceptor it sets its trailer and its header, in that order,
    and doubles the value, wrapping around at 32 bits. *)
Lemma testService_unary (shs : list Handler) ctx m body sts :
  Marshal m = Ok body →
  let '(sts1, e1) := USTS.SetTrailer (Pairs ["timestamp"; now; "foo"; "bar"; "input"; FormatInt (Value m)]) sts in
  let '(sts2, e2) := USTS.SetHeader (Pairs ["foo"; "baz"]) sts1 in
  let r := run_uprog shs ctx (Some (mkBody (Some (Materialize body))))
    (_TestService_Unary_Handler Pairs now (Some ()) ctx (Some (λ ctx req _ handler, handler ctx req))) sts in
  st_of r = sts2 ∧ sent (log_of r) = [] ∧
  res_of r = Ret (Some (mkMsg (wrap32 (Value m * 2))), None).
Proof.
  intros Hm. unfold _TestService_Unary_Handler, Unary. cbn [run_uprog].
  unfold dec. simpl. rewrite (Unmarshal_Marshal m body Hm). simpl.
  generalize (Pairs ["timestamp"; now; "foo"; "bar"; "input"; FormatInt (Value m)]), (Pairs ["foo"; "baz"]).
  intros t hd. unfold mbind, M_bind, emit, get, modify. cbn beta iota zeta.
  destruct (USTS.SetHeader hd _) as [sts2 e2]. simpl.
  split_and!; [done| |done]. unfold log_of. simpl. by autorewrite with goat_sent.
Qed.
End unary_method.

(** ** A concrete run

    A codec that writes the value in decimal. *)
Module TestServiceExample.
Definition bytes (s : string) : list byte := String.list_byte_of_string s.
Definition codec : Codec Msg := {|
  Marshal m := if is_int64 (Value m) then Ok [bytes (FormatInt (Value m))]
               else Err (External "out of range");
  Materialize bs := concat bs;
  Unmarshal bs := from_option (λ v, Ok (mkMsg v)) (Err (External "bad message"))
                    (ParseInt (String.string_of_list_byte (concat bs))) |}.
Lemma TestServiceExample_laws : @CodecLaws Msg codec.
Proof.
  intros [v] bs. simpl. destruct (is_int64 v) eqn:E; [|done]. intros [= <-]. simpl.
  unfold bytes. rewrite !app_nil_r, String.string_of_list_byte_of_string.
  by rewrite (ParseInt_FormatInt v E).
Qed.
Lemma Marshal_int32 m : is_int32 (Value m) → ∃ body, Marshal (Codec:=codec) m = Ok body.
Proof.
  intros Hm. simpl. replace (is_int64 (Value m)) with true; [by eexists|].
  symmetry. apply is_int64_spec. unfold is_int32 in Hm. lia.
Qed.

#[local] Existing Instances codec RuntimeModel.stats StatusModel.pkg MetadataModel.Join
  MetadataModel.no_unicode.

(** A BidiStream call with the messages 2 and 1. *)
Definition ms : list Msg := [mkMsg 2; mkMsg 1].
Definition args : stream_args (Handler:=nat) :=
  mkStreamArgs Background 5 "/grpcwebsockets.TestService/BidiStream" "cli" "e2e" [] 0.
Definition open_header : RequestHeader :=
  mkRequestHeader "/grpcwebsockets.TestService/BidiStream" [] "cli" "e2e" [] None.
Definition open_stream : Rpc := mkRpc 5 (Some open_header) None None None None.
Definition srv : Server Msg () nat :=
  match main_server (λ _, ∅) (λ _, ∅) "" 3 with Ret s => s | Panic _ => NewServer "" [] end.
Definition bidi : Server.StreamDesc Msg () := mkStreamDesc "BidiStream" (λ _ _, BidiStream 3) true true.
Definition wire : list Rpc := Eval vm_compute in
  sent (runStream MetadataModel.order (reads_from (requests args ms)) (λ _, None) 0 (λ _, 0%Z) srv
    (test_info (λ _, ∅) (λ _, ∅) "" 3) bidi open_stream 5 Background).1.
Definition rpc_at (i : nat) : Rpc := default (mkRpc 0 None None None None None) (wire !! i).
Definition deliver (i : nat) : list (ClientStream.label Msg) :=
  [EnvRead (rpc_at i); LoopHandle; RecvStart; LoopDeliver (default (mkBody None) (rpc_Body (rpc_at i)))].
Definition history : list (ClientStream.label Msg) :=
  deliver 0 ++ deliver 1 ++ deliver 2 ++
  [EnvRead (rpc_at 3); LoopHandle; DeferLock; DeferTeardown None; DeferFinish 0; RecvEnd (Some EOF)].
Definition final_state : cstream Msg nat := Eval vm_compute in
  default (NewClientStream args) (exec_run (NewClientStream args) history).
Lemma history_trace' :
  trace step (Ret (NewClientStream (Msg:=Msg) args)) history (Ret final_state).
Proof. apply cs_exec_run_trace. by vm_compute. Qed.
End TestServiceExample.

Section witness.
Import TestServiceExample.
#[local] Existing Instances codec TestServiceExample_laws RuntimeModel.stats StatusModel.pkg
  StatusModel.StatusModel_laws MetadataModel.Join MetadataModel.no_unicode.

Lemma testService_streams_witness :
  (λ b, Unmarshal (Msg:=Msg) [default [] (b_Data b)]) <$> delivered history =
    Ok <$> [mkMsg 0; mkMsg 1; mkMsg 0] ∧ stream_result "BidiStream" ms = [mkMsg 0; mkMsg 1; mkMsg 0].
Proof.
  destruct (testService_streams MetadataModel.order Marshal_int32 (λ _, ∅) (λ _, ∅) "" 3 srv
    "BidiStream" ms open_stream open_header 0 (λ _, 0%Z) 5 Background args history final_state
    (Some EOF)) as (info & sd & Hdis & _ & Hrun).
  - reflexivity.
  - by left.
  - simpl. lia.
  - by repeat constructor.
  - reflexivity.
  - reflexivity.
  - reflexivity.
  - change (dispatch srv open_stream) with (ToStream (test_info (λ _, ∅) (λ _, ∅) "" 3) bidi open_stream)
      in Hdis. injection Hdis as <- <-. revert Hrun.
    destruct (runStream _ _ _ _ _ _ _ _ _ _ _) as [log r] eqn:E. intros [_ Hrun].
    split; [|reflexivity]. destruct Hrun as [Hd _].
    + apply history_trace'.
    + apply (f_equal (λ r, sent r.1)) in E. simpl in E. rewrite <-E. by vm_compute.
    + by vm_compute.
    + by vm_compute.
    + exact Hd.
Defined.
End witness.
