(* ===== verification/System.v ===== *)
(** * A client and a server over one transport

    The client multiplexer of file [Multiplexer] and the server connection of
    file [ServerLoop], connected by a transport that keeps the order of the Rpcs
    in each direction and may fail at any time.  A write that returns an error
    may have delivered its Rpc or not.  A history of the composition projects to
    a history of each component, so what was proved of the components holds of
    their part; here it is put together. *)

From S2P Require Import Prelude GoString Rpc Errors Metadata RequestContext Runtime TransportStream Interceptors Server Chan Multiplexer MuxDelivery ClientConn Unary ServerLoop ServerUnary Wire.

(** ** How a step of the multiplexer moves the callers *)

(** The caller's request may be on the wire. *)
Definition written (p : pc) : Prop :=
  match p with PWait _ _ | PUnregister _ _ _ | PDone _ _ | PStream _ _ _ _ => True | _ => False end.
Definition streaming (p : pc) : Prop := match p with PStream _ _ _ _ => True | _ => False end.

(** A caller that has an id keeps it; one that has none may get it. *)
Definition moves (l : Multiplexer.label) (t : nat) (p p' : pc) : Prop :=
  (pc_id p = None ∧ (pc_id p' = None ∨ ∃ id c, p' = PRegister id c)) ∨
  pc_id p' = pc_id p ∧ (written p → written p') ∧
  (streaming p → streaming p') ∧ (streaming p' → streaming p ∨ ¬ written p) ∧
  (pc_reg p' = pc_reg p ∨ pc_reg p' = None ∨ l = LRegister t).
Definition moved (l : Multiplexer.label) (t : nat) (o o' : option (kind * pc)) : Prop :=
  match o, o' with
  | Some (k, p), Some (k', p') => k' = k ∧ moves l t p p'
  | None, Some (_, p') => pc_id p' = None
  | None, None => True
  | Some _, None => False
  end.

Lemma moved_refl l t o : moved l t o o.
Proof. destruct o as [[k p]|]; simpl; [|done]. split; [done|]. right. split_and!; auto. Qed.

Lemma moved_set l t k p p' (m : gmap nat (kind * pc)) t' :
  m !! t = Some (k, p) → moves l t p p' → moved l t' (m !! t') (<[t := (k, p')]> m !! t').
Proof.
  intros Ht Hm. destruct (decide (t = t')) as [<-|Hne].
  - by rewrite Ht, lookup_insert_eq.
  - rewrite lookup_insert_ne by done. apply moved_refl.
Qed.

(** A caller that keeps its id and its registration, or drops the latter. *)
Lemma moves_keep l t p p' :
  pc_id p' = pc_id p → (written p → written p') → (streaming p ↔ streaming p') →
  pc_reg p' = pc_reg p ∨ pc_reg p' = None → moves l t p p'.
Proof. intros ?? [] [?|?]; right; split_and!; auto. Qed.

Lemma callers_step s l s' t :
  Multiplexer.step (Ret s) l (Ret s') → moved l t (m_callers s !! t) (m_callers s' !! t).
Proof.
  intros Hst. inversion Hst; subst; simpl; try apply moved_refl.
  all: try (eapply moved_set; [done|];
    repeat (match goal with k : kind |- _ => destruct k | w : option error |- _ => destruct w end);
    by apply moves_keep; auto).
  - unfold handleResponse. case_match; apply moved_refl.
  - destruct r; simplify_eq/=. apply moved_refl.
  - match goal with Hb : _ = Ret s' |- _ => apply bind_Ret in Hb as (s1 & E & [= <-]) end.
    apply (closeError_frame ord (Some err) s s1) in E as (Hcal & _). simpl. rewrite Hcal. apply moved_refl.
  - destruct (decide (t0 = t)) as [<-|Hne].
    + match goal with Hn : _ = None |- _ => rewrite Hn end. by rewrite lookup_insert_eq.
    + rewrite lookup_insert_ne by done. apply moved_refl.
  - eapply moved_set; [done|]. left. split; [done|]. left. by destruct (readErrorIfDone s).
  - eapply moved_set; [done|]. left. eauto.
  - eapply moved_set; [done|]. right. destruct k; simpl; split_and!; auto.
  - eapply moved_set; [done|]. destruct p; simplify_eq/=; apply moves_keep; auto.
  - eapply moved_set; [done|]. destruct p; simplify_eq/=; apply moves_keep; auto.
  - match goal with Hb : _ = Ret s' |- _ => apply bind_Ret in Hb as (s1 & E & [= <-]) end.
    apply unregisterHandler_frame in E as (Hcal & _). simpl. rewrite Hcal. eapply moved_set; [done|].
    destruct p as [| | | | |? ? []| |? ? ? []|]; simplify_eq/=; apply moves_keep; auto.
Qed.

(** ** The composition *)
Section system.
Context {Msg Impl Handler : Type}.
Context `{Unicode, MetadataPkg, StatusPkg, !StatusLaws, Codec Msg, !CodecLaws Msg,
  StatsHandler Handler}.
Context (srv : Server Msg Impl Handler) (clientCtx : Ctx).
(** The header and the body that unary call [t] sends. *)
Context (request : nat → RequestHeader * Body).

Definition request_of (t : nat) (id : Z) : Rpc := request_rpc id (request t).1 (request t).2.

(** [y_up]: from the client to the server.  A panic ends one process only. *)
Record sys := mkSys {
  y_client : outcome mux;
  y_server : outcome conn;
  y_up : list Rpc;
  y_down : list Rpc }.
Definition sys_init : sys := mkSys Multiplexer.init (Ret newHandler) [] [].

(** [delivered]: the Rpc of a Write reached the other side. *)
Inductive sys_label :=
  | Client (l : Multiplexer.label)
  | ClientWrite (t : nat) (werr : option error) (rpc : Rpc) (delivered : bool)
  | ClientFrame (t : nat) (rpc : Rpc)              (* a stream writes *)
  | ClientRead (rpc : Rpc)
  | Server (l : ServerLoop.label)
  | ServerWrite (werr : option error) (rpc : Rpc) (delivered : bool)    (* the writer *)
  | ServerReset (werr : option error) (rpc : Rpc) (delivered : bool)    (* resetStream *)
  | ServerRead (rpc : Rpc).

Definition client_local (l : Multiplexer.label) : Prop :=
  match l with Multiplexer.EnvRead _ | EnvWrite _ _ => False | _ => True end.
Definition server_local (l : ServerLoop.label) : Prop :=
  match l with ServerLoop.EnvRead _ | EnvWritten _ | EnvResetWritten _ => False | _ => True end.
Definition deliver (b : bool) (rpc : Rpc) (q : list Rpc) : list Rpc := if b then q ++ [rpc] else q.
Definition write_result (werr : option error) (b : bool) : Prop := werr = None → b = true.

Abbreviation client_step := Multiplexer.step.
Abbreviation server_step := (ServerLoop.step srv clientCtx).

Inductive sys_step : sys → sys_label → sys → Prop :=
  | sys_client c d up down l c' :
      client_local l → client_step c l c' →
      sys_step (mkSys c d up down) (Client l) (mkSys c' d up down)
  | sys_client_write m c' d up down t k id ch werr b :
      m_callers m !! t = Some (k, PWrite id ch) → write_result werr b →
      client_step (Ret m) (EnvWrite t werr) c' →
      sys_step (mkSys (Ret m) d up down) (ClientWrite t werr (request_of t id) b)
        (mkSys c' d (deliver b (request_of t id) up) down)
  | sys_client_frame m d up down t k id ch r pend rpc :
      m_callers m !! t = Some (k, PStream id ch r pend) → rpc_Id rpc = id →
      sys_step (mkSys (Ret m) d up down) (ClientFrame t rpc) (mkSys (Ret m) d (up ++ [rpc]) down)
  | sys_client_read c c' d up down rpc :
      client_step c (Multiplexer.EnvRead rpc) c' →
      sys_step (mkSys c d up (rpc :: down)) (ClientRead rpc) (mkSys c' d up down)
  | sys_server c d d' up down l :
      server_local l → server_step d l d' →
      sys_step (mkSys c d up down) (Server l) (mkSys c d' up down)
  | sys_server_write c v d' up down rpc werr b :
      v_writer v = RWriting rpc → write_result werr b → server_step (Ret v) (EnvWritten werr) d' →
      sys_step (mkSys c (Ret v) up down) (ServerWrite werr rpc b)
        (mkSys c d' up (deliver b rpc down))
  | sys_server_reset c v d' up down rpc werr b :
      v_serve v = VReset rpc → write_result werr b → server_step (Ret v) (EnvResetWritten werr) d' →
      sys_step (mkSys c (Ret v) up down) (ServerReset werr (reset_rpc rpc) b)
        (mkSys c d' up (deliver b (reset_rpc rpc) down))
  | sys_server_read c d d' up down rpc :
      server_step d (ServerLoop.EnvRead rpc) d' →
      sys_step (mkSys c d (rpc :: up) down) (ServerRead rpc) (mkSys c d' up down).

(** ** Projections of a history *)
Definition client_label (l : sys_label) : list Multiplexer.label :=
  match l with
  | Client l => [l]
  | ClientWrite t werr _ _ => [EnvWrite t werr]
  | ClientRead rpc => [Multiplexer.EnvRead rpc]
  | _ => []
  end.
Definition server_label (l : sys_label) : list ServerLoop.label :=
  match l with
  | Server l => [l]
  | ServerWrite werr _ _ => [EnvWritten werr]
  | ServerReset werr _ _ => [EnvResetWritten werr]
  | ServerRead rpc => [ServerLoop.EnvRead rpc]
  | _ => []
  end.
Definition client_history (h : list sys_label) : list Multiplexer.label := h ≫= client_label.
Definition server_history (h : list sys_label) : list ServerLoop.label := h ≫= server_label.

(** What the transport carried in each direction. *)
Definition ups_of (l : sys_label) : list Rpc :=
  match l with ClientWrite _ _ rpc true | ClientFrame _ rpc => [rpc] | _ => [] end.
Definition downs_of (l : sys_label) : list Rpc :=
  match l with ServerWrite _ rpc true | ServerReset _ rpc true => [rpc] | _ => [] end.
Definition ups (h : list sys_label) : list Rpc := h ≫= ups_of.
Definition downs (h : list sys_label) : list Rpc := h ≫= downs_of.

(** What stream [t] wrote. *)
Definition frames_of (t : nat) (l : sys_label) : list Rpc :=
  match l with ClientFrame t' rpc => if decide (t' = t) then [rpc] else [] | _ => [] end.
Definition frames (t : nat) (h : list sys_label) : list Rpc := h ≫= frames_of t.

Lemma frames_snoc t h l : frames t (h ++ [l]) = frames t h ++ frames_of t l.
Proof. unfold frames. by rewrite bind_app, bind_singleton. Qed.
Lemma client_history_snoc h l : client_history (h ++ [l]) = client_history h ++ client_label l.
Proof. unfold client_history. by rewrite bind_app, bind_singleton. Qed.
Lemma server_history_snoc h l : server_history (h ++ [l]) = server_history h ++ server_label l.
Proof. unfold server_history. by rewrite bind_app, bind_singleton. Qed.
Lemma ups_snoc h l : ups (h ++ [l]) = ups h ++ ups_of l.
Proof. unfold ups. by rewrite bind_app, bind_singleton. Qed.
Lemma downs_snoc h l : downs (h ++ [l]) = downs h ++ downs_of l.
Proof. unfold downs. by rewrite bind_app, bind_singleton. Qed.

Lemma client_history_length h : length (client_history h) ≤ length h.
Proof.
  induction h as [|l h IH]; [done|]. unfold client_history in *. rewrite bind_cons, length_app.
  cbn [length]. destruct l; simpl in *; lia.
Qed.

(** ** The transport, and the two components *)
Record link_inv (h : list sys_label) (s : sys) : Prop := {
  lk_client : trace client_step Multiplexer.init (client_history h) (y_client s);
  lk_server : trace server_step (Ret newHandler) (server_history h) (y_server s);
  lk_up : ups h = ServerLoop.reads (server_history h) ++ y_up s;
  lk_down : downs h = MuxDelivery.reads (client_history h) ++ y_down s;
  lk_answers : Forall (answers srv clientCtx (server_history h)) (downs h) }.

Lemma reads_local l : client_local l → MuxDelivery.reads_of l = [].
Proof. by destruct l. Qed.
Lemma srv_reads_local l : server_local l → ServerLoop.reads_of l = [].
Proof. by destruct l. Qed.

Lemma answers_app h h' r : answers srv clientCtx h r → answers srv clientCtx (h ++ h') r.
Proof.
  intros (req & Hr & ?). exists req. split; [|done]. unfold ServerLoop.reads.
  rewrite bind_app. apply elem_of_app. by left.
Qed.

Lemma client_trace_snoc h c l c' :
  trace client_step Multiplexer.init (client_history h) c → client_label l = [] ∧ c' = c ∨
    (∃ l', client_label l = [l'] ∧ client_step c l' c') →
  trace client_step Multiplexer.init (client_history (h ++ [l])) c'.
Proof.
  intros Htr Hl. rewrite client_history_snoc. destruct Hl as [[-> ->]|(l' & -> & Hst)].
  - by rewrite app_nil_r.
  - eapply trace_app; [done|by apply trace_one].
Qed.
Lemma server_trace_snoc h d l d' :
  trace server_step (Ret newHandler) (server_history h) d → server_label l = [] ∧ d' = d ∨
    (∃ l', server_label l = [l'] ∧ server_step d l' d') →
  trace server_step (Ret newHandler) (server_history (h ++ [l])) d'.
Proof.
  intros Htr Hl. rewrite server_history_snoc. destruct Hl as [[-> ->]|(l' & -> & Hst)].
  - by rewrite app_nil_r.
  - eapply trace_app; [done|by apply trace_one].
Qed.

(** What the server's goroutines have in hand to write answers a request. *)
Lemma writer_answers h v rpc :
  trace server_step (Ret newHandler) h (Ret v) → v_writer v = RWriting rpc →
  answers srv clientCtx h rpc.
Proof. intros Htr. by apply (origin_inv_trace srv clientCtx). Qed.
Lemma reset_answers h v rpc :
  trace server_step (Ret newHandler) h (Ret v) → v_serve v = VReset rpc →
  answers srv clientCtx h (reset_rpc rpc).
Proof.
  intros Htr Hv. exists rpc. split_and!; [|done|right].
  - apply (og_hand _ _ _ _ (origin_inv_trace _ _ _ _ Htr)). rewrite Hv. by left.
  - destruct (work_inv_trace srv clientCtx h v Htr) as (runs & lost & Hw).
    pose proof (wk_sorted _ _ _ _ _ _ Hw) as Hs. by rewrite Hv in Hs.
Qed.

Lemma link_inv_step h s l s' : link_inv h s → sys_step s l s' → link_inv (h ++ [l]) s'.
Proof.
  intros [Hc Hs Hu Hd Ha] Hst. split.
  - eapply client_trace_snoc; [done|]. inversion Hst; subst; simpl; eauto 10.
  - eapply server_trace_snoc; [done|]. inversion Hst; subst; simpl; eauto 10.
  - rewrite ups_snoc, server_history_snoc, Hu. unfold ServerLoop.reads. rewrite bind_app.
    inversion Hst; subst; simpl; rewrite ?app_nil_r; try done.
    + destruct b; simpl; by rewrite ?app_assoc, ?app_nil_r.
    + by rewrite app_assoc.
    + by rewrite srv_reads_local, app_nil_r.
    + by rewrite <-app_assoc.
  - rewrite downs_snoc, client_history_snoc, Hd. unfold MuxDelivery.reads. rewrite bind_app.
    inversion Hst; subst; simpl; rewrite ?app_nil_r; try done.
    + by rewrite reads_local, app_nil_r.
    + by rewrite <-app_assoc.
    + destruct b; simpl; by rewrite ?app_assoc, ?app_nil_r.
    + destruct b; simpl; by rewrite ?app_assoc, ?app_nil_r.
  - rewrite downs_snoc, server_history_snoc. apply Forall_app. split.
    + eapply Forall_impl; [exact Ha|]. intros r Hr. by apply answers_app.
    + inversion Hst; subst; simpl; try constructor; destruct b; simpl; try constructor; try constructor;
        apply answers_app; eauto using writer_answers, reset_answers.
Qed.

Lemma link_inv_init : link_inv [] sys_init.
Proof. split; try done; constructor. Qed.

Lemma link_inv_trace h s : trace sys_step sys_init h s → link_inv h s.
Proof.
  intros Htr. exact (trace_history_invariant sys_step link_inv link_inv_step [] sys_init h s link_inv_init Htr).
Qed.
(** ** Whose Rpcs are on the wire *)
Record wire_inv (h : list sys_label) (m : mux) : Prop := {
  (* every Rpc that went up belongs to a caller that has written *)
  wi_up rpc : rpc ∈ ups h →
    ∃ t k p, m_callers m !! t = Some (k, p) ∧ pc_id p = Some (rpc_Id rpc) ∧ written p;
  (* a unary call writes its request, at most once, and nothing else *)
  wi_unary t k p id : m_callers m !! t = Some (k, p) → pc_id p = Some id → ¬ streaming p →
    for_id id (ups h) = [] ∨ for_id id (ups h) = [request_of t id];
  wi_frames t : (∀ k p, m_callers m !! t = Some (k, p) → ¬ streaming p) → frames t h = [];
  wi_stream t k p id : m_callers m !! t = Some (k, p) → pc_id p = Some id → streaming p →
    for_id id (ups h) = frames t h;
  (* no Rpc with the id of a call came before the call registered *)
  wi_since t k p id c : m_callers m !! t = Some (k, p) → pc_reg p = Some (id, c) →
    for_id id (since t (client_history h)) = for_id id (MuxDelivery.reads (client_history h)) }.

Lemma wire_not_written h m t k p id :
  mux_inv m → (∀ rpc, rpc ∈ ups h → ∃ t k p, m_callers m !! t = Some (k, p) ∧
    pc_id p = Some (rpc_Id rpc) ∧ written p) →
  m_callers m !! t = Some (k, p) → pc_id p = Some id → ¬ written p → for_id id (ups h) = [].
Proof.
  intros Hm Hup Ht Hp Hw. unfold for_id. apply filter_all_not, Forall_forall. intros rpc Hr Hid.
  destruct (Hup rpc Hr) as (t' & k' & p' & Ht' & Hp' & Hw').
  assert (t' = t) as -> by (apply (inv_ids m Hm t' t k' k p' p id); congruence). by simplify_eq.
Qed.

Lemma wire_up_step h m l m' :
  wire_inv h m → client_step (Ret m) l (Ret m') →
  ∀ rpc, rpc ∈ ups h → ∃ t k p, m_callers m' !! t = Some (k, p) ∧ pc_id p = Some (rpc_Id rpc) ∧ written p.
Proof.
  intros Hw Hst rpc Hr. destruct (wi_up _ _ Hw rpc Hr) as (t & k & p & Ht & Hp & Hwr).
  pose proof (callers_step m l m' t Hst) as Hm. rewrite Ht in Hm. unfold moved in Hm.
  destruct (m_callers m' !! t) as [[k' p']|] eqn:E; [|done].
  destruct Hm as [-> [[? _]|(Hid & Hwr' & _)]]; [congruence|].
  exists t, k, p'. split_and!; [done|congruence|auto].
Qed.

(** Where a caller with an id was before the step. *)
Lemma callers_back m l m' t k p' id :
  client_step (Ret m) l (Ret m') → m_callers m' !! t = Some (k, p') → pc_id p' = Some id →
  (∃ c, p' = PRegister id c) ∨
  ∃ p, m_callers m !! t = Some (k, p) ∧ pc_id p = Some id ∧ (streaming p → streaming p') ∧
    (streaming p' → streaming p ∨ ¬ written p) ∧ (pc_reg p' = pc_reg p ∨ pc_reg p' = None ∨ l = LRegister t).
Proof.
  intros Hst Ht Hp. pose proof (callers_step m l m' t Hst) as Hm. rewrite Ht in Hm. unfold moved in Hm.
  destruct (m_callers m !! t) as [[k0 p]|]; [|congruence].
  destruct Hm as [-> [(_ & [?|(i & c & ->)])|(Hid & _ & Hs & Hs' & Hr)]]; [congruence| |].
  - left. exists c. by injection Hp as ->.
  - right. exists p. split_and!; [done|congruence|done..].
Qed.

(** Before its call registers nothing was read with an id: it would answer a
    request with that id. *)
Lemma nothing_read h s m t k id c :
  link_inv h s → mux_inv m → wire_inv h m → m_callers m !! t = Some (k, PRegister id c) →
  for_id id (MuxDelivery.reads (client_history h)) = [].
Proof.
  intros [_ _ Hu Hd Ha] Hm Hw Ht. unfold for_id. apply filter_all_not, Forall_forall. intros rpc Hr Hid.
  assert (rpc ∈ downs h) as Hdown by (rewrite Hd; apply elem_of_app; by left).
  rewrite Forall_forall in Ha. destruct (Ha _ Hdown) as (req & Hreq & Hrid & _).
  assert (req ∈ ups h) as Hup by (rewrite Hu; apply elem_of_app; by left).
  assert (req ∈ for_id id (ups h)) as Hin by (apply list_elem_of_filter; split; congruence || done).
  rewrite (wire_not_written h m t k _ id Hm (wi_up _ _ Hw) Ht eq_refl (λ x, x)) in Hin.
  by apply not_elem_of_nil in Hin.
Qed.

Lemma for_id_app id l1 l2 : for_id id (l1 ++ l2) = for_id id l1 ++ for_id id l2.
Proof. apply filter_app. Qed.
Lemma for_id_all id l : Forall (λ rpc, rpc_Id rpc = id) l → for_id id l = l.
Proof. apply filter_all. Qed.
Lemma for_id_one rpc id : for_id id [rpc] = if decide (rpc_Id rpc = id) then [rpc] else [].
Proof. unfold for_id. rewrite filter_cons, filter_nil. by case_decide. Qed.

Lemma client_frames t l l' : client_label l = [l'] → frames_of t l = [].
Proof. by destruct l. Qed.

(** A step of the multiplexer puts nothing on the wire, or the request of the
    caller that writes. *)
Definition writes_request (m : mux) (l : sys_label) (l' : Multiplexer.label) : Prop :=
  ups_of l = [] ∨ ∃ t k id c werr, ups_of l = [request_of t id] ∧ l' = EnvWrite t werr ∧
    m_callers m !! t = Some (k, PWrite id c).

(** What it puts there with the id of caller [t] is the request of [t]. *)
Lemma writes_request_for m l l' t k p id :
  mux_inv m → writes_request m l l' → m_callers m !! t = Some (k, p) → pc_id p = Some id →
  for_id id (ups_of l) = [] ∨
  for_id id (ups_of l) = [request_of t id] ∧ ∃ c werr, p = PWrite id c ∧ l' = EnvWrite t werr.
Proof.
  intros Hm [->|(t0 & k0 & id0 & c & werr & -> & -> & Ht0)] Ht Hp; [by left|].
  rewrite for_id_one. case_decide as Heq; [|by left]. simpl in Heq. subst id0. right.
  assert (t0 = t) as -> by (apply (inv_ids m Hm t0 t k0 k (PWrite id c) p id); done).
  simplify_eq. eauto.
Qed.

Lemma wire_up_client h m l l' m' :
  wire_inv h m → client_step (Ret m) l' (Ret m') → writes_request m l l' →
  ∀ rpc, rpc ∈ ups (h ++ [l]) →
    ∃ t k p, m_callers m' !! t = Some (k, p) ∧ pc_id p = Some (rpc_Id rpc) ∧ written p.
Proof.
  intros Hw Hst Hup rpc. rewrite ups_snoc, elem_of_app. intros [?|Hr]; [by apply (wire_up_step h m l' m')|].
  destruct Hup as [Hn|(t & k & id & c & werr & Hn & -> & Ht)]; rewrite Hn in Hr.
  { by apply not_elem_of_nil in Hr. }
  apply list_elem_of_singleton in Hr as ->. inversion Hst; subst. simpl. simplify_eq.
  exists t. rewrite lookup_insert_eq. do 2 eexists. split; [done|]. by destruct werr.
Qed.

(** The frames of a stream that has just registered, or goes on. *)
Lemma wire_stream_client h m l l' m' t k p' id :
  mux_inv m → wire_inv h m → client_step (Ret m) l' (Ret m') → writes_request m l l' →
  m_callers m' !! t = Some (k, p') → pc_id p' = Some id → streaming p' →
  for_id id (ups (h ++ [l])) = frames t h.
Proof.
  intros Hm Hw Hst Hup Ht Hp Hs. rewrite ups_snoc, for_id_app.
  destruct (callers_back m l' m' t k p' id Hst Ht Hp) as [[c ->]|(p & Htp & Hpid & _ & Hs' & _)]; [done|].
  destruct (writes_request_for m l l' t k p id Hm Hup Htp Hpid) as [->|(_ & c & werr & -> & ->)].
  - rewrite app_nil_r. destruct (Hs' Hs) as [Hsp|Hnw]; [by apply (wi_stream _ _ Hw t k p)|].
    rewrite (wire_not_written h m t k p id Hm (wi_up _ _ Hw) Htp Hpid Hnw), (wi_frames _ _ Hw t); [done|].
    intros k1 p1 Ht1 Hs1. simplify_eq. by destruct p.
  - inversion Hst; subst. simpl in Ht. rewrite lookup_insert_eq in Ht. simplify_eq. by destruct werr.
Qed.

Lemma wire_since_client h s m l' m' t k p' id c :
  link_inv h s → mux_inv m → wire_inv h m → client_step (Ret m) l' (Ret m') →
  m_callers m' !! t = Some (k, p') → pc_reg p' = Some (id, c) →
  for_id id (since t (client_history h ++ [l'])) = for_id id (MuxDelivery.reads (client_history h ++ [l'])).
Proof.
  intros Hl Hm Hw Hst Ht Hp. rewrite since_snoc, MuxDelivery.reads_snoc.
  destruct (is_register t l') eqn:Hreg.
  - destruct l'; try done. apply bool_decide_eq_true in Hreg as ->. inversion Hst; subst.
    simpl in Ht. rewrite lookup_insert_eq in Ht. simplify_eq. rewrite app_nil_r.
    rewrite (nothing_read h s m t k id c) by (try done; by destruct k; simplify_eq/=). done.
  - rewrite !for_id_app.
    destruct (callers_back m l' m' t k p' id Hst Ht (pc_chan_id _ _ _ (pc_reg_chan _ _ _ Hp)))
      as [[? ->]|(p & Htp & Hpid & _ & _ & [Hr|[?| ->]])]; [done| |congruence|].
    + by rewrite (wi_since _ _ Hw t k p id c Htp) by congruence.
    + simpl in Hreg. by rewrite bool_decide_eq_false in Hreg.
Qed.

Lemma wire_inv_client h s m l l' m' :
  link_inv h s → mux_inv m → mux_inv m' → wire_inv h m → client_step (Ret m) l' (Ret m') →
  client_label l = [l'] → writes_request m l l' → wire_inv (h ++ [l]) m'.
Proof.
  intros Hl Hm Hm' Hw Hst Hlab Hup. pose proof (wire_up_client h m l l' m' Hw Hst Hup) as Hnew.
  split; [done|..].
  - intros t k p' id Ht Hp Hns.
    destruct (callers_back m l' m' t k p' id Hst Ht Hp) as [[c ->]|(p & Htp & Hpid & Hs & _)].
    { left. by apply (wire_not_written _ m' t k (PRegister id c)). }
    rewrite ups_snoc, for_id_app. pose proof (wi_unary _ _ Hw t k p id Htp Hpid (λ x, Hns (Hs x))).
    destruct (writes_request_for m l l' t k p id Hm Hup Htp Hpid) as [->|(-> & c & _ & -> & _)];
      [by rewrite app_nil_r|].
    right. by rewrite (wire_not_written h m t k _ id Hm (wi_up _ _ Hw) Htp eq_refl (λ x, x)).
  - intros t Hns. rewrite frames_snoc, (client_frames t l l'), app_nil_r by done.
    apply (wi_frames _ _ Hw). intros k p Ht Hs. pose proof (callers_step m l' m' t Hst) as Hmv.
    rewrite Ht in Hmv. destruct (m_callers m' !! t) as [[k' p']|] eqn:E; [|done].
    apply (Hns k' p' eq_refl). destruct Hmv as [-> [[Hn _]|(_ & _ & Hs' & _)]]; [by destruct p|auto].
  - intros t k p' id Ht Hp Hs. rewrite frames_snoc, (client_frames t l l'), app_nil_r by done.
    by apply (wire_stream_client h m l l' m' t k p').
  - intros t k p' id c Ht Hp. rewrite client_history_snoc, Hlab.
    by apply (wire_since_client h s m l' m' t k p' id c).
Qed.

(** The steps that leave the multiplexer alone. *)
Lemma wire_inv_frame h m l :
  wire_inv h m → client_label l = [] → ups_of l = [] → wire_inv (h ++ [l]) m.
Proof.
  intros [] Hlab Hup. assert (Hf : ∀ t, frames_of t l = []) by (intros; by destruct l).
  split; setoid_rewrite ups_snoc || setoid_rewrite frames_snoc || setoid_rewrite client_history_snoc;
    rewrite ?Hup, ?Hlab, ?app_nil_r; try done.
  - intros t Hns. rewrite Hf, app_nil_r. auto.
  - intros t k p id. rewrite frames_snoc, Hf, app_nil_r. eauto.
Qed.

Lemma wire_inv_stream_write h m t k id c r pend rpc :
  mux_inv m → wire_inv h m → m_callers m !! t = Some (k, PStream id c r pend) → rpc_Id rpc = id →
  wire_inv (h ++ [ClientFrame t rpc]) m.
Proof.
  intros Hm Hw Ht Hid.
  assert (Hother : ∀ t' k' p' id', m_callers m !! t' = Some (k', p') → pc_id p' = Some id' →
    t' ≠ t → for_id id' [rpc] = []).
  { intros t' k' p' id' Ht' Hp' Hne. rewrite for_id_one. case_decide; [|done]. destruct Hne.
    apply (inv_ids m Hm t' t k' k p' (PStream id c r pend) id'); simpl; congruence. }
  split.
  - intros rpc'. rewrite ups_snoc, elem_of_app. intros [?| ->%list_elem_of_singleton]; [by apply (wi_up _ _ Hw)|].
    exists t, k, (PStream id c r pend). subst. done.
  - intros t' k' p' id' Ht' Hp' Hns. rewrite ups_snoc, for_id_app. simpl.
    rewrite (Hother t' k' p') by (done || (intros ->; simplify_eq/=; tauto)).
    rewrite app_nil_r. by apply (wi_unary _ _ Hw t' k' p').
  - intros t' Hns. rewrite frames_snoc. simpl. rewrite decide_False, app_nil_r.
    + by apply (wi_frames _ _ Hw).
    + intros <-. by apply (Hns _ _ Ht).
  - intros t' k' p' id' Ht' Hp' Hs. rewrite ups_snoc, for_id_app, frames_snoc. simpl.
    rewrite (wi_stream _ _ Hw t' k' p' id') by done. case_decide as Heq.
    + subst t'. rewrite for_id_one, decide_True by (simplify_eq/=; congruence). done.
    + by rewrite (Hother t' k' p') by auto.
  - intros t' k' p' id' c'. rewrite client_history_snoc, app_nil_r. apply (wi_since _ _ Hw).
Qed.

(** ** The composition keeps all of it *)
Definition sys_inv (h : list sys_label) (s : sys) : Prop :=
  link_inv h s ∧
  ((Z.of_nat (length h) < 2 ^ 64)%Z →
   ∃ m, y_client s = Ret m ∧ full_inv (client_history h) m ∧ wire_inv h m).

Lemma link_full h s :
  link_inv h s → (Z.of_nat (length h) < 2 ^ 64)%Z →
  ∃ m, y_client s = Ret m ∧ full_inv (client_history h) m.
Proof.
  intros Hl Hlt. apply (MuxDelivery.reachable_full _ _ (lk_client _ _ Hl)).
  pose proof (client_history_length h). lia.
Qed.

Lemma sys_inv_step h s l s' : sys_inv h s → sys_step s l s' → sys_inv (h ++ [l]) s'.
Proof.
  intros [Hl Hw] Hst. pose proof (link_inv_step h s l s' Hl Hst) as Hl'. split; [done|]. intros Hlt.
  destruct (link_full _ _ Hl' Hlt) as (m' & Hm' & Hfull'). exists m'. split_and!; [done..|].
  rewrite length_app in Hlt. simpl in Hlt. destruct Hw as (m & Hm & Hfull & Hw); [lia|].
  inversion Hst; subst; simpl in *; simplify_eq;
    try (by apply wire_inv_frame).
  - eapply (wire_inv_client h _ _ _ _ _ Hl (fi_mux _ _ Hfull) (fi_mux _ _ Hfull')); try done. by left.
  - eapply (wire_inv_client h _ _ _ _ _ Hl (fi_mux _ _ Hfull) (fi_mux _ _ Hfull')); try done.
    destruct b; [right|by left]. eauto 10.
  - by eapply (wire_inv_stream_write h _ _ _ _ _ _ _ _ (fi_mux _ _ Hfull)).
  - eapply (wire_inv_client h _ _ _ _ _ Hl (fi_mux _ _ Hfull) (fi_mux _ _ Hfull')); try done. by left.
Qed.

Lemma sys_inv_trace h s : trace sys_step sys_init h s → sys_inv h s.
Proof.
  intros Htr. refine (trace_history_invariant sys_step sys_inv sys_inv_step [] sys_init h s _ Htr).
  split; [apply link_inv_init|]. intros _. exists NewRpcMultiplexer. split_and!; [done|apply full_inv_init|].
  split; [by intros rpc Hr%not_elem_of_nil|by left|done|done|done].
Qed.
(** The server reads what it got under an id from what went up under it. *)
Lemma ups_for_id h s id :
  link_inv h s → for_id id (ups h) = for_id id (ServerLoop.reads (server_history h)) ++ for_id id (y_up s).
Proof. intros [_ _ -> _ _]. apply for_id_app. Qed.

(** A unary call that ended with a response: what the server had read, and made
    of it. *)
Lemma unary_answered h s m t k id reply :
  trace sys_step sys_init h s → (Z.of_nat (length h) < 2 ^ 64)%Z → y_client s = Ret m →
  m_callers m !! t = Some (k, PDone id (Multiplexer.GotRpc reply)) → is_unary srv (request_of t id) →
  for_id id (ServerLoop.reads (server_history h)) = [request_of t id] ∧
  worker_result srv clientCtx (request_of t id) (Ret reply).
Proof.
  intros Htr Hlt Hm Ht Hun. destruct (sys_inv_trace h s Htr) as [Hl Hw].
  destruct (Hw Hlt) as (m' & Hm' & Hfull & Hwire). assert (m' = m) as -> by congruence.
  pose proof (fi_answered _ _ Hfull _ _ _ _ Ht eq_refl) as Hr. simpl in Hr.
  pose proof (recvs_for_id _ _ _ _ _ _ (fi_deliv _ _ Hfull) Ht eq_refl) as Hsub. rewrite Hr in Hsub.
  assert (reply ∈ for_id id (MuxDelivery.reads (client_history h))) as [Hid Hread]%list_elem_of_filter
    by (eapply elem_of_sublist; [apply list_elem_of_here|exact Hsub]).
  assert (reply ∈ downs h) as Hdown by (rewrite (lk_down _ _ Hl); apply elem_of_app; by left).
  pose proof (lk_answers _ _ Hl) as Ha. rewrite Forall_forall in Ha.
  destruct (Ha _ Hdown) as (req & Hreq & Hrid & Hres).
  assert (Hin : req ∈ for_id id (ServerLoop.reads (server_history h)))
    by (apply list_elem_of_filter; split; congruence || done).
  pose proof (ups_for_id h s id Hl) as Hups.
  destruct (wi_unary _ _ Hwire t k _ id Ht eq_refl (λ x, x)) as [Hn|Hn]; rewrite Hn in Hups.
  { symmetry in Hups. apply app_nil in Hups as [Hu _]. rewrite Hu in Hin. by apply not_elem_of_nil in Hin. }
  destruct (for_id id (ServerLoop.reads (server_history h))) as [|x l]; [by apply not_elem_of_nil in Hin|].
  injection Hups as <- Hnil. symmetry in Hnil. apply app_nil in Hnil as [-> _].
  apply list_elem_of_singleton in Hin as ->. split; [done|].
  destruct Hres as [?|Hs]; [done|]. by destruct (is_stream_not_unary srv _ Hs).
Qed.

(** What a stream got, what waits for it, and what is under way. *)
Lemma suffix_sublist_eq {A} (l1 l2 : list A) : l1 `suffix_of` l2 → l2 `sublist_of` l1 → l1 = l2.
Proof.
  intros [k ->] Hs%sublist_length. rewrite length_app in Hs. destruct k; [done|simpl in Hs; lia].
Qed.

Lemma recvs_id h m t k p id c ch :
  mux_inv m → deliv_inv h m → m_callers m !! t = Some (k, p) → pc_chan p = Some (id, c) →
  m_chans m !! c = Some ch → Forall (λ rpc, rpc_Id rpc = id) (MuxDelivery.recvs t h ++ ch_buf ch).
Proof.
  intros Hm Hd Ht Hp Hc. apply Forall_app. split.
  - by apply (dl_id _ _ Hd t k p id Ht), (pc_chan_id p id c).
  - destruct (inv_callers m Hm _ _ _ Ht) as (_ & Hlive & _).
    destruct (Hlive _ _ Hp) as (ch' & ? & Ha & _). by simplify_eq.
Qed.

Lemma stream_received h s m t k p id c :
  link_inv h s → full_inv (client_history h) m → wire_inv h m →
  m_callers m !! t = Some (k, p) → pc_reg p = Some (id, c) → m_handlers m !! id = Some c →
  ∃ ch, m_chans m !! c = Some ch ∧
    MuxDelivery.recvs t (client_history h) ++ ch_buf ch ++ for_id id (MuxDelivery.in_hand m) =
      for_id id (MuxDelivery.reads (client_history h)).
Proof.
  intros Hl Hf Hw Ht Hp Hh.
  destruct (fi_lossless _ _ Hf _ _ _ _ _ Ht Hp Hh) as (ch & Hch & Hsuf). exists ch. split; [done|].
  rewrite (wi_since _ _ Hw t k p id c Ht Hp) in Hsuf. symmetry. apply suffix_sublist_eq; [done|].
  pose proof (pc_reg_chan _ _ _ Hp) as Hpc.
  destruct (dl_chan _ _ (fi_deliv _ _ Hf) _ _ _ _ _ Ht Hpc) as (ch' & ? & Hs). simplify_eq.
  pose proof (recvs_id _ _ _ _ _ _ _ _ (fi_mux _ _ Hf) (fi_deliv _ _ Hf) Ht Hpc Hch) as Hid.
  rewrite Hs in Hid. rewrite app_assoc, Hs, <-(for_id_all id _ Hid), <-for_id_app.
  apply filter_sublist_mono. etrans; [|exact (dl_reads _ _ (fi_deliv _ _ Hf))].
  apply sublist_app; [apply sends_sublist|done].
Qed.

(** C1: a client and a server over one connection: a unary call that ends with a
    response got the result of running the handler once on what it sent.  In
    every history of the two processes and of the transport between them (any
    interleaving, any number of calls and streams, failing writes), if Invoke
    of a registered method ended with a response, then the server read exactly
    one Rpc under the id of the call, its request, the handler got the message
    that the caller passed, and Invoke returns the message that the handler
    returned, or the gRPC error of its error. *)
Theorem system_invoke {CHandler R} `{StatsHandler CHandler} h s m t k id reply now1 b1 clock1 ord1
    (cc : ClientConn Msg CHandler R) ctx method args opts body service info md :
  trace sys_step sys_init h s → (Z.of_nat (length h) < 2 ^ 64)%Z → y_client s = Ret m →
  m_callers m !! t = Some (k, PDone id (Multiplexer.GotRpc reply)) →
  request t = (request_header now1 ord1 cc ctx method, mkBody (Some (Materialize body))) →
  opts_supported opts = true → Marshal args = Ok body →
  parseRawMethod method = Ok (service, md_MethodName md) → cc_destAddress cc = srv_id srv →
  srv_services srv !! service = Some info → si_methods info !! md_MethodName md = Some md →
  for_id id (ServerLoop.reads (server_history h)) = [request_of t id] ∧
  (∀ shs hctx, (dec (Handler:=Handler) shs hctx (Some (request t).2)).1 = (Some args, None)) ∧
  ∃ now2 sts l resp appErr,
    handler_run now2 srv clientCtx info md (request_of t id) (request t).1 = (sts, l, Ret (resp, appErr)) ∧
    (invoke now1 b1 clock1 ord1 (λ _ _, inr (Multiplexer.GotRpc reply)) cc ctx method args opts).2 =
      expected resp appErr.
Proof.
  intros Htr Hlt Hm Ht Hreq Hopts Hbody Hpm Hdst Hsi Hmd.
  assert (Hd : dispatch srv (request_of t id) = ToWorker info md (request_of t id)).
  { unfold request_of. rewrite Hreq. unfold dispatch. simpl.
    rewrite Hpm, decide_False by tauto. by rewrite Hsi, Hmd. }
  assert (is_unary srv (request_of t id)) as Hun by (unfold is_unary; by rewrite Hd).
  destruct (unary_answered h s m t k id reply Htr Hlt Hm Ht Hun) as [Hread Hres].
  split; [done|]. split.
  { intros shs hctx. rewrite Hreq. unfold dec. simpl. by rewrite (Unmarshal_Marshal args body Hbody). }
  destruct (worker_result_response _ _ _ _ Hres)
    as (h2 & now2 & b2 & clock2 & ord2 & si & md2 & sts & l & resp & appErr & Hh & _ & Hd2 & Hrun & _ & Hr).
  rewrite Hd in Hd2. injection Hd2 as <- <-. injection Hh as <-. exists now2, sts, l, resp, appErr.
  split; [done|]. rewrite Hreq in Hrun. by eapply invoke_unary_response; [..|rewrite Hr].
Qed.

(** What a handler on the server got, and what waits for it. *)
Lemma handler_received h s v g x :
  link_inv h s → y_server s = Ret v → v_gs v !! g = Some x →
  ServerLoop.recvs g (server_history h) ++ g_ch x `sublist_of` for_id (g_id x) (ServerLoop.reads (server_history h)).
Proof.
  intros Hl Hv Hx. pose proof (lk_server _ _ Hl) as Hs. rewrite Hv in Hs.
  apply conn_inv_trace in Hs. destruct (iv_ch _ _ Hs _ _ Hx) as (_ & -> & Hf).
  rewrite <-(for_id_all (g_id x) _ Hf). apply filter_sublist_mono.
  etrans; [|etrans; [|exact (iv_reads _ _ Hs)]; by apply sublist_inserts_r].
  unfold ServerLoop.sends. apply fmap_sublist, sublist_filter.
Qed.

(** C6: the same for streams.  While a stream is registered, what its reader got,
    what waits in its channel, in the read loop and in the transport is, in this
    order, all that the server wrote under its id, and nothing that went before
    it; at any time what it got is part of that, in order and none twice.  What
    the server read under the id and what is still under way is what this very
    stream wrote, and a handler gets Rpcs of that, in order and none twice. *)
Theorem system_streams h s m t k id c r pend :
  trace sys_step sys_init h s → (Z.of_nat (length h) < 2 ^ 64)%Z → y_client s = Ret m →
  m_callers m !! t = Some (k, PStream id c r pend) →
  (* what came down *)
  MuxDelivery.recvs t (client_history h) `sublist_of` for_id id (downs h) ∧
  (m_handlers m !! id = Some c → ∃ ch, m_chans m !! c = Some ch ∧
     MuxDelivery.recvs t (client_history h) ++ ch_buf ch ++ for_id id (MuxDelivery.in_hand m) ++
       for_id id (y_down s) = for_id id (downs h)) ∧
  (* what went up *)
  for_id id (ServerLoop.reads (server_history h)) ++ for_id id (y_up s) = frames t h ∧
  ∀ v g x, y_server s = Ret v → v_gs v !! g = Some x → g_id x = id →
    ServerLoop.recvs g (server_history h) ++ g_ch x `sublist_of` frames t h.
Proof.
  intros Htr Hlt Hm Ht. destruct (sys_inv_trace h s Htr) as [Hl Hw].
  destruct (Hw Hlt) as (m' & Hm' & Hfull & Hwire). assert (m' = m) as -> by congruence.
  pose proof (lk_down _ _ Hl) as Hdown. rewrite Hdown, for_id_app.
  rewrite <-(wi_stream _ _ Hwire t k _ id Ht eq_refl I), (ups_for_id h s id Hl). split_and!; [| |done|].
  - apply sublist_inserts_r. exact (recvs_for_id _ _ _ _ _ _ (fi_deliv _ _ Hfull) Ht eq_refl).
  - intros Hh. destruct (stream_received h s m t k _ id c Hl Hfull Hwire Ht eq_refl Hh) as (ch & ? & <-).
    exists ch. split; [done|]. by rewrite <-!app_assoc.
  - intros v g x Hv Hx <-. apply sublist_inserts_r. by eapply handler_received.
Qed.

(** ** No panic anywhere *)

(** The steps of the server's connection that panic are a worker's and those of a
    stream's handler. *)
Lemma server_step_panic v l msg :
  server_step (Ret v) l (Panic msg) →
  (∃ w rpc, v_workers v !! w = Some (WRun rpc) ∧ worker_result srv clientCtx rpc (Panic msg)) ∨
  ∃ g, l = EnvPanic g msg.
Proof.
  intros Hst. inversion Hst; subst; [|by eauto]. destruct r; simplify_eq/=. eauto.
Qed.
Definition handler_panic (l : sys_label) : Prop :=
  match l with Server (EnvPanic _ _) => True | _ => False end.

Definition handlers_return : Prop :=
  ∀ now info md rpc h msg, dispatch srv rpc = ToWorker info md rpc →
    (handler_run now srv clientCtx info md rpc h).2 ≠ Panic msg.

Lemma worker_no_panic h v w rpc msg :
  handlers_return → trace server_step (Ret newHandler) h (Ret v) → Forall from_client (ServerLoop.reads h) →
  v_workers v !! w = Some (WRun rpc) → ¬ worker_result srv clientCtx rpc (Panic msg).
Proof.
  intros Hret Htr Hty Hw (now & b & clock & ord & si & md & Hd & Hr).
  pose proof (og_run _ _ _ _ (origin_inv_trace _ _ _ _ Htr) _ _ Hw) as Hread.
  rewrite Forall_forall in Hty. destruct (from_client_header rpc (Hty _ Hread)) as (hd & Hh & Hg).
  symmetry in Hr. apply (processUnaryRpc_good_header now b clock ord srv clientCtx si md rpc hd msg Hh Hg) in Hr.
  exact (Hret _ _ _ _ _ _ Hd Hr).
Qed.

Lemma server_runs_step h s l s' :
  handlers_return → link_inv h s → Forall from_client (ups h) → ¬ handler_panic l →
  (∃ v, y_server s = Ret v) → sys_step s l s' → ∃ v, y_server s' = Ret v.
Proof.
  intros Hret Hl Hty Hnp [v Hv] Hst.
  assert (Hreads : Forall from_client (ServerLoop.reads (server_history h)))
    by (rewrite (lk_up _ _ Hl) in Hty; by apply Forall_app in Hty as [? _]).
  pose proof (lk_server _ _ Hl) as Htr. rewrite Hv in Htr.
  assert (Hd : ∀ l' d', (∀ g msg, l' ≠ EnvPanic g msg) → server_step (Ret v) l' d' → ∃ v', d' = Ret v').
  { intros l' [v'|msg] Hl' Hs; [by eexists|]. apply server_step_panic in Hs as [(w & rpc & Hw & Hr)|[g Hg]].
    - by destruct (worker_no_panic _ v w rpc msg Hret Htr Hreads Hw).
    - by destruct (Hl' g msg). }
  inversion Hst; subst; simpl in *; simplify_eq; eauto; (eapply Hd; [|done]); try done.
  intros g msg ->. by apply Hnp.
Qed.

(** Steps of one side alone. *)
Lemma sys_client_run c d up down ls c' :
  Forall client_local ls → trace client_step c ls c' →
  trace sys_step (mkSys c d up down) (Client <$> ls) (mkSys c' d up down).
Proof.
  intros Hf Htr. induction Htr as [|c1 l c2 ls c3 Hst Htr IH]; [constructor|].
  apply Forall_cons in Hf as [Hl Hf]. simpl. eapply trace_step; [by apply sys_client|auto].
Qed.
Lemma sys_server_run c d up down ls d' :
  Forall server_local ls → trace server_step d ls d' →
  trace sys_step (mkSys c d up down) (Server <$> ls) (mkSys c d' up down).
Proof.
  intros Hf Htr. induction Htr as [|d1 l d2 ls d3 Hst Htr IH]; [constructor|].
  apply Forall_cons in Hf as [Hl Hf]. simpl. eapply trace_step; [by apply sys_server|auto].
Qed.
End system.

(** ** Concrete histories *)
Section witness.
Import RuntimeModel ServerExample.
#[local] Existing Instances codec stats StatusModel.pkg MetadataModel.Join MetadataModel.no_unicode
  RuntimeModel_laws StatusModel.StatusModel_laws.

(** Every call of the example asks the echo service. *)
Definition wit_request (_ : nat) : RequestHeader * Body :=
  (ClientConn.request_header 0 MetadataModel.order example_conn example_ctx "/pkg.Svc/Echo",
   mkBody (Some [Byte.x61; Byte.x62])).
Definition wit_call : Rpc := Eval vm_compute in request_of wit_request 0 1.
Definition wit_reply : Rpc := Eval vm_compute in
  match (processUnaryRpc 0 0 (λ _, 0%Z) MetadataModel.order server1 Background info echo wit_call).2 with
  | Ret resp => resp
  | Panic _ => wit_call
  end.

Definition after (ls : list Multiplexer.label) : mux := default NewRpcMultiplexer (exec_run NewRpcMultiplexer ls).
Definition call_labels : list Multiplexer.label := [EnvGo 0 Unary; LCheck 0; LNewId 0; LRegister 0].
Definition answer_labels : list Multiplexer.label :=
  [LHandle wit_reply; LSend wit_reply 0; LRecv 0 wit_reply; LUnregister 0].
Definition wit_m1 : mux := Eval vm_compute in after call_labels.
Definition wit_m2 : mux := Eval vm_compute in after (call_labels ++ [EnvWrite 0 None]).
Definition wit_m3 : mux := Eval vm_compute in
  after (call_labels ++ [EnvWrite 0 None; Multiplexer.EnvRead wit_reply]).
Definition wit_m4 : mux := Eval vm_compute in
  after (call_labels ++ [EnvWrite 0 None; Multiplexer.EnvRead wit_reply] ++ answer_labels).

Definition wit_v1 : conn := set_serve (VDispatch wit_call) newHandler.
Definition serve_labels : list ServerLoop.label :=
  [VDecide 0; VHandOff 0; WorkerRun 0 (Ret wit_reply); WriteWorker 0 wit_reply].
Definition wit_v2 : conn :=
  set_worker 0 WIdle (set_writer (RWriting wit_reply) (set_worker 0 (WSend wit_reply)
    (set_serve VRead (set_worker 0 (WRun wit_call) (set_serve (VSendWorker wit_call) wit_v1))))).

Definition wit_history : list sys_label :=
  (Client <$> call_labels) ++ [ClientWrite 0 None wit_call true; ServerRead wit_call] ++
  (Server <$> serve_labels) ++ [ServerWrite None wit_reply true; ClientRead wit_reply] ++
  (Client <$> answer_labels).
Definition wit_state : sys := mkSys (Ret wit_m4) (Ret (set_writer RWait wit_v2)) [] [].

Lemma wit_result : worker_result server1 Background wit_call (Ret wit_reply).
Proof.
  exists 0%Z, 0%Z, (λ _, 0%Z), MetadataModel.order, info, echo. split; [by vm_compute|].
  by vm_compute.
Qed.

Lemma wit_serve : trace (step server1 Background) (Ret wit_v1) serve_labels (Ret wit_v2).
Proof.
  set (s0 := set_serve (VSendWorker wit_call) wit_v1).
  set (s1 := set_serve VRead (set_worker 0 (WRun wit_call) s0)).
  set (s2 := set_worker 0 (WSend wit_reply) s1).
  assert (Hd : serve_decide server1 wit_call = VSendWorker wit_call) by by vm_compute.
  eapply trace_step; [by apply (step_decide _ _ _ _ wit_call)|]. rewrite Hd.
  eapply trace_step; [by apply (step_hand_off _ _ s0 wit_call 0)|].
  eapply trace_step; [by apply (step_worker_run _ _ s1 0 wit_call (Ret wit_reply) eq_refl wit_result)|].
  by apply trace_one, (step_write_worker _ _ s2 0 wit_reply).
Qed.

Lemma wit_trace : trace (sys_step server1 Background wit_request) sys_init wit_history wit_state.
Proof.
  unfold wit_history, wit_state, sys_init. eapply trace_app.
  { apply sys_client_run with (c' := Ret wit_m1); [by repeat constructor|].
    apply exec_run_trace. by vm_compute. }
  change wit_call with (request_of wit_request 0 1).
  eapply trace_step.
  { eapply (sys_client_write _ _ _ wit_m1 (Ret wit_m2) _ _ _ 0 Unary 1 0 None true); [done..|].
    apply exec_step. by vm_compute. }
  eapply trace_step; [by apply sys_server_read, (step_read _ _ newHandler)|].
  eapply trace_app; [by apply sys_server_run, wit_serve; repeat constructor|].
  eapply trace_step; [by eapply (sys_server_write _ _ _ _ wit_v2), (step_written _ _ wit_v2 wit_reply None)|].
  eapply trace_step.
  { apply (sys_client_read _ _ _ _ (Ret wit_m3)). apply exec_step. by vm_compute. }
  apply sys_client_run; [by repeat constructor|]. apply exec_run_trace. by vm_compute.
Qed.

Lemma system_invoke_witness :
  ∃ resp appErr,
    (invoke 0 0 (λ _, 0%Z) MetadataModel.order (λ _ _, inr (Multiplexer.GotRpc wit_reply)) example_conn
       example_ctx "/pkg.Svc/Echo" [Byte.x61; Byte.x62] []).2 = expected resp appErr ∧
    for_id 1 (ServerLoop.reads (server_history wit_history)) = [wit_call].
Proof.
  destruct (system_invoke server1 Background wit_request wit_history wit_state wit_m4 0 Unary 1 wit_reply
    0 0 (λ _, 0%Z) MetadataModel.order example_conn example_ctx "/pkg.Svc/Echo" [Byte.x61; Byte.x62] []
    [[Byte.x61]; [Byte.x62]] "pkg.Svc" info echo wit_trace eq_refl eq_refl eq_refl eq_refl eq_refl eq_refl
    eq_refl eq_refl eq_refl eq_refl) as (Hread & _ & now2 & sts & l & resp & appErr & _ & Hinv).
  exists resp, appErr. split; [exact Hinv|exact Hread].
Defined.

(** The echo handler returns. *)
Lemma echo_returns : handlers_return server1 Background.
Proof.
  intros now si md rpc h msg Hd. assert (md = echo) as ->.
  { unfold dispatch in Hd. destruct (GetHeader (Some rpc)) as [hd|]; [|done].
    destruct (parseRawMethod (h_Method hd)) as [[service method]|]; [|done].
    case_decide; [done|]. change (srv_services server1) with ({["pkg.Svc" := info]} : gmap string _) in Hd.
    destruct (_ !! service) as [si'|] eqn:Hs; [|done].
    apply lookup_singleton_Some in Hs as [_ <-].
    change (si_methods info) with ({["Echo" := echo]} : gmap string _) in Hd.
    destruct (_ !! method) as [md'|] eqn:Hm.
    - apply lookup_singleton_Some in Hm as [_ <-]. by injection Hd as _ <-.
    - by destruct (si_streams info !! method). }
  unfold handler_run. simpl. destruct (dec _ _ _) as [[m e] l]. simpl. done.
Qed.

(** A stream: the open, a message each way. *)
Definition wit_open : Rpc := mkRpc 1 (Some (mkRequestHeader "/pkg.Svc/Watch" [] "cli" "srv" [] None)) None None None None.
Definition wit_msg : Rpc :=
  mkRpc 1 (Some (mkRequestHeader "/pkg.Svc/Watch" [] "cli" "srv" [] None)) None (Some (mkBody (Some [Byte.x61]))) None None.
Definition wit_out : Rpc := mkRpc 1 None None (Some (mkBody (Some [Byte.x62]))) None None.

Definition wit_s1 : mux := Eval vm_compute in after [EnvGo 0 Stream; LCheck 0; LNewId 0; LRegister 0].
Definition wit_g : stream := mkStream 1 [] false false false GRun.
Definition wit_opened : conn := set_serve VRead (set_streams {[1%Z := 0]} (set_g 0 wit_g newHandler)).
Definition wit_sent : conn :=
  set_serve VRead (set_g 0 (set_ch [wit_msg] wit_g) (set_serve (VSendStream 0 wit_msg) wit_opened)).
Definition wit_writing : conn :=
  set_g 0 (set_ch [wit_msg] wit_g) (set_writer (RWriting wit_out)
    (set_g 0 (set_pc (GSend wit_out) (set_ch [wit_msg] wit_g)) wit_sent)).

Definition stream_history : list sys_label :=
  (Client <$> [EnvGo 0 Stream; LCheck 0; LNewId 0; LRegister 0]) ++
  [ClientFrame 0 wit_open; ServerRead wit_open] ++ (Server <$> [VDecide 0; VStream 0]) ++
  [ClientFrame 0 wit_msg; ServerRead wit_msg] ++
  (Server <$> [VDecide 0; VStream 0; VStreamSend 0 wit_msg; EnvSend 0 wit_out; WriteStream 0 wit_out]) ++
  [ServerWrite None wit_out true].
Definition stream_state : sys :=
  mkSys (Ret wit_s1) (Ret (set_writer RWait wit_writing)) [] [wit_out].

Lemma wit_open_trace :
  trace (step server1 Background) (Ret (set_serve (VDispatch wit_open) newHandler)) [VDecide 0; VStream 0]
    (Ret wit_opened).
Proof.
  eapply trace_step; [by apply (step_decide _ _ _ _ wit_open)|].
  replace (serve_decide server1 wit_open) with (VLock wit_open) by by vm_compute.
  apply trace_one. exact (step_stream _ _ (set_serve (VLock wit_open) (set_serve (VDispatch wit_open) newHandler)) 0 wit_open eq_refl I).
Qed.

Lemma wit_msg_trace :
  trace (step server1 Background) (Ret (set_serve (VDispatch wit_msg) wit_opened))
    [VDecide 0; VStream 0; VStreamSend 0 wit_msg; EnvSend 0 wit_out; WriteStream 0 wit_out] (Ret wit_writing).
Proof.
  eapply trace_step; [by apply (step_decide _ _ _ _ wit_msg)|].
  replace (serve_decide server1 wit_msg) with (VLock wit_msg) by by vm_compute.
  eapply trace_step.
  { exact (step_stream _ _ (set_serve (VLock wit_msg) (set_serve (VDispatch wit_msg) wit_opened)) 0 wit_msg eq_refl I). }
  eapply trace_step; 
    [apply (step_stream_send _ _ (set_serve (VSendStream 0 wit_msg) wit_opened) 0 wit_msg wit_g); [done..|by apply le_n]|].
  eapply trace_step; [by apply (step_send _ _ wit_sent 0 (set_ch [wit_msg] wit_g) wit_out eq_refl)|].
  apply trace_one. apply (step_write_stream _ _ (set_g 0 (set_pc (GSend wit_out) (set_ch [wit_msg] wit_g)) wit_sent) 0
    (set_pc (GSend wit_out) (set_ch [wit_msg] wit_g)) wit_out); [done|by left|done].
Qed.

Lemma stream_trace : trace (sys_step server1 Background wit_request) sys_init stream_history stream_state.
Proof.
  unfold stream_history, stream_state, sys_init. eapply trace_app.
  { apply sys_client_run with (c' := Ret wit_s1); [by repeat constructor|].
    apply exec_run_trace. by vm_compute. }
  eapply trace_step; [by apply (sys_client_frame server1 Background wit_request wit_s1 _ _ _ 0 Stream 1 0 true 0)|].
  eapply trace_step; [by apply sys_server_read, (step_read _ _ newHandler)|].
  eapply trace_app; [by apply sys_server_run, wit_open_trace; repeat constructor|].
  eapply trace_step; [by apply (sys_client_frame server1 Background wit_request wit_s1 _ _ _ 0 Stream 1 0 true 0)|].
  eapply trace_step; [by apply sys_server_read, (step_read _ _ wit_opened)|].
  eapply trace_app; [by apply sys_server_run, wit_msg_trace; repeat constructor|].
  apply trace_one. eapply (sys_server_write _ _ _ _ wit_writing _ _ [] wit_out None true); [done..|].
  by apply (step_written _ _ wit_writing wit_out None).
Qed.

Lemma system_streams_witness :
  (∃ buf, [] ++ buf ++ [] ++ [wit_out] = [wit_out]) ∧ [wit_msg] `sublist_of` [wit_open; wit_msg].
Proof.
  destruct (system_streams server1 Background wit_request stream_history stream_state wit_s1 0 Stream 1 0
    true 0 stream_trace eq_refl eq_refl eq_refl) as (_ & Hdown & _ & Hup).
  split.
  - destruct (Hdown eq_refl) as (ch & _ & Heq). exists (ch_buf ch). exact Heq.
  - exact (Hup (set_writer RWait wit_writing) 0 (set_ch [wit_msg] wit_g) eq_refl eq_refl eq_refl).
Defined.
End witness.
