(* ===== verification/StreamSystem.v ===== *)
(** * A stream, from the client to its handler and back

    The client and the server of file [System], where the server's streams run
    their handlers as in file [Handlers].  A history of the whole projects to one
    of [System] and to one of [Handlers]; together they say what a client's
    stream and the handler at the other end get from each other, whatever the
    interleaving and whatever else goes over the connection; and when neither
    process can panic. *)

From S2P Require Import Prelude GoString Rpc Errors Metadata RequestContext Runtime TransportStream ServerStream Interceptors Server ClientStream Chan Multiplexer MuxDelivery ClientConn Unary RunStream Wire ServerLoop ServerUnary Handlers System.

(** ** Goroutines keep their ids *)
Section ids.
Context {Msg Impl Handler : Type}.
Context `{Unicode, MetadataPkg, StatusPkg, Codec Msg, StatsHandler Handler}.
Context (srv : Server.Server Msg Impl Handler) (clientCtx : Ctx).
Abbreviation server_step := (ServerLoop.step srv clientCtx).

(** What the writer takes from a goroutine carries its id. *)
Lemma handed_id_trace h v g rpc :
  trace server_step (Ret newHandler) h (Ret v) → rpc ∈ handed g h →
  ∃ x, v_gs v !! g = Some x ∧ g_id x = rpc_Id rpc.
Proof.
  intros Htr. revert rpc. change (match Ret v with Ret v => ∀ rpc, rpc ∈ handed g h →
    ∃ x, v_gs v !! g = Some x ∧ g_id x = rpc_Id rpc | Panic _ => True end).
  refine (proj2 (trace_history_invariant server_step (λ h o,
    match o with Ret v => conn_inv h v | Panic _ => True end ∧
    match o with Ret v => ∀ rpc, rpc ∈ handed g h → ∃ x, v_gs v !! g = Some x ∧ g_id x = rpc_Id rpc | Panic _ => True end)
    _ [] (Ret newHandler) h (Ret v) _ Htr)); [|split; [apply conn_inv_init|by intros ? ?%not_elem_of_nil]].
  clear. intros h [v|] l [v'|] [Hc Hi] Hst; try done; [|inversion Hst]. split; [by eapply conn_inv_step|].
  intros rpc. rewrite handed_snoc, elem_of_app. intros [Hr|Hr].
  - destruct (Hi rpc Hr) as (x & Hx & <-). by apply (step_same_id srv clientCtx v l v').
  - destruct l; simpl in Hr; try (by apply not_elem_of_nil in Hr). case_decide; [subst|by apply not_elem_of_nil in Hr].
    apply list_elem_of_singleton in Hr as ->.
    inversion Hst as [| | | | | | | | | | | | | | | | |? ? x ? Hx Hp| | | | | | | | | | |]; subst.
    destruct (step_same_id _ _ _ _ _ Hst g x Hx) as (x' & Hx' & Hid). exists x'. split; [done|]. rewrite Hid.
    pose proof (iv_pc _ _ Hc g x Hx) as Ha. unfold pc_addressed in Ha. by destruct Hp as [Hp|Hp]; rewrite Hp in Ha.
Qed.

(** ** One opening, one goroutine *)

(** An Rpc that may open a stream. *)
Definition opens (rpc : Rpc) : bool :=
  match GetBody (Some rpc), GetTrailer (Some rpc) with None, None => negb (is_reset rpc) | _, _ => false end.
Definition openings (id : Z) (l : list Rpc) : nat := length (filter (λ rpc, rpc_Id rpc = id ∧ opens rpc = true) l).
Definition has_id (id : Z) (x : ServerLoop.stream) : nat := if decide (g_id x = id) then 1 else 0.

Lemma openings_app id l1 l2 : openings id (l1 ++ l2) = openings id l1 + openings id l2.
Proof. unfold openings. by rewrite filter_app, length_app. Qed.
Lemma openings_sublist id l1 l2 : l1 `sublist_of` l2 → openings id l1 ≤ openings id l2.
Proof. intros Hs. by apply sublist_length, filter_sublist_mono. Qed.
Lemma openings_nil id : openings id [] = 0.
Proof. done. Qed.

(** Every goroutine of the id, and the Rpc in the serve loop's hand if it may start
    one, is due to a different opening that was read. *)
Definition open_inv (id : Z) (h : list label) (v : conn) : Prop :=
  map_total (has_id id) (v_gs v) + openings id (in_hand (v_serve v)) ≤ openings id (reads h).

Lemma total_set id (m : gmap nat ServerLoop.stream) g x x' :
  m !! g = Some x → g_id x' = g_id x → map_total (has_id id) (<[g := x']> m) = map_total (has_id id) m.
Proof.
  intros Hx Hid. pose proof (map_total_update (has_id id) g x x' m Hx) as Ht. unfold has_id in *.
  rewrite Hid in Ht. lia.
Qed.

Lemma open_inv_same id h v l v' :
  open_inv id h v → reads_of l = [] → map_total (has_id id) (v_gs v') = map_total (has_id id) (v_gs v) →
  in_hand (v_serve v') `sublist_of` in_hand (v_serve v) → open_inv id (h ++ [l]) v'.
Proof.
  unfold open_inv. intros Hi Hr Ht Hs. rewrite srv_reads_snoc, Hr, app_nil_r, Ht.
  pose proof (openings_sublist id _ _ Hs). lia.
Qed.

Lemma total_unregister id g x v :
  v_gs v !! g = Some x →
  map_total (has_id id) (v_gs (unregisterStream g x (set_g g (set_pc GExit x) v))) = map_total (has_id id) (v_gs v).
Proof.
  intros Hx. assert (Hs : map_total (has_id id) (<[g := set_pc GExit x]> (v_gs v)) = map_total (has_id id) (v_gs v))
    by by eapply total_set.
  unfold unregisterStream. simpl. destruct (v_streams v !! g_id x) as [g2|]; simpl; [|done].
  destruct (<[g := set_pc GExit x]> (v_gs v) !! g2) as [y|] eqn:Hy; simpl; [|done].
  rewrite <-Hs. by eapply total_set.
Qed.

Lemma stream_start_opens now m rpc : stream_decide now clientCtx m rpc = SStart → opens rpc = true.
Proof.
  unfold stream_decide, opens. intros Hd.
  destruct (m !! rpc_Id rpc); [by destruct (is_reset rpc)|]. destruct (is_reset rpc); [done|].
  destruct (GetBody _); [done|]. by destruct (GetTrailer _).
Qed.

Lemma open_inv_decision id h v now rpc :
  open_inv id h v → v_serve v = VLock rpc →
  open_inv id (h ++ [VStream now]) (apply_decision (stream_decide now clientCtx (v_streams v) rpc) rpc v).
Proof.
  intros Hi Hsv. destruct (stream_decide _ _ _ _) as [g|g| | |] eqn:Hd; simpl;
    try (apply (open_inv_same id h v); try done; first [apply sublist_nil_l | simpl; by rewrite Hsv]).
  - apply (open_inv_same id h v); try done; [|destruct (v_gs v !! g); apply sublist_nil_l].
    destruct (v_gs v !! g) as [x|] eqn:Hx; [by eapply total_set|done].
  - unfold open_inv in *. rewrite srv_reads_snoc, app_nil_r. simpl.
    rewrite map_total_insert_new by apply new_stream_fresh. rewrite Hsv in Hi. simpl in Hi.
    assert (has_id id (mkStream (rpc_Id rpc) [] false false false GRun) ≤ openings id [rpc]); [|rewrite openings_nil; lia].
    unfold has_id, openings. simpl. case_decide; [|lia].
    rewrite filter_cons_True; [simpl; lia|]. split; [done|by eapply stream_start_opens].
Qed.

Lemma open_inv_step id h v l v' : open_inv id h v → server_step (Ret v) l (Ret v') → open_inv id (h ++ [l]) v'.
Proof.
  intros Hi Hst. inversion Hst; subst.
  all: try (apply (open_inv_same id h v); [done|done|done|]; apply sublist_nil_l).
  all: try (apply (open_inv_same id h v); [done|done|done|]; done).
  all: try (apply (open_inv_same id h v); [done|done| |]; [by eapply total_set; [done|]; unfold after_write; destruct (g_pc x)|];
    done || apply sublist_nil_l).
  - unfold open_inv in *. rewrite srv_reads_snoc, openings_app. simpl.
    match goal with Hs : v_serve v = _ |- _ => rewrite Hs in Hi end. simpl in *. rewrite openings_nil in Hi. lia.
  - apply (open_inv_same id h v); [done..|]. match goal with Hs : v_serve v = _ |- _ => rewrite Hs end.
    simpl. unfold serve_decide. case_match; done || apply sublist_nil_l.
  - by apply open_inv_decision.
  - apply (open_inv_same id h v); [done|done|by destruct werr|]. destruct werr; apply sublist_nil_l.
  - destruct r; simplify_eq/=. by apply (open_inv_same id h v).
  - apply (open_inv_same id h v); [done|done|by destruct werr|]. by destruct werr.
  - apply (open_inv_same id h v); [done|done|by apply total_unregister|].
    unfold unregisterStream. by repeat case_match.
Qed.

Lemma open_inv_trace id h v : trace server_step (Ret newHandler) h (Ret v) → open_inv id h v.
Proof.
  intros Htr. refine (trace_history_invariant server_step
    (λ h o, match o with Ret v => open_inv id h v | Panic _ => True end) _ [] (Ret newHandler) h (Ret v) _ Htr).
  - clear. intros h [v|] l [v'|] Hi Hst; try done; [by eapply open_inv_step|inversion Hst].
  - unfold open_inv. simpl. by vm_compute.
Qed.

Lemma one_goroutine id h v g1 g2 x1 x2 :
  trace server_step (Ret newHandler) h (Ret v) → openings id (reads h) ≤ 1 →
  v_gs v !! g1 = Some x1 → v_gs v !! g2 = Some x2 → g_id x1 = id → g_id x2 = id → g1 = g2.
Proof.
  intros Htr Hle Hx1 Hx2 Hid1 Hid2. destruct (decide (g1 = g2)) as [|Hne]; [done|exfalso].
  pose proof (open_inv_trace id h v Htr) as Hi. unfold open_inv in Hi.
  rewrite <-(insert_delete_id (v_gs v) g1 x1 Hx1), map_total_insert_new in Hi by apply lookup_delete_eq.
  assert (Hx2' : delete g1 (v_gs v) !! g2 = Some x2) by by rewrite lookup_delete_ne.
  rewrite <-(insert_delete_id _ g2 x2 Hx2'), map_total_insert_new in Hi by apply lookup_delete_eq.
  unfold has_id in Hi. rewrite !decide_True in Hi by done. lia.
Qed.
End ids.

(** ** The whole system *)
Section system.
Context {Msg Impl Handler : Type}.
Context `{Unicode, MetadataPkg, StatusPkg, !StatusLaws, Codec Msg, !CodecLaws Msg,
  StatsHandler Handler}.
Context (srv : Server.Server Msg Impl Handler) (clientCtx : Ctx) (ord : map_range).
Context (request : nat → RequestHeader * Body).

Abbreviation server_step := (ServerLoop.step srv clientCtx).
Abbreviation sys_step := (System.sys_step srv clientCtx request).
Abbreviation dstep := (Handlers.dstep srv clientCtx ord).
Abbreviation procs := (gmap nat (proc (Msg:=Msg) (Handler:=Handler))).

(** A label of the system, or a handler's own code. *)
Inductive full_label := Sys (l : sys_label) | HandlerCode (g : nat).

(** A step of the server is one of the connection with its handlers. *)
Inductive full_step : sys * procs → full_label → sys * procs → Prop :=
  | full_client s l s' ps :
      server_label l = [] → sys_step s l s' → full_step (s, ps) (Sys l) (s', ps)
  | full_server s l l' s' v v' ps ps' :
      server_label l = [l'] → y_server s = Ret v → y_server s' = Ret v' → sys_step s l s' →
      dstep (Ret (mkDriven v ps)) (Conn l') (Ret (mkDriven v' ps')) → full_step (s, ps) (Sys l) (s', ps')
  | full_code s v g ps ps' :
      y_server s = Ret v → dstep (Ret (mkDriven v ps)) (Code g) (Ret (mkDriven v ps')) →
      full_step (s, ps) (HandlerCode g) (s, ps')
  (* a worker, or a stream's handler in its own code, panics: the server ends *)
  | full_panic s l s' msg ps :
      y_server s' = Panic msg → ¬ handler_panic l → sys_step s l s' → full_step (s, ps) (Sys l) (s', ps)
  | full_handler_panic s v g ps msg :
      y_server s = Ret v → dstep (Ret (mkDriven v ps)) (Code g) (Panic msg) →
      full_step (s, ps) (HandlerCode g) (mkSys (y_client s) (Panic msg) (y_up s) (y_down s), ps).

(** Its histories project to those of [System] and of [Handlers]. *)
Definition sys_of (l : full_label) : list sys_label := match l with Sys l => [l] | HandlerCode _ => [] end.
Definition sys_history (h : list full_label) : list sys_label := h ≫= sys_of.
Definition driven_of (l : full_label) : list dlabel :=
  match l with Sys l => Conn <$> server_label l | HandlerCode g => [Code g] end.
Definition driven_history (h : list full_label) : list dlabel := h ≫= driven_of.

Lemma sys_history_snoc h l : sys_history (h ++ [l]) = sys_history h ++ sys_of l.
Proof. unfold sys_history. by rewrite bind_app, bind_singleton. Qed.
Lemma driven_history_snoc h l : driven_history (h ++ [l]) = driven_history h ++ driven_of l.
Proof. unfold driven_history. by rewrite bind_app, bind_singleton. Qed.

(** The same history of the server's connection in both. *)
Lemma conn_of_driven h : conn_history (driven_history h) = server_history (sys_history h).
Proof.
  induction h as [|l h IH]; [done|]. unfold driven_history, sys_history, conn_history, server_history in *.
  rewrite !bind_cons, !bind_app, IH. f_equal. destruct l as [l|g]; [|done]. simpl. rewrite app_nil_r.
  induction (server_label l) as [|l' ls IH']; [done|]. rewrite fmap_cons, bind_cons, IH'. done.
Qed.

(** What the server's transport was given by the writer. *)
Definition writer_downs_of (l : sys_label) : list Rpc :=
  match l with ServerWrite _ rpc true => [rpc] | _ => [] end.
Definition writer_downs (h : list sys_label) : list Rpc := h ≫= writer_downs_of.
(** No Write of the writer failed. *)
Definition writes_ok (h : list sys_label) : Prop :=
  Forall (λ l, match l with ServerWrite (Some _) _ _ => False | _ => True end) h.

(** While the server runs. *)
Definition projects (h : list full_label) (o : sys * procs) : Prop :=
  ∀ v, y_server o.1 = Ret v →
    trace dstep (Ret driven_init) (driven_history h) (Ret (mkDriven v o.2)) ∧
    trace sys_step sys_init (sys_history h) o.1.

Lemma server_back s l s' v' :
  sys_step s l s' → y_server s' = Ret v' →
  ∃ v, y_server s = Ret v ∧ (server_label l = [] → v' = v).
Proof.
  intros Hst Hv. inversion Hst; subst; simpl in *;
    try match goal with Hs : ServerLoop.step _ _ ?d _ _ |- _ => destruct d as [v|]; [|by inversion Hs] end;
    simplify_eq; (eexists; split; [done|]; done).
Qed.

Lemma projects_step h o l o' : projects h o → full_step o l o' → projects (h ++ [l]) o'.
Proof.
  intros Hp Hst w Hw. rewrite driven_history_snoc, sys_history_snoc.
  inversion Hst as [s l0 s' ps Hl Hs|s l0 l' s' v v' ps ps' Hl Hv Hv' Hs Hd|s v g ps ps' Hv Hd|s l0 s' msg ps Hm Hn Hs|s v g ps msg Hv Hd];
    subst; simpl in *.
  - destruct (server_back _ _ _ _ Hs Hw) as (v & Hv & Heq). rewrite (Heq Hl) in *. destruct (Hp v Hv) as [Hd Hsy].
    rewrite Hl. simpl. rewrite app_nil_r. split; [done|]. eapply trace_app; [done|by apply trace_one].
  - destruct (Hp v Hv) as [Htr Hsy]. rewrite Hl. assert (v' = w) as -> by congruence. split; (eapply trace_app; [done|by apply trace_one]).
  - assert (v = w) as -> by congruence. destruct (Hp w Hv) as [Htr Hsy]. rewrite app_nil_r. split; [|done].
    eapply trace_app; [done|by apply trace_one].
  - congruence.
  - done.
Qed.

Lemma projects_trace h s ps v :
  trace full_step (sys_init, ∅) h (s, ps) → y_server s = Ret v →
  trace dstep (Ret driven_init) (driven_history h) (Ret (mkDriven v ps)) ∧ trace sys_step sys_init (sys_history h) s.
Proof.
  intros Htr. refine (trace_history_invariant full_step projects projects_step [] (sys_init, ∅) h (s, ps) _ Htr v).
  intros v0 [= <-]. split; constructor.
Qed.

(** ** What comes down *)
Definition plain (l : list Rpc) : list Rpc := filter (λ rpc, is_reset rpc = false) l.

Lemma writer_downs_snoc h l : writer_downs (h ++ [l]) = writer_downs h ++ writer_downs_of l.
Proof. unfold writer_downs. by rewrite bind_app, bind_singleton. Qed.

(** Without the resets, what the transport was given is what the writer gave it. *)
Lemma plain_downs h s :
  trace sys_step sys_init h s → plain (downs h) = plain (writer_downs h).
Proof.
  intros Htr. refine (trace_history_invariant sys_step (λ h _, plain (downs h) = plain (writer_downs h)) _ [] sys_init h s eq_refl Htr).
  clear. intros h s l s' Hi Hst. rewrite downs_snoc, writer_downs_snoc. unfold plain in *. rewrite !filter_app, Hi. f_equal.
  inversion Hst; subst; try done; destruct b; done.
Qed.

(** The writer's Rpcs on their way: taken, then given to the transport unless the
    Write failed. *)
Definition on_wire (h : list sys_label) (o : outcome conn) : Prop :=
  match o with
  | Ret v =>
      writer_downs h ++ writing (v_writer v) `sublist_of` taken_all (server_history h) ∧
      (writes_ok h → writer_downs h ++ writing (v_writer v) = taken_all (server_history h))
  | Panic _ => True
  end.

Lemma server_local_writing v l v' :
  server_local l → server_step (Ret v) l (Ret v') → writing (v_writer v') = writing (v_writer v) ++ taken_all_of l.
Proof.
  intros Hl Hst. inversion Hst; subst; simpl in *; rewrite ?app_nil_r; try done;
    try (by match goal with Hs : v_writer v = _ |- _ => rewrite Hs end).
  - unfold apply_decision. by repeat case_match.
  - by destruct r; simplify_eq/=.
  - unfold unregisterStream. by repeat case_match.
Qed.

Lemma taken_all_snoc h l : taken_all (h ++ [l]) = taken_all h ++ taken_all_of l.
Proof. unfold taken_all. by rewrite bind_app, bind_singleton. Qed.

Lemma writes_ok_snoc h l :
  writes_ok (h ++ [l]) → writes_ok h ∧ match l with ServerWrite (Some _) _ _ => False | _ => True end.
Proof. unfold writes_ok. by rewrite Forall_app, Forall_singleton. Qed.

Lemma on_wire_step h s l s' : on_wire h (y_server s) → sys_step s l s' → on_wire (h ++ [l]) (y_server s').
Proof.
  intros Hi Hst. unfold on_wire in *. rewrite writer_downs_snoc, server_history_snoc.
  inversion Hst; subst; simpl in *; rewrite ?app_nil_r; try (destruct d; [|done]; destruct Hi as [? Hi2]; split; [done|by intros [? _]%writes_ok_snoc; apply Hi2]);
    try (destruct Hi as [? Hi2]; split; [done|by intros [? _]%writes_ok_snoc; apply Hi2]).
  - destruct d as [v|]; [|by match goal with Hs : ServerLoop.step _ _ (Panic _) _ _ |- _ => inversion Hs end].
    destruct d' as [v'|]; [|done]. destruct Hi as [Hs He].
    rewrite (server_local_writing v l0 v'), taken_all_snoc, app_assoc by done.
    split; [by apply sublist_app|]. intros [Hok _]%writes_ok_snoc. by rewrite He.
  - destruct d' as [v'|]; [|done]. destruct Hi as [Hs He].
    match goal with Hst' : ServerLoop.step _ _ _ _ _ |- _ => inversion Hst'; subst end.
    match goal with Hw : v_writer v = _, Hw' : v_writer v = _ |- _ =>
      rewrite Hw in Hs, He, Hw'; injection Hw' as -> end. simpl in *.
    rewrite taken_all_snoc, !app_nil_r. destruct b; simpl.
    + split; [by destruct werr|]. intros [Hok _]%writes_ok_snoc. destruct werr; by apply He.
    + rewrite app_nil_r. split; [etrans; [|exact Hs]; by apply sublist_inserts_r|].
      intros [_ Hw]%writes_ok_snoc. destruct werr; [done|].
      match goal with Hb : write_result _ _ |- _ => by specialize (Hb eq_refl) end.
  - destruct d' as [v'|]; [|done]. destruct Hi as [Hs He].
    match goal with Hst' : ServerLoop.step _ _ _ _ _ |- _ => inversion Hst'; subst end.
    rewrite taken_all_snoc, !app_nil_r. destruct werr; (split; [done|by intros [? _]%writes_ok_snoc; apply He]).
  - destruct d as [v|]; [|by match goal with Hs : ServerLoop.step _ _ (Panic _) _ _ |- _ => inversion Hs end].
    destruct d' as [v'|]; [|done]. destruct Hi as [Hs He].
    match goal with Hst' : ServerLoop.step _ _ _ _ _ |- _ => inversion Hst'; subst end.
    rewrite taken_all_snoc, !app_nil_r. split; [done|by intros [? _]%writes_ok_snoc; apply He].
Qed.

Lemma on_wire_trace h s : trace sys_step sys_init h s → on_wire h (y_server s).
Proof.
  intros Htr. exact (trace_history_invariant sys_step (λ h s, on_wire h (y_server s)) on_wire_step [] sys_init h s
    (conj (sublist_nil_l _) (λ _, eq_refl)) Htr).
Qed.

(** What the writer takes with the id of a stream comes from the stream's
    goroutine. *)
Lemma taken_of_goroutine id g h :
  (∀ w rpc, WriteWorker w rpc ∈ h → rpc_Id rpc ≠ id) →
  (∀ g' rpc, WriteStream g' rpc ∈ h → rpc_Id rpc = id ↔ g' = g) →
  for_id id (taken_all h) = handed g h.
Proof.
  intros Hw Hg. unfold taken_all, handed. induction h as [|l h IH]; [done|].
  rewrite !bind_cons, for_id_app, IH; first f_equal.
  - destruct l; try done; simpl; rewrite for_id_one.
    + rewrite decide_False; [done|]. apply (Hw w). by left.
    + destruct (Hg g0 rpc) as [H12 H21]; [by left|]. do 2 case_decide; tauto || done.
  - intros w rpc Hin. apply (Hw w). by right.
  - intros g' rpc Hin. apply Hg. by right.
Qed.

(** ** A client's stream and its handler *)
Lemma openings_for_id id l : openings id (for_id id l) = openings id l.
Proof.
  unfold openings, for_id. induction l as [|r l IH]; [done|].
  rewrite (filter_cons (λ rpc, rpc_Id rpc = id)). case_decide as Hid.
  - rewrite !filter_cons. case_decide; cbn [length]; by rewrite IH.
  - rewrite IH, filter_cons_False; [done|tauto].
Qed.

Lemma plain_for_id id l : plain (for_id id l) = for_id id (plain l).
Proof.
  unfold plain, for_id. induction l as [|r l IH]; [done|]. rewrite !filter_cons.
  do 2 case_decide; rewrite ?filter_cons, ?IH; repeat case_decide; done || tauto.
Qed.
Lemma plain_app l1 l2 : plain (l1 ++ l2) = plain l1 ++ plain l2.
Proof. apply filter_app. Qed.
Lemma plain_prefix l1 l2 : l1 `prefix_of` l2 → plain l1 `prefix_of` plain l2.
Proof. intros [k ->]. rewrite plain_app. by eexists. Qed.

Lemma sys_history_length h : length (sys_history h) ≤ length h.
Proof.
  induction h as [|l h IH]; [done|]. unfold sys_history in *. rewrite bind_cons, length_app.
  cbn [length]. destruct l; simpl in *; lia.
Qed.

(** The writer takes nothing with the id of a stream but from its goroutine. *)
Lemma stream_taken hs s m v t k id c r pend g x :
  trace sys_step sys_init hs s → wire_inv request hs m → y_server s = Ret v →
  m_callers m !! t = Some (k, PStream id c r pend) → v_gs v !! g = Some x → g_id x = id →
  openings id (frames t hs) ≤ 1 → Forall (is_stream srv) (frames t hs) →
  for_id id (taken_all (server_history hs)) = handed g (server_history hs).
Proof.
  intros Htr Hwire Hv Ht Hx Hid Hopen Hstream. pose proof (link_inv_trace srv clientCtx request hs s Htr) as Hl.
  pose proof (lk_server _ _ _ _ Hl) as Hc. rewrite Hv in Hc.
  assert (Hfr : frames t hs = for_id id (ServerLoop.reads (server_history hs)) ++ for_id id (y_up s))
    by (rewrite <-(wi_stream _ _ _ Hwire t k _ id Ht eq_refl I); by apply (ups_for_id srv clientCtx)).
  apply taken_of_goroutine.
  - intros w rpc Hin Heq. destruct (work_inv_trace srv clientCtx _ _ Hc) as (runs & lost & Hw).
    assert (rpc ∈ runs.*2) as [[req resp] [Hresp Hrun]]%list_elem_of_fmap.
    { rewrite (wk_out _ _ _ _ _ _ Hw). apply elem_of_app. left. apply list_elem_of_bind.
      exists (WriteWorker w rpc). split; [apply list_elem_of_here|done]. }
    simpl in Hresp. subst resp. pose proof (wk_runs _ _ _ _ _ _ Hw) as Hf. rewrite Forall_forall in Hf.
    pose proof (worker_result_id _ _ _ _ (Hf _ Hrun)) as Hrid. simpl in Hrid.
    assert (req ∈ filter (is_unary srv) (ServerLoop.reads (server_history hs))) as [Hun Hreq]%list_elem_of_filter.
    { rewrite (wk_in _ _ _ _ _ _ Hw). apply elem_of_app. left. apply list_elem_of_fmap. by exists (req, rpc). }
    rewrite Forall_forall in Hstream. apply (is_stream_not_unary srv req); [|done]. apply Hstream.
    rewrite Hfr. apply elem_of_app. left. apply list_elem_of_filter. split; congruence || done.
  - intros g' rpc Hin.
    destruct (handed_id_trace srv clientCtx _ v g' rpc Hc) as (x' & Hx' & Hid').
    { apply list_elem_of_bind. exists (WriteStream g' rpc). split; [|done]. simpl.
      rewrite decide_True by done. apply list_elem_of_here. }
    split; [|intros ->; congruence]. intros Heq.
    apply (one_goroutine srv clientCtx id _ v g' g x' x Hc); try congruence.
    rewrite <-openings_for_id. rewrite Hfr, openings_app in Hopen. lia.
Qed.

(** C5: a stream from the client to its handler and back, in the whole system.  A
    client and a server over one connection, the server's streams running the
    registered handlers, in every interleaving and with any other calls and
    streams: for a client's stream that opened once and asks only for stream
    methods, the goroutine that serves it carries out [runStream] on the Rpc that
    opened it; what the handler's RecvMsg read is what this stream wrote, in
    order and none twice; and what the stream's reader got, resets aside, is
    what the run sends, in order and none twice, and without a gap while the
    stream is registered and no Write of the server has failed. *)
Theorem system_stream_run h s ps m v t k id c r pend g x :
  trace full_step (sys_init, ∅) h (s, ps) → (Z.of_nat (length h) < 2 ^ 64)%Z →
  y_client s = Ret m → y_server s = Ret v →
  m_callers m !! t = Some (k, PStream id c r pend) → v_gs v !! g = Some x → g_id x = id →
  let hs := sys_history h in
  openings id (frames t hs) ≤ 1 → Forall (is_stream srv) (frames t hs) →
  ∃ info sd rpc hd now rd wr n,
    rpc ∈ frames t hs ∧ dispatch srv rpc = ToStream info sd rpc ∧ rpc_Header rpc = Some hd ∧
    oks (rd <$> seq 0 n) `sublist_of` frames t hs ∧
    ∀ b clock,
      let run := runStream ord rd wr b clock srv info sd rpc id (contextFromHeaders now clientCtx hd).1 in
      plain (MuxDelivery.recvs t (client_history hs)) `sublist_of` plain (sent run.1) ∧
      (writes_ok hs → m_handlers m !! id = Some c →
       plain (MuxDelivery.recvs t (client_history hs)) `prefix_of` plain (sent run.1)).
Proof.
  intros Htr Hlt Hm Hv Ht Hx Hid hs Hopen Hstream.
  destruct (projects_trace h s ps v Htr Hv) as [Hd Hsys]. fold hs in Hsys.
  destruct (driven_trace srv clientCtx ord _ _ Hd) as [_ Hdinv]. rewrite conn_of_driven in Hdinv. fold hs in Hdinv.
  destruct (sys_inv_trace srv clientCtx request hs s Hsys) as [Hl Hi].
  destruct Hi as (m' & Hm' & Hfull & Hwire); [pose proof (sys_history_length h); unfold hs; lia|].
  assert (m' = m) as -> by congruence.
  destruct (dinv_runs_stream _ _ _ _ _ g x Hdinv Hx)
    as (pr & info & sd & rpc & hd & now & rd & wr & n & _ & Hread & Hrid & Hdis & Hh & _ & Hrd & Hrun).
  assert (Hfr : frames t hs = for_id id (ServerLoop.reads (server_history hs)) ++ for_id id (y_up s))
    by (rewrite <-(wi_stream _ _ _ Hwire t k _ id Ht eq_refl I); by apply (ups_for_id srv clientCtx)).
  exists info, sd, rpc, hd, now, rd, wr, n. split_and!; [|done|done| |].
  - rewrite Hfr. apply elem_of_app. left. apply list_elem_of_filter. split; [congruence|done].
  - rewrite Hrd, Hfr. apply sublist_inserts_r. rewrite <-Hid.
    etrans; [|by apply (handler_received srv clientCtx hs s v g x Hl Hv Hx)]. by apply sublist_inserts_r.
  - intros b clock. destruct (Hrun b clock) as [Hpre _]. rewrite Hid in Hpre.
    pose proof (stream_taken hs s m v t k id c r pend g x Hsys Hwire Hv Ht Hx Hid Hopen Hstream) as Htaken.
    pose proof (on_wire_trace hs s Hsys) as Hwires. rewrite Hv in Hwires. destruct Hwires as [Hsub Hok].
    pose proof (plain_downs hs s Hsys) as Hplain. pose proof (lk_down _ _ _ _ Hl) as Hdown. split.
    + transitivity (plain (handed g (server_history hs))); [|destruct (plain_prefix _ _ Hpre) as [k' ->]; by apply sublist_inserts_r].
      transitivity (plain (for_id id (downs hs))).
      * apply filter_sublist_mono. rewrite Hdown, for_id_app. apply sublist_inserts_r.
        exact (recvs_for_id _ _ _ _ _ _ (fi_deliv _ _ Hfull) Ht eq_refl).
      * rewrite plain_for_id, Hplain, <-plain_for_id, <-Htaken. apply filter_sublist_mono, filter_sublist_mono.
        etrans; [|exact Hsub]. by apply sublist_inserts_r.
    + intros Hw Hreg. destruct (stream_received srv clientCtx request hs s m t k _ id c Hl Hfull Hwire Ht eq_refl Hreg)
        as (ch & _ & Hrecv).
      transitivity (plain (handed g (server_history hs))); [|by apply plain_prefix].
      transitivity (plain (for_id id (downs hs))).
      * rewrite Hdown, for_id_app, <-Hrecv, <-!app_assoc, plain_app. by eexists.
      * rewrite plain_for_id, Hplain, <-plain_for_id, <-Htaken, <-(Hok Hw), for_id_app. apply plain_prefix. by eexists.
Qed.

(** ** No panic anywhere *)

(** No unary handler returns an error whose status is OK. *)
Definition errors_not_ok : Prop :=
  ∀ now info md rpc h sts l resp err, dispatch srv rpc = ToWorker info md rpc →
    handler_run now srv clientCtx info md rpc h = (sts, l, Ret (resp, Some err)) →
    s_Code (grpc_status err) ≠ codes_OK.

(** The server runs, and so do the handlers. *)
Definition runs (h : list full_label) (o : sys * procs) : Prop :=
  Forall from_client (ups (sys_history h)) → (∃ v, y_server o.1 = Ret v) ∧ procs_return o.2.

Lemma runs_step h o l o' :
  handlers_return srv clientCtx → streams_return srv →
  projects h o → runs h o → full_step o l o' → runs (h ++ [l]) o'.
Proof.
  intros Hh Hsr Hp Hr Hst Hty. rewrite sys_history_snoc in Hty. unfold ups in Hty. rewrite bind_app in Hty. apply Forall_app in Hty as [Hty _].
  destruct (Hr Hty) as [[w Hw] Hps]. destruct (Hp w Hw) as [Hd Hsys].
  pose proof (link_inv_trace srv clientCtx request _ _ Hsys) as Hl.
  assert (Hgo : ∀ l' s', ¬ handler_panic l' → sys_step o.1 l' s' → ∃ v, y_server s' = Ret v)
    by (intros; eapply (server_runs_step srv clientCtx request); eauto).
  inversion Hst as [s l0 s' ps Hl0 Hs|s l0 l' s' v v' ps ps' Hl0 Hv Hv' Hs Hds|s v g ps ps' Hv Hds|s l0 s' msg ps Hm Hn Hs|s v g ps msg Hv Hds];
    subst; simpl in *.
  - split; [|done]. apply (Hgo l0); [|done]. intros Hn; by destruct l0.
  - split; [by eexists|]. by eapply dstep_returns.
  - split; [by eexists|]. by eapply dstep_returns.
  - destruct (Hgo l0 s') as [? ?]; [done..|congruence].
  - assert (v = w) as -> by congruence. destruct (driven_trace srv clientCtx ord _ _ Hd) as [_ Hdinv].
    by destruct (dstep_no_panic srv clientCtx ord _ _ _ _ _ Hdinv Hps Hds).
Qed.

Lemma runs_trace h o :
  handlers_return srv clientCtx → streams_return srv → trace full_step (sys_init, ∅) h o → runs h o.
Proof.
  intros Hh Hsr Htr. refine (proj2 (trace_history_invariant full_step (λ h o, projects h o ∧ runs h o)
    _ [] (sys_init, ∅) h o _ Htr)).
  - intros h0 o0 l o1 [? ?] ?. split; [by eapply projects_step|by eapply runs_step].
  - split; [intros v [= <-]; split; constructor|]. intros _. split; [by eexists|]. intros g pr Hg. simpl in Hg. by apply lookup_empty_Some in Hg.
Qed.

(** What the client's transport gives is typed as a server's. *)
Lemma downs_from h s rpc :
  trace sys_step sys_init h s → rpc ∈ downs h → rpc ∈ writer_downs h ∨ ∃ r, rpc = reset_rpc r.
Proof.
  intros Htr. revert rpc. refine (trace_history_invariant sys_step
    (λ h _, ∀ rpc, rpc ∈ downs h → rpc ∈ writer_downs h ∨ ∃ r, rpc = reset_rpc r) _ [] sys_init h s _ Htr).
  - clear. intros h s l s' Hi Hst rpc. rewrite downs_snoc, writer_downs_snoc, !elem_of_app.
    intros [Hr|Hr]; [destruct (Hi rpc Hr); auto|].
    inversion Hst; subst; simpl in Hr; try (by apply not_elem_of_nil in Hr);
      destruct b; simpl in *; try (by apply not_elem_of_nil in Hr); auto.
    apply list_elem_of_singleton in Hr as ->. eauto.
  - intros rpc Hr. by apply not_elem_of_nil in Hr.
Qed.

Lemma downs_typed h s ps v :
  trace full_step (sys_init, ∅) h (s, ps) → y_server s = Ret v → Forall from_server (downs (sys_history h)).
Proof.
  intros Htr Hv. destruct (projects_trace h s ps v Htr Hv) as [Hd Hsys].
  pose proof (on_wire_trace _ _ Hsys) as Hw. rewrite Hv in Hw. destruct Hw as [Hsub _].
  pose proof (taken_typed srv clientCtx ord _ _ Hd) as Hty. rewrite conn_of_driven in Hty. rewrite Forall_forall in *.
  intros rpc [Hr|[r ->]]%(downs_from _ _ _ Hsys); [|apply server_reset; constructor].
  apply Hty. eapply elem_of_sublist; [|exact Hsub]. apply elem_of_app. by left.
Qed.

(** What a client stream can read keeps it from panicking. *)
Lemma typed_stream_no_panic {CHandler} args (ls : list (ClientStream.label Msg)) msg :
  Forall from_server (ClientStream.reads ls) →
  ¬ trace ClientStream.step (Ret (ClientStream.NewClientStream (Handler:=CHandler) args)) ls (Panic msg).
Proof.
  intros Hty Htr. destruct (ClientStream.reachable_cs_inv _ _ _ Htr) as (ls' & cs & -> & Hinv & Hp).
  destruct (ClientStream.trailer_panic _ _ _ Hinv Hp) as (rpc & kvs & e & Hlast & Hmd & He & _).
  rewrite ClientStream.cs_reads_snoc in Hty. apply Forall_app in Hty as [Hty _].
  rewrite Forall_forall in Hty. pose proof (from_server_trailer rpc (Hty _ (last_Some_elem_of _ _ Hlast))) as Hg.
  unfold good_trailer in Hg. rewrite Hmd in Hg. apply (ToMetadata_loop_ok ∅) in Hg as [md Hok].
  unfold ToMetadata in He. simpl in *. congruence.
Qed.

(** How CallUnaryMethod ended, of a call that has. *)
Definition call_ended (p : pc) : option (error + reason) :=
  match p with
  | PDone _ r => Some (inr r)
  | PFailed err => Some (inl err)
  | _ => None
  end.

Lemma ended_call_returns {CHandler R} `{StatsHandler CHandler} h s m t k p ended
    now1 b1 clock1 ord1 (cc : ClientConn Msg CHandler R) ctx method args opts :
  errors_not_ok →
  trace sys_step sys_init h s → (Z.of_nat (length h) < 2 ^ 64)%Z → y_client s = Ret m →
  m_callers m !! t = Some (k, p) → call_ended p = Some ended →
  (∀ id, is_unary srv (request_of request t id)) → opts_supported opts = true →
  ∃ r, (invoke now1 b1 clock1 ord1 (λ _ _, ended) cc ctx method args opts).2 = Ret r.
Proof.
  intros Hok Htr Hlt Hm Ht He Hun Hopts. destruct (Marshal args) as [body|e] eqn:Hb.
  - rewrite (invoke_outcome _ _ _ _ _ _ _ _ _ _ body Hopts Hb).
    destruct p as [| | | | | |id r| |err]; simplify_eq/=; [|by eexists].
    destruct r as [err|reply| |err]; try by eexists.
    destruct (unary_answered srv clientCtx request h s m t k id reply Htr Hlt Hm Ht (Hun id)) as [_ Hres].
    destruct (worker_result_response _ _ _ _ Hres)
      as (hd & now2 & b2 & clock2 & ord2 & si & md & sts & l & resp & appErr & _ & _ & Hd & Hrun & _ & ->).
    unfold unary_response. cbn [rpc_Header rpc_Status rpc_Body]. rewrite decide_False by (by intros [? _]).
    rewrite unary_status_grpc. destruct appErr as [err|]; cbn [fmap option_fmap option_map rs_Code].
    + rewrite decide_False; [by eexists|]. by eapply Hok.
    + destruct (unary_body resp).1; [|by eexists]. destruct (Unmarshal _); by eexists.
  - unfold invoke. rewrite Hopts. cbn [negb]. destruct (StatsStartServerRPC _ _ _ _ _ _ _). rewrite Hb. by eexists.
Qed.

(** C8: nothing panics, in either process.  A client and a server over one
    connection, the server's streams running the registered handlers, in every
    history: provided that the application's handlers do not panic, that no
    unary handler returns an error whose status is OK, and that what the client
    writes is typed as a client's (C16), the multiplexer and the server's
    connection are running; Invoke of every unary call that has ended returns,
    however the call ended; and no client stream panics on what the multiplexer
    gave it, whatever the application calls on the stream, Trailer included. *)
Theorem system_safe {CHandler R} `{StatsHandler CHandler} h s ps :
  trace full_step (sys_init, ∅) h (s, ps) → (Z.of_nat (length h) < 2 ^ 64)%Z →
  handlers_return srv clientCtx → streams_return srv → errors_not_ok →
  let hs := sys_history h in
  Forall from_client (ups hs) →
  ∃ m v, y_client s = Ret m ∧ y_server s = Ret v ∧
    (∀ t k p ended, m_callers m !! t = Some (k, p) → call_ended p = Some ended →
       (∀ id, is_unary srv (request_of request t id)) →
       ∀ now1 b1 clock1 ord1 (cc : ClientConn Msg CHandler R) ctx method args opts,
         opts_supported opts = true →
         ∃ r, (invoke now1 b1 clock1 ord1 (λ _ _, ended) cc ctx method args opts).2 = Ret r) ∧
    (∀ t k id c r pend, m_callers m !! t = Some (k, PStream id c r pend) →
       ∀ args (ls : list (ClientStream.label Msg)) o,
         trace ClientStream.step (Ret (ClientStream.NewClientStream (Handler:=CHandler) args)) ls o →
         ClientStream.reads ls `prefix_of` MuxDelivery.recvs t (client_history hs) →
         ∃ cs, o = Ret cs).
Proof.
  intros Htr Hlt Hh Hsr Hok hs Hty.
  destruct (runs_trace h (s, ps) Hh Hsr Htr Hty) as [[v Hv] _]. simpl in Hv.
  destruct (projects_trace h s ps v Htr Hv) as [_ Hsys]. fold hs in Hsys.
  assert (Hlt' : (Z.of_nat (length hs) < 2 ^ 64)%Z) by (pose proof (sys_history_length h); unfold hs; lia).
  destruct (sys_inv_trace srv clientCtx request hs s Hsys) as [Hl Hi].
  destruct (Hi Hlt') as (m & Hm & Hfull & _). exists m, v. split_and!; [done..| |].
  - intros. eapply ended_call_returns; eauto.
  - intros t k id c r pend Ht args ls [cs|msg] Hcs Hpre; [by eexists|exfalso].
    apply (typed_stream_no_panic args ls msg); [|done]. rewrite Forall_forall. intros rpc Hr.
    pose proof (downs_typed h s ps v Htr Hv) as Hdown. rewrite Forall_forall in Hdown. apply Hdown. fold hs.
    rewrite (lk_down _ _ _ _ Hl). apply elem_of_app. left.
    destruct Hpre as [l' Heq].
    assert (rpc ∈ for_id id (MuxDelivery.reads (client_history hs))) as [_ ?]%list_elem_of_filter; [|done].
    eapply elem_of_sublist; [|exact (recvs_for_id _ _ _ _ _ _ (fi_deliv _ _ Hfull) Ht eq_refl)].
    rewrite Heq. apply elem_of_app. by left.
Qed.

(** Steps of one side alone. *)
Lemma full_client_run s ls s' ps :
  Forall (λ l, server_label l = []) ls → trace sys_step s ls s' → trace full_step (s, ps) (Sys <$> ls) (s', ps).
Proof.
  intros Hf Htr. induction Htr as [|s1 l s2 ls s3 Hst Htr IH]; [constructor|].
  apply Forall_cons in Hf as [Hl Hf]. simpl. eapply trace_step; [by apply full_client|auto].
Qed.
Lemma dstep_conn v ps l v' ps' :
  dstep (Ret (mkDriven v ps)) (Conn l) (Ret (mkDriven v' ps')) → server_step (Ret v) l (Ret v').
Proof.
  intros Hst. inversion Hst as [v0 q0 l0 o Hn Hs|v0 v1 q0 l0 g pr pl o Hl Hs Hg Hp|]; subst; destruct o; simplify_eq/=; done.
Qed.
Lemma full_server_run c up down v ps ls v' ps' :
  Forall server_local ls →
  trace dstep (Ret (mkDriven v ps)) (Conn <$> ls) (Ret (mkDriven v' ps')) →
  trace full_step (mkSys c (Ret v) up down, ps) (Sys ∘ Server <$> ls) (mkSys c (Ret v') up down, ps').
Proof.
  revert v ps. induction ls as [|l ls IH]; intros v ps Hf Htr; inversion Htr as [|s1 l1 d h1 s2 Hst Htr']; subst; [constructor|].
  apply Forall_cons in Hf as [Hl Hf]. destruct d as [[v1 ps1]|msg].
  - eapply trace_step; [|by apply IH]. eapply full_server; [done..| |done]. by eapply sys_server, dstep_conn.
  - exfalso. destruct ls; inversion Htr' as [|s1 l1 d h1 s2 Hs]; inversion Hs.
Qed.
Lemma full_server_read c up down v ps rpc v' ps' :
  dstep (Ret (mkDriven v ps)) (Conn (ServerLoop.EnvRead rpc)) (Ret (mkDriven v' ps')) →
  full_step (mkSys c (Ret v) (rpc :: up) down, ps) (Sys (ServerRead rpc)) (mkSys c (Ret v') up down, ps').
Proof. intros Hst. eapply full_server; [done..| |done]. by eapply sys_server_read, dstep_conn. Qed.
End system.

(** ** A concrete history *)
Section witness.
Import RuntimeModel ServerExample.
#[local] Existing Instances codec stats StatusModel.pkg MetadataModel.Join MetadataModel.no_unicode
  RuntimeModel_laws StatusModel.StatusModel_laws.

(** The client's third stream, with id 3, asks for the stream of file [Handlers]. *)
Definition three_labels : list Multiplexer.label :=
  [0; 1; 2] ≫= λ t, [EnvGo t Stream; LCheck t; LNewId t; LRegister t].
Definition got_labels : list Multiplexer.label := [LHandle msg_rpc; LSend msg_rpc 2; LRecv 2 msg_rpc].
Definition mux3 : mux := Eval vm_compute in System.after three_labels.
Definition mux_read : mux := Eval vm_compute in System.after (three_labels ++ [Multiplexer.EnvRead msg_rpc]).
Definition mux_got : mux := Eval vm_compute in
  System.after (three_labels ++ [Multiplexer.EnvRead msg_rpc] ++ got_labels).

Definition run_history : list full_label :=
  (Sys <$> (Client <$> three_labels) ++ [ClientFrame 2 open_stream]) ++ [Sys (ServerRead open_stream)] ++
  (Sys ∘ Server <$> [VDecide 0; VStream 0]) ++
  (Sys ∘ Server <$> [EnvSend 0 msg_rpc; ServerLoop.WriteStream 0 msg_rpc]) ++
  [Sys (ServerWrite None msg_rpc true)] ++
  (Sys ∘ Server <$> [EnvReturn 0 end_rpc; ServerLoop.WriteStream 0 end_rpc]) ++
  (Sys <$> [ClientRead msg_rpc] ++ (Client <$> got_labels)).
Definition run_state : sys := mkSys (Ret mux_got) (Ret ended) [] [].

Abbreviation full_step2 := (full_step server2 Background MetadataModel.order wit_request).

Lemma run_trace : trace full_step2 (sys_init, ∅) run_history (run_state, ps4).
Proof.
  unfold run_history, run_state, sys_init. eapply trace_app.
  { apply (full_client_run _ _ _ _ _ _ (mkSys (Ret mux3) (Ret newHandler) [open_stream] [])); [by repeat constructor|].
    eapply trace_app; [apply sys_client_run with (c' := Ret mux3); [by repeat constructor|]|].
    - apply exec_run_trace. by vm_compute.
    - apply trace_one. by apply (sys_client_frame server2 Background wit_request mux3 _ [] _ 2 Stream 3 2 true 0). }
  eapply trace_step; [by apply full_server_read, start_read|].
  eapply trace_app; [by apply full_server_run, start_run; repeat constructor|].
  eapply trace_app.
  { apply full_server_run with (v' := wrote_one) (ps' := ps2); [by repeat constructor|].
    eapply trace_step; [apply step_ask|]. apply trace_one, step_wrote. }
  eapply trace_step.
  { eapply (full_server _ _ _ _ _ _ (EnvWritten None) (mkSys _ (Ret written_one) [] [msg_rpc])); [done..| |apply step_next].
    eapply (sys_server_write _ _ _ _ wrote_one _ _ [] msg_rpc None true); [done..|].
    by apply (step_written _ _ wrote_one msg_rpc None). }
  eapply trace_app.
  { apply full_server_run with (v' := ended) (ps' := ps4); [by repeat constructor|].
    eapply trace_step; [apply step_last|]. apply trace_one, step_end. }
  apply full_client_run; [by repeat constructor|]. eapply trace_step.
  { apply (sys_client_read _ _ _ _ (Ret mux_read)). apply exec_step. by vm_compute. }
  apply sys_client_run; [by repeat constructor|]. apply exec_run_trace. by vm_compute.
Qed.

(** The stream's reader has the message that runStream sends first. *)
Lemma system_stream_run_witness :
  ∃ info sd rpc hd now rd wr, dispatch server2 rpc = ToStream info sd rpc ∧ rpc_Header rpc = Some hd ∧
    [msg_rpc] `prefix_of` plain (sent (runStream MetadataModel.order rd wr 0 (λ _, 0%Z) server2 info sd rpc 3
      (contextFromHeaders now Background hd).1).1).
Proof.
  destruct (system_stream_run server2 Background MetadataModel.order wit_request run_history run_state ps4 mux_got ended
    2 Stream 3 2 true 0 0 (cancel_g (set_pc GUnreg g0)) run_trace eq_refl eq_refl eq_refl eq_refl eq_refl eq_refl
    ltac:(by vm_compute) ltac:(by repeat constructor; vm_compute))
    as (info & sd & rpc & hd & now & rd & wr & n & _ & Hdis & Hh & _ & Hrun).
  exists info, sd, rpc, hd, now, rd, wr. split; [done|]. split; [done|].
  destruct (Hrun 0%Z (λ _, 0%Z)) as [_ Hpre]. apply Hpre; [by repeat constructor|done].
Defined.

(** The handlers of the example return, and no error of theirs is OK. *)
Lemma server2_dispatch rpc :
  match dispatch server2 rpc with
  | ToWorker _ md _ => md = echo
  | ToStream _ sd _ => sd = watch_one
  | Ignore _ => True
  end.
Proof.
  unfold dispatch. destruct (GetHeader (Some rpc)) as [hd|]; [|done].
  destruct (parseRawMethod (h_Method hd)) as [[service method]|]; [|done]. case_decide; [done|].
  change (srv_services server2) with ({["pkg.Svc" := info2]} : gmap string _).
  destruct (_ !! service) as [si|] eqn:Hs; [|done]. apply lookup_singleton_Some in Hs as [_ <-].
  change (si_methods info2) with ({["Echo" := echo]} : gmap string _).
  change (si_streams info2) with ({["Watch" := watch_one]} : gmap string _).
  destruct (_ !! method) as [md|] eqn:Hm; [by apply lookup_singleton_Some in Hm as [_ <-]|].
  destruct (({["Watch" := watch_one]} : gmap string _) !! method) as [sd|] eqn:Hsd; [|done].
  by apply lookup_singleton_Some in Hsd as [_ <-].
Qed.

Lemma echo_run now si rpc h : ∃ sts l m, handler_run now server2 Background si echo rpc h = (sts, l, Ret (m, None)).
Proof. unfold handler_run. simpl. destruct (dec _ _ _) as [[m e] l]. simpl. by do 3 eexists. Qed.

Lemma server2_handlers_return : handlers_return server2 Background.
Proof.
  intros now si md rpc h msg Hd. pose proof (server2_dispatch rpc) as He. rewrite Hd in He. subst md.
  by destruct (echo_run now si rpc h) as (? & ? & ? & ->).
Qed.
Lemma server2_errors_not_ok : errors_not_ok server2 Background.
Proof.
  intros now si md rpc h sts l resp err Hd Hrun. pose proof (server2_dispatch rpc) as He. rewrite Hd in He. subst md.
  destruct (echo_run now si rpc h) as (? & ? & ? & Hrun2). congruence.
Qed.
Lemma server2_streams_return : streams_return server2.
Proof.
  intros rpc si sd rpc' Hd. pose proof (server2_dispatch rpc) as He. rewrite Hd in He. subst sd.
  unfold stream_handler. change (srv_streamInterceptor server2) with (@None (StreamServerInterceptor Msg ())). by intros err.
Qed.

(** The stream's reader takes the message in, and Trailer is called. *)
Lemma system_safe_witness :
  ∃ m v, y_client run_state = Ret m ∧ y_server run_state = Ret v ∧
    ∀ args o, trace ClientStream.step (Ret (ClientStream.NewClientStream (Msg:=Msg) (Handler:=nat) args))
        [ClientStream.EnvRead msg_rpc; ClientStream.LoopHandle; ClientStream.AppTrailer] o → ∃ cs, o = Ret cs.
Proof.
  destruct (system_safe (CHandler:=nat) (R:=()) server2 Background MetadataModel.order wit_request run_history run_state ps4
    run_trace eq_refl server2_handlers_return server2_streams_return server2_errors_not_ok)
    as (m & v & Hm & Hv & _ & Hst).
  - repeat (apply Forall_cons; split); [|by apply Forall_nil]. apply client_open. by constructor.
  - exists m, v. split; [exact Hm|]. split; [exact Hv|]. intros args o Htr.
    injection Hm as <-. by apply (Hst 2 Stream 3%Z 2 true 0 eq_refl args _ o Htr).
Defined.
End witness.
