(* ===== verification/Progress.v ===== *)
(** * Every unary call is answered

    The client and the server of file [System] while nothing fails: the
    transport delivers, no context ends, nobody closes or stops anything, and
    all calls are unary.  Whatever the interleaving of the goroutines, of any
    number of calls, the two processes cannot get stuck before every call has
    its response, and they get there in a number of steps that is linear in the
    number of calls.  The history of [MuxHazards.mux_wedge], in which the client
    blocks for ever, needs two Rpcs with one id from the server; that the server
    of this repository answers a request once is what excludes it here. *)

From S2P Require Import Prelude GoString Rpc Errors Metadata RequestContext Runtime TransportStream Interceptors Server Chan Multiplexer MuxDelivery MuxTermination ClientConn Unary ServerLoop ServerUnary Wire System.

(** ** Calm histories *)

(** What ends the connection at each side, and the streams. *)
Definition client_mishap (l : Multiplexer.label) : Prop :=
  match l with
  | Multiplexer.EnvReadErr _ | EnvClose | EnvGo _ Stream => True
  | _ => False
  end.
Definition server_mishap (l : ServerLoop.label) : Prop :=
  match l with
  | ServerLoop.EnvReadErr _ | EnvClientCtx | EnvStop | EnvWritten (Some _) => True
  | _ => False
  end.
Definition calm (l : sys_label) : Prop :=
  Forall (λ l, ¬ client_mishap l) (client_label l) ∧ Forall (λ l, ¬ server_mishap l) (server_label l).
(** The choices left to the environment: a call is made, its context ends, its
    write fails. *)
Definition outside (l : sys_label) : Prop :=
  match l with
  | Client (EnvGo _ _) | Client (EnvCtxDone _ _) | ClientWrite _ (Some _) _ _ => True
  | _ => False
  end.
Definition goes (l : sys_label) : nat := match l with Client (EnvGo _ _) => 1 | _ => 0 end.
Definition calls (h : list sys_label) : nat := sum_list_with goes h.

(** ** The client *)
Definition calm_pc (p : pc) : Prop :=
  match p with
  | PStream _ _ _ _ | PFailed _ => False
  | PUnregister _ _ r | PDone _ r => r ≠ ChanClosed
  | _ => True
  end.

Record calm_client (m : mux) : Prop := {
  cc_reader : match m_reader m with RFail _ | RStopped => False | _ => True end;
  cc_rErr : m_rErr m = None;
  cc_callers t k p : m_callers m !! t = Some (k, p) → k = Unary ∧ calm_pc p;
  (* a call stays registered until it unregisters *)
  cc_handlers t k p id c :
    m_callers m !! t = Some (k, p) → pc_reg p = Some (id, c) → m_handlers m !! id = Some c }.

(** No channel that a call waits at is closed. *)
Lemma calm_recv m t k p id c ch :
  mux_inv m → calm_client m → m_callers m !! t = Some (k, p) → recv_from p = Some (id, c) →
  m_chans m !! c = Some ch → ch_closed ch = false.
Proof.
  intros Hm Hc Ht Hr Hch.
  assert (pc_reg p = Some (id, c)) as Hp by (destruct p as [| | | | | | |? ? []|]; simplify_eq/=; done).
  destruct (inv_handlers m Hm id c (cc_handlers m Hc _ _ _ _ _ Ht Hp)) as ((ch' & ? & ?) & _). congruence.
Qed.

Lemma calm_set_caller m t k p k' p' :
  calm_client m → m_callers m !! t = Some (k, p) → k' = Unary → calm_pc p' →
  (∀ id c, pc_reg p' = Some (id, c) → pc_reg p = Some (id, c)) → calm_client (set_caller t k' p' m).
Proof.
  intros [] Ht Hk Hp Hr. split; simpl; try done.
  - intros t2 k2 p2. rewrite lookup_insert_Some. intros [[<- [= <- <-]]|[_ ?]]; eauto.
  - intros t2 k2 p2 id c. rewrite lookup_insert_Some. intros [[<- [= <- <-]]|[_ ?]]; eauto.
Qed.

(** The steps that leave the callers and their registrations alone. *)
Lemma calm_frame m m' :
  calm_client m → m_callers m' = m_callers m → m_handlers m' = m_handlers m → m_rErr m' = m_rErr m →
  match m_reader m' with RFail _ | RStopped => False | _ => True end → calm_client m'.
Proof. intros [] Hc Hh He Hr. split; rewrite ?Hc, ?Hh, ?He; done. Qed.

Lemma calm_register m t id c :
  mux_inv m → calm_client m → m_callers m !! t = Some (Unary, PRegister id c) →
  calm_client (set_caller t Unary (PWrite id c) (registerHandler id c m)).
Proof.
  intros Hm [] Ht. split; simpl; try done.
  - intros t2 k2 p2. rewrite lookup_insert_Some. intros [[<- [= <- <-]]|[_ ?]]; [done|eauto].
  - intros t2 k2 p2 id2 c2. rewrite lookup_insert_Some. intros [[<- [= <- <-]]|[Hne Ht2]] Hp.
    + injection Hp as <- <-. by rewrite lookup_insert_eq.
    + rewrite lookup_insert_ne; [by eauto|]. intros <-. apply Hne.
      by apply (inv_ids m Hm t t2 Unary k2 _ p2 id Ht Ht2 eq_refl), (pc_chan_id _ _ c2), pc_reg_chan.
Qed.

Lemma calm_unregister m t k p id m' :
  mux_inv m → calm_client m → m_callers m !! t = Some (k, p) → unregisters p = Some id →
  unregisterHandler id m = Ret m' → calm_client (set_caller t k (after_unregister p) m').
Proof.
  intros Hm Hc Ht Hp E. destruct (cc_callers m Hc _ _ _ Ht) as [-> Hcp].
  destruct p as [| | | | |i c r| | |]; try done. injection Hp as ->. simpl in *.
  unfold unregisterHandler in E. rewrite (cc_handlers m Hc _ _ _ _ _ Ht eq_refl) in E.
  apply bind_Ret in E as (cs & _ & [= <-]). destruct Hc. split; simpl; try done.
  - intros t2 k2 p2. rewrite lookup_insert_Some. intros [[<- [= <- <-]]|[_ ?]]; eauto.
  - intros t2 k2 p2 id2 c2. rewrite lookup_insert_Some. intros [[<- [= <- <-]]|[Hne Ht2]] Hp2; [done|].
    rewrite lookup_delete_ne; [by eauto|]. intros <-. apply Hne.
    by apply (inv_ids m Hm t t2 Unary k2 _ p2 id Ht Ht2 eq_refl), (pc_chan_id _ _ c2), pc_reg_chan.
Qed.

Lemma calm_client_step m l m' :
  mux_inv m → calm_client m → ¬ client_mishap l → Multiplexer.step (Ret m) l (Ret m') → calm_client m'.
Proof.
  intros Hm Hc Hl Hst. pose proof (cc_callers m Hc) as Hcal. pose proof (cc_reader m Hc) as Hread.
  inversion Hst; subst; simpl in Hl; try tauto;
    try match goal with Ht : m_callers m !! _ = Some _ |- _ => destruct (Hcal _ _ _ Ht) as [-> Hp] end.
  all: try by eapply calm_frame.
  - unfold handleResponse. by destruct (m_handlers m !! rpc_Id rpc); eapply calm_frame.
  - destruct r as [ch'|]; simplify_eq/=. by eapply calm_frame.
  - match goal with Hr : m_reader m = _ |- _ => by rewrite Hr in Hread end.
  - destruct k; [|tauto]. destruct Hc. split; simpl; try done.
    + intros t2 k2 p2. rewrite lookup_insert_Some. intros [[<- [= <- <-]]|[_ ?]]; [done|eauto].
    + intros t2 k2 p2 id c. rewrite lookup_insert_Some. intros [[<- [= <- <-]]|[_ ?]]; [done|eauto].
  - eapply calm_set_caller; [done..| |]; unfold readErrorIfDone; by rewrite (cc_rErr m Hc).
  - apply (calm_set_caller _ t Unary PNewId); try done. by eapply calm_frame.
  - by apply calm_register.
  - by destruct werr; eapply calm_set_caller.
  - apply (calm_set_caller _ t Unary p); try done; [by eapply calm_frame|by destruct p; simpl; eauto|].
    intros id2 c2 ?. by eapply pc_reg_after_recv; eauto.
  - match goal with Hr : chan_recv ch = _ |- _ => unfold chan_recv in Hr end.
    rewrite (calm_recv m t Unary p id c ch) in * by done. by destruct (ch_buf ch).
  - by eapply calm_set_caller.
  - match goal with Hb : _ = Ret m' |- _ => apply bind_Ret in Hb as (s1 & E & [= <-]) end.
    by eapply calm_unregister.
Qed.

(** ** The measure

    What is left to do for each call, where it stands: with its caller, in the
    transport, with the goroutines of the server, and back.  A caller that has
    not written yet also pays for the way of its request. *)
Definition unsent_work (p : pc) : nat :=
  match p with PCheck | PNewId | PRegister _ _ | PWrite _ _ => 13 | _ => 0 end.
Definition unsent (m : mux) : nat := map_total (λ x, unsent_work x.2) (m_callers m).

Definition serve_work (p : serve_pc) : nat :=
  match p with VDispatch _ => 9 | VSendWorker _ => 8 | _ => 0 end.
Definition worker_work (p : worker_pc) : nat :=
  match p with WRun _ => 7 | WSend _ => 6 | _ => 0 end.
Definition writer_work (p : writer_pc) : nat := match p with RWriting _ => 5 | _ => 0 end.

Definition client_load (o : outcome mux) : nat :=
  match o with Ret m => work (Ret m) + unsent m | Panic _ => 0 end.
Definition server_load (o : outcome conn) : nat :=
  match o with
  | Ret v => serve_work (v_serve v) + map_total worker_work (v_workers v) + writer_work (v_writer v)
  | Panic _ => 0
  end.
Definition load (s : sys) : nat :=
  client_load (y_client s) + 10 * length (y_up s) + server_load (y_server s) + 4 * length (y_down s).

Lemma unsent_update m t k p k' p' :
  m_callers m !! t = Some (k, p) →
  map_total (λ x, unsent_work x.2) (<[t := (k', p')]> (m_callers m)) + unsent_work p =
    unsent m + unsent_work p'.
Proof. intros Ht. exact (map_total_update (λ x, unsent_work x.2) t (k, p) (k', p') _ Ht). Qed.

(** The library's own steps send nothing. *)
Lemma unsent_step m l m' :
  internal l → Multiplexer.step (Ret m) l (Ret m') → unsent m' ≤ unsent m.
Proof.
  intros Hl Hst. inversion Hst; subst; try done; unfold unsent; simpl;
    try match goal with Ht : m_callers m !! _ = Some (?k, ?p) |- context [<[_ := (?k', ?p')]> _] =>
      pose proof (unsent_update m _ k p k' p' Ht); unfold unsent in * end.
  - unfold handleResponse. by destruct (m_handlers m !! rpc_Id rpc).
  - by destruct r as [ch'|]; simplify_eq/=.
  - match goal with Hb : _ = Ret m' |- _ => apply bind_Ret in Hb as (s1 & E & [= <-]) end.
    apply (closeError_frame ord (Some err) m s1) in E as (Hcal & _). simpl. by rewrite Hcal.
  - destruct (readErrorIfDone m); simpl in *; lia.
  - simpl in *; lia.
  - destruct k; simpl in *; lia.
  - destruct p; simpl in *; lia.
  - destruct p; simpl in *; lia.
  - match goal with Hb : _ = Ret m' |- _ => apply bind_Ret in Hb as (s1 & E & [= <-]) end.
    apply unregisterHandler_frame in E as (Hcal & _). simpl. rewrite Hcal.
    match goal with Ht : m_callers m !! t = Some (?k, ?p) |- _ =>
      pose proof (unsent_update m t k p k (after_unregister p) Ht) end.
    unfold unsent in *. destruct p as [| | | | | | |? ? ? []|]; simpl in *; lia.
Qed.

Lemma client_load_internal m l m' :
  internal l → effort l = 1 → Multiplexer.step (Ret m) l (Ret m') →
  S (client_load (Ret m')) ≤ client_load (Ret m).
Proof.
  intros Hl He Hst. pose proof (unsent_step m l m' Hl Hst). pose proof (work_step _ _ _ Hl Hst) as Hw.
  rewrite He in Hw. unfold client_load. lia.
Qed.

Lemma client_load_go m t k :
  m_callers m !! t = None → client_load (Ret (set_caller t k PCheck m)) = 16 + client_load (Ret m).
Proof.
  intros Ht. unfold client_load, unsent. simpl. unfold calls_work.
  rewrite !map_total_insert_new by done. simpl. lia.
Qed.

Lemma client_load_caller m t k p p' :
  m_callers m !! t = Some (k, p) →
  client_load (Ret (set_caller t k p' m)) + (pc_work p + unsent_work p) =
    client_load (Ret m) + (pc_work p' + unsent_work p').
Proof.
  intros Ht. pose proof (unsent_update m t k p k p' Ht). pose proof (caller_work m t k p k p' Ht).
  unfold client_load, unsent in *. simpl in *. lia.
Qed.

(** What a step of the client costs, while it is calm. *)
Lemma calm_client_load m l m' :
  mux_inv m → calm_client m → client_local l → ¬ client_mishap l →
  Multiplexer.step (Ret m) l (Ret m') →
  S (client_load (Ret m')) ≤ client_load (Ret m) + 17 * goes (Client l).
Proof.
  intros Hm Hc Hloc Hl Hst. pose proof (cc_callers m Hc) as Hcal.
  assert (Hint : internal l → effort l = 1 → S (client_load (Ret m')) ≤ client_load (Ret m) + 17 * goes (Client l)).
  { intros Hi He. pose proof (client_load_internal m l m' Hi He Hst). lia. }
  inversion Hst; subst; simpl in Hl, Hloc; try tauto;
    try match goal with Hb : _ = Ret m' |- _ => rewrite Hb end; try (by apply Hint);
    try match goal with Ht : m_callers m !! _ = Some _ |- _ => destruct (Hcal _ _ _ Ht) as [-> Hp] end;
    try done.
  - rewrite client_load_go by done. unfold goes. lia.
  - match goal with Hr : chan_recv ch = _ |- _ => unfold chan_recv in Hr end.
    rewrite (calm_recv m t Unary p id c ch) in * by done. by destruct (ch_buf ch).
  - match goal with Ht : m_callers m !! _ = Some _ |- _ =>
      pose proof (client_load_caller m _ _ _ (PUnregister id c (CtxDone err)) Ht) end. simpl pc_work in *. simpl unsent_work in *. lia.
Qed.

(** ** The server *)
Section server.
Context {Msg Impl Handler : Type}.
Context `{Unicode, MetadataPkg, StatusPkg, !StatusLaws, Codec Msg, !CodecLaws Msg,
  StatsHandler Handler}.
Context (srv : Server.Server Msg Impl Handler) (clientCtx : Ctx).

Record calm_server (v : conn) : Prop := {
  cv_ctx : v_ctx v = false;
  cv_gs : v_gs v = ∅;
  cv_serve :
    match v_serve v with
    | VRead | VSendWorker _ => True
    | VDispatch rpc => is_unary srv rpc
    | _ => False
    end;
  cv_workers w : v_workers v !! w ≠ Some WExit;
  cv_writer : v_writer v ≠ RExit }.

Lemma calm_server_init : calm_server newHandler.
Proof.
  split; try done. intros w Hw. apply elem_of_list_to_map_2, list_elem_of_fmap in Hw as (? & ? & _).
  congruence.
Qed.

Lemma serve_decide_worker rpc : is_unary srv rpc → serve_decide srv rpc = VSendWorker rpc.
Proof. unfold is_unary, serve_decide. by destruct (dispatch srv rpc). Qed.

Lemma calm_set_worker v w p :
  calm_server v → p ≠ WExit → calm_server (set_worker w p v).
Proof.
  intros [] Hp. split; simpl; try done. intros w'. rewrite lookup_insert_Some. intros [[_ ?]|[_ ?]]; [done|].
  by destruct (cv_workers0 w').
Qed.
Lemma calm_set_writer v p : calm_server v → p ≠ RExit → calm_server (set_writer p v).
Proof. by intros [] ?; split. Qed.
Lemma calm_set_serve v p :
  calm_server v → (p = VRead ∨ (∃ rpc, p = VSendWorker rpc) ∨ ∃ rpc, p = VDispatch rpc ∧ is_unary srv rpc) →
  calm_server (set_serve p v).
Proof. intros [] [->|[[? ->]|(? & -> & ?)]]; by split. Qed.

(** A calm step of the server: the goroutines that serve unary calls move, and
    each of their steps costs one. *)
Lemma calm_server_step v l v' :
  calm_server v → ¬ server_mishap l → (∀ rpc, l = ServerLoop.EnvRead rpc → is_unary srv rpc) →
  ServerLoop.step srv clientCtx (Ret v) l (Ret v') →
  calm_server v' ∧
  match l with
  | ServerLoop.EnvRead _ => server_load (Ret v') = 9 + server_load (Ret v)
  | EnvWritten _ => server_load (Ret v) = 5 + server_load (Ret v')
  | _ => S (server_load (Ret v')) ≤ server_load (Ret v)
  end.
Proof.
  intros Hc Hl Hun Hst. pose proof (cv_serve v Hc) as Hsv. pose proof (cv_gs v Hc) as Hgs.
  pose proof (cv_ctx v Hc) as Hctx.
  inversion Hst; subst; simpl in Hl; try tauto;
    try (match goal with Hs : v_serve _ = _ |- _ => rewrite Hs in Hsv end; done);
    try (match goal with Hs : v_gs _ !! _ = Some _ |- _ => rewrite Hgs in Hs end; done);
    try congruence; unfold server_load; simpl.
  - match goal with Hs : v_serve _ = _ |- _ => rewrite Hs end.
    split; [apply calm_set_serve; eauto 10|simpl; lia].
  - match goal with Hs : v_serve _ = _ |- _ => rewrite Hs in * end.
    rewrite serve_decide_worker by done. split; [apply calm_set_serve; eauto|simpl; lia].
  - match goal with Hs : v_serve _ = _ |- _ => rewrite Hs in * end.
    split; [by apply calm_set_serve; [apply calm_set_worker|left]|].
    match goal with Hw : v_workers v !! w = _ |- _ =>
      pose proof (map_total_update worker_work w _ (WRun rpc) _ Hw) end. simpl in *. lia.
  - destruct r as [resp|]; simplify_eq/=. split; [by apply calm_set_worker|].
    match goal with Hw : v_workers v !! w = _ |- _ =>
      pose proof (map_total_update worker_work w _ (WSend resp) _ Hw) end. simpl in *. lia.
  - match goal with Hs : v_writer _ = _ |- _ => rewrite Hs end.
    split; [by apply calm_set_worker; [apply calm_set_writer|]|].
    match goal with Hw : v_workers v !! w = _ |- _ =>
      pose proof (map_total_update worker_work w _ WIdle _ Hw) end. simpl in *. lia.
  - match goal with Hs : v_writer _ = _ |- _ => rewrite Hs end.
    destruct werr; [tauto|]. split; [by apply calm_set_writer|simpl; lia].
Qed.
End server.

(** ** The two together *)

(** Who waits for its response has waited before, or has just written. *)
Lemma waiting_back m l m' t k id c :
  Multiplexer.step (Ret m) l (Ret m') → m_callers m' !! t = Some (k, PWait id c) →
  m_callers m !! t = Some (k, PWait id c) ∨
  m_callers m !! t = Some (k, PWrite id c) ∧ l = EnvWrite t None.
Proof.
  intros Hst. inversion Hst; subst; simpl in *; try (by auto);
    try (rewrite lookup_insert_Some; intros [[<- Heq]|[Hne Ht']]; [|by auto]); simplify_eq/=.
  - unfold handleResponse. destruct (m_handlers m !! rpc_Id rpc); auto.
  - destruct r as [ch'|]; simplify_eq/=. auto.
  - match goal with Hb : _ = Ret m' |- _ => apply bind_Ret in Hb as (s1 & E & [= <-]) end.
    apply (closeError_frame ord (Some err) m s1) in E as (Hcal & _). simpl. rewrite Hcal. auto.
  - by destruct (readErrorIfDone m).
  - by destruct k.
  - destruct werr; simplify_eq/=. auto.
  - by destruct p.
  - by destruct p.
  - match goal with Hb : _ = Ret m' |- _ => apply bind_Ret in Hb as (s1 & E & [= <-]) end.
    apply unregisterHandler_frame in E as (Hcal' & _). simpl. rewrite Hcal'.
    rewrite lookup_insert_Some. intros [[<- Heq]|[Hne Ht']]; [|by auto].
    destruct p as [| | | | | | |? ? ? []|]; simplify_eq/=.
Qed.

(** How a call ended, and why. *)
Definition ended (p : pc) : option reason :=
  match p with PUnregister _ _ r | PDone _ r => Some r | _ => None end.

Lemma ended_back m l m' t k p' r :
  mux_inv m → calm_client m → ¬ client_mishap l → Multiplexer.step (Ret m) l (Ret m') →
  m_callers m' !! t = Some (k, p') → ended p' = Some r →
  (∃ p, m_callers m !! t = Some (k, p) ∧ ended p = Some r) ∨
  match r with
  | WriteFailed err => l = EnvWrite t (Some err)
  | Multiplexer.GotRpc _ => True
  | ChanClosed => False
  | CtxDone err => l = EnvCtxDone t err
  end.
Proof.
  intros Hm Hc Hl Hst. pose proof (cc_callers m Hc) as Hcal.
  inversion Hst; subst; simpl in *; try tauto; try (by eauto);
    try (rewrite lookup_insert_Some; intros [[<- [= <- <-]]|[Hne Ht']] Hr; [|by eauto]); simplify_eq/=;
    try (by eauto).
  - unfold handleResponse. destruct (m_handlers m !! rpc_Id rpc); eauto.
  - destruct r0 as [ch'|]; simplify_eq/=. eauto.
  - match goal with Hr : m_reader m = _ |- _ => pose proof (cc_reader m Hc) as Hr'; by rewrite Hr in Hr' end.
  - by destruct (readErrorIfDone m).
  - by destruct k0.
  - destruct werr; simplify_eq/=. auto.
  - right. destruct p; simplify_eq/=. done.
  - match goal with Hr : chan_recv ch = _ |- _ => unfold chan_recv in Hr end.
    rewrite (calm_recv m t0 k0 p id c ch) in * by done. by destruct (ch_buf ch).
  - match goal with Hb : _ = Ret m' |- _ => apply bind_Ret in Hb as (s1 & E & [= <-]) end.
    apply unregisterHandler_frame in E as (Hcal' & _). simpl. rewrite Hcal'.
    rewrite lookup_insert_Some. intros [[<- [= <- <-]]|[Hne Ht']] Hr; [|by eauto].
    left. exists p. destruct p as [| | | | | | |? ? ? []|]; simplify_eq/=; done.
Qed.

Section progress.
Context {Msg Impl Handler : Type}.
Context `{Unicode, MetadataPkg, StatusPkg, !StatusLaws, Codec Msg, !CodecLaws Msg,
  StatsHandler Handler}.
Context (srv : Server.Server Msg Impl Handler) (clientCtx : Ctx).
Context (request : nat → RequestHeader * Body).

Abbreviation step := (sys_step srv clientCtx request).
Abbreviation asks := (request_of request).

Lemma server_writing v l v' :
  calm_server srv v → ¬ server_mishap l → ServerLoop.step srv clientCtx (Ret v) l (Ret v') →
  server_local l → writing (v_writer v) ++ taken_of l = writing (v_writer v').
Proof.
  intros Hc Hl Hst Hloc. inversion Hst; subst; simpl in *; try done; rewrite ?app_nil_r; try done;
    try (match goal with Hs : v_gs _ !! _ = Some _ |- _ => rewrite (cv_gs srv v Hc) in Hs end; done);
    try (match goal with Hs : v_ctx _ = true |- _ => rewrite (cv_ctx srv v Hc) in Hs end; done).
  - unfold apply_decision. by repeat case_match.
  - by destruct r; simplify_eq/=.
  - by match goal with Hs : v_writer v = _ |- _ => rewrite Hs end.
Qed.

(** A call ends because its context did, its write failed, or with a response. *)
Definition why (h : list sys_label) (t : nat) (r : reason) : Prop :=
  match r with
  | WriteFailed err => ∃ rpc b, ClientWrite t (Some err) rpc b ∈ h
  | Multiplexer.GotRpc _ => True
  | ChanClosed => False
  | CtxDone err => Client (EnvCtxDone t err) ∈ h
  end.

Lemma why_snoc h l t r : why h t r → why (h ++ [l]) t r.
Proof.
  destruct r; simpl; try done.
  - intros (rpc & b & ?). exists rpc, b. apply elem_of_app. by left.
  - intros ?. apply elem_of_app. by left.
Qed.

Record calm_inv (h : list sys_label) (s : sys) (m : mux) (v : conn) : Prop := {
  ci_client : y_client s = Ret m;
  ci_server : y_server s = Ret v;
  ci_calm_client : calm_client m;
  ci_calm_server : calm_server srv v;
  (* requests go up, and that of a call that waits has gone up *)
  ci_ups rpc : rpc ∈ ups h → ∃ t id, rpc = asks t id;
  ci_sent t k id c : m_callers m !! t = Some (k, PWait id c) → asks t id ∈ ups h;
  ci_why t k p r : m_callers m !! t = Some (k, p) → ended p = Some r → why h t r;
  (* what the writer took went down, or it is writing it *)
  ci_taken : taken (server_history h) = downs h ++ writing (v_writer v) }.

(** A step of the client. *)
Lemma ci_sent_client h m l l' m' :
  Multiplexer.step (Ret m) l (Ret m') →
  (∀ t k id c, m_callers m !! t = Some (k, PWait id c) → asks t id ∈ ups h) →
  (∀ t k id c, m_callers m !! t = Some (k, PWrite id c) → l = EnvWrite t None → ups_of l' = [asks t id]) →
  ∀ t k id c, m_callers m' !! t = Some (k, PWait id c) → asks t id ∈ ups (h ++ [l']).
Proof.
  intros Hst Hsent Hwr t k id c Ht. rewrite ups_snoc, elem_of_app.
  destruct (waiting_back m l m' t k id c Hst Ht) as [?|[? ->]]; [left; by eapply Hsent|right].
  erewrite Hwr by done. apply list_elem_of_here.
Qed.

Lemma ci_why_client h m l l' m' :
  mux_inv m → calm_client m → ¬ client_mishap l → Multiplexer.step (Ret m) l (Ret m') →
  (∀ t k p r, m_callers m !! t = Some (k, p) → ended p = Some r → why h t r) →
  (∀ t w, l = EnvWrite t w → ∃ rpc b, l' = ClientWrite t w rpc b) →
  (∀ t err, l = EnvCtxDone t err → l' = Client l) →
  ∀ t k p r, m_callers m' !! t = Some (k, p) → ended p = Some r → why (h ++ [l']) t r.
Proof.
  intros Hm Hc Hl Hst Hwhy Hwr Hctx t k p' r Ht Hr.
  destruct (ended_back m l m' t k p' r Hm Hc Hl Hst Ht Hr) as [(p & Htp & Hp)|Hnew].
  - apply why_snoc. eauto.
  - destruct r; simpl in *; subst; try done.
    + destruct (Hwr _ _ eq_refl) as (rpc & b & ->). exists rpc, b.
      apply elem_of_app; right; apply list_elem_of_here.
    + rewrite (Hctx _ _ eq_refl). apply elem_of_app; right; apply list_elem_of_here.
Qed.

Lemma ci_ups_snoc h l :
  (∀ rpc, rpc ∈ ups h → ∃ t id, rpc = asks t id) → ups_of l = [] ∨ (∃ t id, ups_of l = [asks t id]) →
  ∀ rpc, rpc ∈ ups (h ++ [l]) → ∃ t id, rpc = asks t id.
Proof.
  intros Hu Hl rpc. rewrite ups_snoc, elem_of_app. intros [?|Hr]; [by apply Hu|].
  destruct Hl as [Hl|(t & id & Hl)]; rewrite Hl in Hr; [by apply not_elem_of_nil in Hr|].
  apply list_elem_of_singleton in Hr as ->. eauto.
Qed.

Lemma ci_taken_same h l (v v' : conn) :
  taken (server_history h) = downs h ++ writing (v_writer v) →
  writing (v_writer v) ++ (server_label l ≫= taken_of) = downs_of l ++ writing (v_writer v') →
  taken (server_history (h ++ [l])) = downs (h ++ [l]) ++ writing (v_writer v').
Proof.
  intros Ht Hl. rewrite server_history_snoc, downs_snoc. unfold taken in *.
  rewrite bind_app, Ht, <-!app_assoc, Hl. done.
Qed.

Hypothesis Hret : handlers_return srv clientCtx.
Hypothesis Hunary : ∀ t id, is_unary srv (asks t id).
Hypothesis Hgood : ∀ t, good_header (request t).1.

Lemma ups_from_client h :
  (∀ rpc, rpc ∈ ups h → ∃ t id, rpc = asks t id) → Forall from_client (ups h).
Proof. intros Hu. apply Forall_forall. intros rpc (t & id & ->)%Hu. by apply client_message. Qed.

Definition paid (l : sys_label) (s s' : sys) : Prop := S (load s') ≤ load s + 17 * goes l.

Lemma calm_client_moves h s m v l s' m' :
  mux_inv m → calm_inv h s m v → calm l → y_client s' = Ret m' → step s l s' →
  (∃ l', client_label l = [l']) → ∃ v', calm_inv (h ++ [l]) s' m' v' ∧ paid l s s'.
Proof.
  intros Hm [Hcm Hvm Hc Hv Hu Hs Hy Ht] [Hl Hsl] Hm' Hst [l' Hl']. exists v.
  rewrite Hl', Forall_singleton in Hl.
  assert (Hkeep : Multiplexer.step (Ret m) l' (Ret m') → server_label l = [] → downs_of l = [] →
    y_server s' = Ret v → ups_of l = [] ∨ (∃ t id, ups_of l = [asks t id]) →
    (∀ t k id c, m_callers m !! t = Some (k, PWrite id c) → l' = EnvWrite t None → ups_of l = [asks t id]) →
    calm_inv (h ++ [l]) s' m' v).
  { intros Hst' Hsv Hdn Hv' Hup Hwr. split; try done; [by eapply calm_client_step|by apply ci_ups_snoc| | |].
    - by eapply ci_sent_client.
    - eapply ci_why_client; try done.
      + intros t w ->. inversion Hst; subst; simplify_eq/=; try done; eauto.
      + intros t err ->. inversion Hst; by simplify_eq/=.
    - apply (ci_taken_same _ _ v); [done|]. rewrite Hsv, Hdn. simpl. by rewrite app_nil_r. }
  inversion Hst; subst; simpl in *; try done; simplify_eq.
  - (* a step of the client's own *)
    pose proof (calm_client_load m l' m' Hm Hc ltac:(done) Hl ltac:(done)). split; [|unfold paid, load; simpl in *; lia].
    apply Hkeep; auto. by intros ? ? ? ? ? ->.
  - match goal with Hs : Multiplexer.step _ _ _ |- _ => pose proof Hs as Hcs; inversion Hs; subst end.
    simplify_eq. match goal with Ht : m_callers m !! t = _, Hb : write_result _ _ |- _ =>
      split; [apply Hkeep; try done|pose proof (client_load_caller m t k _
        (match werr with Some err => PUnregister id ch (WriteFailed err) | None => PWait id ch end) Ht)] end.
    + destruct b; simpl; eauto.
    + intros t2 k2 id2 c2 Ht2 [= -> ->]. simplify_eq.
      match goal with Hb : write_result _ _ |- _ => by rewrite (Hb eq_refl) end.
    + unfold paid, load. cbn [y_client y_server y_up y_down goes].
      destruct werr, b; simpl pc_work in *; simpl unsent_work in *; simpl deliver; rewrite ?length_app; simpl length; lia.
  - match goal with Hs : Multiplexer.step _ _ _ |- _ => pose proof Hs as Hcs; inversion Hs; subst end.
    split; [by apply Hkeep; auto|]. unfold paid, load, client_load, work, unsent. simpl.
    match goal with Hr : m_reader m = _ |- _ => rewrite Hr end. simpl. lia.
Qed.

(** A step of the server. *)
Lemma calm_server_moves h s m v l s' :
  link_inv srv clientCtx h s → calm_inv h s m v → calm l → step s l s' →
  (∃ l', server_label l = [l']) → ∃ v', calm_inv (h ++ [l]) s' m v' ∧ paid l s s'.
Proof.
  intros Hl [Hcm Hvm Hc Hv Hu Hs Hy Ht] [_ Hsl] Hst [l' Hl'].
  assert (Hnp : ¬ handler_panic l).
  { destruct l as [| | | |l| | |]; try by intros []. destruct l; try by intros []. intros _.
    inversion Hst; subst; simplify_eq/=.
    match goal with Hs : ServerLoop.step _ _ _ (EnvPanic _ _) _ |- _ => inversion Hs; subst; simplify_eq end.
    match goal with Hg : v_gs _ !! _ = Some _ |- _ => by rewrite (cv_gs _ _ Hv), lookup_empty in Hg end. }
  destruct (server_runs_step srv clientCtx request h s l s' Hret Hl (ups_from_client h Hu) Hnp ltac:(by exists v) Hst)
    as [v' Hv'].
  assert (Hm' : y_client s' = Ret m) by (inversion Hst; subst; done). exists v'.
  assert (Hups : ups_of l = []) by (by destruct l).
  assert (Hkeep : calm_server srv v' →
    writing (v_writer v) ++ taken_of l' = downs_of l ++ writing (v_writer v') → calm_inv (h ++ [l]) s' m v').
  { intros Hcv Hw. split; try done.
    - by apply ci_ups_snoc; [|left].
    - intros t k id c ?. rewrite ups_snoc, Hups, app_nil_r. eauto.
    - intros t k p r ??. apply why_snoc. eauto.
    - apply (ci_taken_same _ _ v); [done|]. rewrite Hl'. simpl. by rewrite app_nil_r. }
  inversion Hst; subst; simpl in *; try done; simplify_eq; rewrite Forall_singleton in Hsl;
    match goal with Hs : ServerLoop.step _ _ _ _ _ |- _ => pose proof Hs as Hcs end.
  - destruct (calm_server_step srv clientCtx v l' v' Hv Hsl ltac:(by intros ? ->) Hcs) as [Hcv Hp].
    split; [apply Hkeep; [done|by eapply server_writing]|].
    unfold paid, load. simpl y_client. simpl y_server. simpl y_up. simpl y_down. destruct l'; done || lia.
  - destruct werr; [done|].
    match goal with Hb : write_result _ _ |- _ => specialize (Hb eq_refl) as -> end.
    destruct (calm_server_step srv clientCtx v _ v' Hv Hsl ltac:(done) Hcs) as [Hcv Hp].
    split; [apply Hkeep; [done|]|].
    + inversion Hcs; subst. simpl. match goal with Hs : v_writer v = _ |- _ => by rewrite Hs end.
    + unfold paid, load. simpl deliver. simpl y_client. simpl y_server. simpl y_up. simpl y_down.
      rewrite length_app. simpl length. lia.
  - pose proof (cv_serve srv v Hv) as Hsv.
    match goal with Hs : v_serve v = _ |- _ => by rewrite Hs in Hsv end.
  - assert (Hun : is_unary srv rpc).
    { destruct (Hu rpc) as (t & id & ->); [|done]. rewrite (lk_up _ _ _ _ Hl). simpl.
      apply elem_of_app. right. apply list_elem_of_here. }
    destruct (calm_server_step srv clientCtx v _ v' Hv Hsl ltac:(by intros ? [= <-]) Hcs) as [Hcv Hp].
    split; [apply Hkeep; [done|]|].
    + inversion Hcs; subst. simpl. by rewrite app_nil_r.
    + unfold paid, load. simpl y_client. simpl y_server. simpl y_up. simpl y_down. simpl length. lia.
Qed.

Lemma calm_inv_step h s m v l s' m' :
  link_inv srv clientCtx h s → mux_inv m → calm_inv h s m v → calm l → y_client s' = Ret m' → step s l s' →
  ∃ v', calm_inv (h ++ [l]) s' m' v' ∧ paid l s s'.
Proof.
  intros Hl Hm Hc Hcalm Hm' Hst.
  destruct (decide (client_label l = [])) as [Hn|Hn].
  - destruct (decide (server_label l = [])) as [Hn'|Hn'].
    + (* ClientFrame: there is no stream *)
      inversion Hst; subst; try done. destruct (cc_callers m (ci_calm_client _ _ _ _ Hc) t k (PStream (rpc_Id rpc) ch r pend)) as [_ []].
      pose proof (ci_client _ _ _ _ Hc). simpl in *. by simplify_eq.
    + destruct (calm_server_moves h s m v l s' Hl Hc Hcalm Hst) as (v' & Hc' & Hp).
      { inversion Hst; subst; simpl in *; eauto; done. }
      exists v'. split; [|done]. pose proof (ci_client _ _ _ _ Hc'). by assert (m' = m) as -> by congruence.
  - eapply calm_client_moves; eauto. inversion Hst; subst; simpl in *; eauto; done.
Qed.

(** A calm history, with its bound. *)
Definition calm_hist (h : list sys_label) (s : sys) : Prop :=
  Forall calm h → (Z.of_nat (17 * calls h) < 2 ^ 64 - 1)%Z →
  ∃ m v, calm_inv h s m v ∧ length h + load s ≤ 17 * calls h.

Lemma calls_snoc h l : calls (h ++ [l]) = calls h + goes l.
Proof. unfold calls. rewrite sum_list_with_app. simpl. lia. Qed.

Lemma calm_step h s m v l s' :
  sys_inv srv clientCtx request h s → calm_inv h s m v → (Z.of_nat (length h) < 2 ^ 64 - 1)%Z →
  calm l → step s l s' → ∃ m' v', calm_inv (h ++ [l]) s' m' v' ∧ paid l s s'.
Proof.
  intros Hinv Hci Hlt Hl Hst. pose proof (sys_inv_step _ _ _ h s l s' Hinv Hst) as [_ Hi'].
  destruct Hinv as [Hlink Hi]. destruct (Hi ltac:(lia)) as (m0 & Hm0 & Hfull & _).
  assert (m0 = m) as -> by (pose proof (ci_client _ _ _ _ Hci); congruence).
  destruct Hi' as (m' & Hm' & _); [rewrite length_app; simpl; lia|].
  destruct (calm_inv_step h s m v l s' m' Hlink (fi_mux _ _ Hfull) Hci Hl Hm' Hst) as (v' & ? & ?).
  by exists m', v'.
Qed.

Lemma calm_hist_step h s l s' :
  sys_inv srv clientCtx request h s ∧ calm_hist h s → step s l s' →
  sys_inv srv clientCtx request (h ++ [l]) s' ∧ calm_hist (h ++ [l]) s'.
Proof.
  intros [Hinv Hh] Hst. split; [by eapply sys_inv_step|]. unfold calm_hist. rewrite calls_snoc.
  intros [Hc Hl]%Forall_app Hlt. rewrite Forall_singleton in Hl.
  destruct (Hh Hc ltac:(lia)) as (m & v & Hci & Hb).
  destruct (calm_step h s m v l s' Hinv Hci ltac:(lia) Hl Hst) as (m' & v' & Hci' & Hp).
  exists m', v'. split; [done|]. rewrite length_app. unfold paid in Hp. simpl. lia.
Qed.

Lemma calm_hist_init : calm_hist [] sys_init.
Proof.
  intros _ _. exists NewRpcMultiplexer, newHandler. split; [|by vm_compute].
  split; try done; [apply calm_server_init|by intros ? ?%not_elem_of_nil].
Qed.

Lemma calm_trace h s :
  trace step sys_init h s → Forall calm h → (Z.of_nat (17 * calls h) < 2 ^ 64 - 1)%Z →
  ∃ m v, sys_inv srv clientCtx request h s ∧ calm_inv h s m v ∧ length h + load s ≤ 17 * calls h.
Proof.
  intros Htr Hc Hlt.
  destruct (trace_history_invariant step (λ h s, sys_inv srv clientCtx request h s ∧ calm_hist h s)
    calm_hist_step [] sys_init h s (conj (sys_inv_trace _ _ _ [] _ (trace_refl _ _)) calm_hist_init) Htr)
    as [Hinv Hh]. destruct (Hh Hc Hlt) as (m & v & ? & ?). by exists m, v.
Qed.

(** ** Somebody can move *)

(** Without a choice of the environment, other than that the transport works. *)
Definition can_move (s : sys) : Prop := ∃ l s', step s l s' ∧ calm l ∧ ¬ outside l.

Lemma client_can_move s m l o :
  y_client s = Ret m → client_local l → ¬ client_mishap l → ¬ outside (Client l) →
  Multiplexer.step (Ret m) l o → can_move s.
Proof.
  destruct s as [c d up down]. simpl. intros -> Hl Hm Hg Hst.
  exists (Client l), (mkSys o d up down). split_and!; [by apply sys_client| |done].
  split; [by apply Forall_singleton|constructor].
Qed.

Lemma server_can_move s v l o :
  y_server s = Ret v → server_local l → ¬ server_mishap l →
  ServerLoop.step srv clientCtx (Ret v) l o → can_move s.
Proof.
  destruct s as [c d up down]. simpl. intros -> Hl Hm Hst.
  exists (Server l), (mkSys c o up down). split_and!; [by apply sys_server| |by intros []].
  split; [constructor|by apply Forall_singleton].
Qed.

Definition is_done (p : pc) : Prop := match p with PDone _ _ => True | _ => False end.
#[local] Instance is_done_dec p : Decision (is_done p).
Proof. destruct p; simpl; apply _. Defined.

(** A caller goes on, unless it waits for its response. *)
Definition waits (p : pc) : Prop := match p with PWait _ _ | PDone _ _ => True | _ => False end.
#[local] Instance waits_dec p : Decision (waits p).
Proof. destruct p; simpl; apply _. Defined.

Lemma caller_can_move s m t k p :
  y_client s = Ret m → mutex_free m → m_callers m !! t = Some (k, p) → calm_pc p → ¬ waits p → can_move s.
Proof.
  intros Hm Hf Ht Hp Hw. destruct p as [| |id c|id c| |id c r| | |]; try done; try (simpl in Hw; tauto).
  - eapply (client_can_move s m (LCheck t)); [done|done|by intros []|by intros []|]. by apply (step_check m t k).
  - eapply (client_can_move s m (LNewId t)); [done|done|by intros []|by intros []|]. by apply (step_new_id m t k).
  - eapply (client_can_move s m (LRegister t)); [done|done|by intros []|by intros []|]. by apply (step_register m t k id c).
  - destruct s as [? d up down]. simpl in Hm. subst.
    exists (ClientWrite t None (asks t id) true). eexists. split_and!; [|by repeat constructor; simpl; tauto|by intros []].
    eapply sys_client_write; [done|done|by apply (step_write m t k id c None)].
  - eapply (client_can_move s m (LUnregister t)); [done|done|by intros []|by intros []|]. by apply (Multiplexer.step_unregister m t k (PUnregister id c r) id).
Qed.

(** The goroutines of the server go on, unless they all wait. *)
Definition idle (v : conn) : Prop :=
  v_serve v = VRead ∧ v_writer v = RWait ∧ ∀ w p, v_workers v !! w = Some p → p = WIdle.

Lemma worker_can_run rpc : is_unary srv rpc → ∃ r, worker_result srv clientCtx rpc r.
Proof.
  unfold is_unary. destruct (dispatch srv rpc) as [|si md rpc'|] eqn:Hd; try done. intros _.
  assert (rpc' = rpc) as -> by (unfold dispatch in Hd; repeat case_match; simplify_eq; done).
  eexists. exists 0%Z, 0%Z, (λ _, 0%Z), (λ _, []), si, md. split; [done|reflexivity].
Qed.

#[local] Instance worker_idle_dec p : Decision (p = WIdle).
Proof. destruct p; solve [by left|by right]. Defined.

Lemma running_unary h v runs lost w rpc :
  work_inv srv clientCtx h v runs lost → v_workers v !! w = Some (WRun rpc) → is_unary srv rpc.
Proof.
  intros Hw Hr. pose proof (wk_in _ _ _ _ _ _ Hw) as Hin.
  assert (rpc ∈ filter (is_unary srv) (ServerLoop.reads h)) as [? _]%list_elem_of_filter; [|done].
  rewrite Hin, !elem_of_app. right; left.
  eapply map_collect_elem; [done|apply list_elem_of_here].
Qed.

Lemma server_moves h s m v runs lost :
  calm_inv h s m v → work_inv srv clientCtx (server_history h) v runs lost → can_move s ∨ idle v.
Proof.
  intros Hc Hw. pose proof (ci_server _ _ _ _ Hc) as Hs. destruct (ci_calm_server _ _ _ _ Hc) as [_ _ Hsv Hnx Hwr].
  destruct (v_writer v) as [|rpc|] eqn:Ewr; [| |done].
  - destruct (decide (map_Forall (λ _ p, p = WIdle) (v_workers v))) as [Hidle|Hidle].
    + destruct (v_serve v) as [|rpc|rpc| | | | | |] eqn:Esv; try done.
      * right. by split_and!.
      * left. eapply (server_can_move s v (VDecide 0) _ Hs I); [by intros []|]. by apply (step_decide _ _ v 0 rpc).
      * left. assert (v_workers v ≠ ∅) as [w [p Hp]]%map_choose.
        { intros He. pose proof (wk_size _ _ _ _ _ _ Hw) as Hsz. by rewrite He, map_size_empty in Hsz. }
        rewrite (Hidle w p Hp) in Hp.
        eapply (server_can_move s v (VHandOff w) _ Hs I); [by intros []|]. by apply (step_hand_off _ _ v rpc w).
    + left. apply map_not_Forall in Hidle as (w & p & Hp & Hn); [|apply _].
      destruct p as [|rpc|resp|]; [done| | |by destruct (Hnx w)].
      * destruct (worker_can_run rpc (running_unary _ _ _ _ w rpc Hw Hp)) as [r Hr].
        eapply (server_can_move s v (WorkerRun w r) _ Hs I); [by intros []|]. by apply (step_worker_run _ _ v w rpc).
      * eapply (server_can_move s v (WriteWorker w resp) _ Hs I); [by intros []|]. by apply (step_write_worker _ _ v w resp).
  - left. destruct s as [c ? up down]. simpl in Hs. subst.
    exists (ServerWrite None rpc true). eexists. split_and!; [|by repeat constructor; simpl; tauto|by intros []].
    by eapply sys_server_write; [..|apply (step_written _ _ v rpc None)].
Qed.

(** The server answers a request once. *)
Lemma runs_for_id id (runs : list (Rpc * Rpc)) :
  Forall (λ p, worker_result srv clientCtx p.1 (Ret p.2)) runs →
  length (for_id id runs.*2) = length (for_id id runs.*1).
Proof.
  induction 1 as [|[req resp] runs Hr Hf IH]; [done|]. simpl in Hr.
  apply worker_result_id in Hr. unfold for_id in *. rewrite !fmap_cons, !filter_cons. cbn [fst snd]. rewrite Hr.
  case_decide; cbn [length]; lia.
Qed.

Lemma for_id_length_app id l1 l2 : length (for_id id (l1 ++ l2)) = length (for_id id l1) + length (for_id id l2).
Proof. by rewrite for_id_app, length_app. Qed.

Lemma for_id_length_perm id l1 l2 : l1 ≡ₚ l2 → length (for_id id l1) = length (for_id id l2).
Proof. intros Hp. unfold for_id. by rewrite Hp. Qed.

Lemma one_answer h s m v t k p id :
  calm_inv h s m v → link_inv srv clientCtx h s → wire_inv request h m →
  m_callers m !! t = Some (k, p) → pc_id p = Some id → length (for_id id (downs h)) ≤ 1.
Proof.
  intros Hc Hl Hwire Ht Hp.
  assert (Hups : length (for_id id (ups h)) ≤ 1).
  { destruct (cc_callers m (ci_calm_client _ _ _ _ Hc) _ _ _ Ht) as [_ Hcp].
    assert (¬ streaming p) as Hns by (destruct p; by (intros []; destruct Hcp)).
    destruct (wi_unary _ _ _ Hwire t k p id Ht Hp Hns) as [->| ->]; simpl; lia. }
  pose proof (lk_server _ _ _ _ Hl) as Hst. rewrite (ci_server _ _ _ _ Hc) in Hst.
  destruct (work_inv_trace srv clientCtx _ v Hst) as (runs & lost & Hw).
  pose proof (for_id_length_perm id _ _ (wk_out _ _ _ _ _ _ Hw)) as Hout.
  pose proof (for_id_length_perm id _ _ (wk_in _ _ _ _ _ _ Hw)) as Hin.
  rewrite (runs_for_id id runs) in Hout by apply Hw.
  rewrite (ci_taken _ _ _ _ Hc), !for_id_length_app in Hout. rewrite for_id_length_app in Hin.
  pose proof (sublist_length _ _ (filter_sublist_mono (λ rpc, rpc_Id rpc = id) _ _
    (sublist_filter (is_unary srv) (ServerLoop.reads (server_history h))))) as Hsub.
  rewrite (lk_up _ _ _ _ Hl), for_id_length_app in Hups. unfold for_id in *. lia.
Qed.

(** So the read loop finds room in the channel of the call. *)
Lemma reader_can_move h s m v rpc c :
  calm_inv h s m v → link_inv srv clientCtx h s → full_inv (client_history h) m → wire_inv request h m →
  m_reader m = RSend rpc c → can_move s.
Proof.
  intros Hc Hl Hfull Hwire Hr. pose proof (fi_mux _ _ Hfull) as Hm.
  pose proof (inv_reader m Hm _ _ Hr) as Hh.
  destruct (inv_handlers m Hm _ _ Hh) as ((ch & Hch & Hcl) & t & k & p & Ht & Hp).
  pose proof (pc_reg_chan _ _ _ Hp) as Hpc.
  destruct (stream_received srv clientCtx request h s m t k p _ c Hl Hfull Hwire Ht Hp Hh) as (ch' & ? & Hrecv).
  destruct (inv_callers m Hm _ _ _ Ht) as (_ & Hlive & _). destruct (Hlive _ _ Hpc) as (ch2 & ? & _ & _ & Hcap).
  simplify_eq. pose proof (one_answer h s m v t k p _ Hc Hl Hwire Ht (pc_chan_id _ _ _ Hpc)) as Hone.
  rewrite (lk_down _ _ _ _ Hl), for_id_length_app, <-Hrecv, !length_app in Hone.
  unfold MuxDelivery.in_hand in Hone. rewrite Hr, for_id_one, decide_True in Hone by done. simpl in Hone.
  destruct (send_enabled m rpc c ch Hr Hch Hcl) as [m' Hst]; [lia|].
  eapply (client_can_move s m (LSend rpc c)); [apply Hc|done|by intros []|by intros []|exact Hst].
Qed.

(** With everything else at rest the response of a waiting call is in its
    channel. *)
Lemma waiter_can_move h s m v t k id c :
  calm_inv h s m v → link_inv srv clientCtx h s → full_inv (client_history h) m → wire_inv request h m →
  idle v → y_up s = [] → y_down s = [] → m_reader m = RRead →
  m_callers m !! t = Some (k, PWait id c) → can_move s.
Proof.
  intros Hc Hl Hfull Hwire (Hsv & Hwr & Hidle) Hu Hd Hr Ht.
  pose proof (lk_server _ _ _ _ Hl) as Hst. rewrite (ci_server _ _ _ _ Hc) in Hst.
  destruct (work_inv_trace srv clientCtx _ v Hst) as (runs & lost & Hw).
  (* the request was served, and the response was delivered *)
  pose proof (wk_in _ _ _ _ _ _ Hw) as Hin. pose proof (wk_out _ _ _ _ _ _ Hw) as Hout.
  pose proof (wk_lost _ _ _ _ _ _ Hw) as Hlost. rewrite Hsv in Hin, Hlost. simpl in Hin, Hlost.
  destruct Hlost as [->|[_ []]]. rewrite (ci_taken _ _ _ _ Hc), Hwr in Hout. simpl in Hout.
  rewrite (map_collect_nil running) in Hin by (by intros w p ->%Hidle).
  rewrite (map_collect_nil responding) in Hout by (by intros w p ->%Hidle).
  simpl in Hin. rewrite !app_nil_r in Hin. rewrite !app_nil_r in Hout.
  pose proof (lk_up _ _ _ _ Hl) as Hup. rewrite Hu, app_nil_r in Hup.
  pose proof (lk_down _ _ _ _ Hl) as Hdown. rewrite Hd, app_nil_r in Hdown.
  assert (asks t id ∈ runs.*1) as [[req resp] [Hreq Hrun]]%list_elem_of_fmap.
  { rewrite <-Hin, <-Hup. apply list_elem_of_filter. split; [done|]. by apply (ci_sent _ _ _ _ Hc t k id c). }
  simpl in Hreq. subst req. pose proof (wk_runs _ _ _ _ _ _ Hw) as Hruns. rewrite Forall_forall in Hruns.
  pose proof (worker_result_id _ _ _ _ (Hruns _ Hrun)) as Hid. simpl in Hid.
  assert (resp ∈ MuxDelivery.reads (client_history h)) as Hread.
  { rewrite <-Hdown, <-Hout. apply list_elem_of_fmap. by exists (asks t id, resp). }
  (* so it is in the channel of the call *)
  pose proof (cc_handlers m (ci_calm_client _ _ _ _ Hc) t k _ id c Ht eq_refl) as Hh.
  destruct (stream_received srv clientCtx request h s m t k _ id c Hl Hfull Hwire Ht eq_refl Hh) as (ch & Hch & Hrecv).
  rewrite (fi_answered _ _ Hfull t k _ [] Ht eq_refl) in Hrecv. unfold MuxDelivery.in_hand in Hrecv.
  rewrite Hr in Hrecv. simpl in Hrecv. rewrite app_nil_r in Hrecv.
  assert (resp ∈ ch_buf ch) as Hb by (rewrite Hrecv; by apply list_elem_of_filter).
  destruct (ch_buf ch) as [|r l] eqn:Eb; [by apply not_elem_of_nil in Hb|].
  eapply (client_can_move s m (LRecv t r)); [apply Hc|done|by intros []|by intros []|].
  eapply (Multiplexer.step_recv m t k (PWait id c) id c ch r); try done. unfold chan_recv. by rewrite Eb.
Qed.

(** ** The result *)

(** A call returned: with the result of running its method on its request, or
    with the error of its write or of its context. *)
Definition returned_call (h : list sys_label) (t : nat) (p : pc) : Prop :=
  ∃ id r, p = PDone id r ∧ why h t r ∧
    ∀ reply, r = Multiplexer.GotRpc reply → worker_result srv clientCtx (asks t id) (Ret reply).
Definition all_returned (h : list sys_label) (s : sys) : Prop :=
  ∃ m, y_client s = Ret m ∧ ∀ t k p, m_callers m !! t = Some (k, p) → returned_call h t p.

Lemma all_done_or_moves h s :
  trace step sys_init h s → Forall calm h → (Z.of_nat (17 * calls h) < 2 ^ 64 - 1)%Z →
  can_move s ∨ ∃ m, y_client s = Ret m ∧ ∀ t k p, m_callers m !! t = Some (k, p) →
    ∃ id r, p = PDone id r ∧ why h t r.
Proof.
  intros Htr Hcalm Hlt. destruct (calm_trace h s Htr Hcalm Hlt) as (m & v & [Hl Hi] & Hc & Hb).
  destruct (Hi ltac:(lia)) as (m0 & Hm0 & Hfull & Hwire).
  assert (m0 = m) as -> by (pose proof (ci_client _ _ _ _ Hc); congruence).
  destruct (m_reader m) as [|rpc|rpc c| |] eqn:Hr.
  2: { left. eapply (client_can_move s m (LHandle rpc)); [done|done|by intros []|by intros []|].
       apply step_handle; [done|]. unfold mutex_free. by rewrite Hr. }
  2: { left. by eapply reader_can_move. }
  2-3: pose proof (cc_reader m (ci_calm_client _ _ _ _ Hc)) as Hrd; by rewrite Hr in Hrd.
  assert (mutex_free m) as Hf by (unfold mutex_free; by rewrite Hr).
  destruct (y_down s) as [|rpc down] eqn:Hd.
  2: { left. destruct s as [c0 d up ?]. simpl in *. subst. exists (ClientRead rpc). eexists.
       split_and!; [by apply sys_client_read, (Multiplexer.step_read m rpc)| |by intros []].
       split; [by apply Forall_singleton; intros []|constructor]. }
  pose proof (lk_server _ _ _ _ Hl) as Hst. rewrite (ci_server _ _ _ _ Hc) in Hst.
  destruct (work_inv_trace srv clientCtx _ v Hst) as (runs & lost & Hw).
  destruct (server_moves h s m v runs lost Hc Hw) as [?|Hidle]; [by left|].
  destruct (y_up s) as [|rpc up] eqn:Hu.
  2: { left. pose proof (ci_server _ _ _ _ Hc) as Hs. destruct s as [c0 d ? down]. simpl in *. subst.
       exists (ServerRead rpc). eexists. split_and!; [by apply sys_server_read, (ServerLoop.step_read _ _ v rpc), Hidle| |by intros []].
       split; [constructor|by apply Forall_singleton; intros []]. }
  destruct (decide (map_Forall (λ _ x, is_done x.2) (m_callers m))) as [Hdone|Hn].
  - right. exists m. split; [done|]. intros t k p Ht. pose proof (Hdone t _ Ht) as Hp. simpl in Hp.
    destruct p as [| | | | | |id r| |]; try done. exists id, r. split; [done|].
    by apply (ci_why _ _ _ _ Hc t k (PDone id r)).
  - left. apply map_not_Forall in Hn as (t & [k p] & Ht & Hp); [|apply _]. simpl in Hp.
    destruct (cc_callers m (ci_calm_client _ _ _ _ Hc) _ _ _ Ht) as [_ Hcp].
    destruct (decide (waits p)) as [Hwt|?]; [|by eapply caller_can_move].
    destruct p as [| | | |id c| | | |]; try done. by eapply waiter_can_move.
Qed.

Lemma returned_or_moves h s :
  trace step sys_init h s → Forall calm h → (Z.of_nat (17 * calls h) < 2 ^ 64 - 1)%Z →
  all_returned h s ∨ can_move s.
Proof.
  intros Htr Hc Hlt. destruct (calm_trace h s Htr Hc Hlt) as (m & v & _ & Hi & Hb).
  destruct (all_done_or_moves h s Htr Hc Hlt) as [?|(m' & Hm & Hp)]; [by right|left].
  exists m'. split; [done|]. intros t k p Ht. destruct (Hp t k p Ht) as (id & r & -> & Hwhy).
  exists id, r. split_and!; [done|done|]. intros reply ->.
  by apply (unary_answered srv clientCtx request h s m' t k id reply Htr ltac:(lia) Hm Ht (Hunary t id)).
Qed.

(** Every history can be completed, without another choice of the environment. *)
Lemma calls_complete h s :
  trace step sys_init h s → Forall calm h → (Z.of_nat (17 * calls h) < 2 ^ 64 - 1)%Z →
  ∃ h' s', trace step s h' s' ∧ Forall calm h' ∧ Forall (λ l, ¬ outside l) h' ∧ length h' ≤ load s ∧
    all_returned (h ++ h') s'.
Proof.
  remember (load s) as n eqn:Hn. revert h s Hn. induction n as [n IH] using lt_wf_ind.
  intros h s -> Htr Hc Hlt. destruct (returned_or_moves h s Htr Hc Hlt) as [Ha|(l & s1 & Hst & Hl & Ho)].
  - exists [], s. rewrite app_nil_r. split_and!; [constructor..|simpl; lia|done].
  - assert (goes l = 0) as Hg by (destruct l as [[]| | | | | | |]; try done; by destruct Ho).
    destruct (calm_trace h s Htr Hc Hlt) as (m & v & Hinv & Hi & Hb).
    destruct (calm_step h s m v l s1 Hinv Hi ltac:(lia) Hl Hst) as (_ & _ & _ & Hp). unfold paid in Hp.
    destruct (IH (load s1) ltac:(lia) (h ++ [l]) s1 eq_refl) as (h' & s' & Htr' & Hc' & Ho' & Hlen & Ha).
    + eapply trace_app; [done|by apply trace_one].
    + apply Forall_app. by rewrite Forall_singleton.
    + rewrite calls_snoc. lia.
    + exists (l :: h'), s'. rewrite cons_middle, app_assoc.
      split_and!; [by eapply trace_step|by constructor|by constructor|simpl; lia|done].
Qed.

(** C2: every unary call returns.  A client and a server over one connection that
    stays up (no read error, no Close or Stop, no failure of the server's writer),
    any number of unary calls, whose contexts may end and whose writes may fail at
    any time, no stream, handlers that return, metadata that decodes.  In whatever order
    the goroutines run: a history has at most seventeen steps for each call, so
    nothing runs for ever; there is no deadlock, although the client's read loop
    sends while it holds the mutex: unless every call has returned, some step is
    possible that is no choice of the environment; and by at most [load] such
    steps, a number that the state determines, all the calls that were made
    return.  A call returns its response, which is the result of its method on its
    request, unless its context ended or its write failed. *)
Theorem calls_return h s :
  trace step sys_init h s → Forall calm h → (Z.of_nat (17 * calls h) < 2 ^ 64 - 1)%Z →
  length h ≤ 17 * calls h ∧ (all_returned h s ∨ can_move s) ∧
  ∃ h' s', trace step s h' s' ∧ Forall calm h' ∧ Forall (λ l, ¬ outside l) h' ∧ length h' ≤ load s ∧
    all_returned (h ++ h') s'.
Proof.
  intros Htr Hc Hlt. destruct (calm_trace h s Htr Hc Hlt) as (m & v & _ & Hi & Hb).
  split_and!; [lia|by apply returned_or_moves|by apply calls_complete].
Qed.
End progress.

(** ** Concrete histories *)
Section witness.
Import RuntimeModel ServerExample.
#[local] Existing Instances codec stats StatusModel.pkg MetadataModel.Join MetadataModel.no_unicode
  RuntimeModel_laws StatusModel.StatusModel_laws.

Lemma wit_unary t id : is_unary server1 (request_of wit_request t id).
Proof. by vm_compute. Qed.
Definition wit_header : RequestHeader := Eval vm_compute in (wit_request 0).1.
Lemma wit_good t : good_header (wit_request t).1.
Proof.
  assert ((wit_request t).1 = wit_header) as -> by by vm_compute.
  apply Forall_singleton. by exists "bob".
Qed.

(** A call whose request is under way. *)
Definition begun : list sys_label :=
  (Client <$> call_labels) ++ [ClientWrite 0 None (request_of wit_request 0 1) true].
Definition begun_state : sys := mkSys (Ret wit_m2) (Ret newHandler) [request_of wit_request 0 1] [].

Lemma begun_trace : trace (sys_step server1 Background wit_request) sys_init begun begun_state.
Proof.
  unfold begun, begun_state, sys_init. eapply trace_app.
  { apply sys_client_run with (c' := Ret wit_m1); [by repeat constructor|].
    apply exec_run_trace. by vm_compute. }
  apply trace_one.
  eapply (sys_client_write _ _ _ wit_m1 (Ret wit_m2) _ [] _ 0 Unary 1 0 None true); [done..|].
  apply exec_step. by vm_compute.
Qed.

Lemma calls_return_witness :
  load begun_state = 12 ∧ 5 ≤ 17 ∧ ∃ h' s', length h' ≤ 12 ∧
    all_returned server1 Background wit_request (begun ++ h') s'.
Proof.
  split; [by vm_compute|].
  destruct (calls_return server1 Background wit_request echo_returns wit_unary wit_good begun begun_state
    begun_trace ltac:(repeat constructor; simpl; tauto) eq_refl) as (Hlen & _ & h' & s' & _ & _ & _ & Hl & Ha).
  split; [exact Hlen|]. by exists h', s'.
Defined.
End witness.
