(* ===== verification/Framing.v ===== *)
(** * websocket.go and internal/testutil/pipe.go: transports over bytes

    A websocket carries one encoded Rpc per binary message.  A pipe carries a
    sequence of frames: the length of the encoded Rpc as a big-endian uint32 and
    its bytes.  protobuf is a parameter: class [Proto].  A connection is what it
    has delivered and not yet been read; each method holds the connection's lock
    for its whole length. *)

From Stdlib Require Import ZArith Lia.
From Stdlib Require Strings.Byte.
From S2P Require Import Prelude Rpc Errors.

(** proto.Marshal and proto.Unmarshal; [proto_norm] is the message as a receiver
    sees it, where empty slices are nil. *)
Class Proto := {
  proto_Marshal : Rpc → result (list byte);
  proto_Unmarshal : list byte → result Rpc;
  proto_norm : Rpc → Rpc }.
Class ProtoLaws `{Proto} : Prop :=
  Unmarshal_Marshal_norm rpc data :
    proto_Marshal rpc = Ok data → proto_Unmarshal data = Ok (proto_norm rpc).

(** ** encoding/binary: uint32 in big-endian order *)
Definition byte_of (z : Z) : byte :=
  default Byte.x00 (Byte.of_N (Z.to_N (Z.land z 255))).
Definition of_byte (b : byte) : Z := Z.of_N (Byte.to_N b).
Definition BigEndian_PutUint32 (v : Z) : list byte :=
  [byte_of (Z.shiftr v 24); byte_of (Z.shiftr v 16); byte_of (Z.shiftr v 8); byte_of v].
Definition BigEndian_Uint32 (b3 b2 b1 b0 : byte) : Z :=
  Z.lor (of_byte b0) (Z.lor (Z.shiftl (of_byte b1) 8)
    (Z.lor (Z.shiftl (of_byte b2) 16) (Z.shiftl (of_byte b3) 24))).
(** uint32(n) *)
Definition to_uint32 (n : Z) : Z := Z.modulo n (2 ^ 32).

Definition io_ErrUnexpectedEOF : error := External "io.ErrUnexpectedEOF".

(** ** goatOverPipe *)
Section pipe.
Context `{Proto}.

(** io.ReadFull of [n] bytes from a connection that then ends. *)
Definition ReadFull (n : nat) (conn : list byte) : result (list byte * list byte) :=
  if decide (n ≤ length conn) then Ok (take n conn, drop n conn)
  else match conn with [] => Err EOF | _ => Err io_ErrUnexpectedEOF end.

(** A Write of the connection: [None] takes all the bytes; [Some (n, e)] takes the
    first [n] and fails. *)
Definition conn_Write (w : option (nat * error)) (data conn : list byte) : option error * list byte :=
  match w with
  | None => (None, conn ++ data)
  | Some (n, e) => (Some e, conn ++ take n data)
  end.

(** What [Write] sends; [done] is the error of a context that is done, [w1] and
    [w2] what the connection does with the length and with the data. *)
Definition pipe_Write (done : option error) (w1 w2 : option (nat * error)) (pkt : Rpc)
    (conn : list byte) : outcome (option error * list byte) :=
  match done with
  | Some e => Ret (Some e, conn)
  | None =>
      match proto_Marshal pkt with
      | Err _ => Panic "proto.Marshal"
      | Ok data =>
          match conn_Write w1 (BigEndian_PutUint32 (to_uint32 (Z.of_nat (length data)))) conn with
          | (Some e, conn) => Ret (Some e, conn)
          | (None, conn) => Ret (conn_Write w2 data conn)
          end
      end
  end.

(** [Read]; a frame that does not decode panics. *)
Definition pipe_Read (conn : list byte) : outcome (result Rpc * list byte) :=
  match ReadFull 4 conn with
  | Ok ([b3; b2; b1; b0], conn) =>
      match ReadFull (Z.to_nat (BigEndian_Uint32 b3 b2 b1 b0)) conn with
      | Ok (data, conn) =>
          match proto_Unmarshal data with
          | Ok rpc => Ret (Ok rpc, conn)
          | Err _ => Panic "proto.Unmarshal"
          end
      | Err e => Ret (Err e, [])
      end
  | Ok (_, conn) => Ret (Err io_ErrUnexpectedEOF, conn)
  | Err e => Ret (Err e, [])
  end.

(** Writing a sequence of Rpcs over a connection that takes all of them, and
    reading [n] of them. *)
Fixpoint pipe_writes (l : list Rpc) (conn : list byte) : outcome (list byte) :=
  match l with
  | [] => Ret conn
  | rpc :: l => '(_, conn) ← pipe_Write None None None rpc conn; pipe_writes l conn
  end.
Fixpoint pipe_reads (n : nat) (conn : list byte) : outcome (list (result Rpc) * list byte) :=
  match n with
  | 0 => Ret ([], conn)
  | S n => '(r, conn) ← pipe_Read conn; '(rs, conn) ← pipe_reads n conn; Ret (r :: rs, conn)
  end.
End pipe.

(** ** goatOverWebsocket *)
Inductive MessageType := MessageText | MessageBinary.
Definition errNonBinaryWebsocketMessage : error := Errorf "invalid websocket message: not binary".

Section websocket.
Context `{Proto}.
Definition ws_Read (read : result (MessageType * list byte)) : result Rpc :=
  match read with
  | Err err => Err err
  | Ok (MessageText, _) => Err errNonBinaryWebsocketMessage
  | Ok (MessageBinary, data) => proto_Unmarshal data
  end.
(** The message written, or the error. *)
Definition ws_Write (pkt : Rpc) : result (MessageType * list byte) :=
  match proto_Marshal pkt with
  | Err err => Err err
  | Ok data => Ok (MessageBinary, data)
  end.
End websocket.

(** ** internal/util.go: a transport of two functions *)
Record fnReadWriter (C R W : Type) := NewFnReadWriter { frw_r : C → R; frw_w : C → Rpc → W }.
Arguments NewFnReadWriter {C R W}.
Arguments frw_r {C R W}.
Arguments frw_w {C R W}.
Definition frw_Read {C R W} (frw : fnReadWriter C R W) (ctx : C) : R := frw_r frw ctx.
Definition frw_Write {C R W} (frw : fnReadWriter C R W) (ctx : C) (rpc : Rpc) : W := frw_w frw ctx rpc.

(** ** Bytes *)
Lemma of_byte_of z : of_byte (byte_of z) = Z.land z 255.
Proof.
  unfold of_byte, byte_of.
  assert (Hr : (0 ≤ Z.land z 255 < 256)%Z).
  { change 255%Z with (Z.ones 8). rewrite Z.land_ones by lia. apply Z.mod_pos_bound. lia. }
  destruct (Byte.of_N (Z.to_N (Z.land z 255))) as [b|] eqn:E; simpl.
  - apply Byte.to_of_N in E. rewrite E. lia.
  - apply Byte.of_N_None_iff in E. lia.
Qed.

(** A bit of the byte of [v] that starts at bit [k]. *)
Lemma byte_bit v k n :
  (0 ≤ k)%Z →
  Z.testbit (Z.land (Z.shiftr v k) 255) (n - k) = ((k <=? n)%Z && (n <? k + 8)%Z && Z.testbit v n).
Proof.
  intros Hk. destruct (Z.leb_spec k n) as [Hle|Hlt]; [|by rewrite Z.testbit_neg_r by lia].
  change 255%Z with (Z.ones 8). rewrite Z.land_spec, Z.shiftr_spec by lia.
  replace (n - k + k)%Z with n by lia. simpl.
  destruct (Z.ltb_spec n (k + 8)).
  - rewrite Z.ones_spec_low by lia. by rewrite andb_true_r.
  - rewrite Z.ones_spec_high by lia. by rewrite andb_false_r.
Qed.

Lemma Uint32_PutUint32 v :
  (0 ≤ v < 2 ^ 32)%Z →
  BigEndian_Uint32 (byte_of (Z.shiftr v 24)) (byte_of (Z.shiftr v 16)) (byte_of (Z.shiftr v 8))
    (byte_of v) = v.
Proof.
  intros Hv. unfold BigEndian_Uint32. rewrite !of_byte_of. apply Z.bits_inj'. intros n Hn.
  rewrite !Z.lor_spec, !Z.shiftl_spec by lia.
  rewrite (byte_bit v 8), (byte_bit v 16), (byte_bit v 24) by lia.
  pose proof (byte_bit v 0 n ltac:(lia)) as H0. rewrite Z.shiftr_0_r, Z.sub_0_r in H0. rewrite H0.
  destruct (Z.lt_ge_cases n 32) as [Hlt|Hge].
  - destruct (Z.testbit v n); rewrite ?andb_false_r, ?andb_true_r; [|done].
    repeat match goal with
      | |- context [(?a <=? ?b)%Z] => destruct (Z.leb_spec a b)
      | |- context [(?a <? ?b)%Z] => destruct (Z.ltb_spec a b)
      end; simpl; try done; lia.
  - assert (Z.testbit v n = false) as ->; [|by rewrite !andb_false_r].
    destruct (decide (v = 0)%Z) as [->|Hne]; [apply Z.testbit_0_l|].
    apply Z.bits_above_log2; [lia|]. apply Z.log2_lt_pow2; [lia|].
    eapply Z.lt_le_trans; [apply Hv|]. by apply Z.pow_le_mono_r.
Qed.

(** ** Frames *)
Section frames.
Context `{ProtoLaws}.

Lemma ReadFull_app (l rest : list byte) : ReadFull (length l) (l ++ rest) = Ok (l, rest).
Proof.
  unfold ReadFull. rewrite decide_True by (rewrite length_app; lia).
  by rewrite take_app_length, drop_app_length.
Qed.

Definition frame (data : list byte) : list byte :=
  BigEndian_PutUint32 (to_uint32 (Z.of_nat (length data))) ++ data.

Lemma pipe_Read_frame rpc data rest :
  proto_Marshal rpc = Ok data → (Z.of_nat (length data) < 2 ^ 32)%Z →
  pipe_Read (frame data ++ rest) = Ret (Ok (proto_norm rpc), rest).
Proof.
  intros Hm Hlen. unfold pipe_Read, frame. rewrite <-app_assoc.
  pose proof (ReadFull_app (BigEndian_PutUint32 (to_uint32 (Z.of_nat (length data)))) (data ++ rest)) as Hr.
  change (length (BigEndian_PutUint32 _)) with 4 in Hr. rewrite Hr. unfold BigEndian_PutUint32.
  unfold to_uint32. rewrite Z.mod_small by lia.
  rewrite Uint32_PutUint32 by lia. rewrite Nat2Z.id, ReadFull_app.
  by rewrite (Unmarshal_Marshal_norm rpc).
Qed.

Lemma pipe_writes_frames l datas conn :
  Forall2 (λ rpc data, proto_Marshal rpc = Ok data) l datas →
  pipe_writes l conn = Ret (conn ++ (datas ≫= frame)).
Proof.
  intros Hl. revert conn. induction Hl as [|rpc data l datas Hm Hl IH]; intros conn; simpl.
  - by rewrite app_nil_r.
  - unfold pipe_Write. rewrite Hm. simpl. rewrite IH. unfold frame at 2. simpl. by rewrite <-!app_assoc.
Qed.

(** C34: a pipe is a faithful transport: the Rpcs that were written to it, each
    of which encodes to less than 4 GiB, are read from it, as many and in the same
    order, each as protobuf delivers it, and the bytes that followed them are left. *)
Theorem pipe_roundtrip l rest :
  Forall (λ rpc, ∃ data, proto_Marshal rpc = Ok data ∧ (Z.of_nat (length data) < 2 ^ 32)%Z) l →
  ∃ conn, pipe_writes l [] = Ret conn ∧
    pipe_reads (length l) (conn ++ rest) = Ret (Ok ∘ proto_norm <$> l, rest).
Proof.
  intros Hl.
  assert (∃ datas, Forall2 (λ rpc data, proto_Marshal rpc = Ok data ∧ (Z.of_nat (length data) < 2 ^ 32)%Z) l datas)
    as [datas Hd].
  { induction Hl as [|rpc l (data & Hm & Hlen) Hl [datas IH]]; [by exists []|].
    exists (data :: datas). by constructor. }
  exists (datas ≫= frame). split.
  - rewrite (pipe_writes_frames l datas []); [done|]. eapply Forall2_impl; [exact Hd|]. by intros ? ? [? _].
  - clear Hl. induction Hd as [|rpc data l datas [Hm Hlen] Hd IH]; [done|].
    rewrite bind_cons, <-app_assoc. cbn [length pipe_reads].
    rewrite (pipe_Read_frame rpc) by done. simpl. by rewrite IH.
Qed.

(** The length of a frame is taken modulo 2^32: an Rpc that encodes to 4 GiB
    or more is not rejected; its frame is read as a shorter one, and the bytes
    that are left over are taken for the next frame. *)
Theorem pipe_overflow rpc data conn rest :
  proto_Marshal rpc = Ok data → (2 ^ 32 ≤ Z.of_nat (length data))%Z →
  pipe_Write None None None rpc conn = Ret (None, conn ++ frame data) ∧
  ReadFull 4 (frame data ++ rest) =
    Ok (BigEndian_PutUint32 (to_uint32 (Z.of_nat (length data))), data ++ rest) ∧
  (to_uint32 (Z.of_nat (length data)) < Z.of_nat (length data))%Z.
Proof.
  intros Hm Hlen. split_and!.
  - unfold pipe_Write. rewrite Hm. simpl. by rewrite <-app_assoc.
  - unfold frame. rewrite <-app_assoc.
    apply (ReadFull_app (BigEndian_PutUint32 (to_uint32 (Z.of_nat (length data)))) (data ++ rest)).
  - unfold to_uint32. eapply Z.lt_le_trans; [|exact Hlen]. apply Z.mod_pos_bound. lia.
Qed.

(** A websocket delivers each Rpc that was written as protobuf delivers it,
    and rejects text messages. *)
Theorem websocket_roundtrip rpc msg :
  ws_Write rpc = Ok msg →
  ws_Read (Ok msg) = Ok (proto_norm rpc) ∧ ws_Read (Ok (MessageText, msg.2)) = Err errNonBinaryWebsocketMessage.
Proof.
  unfold ws_Write. destruct (proto_Marshal rpc) as [data|] eqn:Hm; [|done]. intros [= <-].
  split; [|done]. simpl. by apply Unmarshal_Marshal_norm.
Qed.
End frames.

Section witnesses.
(** Only Rpcs without any part are encoded, by their id. *)
#[local] Instance id_proto : Proto := {|
  proto_Marshal rpc :=
    match rpc with
    | mkRpc id None None None None None =>
        if decide (0 ≤ id < 256)%Z then Ok [byte_of id] else Err (External "marshal")
    | _ => Err (External "marshal")
    end;
  proto_Unmarshal data :=
    match data with
    | [b] => Ok (mkRpc (of_byte b) None None None None None)
    | _ => Err (External "unmarshal")
    end;
  proto_norm rpc := rpc |}.
#[local] Instance id_proto_laws : ProtoLaws.
Proof.
  intros [id [] [] [] [] []] data; simpl; try done. case_decide as Hid; [|done]. intros [= <-].
  rewrite of_byte_of. change 255%Z with (Z.ones 8). rewrite Z.land_ones, Z.mod_small by lia. done.
Qed.
Definition id_rpc (id : Z) : Rpc := mkRpc id None None None None None.

Lemma pipe_roundtrip_witness :
  ∃ conn, pipe_writes [id_rpc 7; id_rpc 9] [] = Ret conn ∧
    pipe_reads 2 (conn ++ [Byte.x2a]) = Ret ([Ok (id_rpc 7); Ok (id_rpc 9)], [Byte.x2a]).
Proof.
  destruct (pipe_roundtrip [id_rpc 7; id_rpc 9] [Byte.x2a]) as (conn & Hw & Hr).
  - repeat constructor; eexists; (split; [reflexivity|simpl; lia]).
  - exists conn. split; [exact Hw|exact Hr].
Defined.

Lemma websocket_roundtrip_witness : ws_Read (ws_Write (id_rpc 7)) = Ok (id_rpc 7).
Proof. by destruct (websocket_roundtrip (id_rpc 7) (MessageBinary, [byte_of 7])). Defined.
End witnesses.
